(* ===== verification/_CoqProject ===== *)
-Q . S2P
Prelude.v
Utils.v
Platform.v
Memcpy.v
ByteArray.v
Compress.v
Serializer.v
Atomic.v
AtomicOps.v
Lock.v
Cond.v
LinkedList.v
Monitor.v
Queue.v
SyncedQueue.v
LkFree.v
Itachi.v
Handlers.v
ASocket.v
Descriptors.v
Nasty.v
Dispatch.v
Rpc.v
Loops.v
Trees.v
Arrays.v
Numbers.v
Words.v
Texts.v
Cuts.v
Parsing.v
Sums.v
Segments.v
Search.v
Ladders.v
Vmtouch.v
Nodes.v
NodeTrees.v
Connect.v
Graphs.v
