(* ===== verification/Prelude.v ===== *)
(** * sperm: verification development (root file)

    The program. The repository's C++ is a small server library under
    src/code/cc: [common] (byte buffers, variable-length integers, typed
    serialization, atomics, locks, conditions, queues, a lock-free allocator, a
    fast memcpy, socket helpers), [itachi] (an asynchronous dispatcher: contexts
    are launched on CPU threads or on libev poll threads, and framed messages
    are moved over sockets by it), [sasuke] (remote calls over zeromq that
    serialize with [common]) and [nasty] (a reader and printer of nested
    expressions), with the tool [vmtouch] in a directory of its own. Beside it,
    src/code/leetcode holds stand-alone solutions of algorithmic exercises, one
    class each. The buffers carry the serializers, the serializers carry the
    remote calls; the locks and conditions carry the blocking queues; the queues
    and reference counts carry the dispatcher, and the dispatcher the
    asynchronous sockets. The files below follow that order.

    Conventions. A C++ integer is a [Z] with the wrap-around of its type
    written out ([u32], [s64], ...); a buffer is a [list byte]. [option] (or a
    type of outcomes) is used for undefined behaviour, failed assertions,
    exceptions and SPERM_FATAL: [None] is never a normal answer of the code
    where a -1 or a [false] is. System calls, pthread, libev, zeromq, malloc and
    protobuf are parameters: their results are arguments, or a class states the
    documented contract the code relies on, and a witness instantiates it.
    Concurrent code is a step relation over any number of threads, one access to
    shared memory or one critical section per step; runs are [steps] below, of
    any length.

    Files (sources are under src/code/cc, those from Loops.v on under
    src/code/leetcode):
    - Prelude.v: this file; machine integers, byte and buffer lemmas, the closure
      of a step relation, counting over lists, tactics.
    - Utils.v: common/utils.h - endian reversal, powers of two, bit reversal,
      deadlines, murmur hash.
    - Platform.v: common/utils.h, common/fs.h - numbers as text, processor
      features, flags and locks of descriptors, the entries of a directory.
    - Memcpy.v: common/fast_memcpy.h - every label of the jump table, and the
      dispatch on the size.
    - ByteArray.v: common/byte_array.{h,cc} - modules [Readable], [Writeable],
      [StlString].
    - Compress.v: common/compress.h - the 1 to 9 byte integers over pointers,
      and over byte arrays in module [Bytes].
    - Serializer.v: common/serializer.h, common/proto_serializer.h - the class
      [Stream] of serializers and its laws [StreamLaws]; module [Proto].
    - Atomic.v: common/atomic_x86_64.h, common/atomic.h - primitives at their
      four widths; [RefCount].
    - AtomicOps.v: the adding, testing and bit macros of common/atomic_x86_64.h,
      and common/atomic_i386.h, whose 64-bit arms abort.
    - Lock.v: common/lock.{h,cc} - the four locks; threads over a MutexLock, whose
      steps follow the results of a pthread mutex with an owner.
    - Cond.v: common/cond.{h,cc} - pthread, pipe and futex conditions.
    - LinkedList.v: common/queue.h - the intrusive lists over a heap of nodes,
      refined to lists.
    - Monitor.v, Queue.v: common/queue.h - the shape the blocking queues share as
      a class, and BlockingQueue, BoundedBlockingQueue, BlockingPriorityQueue
      and the blocking linked lists as its instances.
    - SyncedQueue.v: common/queue.h - SyncedQueue against the class [Tickets] of
      conditions, with futex and pipe as instances.
    - LkFree.v: common/lkfree.h - the Treiber stack of entries; with one thread
      allocating, free list, held entries and those being freed are the arena.
    - Itachi.v: itachi/itachi.{h,cc}, itachi/handler.{h,cc} - contexts, launch,
      the loops of the CPU and poll threads. Handlers.v: the arrays, threads and
      event loops the two handlers make in [start] and give back in [stop]; a
      thread can be joined only once [stop_] is set and, if it waits in an event
      loop, once that was woken after.
    - ASocket.v: itachi/asocket.{h,cc}, common/socket.h - modules [Message],
      [Socket], [AsyncSocket] over the dispatcher of Itachi.v.
    - Descriptors.v: common/cond.{h,cc}, common/socket.h - the descriptors behind
      the conditions and the three factories that make them; names of sockets.
    - Nasty.v: nasty/nasty.{h,cc,lexer,parser}.
    - Dispatch.v, Rpc.v: sasuke/rpc.{h,cc}, sasuke/proto_rpc.h - what goes over
      the wire and [ServiceCallBack::handle]; then client, worker threads,
      device, server and context over zeromq.
    - Loops.v: counting loops in the option monad with their invariant rules,
      arrays whose accesses are checked, least and greatest elements.
    - Trees.v: the exercises on binary trees, a module each or per family:
      traversals, depths, path sums, search trees, building and listing trees.
    - Arrays.v: scans and dynamic programs over vectors: candy, container, stock,
      gas station, merge, longest consecutive sequence.
    - Numbers.v: division by shifts, gray codes, single numbers.
    - Words.v: interleaved strings, wildcard matching, splitting into words.
    - Texts.v: brackets valid and generated, palindromes in a text, the longest
      common prefix, the letters of a telephone, the longest piece without a
      repetition.
    - Cuts.v: strings cut into palindromes, the bytes of an address, coded letters.
    - Parsing.v: atoi, the grammar of numbers, the digits of an int turned around.
    - Sums.v: pairs, triples and quadruples with a given sum, the closest sum, the
      choices of a vector's numbers, paths and rows of triangles.
    - Segments.v: all sentences a string can be read as, by a trie; the places
      where all words of a list stand side by side; counting subsequences.
    - Search.v: the regions of a board that reach its border, by a search in depth.
      Ladders.v: ladders of words, by a search in breadth and by Floyd's algorithm.
    - Vmtouch.v: vmtouch/vmtouch.c - options, sizes, the chart of resident pages,
      the treatment of a file, the walk through directories as runs of a state
      monad over the class [Kernel], the program and its daemon; the pages mapped
      and locked are counted.
    - Nodes.v: linked lists in a heap; [seg] says which nodes a pointer leads to,
      [turns] what an operation makes of them: removing duplicates or the n-th
      node, reversing, swapping, adding numbers, merging.
    - NodeTrees.v: a list taken apart into a search tree, a tree flattened into a
      list. Connect.v: the levels of a tree linked by its next pointers.
    - Graphs.v: copying a list with random pointers and cloning a graph, both by
      the same relation [extends] between the memory before and after a call.

    What the theorems show.
    - Round trips: integers, typed streams, protobuf messages, socket frames
      through partial writes, expressions through printing and reading, and a
      whole remote call from [Client::call] to the service and back.
    - Safety and liveness under any interleaving: the blocking queues neither
      lose, duplicate nor reorder elements, their assertions hold, no sleeping
      thread misses its wake-up, and a pop from the priority queue takes what
      nothing in it beats; a MutexLock excludes; reference counts
      of the dispatcher equal the references there are, so that no context is
      used after it was deleted; the allocator is safe with one allocating
      thread and loses no entry; the futex condition grants no more than was
      notified, [anotify] included, as long as no wait times out.
    - Refinement and equivalence: linked lists to lists, the memcpy to memcpy,
      the hash to its reference, the lexer to its rules, the parser to its
      grammar, the device to the forwarding of parts, one lost at most, and of
      whole messages while no call fails.
    - The page cache tool: its walk ends on every file system, counts a tree
      exactly, touches every page of a file and, unless it locks, keeps nothing;
      a daemon that sleeps has locked what it counted, and the process that waits
      for it succeeds only then.
    - The exercises: each returns, on every input within the stated bounds, what
      a declarative specification asks for (the greatest path, the fewest
      candies, all search trees once, the shuffles of two strings, ...), no
      access leaves its array and no [int] overflows.
    - Bounds, errors, termination: what a reader reads, what a failed launch,
      run or call leaves behind, when the retry loops end.
    - Where the code does not do what it means to, the theorem states what it
      does, with the run that shows it: the ABA problem of the allocator, the
      timeouts of the futex condition, a body that arrives in two pieces, a
      launch before its message is stored, a second free after [close], a
      request longer than its message, a worker whose handler fails once.

    Bounds and fuel. Loops of the code are structural on the data or on the
    results of the calls they make. The doubling of [Writeable.allocate] has 64
    rounds, enough for every size up to 2^63 ([double_spec]); [Nasty.lex] has
    the length of the input ([lex_fuel_enough]). The recursions of the
    exercises that are not structural take the number of nodes, of characters or
    of values left, and their theorems start them with enough; a loop over nodes
    in memory has as many rounds as there are nodes, and two. The walk of vmtouch
    has 1025, one more than the depth it allows. The step relations have no
    bound.

    Coarser than the code. [Itachi.launch_] - acquire, the test of the flag, the
    push and the way back - is one step of the dispatcher, where the code's threads
    can interleave with its parts. [Nasty.parse] has no bound on its stack; the
    parser bison generates refuses input that needs more than 10000 places
    (YYMAXDEPTH). [Vmtouch.retry_open] takes what one call of open or opendir
    answers in all its attempts as a finite value: that they end, because the
    limit of descriptors is raised or the answer changes, is assumed of the kernel.
    A thread of a handler that is not waiting is taken to come back to the test of
    [stop_]: the clients' [onComplete] return.

    Not modelled: the clock and sleep (common/utils.h), the setting of single
    socket options, logging, protobuf reflection (common/proto_dynamic.h);
    nasty.l.cc and nasty.y.cc, which flex and bison generate from the files
    modelled; the percentage and the times vmtouch prints; astyle and
    zhelpers.h, third-party code; the benchmarks, experiments and tests; and the
    exercises of src/code/leetcode that no file above names. *)

From Stdlib Require Export ZArith Lia Strings.Byte.
From stdpp Require Export base functions gmap strings fin_maps numbers option list.

#[global] Open Scope Z_scope.

(** ** Notation scope of the development *)

Declare Scope sperm_scope.
Delimit Scope sperm_scope with sperm.

(** ** Machine integers

    A [w]-bit unsigned integer is a [Z] in [0 .. 2^w - 1], a signed one a [Z]
    in [-2^(w-1) .. 2^(w-1) - 1]; every operation of the source that can leave
    the range is followed by the conversion its C++ type prescribes. *)

Definition wrapU (w z : Z) : Z := z `mod` 2 ^ w.
Definition wrapS (w z : Z) : Z := (z + 2 ^ (w - 1)) `mod` 2 ^ w - 2 ^ (w - 1).

Definition u8 : Z -> Z := wrapU 8.
Definition u32 : Z -> Z := wrapU 32.
Definition u64 : Z -> Z := wrapU 64.
Definition s32 : Z -> Z := wrapS 32.
Definition s64 : Z -> Z := wrapS 64.

Definition isU (w z : Z) : Prop := 0 <= z < 2 ^ w.
Definition isS (w z : Z) : Prop := - 2 ^ (w - 1) <= z < 2 ^ (w - 1).

Create HintDb sperm.

(** ** Boolean tests on integers

    [zbool] turns the boolean comparisons of the goal and the hypotheses into
    propositions [lia] understands; [zb] also closes the goal; [ztrue e] and
    [zfalse e] replace the test [e] by its value. *)
Create Rewrite HintDb zbool.
#[export] Hint Rewrite andb_true_iff andb_false_iff orb_true_iff orb_false_iff
  negb_true_iff negb_false_iff Z.leb_le Z.leb_gt Z.ltb_lt Z.ltb_ge Z.eqb_eq Z.eqb_neq
  Nat.leb_le Nat.leb_gt Nat.ltb_lt Nat.ltb_ge Nat.eqb_eq Nat.eqb_neq : zbool.
Ltac zbool :=
  autorewrite with zbool;
  repeat match goal with
  | H : @eq bool _ _ |- _ => progress autorewrite with zbool in H
  end.
Ltac zb := zbool; lia.
(** Linear arithmetic with division and modulo by constants. *)
Ltac dlia := Z.div_mod_to_equations; lia.
(** Case analysis on the test of the first [if] of the goal. *)
Ltac case_bool :=
  match goal with
  | |- context [if ?b then _ else _] => let E := fresh "E" in destruct b eqn:E
  end.
Tactic Notation "ztrue" constr(e) := replace e with true by (symmetry; zb).
Tactic Notation "zfalse" constr(e) := replace e with false by (symmetry; zb).

Create HintDb mint.
Create Rewrite HintDb mint.

Lemma wrapU_range w z : 0 <= w -> isU w (wrapU w z).
Proof. intros. apply Z.mod_pos_bound. lia. Qed.

Lemma wrapU_id w z : isU w z -> wrapU w z = z.
Proof. intros. by apply Z.mod_small. Qed.

Lemma wrapS_range w z : 0 < w -> isS w (wrapS w z).
Proof.
  intros. unfold isS, wrapS.
  assert (2 ^ w = 2 * 2 ^ (w - 1)) as Hw
    by (rewrite <- Z.pow_succ_r by lia; f_equal; lia).
  pose proof (Z.mod_pos_bound (z + 2 ^ (w - 1)) (2 ^ w)). lia.
Qed.

Lemma wrapS_id w z : 0 < w -> isS w z -> wrapS w z = z.
Proof.
  intros ? Hz. unfold isS, wrapS in *.
  assert (2 ^ w = 2 * 2 ^ (w - 1)) as Hw
    by (rewrite <- Z.pow_succ_r by lia; f_equal; lia).
  rewrite Z.mod_small; lia.
Qed.

(** The two readings of one bit pattern agree modulo [2^w]. *)
Lemma wrapU_wrapS w z : 0 < w -> wrapU w (wrapS w z) = wrapU w z.
Proof.
  intros. unfold wrapU, wrapS.
  rewrite Zminus_mod_idemp_l. f_equal. lia.
Qed.

Lemma wrapS_wrapU w z : 0 < w -> wrapS w (wrapU w z) = wrapS w z.
Proof. intros. unfold wrapU, wrapS. by rewrite Zplus_mod_idemp_l. Qed.

Lemma wrapU_add_l w a b : wrapU w (wrapU w a + b) = wrapU w (a + b).
Proof. apply Zplus_mod_idemp_l. Qed.

Lemma wrapU_add_r w a b : wrapU w (a + wrapU w b) = wrapU w (a + b).
Proof. apply Zplus_mod_idemp_r. Qed.

Lemma wrapU_mul_l w a b : wrapU w (wrapU w a * b) = wrapU w (a * b).
Proof. apply Zmult_mod_idemp_l. Qed.

#[export] Hint Rewrite wrapU_add_l wrapU_add_r wrapU_mul_l : mint.
#[export] Hint Resolve wrapU_range wrapS_range wrapU_id wrapS_id : mint.

(** Concrete widths, so that [lia] sees numerals. *)
Lemma u64_range z : 0 <= u64 z < 18446744073709551616.
Proof. apply (wrapU_range 64). lia. Qed.
Lemma u64_id z : 0 <= z < 18446744073709551616 -> u64 z = z.
Proof. apply (wrapU_id 64). Qed.
Lemma u32_range z : 0 <= u32 z < 4294967296.
Proof. apply (wrapU_range 32). lia. Qed.
Lemma u32_id z : 0 <= z < 4294967296 -> u32 z = z.
Proof. apply (wrapU_id 32). Qed.
Lemma s64_range z : -9223372036854775808 <= s64 z < 9223372036854775808.
Proof. apply (wrapS_range 64). lia. Qed.
Lemma s64_id z : -9223372036854775808 <= z < 9223372036854775808 -> s64 z = z.
Proof. apply (wrapS_id 64). lia. Qed.
Lemma s32_range z : -2147483648 <= s32 z < 2147483648.
Proof. apply (wrapS_range 32). lia. Qed.
Lemma s32_id z : -2147483648 <= z < 2147483648 -> s32 z = z.
Proof. apply (wrapS_id 32). lia. Qed.

#[export] Hint Resolve u64_range u32_range s64_range s32_range : mint.

(** ** Undefined behaviour

    A computation of type [option A] is [None] when the C++ code runs into
    undefined behaviour (an access outside its object, a null dereference, a
    signed overflow) or aborts; stdpp's monad notation sequences them. *)

Notation "'ub'" := (@None _) (only parsing) : sperm_scope.

(** Signed 32-bit arithmetic: the result, or undefined behaviour. *)
Definition int_range (z : Z) : bool := (-2147483648 <=? z) && (z <=? 2147483647).
Definition chk32 (z : Z) : option Z := if int_range z then Some z else None.

Lemma int_range_spec z : int_range z = true <-> -2147483648 <= z <= 2147483647.
Proof. unfold int_range. lia. Qed.

Lemma chk32_ok z : -2147483648 <= z <= 2147483647 -> chk32 z = Some z.
Proof. unfold chk32. intros H. by rewrite (proj2 (int_range_spec z) H). Qed.

Lemma chk32_inv z y : chk32 z = Some y -> y = z /\ -2147483648 <= z <= 2147483647.
Proof.
  unfold chk32. destruct (int_range z) eqn:E; [|done]. intros [= ->].
  by apply int_range_spec in E.
Qed.

(** The same at 64 bits. *)
Definition chk64 (z : Z) : option Z :=
  if (-9223372036854775808 <=? z) && (z <=? 9223372036854775807) then Some z else None.

Lemma chk64_ok z : -9223372036854775808 <= z <= 9223372036854775807 -> chk64 z = Some z.
Proof.
  intros. unfold chk64.
  by assert ((-9223372036854775808 <=? z) && (z <=? 9223372036854775807) = true) as -> by lia.
Qed.

Lemma chk64_inv z y : chk64 z = Some y -> y = z /\ -9223372036854775808 <= z <= 9223372036854775807.
Proof. unfold chk64. destruct (_ && _) eqn:E; [|done]. intros [= <-]. lia. Qed.

(** Reading and writing an array through an [int] or [size_t] index. *)
Definition arr_get {A} (l : list A) (i : Z) : option A :=
  if i <? 0 then None else l !! Z.to_nat i.
Definition arr_set {A} (l : list A) (i : Z) (x : A) : option (list A) :=
  if (0 <=? i) && (i <? Z.of_nat (length l)) then Some (<[Z.to_nat i := x]> l) else None.

Lemma arr_get_nat {A} (l : list A) (i : nat) : arr_get l (Z.of_nat i) = l !! i.
Proof.
  unfold arr_get. rewrite Nat2Z.id.
  by zfalse (Z.of_nat i <? 0).
Qed.

Lemma arr_set_nat {A} (l : list A) (i : nat) x :
  (i < length l)%nat -> arr_set l (Z.of_nat i) x = Some (<[i := x]> l).
Proof.
  intros. unfold arr_set. rewrite Nat2Z.id.
  by ztrue ((0 <=? Z.of_nat i) && (Z.of_nat i <? Z.of_nat (length l))).
Qed.

Lemma arr_get_Some {A} (l : list A) i x :
  arr_get l i = Some x <-> 0 <= i /\ l !! Z.to_nat i = Some x.
Proof. unfold arr_get. destruct (Z.ltb_spec i 0); naive_solver lia. Qed.

(** ** Bytes and little-endian storage *)

Definition byte_to_Z (b : byte) : Z := Z.of_N (Byte.to_N b).
Definition byte_of_Z (z : Z) : byte :=
  match Byte.of_N (Z.to_N (z `mod` 256)) with Some b => b | None => x00 end.

Lemma byte_to_Z_range b : 0 <= byte_to_Z b < 256.
Proof. unfold byte_to_Z. pose proof (Byte.to_N_bounded b). lia. Qed.

Lemma byte_of_to b : byte_of_Z (byte_to_Z b) = b.
Proof.
  unfold byte_of_Z. rewrite Z.mod_small by apply byte_to_Z_range.
  unfold byte_to_Z. rewrite N2Z.id. by rewrite Byte.of_to_N.
Qed.

Lemma byte_to_of z : byte_to_Z (byte_of_Z z) = z `mod` 256.
Proof.
  unfold byte_of_Z, byte_to_Z.
  pose proof (Z.mod_pos_bound z 256 ltac:(lia)) as Hz.
  destruct (Byte.of_N (Z.to_N (z `mod` 256))) as [b|] eqn:E.
  - apply Byte.to_of_N in E. rewrite E. lia.
  - apply Byte.of_N_None_iff in E. lia.
Qed.

#[export] Hint Resolve byte_to_Z_range : mint.

#[global] Instance byte_eq_dec : EqDecision byte := Byte.byte_eq_dec.
#[global] Instance byte_countable : Countable byte :=
  inj_countable Byte.to_N Byte.of_N Byte.of_to_N.

Fixpoint le_bytes (n : nat) (z : Z) : list byte :=
  match n with
  | O => []
  | S n => byte_of_Z z :: le_bytes n (z / 256)
  end.

Fixpoint le_val (bs : list byte) : Z :=
  match bs with
  | [] => 0
  | b :: bs => byte_to_Z b + 256 * le_val bs
  end.

Lemma length_le_bytes n z : length (le_bytes n z) = n.
Proof. revert z. induction n as [|n IH]; intros; simpl; [done|]. by rewrite IH. Qed.

Lemma pow256_succ n : 256 ^ Z.of_nat (S n) = 256 * 256 ^ Z.of_nat n.
Proof. rewrite Nat2Z.inj_succ, Z.pow_succ_r by lia. lia. Qed.

Lemma le_val_bytes n z : le_val (le_bytes n z) = z `mod` 256 ^ Z.of_nat n.
Proof.
  revert z. induction n as [|n IH]; intros z; simpl; [by rewrite Z.mod_1_r|].
  rewrite IH, byte_to_of, pow256_succ, Z.rem_mul_r by lia. lia.
Qed.

Lemma le_val_range bs : 0 <= le_val bs < 256 ^ Z.of_nat (length bs).
Proof.
  induction bs as [|b bs IH]; simpl le_val; [simpl; lia|].
  simpl length. rewrite pow256_succ. pose proof (byte_to_Z_range b). lia.
Qed.

Lemma le_bytes_val bs : le_bytes (length bs) (le_val bs) = bs.
Proof.
  induction bs as [|b bs IH]; simpl; [done|].
  pose proof (byte_to_Z_range b).
  f_equal.
  - rewrite <- (byte_of_to b) at 2. unfold byte_of_Z. do 3 f_equal.
    rewrite (Z.mul_comm 256), Z_mod_plus_full. by rewrite (Z.mod_small (byte_to_Z b)).
  - rewrite Z.add_comm, Z.mul_comm, Z.div_add_l, Z.div_small by lia.
    by rewrite Z.add_0_r.
Qed.

Lemma le_val_app a b :
  le_val (a ++ b) = le_val a + 256 ^ Z.of_nat (length a) * le_val b.
Proof.
  induction a as [|x a IH]; [simpl; lia|].
  cbn [app length le_val]. rewrite IH, pow256_succ. lia.
Qed.

Lemma le_val_zeros n : le_val (replicate n x00) = 0.
Proof. induction n as [|n IH]; simpl; [done|]. by rewrite IH. Qed.

Lemma take_le_bytes n m z : (n <= m)%nat -> take n (le_bytes m z) = le_bytes n z.
Proof.
  revert m z. induction n as [|n IH]; intros [|m] z; simpl; try done; try lia.
  intros. by rewrite IH by lia.
Qed.

(** ** Buffers: bounds-checked reads and writes of a byte buffer *)

Definition peek (buf : list byte) (off n : Z) : option (list byte) :=
  if (0 <=? off) && (0 <=? n) && (off + n <=? Z.of_nat (length buf))
  then Some (take (Z.to_nat n) (drop (Z.to_nat off) buf)) else None.

Definition poke (buf : list byte) (off : Z) (bs : list byte) : option (list byte) :=
  if (0 <=? off) && (off + Z.of_nat (length bs) <=? Z.of_nat (length buf))
  then Some (take (Z.to_nat off) buf ++ bs ++ drop (Z.to_nat off + length bs) buf) else None.

Lemma peek_app (a b c : list byte) :
  peek (a ++ b ++ c) (Z.of_nat (length a)) (Z.of_nat (length b)) = Some b.
Proof.
  unfold peek. rewrite !length_app, !Nat2Z.id. case_bool; [|zb].
  by rewrite drop_app_length, take_app_length.
Qed.

Lemma peek_length buf off n bs : peek buf off n = Some bs -> Z.of_nat (length bs) = n.
Proof.
  unfold peek. destruct (_ && _ && _) eqn:E; [|done]. intros [= <-].
  rewrite length_take, length_drop. zb.
Qed.

Lemma peek_take buf (n : nat) : (n <= length buf)%nat -> peek buf 0 (Z.of_nat n) = Some (take n buf).
Proof. intros. unfold peek. case_bool; [|zb]. simpl. by rewrite drop_0, Nat2Z.id. Qed.

Lemma poke_app (a b c bs : list byte) :
  length bs = length b ->
  poke (a ++ b ++ c) (Z.of_nat (length a)) bs = Some (a ++ bs ++ c).
Proof.
  intros Hl. unfold poke. rewrite !length_app, !Nat2Z.id.
  case_bool; [|zb].
  rewrite take_app_length, Hl, (assoc_L (++) a b c), <- length_app, drop_app_length. done.
Qed.

Lemma poke_length buf off bs buf' :
  poke buf off bs = Some buf' -> length buf' = length buf.
Proof.
  unfold poke. destruct (_ && _) eqn:E; [|done]. intros [= <-].
  rewrite !length_app, length_take, length_drop. zb.
Qed.

(** ** Reflexive-transitive closure of a step relation, with its labels *)

Section star.
Context {S L : Type} (step : S -> option L -> S -> Prop).

(** [steps s ls s']: a run from [s] to [s'] whose visible labels are [ls]. *)
Inductive steps : S -> list L -> S -> Prop :=
| steps_nil s : steps s [] s
| steps_tau s1 s2 s3 ls : step s1 None s2 -> steps s2 ls s3 -> steps s1 ls s3
| steps_lab s1 l s2 s3 ls : step s1 (Some l) s2 -> steps s2 ls s3 -> steps s1 (l :: ls) s3.

Lemma steps_app s1 ls1 s2 ls2 s3 :
  steps s1 ls1 s2 -> steps s2 ls2 s3 -> steps s1 (ls1 ++ ls2) s3.
Proof. induction 1; intros; simpl; eauto using steps. Qed.

(** Rule induction for invariants: an invariant of the start that every step
    preserves holds wherever a run can get. *)
Lemma steps_invariant (I : S -> Prop) s ls s' :
  (forall a l b, I a -> step a l b -> I b) -> I s -> steps s ls s' -> I s'.
Proof. intros Hstep Hs Hr. revert Hs. induction Hr; eauto. Qed.
End star.
#[export] Hint Constructors steps : sperm.

(** ** Counting over a list of threads *)

Fixpoint cnt {A} (f : A -> Z) (l : list A) : Z :=
  match l with [] => 0 | x :: l => f x + cnt f l end.

Lemma cnt_insert {A} (f : A -> Z) l i x y :
  l !! i = Some y -> cnt f (<[i := x]> l) = cnt f l - f y + f x.
Proof.
  revert i. induction l as [|z l IH]; intros [|i]; simpl; try done; [intros [= ->]; lia|].
  intros H. rewrite (IH i H). lia.
Qed.

Lemma cnt_nonneg {A} (f : A -> Z) l : (forall x, 0 <= f x) -> 0 <= cnt f l.
Proof. intros H. induction l as [|x l IH]; simpl; [lia|]. pose proof (H x). lia. Qed.

Lemma cnt_lookup {A} (f : A -> Z) l i x :
  (forall y, 0 <= f y) -> l !! i = Some x -> f x <= cnt f l.
Proof.
  intros Hf. revert i. induction l as [|z l IH]; intros [|i]; simpl; try done.
  - intros [= ->]. pose proof (cnt_nonneg f l Hf). lia.
  - intros H. pose proof (IH i H). pose proof (Hf z). lia.
Qed.

(** A positive count is somebody. *)
Lemma cnt_pos {A} (f : A -> Z) l :
  (forall x, 0 <= f x) -> 0 < cnt f l -> exists i x, l !! i = Some x /\ 0 < f x.
Proof.
  intros Hf. induction l as [|z l IH]; simpl; [lia|]. intros H.
  destruct (decide (0 < f z)); [by exists 0%nat, z|].
  pose proof (Hf z). destruct IH as (i & x & ? & ?); [lia|]. by exists (S i), x.
Qed.

Lemma cnt_replicate {A} (f : A -> Z) n x : cnt f (replicate n x) = Z.of_nat n * f x.
Proof. induction n as [|n IH]; [simpl; lia|]. cbn [replicate cnt]. rewrite IH. lia. Qed.

Lemma cnt_app {A} (f : A -> Z) l k : cnt f (l ++ k) = cnt f l + cnt f k.
Proof. induction l as [|x l IH]; simpl; [done|]. rewrite IH. lia. Qed.

#[export] Instance cnt_perm {A} (f : A -> Z) : Proper (Permutation ==> eq) (cnt f).
Proof. induction 1; simpl; lia. Qed.

(** How often [x] occurs. *)
Definition occ {A} `{EqDecision A} (x : A) (l : list A) : Z :=
  cnt (fun y => if decide (y = x) then 1 else 0) l.

Lemma occ_nonneg {A} `{EqDecision A} (x : A) l : 0 <= occ x l.
Proof. apply cnt_nonneg. intros y. case_decide; lia. Qed.

Lemma occ_pos {A} `{EqDecision A} (x : A) l : x ∈ l <-> 0 < occ x l.
Proof.
  unfold occ. induction l as [|y l IH]; simpl; [split; [by intros ?%elem_of_nil|lia]|].
  pose proof (occ_nonneg x l) as H. unfold occ in H. rewrite elem_of_cons, IH.
  destruct (decide (y = x)) as [->|Hne].
  - split; [lia|by left].
  - split; [intros [->|]; [done|lia]|right; lia].
Qed.

(** Replacing one of several lists. *)
Lemma concat_insert {A} (ls : list (list A)) i l k :
  ls !! i = Some l -> concat (<[i := k]> ls) ++ l ≡ₚ concat ls ++ k.
Proof.
  revert i. induction ls as [|x ls IH]; intros [|i]; simpl; try done.
  - intros [= ->]. solve_Permutation.
  - intros H. rewrite <- !(assoc_L (++)). by rewrite (IH i H).
Qed.

(** ** Tactics *)

(** Split the hypotheses an [option] bind leaves behind. *)
Ltac bind_inv :=
  repeat match goal with
  | H : (_ ≫= _) = Some _ |- _ => apply bind_Some in H; destruct H as (? & ? & ?)
  | H : mbind _ _ = Some _ |- _ => apply bind_Some in H; destruct H as (? & ? & ?)
  | H : Some _ = Some _ |- _ => injection H as H; subst
  | H : (_, _) = (_, _) |- _ => injection H as H; subst
  | H : mret _ = Some _ |- _ => unfold mret, option_ret in H
  end.

