(* ===== verification/Utils.v ===== *)
(** * Utils: the bit tricks, time arithmetic and hashing of common/utils.h

    [timespec] is the C structure; the integer functions work on [Z] with the
    wrap-around of their C types. System calls of the header (clock, sleep,
    fcntl, cpuid, gethostname) are not modelled. *)

From S2P Require Import Prelude.

(** ** Buffers of std::string *)

(** src/code/cc/common/utils.h:58-61 [string_as_array]
    The offset of the first character, [None] for NULL. *)
Definition string_as_array (str : list byte) : option Z :=
  match str with [] => None | _ => Some 0 end.

(** ** Bit manipulation *)

(** src/code/cc/common/utils.h:63-65 [reverse_endian] *)
Definition reverse_endian (p : Z) : Z :=
  u32 (u32 (u32 (u32 (Z.shiftl (Z.land p 0x000000ff) 24)
                 + u32 (Z.shiftl (Z.land p 0x0000ff00) 8))
            + Z.shiftr (Z.land p 0x00ff0000) 8)
       + Z.shiftr (Z.land p 0xff000000) 24).

(** src/code/cc/common/utils.h:67-72 [N_ONES_]
    [w] is the width of IntType, taken signed as in [int64_t]: leaving the
    range is undefined behaviour. *)
Definition N_ONES_ (w N : Z) : option Z :=
  if N =? 0 then Some 0
  else
    let half := Z.shiftl 1 (N - 1) in
    if (0 <? N) && (half <? 2 ^ (w - 1)) then
      let lo := half - 1 in
      if lo + half <? 2 ^ (w - 1) then Some (lo + half) else None
    else None.

(** src/code/cc/common/utils.h:73-75 [is_exp2] *)
Definition is_exp2 (x : Z) : bool :=
  if negb (Z.land x (u64 (x - 1)) =? 0) then false else true.

(** src/code/cc/common/utils.h:77-84 [reverse_uint32] *)
Definition reverse_uint32 (x : Z) : Z :=
  let x := Z.lor (u32 (Z.shiftl (Z.land x 0x55555555) 1)) (Z.shiftr (Z.land x 0xAAAAAAAA) 1) in
  let x := Z.lor (u32 (Z.shiftl (Z.land x 0x33333333) 2)) (Z.shiftr (Z.land x 0xCCCCCCCC) 2) in
  let x := Z.lor (u32 (Z.shiftl (Z.land x 0x0F0F0F0F) 4)) (Z.shiftr (Z.land x 0xF0F0F0F0) 4) in
  let x := Z.lor (u32 (Z.shiftl (Z.land x 0x00FF00FF) 8)) (Z.shiftr (Z.land x 0xFF00FF00) 8) in
  let x := Z.lor (u32 (Z.shiftl (Z.land x 0x0000FFFF) 16)) (Z.shiftr (Z.land x 0xFFFF0000) 16) in
  x.

(** ** Time *)

Record timespec := { tv_sec : Z; tv_nsec : Z }.

(** src/code/cc/common/utils.h:140-150 [addtime_timespec]
    [/] and [%] of C round towards zero. *)
Definition addtime_timespec (tp : timespec) (ms : Z) : timespec :=
  let tp :=
    if 1000 <=? ms then
      {| tv_sec := s64 (tv_sec tp + Z.quot ms 1000);
         tv_nsec := s64 (tv_nsec tp + s32 (s32 (Z.rem ms 1000 * 1000) * 1000)) |}
    else tp in
  let m := 1000 * 1000 * 1000 in
  {| tv_sec := s64 (tv_sec tp + Z.quot (tv_nsec tp) m);
     tv_nsec := Z.rem (tv_nsec tp) m |}.

(** The instant a [timespec] denotes, in nanoseconds. *)
Definition ts_ns (tp : timespec) : Z := tv_sec tp * 1000000000 + tv_nsec tp.

(** ** Murmur hash *)

Definition murmur_m : Z := 0xc6a4a7935bd1e995.
Definition murmur_r : Z := 47.

(** src/code/cc/common/utils.h:176-185 [murmur_hash (block loop)]
    One pass per 8-byte block; [n] counts the blocks left. *)
Fixpoint murmur_blocks (n : nat) (data : list byte) (h : Z) : Z * list byte :=
  match n with
  | O => (h, data)
  | S n =>
      let k := le_val (take 8 data) in
      let k := u64 (k * murmur_m) in
      let k := Z.lxor k (Z.shiftr k murmur_r) in
      let k := u64 (k * murmur_m) in
      let h := Z.lxor h k in
      let h := u64 (h * murmur_m) in
      murmur_blocks n (drop 8 data) h
  end.

Definition data2_at (data2 : list byte) (i : nat) : Z :=
  match data2 !! i with Some b => byte_to_Z b | None => 0 end.

(** src/code/cc/common/utils.h:189-207 [murmur_hash (switch on the tail)]
    The cases fall through from the length of the tail down to 1. *)
Definition murmur_tail (len7 : Z) (data2 : list byte) (h : Z) : Z :=
  let h := if 7 <=? len7 then Z.lxor h (Z.shiftl (data2_at data2 6) 48) else h in
  let h := if 6 <=? len7 then Z.lxor h (Z.shiftl (data2_at data2 5) 40) else h in
  let h := if 5 <=? len7 then Z.lxor h (Z.shiftl (data2_at data2 4) 32) else h in
  let h := if 4 <=? len7 then Z.lxor h (Z.shiftl (data2_at data2 3) 24) else h in
  let h := if 3 <=? len7 then Z.lxor h (Z.shiftl (data2_at data2 2) 16) else h in
  let h := if 2 <=? len7 then Z.lxor h (Z.shiftl (data2_at data2 1) 8) else h in
  if 1 <=? len7 then u64 (Z.lxor h (data2_at data2 0) * murmur_m) else h.

(** src/code/cc/common/utils.h:167-214 [murmur_hash]
    [key] is the buffer of [len] bytes, [len] non-negative. *)
Definition murmur_hash (key : list byte) (len seed : Z) : Z :=
  let h := Z.lxor seed (u64 (len * murmur_m)) in
  let '(h, data2) := murmur_blocks (Z.to_nat (Z.quot len 8)) key h in
  let h := murmur_tail (Z.land len 7) data2 h in
  let h := Z.lxor h (Z.shiftr h murmur_r) in
  let h := u64 (h * murmur_m) in
  Z.lxor h (Z.shiftr h murmur_r).

(** The reference: MurmurHash64A read as a fold over the 8-byte words of the
    key, the incomplete last word zero-extended. *)
Definition mix (h k : Z) : Z :=
  let k := u64 (k * murmur_m) in
  let k := u64 (Z.lxor k (Z.shiftr k murmur_r) * murmur_m) in
  u64 (Z.lxor h k * murmur_m).

Fixpoint words (n : nat) (key : list byte) : list Z * Z :=
  match n with
  | O => ([], le_val key)
  | S n => let '(ws, t) := words n (drop 8 key) in (le_val (take 8 key) :: ws, t)
  end.

Definition murmur_ref (key : list byte) (seed : Z) : Z :=
  let len := Z.of_nat (length key) in
  let '(ws, t) := words (length key / 8)%nat key in
  let h := foldl mix (Z.lxor seed (u64 (len * murmur_m))) ws in
  let h := if decide (len mod 8 = 0) then h else u64 (Z.lxor h t * murmur_m) in
  let h := u64 (Z.lxor h (Z.shiftr h murmur_r) * murmur_m) in
  Z.lxor h (Z.shiftr h murmur_r).

(** ** Lemmas on bits *)

(** One byte field of a word, isolated by a shifted mask. *)
Lemma land_byte p k :
  0 <= k -> Z.land p (Z.shiftl 255 k) = (p / 2 ^ k) `mod` 256 * 2 ^ k.
Proof.
  intros Hk. change 256 with (2 ^ 8). rewrite <- Z.land_ones by lia.
  rewrite <- Z.shiftr_div_pow2, <- Z.shiftl_mul_pow2 by lia.
  change (Z.ones 8) with 255. rewrite Z.shiftl_land.
  apply Z.bits_inj'; intros m Hm. rewrite !Z.land_spec.
  destruct (Z.ltb_spec m k).
  - rewrite !(Z.shiftl_spec_low _ _ m) by lia. by rewrite !andb_false_r.
  - rewrite !Z.shiftl_spec, Z.shiftr_spec by lia. do 2 f_equal. lia.
Qed.

Lemma le_bytes_4 p :
  le_bytes 4 p = [byte_of_Z p; byte_of_Z (p / 256); byte_of_Z (p / 65536);
                  byte_of_Z (p / 16777216)].
Proof. simpl. by rewrite !Z.div_div by lia. Qed.

(** reversing the endianness of a 32-bit word reverses its four bytes. *)
Theorem reverse_endian_spec p :
  0 <= p < 4294967296 -> reverse_endian p = le_val (rev (le_bytes 4 p)).
Proof.
  intros Hp. unfold reverse_endian.
  change 0x000000ff with (Z.shiftl 255 0). change 0x0000ff00 with (Z.shiftl 255 8).
  change 0x00ff0000 with (Z.shiftl 255 16). change 0xff000000 with (Z.shiftl 255 24).
  rewrite !land_byte, !Z.shiftl_mul_pow2, !Z.shiftr_div_pow2 by lia.
  rewrite le_bytes_4. cbn [rev app le_val]. rewrite !byte_to_of.
  change (2 ^ 0) with 1. change (2 ^ 8) with 256. change (2 ^ 16) with 65536.
  change (2 ^ 24) with 16777216. rewrite Z.div_1_r, Z.mul_1_r.
  pose proof (Z.mod_pos_bound p 256 ltac:(lia)).
  pose proof (Z.mod_pos_bound (p / 256) 256 ltac:(lia)).
  pose proof (Z.mod_pos_bound (p / 65536) 256 ltac:(lia)).
  pose proof (Z.mod_pos_bound (p / 16777216) 256 ltac:(lia)).
  revert H H0 H1 H2. generalize (p `mod` 256) ((p / 256) `mod` 256)
    ((p / 65536) `mod` 256) ((p / 16777216) `mod` 256).
  intros a b c d Ha Hb Hc Hd.
  rewrite Z.div_mul by lia. replace (c * 65536 / 256) with (c * 256) by
    (Z.to_euclidean_division_equations; lia).
  rewrite (u32_id (a * _)), (u32_id (b * _ * _)) by lia.
  rewrite (u32_id (a * _ + _)) by lia. rewrite (u32_id (_ + c * _)) by lia. rewrite u32_id by lia. lia.
Qed.

Lemma reverse_endian_range p : 0 <= reverse_endian p < 4294967296.
Proof. apply u32_range. Qed.

Lemma reverse_endian_involutive p :
  0 <= p < 4294967296 -> reverse_endian (reverse_endian p) = p.
Proof.
  intros Hp. rewrite (reverse_endian_spec (reverse_endian p)) by apply reverse_endian_range.
  rewrite (reverse_endian_spec p) by done.
  assert (length (rev (le_bytes 4 p)) = 4%nat) as Hl by by rewrite length_rev, length_le_bytes.
  rewrite <- Hl at 1. rewrite le_bytes_val, rev_involutive, le_val_bytes.
  by apply Z.mod_small.
Qed.

(** [is_exp2] accepts the powers of two, and zero. *)
Theorem is_exp2_spec x :
  0 <= x < 18446744073709551616 ->
  is_exp2 x = true <-> x = 0 \/ exists k, 0 <= k /\ x = 2 ^ k.
Proof.
  intros Hx. unfold is_exp2.
  destruct (decide (x = 0)) as [->|Hx0]; [by split; [left|]|].
  rewrite u64_id by lia.
  assert (Z.land x (x - 1) = 0 <-> exists k, 0 <= k /\ x = 2 ^ k) as Hiff.
  { split.
    - intros Hl. exists (Z.log2 x). split; [apply Z.log2_nonneg|].
      destruct (Z.log2_spec x) as [Hlo Hhi]; [lia|].
      destruct (decide (x = 2 ^ Z.log2 x)) as [|Hne]; [done|exfalso].
      assert (Z.log2 (x - 1) = Z.log2 x) as Hlog
        by (apply Z.log2_unique; [apply Z.log2_nonneg|lia]).
      assert (Z.testbit (Z.land x (x - 1)) (Z.log2 x) = true) as Ht.
      { rewrite Z.land_spec, Z.bit_log2 by lia. rewrite <- Hlog at 1.
        rewrite Z.bit_log2; [done|]. pose proof (Z.log2_nonneg x).
        pose proof (Z.pow_pos_nonneg 2 (Z.log2 x)). lia. }
      by rewrite Hl, Z.testbit_0_l in Ht.
    - intros (k & Hk & ->). 
      replace (2 ^ k - 1) with (Z.ones k) by (rewrite Z.ones_equiv; lia).
      rewrite Z.land_ones by lia. apply Z_mod_same_full. }
  destruct (Z.land x (x - 1) =? 0) eqn:E; zbool; simpl.
  - apply Hiff in E. by split; [right|].
  - split; [done|]. intros [?|?]; [done|]. by apply Hiff in H.
Qed.

Lemma u32_bit x i : 0 <= i < 32 -> Z.testbit (u32 x) i = Z.testbit x i.
Proof. intros. apply Z.mod_pow2_bits_low. lia. Qed.

(** One butterfly stage of [reverse_uint32]. *)
Lemma swap_stage_bit x a b k i :
  0 <= k -> 0 <= i < 32 ->
  Z.testbit (Z.lor (u32 (Z.shiftl (Z.land x a) k)) (Z.shiftr (Z.land x b) k)) i =
  (Z.testbit x (i - k) && Z.testbit a (i - k)) || (Z.testbit x (i + k) && Z.testbit b (i + k)).
Proof.
  intros. rewrite Z.lor_spec, u32_bit, Z.shiftl_spec, Z.shiftr_spec by lia.
  by rewrite !Z.land_spec.
Qed.

Ltac eval_testbits :=
  repeat match goal with
  | |- context [Z.testbit (Zpos ?p) (?i + ?k)] =>
      let v := eval vm_compute in (Z.testbit (Zpos p) (i + k)) in
      change (Z.testbit (Zpos p) (i + k)) with v
  | |- context [Z.testbit (Zpos ?p) (?i - ?k)] =>
      let v := eval vm_compute in (Z.testbit (Zpos p) (i - k)) in
      change (Z.testbit (Zpos p) (i - k)) with v
  end; rewrite ?andb_false_r, ?andb_true_r, ?orb_false_r, ?orb_false_l.

(** Bit [i] of the reversed word is bit [31 - i] of the word. *)
Theorem reverse_uint32_bit x i :
  0 <= i < 32 -> Z.testbit (reverse_uint32 x) i = Z.testbit x (31 - i).
Proof.
  intros Hi. unfold reverse_uint32.
  assert (exists n : nat, (n < 32)%nat /\ i = Z.of_nat n) as (n & Hn & ->)
    by (exists (Z.to_nat i); lia).
  do 32 (destruct n as [|n]; [cbn [Z.of_nat Pos.of_succ_nat];
    do 5 (rewrite swap_stage_bit by lia; eval_testbits); f_equal; lia|]).
  lia.
Qed.

Example reverse_uint32_bit_witness :
  Z.testbit (reverse_uint32 0x80000001) 31 = Z.testbit 0x80000001 (31 - 31).
Proof. apply (reverse_uint32_bit 0x80000001 31). lia. Defined.


(** ** Time *)

(** For at least a second, the deadline moves by exactly [ms]
    milliseconds and stays normalised. *)
Lemma addtime_whole tp ms :
  0 <= tv_sec tp < 2 ^ 62 -> 0 <= tv_nsec tp < 1000000000 -> 1000 <= ms < 2 ^ 31 ->
  ts_ns (addtime_timespec tp ms) = ts_ns tp + ms * 1000000 /\
  0 <= tv_nsec (addtime_timespec tp ms) < 1000000000.
Proof.
  destruct tp as [s n]. intros Hs Hn Hms. unfold addtime_timespec, ts_ns. simpl in *.
  ztrue (1000 <=? ms). cbn [tv_sec tv_nsec].
  rewrite Z.quot_div_nonneg, Z.rem_mod_nonneg by lia.
  pose proof (Z.mod_pos_bound ms 1000 ltac:(lia)).
  rewrite (s32_id (ms `mod` 1000 * 1000)), s32_id by lia.
  rewrite (s64_id (n + _)) by lia.
  rewrite Z.quot_div_nonneg, Z.rem_mod_nonneg by lia.
  rewrite (s64_id (s + _)) by (Z.to_euclidean_division_equations; lia).
  rewrite s64_id by (Z.to_euclidean_division_equations; lia).
  Z.to_euclidean_division_equations; lia.
Qed.

(** Below a second the milliseconds are dropped: the deadline is the
    instant the caller started from. *)
Lemma addtime_timespec_subsecond tp ms :
  0 <= tv_sec tp < 2 ^ 62 -> 0 <= tv_nsec tp < 1000000000 -> ms < 1000 ->
  addtime_timespec tp ms = tp.
Proof.
  destruct tp as [s n]. intros Hs Hn Hms. unfold addtime_timespec. simpl in *.
  zfalse (1000 <=? ms). cbn [tv_sec tv_nsec].
  rewrite Z.quot_div_nonneg, Z.rem_mod_nonneg by lia.
  rewrite Z.div_small, Z.mod_small by lia. rewrite s64_id by lia. f_equal; lia.
Qed.

(** The deadline moves by exactly [ms] milliseconds when they are at least a
    second, and does not move otherwise; it stays normalised. *)
Theorem addtime_timespec_spec tp ms :
  0 <= tv_sec tp < 2 ^ 62 -> 0 <= tv_nsec tp < 1000000000 -> ms < 2 ^ 31 ->
  ts_ns (addtime_timespec tp ms) = ts_ns tp + (if 1000 <=? ms then ms * 1000000 else 0) /\
  0 <= tv_nsec (addtime_timespec tp ms) < 1000000000.
Proof.
  intros Hs Hn Hms. case_bool; zbool.
  - by apply addtime_whole.
  - rewrite addtime_timespec_subsecond by done. lia.
Qed.

Example addtime_timespec_spec_witness :
  ts_ns (addtime_timespec {| tv_sec := 5; tv_nsec := 999999999 |} 1001) =
    5999999999 + (if 1000 <=? 1001 then 1001 * 1000000 else 0) /\
  0 <= tv_nsec (addtime_timespec {| tv_sec := 5; tv_nsec := 999999999 |} 1001) < 1000000000.
Proof. apply (addtime_timespec_spec {| tv_sec := 5; tv_nsec := 999999999 |} 1001); simpl; lia. Defined.

(** The instant a deadline denotes never decreases, whatever the wait. *)
Lemma addtime_timespec_le tp ms :
  0 <= tv_sec tp < 2 ^ 62 -> 0 <= tv_nsec tp < 1000000000 -> 0 <= ms < 2 ^ 31 ->
  ts_ns tp <= ts_ns (addtime_timespec tp ms).
Proof.
  intros Hs Hn Hms. destruct (Z.le_gt_cases 1000 ms).
  - rewrite (proj1 (addtime_whole tp ms Hs Hn ltac:(lia))). lia.
  - rewrite (addtime_timespec_subsecond tp ms Hs Hn) by lia. lia.
Qed.

(** ** Murmur hash *)

Lemma land_0_of_low a b k :
  0 <= a < 2 ^ k -> 0 <= k -> Z.land a (Z.shiftl b k) = 0.
Proof.
  intros Ha Hk. apply Z.bits_inj'; intros m Hm.
  rewrite Z.land_spec, Z.bits_0. destruct (Z.ltb_spec m k).
  - by rewrite Z.shiftl_spec_low, andb_false_r.
  - replace a with (a `mod` 2 ^ k) by (by apply Z.mod_small).
    by rewrite Z.mod_pow2_bits_high by lia.
Qed.

Lemma le_val_lxor b bs :
  le_val (b :: bs) = Z.lxor (byte_to_Z b) (Z.shiftl (le_val bs) 8).
Proof.
  cbn [le_val]. rewrite <- Z.add_nocarry_lxor.
  - rewrite Z.shiftl_mul_pow2 by lia. lia.
  - apply land_0_of_low; [apply byte_to_Z_range|lia].
Qed.

(** Evaluate closed comparisons; decide equalities of exclusive-or chains. *)
Ltac eval_leb :=
  repeat match goal with
  | |- context [?k <=? Z.of_nat ?n] =>
      let v := eval vm_compute in (k <=? Z.of_nat n) in change (k <=? Z.of_nat n) with v
  end; cbv iota.
Ltac lxor_ac :=
  apply Z.bits_inj'; intros ? ?; rewrite !Z.lxor_spec;
  repeat match goal with
  | |- context [Zpos ?a + Zpos ?b] =>
      let v := eval vm_compute in (Zpos a + Zpos b) in change (Zpos a + Zpos b) with v
  end;
  repeat (match goal with |- context [Z.testbit ?a ?b] => generalize (Z.testbit a b) end; intro);
  by repeat match goal with b : bool |- _ => destruct b end.

(** The fall-through switch mixes in the little-endian value of the tail. *)
Lemma murmur_tail_spec t h :
  (length t <= 7)%nat ->
  murmur_tail (Z.of_nat (length t)) t h =
    if decide (t = []) then h else u64 (Z.lxor h (le_val t) * murmur_m).
Proof.
  intros Hl. unfold murmur_tail.
  do 8 (destruct t as [|? t]; [cbn [length]; eval_leb; cbn [data2_at lookup list_lookup];
    rewrite ?le_val_lxor; cbn [le_val];
    rewrite ?Z.shiftl_0_l, ?Z.lxor_0_r, ?Z.shiftl_lxor, ?Z.shiftl_shiftl by lia;
    case_decide; try done; f_equal; f_equal; lxor_ac|]).
  simpl in Hl. lia.
Qed.

Lemma murmur_blocks_spec n data h :
  murmur_blocks n data h = (foldl mix h (words n data).1, drop (8 * n) data) /\
  (words n data).2 = le_val (drop (8 * n) data).
Proof.
  revert data h. induction n as [|n IH]; intros data h; [done|].
  cbn [murmur_blocks words]. destruct (words n (drop 8 data)) as [ws t] eqn:E.
  match goal with |- murmur_blocks n ?d ?h' = _ /\ _ => destruct (IH d h') as [-> H2] end.
  rewrite E in H2 |- *. cbn [fst snd foldl] in *. rewrite H2, drop_drop.
  replace (8 + 8 * n)%nat with (8 * S n)%nat by lia. done.
Qed.

(** The unrolled loop and the fall-through switch of [murmur_hash] compute
    MurmurHash64A of the whole key, for any key an [int] length can describe. *)
Theorem murmur_hash_ref key seed :
  Z.of_nat (length key) < 2 ^ 31 ->
  murmur_hash key (Z.of_nat (length key)) seed = murmur_ref key seed.
Proof.
  intros Hlen. unfold murmur_hash, murmur_ref.
  rewrite Z.quot_div_nonneg by lia.
  replace (Z.to_nat (Z.of_nat (length key) / 8)) with (length key / 8)%nat
    by (rewrite <- (Nat2Z.id (length key / 8)); f_equal; by rewrite Nat2Z.inj_div).
  match goal with |- context [murmur_blocks ?n ?d ?h] =>
    destruct (murmur_blocks_spec n d h) as [-> Ht] end.
  destruct (words _ _) as [ws t]. cbn [fst snd] in *. subst t.
  set (tl := drop _ key).
  assert (length tl = length key mod 8)%nat as Htl.
  { unfold tl. rewrite length_drop. pose proof (Nat.div_mod_eq (length key) 8). lia. }
  pose proof (Nat.mod_upper_bound (length key) 8 ltac:(lia)).
  change 7 with (Z.ones 3). rewrite Z.land_ones by lia. change (2 ^ 3) with (Z.of_nat 8).
  rewrite <- Nat2Z.inj_mod, <- Htl, murmur_tail_spec by lia.
  change 8 with (Z.of_nat 8). rewrite <- Nat2Z.inj_mod, <- Htl.
  repeat case_decide; try done; destruct tl; simpl in *; done || lia.
Qed.

Example murmur_hash_ref_witness :
  Z.of_nat (length (le_bytes 11 123456789)) < 2 ^ 31 /\
  murmur_hash (le_bytes 11 123456789) (Z.of_nat (length (le_bytes 11 123456789))) 7 =
    murmur_ref (le_bytes 11 123456789) 7.
Proof. split; [reflexivity|]. apply (murmur_hash_ref (le_bytes 11 123456789) 7). reflexivity. Defined.

(** ** Masks *)

(** [N_ONES_(IntType, N)] computes [2^N - 1] for every [N] up to the width of
    the value part of the type, without leaving the type on the way. *)
Lemma N_ONES_spec w N : 0 <= N < w -> N_ONES_ w N = Some (2 ^ N - 1).
Proof.
  intros HN. unfold N_ONES_. destruct (Z.eqb_spec N 0) as [->|]; [done|].
  assert (2 ^ N = 2 * 2 ^ (N - 1)) as HP
    by (rewrite <- Z.pow_succ_r by lia; f_equal; lia).
  assert (2 ^ N <= 2 ^ (w - 1)) by (apply Z.pow_le_mono_r; lia).
  pose proof (Z.pow_pos_nonneg 2 (N - 1) ltac:(lia) ltac:(lia)).
  rewrite Z.shiftl_mul_pow2 by lia.
  case_bool; [|zb]. case_bool; [|zb]. f_equal. lia.
Qed.
