(* ===== verification/Platform.v ===== *)
(** * Platform: the helpers of common/utils.h around the processor and the
    system, and common/fs.h

    What the instruction or the system call returns is an argument; the
    definitions are what the helper makes of it. *)

From S2P Require Import Prelude.

(** ** Numbers as text *)

(** A decimal digit. *)
Definition digit (d : Z) : Byte.byte :=
  default x30 (Byte.of_N (Z.to_N (48 + d))).

(** The digits of a number that is not negative, by [fuel] divisions at most. *)
Fixpoint digits (fuel : nat) (z : Z) : list byte :=
  match fuel with
  | O => []
  | S fuel => if z <? 10 then [digit z] else digits fuel (z / 10) ++ [digit (z `mod` 10)]
  end.

(** What "%zd" prints, in at most [size - 1] characters. *)
Definition snprintf_zd (size : nat) (z : Z) : list byte :=
  take (size - 1) (if z <? 0 then x2d :: digits 20 (- z) else digits 20 z).

(** src/code/cc/common/utils.h:159-164 [number_to_string] *)
Definition number_to_string (number : Z) : list byte := snprintf_zd 64 number.

(** src/code/cc/common/utils.h:152-157 [string_append_number] *)
Definition string_append_number (s : list byte) (number : Z) : list byte :=
  s ++ snprintf_zd 64 number.

(** ** The processor *)

(** What cpuid leaves in its registers for leaf 1. *)
Record regs := mk_regs { ecx : Z; edx : Z }.

(** [test $mask, reg; jz 1f; movl $1, code] *)
Definition test (mask reg code : Z) : Z := if Z.land reg mask =? 0 then code else 1.

(** src/code/cc/common/utils.h:243-255 [support_mmx] *)
Definition support_mmx (r : regs) : Z := test 0x800000 (edx r) 0.
(** src/code/cc/common/utils.h:257-269 [support_sse] *)
Definition support_sse (r : regs) : Z := test 0x02000000 (edx r) 0.
(** src/code/cc/common/utils.h:271-283 [support_sse2] *)
Definition support_sse2 (r : regs) : Z := test 0x04000000 (edx r) 0.
(** src/code/cc/common/utils.h:285-297 [support_sse3] *)
Definition support_sse3 (r : regs) : Z := test 0x1 (ecx r) 0.
(** src/code/cc/common/utils.h:299-311 [support_ssse3] *)
Definition support_ssse3 (r : regs) : Z := test 0x0200 (ecx r) 0.
(** src/code/cc/common/utils.h:313-325 [support_sse4_1] *)
Definition support_sse4_1 (r : regs) : Z := test 0x80000 (ecx r) 0.
(** src/code/cc/common/utils.h:327-339 [support_sse4_2] *)
Definition support_sse4_2 (r : regs) : Z := test 0x0100000 (ecx r) 0.

(** src/code/cc/common/utils.h:108-115 [rdtsc]
    For the halves the instruction leaves in eax and edx. *)
Definition rdtsc (lo hi : Z) : Z := Z.lor (u64 lo) (u64 (Z.shiftl (u64 hi) 32)).

(** src/code/cc/common/utils.h:32-38 [OFFSET_OF, CONTAINER_OF]
    For a member at [offset] of its type. *)
Definition CONTAINER_OF (ptr offset : Z) : Z := u64 (ptr - offset).

(** ** The system *)

Definition O_NONBLOCK : Z := 0x800.

(** src/code/cc/common/utils.h:86-90 [set_nonblock]
    The flags given back by F_GETFL; those set by F_SETFL. *)
Definition set_nonblock (x : Z) : Z := Z.lor x O_NONBLOCK.

(** src/code/cc/common/utils.h:216-221 [get_hostname]
    gethostname stores the name and a null character if both fit; otherwise
    the string is read beyond what it stored. *)
Definition get_hostname (name : list byte) : option (list byte) :=
  if Nat.ltb (length name) 1024 then Some name else None.

Inductive lock_type := F_WRLCK | F_UNLCK.
Record flock := mk_flock { l_type : lock_type; l_start : Z; l_len : Z }.

(** src/code/cc/common/utils.h:224-233 [LockOrUnlock]
    The lock given to fcntl(F_SETLK); its result is the function's. *)
Definition LockOrUnlock (lock : bool) : flock :=
  mk_flock (if lock then F_WRLCK else F_UNLCK) 0 0.

(** The strings "." and "..". *)
Definition dot : list byte := [x2e].
Definition dotdot : list byte := [x2e; x2e].

(** src/code/cc/common/fs.h:24-35 [list_directory (loop)]
    [ents] is what readdir returns before its first null pointer. *)
Fixpoint read_entries (ents files : list (list byte)) : list (list byte) :=
  match ents with
  | [] => files
  | d_name :: ents =>
      if bool_decide (d_name = dot) || bool_decide (d_name = dotdot)
      then read_entries ents files
      else read_entries ents (files ++ [d_name])
  end.

(** src/code/cc/common/fs.h:17-38 [list_directory]
    [dir] is [None] when opendir fails. *)
Definition list_directory (dir : option (list (list byte))) (files : list (list byte))
  : Z * list (list byte) :=
  match dir with
  | None => (-1, files)
  | Some ents => let files := [] in (0, read_entries ents files)
  end.

(** ** Numbers as text: reading them back *)

Definition digit_value (b : byte) : Z := Z.of_N (Byte.to_N b) - 48.

(** The number a decimal text stands for. *)
Definition read_digits (bs : list byte) : Z :=
  foldl (fun n b => n * 10 + digit_value b) 0 bs.
Definition read_number (bs : list byte) : Z :=
  match bs with
  | b :: bs' => if bool_decide (b = x2d) then - read_digits bs' else read_digits bs
  | [] => 0
  end.

Lemma digit_value_digit d : 0 <= d < 10 -> digit_value (digit d) = d.
Proof.
  intros H. assert (d = 0 \/ d = 1 \/ d = 2 \/ d = 3 \/ d = 4 \/ d = 5 \/ d = 6 \/ d = 7 \/
    d = 8 \/ d = 9) as D by lia.
  repeat (destruct D as [->|D]; [done|]). by subst.
Qed.

Lemma digit_not_minus d : 0 <= d < 10 -> digit d <> x2d.
Proof.
  intros H E. pose proof H as Hd. apply digit_value_digit in Hd. rewrite E in Hd.
  change (digit_value x2d) with (-3) in Hd. lia.
Qed.

Lemma digits_spec fuel z :
  0 <= z < 10 ^ Z.of_nat fuel -> (0 < fuel)%nat ->
  read_digits (digits fuel z) = z /\ (length (digits fuel z) <= fuel)%nat /\
  exists d ds, 0 <= d < 10 /\ digits fuel z = digit d :: ds.
Proof.
  revert z. induction fuel as [|fuel IH]; intros z Hz Hf; [lia|]. cbn [digits].
  destruct (Z.ltb_spec z 10).
  - split_and!; [|simpl; lia|exists z, []; split; [lia|done]]. unfold read_digits. simpl.
    rewrite digit_value_digit; lia.
  - rewrite Nat2Z.inj_succ, Z.pow_succ_r in Hz by lia.
    assert (fuel <> 0)%nat by (intros ->; simpl in Hz; lia).
    pose proof (Z.div_mod z 10 ltac:(lia)). pose proof (Z.mod_pos_bound z 10 ltac:(lia)).
    destruct (IH (z / 10)) as (Hr & Hl & d & ds & Hd & E); [|lia|].
    { split; [apply Z.div_pos; lia|apply Z.div_lt_upper_bound; lia]. }
    split_and!.
    + unfold read_digits in *. rewrite foldl_app, Hr. simpl.
      rewrite digit_value_digit; lia.
    + rewrite length_app. simpl. lia.
    + rewrite E. by exists d, (ds ++ [digit (z `mod` 10)]).
Qed.

(** A number of the width of ssize_t is printed in full - the buffer of 64
    characters is enough - and the text stands for it. *)
Theorem number_to_string_spec number :
  isS 64 number ->
  read_number (number_to_string number) = number /\
  (length (number_to_string number) <= 21)%nat.
Proof.
  unfold isS. change (2 ^ (64 - 1)) with 9223372036854775808. intros H.
  unfold number_to_string, snprintf_zd. destruct (Z.ltb_spec number 0).
  - destruct (digits_spec 20 (- number)) as (Hr & Hl & _); [lia|lia|].
    rewrite take_ge by (cbn [length]; lia). cbn [read_number length].
    rewrite bool_decide_true by done. split; [rewrite Hr|]; lia.
  - destruct (digits_spec 20 number) as (Hr & Hl & d & ds & Hd & E); [lia|lia|].
    rewrite take_ge by lia. rewrite E in *. cbn [read_number].
    rewrite bool_decide_false by by apply digit_not_minus. split; [done|lia].
Qed.

Example number_to_string_spec_witness :
  read_number (number_to_string (-9223372036854775808)) = -9223372036854775808.
Proof. apply (number_to_string_spec (-9223372036854775808)). vm_compute. done. Defined.

(** Different numbers have different texts. *)
Lemma number_to_string_inj a b :
  isS 64 a -> isS 64 b -> number_to_string a = number_to_string b -> a = b.
Proof.
  intros Ha Hb E. apply number_to_string_spec in Ha as [<- _].
  apply number_to_string_spec in Hb as [<- _]. by rewrite E.
Qed.

(** ** Feature bits *)

Lemma test_bit i r : 0 <= i -> test (2 ^ i) r 0 = Z.b2z (Z.testbit r i).
Proof.
  intros Hi. unfold test. destruct (Z.eqb_spec (Z.land r (2 ^ i)) 0) as [E|E].
  - destruct (Z.testbit r i) eqn:Et; [|done]. exfalso.
    assert (Z.testbit (Z.land r (2 ^ i)) i = true) as Hb
      by (rewrite Z.land_spec, Et, Z.pow2_bits_true by lia; done).
    rewrite E in Hb. by rewrite ?Z.bits_0 in Hb.
  - destruct (Z.testbit r i) eqn:Et; [done|]. destruct E. apply Z.bits_inj'. intros j Hj.
    rewrite Z.land_spec, Z.bits_0, Z.pow2_bits_eqb by lia.
    destruct (Z.eqb_spec i j) as [<-|]; [by rewrite Et|apply andb_false_r].
Qed.

(** Each test is that of the bit the processor manual gives for the feature:
    23, 25 and 26 of edx, and 0, 9, 19 and 20 of ecx. *)
Theorem support_bits r :
  support_mmx r = Z.b2z (Z.testbit (edx r) 23) /\
  support_sse r = Z.b2z (Z.testbit (edx r) 25) /\
  support_sse2 r = Z.b2z (Z.testbit (edx r) 26) /\
  support_sse3 r = Z.b2z (Z.testbit (ecx r) 0) /\
  support_ssse3 r = Z.b2z (Z.testbit (ecx r) 9) /\
  support_sse4_1 r = Z.b2z (Z.testbit (ecx r) 19) /\
  support_sse4_2 r = Z.b2z (Z.testbit (ecx r) 20).
Proof. split_and!; by rewrite <- test_bit. Qed.

(** The counter is put together from its halves without a loss. *)
Theorem rdtsc_spec lo hi : isU 32 lo -> isU 32 hi -> rdtsc lo hi = hi * 2 ^ 32 + lo.
Proof.
  unfold isU. intros Hl Hh. unfold rdtsc.
  change (2 ^ 32) with 4294967296 in *.
  rewrite (u64_id lo), (u64_id hi) by lia. rewrite Z.shiftl_mul_pow2 by lia.
  change (2 ^ 32) with 4294967296. rewrite u64_id by lia.
  rewrite Z.lor_comm. rewrite <- (Z.add_lor_land).
  replace (Z.land (hi * 4294967296) lo) with 0; [lia|].
  symmetry. apply Z.bits_inj'. intros j Hj. rewrite Z.land_spec, Z.bits_0.
  change 4294967296 with (2 ^ 32). destruct (Z.lt_ge_cases j 32).
  - by rewrite Z.mul_pow2_bits_low.
  - rewrite (Z.bits_above_log2 lo); [apply andb_false_r|lia|].
    destruct (Z.eq_dec lo 0) as [->|]; [simpl; lia|].
    assert (Z.log2 lo < 32); [|lia]. apply Z.log2_lt_pow2; lia.
Qed.

Example rdtsc_spec_witness : rdtsc 5 1 = 1 * 2 ^ 32 + 5.
Proof. apply rdtsc_spec; vm_compute; done. Defined.

(** ** Directories *)

Lemma read_entries_spec ents files :
  read_entries ents files =
  files ++ filter (fun d => d <> dot /\ d <> dotdot) ents.
Proof.
  revert files. induction ents as [|d ents IH]; intros files; [by rewrite app_nil_r|].
  cbn [read_entries]. rewrite filter_cons. case_decide as Hd.
  - rewrite !bool_decide_false by naive_solver. cbn [orb]. by rewrite IH, <- app_assoc.
  - case_bool_decide; [apply IH|]. case_bool_decide; [apply IH|]. by destruct Hd.
Qed.

(** Listing returns the entries of the directory in their order, without the
    directory itself and its parent; a failure leaves the list as it was. *)
Theorem list_directory_spec dir files :
  list_directory dir files =
  match dir with
  | None => (-1, files)
  | Some ents => (0, filter (fun d => d <> dot /\ d <> dotdot) ents)
  end.
Proof. destruct dir as [ents|]; [|done]. unfold list_directory. by rewrite read_entries_spec. Qed.

(** ** Flags *)

(** Only O_NONBLOCK changes. *)
Lemma set_nonblock_bits x i :
  0 <= i -> Z.testbit (set_nonblock x) i = (i =? 11) || Z.testbit x i.
Proof.
  intros Hi. unfold set_nonblock, O_NONBLOCK. rewrite Z.lor_spec, orb_comm.
  change 0x800 with (2 ^ 11). rewrite Z.pow2_bits_eqb by lia. by rewrite Z.eqb_sym.
Qed.
