(* ===== verification/Memcpy.v ===== *)
(** * Memcpy: the dispatching copy of common/fast_memcpy.h

    Source and destination are distinct buffers, given with the offset the
    pointer has in them; a copy that leaves either is undefined ([None]). *)

From S2P Require Import Prelude.

(** memcpy of the C library, on disjoint buffers. *)
Definition memcpy (dst : list byte) (doff : Z) (src : list byte) (soff size : Z)
  : option (list byte) :=
  bs ← peek src soff size; poke dst doff bs.

(** src/code/cc/common/fast_memcpy.h:13-23 [_fast_memcpy]
    The assignment of a structure of [N] bytes; the specialisation at 0 copies
    nothing and does not look at its pointers. *)
Definition _fast_memcpy (N : nat) (dst : list byte) (doff : Z) (src : list byte) (soff : Z)
  : option (list byte) :=
  match N with
  | O => Some dst
  | S _ => bs ← peek src soff (Z.of_nat N); poke dst doff bs
  end.

(** The labels [B0 .. B255] of the computed goto. *)
Inductive label := B (n : nat).

(** src/code/cc/common/fast_memcpy.h:27-154 [fast_memcpy (addrs)] *)
Definition addrs_0 : list label :=
  [B 0; B 1; B 2; B 3; B 4; B 5; B 6; B 7; B 8; B 9; B 10; B 11; B 12; B 13; B 14;
  B 15; B 16; B 17; B 18; B 19; B 20; B 21; B 22; B 23; B 24; B 25; B 26; B 27;
  B 28; B 29; B 30; B 31; B 32; B 33; B 34; B 35; B 36; B 37; B 38; B 39; B 40;
  B 41; B 42; B 43; B 44; B 45; B 46; B 47; B 48; B 49; B 50; B 51; B 52; B 53;
  B 54; B 55; B 56; B 57; B 58; B 59; B 60; B 61; B 62; B 63; B 64; B 65; B 66;
  B 67; B 68; B 69; B 70; B 71; B 72; B 73; B 74; B 75; B 76; B 77; B 78; B 79;
  B 80; B 81; B 82; B 83; B 84; B 85; B 86; B 87; B 88; B 89; B 90; B 91; B 92;
  B 93; B 94; B 95; B 96; B 97; B 98; B 99; B 100; B 101; B 102; B 103; B 104;
  B 105; B 106; B 107; B 108; B 109; B 110; B 111; B 112; B 113; B 114; B 115;
  B 116; B 117; B 118; B 119; B 120; B 121; B 122; B 123; B 124; B 125; B 126;
  B 127].

(** src/code/cc/common/fast_memcpy.h:155-282 [fast_memcpy (addrs)] *)
Definition addrs_128 : list label :=
  [B 128; B 129; B 130; B 131; B 132; B 133; B 134; B 135; B 136; B 137; B 138;
  B 139; B 140; B 141; B 142; B 143; B 144; B 145; B 146; B 147; B 148; B 149;
  B 150; B 151; B 152; B 153; B 154; B 155; B 156; B 157; B 158; B 159; B 160;
  B 161; B 162; B 163; B 164; B 165; B 166; B 167; B 168; B 169; B 170; B 171;
  B 172; B 173; B 174; B 175; B 176; B 177; B 178; B 179; B 180; B 181; B 182;
  B 183; B 184; B 185; B 186; B 187; B 188; B 189; B 190; B 191; B 192; B 193;
  B 194; B 195; B 196; B 197; B 198; B 199; B 200; B 201; B 202; B 203; B 204;
  B 205; B 206; B 207; B 208; B 209; B 210; B 211; B 212; B 213; B 214; B 215;
  B 216; B 217; B 218; B 219; B 220; B 221; B 222; B 223; B 224; B 225; B 226;
  B 227; B 228; B 229; B 230; B 231; B 232; B 233; B 234; B 235; B 236; B 237;
  B 238; B 239; B 240; B 241; B 242; B 243; B 244; B 245; B 246; B 247; B 248;
  B 249; B 250; B 251; B 252; B 253; B 254; B 255].

(** src/code/cc/common/fast_memcpy.h:26-26 [fast_memcpy (addrs)] *)
Definition addrs : list label := addrs_0 ++ addrs_128.

(** src/code/cc/common/fast_memcpy.h:286-413 [fast_memcpy (labels)]
    The labels of the function, in order, each with the number of bytes its
    statement copies. *)
Definition labels_0 : list (label * nat) :=
  [(B 0, 0); (B 1, 1); (B 2, 2); (B 3, 3); (B 4, 4); (B 5, 5); (B 6, 6); (B 7, 7);
  (B 8, 8); (B 9, 9); (B 10, 10); (B 11, 11); (B 12, 12); (B 13, 13); (B 14, 14);
  (B 15, 15); (B 16, 16); (B 17, 17); (B 18, 18); (B 19, 19); (B 20, 20);
  (B 21, 21); (B 22, 22); (B 23, 23); (B 24, 24); (B 25, 25); (B 26, 26);
  (B 27, 27); (B 28, 28); (B 29, 29); (B 30, 30); (B 31, 31); (B 32, 32);
  (B 33, 33); (B 34, 34); (B 35, 35); (B 36, 36); (B 37, 37); (B 38, 38);
  (B 39, 39); (B 40, 40); (B 41, 41); (B 42, 42); (B 43, 43); (B 44, 44);
  (B 45, 45); (B 46, 46); (B 47, 47); (B 48, 48); (B 49, 49); (B 50, 50);
  (B 51, 51); (B 52, 52); (B 53, 53); (B 54, 54); (B 55, 55); (B 56, 56);
  (B 57, 57); (B 58, 58); (B 59, 59); (B 60, 60); (B 61, 61); (B 62, 62);
  (B 63, 63)]%nat.

(** src/code/cc/common/fast_memcpy.h:414-541 [fast_memcpy (labels)] *)
Definition labels_64 : list (label * nat) :=
  [(B 64, 64); (B 65, 65); (B 66, 66); (B 67, 67); (B 68, 68); (B 69, 69);
  (B 70, 70); (B 71, 71); (B 72, 72); (B 73, 73); (B 74, 74); (B 75, 75);
  (B 76, 76); (B 77, 77); (B 78, 78); (B 79, 79); (B 80, 80); (B 81, 81);
  (B 82, 82); (B 83, 83); (B 84, 84); (B 85, 85); (B 86, 86); (B 87, 87);
  (B 88, 88); (B 89, 89); (B 90, 90); (B 91, 91); (B 92, 92); (B 93, 93);
  (B 94, 94); (B 95, 95); (B 96, 96); (B 97, 97); (B 98, 98); (B 99, 99);
  (B 100, 100); (B 101, 101); (B 102, 102); (B 103, 103); (B 104, 104);
  (B 105, 105); (B 106, 106); (B 107, 107); (B 108, 108); (B 109, 109);
  (B 110, 110); (B 111, 111); (B 112, 112); (B 113, 113); (B 114, 114);
  (B 115, 115); (B 116, 116); (B 117, 117); (B 118, 118); (B 119, 119);
  (B 120, 120); (B 121, 121); (B 122, 122); (B 123, 123); (B 124, 124);
  (B 125, 125); (B 126, 126); (B 127, 127)]%nat.

(** src/code/cc/common/fast_memcpy.h:542-669 [fast_memcpy (labels)] *)
Definition labels_128 : list (label * nat) :=
  [(B 128, 128); (B 129, 129); (B 130, 130); (B 131, 131); (B 132, 132);
  (B 133, 133); (B 134, 134); (B 135, 135); (B 136, 136); (B 137, 137);
  (B 138, 138); (B 139, 139); (B 140, 140); (B 141, 141); (B 142, 142);
  (B 143, 143); (B 144, 144); (B 145, 145); (B 146, 146); (B 147, 147);
  (B 148, 148); (B 149, 149); (B 150, 150); (B 151, 151); (B 152, 152);
  (B 153, 153); (B 154, 154); (B 155, 155); (B 156, 156); (B 157, 157);
  (B 158, 158); (B 159, 159); (B 160, 160); (B 161, 161); (B 162, 162);
  (B 163, 163); (B 164, 164); (B 165, 165); (B 166, 166); (B 167, 167);
  (B 168, 168); (B 169, 169); (B 170, 170); (B 171, 171); (B 172, 172);
  (B 173, 173); (B 174, 174); (B 175, 175); (B 176, 176); (B 177, 177);
  (B 178, 178); (B 179, 179); (B 180, 180); (B 181, 181); (B 182, 182);
  (B 183, 183); (B 184, 184); (B 185, 185); (B 186, 186); (B 187, 187);
  (B 188, 188); (B 189, 189); (B 190, 190); (B 191, 191)]%nat.

(** src/code/cc/common/fast_memcpy.h:670-797 [fast_memcpy (labels)] *)
Definition labels_192 : list (label * nat) :=
  [(B 192, 192); (B 193, 193); (B 194, 194); (B 195, 195); (B 196, 196);
  (B 197, 197); (B 198, 198); (B 199, 199); (B 200, 200); (B 201, 201);
  (B 202, 202); (B 203, 203); (B 204, 204); (B 205, 205); (B 206, 206);
  (B 207, 207); (B 208, 208); (B 209, 209); (B 210, 210); (B 211, 211);
  (B 212, 212); (B 213, 213); (B 214, 214); (B 215, 215); (B 216, 216);
  (B 217, 217); (B 218, 218); (B 219, 219); (B 220, 220); (B 221, 221);
  (B 222, 222); (B 223, 223); (B 224, 224); (B 225, 225); (B 226, 226);
  (B 227, 227); (B 228, 228); (B 229, 229); (B 230, 230); (B 231, 231);
  (B 232, 232); (B 233, 233); (B 234, 234); (B 235, 235); (B 236, 236);
  (B 237, 237); (B 238, 238); (B 239, 239); (B 240, 240); (B 241, 241);
  (B 242, 242); (B 243, 243); (B 244, 244); (B 245, 245); (B 246, 246);
  (B 247, 247); (B 248, 248); (B 249, 249); (B 250, 250); (B 251, 251);
  (B 252, 252); (B 253, 253); (B 254, 254); (B 255, 255)]%nat.

Definition labels : list (label * nat) := labels_0 ++ labels_64 ++ labels_128 ++ labels_192.

#[export] Instance label_eq_dec : EqDecision label.
Proof. solve_decision. Defined.

(** The number of bytes the statement at a label copies. *)
Definition target (l : label) : option nat :=
  snd <$> find (fun e => bool_decide (l = fst e)) labels.

(** src/code/cc/common/fast_memcpy.h:285-285 [fast_memcpy (goto)]
    The jump to a label runs its statement, which returns. *)
Definition run_label (l : label) (dst : list byte) (doff : Z) (src : list byte) (soff : Z)
  : option (list byte) :=
  N ← target l; _fast_memcpy N dst doff src soff.

(** src/code/cc/common/fast_memcpy.h:284-286 [fast_memcpy] *)
Definition fast_memcpy (dst : list byte) (doff : Z) (src : list byte) (soff size : Z)
  : option (list byte) :=
  if size <=? 255 then
    l ← arr_get addrs size; run_label l dst doff src soff
  else memcpy dst doff src soff size.

(** Both tables are evaluated at every size below 256. *)
Definition table_ok (n : nat) : bool :=
  bool_decide (addrs !! n = Some (B n)) && bool_decide (target (B n) = Some n).

Lemma table_checked : forallb table_ok (seq 0 256) = true.
Proof. vm_compute. reflexivity. Qed.

Lemma table_at n : (n < 256)%nat -> addrs !! n = Some (B n) /\ target (B n) = Some n.
Proof.
  intros. pose proof (proj1 (List.forallb_forall _ _) table_checked n) as T.
  rewrite List.in_seq in T. specialize (T ltac:(lia)). unfold table_ok in T.
  apply andb_prop in T as [? ?]. by split; eapply bool_decide_eq_true_1.
Qed.

(** A memcpy between valid regions always succeeds and keeps the size. *)
Lemma memcpy_length dst doff src soff size dst' :
  memcpy dst doff src soff size = Some dst' -> length dst' = length dst.
Proof. unfold memcpy. intros H. bind_inv. by apply poke_length in H0. Qed.

Lemma memcpy_app (a b c x y z : list byte) :
  length b = length y ->
  memcpy (a ++ b ++ c) (Z.of_nat (length a)) (x ++ y ++ z) (Z.of_nat (length x))
    (Z.of_nat (length y)) = Some (a ++ y ++ c).
Proof.
  intros. unfold memcpy. rewrite peek_app. simpl. by rewrite poke_app.
Qed.

Lemma _fast_memcpy_memcpy N dst doff src soff :
  (N <> 0)%nat -> _fast_memcpy N dst doff src soff = memcpy dst doff src soff (Z.of_nat N).
Proof. by destruct N. Qed.

(** C27: Whatever the size, the jump table, the 256 specialised copies and the
    fallback implement memcpy. *)
Theorem fast_memcpy_memcpy dst doff src soff size :
  0 <= size -> 0 <= soff <= Z.of_nat (length src) -> 0 <= doff <= Z.of_nat (length dst) ->
  fast_memcpy dst doff src soff size = memcpy dst doff src soff size.
Proof.
  intros Hs Hso Hdo. unfold fast_memcpy. case_bool; [zbool|done].
  assert (size = Z.of_nat (Z.to_nat size)) as -> by lia.
  destruct (table_at (Z.to_nat size)) as [Ha Ht]; [lia|].
  rewrite arr_get_nat, Ha. simpl. unfold run_label. rewrite Ht. simpl.
  destruct (decide (Z.to_nat size = 0%nat)) as [->|].
  - unfold memcpy, peek. case_bool; [|zb]. simpl. unfold poke. simpl length.
    case_bool; [|zb]. rewrite Nat.add_0_r. simpl. by rewrite take_drop.
  - by apply _fast_memcpy_memcpy.
Qed.

Example fast_memcpy_memcpy_witness :
  fast_memcpy [x00; x00; x00] 1 [x01; x02] 0 2 = memcpy [x00; x00; x00] 1 [x01; x02] 0 2.
Proof. apply fast_memcpy_memcpy; simpl; lia. Defined.
