(* ===== verification/ByteArray.v ===== *)
(** * ByteArray: the readable and writeable byte arrays of common/byte_array.{h,cc}

    [Readable] is the cursor over a borrowed buffer, [Writeable] the growing
    buffer with its 128-byte inline part, [StlString] the pair of both over one
    std::string. Sizes are [size_t]: every sum wraps at 2^64. *)

From S2P Require Import Prelude Utils Memcpy.

(** ** ReadableByteArray *)
Module Readable.

(** src/code/cc/common/byte_array.h:18-31 [ReadableByteArray] *)
Record t := mk { bytes_ : list byte; size_ : Z; cur_ : Z }.

(** src/code/cc/common/byte_array.cc:13-15 [ReadableByteArray::ReadableByteArray] *)
Definition make (bytes : list byte) (size : Z) : t := mk bytes size 0.

(** src/code/cc/common/byte_array.cc:17-26 [ReadableByteArray::read]
    [dst] is the destination buffer, [None] for NULL; the result is the
    answer, the destination afterwards and the new state. *)
Definition read (b : t) (dst : option (list byte)) (size : Z)
  : option (bool * option (list byte) * t) :=
  if size_ b <? u64 (cur_ b + size) then Some (false, dst, b)
  else
    dst ← match dst with
          | None => Some None
          | Some d => d' ← memcpy d 0 (bytes_ b) (cur_ b) size; Some (Some d')
          end;
    Some (true, dst, mk (bytes_ b) (size_ b) (u64 (cur_ b + size))).

(** src/code/cc/common/byte_array.cc:28-33 [ReadableByteArray::remain]
    The pointer is given by its offset in [bytes_]. *)
Definition remain (b : t) : Z * Z := (cur_ b, u64 (size_ b - cur_ b)).

(** src/code/cc/common/byte_array.cc:35-40 [ReadableByteArray::data] *)
Definition data (b : t) : list byte * Z := (bytes_ b, size_ b).

(** The state invariant: the cursor is inside a buffer of the stated size. *)
Definition wf (b : t) : Prop :=
  0 <= cur_ b <= size_ b /\ size_ b = Z.of_nat (length (bytes_ b)) /\
  size_ b < 18446744073709551616.

(** What is left to read, and the bytes a buffer starts with. *)
Definition rest (b : t) : list byte := drop (Z.to_nat (cur_ b)) (bytes_ b).

Lemma readable_make_wf bs :
  Z.of_nat (length bs) < 18446744073709551616 -> wf (make bs (Z.of_nat (length bs))).
Proof. intros. unfold wf, make. simpl. lia. Qed.

Lemma rest_make bs n : rest (make bs n) = bs.
Proof. done. Qed.

Lemma rest_length b : wf b -> Z.of_nat (length (rest b)) = size_ b - cur_ b.
Proof. intros (?&?&?). unfold rest. rewrite length_drop. lia. Qed.

Lemma remain_size b : wf b -> (remain b).2 = Z.of_nat (length (rest b)).
Proof.
  intros Hw. rewrite rest_length by done. destruct Hw as (?&?&?).
  unfold remain. cbn [snd]. apply u64_id. lia.
Qed.

(** The state after consuming the first [n] bytes of the rest. *)
Definition skip (n : Z) (b : t) : t := mk (bytes_ b) (size_ b) (cur_ b + n).

Lemma skip_wf b n : wf b -> 0 <= n <= Z.of_nat (length (rest b)) -> wf (skip n b).
Proof. intros Hw Hn. rewrite rest_length in Hn by done. unfold wf, skip in *. simpl. lia. Qed.

Lemma rest_skip b n : wf b -> 0 <= n -> rest (skip n b) = drop (Z.to_nat n) (rest b).
Proof.
  intros (?&?&?) ?. unfold rest, skip. simpl. rewrite drop_drop. f_equal. lia.
Qed.

(** [memcpy] of the next [n] bytes into a destination of that size. *)
Lemma memcpy_rest b d n :
  wf b -> 0 <= n <= Z.of_nat (length (rest b)) -> Z.of_nat (length d) = n ->
  memcpy d 0 (bytes_ b) (cur_ b) n = Some (take (Z.to_nat n) (rest b)).
Proof.
  intros Hw Hn Hd. rewrite rest_length in Hn by done. destruct Hw as (?&?&?).
  unfold memcpy, peek. case_bool; [|zb]. simpl. unfold poke.
  rewrite length_take, length_drop. case_bool; [|zb]. f_equal.
  simpl. by rewrite (drop_ge d), app_nil_r by lia.
Qed.

(** A read of [n] bytes, [n] not so large that the cursor wraps, answers
    whether [n] bytes are left; it delivers exactly the next [n] bytes and
    advances by [n], or leaves everything as it was. *)
Lemma read_spec b d n :
  wf b -> 0 <= n -> cur_ b + n < 18446744073709551616 -> Z.of_nat (length d) = n ->
  read b (Some d) n =
    if decide (n <= Z.of_nat (length (rest b)))
    then Some (true, Some (take (Z.to_nat n) (rest b)), skip n b)
    else Some (false, Some d, b).
Proof.
  intros Hw Hn Hc Hd. unfold read. pose proof Hw as (?&?&?).
  pose proof (rest_length b Hw). rewrite u64_id by lia.
  destruct (size_ b <? cur_ b + n) eqn:E; zbool; case_decide; try lia; [done|].
  rewrite memcpy_rest by (done || lia). done.
Qed.

(** The same for the NULL destination [decompress_uint64] skips with. *)
Lemma read_null b n :
  wf b -> 0 <= n <= Z.of_nat (length (rest b)) -> read b None n = Some (true, None, skip n b).
Proof.
  intros Hw Hn. pose proof (rest_length b Hw). destruct Hw as (?&?&?). unfold read.
  rewrite u64_id by lia. zfalse (size_ b <? cur_ b + n). done.
Qed.

(** Looking at the unread bytes without copying. *)
Lemma peek_rest b :
  wf b -> peek (bytes_ b) (cur_ b) (Z.of_nat (length (bytes_ b)) - cur_ b) = Some (rest b).
Proof.
  intros (?&?&?). unfold peek, rest. case_bool; [|zb]. f_equal. apply take_ge.
  rewrite length_drop. lia.
Qed.

(** The bounds check adds before it compares: a size near 2^64 wraps around,
    passes the check and the copy runs outside the buffer. *)
Theorem read_size_wraps b d :
  wf b -> 0 < cur_ b -> read b (Some d) 18446744073709551615 = None.
Proof.
  intros (?&?&?) Hc. unfold read.
  replace (u64 (cur_ b + 18446744073709551615)) with (cur_ b - 1).
  - zfalse (size_ b <? cur_ b - 1). unfold memcpy, peek. case_bool; [zb|done].
  - symmetry. unfold u64, wrapU. rewrite <- (Z_mod_plus_full _ (-1)).
    rewrite Z.mod_small; lia.
Qed.

Example read_size_wraps_witness :
  read (skip 1 (make [x01; x02; x03] 3)) (Some [x00]) 18446744073709551615 = None.
Proof. apply read_size_wraps; vm_compute; done. Defined.

End Readable.

(** ** WriteableByteArray *)
Module Writeable.

(** src/code/cc/common/byte_array.h:50-50 [WriteableByteArray::kSmallBufferSize] *)
Definition kSmallBufferSize : Z := 128.

(** Where [bytes_] points. *)
Inductive storage :=
| Null
| Small
| Heap (block : list byte).

(** src/code/cc/common/byte_array.h:34-52 [WriteableByteArray] *)
Record t := mk {
  user_free_ : bool;
  bytes_ : storage;
  size_ : Z;
  cur_ : Z;
  small_ : list byte;
}.

Section alloc.
(** malloc and realloc fail on the sizes [enough] refuses; a fresh block
    holds [fill] bytes. *)
Context (enough : Z -> bool) (fill : byte).

Definition malloc (n : Z) : option (list byte) :=
  if enough n then Some (replicate (Z.to_nat n) fill) else None.

Definition realloc (old : list byte) (n : Z) : option (list byte) :=
  if enough n
  then Some (take (Z.to_nat n) old ++ replicate (Z.to_nat n - length old) fill)
  else None.

(** src/code/cc/common/byte_array.cc:44-52 [WriteableByteArray::WriteableByteArray] *)
Definition make (user_free : bool) : t :=
  let w := mk user_free Small kSmallBufferSize 0
             (replicate (Z.to_nat kSmallBufferSize) fill) in
  if user_free then mk user_free Null 0 0 (small_ w) else w.

(** src/code/cc/common/byte_array.cc:75-77 [WriteableByteArray::allocate (doubling)]
    [None] when the loop is still running after [fuel] rounds. *)
Fixpoint double (fuel : nat) (need next_size : Z) : option Z :=
  if next_size <? need then
    match fuel with
    | O => None
    | S fuel => double fuel need (u64 (next_size * 2))
    end
  else Some next_size.

(** src/code/cc/common/byte_array.cc:69-99 [WriteableByteArray::allocate]
    The answer is the offset of the new region in [bytes_], [None] inside
    for NULL; [None] outside for a loop that does not end. *)
Definition allocate (w : t) (size : Z) : option (option Z * t) :=
  let need := u64 (cur_ w + size) in
  if size_ w <? need then
    let size0 := if size_ w =? 0 then kSmallBufferSize else size_ w in
    next_size ← double 64 need (u64 (size0 * 2));
    let fresh :=
      match bytes_ w with
      | Small =>
          match malloc next_size with
          | Some tmp => poke tmp 0 (take (Z.to_nat (cur_ w)) (small_ w))
          | None => None
          end
      | Null => malloc next_size
      | Heap old => realloc old next_size
      end in
    match fresh with
    | None => Some (None, mk (user_free_ w) (bytes_ w) size0 (cur_ w) (small_ w))
    | Some tmp =>
        Some (Some (cur_ w), mk (user_free_ w) (Heap tmp) next_size need (small_ w))
    end
  else
    Some (match bytes_ w with
          | Null => if cur_ w =? 0 then None else Some (cur_ w)
          | _ => Some (cur_ w)
          end,
          mk (user_free_ w) (bytes_ w) (size_ w) need (small_ w)).

(** Write through the pointer [allocate] returned. *)
Definition store (w : t) (off : Z) (bs : list byte) : option t :=
  match bytes_ w with
  | Null => None
  | Small => s ← poke (small_ w) off bs; Some (mk (user_free_ w) Small (size_ w) (cur_ w) s)
  | Heap b => b ← poke b off bs; Some (mk (user_free_ w) (Heap b) (size_ w) (cur_ w) (small_ w))
  end.

(** src/code/cc/common/byte_array.cc:60-67 [WriteableByteArray::write]
    [bs] is the source buffer, [size] bytes of it are taken. *)
Definition write (w : t) (bs : list byte) (size : Z) : option (bool * t) :=
  '(addr, w) ← allocate w size;
  match addr with
  | None => Some (false, w)
  | Some off =>
      src ← peek bs 0 size;
      w ← store w off src;
      Some (true, w)
  end.

(** src/code/cc/common/byte_array.cc:101-106 [WriteableByteArray::data]
    The bytes a reader of [data]/[size] sees. *)
Definition data (w : t) : option (list byte * Z) :=
  bs ← match bytes_ w with
       | Null => if cur_ w =? 0 then Some [] else None
       | Small => peek (small_ w) 0 (cur_ w)
       | Heap b => peek b 0 (cur_ w)
       end;
  Some (bs, cur_ w).

(** src/code/cc/common/byte_array.cc:54-58 [WriteableByteArray::~WriteableByteArray]
    The block the destructor frees. *)
Definition destroy (w : t) : option (list byte) :=
  match bytes_ w with
  | Heap b => if user_free_ w then None else Some b
  | _ => None
  end.
End alloc.

(** The block behind [bytes_]. *)
Definition block (w : t) : list byte :=
  match bytes_ w with Null => [] | Small => small_ w | Heap b => b end.

(** The capacities the doubling goes through. *)
Definition capacity (n : Z) : Prop := n = 0 \/ exists k, 7 <= k <= 63 /\ n = 2 ^ k.

(** The state invariant: [size_] is the size of the block, the cursor is in
    it, there is a block as soon as there is a size, and the sizes are powers
    of two. *)
Definition wf (w : t) : Prop :=
  size_ w = Z.of_nat (length (block w)) /\ 0 <= cur_ w <= size_ w /\
  capacity (size_ w) /\ (bytes_ w = Null <-> size_ w = 0).

(** The bytes written so far. *)
Definition content (w : t) : list byte := take (Z.to_nat (cur_ w)) (block w).

Lemma make_wf fill uf : wf (make fill uf).
Proof.
  destruct uf; unfold make, wf, capacity; cbn; (split; [done|]);
    (split; [unfold kSmallBufferSize; lia|]); (split; [|by split]); [by left|].
  right. exists 7. split; [lia|done].
Qed.

Lemma content_make fill uf : content (make fill uf) = [].
Proof. by destruct uf. Qed.

Lemma content_length w : wf w -> Z.of_nat (length (content w)) = cur_ w.
Proof. intros (?&?&_). unfold content. rewrite length_take. lia. Qed.

(** The doubling loop ends within its 64 rounds with the first power of two
    that is large enough. *)
Lemma double_spec fuel need k :
  7 <= k <= 63 -> need <= 2 ^ 63 -> 63 - k <= Z.of_nat fuel ->
  exists j, k <= j <= 63 /\ double fuel need (2 ^ k) = Some (2 ^ j) /\ need <= 2 ^ j /\
    (j = k \/ 2 ^ j < 2 * need).
Proof.
  revert k. induction fuel as [|fuel IH]; intros k Hk Hn Hf.
  - assert (k = 63) as -> by lia. exists 63. cbn [double].
    zfalse (2 ^ 63 <? need).
    repeat split; (done || lia || by left).
  - cbn [double]. destruct (2 ^ k <? need) eqn:E; zbool; [|exists k; repeat split; (done || lia || by left)].
    assert (k < 63) by (apply (Z.pow_lt_mono_r_iff 2); lia).
    assert (2 ^ (k + 1) = 2 * 2 ^ k) as Hpow by (rewrite Z.pow_add_r; lia).
    assert (2 ^ (k + 1) <= 2 ^ 63) by (apply Z.pow_le_mono_r; lia).
    replace (u64 (2 ^ k * 2)) with (2 ^ (k + 1))
      by (rewrite u64_id; [lia|]; pose proof (Z.pow_pos_nonneg 2 k); lia).
    destruct (IH (k + 1)) as (j & ? & ? & ? & Hj); [lia..|].
    exists j. repeat split; [lia..|done|done|].
    right. destruct Hj as [->|]; lia.
Qed.

Lemma poke_prefix buf bs n :
  (n <= length buf)%nat -> length bs = n ->
  poke buf 0 bs = Some (bs ++ drop n buf).
Proof.
  intros Hn Hl. unfold poke. case_bool; [|zb]. simpl. by rewrite Hl.
Qed.

(** The part of [allocate] and [write] a caller relies on: a successful
    [allocate] leaves the content and opens exactly [size] bytes after it. *)
Definition grown (w w' : t) (size : Z) : Prop :=
  size_ w' = Z.of_nat (length (block w')) /\ bytes_ w' <> Null /\ 0 < size_ w' /\
  cur_ w' = cur_ w + size /\ cur_ w' <= size_ w' /\ capacity (size_ w') /\
  user_free_ w' = user_free_ w /\
  take (Z.to_nat (cur_ w)) (block w') = content w.

Lemma capacity_pos w : wf w -> size_ w <> 0 -> exists k, 7 <= k <= 63 /\ size_ w = 2 ^ k.
Proof. intros (_&_&[?|?]&_); done. Qed.

(** The block [allocate] obtains keeps what was written. *)
Lemma fresh_block enough fill w n :
  wf w -> enough n = true -> size_ w <= n -> 0 < n ->
  exists tmp,
    match bytes_ w with
    | Small => match malloc enough fill n with
               | Some tmp => poke tmp 0 (take (Z.to_nat (cur_ w)) (small_ w))
               | None => None
               end
    | Null => malloc enough fill n
    | Heap old => realloc enough fill old n
    end = Some tmp /\ Z.of_nat (length tmp) = n /\
    take (Z.to_nat (cur_ w)) tmp = content w.
Proof.
  intros (Hs & Hc & _ & Hnull) He Hn Hp. unfold malloc, realloc, content, block in *.
  rewrite He. destruct (bytes_ w) as [| |old].
  - eexists. split; [done|]. rewrite length_replicate. split; [lia|].
    simpl in *. by replace (cur_ w) with 0 by lia.
  - rewrite (poke_prefix _ _ (Z.to_nat (cur_ w)))
      by (rewrite ?length_replicate, ?length_take; lia).
    eexists. split; [done|]. rewrite length_app, length_take, length_drop, length_replicate.
    split; [lia|]. rewrite take_app_le by (rewrite length_take; lia).
    rewrite take_take. f_equal. lia.
  - eexists. split; [done|]. rewrite length_app, length_take, length_replicate.
    split; [lia|]. rewrite take_app_le by (rewrite length_take; lia).
    rewrite take_take. f_equal. lia.
Qed.

(** An [allocate] whose malloc does not fail opens [size] bytes after the
    content, in a block at most doubled beyond what is needed. *)
Lemma allocate_grown enough fill w size :
  wf w -> 0 <= size -> cur_ w + size <= 2 ^ 63 -> (size_ w = 0 -> 0 < size) ->
  (forall n, n <= 2 ^ 63 -> enough n = true) ->
  exists w', allocate enough fill w size = Some (Some (cur_ w), w') /\ grown w w' size /\
    size_ w' <= Z.max (size_ w) (Z.max 256 (2 * (cur_ w + size))).
Proof.
  intros Hw Hs Hcs Hz He. pose proof Hw as (Hsz & Hc & Hcap & Hnull).
  unfold allocate. rewrite u64_id by lia. case_bool; zbool.
  - assert (exists k, 7 <= k <= 62 /\ (k = 7 \/ 2 ^ k = size_ w) /\
      (if size_ w =? 0 then kSmallBufferSize else size_ w) = 2 ^ k) as (k & Hk & Hk' & ->).
    { destruct (size_ w =? 0) eqn:E0; zbool; [exists 7; repeat split; (done || lia || by left)|].
      destruct (capacity_pos w Hw E0) as (k & ? & Hk). exists k.
      assert (k < 63) by (apply (Z.pow_lt_mono_r_iff 2); lia).
      split; [lia|]. split; [by right|done]. }
    assert (2 ^ (k + 1) = 2 * 2 ^ k) as Hpow by (rewrite Z.pow_add_r; lia).
    assert (2 ^ (k + 1) <= 2 ^ 63) by (apply Z.pow_le_mono_r; lia).
    replace (u64 (2 ^ k * 2)) with (2 ^ (k + 1))
      by (rewrite u64_id; [lia|]; pose proof (Z.pow_pos_nonneg 2 k); lia).
    destruct (double_spec 64 (cur_ w + size) (k + 1)) as (j & Hj & -> & Hneed & Hbound); [lia..|].
    assert (2 ^ j <= 2 ^ 63) by (apply Z.pow_le_mono_r; lia).
    destruct (fresh_block enough fill w (2 ^ j)) as (tmp & Htmp & Hlen & Hpre);
      [done|by apply He|lia|lia|]. cbn [mbind option_bind]. rewrite Htmp.
    eexists. split; [done|]. unfold grown. cbn.
    repeat split; try done; try lia. { right. exists j. lia. }
    destruct Hbound as [->|]; [|lia].
    destruct Hk' as [->|]; [change (2 ^ (7 + 1)) with 256; lia|lia].
  - assert (bytes_ w <> Null) as Hnn by (rewrite Hnull; lia).
    replace (match bytes_ w with Null => _ | _ => _ end) with (Some (cur_ w))
      by (by destruct (bytes_ w)).
    eexists. split; [done|]. unfold grown, content, block. cbn.
    repeat split; done || lia.
Qed.
(** Filling the region [allocate] opened. *)
Lemma store_grown w w' bs :
  wf w -> grown w w' (Z.of_nat (length bs)) ->
  exists w'', store w' (cur_ w) bs = Some w'' /\ wf w'' /\ content w'' = content w ++ bs /\
    size_ w'' = size_ w' /\ user_free_ w'' = user_free_ w.
Proof.
  intros Hw (Hsz & Hnn & Hpos & Hcur & Hle & Hcap & Huf & Hpre). pose proof Hw as (_ & Hc & _).
  assert (exists b', poke (block w') (cur_ w) bs = Some b' /\ length b' = length (block w') /\
    take (Z.to_nat (cur_ w + Z.of_nat (length bs))) b' = content w ++ bs) as (b' & Hb & Hlb & Htk).
  { unfold poke. case_bool; [|zb]. eexists. split; [done|]. rewrite Hpre. split.
    - rewrite !length_app, length_drop. pose proof (content_length w Hw). zbool. lia.
    - rewrite (assoc_L (++)). apply take_app_length'. rewrite length_app.
      pose proof (content_length w Hw). lia. }
  unfold store. rewrite <- Hlb in Hsz.
  destruct (bytes_ w') as [| |blk] eqn:Eb; [done|..];
    unfold block in Hb; rewrite Eb in Hb; rewrite Hb; simpl;
    (eexists; split; [done|]); unfold wf, block; rewrite <- Htk; unfold content, block;
    cbn; rewrite Hcur; repeat split; done || lia.
Qed.

(** A write of any bytes on any reachable array succeeds when malloc does, and
    appends exactly those bytes to what was written before; the block at most
    doubles beyond what is needed. *)
Lemma write_spec enough fill w bs :
  wf w -> (size_ w = 0 -> bs <> []) -> cur_ w + Z.of_nat (length bs) <= 2 ^ 63 ->
  (forall n, n <= 2 ^ 63 -> enough n = true) ->
  exists w', write enough fill w bs (Z.of_nat (length bs)) = Some (true, w') /\ wf w' /\
    content w' = content w ++ bs /\ user_free_ w' = user_free_ w /\
    size_ w' <= Z.max (size_ w) (Z.max 256 (2 * (cur_ w + Z.of_nat (length bs)))).
Proof.
  intros Hw Hne Hc He.
  assert (size_ w = 0 -> 0 < Z.of_nat (length bs)) by (intros H0; specialize (Hne H0); destruct bs; simpl; [done|lia]).
  destruct (allocate_grown enough fill w (Z.of_nat (length bs))) as (w1 & Ha & Hg & Hb);
    [done|lia..|done|done|].
  destruct (store_grown w w1 bs Hw Hg) as (w2 & Hs & Hw2 & Hcont & Hsz & Huf).
  exists w2. unfold write. rewrite Ha. cbn [mbind option_bind].
  replace (peek bs 0 _) with (Some bs).
  - cbn [mbind option_bind]. rewrite Hs. cbn [mbind option_bind]. rewrite Hsz. done.
  - unfold peek. case_bool; [|zb]. simpl. by rewrite drop_0, Nat2Z.id, firstn_all.
Qed.

(** Only the first [n] bytes of the source matter. *)
Lemma write_take enough fill w bs (n : nat) :
  (n <= length bs)%nat -> write enough fill w bs (Z.of_nat n) = write enough fill w (take n bs) (Z.of_nat n).
Proof.
  intros Hn. unfold write. destruct (allocate _ _ _ _) as [[[off|] w']|]; [|done..].
  cbn [mbind option_bind]. rewrite !peek_take by (rewrite ?length_take; lia).
  by rewrite take_take, Nat.min_id.
Qed.

(** When the first malloc of a [user_free] array fails, [size_] has already
    been set: the next small write answers false but moves the cursor, and the
    one after it stores through a null-based pointer. *)
Theorem write_after_failed_malloc enough fill bs n :
  (forall m, enough m = false) -> Z.of_nat (length bs) = n -> 0 < n <= 64 ->
  exists w1 w2,
    write enough fill (make fill true) bs n = Some (false, w1) /\
    write enough fill w1 bs n = Some (false, w2) /\
    write enough fill w2 bs n = None.
Proof.
  intros He Hl Hn. unfold write, allocate. cbn -[double].
  rewrite (u64_id (0 + n)) by lia. ztrue (0 <? 0 + n).
  change (u64 (kSmallBufferSize * 2)) with (2 ^ 8).
  destruct (double_spec 64 (0 + n) 8) as (j & _ & -> & _); [lia..|].
  unfold malloc. cbn [mbind option_bind]. rewrite He. cbn -[double]. eexists _, _. split; [done|].
  cbn -[double]. rewrite (u64_id (0 + n)) by lia.
  unfold kSmallBufferSize. zfalse (128 <? 0 + n). cbn. split; [done|].
  cbn. rewrite (u64_id (0 + n + n)) by lia. zfalse (128 <? 0 + n + n).
  zfalse (0 + n =? 0). cbn. by destruct (peek bs 0 n).
Qed.

Example write_after_failed_malloc_witness :
  exists w1 w2,
    write (fun _ => false) x00 (make x00 true) [x07] 1 = Some (false, w1) /\
    write (fun _ => false) x00 w1 [x07] 1 = Some (false, w2) /\
    write (fun _ => false) x00 w2 [x07] 1 = None.
Proof. apply (write_after_failed_malloc (fun _ => false) x00 [x07] 1); done || lia. Defined.

(** What [data] shows a reader is the content. *)
Lemma data_content w : wf w -> data w = Some (content w, cur_ w).
Proof.
  intros (Hs & Hc & _ & Hnull). unfold data, content, block in *.
  destruct (bytes_ w).
  - simpl in *. assert (cur_ w = 0) as -> by lia. done.
  - unfold peek. case_bool; [|zb]. done.
  - unfold peek. case_bool; [|zb]. done.
Qed.

(** A sequence of writes, each on the array the previous one left. *)
Fixpoint writes (enough : Z -> bool) (fill : byte) (w : t) (bss : list (list byte)) : option (bool * t) :=
  match bss with
  | [] => Some (true, w)
  | bs :: bss =>
      '(ok, w) ← write enough fill w bs (Z.of_nat (length bs));
      if (ok : bool) then writes enough fill w bss else Some (false, w)
  end.

Lemma writes_spec enough fill w bss :
  wf w -> Forall (fun bs => bs <> []) bss ->
  cur_ w + Z.of_nat (length (concat bss)) <= 2 ^ 63 ->
  (forall n, n <= 2 ^ 63 -> enough n = true) ->
  exists w', writes enough fill w bss = Some (true, w') /\ wf w' /\
    content w' = content w ++ concat bss.
Proof.
  intros Hw Hne. revert w Hw. induction Hne as [|bs bss Hbs _ IH]; intros w Hw Hc He.
  { exists w. rewrite app_nil_r. done. }
  cbn [concat] in *. rewrite length_app in Hc.
  destruct (write_spec enough fill w bs) as (w1 & H1 & Hw1 & Hc1 & _); [done..|lia|done|].
  pose proof (content_length w Hw) as Hl. pose proof (content_length w1 Hw1) as Hl1.
  rewrite Hc1, length_app in Hl1.
  destruct (IH w1) as (w2 & H2 & Hw2 & Hc2); [done|lia|done|].
  exists w2. cbn [writes]. rewrite H1. cbn [mbind option_bind]. split_and!; [done..|].
  by rewrite Hc2, Hc1, (assoc_L (++)).
Qed.

(** C25: Whatever sizes the writes have, none of them empty and together at most
    2^63 bytes, and through however many moves from the inline buffer to growing
    heap blocks, a fresh array whose allocations of up to 2^63 bytes succeed
    answers true to each and hands back all the bytes written, in order. *)
Theorem writes_data enough fill uf bss :
  Forall (fun bs => bs <> []) bss -> Z.of_nat (length (concat bss)) <= 2 ^ 63 ->
  (forall n, n <= 2 ^ 63 -> enough n = true) ->
  exists w, writes enough fill (make fill uf) bss = Some (true, w) /\
    data w = Some (concat bss, Z.of_nat (length (concat bss))).
Proof.
  intros Hne Hl He.
  destruct (writes_spec enough fill (make fill uf) bss) as (w & H & Hw & Hc);
    [apply make_wf|done| |done|].
  { by replace (cur_ (make fill uf)) with 0 by (by destruct uf). }
  exists w. split; [done|]. rewrite data_content by done.
  rewrite <- (content_length w Hw), Hc, content_make. done.
Qed.

Example writes_data_witness :
  exists w, writes (fun _ => true) x00 (make x00 true) [[x01; x02]; replicate 300 x07] = Some (true, w) /\
    data w = Some ([x01; x02] ++ replicate 300 x07 ++ [], 302).
Proof.
  apply (writes_data (fun _ => true) x00 true [[x01; x02]; replicate 300 x07]);
    [|vm_compute; done|done].
  repeat constructor; done.
Defined.

(** The destructor frees a heap block exactly when the user does not. *)
Lemma destroy_spec w b :
  destroy w = Some b <-> bytes_ w = Heap b /\ user_free_ w = false.
Proof. unfold destroy. destruct (bytes_ w), (user_free_ w); naive_solver. Qed.

End Writeable.

(** ** STLStringByteArray *)
Module StlString.

(** src/code/cc/common/byte_array.h:57-70 [STLStringByteArray]
    [s_] is the string; the readable base class keeps the pointer and the size
    the string had at construction, which the first write may invalidate:
    [valid] is false from then on. *)
Record t := mk { base : Readable.t; s_ : list byte; valid : bool }.

(** src/code/cc/common/byte_array.cc:110-114 [STLStringByteArray::STLStringByteArray] *)
Definition make (s : list byte) : t := mk (Readable.make s (Z.of_nat (length s))) s true.

(** src/code/cc/common/byte_array.cc:116-118 [STLStringByteArray::read] *)
Definition read (b : t) (dst : option (list byte)) (size : Z)
  : option (bool * option (list byte) * t) :=
  if valid b then
    '(ok, dst, base) ← Readable.read (base b) dst size;
    Some (ok, dst, mk base (s_ b) (valid b))
  else None.

(** src/code/cc/common/byte_array.cc:120-123 [STLStringByteArray::write] *)
Definition write (b : t) (bytes : list byte) (size : Z) : option (bool * t) :=
  bs ← peek bytes 0 size;
  Some (true, mk (base b) (s_ b ++ bs) false).

(** src/code/cc/common/byte_array.cc:125-131 [STLStringByteArray::data] *)
Definition data (b : t) : list byte * Z := (s_ b, Z.of_nat (length (s_ b))).

(** src/code/cc/common/byte_array.cc:133-135 [STLStringByteArray::remain] *)
Definition remain (b : t) : Z * Z := Readable.remain (base b).

(** src/code/cc/common/byte_array.cc:137-142 [STLStringByteArray::allocate]
    resize appends zero bytes; the address is NULL plus the old size when the
    string is still empty. *)
Definition allocate (b : t) (size : Z) : option Z * t :=
  let old_size := Z.of_nat (length (s_ b)) in
  let s := s_ b ++ replicate (Z.to_nat size) x00 in
  (off ← string_as_array s; Some (off + old_size), mk (base b) s false).

(** A string only written to, then read through a fresh array, gives back the
    bytes in the order of the writes. *)
Lemma write_read b bs n d :
  Z.of_nat (length bs) = n -> Z.of_nat (length (s_ b)) + n < 18446744073709551616 ->
  Z.of_nat (length d) = Z.of_nat (length (s_ b)) + n ->
  exists b', write b bs n = Some (true, b') /\
    exists r, read (make (s_ b')) (Some d) (Z.of_nat (length (s_ b)) + n) =
      Some (true, Some (s_ b ++ bs), r).
Proof.
  intros Hl Hlt Hd. unfold write.
  replace (peek bs 0 n) with (Some bs).
  2:{ unfold peek. case_bool; [|zb]. simpl. rewrite drop_0, <- Hl, Nat2Z.id. by rewrite firstn_all. }
  eexists. split; [done|]. unfold read, make. cbn [valid base s_].
  rewrite Readable.read_spec; [|apply Readable.readable_make_wf; rewrite length_app; lia|lia|simpl; lia|done].
  rewrite Readable.rest_make, decide_True by (rewrite length_app; lia).
  cbn. eexists. rewrite take_ge by (rewrite length_app; lia). done.
Qed.

(** Reading after a write goes through the pointer the write may have freed. *)
Lemma read_after_write b bs n b' d k : write b bs n = Some (true, b') -> read b' d k = None.
Proof. unfold write. intros H. bind_inv. done. Qed.

End StlString.
