(* ===== verification/Compress.v ===== *)
(** * Compress: the variable-length integers of common/compress.h

    An unsigned 64-bit integer takes 1 to 9 bytes; the number of trailing ones
    of the first byte is the number of bytes that follow. A [char*] is the
    list of the bytes from the pointer to the end of its object, [s] is the
    size the caller states; [None] is an access outside the object. *)

From S2P Require Import Prelude Utils Memcpy ByteArray.

(** ** Zigzag *)

(** src/code/cc/common/compress.h:15-17 [zigzag_encode]
    The left shift of a negative number keeps the low 64 bits. *)
Definition zigzag_encode (v : Z) : Z :=
  u64 (Z.lxor (s64 (Z.shiftl v 1)) (Z.shiftr v 63)).

(** src/code/cc/common/compress.h:19-21 [zigzag_decode] *)
Definition zigzag_decode (v : Z) : Z :=
  Z.lxor (s64 (- s64 (Z.land v 1))) (s64 (Z.shiftr v 1)).

(** ** Sizes *)

(** src/code/cc/common/compress.h:23-33 [compress_uint64_size] *)
Definition compress_uint64_size (v : Z) : Z :=
  if v <? Z.shiftl 1 7 then 1 else
  if v <? Z.shiftl 1 14 then 2 else
  if v <? Z.shiftl 1 21 then 3 else
  if v <? Z.shiftl 1 28 then 4 else
  if v <? Z.shiftl 1 35 then 5 else
  if v <? Z.shiftl 1 42 then 6 else
  if v <? Z.shiftl 1 49 then 7 else
  if v <? Z.shiftl 1 56 then 8 else 9.

(** src/code/cc/common/compress.h:35-45 [decompress_uint64_size]
    The masks are below 256, so the sign of [char] does not matter. *)
Definition decompress_uint64_size (x : Z) : Z :=
  if Z.land x 0x1 =? 0 then 1 else
  if Z.land x 0x2 =? 0 then 2 else
  if Z.land x 0x4 =? 0 then 3 else
  if Z.land x 0x8 =? 0 then 4 else
  if Z.land x 0x10 =? 0 then 5 else
  if Z.land x 0x20 =? 0 then 6 else
  if Z.land x 0x40 =? 0 then 7 else
  if Z.land x 0x80 =? 0 then 8 else 9.

(** ** Compression *)

(** Copy the first [n] bytes of the object [v] to [p] and return [n]. *)
Definition emit (n : nat) (p : list byte) (v : Z) : option (Z * list byte) :=
  p ← _fast_memcpy n p 0 (le_bytes 8 v) 0; Some (Z.of_nat n, p).

(** src/code/cc/common/compress.h:47-126 [compress_uint64]
    The result code and the buffer afterwards. *)
Definition compress_uint64 (p : list byte) (s v : Z) : option (Z * list byte) :=
  if v <? Z.shiftl 1 7 then
    if s <? 1 then Some (0, p) else emit 1 p (u64 (Z.shiftl v 1))
  else if v <? Z.shiftl 1 14 then
    if s <? 2 then Some (0, p) else emit 2 p (Z.lor (u64 (Z.shiftl v 2)) 0x1)
  else if v <? Z.shiftl 1 21 then
    if s <? 3 then Some (0, p) else emit 3 p (Z.lor (u64 (Z.shiftl v 3)) 0x3)
  else if v <? Z.shiftl 1 28 then
    if s <? 4 then Some (0, p) else emit 4 p (Z.lor (u64 (Z.shiftl v 4)) 0x7)
  else if v <? Z.shiftl 1 35 then
    if s <? 5 then Some (0, p) else emit 5 p (Z.lor (u64 (Z.shiftl v 5)) 0xf)
  else if v <? Z.shiftl 1 42 then
    if s <? 6 then Some (0, p) else emit 6 p (Z.lor (u64 (Z.shiftl v 6)) 0x1f)
  else if v <? Z.shiftl 1 49 then
    if s <? 7 then Some (0, p) else emit 7 p (Z.lor (u64 (Z.shiftl v 7)) 0x3f)
  else if v <? Z.shiftl 1 56 then
    if s <? 8 then Some (0, p) else emit 8 p (Z.lor (u64 (Z.shiftl v 8)) 0x7f)
  else if s <? 9 then Some (0, p) else
    p ← poke p 0 [xff];
    p ← _fast_memcpy 8 p 1 (le_bytes 8 v) 0;
    Some (9, p).

(** src/code/cc/common/compress.h:128-130 [compress_int64] *)
Definition compress_int64 (p : list byte) (s v : Z) : option (Z * list byte) :=
  compress_uint64 p s (zigzag_encode v).

(** ** Decompression *)

(** Copy [k] more bytes to the second byte of [tmp]; the value of [tmp]. *)
Definition more (k : nat) (tmp p : list byte) : option Z :=
  tmp ← _fast_memcpy k tmp 1 p 1; Some (le_val tmp).

(** src/code/cc/common/compress.h:132-209 [decompress_uint64]
    [v] is the object behind the last argument, [None] while it is
    uninitialised; the result code and that object afterwards. *)
Definition decompress_uint64 (p : list byte) (s : Z) (v : option Z) : option (Z * option Z) :=
  if s <? 1 then Some (0, v) else
  tmp ← _fast_memcpy 1 (le_bytes 8 0) 0 p 0;
  let t := le_val tmp in
  if Z.land t 0x1 =? 0 then Some (1, Some (Z.shiftr t 1))
  else if Z.land t 0x2 =? 0 then
    if s <? 2 then Some (0, v) else t ← more 1 tmp p; Some (2, Some (Z.shiftr t 2))
  else if Z.land t 0x4 =? 0 then
    if s <? 3 then Some (0, v) else t ← more 2 tmp p; Some (3, Some (Z.shiftr t 3))
  else if Z.land t 0x8 =? 0 then
    if s <? 4 then Some (0, v) else t ← more 3 tmp p; Some (4, Some (Z.shiftr t 4))
  else if Z.land t 0x10 =? 0 then
    if s <? 5 then Some (0, v) else t ← more 4 tmp p; Some (5, Some (Z.shiftr t 5))
  else if Z.land t 0x20 =? 0 then
    if s <? 6 then Some (0, v) else t ← more 5 tmp p; Some (6, Some (Z.shiftr t 6))
  else if Z.land t 0x40 =? 0 then
    if s <? 7 then Some (0, v) else t ← more 6 tmp p; Some (7, Some (Z.shiftr t 7))
  else if Z.land t 0x80 =? 0 then
    if s <? 8 then Some (0, v) else t ← more 7 tmp p; Some (8, Some (Z.shiftr t 8))
  else
    b ← arr_get p 0;
    guard (byte_to_Z b = 0xff);;
    w ← _fast_memcpy 8 (le_bytes 8 (default 0 v)) 0 p 1;
    Some (9, Some (le_val w)).

(** src/code/cc/common/compress.h:211-216 [decompress_int64]
    [x] is decoded even when the call left it uninitialised, which is
    undefined. *)
Definition decompress_int64 (p : list byte) (s : Z) (v : option Z) : option (Z * option Z) :=
  '(code, x) ← decompress_uint64 p s None;
  x ← x;
  Some (code, Some (zigzag_decode x)).

(** ** The same on byte arrays *)
Module Bytes.

Section alloc.
Context (enough : Z -> bool) (fill : byte).

(** src/code/cc/common/compress.h:220-224 [compress_uint64] *)
Definition compress_uint64 (w : Writeable.t) (v : Z) : option (bool * Writeable.t) :=
  '(s, p) ← compress_uint64 (replicate 9 fill) 9 v;
  Writeable.write enough fill w p s.

(** src/code/cc/common/compress.h:226-228 [compress_int64] *)
Definition compress_int64 (w : Writeable.t) (v : Z) : option (bool * Writeable.t) :=
  compress_uint64 w (zigzag_encode v).
End alloc.

(** src/code/cc/common/compress.h:230-239 [decompress_uint64]
    The answer, the object [v] and the array; a failing assertion is [None]. *)
Definition decompress_uint64 (b : Readable.t) (v : option Z)
  : option (bool * option Z * Readable.t) :=
  let '(off, size) := Readable.remain b in
  p ← peek (Readable.bytes_ b) off (Z.of_nat (length (Readable.bytes_ b)) - off);
  '(n, v) ← decompress_uint64 p size v;
  if n =? 0 then Some (false, v, b) else
  '(ok, _, b) ← Readable.read b None n;
  if (ok : bool) then Some (true, v, b) else None.

(** src/code/cc/common/compress.h:241-248 [decompress_int64] *)
Definition decompress_int64 (b : Readable.t) (v : option Z)
  : option (bool * option Z * Readable.t) :=
  '(ok, x, b) ← decompress_uint64 b None;
  if negb ok then Some (false, v, b) else
  x ← x;
  Some (true, Some (zigzag_decode x), b).

End Bytes.

(** ** The code *)

(** The bytes of a compressed integer: [n] bytes hold [v], shifted by [n] bits
    over [n - 1] ones. *)
Definition encode (v : Z) : list byte :=
  let n := compress_uint64_size v in
  if n =? 9 then xff :: le_bytes 8 v
  else le_bytes (Z.to_nat n) (v * 2 ^ n + (2 ^ (n - 1) - 1)).

(** ** Zigzag lemmas *)

Lemma u64_s64 z : u64 (s64 z) = u64 z.
Proof. apply (wrapU_wrapS 64). lia. Qed.

Lemma u64_lnot_s64 z : u64 (Z.lnot (s64 z)) = u64 (Z.lnot z).
Proof.
  unfold Z.lnot. rewrite <- !Z.sub_1_r. unfold u64, wrapU.
  rewrite !Z.opp_eq_mul_m1, Zminus_mod, Zmult_mod.
  fold (wrapU 64 (s64 z)). change (wrapU 64 (s64 z)) with (u64 (s64 z)).
  rewrite u64_s64. unfold u64, wrapU. by rewrite <- Zmult_mod, <- Zminus_mod.
Qed.

(** Zigzag numbers 0, -1, 1, -2, 2, ... as 0, 1, 2, 3, 4, ... *)
Lemma zigzag_encode_spec v :
  -9223372036854775808 <= v < 9223372036854775808 ->
  zigzag_encode v = if 0 <=? v then 2 * v else - 2 * v - 1.
Proof.
  intros Hv. unfold zigzag_encode. rewrite Z.shiftl_mul_pow2, Z.shiftr_div_pow2 by lia.
  change (2 ^ 63) with 9223372036854775808. case_bool; zbool.
  - rewrite Z.div_small, Z.lxor_0_r, u64_s64 by lia. rewrite u64_id; lia.
  - replace (v / 9223372036854775808) with (-1) by (apply (Z.div_unique _ _ _ (v + 9223372036854775808)); lia).
    rewrite Z.lxor_m1_r, u64_lnot_s64. unfold Z.lnot. rewrite u64_id; lia.
Qed.

Lemma zigzag_decode_spec n :
  0 <= n < 18446744073709551616 ->
  zigzag_decode n = if Z.even n then n / 2 else - (n / 2) - 1.
Proof.
  intros Hn. unfold zigzag_decode. change 1 with (Z.ones 1) at 1.
  rewrite Z.land_ones, Z.shiftr_div_pow2 by lia. change (2 ^ 1) with 2.
  rewrite Zmod_even. rewrite (s64_id (n / 2)) by dlia.
  destruct (Z.even n).
  - done.
  - change (s64 (- s64 1)) with (-1). rewrite Z.lxor_comm, Z.lxor_m1_r. unfold Z.lnot. lia.
Qed.

(** Encoding is a bijection between the signed and the unsigned 64-bit
    integers, [zigzag_decode] its inverse. *)
Lemma zigzag_roundtrip v :
  -9223372036854775808 <= v < 9223372036854775808 ->
  zigzag_decode (zigzag_encode v) = v /\ 0 <= zigzag_encode v < 18446744073709551616.
Proof.
  intros Hv. rewrite zigzag_encode_spec by lia. split; [|case_bool; zb].
  rewrite zigzag_decode_spec by (case_bool; zb). destruct (0 <=? v) eqn:E; zbool.
  - rewrite Z.even_mul. cbn. rewrite Z.mul_comm, Z.div_mul; lia.
  - replace (Z.even (-2 * v - 1)) with false by (rewrite Z.even_sub, Z.even_mul; done).
    dlia.
Qed.

Lemma zigzag_roundtrip_inv n :
  0 <= n < 18446744073709551616 ->
  zigzag_encode (zigzag_decode n) = n /\
  -9223372036854775808 <= zigzag_decode n < 9223372036854775808.
Proof.
  intros Hn. rewrite zigzag_decode_spec by done.
  pose proof (Zmod_even n) as Hm. pose proof (Z_div_mod_eq_full n 2).
  destruct (Z.even n); (split; [|dlia]); rewrite zigzag_encode_spec by dlia; case_bool; zbool; dlia.
Qed.

(** ** Tag bits *)

Lemma land_bit x j : 0 <= j -> (Z.land x (2 ^ j) =? 0) = negb (Z.testbit x j).
Proof.
  intros Hj. destruct (Z.testbit x j) eqn:E; simpl; zbool.
  - intros H. apply (f_equal (fun z => Z.testbit z j)) in H.
    rewrite Z.land_spec, E, Z.pow2_bits_true, Z.bits_0 in H by lia. done.
  - apply Z.bits_inj'; intros m Hm. rewrite Z.land_spec, Z.bits_0, Z.pow2_bits_eqb by lia.
    destruct (Z.eqb_spec j m) as [<-|]; [by rewrite E|by rewrite andb_false_r].
Qed.

(** The masks of the tests are the powers of two. *)
Lemma decompress_uint64_size_bits x :
  decompress_uint64_size x =
    if negb (Z.testbit x 0) then 1 else if negb (Z.testbit x 1) then 2 else
    if negb (Z.testbit x 2) then 3 else if negb (Z.testbit x 3) then 4 else
    if negb (Z.testbit x 4) then 5 else if negb (Z.testbit x 5) then 6 else
    if negb (Z.testbit x 6) then 7 else if negb (Z.testbit x 7) then 8 else 9.
Proof. rewrite <- !land_bit by lia. done. Qed.

Lemma low_bit x c n j : 0 <= j < n -> Z.testbit (x * 2 ^ n + c) j = Z.testbit c j.
Proof.
  intros Hj. rewrite <- (Z.mod_pow2_bits_low (x * 2 ^ n + c) n) by lia.
  rewrite Z.add_comm, Z_mod_plus_full. apply Z.mod_pow2_bits_low. lia.
Qed.

Lemma decompress_uint64_size_mod x :
  decompress_uint64_size (x `mod` 256) = decompress_uint64_size x.
Proof.
  rewrite !decompress_uint64_size_bits. change 256 with (2 ^ 8).
  by rewrite !Z.mod_pow2_bits_low by lia.
Qed.

Ltac nine n := assert (n = 1 \/ n = 2 \/ n = 3 \/ n = 4 \/ n = 5 \/ n = 6 \/ n = 7 \/ n = 8)
  as [->|[->|[->|[->|[->|[->|[->| ->]]]]]]] by lia.

Lemma decompress_uint64_size_tag v n :
  1 <= n <= 8 -> decompress_uint64_size (v * 2 ^ n + (2 ^ (n - 1) - 1)) = n.
Proof.
  intros Hn. rewrite decompress_uint64_size_bits.
  nine n; rewrite !low_bit by lia; reflexivity.
Qed.

(** The size of a compressed value: [n] bytes hold values below [2^(7n)]. *)
Lemma compress_uint64_size_spec v :
  0 <= v < 18446744073709551616 ->
  let n := compress_uint64_size v in
  (1 <= n <= 8 /\ v < 2 ^ (7 * n) /\ (1 < n -> 2 ^ (7 * (n - 1)) <= v)) \/
  (n = 9 /\ 72057594037927936 <= v).
Proof.
  intros Hv. unfold compress_uint64_size. rewrite !Z.shiftl_1_l.
  repeat (case_bool; zbool; [left; repeat split; try done; try lia; intros; exact E||exact E0
   || exact E1 || exact E2 || exact E3 || exact E4 || exact E5 || exact E6 || exact E7|]).
  right. done.
Qed.

Lemma word_range v n :
  1 <= n <= 8 -> 0 <= v < 2 ^ (7 * n) ->
  0 <= v * 2 ^ n + (2 ^ (n - 1) - 1) < 2 ^ (8 * n) /\ v * 2 ^ n < 2 ^ (8 * n).
Proof.
  intros Hn Hv. replace (8 * n) with (7 * n + n) by lia. rewrite Z.pow_add_r by lia.
  assert (2 ^ n = 2 * 2 ^ (n - 1)) as HP by (rewrite <- Z.pow_succ_r by lia; f_equal; lia).
  pose proof (Z.pow_pos_nonneg 2 (n - 1) ltac:(lia) ltac:(lia)). nia.
Qed.

Lemma length_encode v :
  0 <= v < 18446744073709551616 -> Z.of_nat (length (encode v)) = compress_uint64_size v.
Proof.
  intros Hv. unfold encode.
  pose proof (compress_uint64_size_spec v Hv) as Hn; simpl in Hn. case_bool; zbool.
  - simpl. lia.
  - rewrite length_le_bytes. lia.
Qed.

(** The first byte of the code tells its length. *)
Lemma encode_head v :
  0 <= v < 18446744073709551616 ->
  exists b p, encode v = b :: p /\
    decompress_uint64_size (byte_to_Z b) = compress_uint64_size v.
Proof.
  intros Hv. unfold encode.
  pose proof (compress_uint64_size_spec v Hv) as Hn; simpl in Hn. case_bool; zbool.
  - exists xff, (le_bytes 8 v). rewrite E. done.
  - destruct Hn as [[Hn _]|]; [|lia]. set (n := compress_uint64_size v) in *.
    replace (Z.to_nat n) with (S (Z.to_nat n - 1)) by lia. cbn [le_bytes].
    eexists _, _. split; [done|].
    rewrite byte_to_of, decompress_uint64_size_mod. by apply decompress_uint64_size_tag.
Qed.

(** ** Copies at the two ends *)

Lemma _fast_memcpy_emit n p w :
  (1 <= n <= 8)%nat -> (n <= length p)%nat ->
  emit n p w = Some (Z.of_nat n, le_bytes n w ++ drop n p).
Proof.
  intros Hn Hp. unfold emit. rewrite _fast_memcpy_memcpy by lia.
  unfold memcpy. rewrite peek_take by (rewrite length_le_bytes; lia).
  cbn [mbind option_bind]. rewrite take_le_bytes, (Writeable.poke_prefix _ _ n)
    by (rewrite ?length_le_bytes; lia). done.
Qed.

Lemma more_spec k b p :
  (1 <= k <= 7)%nat -> (k <= length p)%nat ->
  more k (b :: le_bytes 7 0) (b :: p) = Some (le_val (take (S k) (b :: p))).
Proof.
  intros Hk Hp. unfold more. rewrite _fast_memcpy_memcpy by lia. unfold memcpy.
  replace (peek (b :: p) 1 (Z.of_nat k)) with (Some (take k p)).
  2:{ unfold peek. case_bool; [|simpl in E; zb]. simpl. by rewrite drop_0, Nat2Z.id. }
  cbn [mbind option_bind]. unfold poke. simpl length. rewrite length_take.
  case_bool; [|zb]. cbn [mbind option_bind].
  replace (Z.to_nat 1 + k `min` length p)%nat with (S k) by lia.
  change (Z.to_nat 1) with 1%nat. cbn [take drop app le_val].
  change (le_bytes 7 0) with (replicate 7 x00).
  rewrite firstn_O, drop_replicate. cbn [app].
  rewrite le_val_app, le_val_zeros. do 2 f_equal. lia.
Qed.

Lemma lor_tag v n :
  1 <= n <= 8 -> 0 <= v < 2 ^ (7 * n) ->
  Z.lor (u64 (Z.shiftl v n)) (2 ^ (n - 1) - 1) = v * 2 ^ n + (2 ^ (n - 1) - 1).
Proof.
  intros Hn Hv. destruct (word_range v n Hn Hv).
  assert (2 ^ (8 * n) <= 2 ^ 64) by (apply Z.pow_le_mono_r; lia).
  assert (0 < 2 ^ (n - 1) /\ 2 ^ n = 2 * 2 ^ (n - 1)) as [? ?].
  { split; [lia|]. rewrite <- Z.pow_succ_r by lia. f_equal. lia. }
  rewrite u64_id by (rewrite Z.shiftl_mul_pow2 by lia; nia).
  rewrite <- (Z.shiftl_mul_pow2 v) by lia.
  assert (Z.land (2 ^ (n - 1) - 1) (Z.shiftl v n) = 0) as Hl by (apply land_0_of_low; lia).
  rewrite Z.land_comm in Hl. rewrite Z.add_nocarry_lxor, Z.lxor_lor by done. done.
Qed.

(** One of the eight branches, and the last one. *)
Lemma compress_branch p s v k c :
  0 <= v < 18446744073709551616 -> 0 <= s <= Z.of_nat (length p) ->
  compress_uint64_size v = k -> 1 <= k <= 8 -> c = 2 ^ (k - 1) - 1 ->
  (if s <? k then Some (0, p) else emit (Z.to_nat k) p (Z.lor (u64 (Z.shiftl v k)) c)) =
  if s <? k then Some (0, p) else Some (k, encode v ++ drop (length (encode v)) p).
Proof.
  intros Hv Hs Hks Hk ->. case_bool; [done|]. zbool.
  pose proof (compress_uint64_size_spec v Hv) as Hn; simpl in Hn.
  rewrite Hks in Hn. rewrite lor_tag, _fast_memcpy_emit by lia.
  unfold encode. rewrite Hks. zfalse (k =? 9). rewrite length_le_bytes. do 2 f_equal. lia.
Qed.

Lemma compress_nine p s v :
  9 <= s <= Z.of_nat (length p) -> compress_uint64_size v = 9 ->
  (p ← poke p 0 [xff]; p ← _fast_memcpy 8 p 1 (le_bytes 8 v) 0; Some (9, p)) =
  Some (9, encode v ++ drop (length (encode v)) p).
Proof.
  intros Hs Hs9. unfold encode. rewrite Hs9. case_bool; [|zb].
  destruct p as [|b p]; [simpl in Hs; lia|]. simpl in Hs.
  rewrite (Writeable.poke_prefix _ _ 1) by (simpl; lia). cbn [mbind option_bind].
  rewrite _fast_memcpy_memcpy by lia. cbn [drop app]. rewrite drop_0. unfold memcpy.
  rewrite peek_take by (rewrite length_le_bytes; lia). cbn [mbind option_bind].
  rewrite take_ge by (rewrite length_le_bytes; lia).
  unfold poke. rewrite length_le_bytes. simpl length. case_bool; [done|zb].
Qed.

(** The size of the value from the tests that were taken. *)
Ltac size_is k :=
  let H := fresh "Hsize" in
  assert (compress_uint64_size _ = k) as H by
    (unfold compress_uint64_size;
     repeat match goal with E : _ = _ |- context [if _ then _ else _] => rewrite E end; reflexivity);
  rewrite ?H.

(** [compress_uint64] writes the code to the front of the buffer and returns
    its length when the stated size has room for it, and otherwise returns 0
    with the buffer untouched. *)
Lemma compress_uint64_spec p s v :
  0 <= v < 18446744073709551616 -> 0 <= s <= Z.of_nat (length p) ->
  compress_uint64 p s v =
    if s <? compress_uint64_size v then Some (0, p)
    else Some (compress_uint64_size v, encode v ++ drop (length (encode v)) p).
Proof.
  intros Hv Hs. unfold compress_uint64.
  destruct (v <? Z.shiftl 1 7) eqn:E1.
  { size_is 1. rewrite <- (compress_branch p s v 1 0) by (done || lia). by rewrite Z.lor_0_r. }
  do 7 (case_bool; [match goal with |- (if s <? ?k then _ else _) = _ =>
    size_is k; apply (compress_branch p s v k); done || lia end|]).
  size_is 9. case_bool; [done|]. rewrite (compress_nine p s v); [done|zb|done].
Qed.


(** ** Decompression *)

Lemma first_byte b p : _fast_memcpy 1 (le_bytes 8 0) 0 (b :: p) 0 = Some (b :: le_bytes 7 0).
Proof. unfold _fast_memcpy. rewrite peek_take by (simpl; lia). done. Qed.

(** Reading by the first byte: it tells the number [n] of bytes; with fewer
    than that the result is 0 and the object untouched. *)
Lemma decompress_uint64_tag b p s v :
  let n := decompress_uint64_size (byte_to_Z b) in
  1 <= s <= Z.of_nat (length (b :: p)) -> n <= 8 ->
  decompress_uint64 (b :: p) s v =
    if s <? n then Some (0, v)
    else Some (n, Some (Z.shiftr (le_val (take (Z.to_nat n) (b :: p))) n)).
Proof.
  intros n Hs. subst n. simpl length in Hs. unfold decompress_uint64.
  zfalse (s <? 1). rewrite first_byte.
  cbn [mbind option_bind]. replace (le_val (b :: le_bytes 7 0)) with (byte_to_Z b)
    by (cbn [le_val]; change (le_bytes 7 0) with (replicate 7 x00); rewrite le_val_zeros; lia).
  unfold decompress_uint64_size.
  destruct (Z.land (byte_to_Z b) 0x1 =? 0).
  { intros _. zfalse (s <? 1). change (take (Z.to_nat 1) (b :: p)) with (b :: take 0 p).
    rewrite firstn_O. cbn [le_val]. rewrite Z.mul_0_r, Z.add_0_r. done. }
  do 7 (case_bool; [intros _; case_bool; [done|]; zbool; rewrite more_spec by lia; done|]).
  lia.
Qed.

Lemma decompress_uint64_last p s v :
  1 <= s -> decompress_uint64 (xff :: p) s v =
    (w ← _fast_memcpy 8 (le_bytes 8 (default 0 v)) 0 (xff :: p) 1; Some (9, Some (le_val w))).
Proof.
  intros Hs. unfold decompress_uint64. zfalse (s <? 1). rewrite first_byte. reflexivity.
Qed.

Lemma decompress_uint64_ff p s v :
  1 <= s -> 8 <= Z.of_nat (length p) ->
  decompress_uint64 (xff :: p) s v = Some (9, Some (le_val (take 8 p))).
Proof.
  intros Hs Hp. rewrite decompress_uint64_last by done. unfold _fast_memcpy.
  replace (peek (xff :: p) 1 (Z.of_nat 8)) with (Some (take 8 p)).
  2:{ unfold peek. simpl length. case_bool; [|zb]. done. }
  cbn [mbind option_bind]. rewrite (Writeable.poke_prefix _ _ 8)
    by (rewrite ?length_le_bytes, ?length_take; lia).
  cbn [mbind option_bind]. rewrite drop_ge, app_nil_r by (rewrite length_le_bytes; lia). done.
Qed.

Lemma decompress_uint64_size_9 b : decompress_uint64_size (byte_to_Z b) = 9 <-> b = xff.
Proof. split; [|by intros ->]. destruct b; (reflexivity || (intros H; vm_compute in H; discriminate)). Qed.

Lemma decompress_uint64_size_range x : 1 <= decompress_uint64_size x <= 9.
Proof. unfold decompress_uint64_size. repeat case_bool; lia. Qed.

(** Decoding what follows a code in a buffer. *)
Lemma decompress_encode v r s x :
  0 <= v < 18446744073709551616 ->
  compress_uint64_size v <= s <= Z.of_nat (length (encode v ++ r)) ->
  decompress_uint64 (encode v ++ r) s x = Some (compress_uint64_size v, Some v).
Proof.
  intros Hv Hs. pose proof (compress_uint64_size_spec v Hv) as Hn; simpl in Hn.
  destruct Hn as [(Hn & Hlt & _)|[Hn _]].
  - pose proof (encode_head v Hv) as (b & p & Heq & Hb).
    pose proof (length_encode v Hv) as Hlen.
    rewrite Heq in *. cbn [app] in *.
    rewrite decompress_uint64_tag by (rewrite ?Hb; lia). rewrite Hb. case_bool; [zb|].
    rewrite app_comm_cons, take_app_le, take_ge by lia.
    rewrite <- Heq. unfold encode. zfalse (compress_uint64_size v =? 9).
    rewrite le_val_bytes. do 3 f_equal. set (n := compress_uint64_size v) in *.
    rewrite Z2Nat.id, Z.shiftr_div_pow2 by lia.
    destruct (word_range v n) as [Hw _]; [lia..|].
    replace (256 ^ n) with (2 ^ (8 * n)) by (rewrite Z.pow_mul_r by lia; done).
    rewrite Z.mod_small, Z.div_add_l, Z.div_small, Z.add_0_r; [done| |lia..].
    assert (2 ^ n = 2 * 2 ^ (n - 1)) as HP by (rewrite <- Z.pow_succ_r by lia; f_equal; lia).
    lia.
  - unfold encode in *. rewrite Hn in *. cbn [app Z.eqb Pos.eqb] in *.
    rewrite decompress_uint64_ff by (rewrite ?length_app, ?length_le_bytes; lia).
    rewrite take_app_le, take_ge by (rewrite length_le_bytes; lia).
    rewrite le_val_bytes. change (256 ^ Z.of_nat 8) with 18446744073709551616.
    by rewrite Z.mod_small.
Qed.

(** C8: Compressing into a buffer with the room it needs, then decompressing that
    buffer, gives back the value; both return the number of bytes used, and
    the bytes after them are untouched. Without the room, compression returns
    0 and writes nothing. *)
Theorem compress_roundtrip p s v x :
  0 <= v < 18446744073709551616 -> 0 <= s <= Z.of_nat (length p) ->
  exists n p', compress_uint64 p s v = Some (n, p') /\
    ((n = 0 /\ p' = p /\ s < compress_uint64_size v) \/
     (n = compress_uint64_size v /\ n <= s /\
      drop (Z.to_nat n) p' = drop (Z.to_nat n) p /\
      decompress_uint64 p' s x = Some (n, Some v))).
Proof.
  intros Hv Hs. rewrite compress_uint64_spec by done.
  pose proof (length_encode v Hv) as Hlen. pose proof (compress_uint64_size_spec v Hv) as Hn.
  simpl in Hn. case_bool; zbool; eexists _, _; (split; [done|]); [by left|right].
  rewrite <- Hlen, Nat2Z.id, drop_app_length. repeat split; try lia.
  rewrite decompress_encode by (rewrite ?length_app, ?length_drop; lia). by rewrite Hlen.
Qed.

Example compress_roundtrip_witness :
  exists n p', compress_uint64 (replicate 4 x00) 4 300 = Some (n, p') /\
    ((n = 0 /\ p' = replicate 4 x00 /\ 4 < compress_uint64_size 300) \/
     (n = compress_uint64_size 300 /\ n <= 4 /\
      drop (Z.to_nat n) p' = drop (Z.to_nat n) (replicate 4 x00) /\
      decompress_uint64 p' 4 None = Some (n, Some 300))).
Proof. apply compress_roundtrip; vm_compute; done. Defined.

(** A code cut short is refused and the result object untouched, when the
    value is below [2^56]; a 9-byte code cut short is read past its end, since
    the last branch does not look at the size. *)
Theorem decompress_truncated v k x :
  0 <= v < 18446744073709551616 -> 1 <= k < compress_uint64_size v ->
  decompress_uint64 (take (Z.to_nat k) (encode v)) k x =
    if compress_uint64_size v =? 9 then None else Some (0, x).
Proof.
  intros Hv Hk. pose proof (encode_head v Hv) as (b & p & Heq & Hb).
  pose proof (length_encode v Hv) as Hlen. rewrite Heq in *.
  replace (Z.to_nat k) with (S (Z.to_nat k - 1)) by lia. cbn [take]. simpl in Hlen.
  case_bool; zbool.
  - rewrite E in Hb. apply decompress_uint64_size_9 in Hb as ->.
    rewrite decompress_uint64_last by lia. unfold _fast_memcpy, peek.
    simpl length. rewrite length_take. by case_bool; [zb|].
  - pose proof (compress_uint64_size_spec v Hv) as Hn; simpl in Hn.
    rewrite decompress_uint64_tag by (simpl length; rewrite ?length_take, ?Hb; lia).
    rewrite Hb. by ztrue (k <? compress_uint64_size v).
Qed.

Example decompress_truncated_witness :
  decompress_uint64 (take 3 (encode 18446744073709551615)) 3 (Some 5) = None /\
  decompress_uint64 (take 1 (encode 300)) 1 (Some 5) = Some (0, Some 5).
Proof.
  split.
  - refine (eq_trans (decompress_truncated 18446744073709551615 3 (Some 5) _ _) _); vm_compute; done.
  - refine (eq_trans (decompress_truncated 300 1 (Some 5) _ _) _); vm_compute; done.
Defined.

(** Nine bytes hold any 64-bit integer, fewer hold seven bits each. *)
Definition code_bound (code : Z) : Z := if code =? 9 then 2 ^ 64 else 2 ^ (7 * code).

(** A code of at most eight bytes, or cut short. *)
Lemma decompress_short b p s x :
  Z.of_nat (length (b :: p)) = s -> b <> xff ->
  exists code y, decompress_uint64 (b :: p) s x = Some (code, y) /\ 0 <= code <= s /\ code <= 8 /\
    (code = 0 -> y = x) /\
    (code <> 0 -> exists w, y = Some w /\ 0 <= w < 2 ^ (7 * code)).
Proof.
  intros Hs Hff. pose proof (decompress_uint64_size_range (byte_to_Z b)).
  assert (decompress_uint64_size (byte_to_Z b) <> 9)
    by (intros H9%decompress_uint64_size_9; by subst).
  simpl length in Hs. rewrite decompress_uint64_tag by (simpl length; lia).
  set (n := decompress_uint64_size (byte_to_Z b)) in *.
  case_bool; zbool; eexists _, _; (split; [done|]); repeat split; try done; try lia.
  intros _. eexists. split; [done|].
  pose proof (le_val_range (take (Z.to_nat n) (b :: p))) as Hr.
  rewrite length_take in Hr. simpl length in Hr.
  replace (Z.of_nat (Z.to_nat n `min` S (length p))) with n in Hr by lia.
  replace (256 ^ n) with (2 ^ (7 * n) * 2 ^ n) in Hr
    by (rewrite <- Z.pow_add_r by lia; change 256 with (2 ^ 8); rewrite <- Z.pow_mul_r by lia;
        f_equal; lia).
  rewrite Z.shiftr_div_pow2 by lia. split; [apply Z.div_pos; lia|].
  apply Z.div_lt_upper_bound; lia.
Qed.

(** C26: On arbitrary input of the stated size, the decoder reads outside of it
    exactly when the input starts with 0xff and is shorter than nine bytes. On
    every other input, the nine-byte form included, its result code never
    exceeds the size, is 0 only when the object is left alone, and else comes
    with a value in the range of a code of that many bytes. *)
Theorem decompress_safe p s x :
  Z.of_nat (length p) = s ->
  (decompress_uint64 p s x = None <-> head p = Some xff /\ s < 9) /\
  (~ (head p = Some xff /\ s < 9) ->
   exists code y, decompress_uint64 p s x = Some (code, y) /\ 0 <= code <= s /\ code <= 9 /\
     (code = 0 -> y = x) /\
     (code <> 0 -> exists w, y = Some w /\ 0 <= w < code_bound code)).
Proof.
  intros Hs.
  assert (~ (head p = Some xff /\ s < 9) ->
    exists code y, decompress_uint64 p s x = Some (code, y) /\ 0 <= code <= s /\ code <= 9 /\
     (code = 0 -> y = x) /\
     (code <> 0 -> exists w, y = Some w /\ 0 <= w < code_bound code)) as Hok.
  { intros Hn. destruct p as [|b p].
    { simpl in Hs. subst. exists 0, x. repeat split; done || lia. }
    destruct (decide (b = xff)) as [->|Hb].
    - assert (9 <= s) by (simpl in Hn; destruct (decide (s < 9)); [tauto|lia]).
      simpl length in Hs. rewrite decompress_uint64_ff by lia. eexists _, _.
      split; [done|]. repeat split; try done; try lia. intros _. eexists. split; [done|].
      pose proof (le_val_range (take 8 p)) as Hr. rewrite length_take in Hr.
      replace (8 `min` length p)%nat with 8%nat in Hr by lia. exact Hr.
    - destruct (decompress_short b p s x Hs Hb) as (code & y & ? & ? & ? & ? & Hw).
      exists code, y. split_and!; try done; try lia. intros Hc. unfold code_bound.
      zfalse (code =? 9). by apply Hw. }
  split; [|done]. split.
  - intros Hnone. destruct (decide (head p = Some xff)) as [Hh|Hh], (decide (s < 9)); try done;
      destruct Hok as (? & ? & ? & _); try tauto; congruence.
  - intros [Hh Hlt]. destruct p as [|b p]; [done|]. injection Hh as ->. simpl length in Hs.
    rewrite decompress_uint64_last by lia. unfold _fast_memcpy, peek. simpl length.
    by case_bool; [zb|].
Qed.

Example decompress_safe_witness :
  (decompress_uint64 (xff :: replicate 8 x01) 9 None = None <->
     head (xff :: replicate 8 x01) = Some xff /\ 9 < 9) /\
  (~ (head (xff :: replicate 8 x01) = Some xff /\ 9 < 9) ->
   exists code y, decompress_uint64 (xff :: replicate 8 x01) 9 None = Some (code, y) /\
     0 <= code <= 9 /\ code <= 9 /\ (code = 0 -> y = None) /\
     (code <> 0 -> exists w, y = Some w /\ 0 <= w < code_bound code)).
Proof. by apply decompress_safe. Defined.

(** The signed decoder turns a refused input into a use of an uninitialised
    object. *)
Theorem decompress_int64_short p s v :
  decompress_uint64 p s None = Some (0, None) -> decompress_int64 p s v = None.
Proof. unfold decompress_int64. by intros ->. Qed.

Example decompress_int64_short_witness : decompress_int64 [] 0 (Some 3) = None.
Proof. by apply decompress_int64_short. Defined.

Module BytesProps.
Import Bytes.

(** What a byte array holds after a compressed write. *)
Lemma compress_spec enough fill w v :
  Writeable.wf w -> 0 <= v < 18446744073709551616 -> Writeable.cur_ w + 9 <= 2 ^ 63 ->
  (forall n, n <= 2 ^ 63 -> enough n = true) ->
  exists w', compress_uint64 enough fill w v = Some (true, w') /\ Writeable.wf w' /\
    Writeable.content w' = Writeable.content w ++ encode v /\
    Writeable.user_free_ w' = Writeable.user_free_ w.
Proof.
  intros Hw Hv Hc He. pose proof (compress_uint64_size_spec v Hv) as Hn; simpl in Hn.
  pose proof (length_encode v Hv) as Hlen.
  unfold compress_uint64. rewrite compress_uint64_spec by (done || (rewrite length_replicate; lia)).
  case_bool; [zb|]. cbn [mbind option_bind]. rewrite <- Hlen.
  rewrite Writeable.write_take, take_app_length by (rewrite length_app; lia).
  destruct (Writeable.write_spec enough fill w (encode v)) as (w' & H1 & H2 & H3 & H4 & _);
    try done; try lia; [|by exists w'].
  intros _ H0. rewrite H0 in Hlen. simpl in Hlen. lia.
Qed.

(** What reading a compressed integer does to the array. *)
Lemma decompress_spec b v r x :
  Readable.wf b -> 0 <= v < 18446744073709551616 -> Readable.rest b = encode v ++ r ->
  exists b', decompress_uint64 b x = Some (true, Some v, b') /\ Readable.wf b' /\
    Readable.rest b' = r.
Proof.
  intros Hw Hv Hr. pose proof (compress_uint64_size_spec v Hv) as Hn; simpl in Hn.
  pose proof (length_encode v Hv) as Hlen. pose proof (Readable.rest_length b Hw) as Hrl.
  pose proof (Readable.remain_size b Hw) as Hrem.
  exists (Readable.skip (compress_uint64_size v) b).
  split_and!; [|apply Readable.skip_wf; rewrite ?Hr, ?length_app; done || lia|].
  - unfold decompress_uint64. destruct (Readable.remain b) as [off size] eqn:Er.
    cbn [snd] in Hrem. unfold Readable.remain in Er. injection Er as <- _.
    rewrite Readable.peek_rest by done. cbn [mbind option_bind].
    rewrite Hr in *. rewrite decompress_encode by (rewrite ?length_app in *; lia).
    cbn [mbind option_bind]. zfalse (compress_uint64_size v =? 0).
    rewrite Readable.read_null by (done || (rewrite Hr, length_app; lia)). done.
  - rewrite Readable.rest_skip, Hr by (done || lia). rewrite <- Hlen, Nat2Z.id.
    apply drop_app_length.
Qed.

(** The 64-bit signed integer goes the same way through zigzag. *)
Lemma decompress_int64_spec b v r x :
  Readable.wf b -> -9223372036854775808 <= v < 9223372036854775808 ->
  Readable.rest b = encode (zigzag_encode v) ++ r ->
  exists b', decompress_int64 b x = Some (true, Some v, b') /\ Readable.wf b' /\
    Readable.rest b' = r.
Proof.
  intros Hw Hv Hr. destruct (zigzag_roundtrip v Hv) as [Hz Hz'].
  destruct (decompress_spec b (zigzag_encode v) r None Hw Hz' Hr) as (b' & Hb & ? & ?).
  exists b'. split; [|done]. unfold decompress_int64. rewrite Hb. cbn. by rewrite Hz.
Qed.

End BytesProps.
