(* ===== verification/Serializer.v ===== *)
(** * Serializer: the typed streams of common/serializer.h and the message
    format of common/proto_serializer.h

    The overloads of [serialize]/[deserialize] and the template [Stream<T>] are
    instances of the class [Stream]; what a type promises to code that streams
    it is the class [StreamLaws]. *)

From S2P Require Import Prelude Utils Memcpy ByteArray Compress.

(** The allocator behind the writeable arrays: the sizes it can serve and the
    contents of a fresh block. *)
Record allocator := mk_allocator { enough : Z -> bool; fill : byte }.

(** ** Streams *)

(** src/code/cc/common/serializer.h:25-34 [Stream]
    [out] is [serialize]; [in_] is [deserialize] into the object [x], [None]
    while it is uninitialised. *)
Class Stream (A : Type) := {
  out : allocator -> A -> Writeable.t -> option (bool * Writeable.t);
  in_ : option A -> Readable.t -> option (bool * option A * Readable.t);
}.

(** A streamed type writes [wire x] for [x] and reads it back. *)
Class StreamLaws (A : Type) `{Stream A} := {
  valid : A -> Prop;
  wire : A -> list byte;
  wire_nonempty x : valid x -> wire x <> [];
  out_wire a x w :
    Writeable.wf w -> valid x ->
    Writeable.cur_ w + Z.of_nat (length (wire x)) + 9 <= 2 ^ 63 ->
    (forall n, n <= 2 ^ 63 -> enough a n = true) ->
    exists w', out a x w = Some (true, w') /\ Writeable.wf w' /\
      Writeable.content w' = Writeable.content w ++ wire x;
  in_wire x y b r :
    Readable.wf b -> valid x -> Readable.rest b = wire x ++ r ->
    exists b', in_ y b = Some (true, Some x, b') /\ Readable.wf b' /\ Readable.rest b' = r;
}.

(** The integer types, so that the overloads resolve as in C++. *)
Inductive uint64 := U64 (z : Z).
Inductive int64 := I64 (z : Z).
Inductive uint32 := U32 (z : Z).
Inductive int32 := I32 (z : Z).

(** src/code/cc/common/serializer.h:50-52 [serialize(uint64_t)] *)
Definition serialize_uint64 (a : allocator) (u : uint64) (w : Writeable.t)
  : option (bool * Writeable.t) :=
  let 'U64 u := u in Bytes.compress_uint64 (enough a) (fill a) w u.

(** src/code/cc/common/serializer.h:53-56 [deserialize(uint64_t)] *)
Definition deserialize_uint64 (u : option uint64) (b : Readable.t)
  : option (bool * option uint64 * Readable.t) :=
  '(ok, x, b) ← Bytes.decompress_uint64 b (option_map (fun '(U64 u) => u) u);
  Some (ok, option_map U64 x, b).

#[export] Instance uint64_stream : Stream uint64 :=
  { out := serialize_uint64; in_ := deserialize_uint64 }.

(** src/code/cc/common/serializer.h:59-61 [serialize(int64_t)] *)
Definition serialize_int64 (a : allocator) (u : int64) (w : Writeable.t)
  : option (bool * Writeable.t) :=
  let 'I64 u := u in Bytes.compress_int64 (enough a) (fill a) w u.

(** src/code/cc/common/serializer.h:62-65 [deserialize(int64_t)] *)
Definition deserialize_int64 (u : option int64) (b : Readable.t)
  : option (bool * option int64 * Readable.t) :=
  '(ok, x, b) ← Bytes.decompress_int64 b (option_map (fun '(I64 u) => u) u);
  Some (ok, option_map I64 x, b).

#[export] Instance int64_stream : Stream int64 :=
  { out := serialize_int64; in_ := deserialize_int64 }.

(** src/code/cc/common/serializer.h:68-70 [serialize(uint32_t)] *)
Definition serialize_uint32 (a : allocator) (u : uint32) (w : Writeable.t)
  : option (bool * Writeable.t) :=
  let 'U32 u := u in Bytes.compress_uint64 (enough a) (fill a) w u.

(** src/code/cc/common/serializer.h:71-79 [deserialize(uint32_t)] *)
Definition deserialize_uint32 (u : option uint32) (b : Readable.t)
  : option (bool * option uint32 * Readable.t) :=
  '(ok, x, b) ← Bytes.decompress_uint64 b None;
  if (ok : bool) then x ← x; Some (ok, Some (U32 (u32 x)), b) else Some (ok, u, b).

#[export] Instance uint32_stream : Stream uint32 :=
  { out := serialize_uint32; in_ := deserialize_uint32 }.

(** src/code/cc/common/serializer.h:82-84 [serialize(int32_t)] *)
Definition serialize_int32 (a : allocator) (u : int32) (w : Writeable.t)
  : option (bool * Writeable.t) :=
  let 'I32 u := u in Bytes.compress_int64 (enough a) (fill a) w u.

(** src/code/cc/common/serializer.h:85-93 [deserialize(int32_t)] *)
Definition deserialize_int32 (u : option int32) (b : Readable.t)
  : option (bool * option int32 * Readable.t) :=
  '(ok, x, b) ← Bytes.decompress_int64 b None;
  if (ok : bool) then x ← x; Some (ok, Some (I32 (s32 x)), b) else Some (ok, u, b).

#[export] Instance int32_stream : Stream int32 :=
  { out := serialize_int32; in_ := deserialize_int32 }.

(** std::string::resize; a length above [max_size] throws ([None]). *)
Definition max_size : Z := 9223372036854775807.
Definition resize (s : list byte) (n : Z) : option (list byte) :=
  if n <=? max_size
  then Some (take (Z.to_nat n) s ++ replicate (Z.to_nat n - length s) x00) else None.

(** src/code/cc/common/serializer.h:96-101 [serialize(std::string)] *)
Definition serialize_string (a : allocator) (u : list byte) (w : Writeable.t)
  : option (bool * Writeable.t) :=
  '(ok, w) ← out a (U64 (Z.of_nat (length u))) w;
  if negb ok then Some (false, w)
  else Writeable.write (enough a) (fill a) w u (Z.of_nat (length u)).

(** src/code/cc/common/serializer.h:102-109 [deserialize(std::string)]
    [string_as_array] is NULL for the empty string. *)
Definition deserialize_string (u : list byte) (b : Readable.t)
  : option (bool * list byte * Readable.t) :=
  '(ok, size, b) ← in_ (A := uint64) None b;
  if negb ok then Some (false, u, b) else
  '(U64 size) ← size;
  u ← resize u size;
  '(ok, d, b) ← Readable.read b (_ ← string_as_array u; Some u) size;
  Some (ok, default u d, b).

#[export] Instance string_stream : Stream (list byte) := {
  out := serialize_string;
  in_ u b :=
    '(ok, u, b) ← deserialize_string (default [] u) b;
    Some (ok, Some u, b);
}.

(** ** Laws *)

Lemma encode_nonempty v : 0 <= v < 18446744073709551616 -> encode v <> [].
Proof. intros Hv. destruct (encode_head v Hv) as (b & p & -> & _). done. Qed.

#[export, refine] Instance uint64_laws : StreamLaws uint64 := {
  valid '(U64 u) := 0 <= u < 18446744073709551616;
  wire '(U64 u) := encode u;
}.
Proof.
  - intros [u]. apply encode_nonempty.
  - intros a [u] w Hw Hu Hc He. destruct (BytesProps.compress_spec (enough a) (fill a) w u)
      as (w' & ? & ? & ? & _); [done..|lia|done|]. by exists w'.
  - intros [u] y b r Hb Hu Hr. cbn [in_ uint64_stream]. unfold deserialize_uint64.
    edestruct (BytesProps.decompress_spec b u r) as (b' & -> & ? & ?); [done..|]. by exists b'.
Defined.

#[export, refine] Instance int64_laws : StreamLaws int64 := {
  valid '(I64 u) := -9223372036854775808 <= u < 9223372036854775808;
  wire '(I64 u) := encode (zigzag_encode u);
}.
Proof.
  - intros [u] Hu. by apply encode_nonempty, zigzag_roundtrip.
  - intros a [u] w Hw Hu Hc He.
    destruct (BytesProps.compress_spec (enough a) (fill a) w (zigzag_encode u))
      as (w' & ? & ? & ? & _); [done|by apply zigzag_roundtrip|lia|done|]. by exists w'.
  - intros [u] y b r Hb Hu Hr. cbn [in_ int64_stream]. unfold deserialize_int64.
    edestruct (BytesProps.decompress_int64_spec b u r) as (b' & -> & ? & ?); [done..|].
    by exists b'.
Defined.

#[export, refine] Instance uint32_laws : StreamLaws uint32 := {
  valid '(U32 u) := 0 <= u < 4294967296;
  wire '(U32 u) := encode u;
}.
Proof.
  - intros [u] Hu. apply encode_nonempty. lia.
  - intros a [u] w Hw Hu Hc He. destruct (BytesProps.compress_spec (enough a) (fill a) w u)
      as (w' & ? & ? & ? & _); [done|lia|lia|done|]. by exists w'.
  - intros [u] y b r Hb Hu Hr. cbn [in_ uint32_stream]. unfold deserialize_uint32.
    edestruct (BytesProps.decompress_spec b u r) as (b' & -> & ? & ?); [done|lia|done|].
    exists b'. cbn. rewrite u32_id by lia. done.
Defined.

#[export, refine] Instance int32_laws : StreamLaws int32 := {
  valid '(I32 u) := -2147483648 <= u < 2147483648;
  wire '(I32 u) := encode (zigzag_encode u);
}.
Proof.
  - intros [u] Hu. apply encode_nonempty, zigzag_roundtrip. lia.
  - intros a [u] w Hw Hu Hc He.
    destruct (BytesProps.compress_spec (enough a) (fill a) w (zigzag_encode u))
      as (w' & ? & ? & ? & _); [done|apply zigzag_roundtrip; lia|lia|done|]. by exists w'.
  - intros [u] y b r Hb Hu Hr. cbn [in_ int32_stream]. unfold deserialize_int32.
    edestruct (BytesProps.decompress_int64_spec b u r) as (b' & -> & ? & ?); [done|lia|done|].
    exists b'. cbn. rewrite s32_id by lia. done.
Defined.

Lemma resize_length s n s' :
  0 <= n -> resize s n = Some s' -> Z.of_nat (length s') = n.
Proof.
  unfold resize. case_bool; [|done]. intros ? [= <-].
  rewrite length_app, length_take, length_replicate. lia.
Qed.

Lemma resize_ok s n : 0 <= n <= max_size -> exists s', resize s n = Some s'.
Proof. intros. unfold resize. ztrue (n <=? max_size). eauto. Qed.

(** Reading [n] bytes into a string resized to [n]: also when [n] is 0 and the
    destination NULL. *)
Lemma read_into_string b u d r s :
  Readable.wf b -> Readable.rest b = u ++ r -> resize s (Z.of_nat (length u)) = Some d ->
  exists b' o, Readable.read b (_ ← string_as_array d; Some d) (Z.of_nat (length u)) = Some (true, o, b') /\
    default d o = u /\ Readable.wf b' /\ Readable.rest b' = r.
Proof.
  intros Hb Hr Hd. apply resize_length in Hd; [|lia].
  pose proof (Readable.rest_length b Hb) as Hl. rewrite Hr, length_app in Hl.
  exists (Readable.skip (Z.of_nat (length u)) b).
  assert (Readable.wf (Readable.skip (Z.of_nat (length u)) b) /\
    Readable.rest (Readable.skip (Z.of_nat (length u)) b) = r) as [Hw Hrest].
  { split; [apply Readable.skip_wf; [done|rewrite Hr, length_app; lia]|].
    rewrite Readable.rest_skip, Hr, Nat2Z.id by (done || lia). apply drop_app_length. }
  destruct d as [|c d].
  - exists None. destruct u; [|simpl in Hd; lia]. cbn [string_as_array mbind option_bind].
    rewrite Readable.read_null by (done || simpl; lia). done.
  - exists (Some u). pose proof Hb as (?&?&?).
    replace (_ ← string_as_array (c :: d); Some (c :: d)) with (Some (c :: d)) by done.
    rewrite Readable.read_spec by (done || lia).
    rewrite decide_True by (rewrite Hr, length_app; lia).
    rewrite Hr, Nat2Z.id, take_app_length. done.
Qed.

#[export, refine] Instance string_laws : StreamLaws (list byte) := {
  valid u := Z.of_nat (length u) <= max_size;
  wire u := encode (Z.of_nat (length u)) ++ u;
}.
Proof.
  - intros u Hu. unfold max_size in Hu.
    pose proof (encode_nonempty (Z.of_nat (length u)) ltac:(lia)). by destruct (encode _).
  - intros a u w Hw Hu Hc He. unfold max_size in Hu. rewrite length_app in Hc.
    destruct (out_wire a (U64 (Z.of_nat (length u))) w) as (w1 & H1 & Hw1 & Hc1);
      [done|cbn; lia|cbn [wire uint64_laws]; lia|done|].
    cbn [wire uint64_laws] in Hc1.
    pose proof (Writeable.content_length w Hw) as Hl0.
    pose proof (Writeable.content_length w1 Hw1) as Hl. rewrite Hc1, length_app in Hl.
    pose proof (encode_nonempty (Z.of_nat (length u)) ltac:(lia)) as Hne.
    destruct (Writeable.write_spec (enough a) (fill a) w1 u) as (w2 & H2 & Hw2 & Hc2 & _);
      [done| |lia|done|].
    { intros H0. destruct Hw1 as (? & ? & _). destruct (encode _); [done|simpl in Hl; lia]. }
    exists w2. cbn [out string_stream]. unfold serialize_string. rewrite H1.
    cbn [mbind option_bind negb]. rewrite H2, Hc2, Hc1, (assoc_L (++)). done.
  - intros u y b r Hb Hu Hr. pose proof Hu as Hu'. unfold max_size in Hu'.
    rewrite <- (assoc_L (++)) in Hr.
    destruct (in_wire (U64 (Z.of_nat (length u))) None b (u ++ r)) as (b1 & H1 & Hw1 & Hr1);
      [done|cbn; lia|done|].
    destruct (resize_ok (default [] y) (Z.of_nat (length u))) as (d & Hd); [lia|].
    destruct (read_into_string b1 u d r (default [] y)) as (b2 & o & H2 & Ho & Hw2 & Hr2); [done..|].
    exists b2. cbn [in_ string_stream]. unfold deserialize_string. rewrite H1.
    cbn [mbind option_bind negb]. rewrite Hd. cbn [mbind option_bind]. rewrite H2.
    cbn [mbind option_bind]. rewrite Ho. done.
Defined.

(** ** Sequences of values

    A program that streams values of several types writes them one after the
    other and reads them back at the same types. *)
Inductive value :=
| VU64 (u : uint64) | VI64 (u : int64) | VU32 (u : uint32) | VI32 (u : int32)
| VString (u : list byte).

Definition value_valid (v : value) : Prop :=
  match v with
  | VU64 u => valid u | VI64 u => valid u | VU32 u => valid u | VI32 u => valid u
  | VString u => valid u
  end.

Definition value_wire (v : value) : list byte :=
  match v with
  | VU64 u => wire u | VI64 u => wire u | VU32 u => wire u | VI32 u => wire u
  | VString u => wire u
  end.

(** The overload the C++ compiler picks for the value's type. *)
Definition value_out (a : allocator) (v : value) (w : Writeable.t) : option (bool * Writeable.t) :=
  match v with
  | VU64 u => out a u w | VI64 u => out a u w | VU32 u => out a u w | VI32 u => out a u w
  | VString u => out a u w
  end.

(** Read a value of the type of [v] into an uninitialised object. *)
Definition value_in (v : value) (b : Readable.t) : option (bool * option value * Readable.t) :=
  match v with
  | VU64 _ => '(ok, x, b) ← in_ None b; Some (ok, option_map VU64 x, b)
  | VI64 _ => '(ok, x, b) ← in_ None b; Some (ok, option_map VI64 x, b)
  | VU32 _ => '(ok, x, b) ← in_ None b; Some (ok, option_map VU32 x, b)
  | VI32 _ => '(ok, x, b) ← in_ None b; Some (ok, option_map VI32 x, b)
  | VString _ => '(ok, x, b) ← in_ None b; Some (ok, option_map VString x, b)
  end.

Fixpoint out_all (a : allocator) (vs : list value) (w : Writeable.t) : option (bool * Writeable.t) :=
  match vs with
  | [] => Some (true, w)
  | v :: vs =>
      '(ok, w) ← value_out a v w;
      if (ok : bool) then out_all a vs w else Some (false, w)
  end.

(** The values read, for the types of [vs]. *)
Fixpoint in_all (vs : list value) (b : Readable.t) : option (bool * list value * Readable.t) :=
  match vs with
  | [] => Some (true, [], b)
  | v :: vs =>
      '(ok, x, b) ← value_in v b;
      if negb ok then Some (false, [], b) else
      x ← x; '(ok, xs, b) ← in_all vs b; Some (ok, x :: xs, b)
  end.

Lemma value_out_wire a v w :
  Writeable.wf w -> value_valid v ->
  Writeable.cur_ w + Z.of_nat (length (value_wire v)) + 9 <= 2 ^ 63 ->
  (forall n, n <= 2 ^ 63 -> enough a n = true) ->
  exists w', value_out a v w = Some (true, w') /\ Writeable.wf w' /\
    Writeable.content w' = Writeable.content w ++ value_wire v.
Proof. destruct v; apply out_wire. Qed.

Lemma value_in_wire v b r :
  Readable.wf b -> value_valid v -> Readable.rest b = value_wire v ++ r ->
  exists b', value_in v b = Some (true, Some v, b') /\ Readable.wf b' /\ Readable.rest b' = r.
Proof.
  intros Hb Hv Hr. destruct v; cbn [value_wire value_valid value_in] in *;
    destruct (in_wire u None b r Hb Hv Hr) as (b' & Heq & ? & ?);
    exists b'; rewrite Heq; done.
Qed.

Lemma out_all_wire a vs w :
  Writeable.wf w -> Forall value_valid vs ->
  Writeable.cur_ w + Z.of_nat (length (concat (map value_wire vs))) + 9 <= 2 ^ 63 ->
  (forall n, n <= 2 ^ 63 -> enough a n = true) ->
  exists w', out_all a vs w = Some (true, w') /\ Writeable.wf w' /\
    Writeable.content w' = Writeable.content w ++ concat (map value_wire vs).
Proof.
  intros Hw Hvs. revert w Hw. induction Hvs as [|v vs Hv _ IH]; intros w Hw Hc He.
  { exists w. by rewrite app_nil_r. }
  cbn [map concat out_all] in *. rewrite length_app in Hc.
  destruct (value_out_wire a v w) as (w1 & -> & Hw1 & Hc1); [done..|lia|done|].
  pose proof (Writeable.content_length w Hw). pose proof (Writeable.content_length w1 Hw1) as Hl1.
  rewrite Hc1, length_app in Hl1. cbn [mbind option_bind].
  destruct (IH w1) as (w2 & -> & Hw2 & Hc2); [done|lia|done|].
  exists w2. by rewrite Hc2, Hc1, (assoc_L (++)).
Qed.

Lemma in_all_wire vs b r :
  Readable.wf b -> Forall value_valid vs ->
  Readable.rest b = concat (map value_wire vs) ++ r ->
  exists b', in_all vs b = Some (true, vs, b') /\ Readable.wf b' /\ Readable.rest b' = r.
Proof.
  intros Hb Hvs. revert b Hb. induction Hvs as [|v vs Hv _ IH]; intros b Hb Hr.
  { by exists b. }
  cbn [map concat in_all] in *. rewrite <- (assoc_L (++)) in Hr.
  destruct (value_in_wire v b _ Hb Hv Hr) as (b1 & -> & Hw1 & Hr1).
  destruct (IH b1 Hw1 Hr1) as (b2 & H2 & Hw2 & Hr2). exists b2.
  cbn [mbind option_bind negb]. by rewrite H2.
Qed.

(** C9: Any sequence of integers of the four types and strings, each in the range
    of its type, is streamed to a fresh array - when no allocation of up to
    2^63 bytes fails and the encodings with nine bytes to spare fit into 2^63 -
    and read back, value by value, from the bytes the array hands out, whatever
    bytes follow them; the reader is left at the first of those. *)
Theorem stream_roundtrip a uf vs r :
  Forall value_valid vs -> Z.of_nat (length (concat (map value_wire vs))) + 9 <= 2 ^ 63 ->
  (forall n, n <= 2 ^ 63 -> enough a n = true) -> Z.of_nat (length r) <= 2 ^ 63 ->
  exists w bs n b, out_all a vs (Writeable.make (fill a) uf) = Some (true, w) /\
    Writeable.data w = Some (bs, n) /\ n = Z.of_nat (length bs) /\
    in_all vs (Readable.make (bs ++ r) (n + Z.of_nat (length r))) = Some (true, vs, b) /\
    Readable.rest b = r.
Proof.
  intros Hvs Hlen He Hr0.
  destruct (out_all_wire a vs (Writeable.make (fill a) uf)) as (w & Hw1 & Hw & Hc);
    [apply Writeable.make_wf|done| |done|].
  { by replace (Writeable.cur_ _) with 0 by (by destruct uf). }
  rewrite Writeable.content_make in Hc. cbn [app] in Hc.
  pose proof (Writeable.content_length w Hw) as Hl.
  destruct (in_all_wire vs (Readable.make (Writeable.content w ++ r)
    (Z.of_nat (length (Writeable.content w ++ r)))) r) as (b & Hb & _ & Hr).
  - apply Readable.readable_make_wf. rewrite Hc, length_app. lia.
  - done.
  - by rewrite Readable.rest_make, Hc.
  - exists w, (Writeable.content w), (Writeable.cur_ w), b.
    rewrite Writeable.data_content by done. rewrite length_app, Nat2Z.inj_add, Hl in Hb. done.
Qed.

Example stream_roundtrip_witness :
  let vs := [VU64 (U64 18446744073709551615); VI32 (I32 (-5)); VString [x61; x62]; VString []] in
  exists w bs n b, out_all (mk_allocator (fun _ => true) x00) vs (Writeable.make x00 true) = Some (true, w) /\
    Writeable.data w = Some (bs, n) /\ n = Z.of_nat (length bs) /\
    in_all vs (Readable.make (bs ++ [x07; xff]) (n + 2)) = Some (true, vs, b) /\
    Readable.rest b = [x07; xff].
Proof.
  apply (stream_roundtrip (mk_allocator (fun _ => true) x00) true); [|vm_compute; done|done|done].
  repeat constructor; done.
Defined.

(** The 32-bit overloads accept any code and keep its low 32 bits without
    reporting the loss. *)
Lemma deserialize_uint32_truncates b v r y :
  Readable.wf b -> 0 <= v < 18446744073709551616 -> Readable.rest b = encode v ++ r ->
  exists b', in_ y b = Some (true, Some (U32 (u32 v)), b').
Proof.
  intros Hb Hv Hr. cbn [in_ uint32_stream]. unfold deserialize_uint32.
  destruct (BytesProps.decompress_spec b v r None Hb Hv Hr) as (b' & -> & _). by exists b'.
Qed.

(** ** Messages of common/proto_serializer.h: | uint64 size | message |

    The generated message class is a parameter: its [ByteSize], its
    [SerializeToArray] and its parser. *)
Module Proto.
Section proto.
Context {T : Type} (ByteSize : T -> Z).
(** The bytes [SerializeToArray] stores in a buffer of the given size. *)
Context (SerializeToArray : T -> Z -> option (list byte)).
(** The message the parser fills from the bytes it is given. *)
Context (Parse : list byte -> option T).

(** src/code/cc/common/proto_serializer.h:19-40 [SerializeToByteArray]
    [None] for the array is the null pointer. *)
Definition SerializeToByteArray (a : allocator) (obj : T) (bytes : option Writeable.t)
  : option (bool * option Writeable.t) :=
  match bytes with
  | None => Some (false, None)
  | Some w =>
      let size := ByteSize obj in
      '(ok, w) ← out a (U64 (u64 size)) w;
      if negb ok then Some (false, Some w) else
      '(buf, w) ← Writeable.allocate (enough a) (fill a) w size;
      match buf with
      | None => Some (false, Some w)
      | Some off =>
          match SerializeToArray obj size with
          | None => Some (false, Some w)
          | Some bs => w ← Writeable.store w off bs; Some (true, Some w)
          end
      end
  end.

(** src/code/cc/common/proto_serializer.h:42-62 [DeserizlizeFromByteArray]
    The size comes from the data and is not compared with what remains: the
    parser is given [size] bytes from the cursor. The final [read] does not
    test its answer. *)
Definition DeserizlizeFromByteArray (obj : T) (bytes : option Readable.t)
  : option (bool * T * option Readable.t) :=
  match bytes with
  | None => Some (false, obj, None)
  | Some b =>
      '(ok, size, b) ← in_ (Some (U64 0)) b;
      if negb ok then Some (false, obj, Some b) else
      '(U64 size) ← size;
      input ← peek (Readable.bytes_ b) (Readable.remain b).1 size;
      match Parse input with
      | None => Some (false, obj, Some b)
      | Some obj =>
          '(_, _, b) ← Readable.read b None size;
          Some (true, obj, Some b)
      end
  end.

(** What the generated code documents: a message occupies [ByteSize] bytes,
    and parsing what was serialized gives the message. *)
Definition message_ok (obj : T) : Prop :=
  0 <= ByteSize obj < 2147483648 /\
  exists bs, SerializeToArray obj (ByteSize obj) = Some bs /\
    Z.of_nat (length bs) = ByteSize obj /\ Parse bs = Some obj.

Lemma serialize_spec a obj w :
  Writeable.wf w -> message_ok obj ->
  Writeable.cur_ w + Z.of_nat (length (encode (ByteSize obj))) + ByteSize obj + 9 <= 2 ^ 63 ->
  (forall n, n <= 2 ^ 63 -> enough a n = true) ->
  exists w' bs, SerializeToByteArray a obj (Some w) = Some (true, Some w') /\ Writeable.wf w' /\
    SerializeToArray obj (ByteSize obj) = Some bs /\
    Writeable.content w' = Writeable.content w ++ encode (ByteSize obj) ++ bs.
Proof.
  intros Hw (Hs & bs & Hbs & Hl & _) Hc He. unfold SerializeToByteArray.
  pose proof (length_encode (ByteSize obj) ltac:(lia)) as Hle.
  pose proof (compress_uint64_size_spec (ByteSize obj) ltac:(lia)) as Hsz. simpl in Hsz.
  rewrite u64_id by lia.
  destruct (out_wire a (U64 (ByteSize obj)) w) as (w1 & H1 & Hw1 & Hc1);
    [done|cbn; lia|cbn [wire uint64_laws]; lia|done|].
  cbn [wire uint64_laws] in Hc1. rewrite H1. cbn [mbind option_bind negb].
  pose proof (Writeable.content_length w Hw). pose proof (Writeable.content_length w1 Hw1) as Hl1.
  rewrite Hc1, length_app in Hl1.
  destruct (Writeable.allocate_grown (enough a) (fill a) w1 (ByteSize obj)) as (w2 & H2 & Hg & _);
    [done|lia|lia| |done|].
  { destruct Hw1 as (_ & ? & _). lia. }
  rewrite H2. cbn [mbind option_bind]. rewrite Hbs. rewrite <- Hl in Hg.
  destruct (Writeable.store_grown w1 w2 bs Hw1 Hg) as (w3 & H3 & Hw3 & Hc3 & _).
  rewrite H3. exists w3, bs. cbn [mbind option_bind].
  by rewrite Hc3, Hc1, (assoc_L (++)).
Qed.

(** The bytes of a message on the wire. *)
Definition message_wire (obj : T) : list byte :=
  encode (ByteSize obj) ++ default [] (SerializeToArray obj (ByteSize obj)).

Lemma deserialize_spec obj old b r :
  message_ok obj -> Readable.wf b -> Readable.rest b = message_wire obj ++ r ->
  exists b', DeserizlizeFromByteArray old (Some b) = Some (true, obj, Some b') /\
    Readable.wf b' /\ Readable.rest b' = r.
Proof.
  intros (Hs & bs & Hbs & Hl & Hp) Hb Hr. unfold message_wire in Hr. rewrite Hbs in Hr. cbn [default] in Hr.
  rewrite <- (assoc_L (++)) in Hr.
  destruct (in_wire (U64 (ByteSize obj)) (Some (U64 0)) b (bs ++ r)) as (b1 & Hin & Hw1 & Hr1);
    [done|cbn; lia|done|].
  unfold DeserizlizeFromByteArray. rewrite Hin. cbn [mbind option_bind negb].
  pose proof (Readable.rest_length b1 Hw1) as Hrl. rewrite Hr1, length_app in Hrl.
  assert (peek (Readable.bytes_ b1) (Readable.remain b1).1 (ByteSize obj) = Some bs) as ->.
  { cbn [Readable.remain fst]. pose proof Hw1 as (?&?&?). unfold peek. case_bool; [|zb].
    fold (Readable.rest b1). rewrite Hr1, <- Hl, Nat2Z.id, take_app_length. done. }
  cbn [mbind option_bind]. rewrite Hp, Readable.read_null by (done || (rewrite Hr1, length_app; lia)).
  cbn [mbind option_bind]. eexists. split; [done|].
  split; [apply Readable.skip_wf; [done|rewrite Hr1, length_app; lia]|].
  rewrite Readable.rest_skip, Hr1, <- Hl, Nat2Z.id by (done || lia). apply drop_app_length.
Qed.

(** A message written after anything else in an array is read back from the
    place where it starts, whatever the object held before; what follows it
    stays unread. *)
Theorem message_roundtrip a obj old w b r :
  Writeable.wf w -> message_ok obj -> Writeable.cur_ w <= 2 ^ 62 ->
  (forall n, n <= 2 ^ 63 -> enough a n = true) -> Readable.wf b ->
  exists w' m, SerializeToByteArray a obj (Some w) = Some (true, Some w') /\
    Writeable.content w' = Writeable.content w ++ m /\
    (Readable.rest b = m ++ r ->
     exists b', DeserizlizeFromByteArray old (Some b) = Some (true, obj, Some b') /\
       Readable.rest b' = r).
Proof.
  intros Hw Hm Hc He Hb.
  destruct (serialize_spec a obj w Hw Hm) as (w' & bs & H1 & _ & Hbs & Hcont); [|done|].
  { destruct Hm as (Hs & _). pose proof (length_encode (ByteSize obj) ltac:(lia)).
    pose proof (compress_uint64_size_spec (ByteSize obj) ltac:(lia)) as Hsz. simpl in Hsz. lia. }
  exists w', (encode (ByteSize obj) ++ bs). split_and!; [done..|]. intros Hr.
  destruct (deserialize_spec obj old b r Hm Hb) as (b' & ? & _ & ?); [|by exists b'].
  unfold message_wire. by rewrite Hbs.
Qed.

(** A size prefix larger than what remains makes the parser run past the end
    of the buffer. *)
Lemma message_size_unchecked old b v r :
  Readable.wf b -> 0 <= v < 18446744073709551616 -> Readable.rest b = encode v ++ r ->
  Z.of_nat (length r) < v -> DeserizlizeFromByteArray old (Some b) = None.
Proof.
  intros Hb Hv Hr Hlt.
  destruct (in_wire (U64 v) (Some (U64 0)) b r) as (b1 & Hin & Hw1 & Hr1); [done|done|done|].
  unfold DeserizlizeFromByteArray. rewrite Hin. cbn [mbind option_bind negb].
  pose proof (Readable.rest_length b1 Hw1) as Hrl. rewrite Hr1 in Hrl.
  cbn [Readable.remain fst]. pose proof Hw1 as (?&?&?). unfold peek. by case_bool; [zb|].
Qed.
End proto.

(** A concrete message class: a single byte. *)
Example message_roundtrip_witness :
  let ser := fun (b : byte) (n : Z) => if n =? 1 then Some [b] else None in
  let par := fun bs : list byte => match bs with [b] => Some b | _ => None end in
  exists w' m,
    SerializeToByteArray (fun _ => 1) ser (mk_allocator (fun _ => true) x00) x41
      (Some (Writeable.make x00 false)) = Some (true, Some w') /\
    Writeable.content w' = Writeable.content (Writeable.make x00 false) ++ m /\
    (Readable.rest (Readable.make [x02; x41; x09] 3) = m ++ [x09] ->
     exists b', DeserizlizeFromByteArray par x00 (Some (Readable.make [x02; x41; x09] 3)) =
       Some (true, x41, Some b') /\ Readable.rest b' = [x09]).
Proof.
  intros ser par.
  apply (message_roundtrip (fun _ => 1) ser par (mk_allocator (fun _ => true) x00) x41 x00).
  - apply Writeable.make_wf.
  - split; [lia|]. by exists [x41].
  - vm_compute. done.
  - done.
  - vm_compute. done.
Defined.

Example message_size_unchecked_witness :
  DeserizlizeFromByteArray (fun _ => Some tt) tt (Some (Readable.make [x0a; x00] 2)) = None.
Proof. apply (message_size_unchecked _ _ _ 5 [x00]); vm_compute; done. Defined.

End Proto.
