(* ===== verification/Atomic.v ===== *)
(** * Atomic: the width-dispatching primitives of common/atomic_x86_64.h, the
    templates of common/atomic.h and the reference counter

    A primitive is one indivisible step on its cell: a function from the old
    value to the returned and the new value. *)

From S2P Require Import Prelude.

(** An integer type: its signedness and its size in bytes. *)
Record ity := mk_ity { is_signed : bool; sizeof : Z }.

(** The value of the low bits of [z] at the type. *)
Definition to_ty (T : ity) (z : Z) : Z :=
  if is_signed T then wrapS (8 * sizeof T) z else wrapU (8 * sizeof T) z.

Definition in_ty (T : ity) (z : Z) : Prop :=
  if is_signed T then isS (8 * sizeof T) z else isU (8 * sizeof T) z.

Definition int32_t : ity := mk_ity true 4.
Definition uint64_t : ity := mk_ity false 8.

(** The instructions on the low [n] bytes of their operands; registers and the
    cell hold values of the type, so both comparisons are of [n] bytes. *)
Section instructions.
Context (T : ity).

(** cmpxchg: the old value, and the new contents when it was expected. *)
Definition cmpxchg (n mem newval oldval : Z) : Z * Z :=
  if wrapU (8 * n) mem =? wrapU (8 * n) oldval then (mem, to_ty T newval) else (mem, mem).
Definition xchg (n mem newvalue : Z) : Z * Z := (mem, to_ty T newvalue).
Definition xadd (n mem value : Z) : Z * Z := (mem, to_ty T (mem + value)).

(** src/code/cc/common/atomic_x86_64.h:58-63 [__arch_compare_and_exchange_val_8_acq] *)
Definition __arch_compare_and_exchange_val_8_acq := cmpxchg 1.
(** src/code/cc/common/atomic_x86_64.h:65-70 [__arch_compare_and_exchange_val_16_acq] *)
Definition __arch_compare_and_exchange_val_16_acq := cmpxchg 2.
(** src/code/cc/common/atomic_x86_64.h:72-77 [__arch_compare_and_exchange_val_32_acq] *)
Definition __arch_compare_and_exchange_val_32_acq := cmpxchg 4.
(** src/code/cc/common/atomic_x86_64.h:79-85 [__arch_compare_and_exchange_val_64_acq] *)
Definition __arch_compare_and_exchange_val_64_acq := cmpxchg 8.

(** src/code/cc/common/atomic_x86_64.h:89-107 [atomic_exchange_acq] *)
Definition atomic_exchange_acq (mem newvalue : Z) : Z * Z :=
  if sizeof T =? 1 then xchg 1 mem newvalue
  else if sizeof T =? 2 then xchg 2 mem newvalue
  else if sizeof T =? 4 then xchg 4 mem newvalue
  else xchg 8 mem newvalue.

(** src/code/cc/common/atomic_x86_64.h:110-128 [atomic_exchange_and_add] *)
Definition atomic_exchange_and_add (mem value : Z) : Z * Z :=
  if sizeof T =? 1 then xadd 1 mem value
  else if sizeof T =? 2 then xadd 2 mem value
  else if sizeof T =? 4 then xadd 4 mem value
  else xadd 8 mem value.

(** src/code/cc/common/atomic.h:17-30 [CompareAndSwap]
    [None] is SPERM_FATAL. *)
Definition CompareAndSwap (x n o : Z) : option (Z * Z) :=
  if sizeof T =? 1 then Some (__arch_compare_and_exchange_val_8_acq x n o)
  else if sizeof T =? 2 then Some (__arch_compare_and_exchange_val_16_acq x n o)
  else if sizeof T =? 4 then Some (__arch_compare_and_exchange_val_32_acq x n o)
  else if sizeof T =? 8 then Some (__arch_compare_and_exchange_val_64_acq x n o)
  else None.

(** src/code/cc/common/atomic.h:38-41 [AtomicGetValue] *)
Definition AtomicGetValue (x : Z) : option (Z * Z) := CompareAndSwap x 0 0.

(** src/code/cc/common/atomic.h:42-42 [AtomicSetValue] *)
Definition AtomicSetValue (x v : Z) : Z * Z := atomic_exchange_acq x v.
End instructions.

(** ** RefCount *)
Module RefCount.

(** src/code/cc/common/atomic.h:61-63 [RefCount::ref_count_] *)
Record t := mk { ref_count_ : Z }.

(** src/code/cc/common/atomic.h:50-50 [RefCount::RefCount] *)
Definition make : t := mk 1.

(** src/code/cc/common/atomic.h:43-54 [RefCount::acquire]
    The addition to the returned value is [int] arithmetic. *)
Definition acquire (c : t) : option (Z * t) :=
  let '(old, new) := atomic_exchange_and_add int32_t (ref_count_ c) 1 in
  r ← chk32 (old + 1); Some (r, mk new).

(** src/code/cc/common/atomic.h:44-57 [RefCount::release] *)
Definition release (c : t) : option (Z * t) :=
  let '(old, new) := atomic_exchange_and_add int32_t (ref_count_ c) (-1) in
  r ← chk32 (old - 1); Some (r, mk new).

(** src/code/cc/common/atomic.h:58-60 [RefCount::getRefCount] *)
Definition getRefCount (c : t) : option (Z * t) :=
  '(r, new) ← AtomicGetValue int32_t (ref_count_ c); Some (r, mk new).

End RefCount.

(** ** The primitives *)

Definition known_size (T : ity) : Prop :=
  sizeof T = 1 \/ sizeof T = 2 \/ sizeof T = 4 \/ sizeof T = 8.

Lemma to_ty_id T z : known_size T -> in_ty T z -> to_ty T z = z.
Proof.
  unfold in_ty, to_ty. intros Hs Hz. destruct (is_signed T).
  - apply wrapS_id; [|done]. destruct Hs as [->|[->|[->| ->]]]; lia.
  - by apply wrapU_id.
Qed.

Lemma to_ty_range T z : known_size T -> in_ty T (to_ty T z).
Proof.
  unfold in_ty, to_ty. intros Hs. destruct (is_signed T);
    [apply wrapS_range|apply wrapU_range]; destruct Hs as [->|[->|[->| ->]]]; lia.
Qed.

(** Two values of the type with the same low bytes are the same. *)
Lemma wrapU_inj T a b :
  known_size T -> in_ty T a -> in_ty T b ->
  wrapU (8 * sizeof T) a = wrapU (8 * sizeof T) b -> a = b.
Proof.
  intros Hs Ha Hb Heq. rewrite <- (to_ty_id T a), <- (to_ty_id T b) by done.
  unfold to_ty. destruct (is_signed T); [|done].
  rewrite <- (wrapS_wrapU _ a), <- (wrapS_wrapU _ b), Heq; [done|..];
    destruct Hs as [->|[->|[->| ->]]]; lia.
Qed.

(** At every width the dispatch supports, [CompareAndSwap] is compare-and-swap
    on values of the type: it returns the old value and stores the new one
    exactly when the old one was the expected one. *)
Theorem CompareAndSwap_spec T x n o :
  known_size T -> in_ty T x -> in_ty T n -> in_ty T o ->
  CompareAndSwap T x n o = Some (x, if decide (x = o) then n else x).
Proof.
  intros Hs Hx Hn Ho. pose proof (wrapU_inj T x o Hs Hx Ho) as Hinj.
  assert (cmpxchg T (sizeof T) x n o = (x, if decide (x = o) then n else x)) as Hc.
  { unfold cmpxchg. rewrite (to_ty_id T n) by done. case_decide as Hd.
    - subst. by rewrite Z.eqb_refl.
    - destruct (Z.eqb_spec (wrapU (8 * sizeof T) x) (wrapU (8 * sizeof T) o)); [|done].
      by destruct Hd; apply Hinj. }
  unfold CompareAndSwap. destruct Hs as [H|[H|[H|H]]]; rewrite H in *; cbn; by rewrite <- Hc.
Qed.

Example CompareAndSwap_spec_witness :
  CompareAndSwap int32_t (-1) 7 (-1) = Some (-1, 7).
Proof.
  refine (eq_trans (CompareAndSwap_spec int32_t (-1) 7 (-1) _ _ _ _) _);
    [right; right; left; done|vm_compute; done..].
Defined.

(** Reading through a compare-and-swap of 0 with 0 never changes the cell. *)
Lemma AtomicGetValue_spec T x :
  known_size T -> in_ty T x -> AtomicGetValue T x = Some (x, x).
Proof.
  intros Hs Hx. unfold AtomicGetValue.
  assert (in_ty T 0).
  { rewrite <- (to_ty_id T 0) at 1; [by apply to_ty_range|done|].
    unfold in_ty, isS, isU. destruct (is_signed T), Hs as [->|[->|[->| ->]]]; lia. }
  unfold CompareAndSwap, __arch_compare_and_exchange_val_8_acq,
    __arch_compare_and_exchange_val_16_acq, __arch_compare_and_exchange_val_32_acq,
    __arch_compare_and_exchange_val_64_acq.
  assert (cmpxchg T (sizeof T) x 0 0 = (x, x)) as Hc.
  { unfold cmpxchg. rewrite (to_ty_id T 0) by done.
    destruct (Z.eqb_spec (wrapU (8 * sizeof T) x) (wrapU (8 * sizeof T) 0)) as [E|]; [|done].
    by rewrite (wrapU_inj T x 0) by done. }
  destruct Hs as [H0|[H0|[H0|H0]]]; rewrite H0 in *; cbn; by rewrite Hc.
Qed.

Lemma int32_add c d :
  -2147483648 <= c + d <= 2147483647 -> atomic_exchange_and_add int32_t c d = (c, c + d).
Proof.
  intros H. unfold atomic_exchange_and_add. cbn. unfold xadd. f_equal.
  apply (s32_id (c + d)). lia.
Qed.

(** ** RefCount: sequences of atomic steps

    The operations of all threads interleave; each is one step. *)
Module RefCountProps.
Import RefCount.

Inductive op := Acquire | Release.

Definition run_op (o : op) (c : t) : option (Z * t) :=
  match o with Acquire => acquire c | Release => release c end.
Definition delta (o : op) : Z := match o with Acquire => 1 | Release => -1 end.

Fixpoint run (os : list op) (c : t) : option (list Z * t) :=
  match os with
  | [] => Some ([], c)
  | o :: os => '(r, c) ← run_op o c; '(rs, c) ← run os c; Some (r :: rs, c)
  end.

Fixpoint total (os : list op) : Z :=
  match os with [] => 0 | o :: os => delta o + total os end.

Lemma run_op_spec o c :
  -2147483648 <= ref_count_ c + delta o < 2147483647 ->
  run_op o c = Some (ref_count_ c + delta o, mk (ref_count_ c + delta o)).
Proof.
  destruct o; cbn [run_op delta]; unfold acquire, release; intros H;
    rewrite int32_add by lia; rewrite chk32_ok by lia; done.
Qed.

Lemma getRefCount_spec c :
  -2147483648 <= ref_count_ c < 2147483648 -> getRefCount c = Some (ref_count_ c, c).
Proof.
  intros H. unfold getRefCount. rewrite AtomicGetValue_spec; [by destruct c| |done].
  right. right. by left.
Qed.

Definition is_acquire (o : op) : Z := match o with Acquire => 1 | Release => 0 end.
Definition is_release (o : op) : Z := match o with Acquire => 0 | Release => 1 end.

(** The programs of the threads over one count, and the order in which their
    operations take place: any thread may be next. *)
Inductive interleaving : list (list op) -> list op -> Prop :=
| il_done ps : Forall (fun p => p = []) ps -> interleaving ps []
| il_step ps t o p os :
    ps !! t = Some (o :: p) -> interleaving (<[t := p]> ps) os -> interleaving ps (o :: os).

Lemma cnt_nils {A} (f : A -> Z) ps : Forall (fun p => p = []) ps -> cnt (cnt f) ps = 0.
Proof. induction 1 as [|p ps -> _ IH]; [done|]. cbn [cnt]. lia. Qed.

(** What the threads do in all is what is done in any order of it. *)
Lemma interleaving_cnt f ps os : interleaving ps os -> cnt f os = cnt (cnt f) ps.
Proof.
  induction 1 as [ps Hp|ps t o p os Ht _ IH]; [by rewrite cnt_nils|].
  cbn [cnt]. rewrite IH, (cnt_insert _ _ _ _ _ Ht). cbn [cnt]. lia.
Qed.

Lemma total_cnt os : total os = cnt is_acquire os - cnt is_release os.
Proof. induction os as [|o os IH]; [done|]. cbn [total cnt]. rewrite IH. destruct o; simpl; lia. Qed.

Lemma cnt_take_le f (os : list op) k : (forall o, 0 <= f o) -> cnt f (take k os) <= cnt f os.
Proof.
  intros Hf. rewrite <- (take_drop k os) at 2. rewrite cnt_app.
  pose proof (cnt_nonneg f (drop k os) Hf). lia.
Qed.

(** The results of operations in an order in which the count stays an int. *)
Lemma run_spec os c :
  (forall k, -2147483648 <= ref_count_ c + total (take k os) < 2147483647) ->
  exists rs, run os c = Some (rs, mk (ref_count_ c + total os)) /\ length rs = length os /\
    forall k r, rs !! k = Some r -> r = ref_count_ c + total (take (S k) os).
Proof.
  revert c. induction os as [|o os IH]; intros c Hb.
  - exists []. destruct c. cbn. by rewrite Z.add_0_r.
  - pose proof (Hb 1%nat) as H1. cbn in H1. rewrite take_0 in H1. cbn in H1.
    cbn [run]. rewrite run_op_spec by lia.
    cbn [mbind option_bind]. destruct (IH (mk (ref_count_ c + delta o))) as (rs & -> & Hl & Hr).
    { intros k. specialize (Hb (S k)). cbn in *. lia. }
    exists ((ref_count_ c + delta o) :: rs). cbn [mbind option_bind ref_count_ total].
    split; [by rewrite Z.add_assoc|]. split; [by cbn; rewrite Hl|].
    intros [|k] r; cbn; [intros [= <-]; rewrite take_0; cbn; lia|].
    intros Hk. rewrite (Hr k r Hk). cbn. lia.
Qed.

(** C21: Any interleaving of any threads' acquires and releases, so many that the
    count stays an int: each operation returns the count right after it, and
    the count ends at what they add up to. If each operation is made by
    somebody who holds a reference, so that the count before it is positive,
    then nobody but the release that comes last of all can get 0, and it does
    exactly when the count ends at 0. *)
Theorem refcount_interleaving ps os c :
  interleaving ps os ->
  ref_count_ c + cnt (cnt is_acquire) ps < 2147483647 ->
  -2147483648 <= ref_count_ c - cnt (cnt is_release) ps ->
  exists rs, run os c = Some (rs, mk (ref_count_ c + cnt total ps)) /\ length rs = length os /\
    (forall k r, rs !! k = Some r -> r = ref_count_ c + total (take (S k) os)) /\
    ((forall k, (k < length os)%nat -> 0 < ref_count_ c + total (take k os)) ->
     forall k, rs !! k = Some 0 <->
       S k = length os /\ os !! k = Some Release /\ ref_count_ c + cnt total ps = 0).
Proof.
  intros Hi Ha Hr. rewrite <- (interleaving_cnt _ _ _ Hi) in Ha.
  rewrite <- (interleaving_cnt _ _ _ Hi) in Hr.
  assert (cnt total ps = total os) as ->.
  { induction Hi as [ps Hp|ps t o p os Ht _ IH].
    - clear -Hp. induction Hp as [|p ps -> _ IH]; [done|]. cbn [cnt]. by rewrite IH.
    - rewrite (cnt_insert _ _ _ _ _ Ht) in IH.
      destruct o; cbn [cnt total is_acquire is_release delta] in *; specialize (IH ltac:(lia) ltac:(lia)); lia. }
  destruct (run_spec os c) as (rs & Hrun & Hl & Hrs).
  { intros k. rewrite total_cnt.
    pose proof (cnt_take_le is_acquire os k ltac:(by intros [])).
    pose proof (cnt_take_le is_release os k ltac:(by intros [])).
    pose proof (cnt_nonneg is_acquire (take k os) ltac:(by intros [])).
    pose proof (cnt_nonneg is_release (take k os) ltac:(by intros [])). lia. }
  exists rs. split; [done|]. split; [done|]. split; [done|]. intros Hpos k. split.
  - intros Hk. pose proof (Hrs k 0 Hk) as H0. pose proof (lookup_lt_Some _ _ _ Hk) as Hlt.
    assert (S k = length os) as He.
    { destruct (decide (S k < length os)%nat) as [Hs|]; [specialize (Hpos (S k) Hs)|]; lia. }
    split; [done|]. rewrite take_ge in H0 by lia. split; [|lia].
    destruct (lookup_lt_is_Some_2 os k ltac:(lia)) as [o Ho]. destruct o; [|done].
    specialize (Hpos k ltac:(lia)). rewrite <- (take_drop_middle os k _ Ho) in H0.
    rewrite drop_ge in H0 by lia. rewrite total_cnt, !cnt_app in H0. rewrite total_cnt in Hpos.
    cbn [cnt is_acquire is_release] in H0. lia.
  - intros (He & _ & H0). destruct (lookup_lt_is_Some_2 rs k ltac:(lia)) as [r Hk].
    rewrite (Hrs k r Hk) in Hk. rewrite take_ge in Hk by lia. by rewrite H0 in Hk.
Qed.

(** Two threads take and release a reference each, the second one between the
    operations of the first, and the first one releases that of the creator. *)
Example refcount_interleaving_witness :
  exists rs, run [Acquire; Acquire; Release; Release; Release] make = Some (rs, mk 0) /\
    length rs = 5%nat /\
    (forall k r, rs !! k = Some r ->
       r = 1 + total (take (S k) [Acquire; Acquire; Release; Release; Release])) /\
    ((forall k, (k < 5)%nat -> 0 < 1 + total (take k [Acquire; Acquire; Release; Release; Release])) ->
     forall k, rs !! k = Some 0 <-> S k = 5%nat /\
       [Acquire; Acquire; Release; Release; Release] !! k = Some Release /\ 0 = 0).
Proof.
  apply (refcount_interleaving [[Acquire; Release; Release]; [Acquire; Release]]
    [Acquire; Acquire; Release; Release; Release] make);
    [|vm_compute; done|vm_compute; done].
  apply (il_step _ 0 _ [Release; Release]); [done|]. apply (il_step _ 1 _ [Release]); [done|].
  apply (il_step _ 1 _ []); [done|]. apply (il_step _ 0 _ [Release]); [done|].
  apply (il_step _ 0 _ []); [done|]. apply il_done. by repeat constructor.
Defined.

End RefCountProps.
