(* ===== verification/AtomicOps.v ===== *)
(** * AtomicOps: the rest of the macros of common/atomic_x86_64.h, and
    common/atomic_i386.h

    The macros that add, test flags and set bits, in both headers. The last
    instruction of each sets a flag that the macro returns. In the i386 header
    the arms for cells of eight bytes call abort, or retry a compare-and-swap
    that does. *)

From S2P Require Import Prelude Atomic.

Section instructions.
Context (T : ity).

(** The instructions on [n] bytes, as in Atomic.v; the sign and the zero flag
    are those of the [n] bytes stored. *)
Definition add (n mem value : Z) : Z := to_ty T (mem + value).
Definition inc (n mem : Z) : Z := to_ty T (mem + 1).
Definition dec (n mem : Z) : Z := to_ty T (mem - 1).
Definition SF (n mem : Z) : bool := Z.testbit mem (8 * n - 1).
Definition ZF (n mem : Z) : bool := wrapU (8 * n) mem =? 0.

(** [1 << bit] at a type of [w] value bits. *)
Definition one_shl (w bit : Z) : option Z :=
  if (0 <=? bit) && (bit <? w) then Some (2 ^ bit) else None.

(** or, whose operand must fit the [n] bytes. *)
Definition or (n mem value : Z) : option Z :=
  if value <? 2 ^ (8 * n) then Some (to_ty T (Z.lor mem value)) else None.

(** bts, which sets the carry flag to the old bit. A bit outside of the cell
    selects the cell's neighbours, or another bit, and is not described. *)
Definition bts (n mem bit : Z) : option (bool * Z) :=
  if (0 <=? bit) && (bit <? 8 * n) then
    Some (Z.testbit mem bit, to_ty T (Z.lor mem (2 ^ bit)))
  else None.

(** There is no bts on bytes: [btsb] does not assemble. *)
Definition btsb : option (bool * Z) := None.
End instructions.

(** ** The macros of atomic_x86_64.h *)
Module X86_64.
Section macros.
Context (T : ity).

(** src/code/cc/common/atomic_x86_64.h:197-214 [atomic_increment] *)
Definition atomic_increment (mem : Z) : Z :=
  if sizeof T =? 1 then inc T 1 mem
  else if sizeof T =? 2 then inc T 2 mem
  else if sizeof T =? 4 then inc T 4 mem
  else inc T 8 mem.

(** src/code/cc/common/atomic_x86_64.h:238-255 [atomic_decrement] *)
Definition atomic_decrement (mem : Z) : Z :=
  if sizeof T =? 1 then dec T 1 mem
  else if sizeof T =? 2 then dec T 2 mem
  else if sizeof T =? 4 then dec T 4 mem
  else dec T 8 mem.

(** src/code/cc/common/atomic_x86_64.h:131-152 [atomic_add]
    [constant] is the answer of __builtin_constant_p for the value. *)
Definition atomic_add (constant : bool) (mem value : Z) : Z :=
  if constant && (value =? 1) then atomic_increment mem
  else if constant && (value =? 1) then atomic_decrement mem
  else if sizeof T =? 1 then add T 1 mem value
  else if sizeof T =? 2 then add T 2 mem value
  else if sizeof T =? 4 then add T 4 mem value
  else add T 8 mem value.

(** src/code/cc/common/atomic_x86_64.h:155-173 [atomic_add_negative] *)
Definition atomic_add_negative (mem value : Z) : bool * Z :=
  if sizeof T =? 1 then let m := add T 1 mem value in (SF 1 m, m)
  else if sizeof T =? 2 then let m := add T 2 mem value in (SF 2 m, m)
  else if sizeof T =? 4 then let m := add T 4 mem value in (SF 4 m, m)
  else let m := add T 8 mem value in (SF 8 m, m).

(** src/code/cc/common/atomic_x86_64.h:176-194 [atomic_add_zero] *)
Definition atomic_add_zero (mem value : Z) : bool * Z :=
  if sizeof T =? 1 then let m := add T 1 mem value in (ZF 1 m, m)
  else if sizeof T =? 2 then let m := add T 2 mem value in (ZF 2 m, m)
  else if sizeof T =? 4 then let m := add T 4 mem value in (ZF 4 m, m)
  else let m := add T 8 mem value in (ZF 8 m, m).

(** src/code/cc/common/atomic_x86_64.h:217-235 [atomic_increment_and_test] *)
Definition atomic_increment_and_test (mem : Z) : bool * Z :=
  if sizeof T =? 1 then let m := inc T 1 mem in (ZF 1 m, m)
  else if sizeof T =? 2 then let m := inc T 2 mem in (ZF 2 m, m)
  else if sizeof T =? 4 then let m := inc T 4 mem in (ZF 4 m, m)
  else let m := inc T 8 mem in (ZF 8 m, m).

(** src/code/cc/common/atomic_x86_64.h:258-276 [atomic_decrement_and_test] *)
Definition atomic_decrement_and_test (mem : Z) : bool * Z :=
  if sizeof T =? 1 then let m := dec T 1 mem in (ZF 1 m, m)
  else if sizeof T =? 2 then let m := dec T 2 mem in (ZF 2 m, m)
  else if sizeof T =? 4 then let m := dec T 4 mem in (ZF 4 m, m)
  else let m := dec T 8 mem in (ZF 8 m, m).

(** src/code/cc/common/atomic_x86_64.h:279-300 [atomic_bit_set]
    A constant bit below 32 of a cell of eight bytes goes into the immediate
    operand, which has 31 value bits. *)
Definition atomic_bit_set (constant : bool) (mem bit : Z) : option Z :=
  if sizeof T =? 1 then v ← one_shl 63 bit; or T 1 mem v
  else if sizeof T =? 2 then v ← one_shl 63 bit; or T 2 mem v
  else if sizeof T =? 4 then v ← one_shl 63 bit; or T 4 mem v
  else if constant && (bit <? 32) then
    v ← one_shl 63 bit; if v <? 2 ^ 31 then or T 8 mem v else None
  else v ← one_shl 64 bit; or T 8 mem v.

(** src/code/cc/common/atomic_x86_64.h:303-321 [atomic_bit_test_set] *)
Definition atomic_bit_test_set (mem bit : Z) : option (bool * Z) :=
  if sizeof T =? 1 then btsb
  else if sizeof T =? 2 then bts T 2 mem bit
  else if sizeof T =? 4 then bts T 4 mem bit
  else bts T 8 mem bit.
End macros.
End X86_64.

(** ** The macros of atomic_i386.h *)
Module I386.

(** What a macro does: it returns, it calls abort, or its loop is still running
    when the rounds are used up. *)
Inductive outcome (A : Type) := Returns (a : A) | Aborts | Spins.
Arguments Returns {A} a.
Arguments Aborts {A}.
Arguments Spins {A}.

Definition of_option {A} (o : option A) : outcome A :=
  match o with Some a => Returns a | None => Aborts end.

Section macros.
Context (T : ity).

(** src/code/cc/common/atomic_i386.h:58-63 [__arch_compare_and_exchange_val_8_acq] *)
Definition __arch_compare_and_exchange_val_8_acq (mem newval oldval : Z) : option (Z * Z) :=
  Some (cmpxchg T 1 mem newval oldval).
(** src/code/cc/common/atomic_i386.h:65-70 [__arch_compare_and_exchange_val_16_acq] *)
Definition __arch_compare_and_exchange_val_16_acq (mem newval oldval : Z) : option (Z * Z) :=
  Some (cmpxchg T 2 mem newval oldval).
(** src/code/cc/common/atomic_i386.h:72-77 [__arch_compare_and_exchange_val_32_acq] *)
Definition __arch_compare_and_exchange_val_32_acq (mem newval oldval : Z) : option (Z * Z) :=
  Some (cmpxchg T 4 mem newval oldval).
(** src/code/cc/common/atomic_i386.h:85-87 [__arch_compare_and_exchange_val_64_acq]
    The variant that is compiled calls abort. *)
Definition __arch_compare_and_exchange_val_64_acq (mem newval oldval : Z) : option (Z * Z) :=
  None.
(** src/code/cc/common/atomic_i386.h:104-114 [__arch_compare_and_exchange_val_64_acq (cmpxchg8b)]
    The variant the preprocessor leaves out. *)
Definition cmpxchg8b (mem newval oldval : Z) : option (Z * Z) :=
  Some (cmpxchg T 8 mem newval oldval).

(** src/code/cc/common/atomic_i386.h:158-166 [atomic_exchange_and_add (loop)]
    The loop around a compare-and-swap [cas], with [result] the value last read:
    it goes on while the old value is the one expected. No other thread touches
    the cell. *)
Fixpoint retry (fuel : nat) (cas : Z -> Z -> Z -> option (Z * Z)) (addval mem result : Z)
  : outcome (Z * Z) :=
  match fuel with
  | O => Spins
  | S fuel =>
      match cas mem (to_ty T (result + addval)) result with
      | None => Aborts
      | Some (r, mem) => if r =? result then retry fuel cas addval mem r else Returns (r, mem)
      end
  end.

(** The loop as the header compiles it, from the value in the cell. *)
Definition retry_64 (fuel : nat) (addval mem : Z) : outcome (Z * Z) :=
  retry fuel __arch_compare_and_exchange_val_64_acq addval mem mem.
Definition cell {A B} (o : outcome (A * B)) : outcome B :=
  match o with Returns (_, m) => Returns m | Aborts => Aborts | Spins => Spins end.

(** src/code/cc/common/atomic_i386.h:120-139 [atomic_exchange_acq] *)
Definition atomic_exchange_acq (mem newvalue : Z) : option (Z * Z) :=
  if sizeof T =? 1 then Some (xchg T 1 mem newvalue)
  else if sizeof T =? 2 then Some (xchg T 2 mem newvalue)
  else if sizeof T =? 4 then Some (xchg T 4 mem newvalue)
  else None.

(** src/code/cc/common/atomic_i386.h:142-167 [atomic_exchange_and_add] *)
Definition atomic_exchange_and_add (fuel : nat) (mem value : Z) : outcome (Z * Z) :=
  if sizeof T =? 1 then Returns (xadd T 1 mem value)
  else if sizeof T =? 2 then Returns (xadd T 2 mem value)
  else if sizeof T =? 4 then Returns (xadd T 4 mem value)
  else retry_64 fuel value mem.

(** src/code/cc/common/atomic_i386.h:239-262 [atomic_increment] *)
Definition atomic_increment (fuel : nat) (mem : Z) : outcome Z :=
  if sizeof T =? 1 then Returns (inc T 1 mem)
  else if sizeof T =? 2 then Returns (inc T 2 mem)
  else if sizeof T =? 4 then Returns (inc T 4 mem)
  else cell (retry_64 fuel 1 mem).

(** src/code/cc/common/atomic_i386.h:284-307 [atomic_decrement] *)
Definition atomic_decrement (fuel : nat) (mem : Z) : outcome Z :=
  if sizeof T =? 1 then Returns (dec T 1 mem)
  else if sizeof T =? 2 then Returns (dec T 2 mem)
  else if sizeof T =? 4 then Returns (dec T 4 mem)
  else cell (retry_64 fuel (-1) mem).

(** src/code/cc/common/atomic_i386.h:170-198 [atomic_add] *)
Definition atomic_add (fuel : nat) (constant : bool) (mem value : Z) : outcome Z :=
  if constant && (value =? 1) then atomic_increment fuel mem
  else if constant && (value =? -1) then atomic_decrement fuel mem
  else if sizeof T =? 1 then Returns (add T 1 mem value)
  else if sizeof T =? 2 then Returns (add T 2 mem value)
  else if sizeof T =? 4 then Returns (add T 4 mem value)
  else cell (retry_64 fuel value mem).

(** src/code/cc/common/atomic_i386.h:201-217 [atomic_add_negative] *)
Definition atomic_add_negative (mem value : Z) : option (bool * Z) :=
  if sizeof T =? 1 then let m := add T 1 mem value in Some (SF 1 m, m)
  else if sizeof T =? 2 then let m := add T 2 mem value in Some (SF 2 m, m)
  else if sizeof T =? 4 then let m := add T 4 mem value in Some (SF 4 m, m)
  else None.

(** src/code/cc/common/atomic_i386.h:220-236 [atomic_add_zero] *)
Definition atomic_add_zero (mem value : Z) : option (bool * Z) :=
  if sizeof T =? 1 then let m := add T 1 mem value in Some (ZF 1 m, m)
  else if sizeof T =? 2 then let m := add T 2 mem value in Some (ZF 2 m, m)
  else if sizeof T =? 4 then let m := add T 4 mem value in Some (ZF 4 m, m)
  else None.

(** src/code/cc/common/atomic_i386.h:265-281 [atomic_increment_and_test] *)
Definition atomic_increment_and_test (mem : Z) : option (bool * Z) :=
  if sizeof T =? 1 then let m := inc T 1 mem in Some (ZF 1 m, m)
  else if sizeof T =? 2 then let m := inc T 2 mem in Some (ZF 2 m, m)
  else if sizeof T =? 4 then let m := inc T 4 mem in Some (ZF 4 m, m)
  else None.

(** src/code/cc/common/atomic_i386.h:310-326 [atomic_decrement_and_test] *)
Definition atomic_decrement_and_test (mem : Z) : option (bool * Z) :=
  if sizeof T =? 1 then let m := dec T 1 mem in Some (ZF 1 m, m)
  else if sizeof T =? 2 then let m := dec T 2 mem in Some (ZF 2 m, m)
  else if sizeof T =? 4 then let m := dec T 4 mem in Some (ZF 4 m, m)
  else None.

(** src/code/cc/common/atomic_i386.h:329-344 [atomic_bit_set]
    The shifted one is an [int]. *)
Definition atomic_bit_set (mem bit : Z) : option Z :=
  if sizeof T =? 1 then v ← one_shl 31 bit; or T 1 mem v
  else if sizeof T =? 2 then v ← one_shl 31 bit; or T 2 mem v
  else if sizeof T =? 4 then v ← one_shl 31 bit; or T 4 mem v
  else None.

(** src/code/cc/common/atomic_i386.h:347-363 [atomic_bit_test_set] *)
Definition atomic_bit_test_set (mem bit : Z) : option (bool * Z) :=
  if sizeof T =? 1 then btsb
  else if sizeof T =? 2 then bts T 2 mem bit
  else if sizeof T =? 4 then bts T 4 mem bit
  else None.
End macros.
End I386.

(** ** Bits of a value at its type *)

Lemma known_pos T : known_size T -> 0 < 8 * sizeof T.
Proof. intros [->|[->|[->| ->]]]; lia. Qed.

Lemma testbit_wrapU w z i : 0 <= i < w -> Z.testbit (wrapU w z) i = Z.testbit z i.
Proof. intros. unfold wrapU. apply Z.mod_pow2_bits_low. lia. Qed.

Lemma testbit_to_ty T z i :
  known_size T -> 0 <= i < 8 * sizeof T -> Z.testbit (to_ty T z) i = Z.testbit z i.
Proof.
  intros Hs Hi. unfold to_ty. destruct (is_signed T); [|by apply testbit_wrapU].
  rewrite <- (testbit_wrapU (8 * sizeof T)), wrapU_wrapS by lia. by apply testbit_wrapU.
Qed.

(** Two values of the type with the same bits are the same. *)
Lemma in_ty_bits T a b :
  known_size T -> in_ty T a -> in_ty T b ->
  (forall i, 0 <= i < 8 * sizeof T -> Z.testbit a i = Z.testbit b i) -> a = b.
Proof.
  intros Hs Ha Hb Hab. apply (wrapU_inj T); [done..|]. apply Z.bits_inj'. intros i Hi.
  pose proof (known_pos T Hs).
  destruct (Z.lt_ge_cases i (8 * sizeof T)).
  - rewrite !testbit_wrapU by lia. apply Hab. lia.
  - unfold wrapU. by rewrite !Z.mod_pow2_bits_high by lia.
Qed.

(** The zero flag says whether the value is 0, the sign flag of a signed type
    whether it is negative. *)
Lemma ZF_spec T m : known_size T -> in_ty T m -> ZF (sizeof T) m = bool_decide (m = 0).
Proof.
  intros Hs Hm. unfold ZF. pose proof (known_pos T Hs). case_bool_decide as Hz.
  - subst. by rewrite Z.eqb_eq.
  - apply Z.eqb_neq. intros E. apply Hz, (wrapU_inj T); [done..| |by rewrite E].
    unfold in_ty, isS, isU.
    pose proof (Z.pow_pos_nonneg 2 (8 * sizeof T) ltac:(lia) ltac:(lia)).
    pose proof (Z.pow_pos_nonneg 2 (8 * sizeof T - 1) ltac:(lia) ltac:(lia)). destruct (is_signed T); lia.
Qed.

Lemma SF_spec T m :
  known_size T -> is_signed T = true -> in_ty T m -> SF (sizeof T) m = bool_decide (m < 0).
Proof.
  intros Hs Hsg Hm. unfold SF, in_ty in *. rewrite Hsg in Hm. unfold isS in Hm.
  pose proof (known_pos T Hs). case_bool_decide.
  - rewrite <- (testbit_wrapU (8 * sizeof T)) by lia. unfold wrapU.
    assert (2 ^ (8 * sizeof T) = 2 * 2 ^ (8 * sizeof T - 1)) as Hw
      by (rewrite <- Z.pow_succ_r by lia; f_equal; lia).
    replace (m `mod` 2 ^ (8 * sizeof T)) with (m + 2 ^ (8 * sizeof T)).
    + rewrite Z.testbit_true by lia.
      replace ((m + 2 ^ (8 * sizeof T)) / 2 ^ (8 * sizeof T - 1)) with 1; [done|].
      apply (Z.div_unique_pos _ _ _ (m + 2 ^ (8 * sizeof T - 1))); lia.
    + rewrite <- (Z.mod_add _ 1) by lia. rewrite Z.mod_small by lia. lia.
  - apply Z.testbit_false; [lia|]. by rewrite Z.div_small by lia.
Qed.

(** The dispatch on the size, decided. *)
Ltac by_size Hs :=
  let E := fresh "E" in
  destruct Hs as [E|[E|[E|E]]]; rewrite E in *;
  cbn [Z.eqb Pos.eqb negb andb].

(** ** Addition *)

(** One addition lies behind all the macros that add: they store the same sum,
    wrapped to the type, and the flags say whether it is negative or 0. *)
Theorem adders_agree T (constant : bool) mem value :
  known_size T -> in_ty T mem ->
  let new := to_ty T (mem + value) in
  atomic_exchange_and_add T mem value = (mem, new) /\
  X86_64.atomic_add T constant mem value = new /\
  X86_64.atomic_add_zero T mem value = (bool_decide (new = 0), new) /\
  (is_signed T = true ->
   X86_64.atomic_add_negative T mem value = (bool_decide (new < 0), new)).
Proof.
  intros Hs Hm new. pose proof (to_ty_range T (mem + value) Hs) as Hr. fold new in Hr.
  pose proof (ZF_spec T new Hs Hr) as Hz. pose proof (SF_spec T new Hs) as Hn.
  unfold atomic_exchange_and_add, X86_64.atomic_add, X86_64.atomic_increment,
    X86_64.atomic_add_zero, X86_64.atomic_add_negative, xadd, add, inc.
  fold new. cbv zeta.
  assert (constant && (value =? 1) = true -> to_ty T (mem + 1) = new) as Hone.
  { intros [_ ->%Z.eqb_eq]%andb_prop. done. }
  destruct (constant && (value =? 1)); [rewrite Hone by done|];
    by_size Hs; (split_and!; [done|done|by rewrite <- Hz|intros Hsg; by rewrite <- Hn]).
Qed.

Example adders_agree_witness :
  atomic_exchange_and_add int32_t 2147483647 1 = (2147483647, -2147483648) /\
  X86_64.atomic_add_negative int32_t 2147483647 1 = (true, -2147483648).
Proof.
  destruct (adders_agree int32_t true 2147483647 1) as (H1 & _ & _ & H2);
    [right; right; left; done|vm_compute; done|].
  split; [exact H1|exact (H2 eq_refl)].
Defined.

(** Counting up and down are additions of 1 and of -1, and the tests of the
    counters are tests for 0. *)
Theorem counters_agree T mem :
  known_size T -> in_ty T mem ->
  X86_64.atomic_increment T mem = snd (atomic_exchange_and_add T mem 1) /\
  X86_64.atomic_decrement T mem = snd (atomic_exchange_and_add T mem (-1)) /\
  X86_64.atomic_increment_and_test T mem = X86_64.atomic_add_zero T mem 1 /\
  X86_64.atomic_decrement_and_test T mem = X86_64.atomic_add_zero T mem (-1).
Proof.
  intros Hs Hm. unfold atomic_exchange_and_add, X86_64.atomic_increment,
    X86_64.atomic_decrement, X86_64.atomic_increment_and_test,
    X86_64.atomic_decrement_and_test, X86_64.atomic_add_zero, xadd, inc, dec, add.
  by_size Hs; done.
Qed.

Example counters_agree_witness :
  X86_64.atomic_decrement_and_test int32_t 1 = (true, 0).
Proof.
  refine (eq_trans (proj2 (proj2 (proj2 (counters_agree int32_t 1 _ _)))) _);
    [right; right; left; done|vm_compute; done..].
Defined.

(** ** Bits *)

(** Setting a bit of a cell of two bytes or more returns whether it was set,
    leaves it set and leaves every other bit alone; so of two that set the same
    bit, the second finds it set. A cell of one byte does not assemble. *)
Theorem bit_test_set_spec T mem bit :
  known_size T -> sizeof T <> 1 -> in_ty T mem -> 0 <= bit < 8 * sizeof T ->
  exists mem',
    X86_64.atomic_bit_test_set T mem bit = Some (Z.testbit mem bit, mem') /\
    in_ty T mem' /\
    (forall i, 0 <= i < 8 * sizeof T -> Z.testbit mem' i = (i =? bit) || Z.testbit mem i) /\
    X86_64.atomic_bit_test_set T mem' bit = Some (true, mem').
Proof.
  intros Hs H1 Hm Hb. set (mem' := to_ty T (Z.lor mem (2 ^ bit))).
  assert (forall i, 0 <= i < 8 * sizeof T ->
    Z.testbit mem' i = (i =? bit) || Z.testbit mem i) as Hbits.
  { intros i Hi. unfold mem'. rewrite testbit_to_ty, Z.lor_spec by done.
    rewrite orb_comm. f_equal. rewrite Z.pow2_bits_eqb by lia. apply Z.eqb_sym. }
  assert (in_ty T mem') as Hr by by apply to_ty_range.
  assert (to_ty T (Z.lor mem' (2 ^ bit)) = mem') as Hagain.
  { apply (in_ty_bits T); [done|by apply to_ty_range|done|]. intros i Hi.
    rewrite testbit_to_ty, Z.lor_spec, Hbits, Z.pow2_bits_eqb by (done || lia).
    destruct (Z.eqb_spec i bit) as [->|]; [by rewrite Z.eqb_refl, orb_true_r|].
    destruct (Z.eqb_spec bit i); [lia|]. by rewrite orb_false_r. }
  assert (forall m, X86_64.atomic_bit_test_set T m bit =
    Some (Z.testbit m bit, to_ty T (Z.lor m (2 ^ bit)))) as Hstep.
  { intros m. unfold X86_64.atomic_bit_test_set, bts.
    clear - Hs H1 Hb. by_size Hs; [done|..]; case_bool; [done|zb|done|zb|done|zb]. }
  exists mem'. rewrite !Hstep, Hagain, Hbits, Z.eqb_refl by done. done.
Qed.

Example bit_test_set_spec_witness :
  exists m, X86_64.atomic_bit_test_set int32_t 5 31 = Some (false, m) /\
    X86_64.atomic_bit_test_set int32_t m 31 = Some (true, m).
Proof.
  destruct (bit_test_set_spec int32_t 5 31) as (m & H & _ & _ & H');
    [right; right; left; done|done|vm_compute; done|done|].
  exists m. split; [exact H|exact H'].
Defined.

(** ** The i386 header against the x86-64 one *)

(** On cells of one, two and four bytes every macro of the i386 header does what
    its x86-64 namesake does. *)
Theorem i386_same T fuel (constant : bool) mem value :
  known_size T -> sizeof T <> 8 -> in_ty T mem ->
  I386.atomic_exchange_acq T mem value = Some (atomic_exchange_acq T mem value) /\
  I386.atomic_exchange_and_add T fuel mem value =
    I386.Returns (atomic_exchange_and_add T mem value) /\
  I386.atomic_add T fuel constant mem value =
    I386.Returns (X86_64.atomic_add T constant mem value) /\
  I386.atomic_add_negative T mem value = Some (X86_64.atomic_add_negative T mem value) /\
  I386.atomic_add_zero T mem value = Some (X86_64.atomic_add_zero T mem value) /\
  I386.atomic_increment_and_test T mem = Some (X86_64.atomic_increment_and_test T mem) /\
  I386.atomic_decrement_and_test T mem = Some (X86_64.atomic_decrement_and_test T mem) /\
  (value < 31 ->
    I386.atomic_bit_set T mem value = X86_64.atomic_bit_set T constant mem value) /\
  I386.atomic_bit_test_set T mem value = X86_64.atomic_bit_test_set T mem value.
Proof.
  intros Hs H8 Hm.
  assert (value < 31 -> one_shl 31 value = one_shl 63 value) as Hshl.
  { intros Hv. unfold one_shl. destruct (Z.leb_spec 0 value); [|done].
    ztrue (value <? 31). by ztrue (value <? 63). }
  unfold I386.atomic_exchange_acq, I386.atomic_exchange_and_add, I386.atomic_add,
    I386.atomic_increment, I386.atomic_decrement, I386.atomic_add_negative,
    I386.atomic_add_zero, I386.atomic_increment_and_test, I386.atomic_decrement_and_test,
    I386.atomic_bit_set, I386.atomic_bit_test_set, atomic_exchange_acq,
    atomic_exchange_and_add, X86_64.atomic_add, X86_64.atomic_increment,
    X86_64.atomic_decrement, X86_64.atomic_add_negative, X86_64.atomic_add_zero,
    X86_64.atomic_increment_and_test, X86_64.atomic_decrement_and_test,
    X86_64.atomic_bit_set, X86_64.atomic_bit_test_set.
  by_size Hs; [..|done]; (split_and!; try done; [|intros Hv; by rewrite Hshl]);
    (destruct constant; [|done]); cbn [andb];
    (destruct (Z.eqb_spec value 1); [done|]);
    (destruct (Z.eqb_spec value (-1)) as [->|]; done).
Qed.

Example i386_same_witness :
  I386.atomic_add int32_t 0 true 7 (-1) = I386.Returns 6.
Proof.
  refine (eq_trans (proj1 (proj2 (proj2 (i386_same int32_t 0 true 7 (-1) _ _ _)))) _);
    [right; right; left; done|done|vm_compute; done..].
Defined.

(** On a cell of eight bytes every macro of the i386 header that reads the cell
    aborts. *)
Theorem i386_aborts T fuel (constant : bool) mem value :
  sizeof T = 8 ->
  I386.atomic_exchange_acq T mem value = None /\
  I386.atomic_exchange_and_add T (S fuel) mem value = I386.Aborts /\
  I386.atomic_add T (S fuel) constant mem value = I386.Aborts /\
  I386.atomic_increment T (S fuel) mem = I386.Aborts /\
  I386.atomic_decrement T (S fuel) mem = I386.Aborts /\
  I386.atomic_add_negative T mem value = None /\
  I386.atomic_bit_set T mem value = None.
Proof.
  intros E. unfold I386.atomic_exchange_acq, I386.atomic_exchange_and_add,
    I386.atomic_add, I386.atomic_increment, I386.atomic_decrement,
    I386.atomic_add_negative, I386.atomic_bit_set.
  rewrite E. cbn. split_and!; try done. by repeat case_match.
Qed.

Example i386_aborts_witness : I386.atomic_add uint64_t 1 false 7 5 = I386.Aborts.
Proof. exact (proj1 (proj2 (proj2 (i386_aborts uint64_t 0 false 7 5 eq_refl)))). Defined.

(** ** The retry loops of the i386 header

    With the compare-and-swap the preprocessor leaves out, the condition of the
    loops is the wrong way round. Alone, a thread adds once, because the second
    attempt fails, and it returns the new value instead of the old one; adding
    0 never ends. A thread whose first attempt fails adds nothing. *)
Theorem retry_inverted T fuel addval mem :
  sizeof T = 8 -> in_ty T mem -> in_ty T addval ->
  let new := to_ty T (mem + addval) in
  (new <> mem ->
   I386.retry T (S (S fuel)) (I386.cmpxchg8b T) addval mem mem = I386.Returns (new, new)) /\
  (new = mem -> I386.retry T fuel (I386.cmpxchg8b T) addval mem mem = I386.Spins) /\
  (forall result, in_ty T result -> result <> mem ->
   I386.retry T (S fuel) (I386.cmpxchg8b T) addval mem result = I386.Returns (mem, mem)).
Proof.
  intros E Hm Ha new. assert (known_size T) as Hs by (do 3 right; done).
  assert (forall m n o, in_ty T m -> in_ty T n -> in_ty T o ->
    I386.cmpxchg8b T m n o = Some (m, if decide (m = o) then n else m)) as Hcas.
  { intros m n o ? ? ?. unfold I386.cmpxchg8b, cmpxchg.
    rewrite (to_ty_id T n) by done. case_decide as Hd.
    - subst. by rewrite Z.eqb_refl.
    - destruct (Z.eqb_spec (wrapU (8 * 8) m) (wrapU (8 * 8) o)) as [Ew|]; [|done].
      destruct Hd. apply (wrapU_inj T); [done..|by rewrite E]. }
  assert (in_ty T new) as Hn by by apply to_ty_range.
  split_and!.
  - intros Hne. cbn [I386.retry]. fold new. rewrite Hcas, decide_True by done.
    rewrite Z.eqb_refl. fold new. rewrite Hcas, decide_False by done.
    by destruct (Z.eqb_spec new mem).
  - intros Heq. induction fuel as [|fuel IH]; [done|]. cbn [I386.retry]. fold new.
    rewrite Hcas, decide_True by done. rewrite Z.eqb_refl. by rewrite Heq.
  - intros result Hr Hne. cbn [I386.retry].
    rewrite Hcas, decide_False by (done || by apply to_ty_range).
    by destruct (Z.eqb_spec mem result).
Qed.

Example retry_inverted_witness :
  I386.retry uint64_t 2 (I386.cmpxchg8b uint64_t) 5 7 7 = I386.Returns (12, 12).
Proof.
  apply (proj1 (retry_inverted uint64_t 0 5 7 eq_refl ltac:(vm_compute; done)
    ltac:(vm_compute; done))). vm_compute. done.
Defined.
