(* ===== verification/Lock.v ===== *)
(** * Lock: the locks of common/lock.h and common/lock.cc

    A class is its fields and its operations; an operation is written for the
    value [ret] the pthread call inside it returns, and [None] is the abort of
    SPERM_FATAL. The [threads] section runs any number of threads over one
    lock, every access to its fields a step of its own. *)

From S2P Require Import Prelude.

Definition EBUSY : Z := 16.
Definition EDEADLK : Z := 35.

(** SPERM_FATAL when the call's result is negative. *)
Definition fatal_if (b : bool) {A} (k : option A) : option A := if b then None else k.

(** ** MutexLock *)
Module MutexLock.

(** src/code/cc/common/lock.h:16-32 [MutexLock]
    [mutex_] is the thread that owns the pthread mutex. *)
Record t := mk { mutex_ : option Z; holder_ : Z }.

(** src/code/cc/common/lock.cc:13-18 [MutexLock::MutexLock] *)
Definition make (ret : Z) : option t := fatal_if (ret <? 0) (Some (mk None 0)).

(** src/code/cc/common/lock.cc:20-25 [MutexLock::~MutexLock] *)
Definition destroy (ret : Z) (m : t) : option unit :=
  if holder_ m =? 0 then fatal_if (ret <? 0) (Some tt) else None.

(** src/code/cc/common/lock.cc:28-34 [MutexLock::lock]
    After pthread_mutex_lock returned [ret]. *)
Definition lock (ret tid : Z) (m : t) : option t :=
  fatal_if (ret <? 0) (Some (mk (mutex_ m) tid)).

(** src/code/cc/common/lock.cc:36-42 [MutexLock::unlock]
    After pthread_mutex_unlock returned [ret]. *)
Definition unlock (ret : Z) (m : t) : option t :=
  fatal_if (ret <? 0) (Some (mk (mutex_ m) 0)).

(** src/code/cc/common/lock.cc:44-53 [MutexLock::trylock] *)
Definition trylock (ret : Z) (m : t) : option (bool * t) :=
  fatal_if ((ret <? 0) && negb (ret =? EBUSY))
    (if ret =? EBUSY then Some (false, m) else Some (true, m)).

(** src/code/cc/common/lock.h:23-25 [MutexLock::isLockedByThisThread] *)
Definition isLockedByThisThread (tid : Z) (m : t) : bool := holder_ m =? tid.

End MutexLock.

(** ** SpinLock *)
Module SpinLock.

(** src/code/cc/common/lock.h:49-62 [SpinLock] *)
Record t := mk { spinlock_ : option Z; holder_ : Z }.

(** src/code/cc/common/lock.cc:94-99 [SpinLock::SpinLock] *)
Definition make (ret : Z) : option t := fatal_if (ret <? 0) (Some (mk None 0)).

(** src/code/cc/common/lock.cc:101-107 [SpinLock::~SpinLock] *)
Definition destroy (ret : Z) (l : t) : option unit :=
  if holder_ l =? 0 then fatal_if (ret <? 0) (Some tt) else None.

(** src/code/cc/common/lock.cc:109-115 [SpinLock::lock] *)
Definition lock (ret tid : Z) (l : t) : option t :=
  fatal_if (ret <? 0) (Some (mk (spinlock_ l) tid)).

(** src/code/cc/common/lock.cc:117-123 [SpinLock::unlock] *)
Definition unlock (ret : Z) (l : t) : option t :=
  fatal_if (ret <? 0) (Some (mk (spinlock_ l) 0)).

(** src/code/cc/common/lock.cc:125-134 [SpinLock::trylock] *)
Definition trylock (ret : Z) (l : t) : option (bool * t) :=
  fatal_if ((ret <? 0) && negb (ret =? EBUSY))
    (if ret =? EBUSY then Some (false, l) else Some (true, l)).

(** src/code/cc/common/lock.h:56-58 [SpinLock::isLockedByThisThread] *)
Definition isLockedByThisThread (tid : Z) (l : t) : bool := holder_ l =? tid.

End SpinLock.

(** ** RWLock *)
Module RWLock.

(** src/code/cc/common/lock.h:36-45 [RWLock]
    The pthread lock: free, read by a number of threads, or written by one. *)
Inductive t := Free | Readers (n : positive) | Writer.

(** src/code/cc/common/lock.cc:57-62 [RWLock::RWLock] *)
Definition make (ret : Z) : option t := fatal_if (ret <? 0) (Some Free).

(** src/code/cc/common/lock.cc:64-69 [RWLock::~RWLock]
    A failing destruction is only logged. *)
Definition destroy (ret : Z) (l : t) : option unit := Some tt.

(** src/code/cc/common/lock.cc:71-76 [RWLock::lockForRead]
    The state after a call that returned 0; [None] inside while it blocks. *)
Definition lockForRead (ret : Z) (l : t) : option (option t) :=
  fatal_if (ret <? 0)
    (Some match l with
          | Free => Some (Readers 1)
          | Readers n => Some (Readers (n + 1))
          | Writer => None
          end).

(** src/code/cc/common/lock.cc:78-83 [RWLock::lockForWrite] *)
Definition lockForWrite (ret : Z) (l : t) : option (option t) :=
  fatal_if (ret <? 0) (Some match l with Free => Some Writer | _ => None end).

(** src/code/cc/common/lock.cc:85-90 [RWLock::unlock]
    Unlocking a free lock is undefined. *)
Definition unlock (ret : Z) (l : t) : option t :=
  fatal_if (ret <? 0)
    match l with
    | Free => None
    | Readers n => Some (if decide (n = 1%positive) then Free else Readers (n - 1))
    | Writer => Some Free
    end.

End RWLock.

(** ** LockGuard and NopLock *)
Module NopLock.
(** src/code/cc/common/lock.h:82-88 [NopLock] *)
Definition lock {A} (x : A) : A := x.
Definition unlock {A} (x : A) : A := x.
End NopLock.

(** src/code/cc/common/lock.h:66-78 [LockGuard]
    The scope of a guard: lock, the body, and the unlock on every way out. *)
Definition LockGuard {S A} (lock unlock : S -> option S) (body : S -> option (A * S)) (s : S)
  : option (A * S) :=
  s ← lock s; '(r, s) ← body s; s ← unlock s; Some (r, s).

(** ** Threads over one MutexLock *)
Module MutexThreads.
Import MutexLock.

(** The calls of POSIX on a mutex with the given owner: the result and the owner
    afterwards. [pthread_mutex_lock] is [None] while it blocks,
    [pthread_mutex_unlock] of a mutex the thread does not own is undefined. *)
Definition pthread_mutex_lock (t : Z) (mutex : option Z) : option (Z * option Z) :=
  match mutex with None => Some (0, Some t) | Some _ => None end.
Definition pthread_mutex_trylock (t : Z) (mutex : option Z) : Z * option Z :=
  match mutex with None => (0, Some t) | Some _ => (EBUSY, mutex) end.
Definition pthread_mutex_unlock (t : Z) (mutex : option Z) : option (Z * option Z) :=
  if decide (mutex = Some t) then Some (0, None) else None.

(** Where a thread is: outside, between the return of pthread_mutex_lock and
    the store to [holder_], inside (through [lock] or through [trylock]),
    between the return of pthread_mutex_trylock and that of [trylock], between
    pthread_mutex_unlock and the reset of [holder_]. *)
Inductive pc := Out | Locking (ret : Z) | In | Trying (ret : Z) | TryIn | Unlocking (ret : Z).

Record state := mk_state { m : MutexLock.t; pcs : Z -> pc }.

Definition init : state := mk_state (mk None 0) (fun _ => Out).

(** A thread calls the pthread function, and goes on as the method does with
    what it returned: it is inside after [lock], and after a [trylock] that
    answers true. A thread unlocks only after that. [faulty]: the pthread calls
    may also return a (positive) error number. *)
Inductive step (faulty : bool) : state -> option unit -> state -> Prop :=
| s_lock t l p ret mutex :
    p t = Out -> pthread_mutex_lock t (mutex_ l) = Some (ret, mutex) ->
    step faulty (mk_state l p) None (mk_state (mk mutex (holder_ l)) (<[t := Locking ret]> p))
| s_lock_error t ret l p :
    faulty = true -> 0 < ret -> p t = Out ->
    step faulty (mk_state l p) None (mk_state l (<[t := Locking ret]> p))
| s_locked t ret l l' p :
    p t = Locking ret -> lock ret t l = Some l' ->
    step faulty (mk_state l p) None (mk_state l' (<[t := In]> p))
| s_unlock t l p ret mutex :
    p t = In \/ p t = TryIn -> pthread_mutex_unlock t (mutex_ l) = Some (ret, mutex) ->
    step faulty (mk_state l p) None (mk_state (mk mutex (holder_ l)) (<[t := Unlocking ret]> p))
| s_unlock_error t ret l p :
    faulty = true -> 0 < ret -> p t = In \/ p t = TryIn ->
    step faulty (mk_state l p) None (mk_state l (<[t := Unlocking ret]> p))
| s_unlocked t ret l l' p :
    p t = Unlocking ret -> unlock ret l = Some l' ->
    step faulty (mk_state l p) None (mk_state l' (<[t := Out]> p))
| s_trylock t l p ret mutex :
    p t = Out -> pthread_mutex_trylock t (mutex_ l) = (ret, mutex) ->
    step faulty (mk_state l p) None (mk_state (mk mutex (holder_ l)) (<[t := Trying ret]> p))
| s_trylocked t ret l ok l' p :
    p t = Trying ret -> trylock ret l = Some (ok, l') ->
    step faulty (mk_state l p) None (mk_state l' (<[t := if ok : bool then TryIn else Out]> p)).

(** The thread is between a [lock] or a successful [trylock] and its [unlock]. *)
Definition inside (p : pc) : Prop := match p with In | TryIn => True | _ => False end.

(** It is inside, or was given the mutex and is about to be. *)
Definition owns (p : pc) : Prop :=
  match p with Locking r | Trying r => r = 0 | In | TryIn => True | _ => False end.

(** The results of calls that do not fail. *)
Definition sound (p : pc) : Prop :=
  match p with Locking r => r = 0 | Trying r => r = 0 \/ r = EBUSY | _ => True end.

(** The invariant: the pthread mutex belongs to the thread that is inside or
    about to be, and a thread [holder_] names is inside or resetting it. *)
Definition inv (s : state) : Prop :=
  (forall t, mutex_ (m s) = Some t <-> owns (pcs s t)) /\
  (forall t, sound (pcs s t)) /\
  (forall t, holder_ (m s) = t -> t <> 0 -> pcs s t = In \/ exists r, pcs s t = Unlocking r).

Lemma mutex_init_inv : inv init.
Proof. by split_and!; intros t; simpl; [| |intros <-]. Qed.

Ltac fupd t u :=
  destruct (decide (t = u)) as [->|];
  [rewrite ?fn_lookup_insert in *|rewrite ?fn_lookup_insert_ne in * by done].

(** A step of [t] that ends at [q]: the mutex changes as [q] says, and for the
    other threads not at all. *)
Lemma inv_set l h mutex p t q :
  inv (mk_state l p) -> sound q ->
  (mutex = Some t <-> owns q) ->
  (forall u, u <> t -> mutex = Some u <-> mutex_ l = Some u) ->
  (h <> 0 -> (h = t /\ (q = In \/ exists r, q = Unlocking r)) \/ (h = holder_ l /\ h <> t) \/
     (h = holder_ l /\ p t <> In /\ forall r, p t <> Unlocking r)) ->
  inv (mk_state (mk mutex h) (<[t := q]> p)).
Proof.
  intros (Ho & Hs & Hh) Hq Hm Hm' Hhold. split_and!; intros u; simpl in *.
  - fupd t u; [done|]. rewrite Hm' by done. apply Ho.
  - fupd t u; [done|apply Hs].
  - intros <- Hz. destruct (Hhold Hz) as [[-> Hin]|[[-> Hne]|(-> & Hin & Hun)]].
    + by rewrite fn_lookup_insert.
    + rewrite fn_lookup_insert_ne by done. by apply Hh.
    + destruct (Hh _ eq_refl Hz) as [H|[r H]]; fupd t (holder_ l); try done.
      * by left.
      * by destruct (Hun r).
      * right. by exists r.
Qed.

Lemma step_inv s l s' : inv s -> step false s l s' -> inv s'.
Proof.
  intros Hi Hs. pose proof Hi as (Ho & Hsd & Hh).
  destruct Hs as [t l p ret mutex Hp Hl| |t ret l l' p Hp Hl|t l p ret mutex Hp Hl| |t ret l l' p Hp Hl
    |t l p ret mutex Hp Hl|t ret l ok l' p Hp Hl]; try done; simpl in *;
    pose proof (Ho t) as Hot; pose proof (Hsd t) as Hst;
    unfold lock, unlock, trylock, fatal_if in *.
  - unfold pthread_mutex_lock in Hl. destruct (mutex_ l) eqn:El; [done|]. simplify_eq.
    apply (inv_set l); [done..| | |]; rewrite ?Hp; naive_solver.
  - rewrite Hp in *. simpl in *. destruct (ret <? 0); simplify_eq.
    apply (inv_set l); [done..| | |]; naive_solver.
  - unfold pthread_mutex_unlock in Hl. case_decide as El; simplify_eq.
    apply (inv_set l); [done..| | |]; rewrite ?El; [naive_solver|naive_solver|].
    intros Hz. destruct (decide (holder_ l = t)) as [->|]; naive_solver.
  - rewrite Hp in *. destruct (ret <? 0); simplify_eq.
    apply (inv_set l); [done..| | |]; naive_solver.
  - unfold pthread_mutex_trylock in Hl. destruct (mutex_ l) eqn:El; simplify_eq;
      (apply (inv_set l); [done|simpl; tauto| | |]); rewrite ?Hp, ?El in *; naive_solver.
  - rewrite Hp in *. simpl in *. destruct Hst as [->| ->]; cbn in Hl; simplify_eq;
      destruct l' as [mx hd]; simpl in *; apply (inv_set (mk mx hd)); simpl; rewrite ?Hp;
      [done|done|naive_solver..].
Qed.

Lemma reachable_inv s ls : steps (step false) init ls s -> inv s.
Proof. apply steps_invariant; [apply step_inv|apply mutex_init_inv]. Qed.

(** C22: While no pthread call fails, in any interleaving of [lock], [trylock] and
    [unlock]: at most one thread is inside; the mutex is owned by exactly the
    thread that is inside or was just given it, so that no [trylock] that
    answers false keeps it; [isLockedByThisThread] never answers true to a
    thread that is outside or came in through [trylock]; and the destructor's
    assertion holds whenever all are outside. *)
Theorem mutex_exclusion s ls t u :
  steps (step false) init ls s -> t <> 0 ->
  (inside (pcs s t) -> inside (pcs s u) -> t = u) /\
  (mutex_ (m s) = Some t <-> owns (pcs s t)) /\
  (isLockedByThisThread t (m s) = true -> pcs s t = In \/ exists r, pcs s t = Unlocking r) /\
  ((forall v, pcs s v = Out) -> destroy 0 (m s) = Some tt).
Proof.
  intros Hr Ht. destruct (reachable_inv s ls Hr) as (Ho & _ & Hh). split_and!.
  - intros H1 H2. assert (forall v, inside (pcs s v) -> mutex_ (m s) = Some v) as Hin.
    { intros v Hv. apply Ho. by destruct (pcs s v). }
    apply Hin in H1. apply Hin in H2. congruence.
  - apply Ho.
  - unfold isLockedByThisThread. intros H. zbool. by apply Hh.
  - intros Hv. unfold destroy. destruct (Z.eqb_spec (holder_ (m s)) 0) as [|Hz]; [done|].
    specialize (Hh _ eq_refl Hz). rewrite Hv in Hh. destruct Hh as [?|[??]]; done.
Qed.

(** Thread 7 is inside; thread 8 tried and was sent away. *)
Example mutex_exclusion_witness :
  let s := mk_state (mk (Some 7) 7)
    (<[8 := Out]> (<[8 := Trying EBUSY]> (<[7 := In]> (<[7 := Locking 0]> (fun _ => Out))))) in
  (inside (pcs s 7) -> inside (pcs s 8) -> 7 = 8) /\
  (mutex_ (m s) = Some 7 <-> owns (pcs s 7)) /\
  (isLockedByThisThread 7 (m s) = true -> pcs s 7 = In \/ exists r, pcs s 7 = Unlocking r) /\
  ((forall v, pcs s v = Out) -> destroy 0 (m s) = Some tt).
Proof.
  apply (mutex_exclusion _ []); [|done].
  eapply steps_tau; [by apply (s_lock _ 7)|].
  eapply steps_tau; [by apply (s_locked _ 7 0)|].
  eapply steps_tau; [by apply (s_trylock _ 8)|].
  eapply steps_tau; [by apply (s_trylocked _ 8 EBUSY _ false)|apply steps_nil].
Defined.

(** [unlock] resets [holder_] after it gave the mutex up: the reset can hit the
    [holder_] the next owner has already stored, which then owns the lock while
    [isLockedByThisThread] denies it. *)
Theorem unlock_reset_race t u :
  t <> 0 -> u <> 0 -> t <> u ->
  exists s, steps (step false) init [] s /\ pcs s u = In /\ mutex_ (m s) = Some u /\
    isLockedByThisThread u (m s) = false.
Proof.
  intros Ht Hu Hne. eexists. split; [|split_and!].
  - eapply steps_tau; [by apply (s_lock _ t)|].
    eapply steps_tau; [apply (s_locked _ t 0); [by rewrite fn_lookup_insert|done]|].
    eapply steps_tau; [apply (s_unlock _ t _ _ 0 None); [left; by rewrite fn_lookup_insert|]|].
    { unfold pthread_mutex_unlock. by rewrite decide_True. }
    eapply steps_tau; [apply (s_lock _ u _ _ 0 (Some u)); [rewrite !fn_lookup_insert_ne by done; done|done]|].
    eapply steps_tau; [apply (s_locked _ u 0); [by rewrite fn_lookup_insert|done]|].
    eapply steps_tau; [apply (s_unlocked _ t 0);
      [rewrite !fn_lookup_insert_ne by done; by rewrite fn_lookup_insert|done]|].
    apply steps_nil.
  - simpl. rewrite fn_lookup_insert_ne by done. by rewrite fn_lookup_insert.
  - done.
  - apply Z.eqb_neq. simpl. congruence.
Qed.

Example unlock_reset_race_witness :
  exists s, steps (step false) init [] s /\ pcs s 2 = In /\ mutex_ (m s) = Some 2 /\
    isLockedByThisThread 2 (m s) = false.
Proof. by apply (unlock_reset_race 1 2). Defined.

(** A thread that came in through [trylock] owns the lock, but [holder_] was
    not set. *)
Lemma trylock_not_holder t :
  t <> 0 -> exists s, steps (step false) init [] s /\ pcs s t = TryIn /\
    mutex_ (m s) = Some t /\ isLockedByThisThread t (m s) = false.
Proof.
  intros Ht. eexists. split; [|split_and!].
  - eapply steps_tau; [by apply (s_trylock _ t)|].
    eapply steps_tau; [apply (s_trylocked _ t 0 _ true); [by rewrite fn_lookup_insert|done]|].
    apply steps_nil.
  - simpl. by rewrite fn_lookup_insert.
  - done.
  - apply Z.eqb_neq. simpl. congruence.
Qed.

(** The results are tested with [ret < 0], but pthread reports errors as
    positive numbers: a failing pthread_mutex_lock counts as success, and two
    threads are inside together. *)
Theorem lock_error_ignored t u :
  t <> u -> exists s, steps (step true) init [] s /\ pcs s t = In /\ pcs s u = In.
Proof.
  intros Hne. eexists. split; [|split].
  - eapply steps_tau; [by apply (s_lock _ t)|].
    eapply steps_tau; [apply (s_locked _ t 0); [by rewrite fn_lookup_insert|done]|].
    eapply steps_tau; [apply (s_lock_error _ u EDEADLK); [done|done|by rewrite !fn_lookup_insert_ne]|].
    eapply steps_tau; [apply (s_locked _ u EDEADLK); [by rewrite fn_lookup_insert|done]|].
    apply steps_nil.
  - simpl. rewrite !fn_lookup_insert_ne by done. by rewrite fn_lookup_insert.
  - simpl. by rewrite fn_lookup_insert.
Qed.

Example lock_error_ignored_witness :
  exists s, steps (step true) init [] s /\ pcs s 1 = In /\ pcs s 2 = In.
Proof. by apply (lock_error_ignored 1 2). Defined.

End MutexThreads.

(** ** Readers and writers *)
Module RWLockProps.
Import RWLock.

(** A writer excludes everybody; readers only writers; each unlock undoes one
    lock. *)
Lemma rwlock_spec l :
  (lockForWrite 0 l = Some None <-> l <> Free) /\
  (lockForRead 0 l = Some None <-> l = Writer) /\
  (forall l', lockForRead 0 l = Some (Some l') -> unlock 0 l' = Some l) /\
  (forall l', lockForWrite 0 l = Some (Some l') -> unlock 0 l' = Some l).
Proof.
  unfold lockForRead, lockForWrite, unlock. simpl. split_and!; intros; destruct l; simplify_eq/=;
    try (split; congruence); try done.
  rewrite decide_False by lia. do 2 f_equal. lia.
Qed.
End RWLockProps.
