(* ===== verification/Cond.v ===== *)
(** * Cond: the condition variables of common/cond.h and common/cond.cc

    [Condition] wraps a pthread condition variable; its waiting discipline is
    modelled by the monitor of [Monitor.v]. [FileDescriptorCondition] signals
    through the bytes of a pipe, [FutexCondition] through a counter and a futex
    word; the latter is a step relation over any number of threads. *)

From S2P Require Import Prelude Utils Atomic.

Definition EINTR : Z := 4.
Definition EAGAIN : Z := 11.
Definition EWOULDBLOCK : Z := 11.
Definition ETIMEDOUT : Z := 110.

(** ** Condition *)
Module Condition.

(** src/code/cc/common/cond.cc:30-35 [Condition::wait]
    For the result of pthread_cond_wait; [None] is SPERM_FATAL. *)
Definition wait (ret : Z) : option unit := if ret <? 0 then None else Some tt.

(** src/code/cc/common/cond.cc:37-46 [Condition::timedWait] *)
Definition timedWait (ret : Z) : option bool :=
  if (ret <? 0) && negb (ret =? ETIMEDOUT) then None
  else if ret =? ETIMEDOUT then Some false else Some true.

(** src/code/cc/common/cond.cc:48-53 [Condition::notify] *)
Definition notify (ret : Z) : option unit := if ret <? 0 then None else Some tt.

(** src/code/cc/common/cond.cc:55-60 [Condition::notifyAll] *)
Definition notifyAll (ret : Z) : option unit := if ret <? 0 then None else Some tt.

(** Only a timeout is reported as a failure: any other (positive) error looks
    like a signal. *)
Lemma timedWait_spec ret : 0 <= ret -> timedWait ret = Some (negb (ret =? ETIMEDOUT)).
Proof. intros. unfold timedWait. zfalse (ret <? 0). simpl. by destruct (ret =? ETIMEDOUT). Qed.

End Condition.

(** ** NopCondition *)
Module NopCondition.
(** src/code/cc/common/cond.h:42-53 [NopCondition] *)
Definition wait (wait_sec : Z) : bool := true.
Definition anotify : bool := true.
End NopCondition.

(** ** FileDescriptorCondition *)
Module FileDescriptorCondition.

(** What a [read] or [write] of one byte returns: the byte count 1, or a
    failure with its errno. *)
Inductive io := Done | Failed (errno : Z).

Definition again (errno : Z) : bool := (errno =? EAGAIN) || (errno =? EWOULDBLOCK).

(** One round of the loop of [wait]: the result of epoll_wait, of the read
    that follows, and the milliseconds that passed. *)
Record round := mk_round { epoll : Z; io_read : io; elapsed : Z }.

(** How a wait ends, and whether it took a byte; [Aborts] is the failing
    assertion. *)
Inductive outcome := Returns (b took : bool) | Aborts | Blocked.

(** src/code/cc/common/cond.h:115-141 [FileDescriptorCondition::wait (loop)]
    [Blocked] when the rounds given are used up. *)
Fixpoint wait_loop (rs : list round) (wait_ms : Z) : outcome :=
  if 0 <? wait_ms then
    match rs with
    | [] => Blocked
    | r :: rs =>
        if epoll r <? 0 then Returns false false
        else if epoll r =? 0 then Returns false false
        else if negb (epoll r =? 1) then Aborts
        else
          match io_read r with
          | Done => Returns true true
          | Failed e =>
              if negb (again e) then Returns false false
              else
                let wait_ms := wait_ms - elapsed r in
                if wait_ms <=? 0 then Returns false false else wait_loop rs wait_ms
          end
    end
  else Returns true false.

(** src/code/cc/common/cond.h:97-142 [FileDescriptorCondition::wait] *)
Definition wait (first : io) (rs : list round) (wait_ms : Z) : outcome :=
  match first with
  | Done => Returns true true
  | Failed e =>
      if negb (again e) then Returns false false
      else if wait_ms <=? 0 then Returns false false
      else wait_loop rs wait_ms
  end.

(** src/code/cc/common/cond.h:143-152 [FileDescriptorCondition::anotify] *)
Definition anotify (w : io) : bool * Z :=
  match w with Done => (true, 0) | Failed e => (false, e) end.

Definition kRetryCounter : Z := 10.

(** src/code/cc/common/cond.h:153-166 [FileDescriptorCondition::notify]
    For the results of the writes; the number of yields, and whether a byte
    was written. [None] while it still retries. *)
Fixpoint notify (ws : list io) (retry : Z) (yields : nat) : option (nat * bool) :=
  match ws with
  | [] => None
  | w :: ws =>
      let '(ok, errno) := anotify w in
      if ok then Some (yields, true)
      else if negb (again errno) then Some (yields, false)
      else
        let retry := retry - 1 in
        if retry =? 0 then notify ws kRetryCounter (S yields) else notify ws retry yields
  end.

(** [wait] answers true only to a caller that took a byte out of the pipe: the
    [return true] after the loop is never reached. *)
Lemma wait_true_took first rs wait_ms b took :
  wait first rs wait_ms = Returns b took -> b = took.
Proof.
  unfold wait. destruct first as [|e]; [by intros [= <- <-]|].
  destruct (again e); simpl; [|by intros [= <- <-]].
  destruct (wait_ms <=? 0) eqn:E; [by intros [= <- <-]|]. zbool.
  revert wait_ms E. induction rs as [|r rs IH]; intros wait_ms E; cbn [wait_loop];
    ztrue (0 <? wait_ms); [done|].
  repeat (case_match; try (intros; simplify_eq; done)). intros H'. eapply IH; [|done]. zb.
Qed.

(** The default argument -1, which makes the other conditions wait without a
    limit, makes this one give up at once when there is no byte. *)
Lemma wait_default_returns e rs : again e = true -> wait (Failed e) rs (-1) = Returns false false.
Proof. intros He. unfold wait. by rewrite He. Qed.

(** A wait ends after at most [wait_ms] rounds that each take a millisecond. *)
Lemma wait_loop_ends rs wait_ms :
  0 < wait_ms -> wait_ms <= Z.of_nat (length rs) -> Forall (fun r => 1 <= elapsed r) rs ->
  wait_loop rs wait_ms <> Blocked.
Proof.
  intros Hp Hl Hf. revert wait_ms Hp Hl.
  induction Hf as [|r rs Hr _ IH]; intros wait_ms Hp Hl; simpl in Hl; [lia|].
  cbn [wait_loop]. ztrue (0 <? wait_ms). repeat (case_match; try done).
  apply IH; zb.
Qed.

(** The socket or pipe counts the notifications: with bytes as tickets, the
    waits that succeed are exactly the bytes taken. Each [notify] that reports
    success has written exactly one byte. *)
Lemma notify_writes ws retry y n ok :
  notify ws retry y = Some (n, ok) ->
  exists pre w post, ws = pre ++ w :: post /\ Forall (fun w => (anotify w).1 = false) pre /\
    (anotify w).1 = ok.
Proof.
  revert retry y. induction ws as [|w ws IH]; intros retry y; cbn [notify]; [done|].
  destruct (anotify w) as [[] e] eqn:Ew.
  - intros [= _ <-]. exists [], w, ws. by rewrite Ew.
  - destruct (again e); simpl.
    + intros H. assert (exists retry y, notify ws retry y = Some (n, ok)) as (r' & y' & H').
      { destruct (retry - 1 =? 0); eauto. }
      destruct (IH _ _ H') as (pre & w' & post & -> & Hp & Hw).
      exists (w :: pre), w', post. split; [done|]. split; [|done]. constructor; [|done]. by rewrite Ew.
    + intros [= _ <-]. exists [], w, ws. by rewrite Ew.
Qed.

End FileDescriptorCondition.

(** ** FutexCondition *)
Module FutexCondition.

(** Where a thread is inside the condition. [w] is the timeout of the wait in
    milliseconds, -1 for none. *)
Inductive pc :=
| Idle
| Parking (w : Z)      (* counter decremented, FUTEX_WAIT not yet entered *)
| Sleeping (w : Z)     (* blocked in the kernel *)
| Woken                (* FUTEX_WAIT returned 0 *)
| Expired              (* FUTEX_WAIT timed out; anotify_(1, -1) not yet begun *)
| ExpiredWake          (* ... its counter below the threshold, about to wake *)
| ANotifyWake          (* anotify: about to call FUTEX_WAKE *)
| NotifyWake.          (* notify: in the loop around FUTEX_WAKE *)

(** src/code/cc/common/cond.h:210-226 [FutexCondition]
    [lockword_] never changes, so FUTEX_WAIT never fails with EWOULDBLOCK. *)
Record state := mk { counter_ : Z; pcs : list pc }.

(** src/code/cc/common/cond.cc:109-112 [FutexCondition::FutexCondition] *)
Definition init (resource : Z) (threads : nat) : state := mk resource (replicate threads Idle).

(** What a caller sees. *)
Inductive label :=
| WaitTrue (t : nat) | WaitFalse (t : nat)   (* wait returns *)
| Granted (t : nat)                          (* notify or anotify adds a resource *)
| NotifyDone (t : nat).                      (* notify returns *)

(** src/code/cc/common/cond.cc:121-128 [FutexCondition::wait (timeout)]
    The relative timeout given to FUTEX_WAIT. *)
Definition futex_timeout (wait_ms : Z) : option timespec :=
  if wait_ms =? -1 then None else Some (addtime_timespec {| tv_sec := 0; tv_nsec := 0 |} wait_ms).

(** [FUTEX_WAKE 1]: wakes one sleeping thread, or none when there is none. *)
Inductive futex_wake (ps : list pc) : Z -> list pc -> Prop :=
| wake_one j w : ps !! j = Some (Sleeping w) -> futex_wake ps 1 (<[j := Woken]> ps)
| wake_none : (forall j w, ps !! j <> Some (Sleeping w)) -> futex_wake ps 0 ps.

(** The counter stays an [int32_t]: the model has no step that overflows it. *)
Definition xadd1 (c : Z) (d : Z) (n c' : Z) : Prop :=
  atomic_exchange_and_add int32_t c d = (n, c') /\ c' = c + d.

(** src/code/cc/common/cond.cc:114-183 [FutexCondition]
    One step per access to the counter and per system call. *)
Inductive step : state -> option label -> state -> Prop :=
(* wait *)
| wait_fast c ps t n c' :
    ps !! t = Some Idle -> xadd1 c (-1) n c' -> 1 <= n ->
    step (mk c ps) (Some (WaitTrue t)) (mk c' ps)
| wait_slow c ps t w n c' :
    ps !! t = Some Idle -> xadd1 c (-1) n c' -> ~ 1 <= n ->
    step (mk c ps) None (mk c' (<[t := Parking w]> ps))
| wait_sleep c ps t w :
    ps !! t = Some (Parking w) -> step (mk c ps) None (mk c (<[t := Sleeping w]> ps))
| wait_eintr c ps t w :
    ps !! t = Some (Sleeping w) -> step (mk c ps) None (mk c (<[t := Parking w]> ps))
| wait_woken c ps t :
    ps !! t = Some Woken -> step (mk c ps) (Some (WaitTrue t)) (mk c (<[t := Idle]> ps))
| wait_timeout c ps t w ts :
    ps !! t = Some (Sleeping w) -> futex_timeout w = Some ts ->
    step (mk c ps) None (mk c (<[t := Expired]> ps))
(* anotify_(1, -1) of a wait that timed out *)
| expired_quiet c ps t n c' :
    ps !! t = Some Expired -> xadd1 c 1 n c' -> -1 <= n ->
    step (mk c ps) (Some (WaitFalse t)) (mk c' (<[t := Idle]> ps))
| expired_below c ps t n c' :
    ps !! t = Some Expired -> xadd1 c 1 n c' -> ~ -1 <= n ->
    step (mk c ps) None (mk c' (<[t := ExpiredWake]> ps))
| expired_wake c ps t k ps' :
    ps !! t = Some ExpiredWake -> futex_wake (<[t := Idle]> ps) k ps' ->
    step (mk c ps) (Some (WaitFalse t)) (mk c ps')
(* anotify: anotify_(1, 0) *)
| anotify_quiet c ps t n c' :
    ps !! t = Some Idle -> xadd1 c 1 n c' -> 0 <= n ->
    step (mk c ps) (Some (Granted t)) (mk c' ps)
| anotify_below c ps t n c' :
    ps !! t = Some Idle -> xadd1 c 1 n c' -> ~ 0 <= n ->
    step (mk c ps) (Some (Granted t)) (mk c' (<[t := ANotifyWake]> ps))
| anotify_wake c ps t k ps' :
    ps !! t = Some ANotifyWake -> futex_wake (<[t := Idle]> ps) k ps' ->
    step (mk c ps) None (mk c ps')
(* notify *)
| notify_quiet c ps t n c' :
    ps !! t = Some Idle -> xadd1 c 1 n c' -> 0 <= n ->
    step (mk c ps) (Some (Granted t)) (mk c' ps)
| notify_below c ps t n c' :
    ps !! t = Some Idle -> xadd1 c 1 n c' -> ~ 0 <= n ->
    step (mk c ps) (Some (Granted t)) (mk c' (<[t := NotifyWake]> ps))
| notify_wake c ps t k ps' :
    ps !! t = Some NotifyWake -> futex_wake (<[t := Idle]> ps) k ps' -> k = 1 ->
    step (mk c ps) (Some (NotifyDone t)) (mk c ps')
| notify_retry c ps t k ps' :
    ps !! t = Some NotifyWake -> futex_wake ps k ps' -> k <> 1 ->
    step (mk c ps) None (mk c ps').

(** ** The use without timeouts and without [anotify] *)

(** A step of that use: no wait has a timeout and nobody calls [anotify]. *)
Definition plain (p : pc) : Prop :=
  match p with
  | Parking w | Sleeping w => w = -1
  | Expired | ExpiredWake | ANotifyWake => False
  | _ => True
  end.
Definition plain_step (s : state) (l : option label) (s' : state) : Prop :=
  step s l s' /\ Forall plain (pcs s').

Definition waiting (p : pc) : Z := match p with Parking _ | Sleeping _ => 1 | _ => 0 end.
Definition woken (p : pc) : Z := match p with Woken => 1 | _ => 0 end.
Definition waking (p : pc) : Z := match p with NotifyWake => 1 | _ => 0 end.

Definition trues (ls : list label) : Z := cnt (fun l => match l with WaitTrue _ => 1 | _ => 0 end) ls.
Definition grants (ls : list label) : Z := cnt (fun l => match l with Granted _ => 1 | _ => 0 end) ls.

(** The state invariant, for [g] resources granted (the initial ones included)
    and not yet given to a wait: each notifier in its loop has a waiter, and
    the counter is the resources nobody waits for less the unserved waiters. *)
Definition inv (g : Z) (s : state) : Prop :=
  Forall plain (pcs s) /\
  cnt waiting (pcs s) - cnt waking (pcs s) = Z.max 0 (- counter_ s) /\
  g - cnt woken (pcs s) = Z.max 0 (counter_ s) + cnt waking (pcs s).

Lemma xadd1_inv c d n c' : xadd1 c d n c' -> n = c /\ c' = c + d.
Proof.
  intros [H ->]. unfold atomic_exchange_and_add in H. simpl in H. unfold xadd in H.
  by injection H as <- _.
Qed.

Definition grant (l : option label) : Z :=
  match l with Some (Granted _) => 1 | Some (WaitTrue _) => -1 | _ => 0 end.

Ltac counts :=
  repeat match goal with
  | H : ?ps !! ?t = Some _ |- context [cnt ?f (<[?t := ?x]> ?ps)] =>
      rewrite (cnt_insert f ps t x _ H)
  end; simpl in *; try lia.

Lemma plain_lookup ps t p : Forall plain ps -> ps !! t = Some p -> plain p.
Proof. intros Hf. by apply Forall_lookup_1. Qed.

Lemma plain_new ps t p q : Forall plain (<[t := p]> ps) -> ps !! t = Some q -> plain p.
Proof.
  intros Hf Hq. apply (plain_lookup _ t p Hf), list_lookup_insert_eq. by eapply lookup_lt_Some.
Qed.

(** What a successful wake-up by a notifier does to the counts. *)
Lemma wake_counts ps t ps' :
  ps !! t = Some NotifyWake -> futex_wake (<[t := Idle]> ps) 1 ps' ->
  exists w, forall f : pc -> Z, cnt f ps' = cnt f ps - f NotifyWake + f Idle - f (Sleeping w) + f Woken.
Proof.
  intros Ht Hw. inversion Hw as [j w Hj|]; subst. exists w. intros f.
  rewrite (cnt_insert f _ j Woken (Sleeping w)) by done.
  by rewrite (cnt_insert f _ t Idle NotifyWake).
Qed.

Lemma plain_step_inv g s l s' : inv g s -> plain_step s l s' -> inv (g + grant l) s'.
Proof.
  intros (Hp & Hw & Hg) [Hs Hp']. split; [done|].
  destruct Hs; simpl in *;
    repeat match goal with
    | H : xadd1 _ _ _ _ |- _ => apply xadd1_inv in H as [-> ->]
    | H : _ !! _ = Some Expired |- _ => by apply (plain_lookup _ _ _ Hp) in H
    | H : _ !! _ = Some ExpiredWake |- _ => by apply (plain_lookup _ _ _ Hp) in H
    | H : _ !! _ = Some ANotifyWake |- _ => by apply (plain_lookup _ _ _ Hp) in H
    end; try (split; counts; fail).
  - by apply (plain_new _ _ _ _ Hp') in H.
  - by apply (plain_new _ _ _ _ Hp') in H.
  - subst. destruct (wake_counts ps t ps' H H0) as (w & Hc). rewrite !Hc. simpl. lia.
  - inversion H0; subst; [done|]. lia.
Qed.

(** Apply a rule and discharge its premises at a concrete state. *)
Tactic Notation "fx" uconstr(r) := apply r; solve [done | lia | split; reflexivity].

Lemma run_inv g s ls s' :
  inv g s -> steps plain_step s ls s' -> inv (g + grants ls - trues ls) s'.
Proof.
  intros Hi Hr. revert g Hi. induction Hr as [s|s1 s2 s3 ls Hs _ IH|s1 l s2 s3 ls Hs _ IH]; intros g Hi.
  - replace (g + grants [] - trues []) with g by (unfold grants, trues; simpl; lia). done.
  - apply IH. apply (plain_step_inv _ _ _ _ Hi) in Hs. simpl in Hs. by rewrite Z.add_0_r in Hs.
  - apply (plain_step_inv _ _ _ _ Hi) in Hs. apply IH in Hs.
    replace (g + grants (l :: ls) - trues (l :: ls)) with (g + grant (Some l) + grants ls - trues ls);
      [done|]. unfold grants, trues. simpl. destruct l; lia.
Qed.

Lemma futex_init_inv r n : 0 <= r -> inv r (init r n).
Proof.
  intros Hr. unfold inv, init. simpl. rewrite !cnt_replicate. simpl.
  split; [|lia]. by apply Forall_replicate.
Qed.

(** *** Waits without timeouts, [anotify] included *)

(** A step of that use: no wait has a timeout. *)
Definition untimed (p : pc) : Prop :=
  match p with
  | Parking w | Sleeping w => w = -1
  | Expired | ExpiredWake => False
  | _ => True
  end.
Definition untimed_step (s : state) (l : option label) (s' : state) : Prop :=
  step s l s' /\ Forall untimed (pcs s').

(** The threads inside [wait], and those about to wake somebody. *)
Definition in_wait (p : pc) : Z := match p with Parking _ | Sleeping _ | Woken => 1 | _ => 0 end.
Definition about_to_wake (p : pc) : Z := match p with NotifyWake | ANotifyWake => 1 | _ => 0 end.

(** The invariant, for [g] as above: the counter is what is left of the
    resources when every thread inside [wait] has taken one; the positive part
    of the counter, the threads that were woken and those that are about to wake
    another share what is left. *)
Definition ticket_inv (g : Z) (s : state) : Prop :=
  Forall untimed (pcs s) /\
  counter_ s + cnt in_wait (pcs s) = g /\
  Z.max 0 (counter_ s) + cnt woken (pcs s) + cnt about_to_wake (pcs s) <= g.

Lemma untimed_lookup ps t p : Forall untimed ps -> ps !! t = Some p -> untimed p.
Proof. intros Hf. by apply Forall_lookup_1. Qed.

(** A wake-up moves at most one thread from sleeping to woken. *)
Lemma futex_wake_counts ps k ps' :
  futex_wake ps k ps' ->
  cnt in_wait ps' = cnt in_wait ps /\ cnt woken ps' = cnt woken ps + k /\
  cnt about_to_wake ps' = cnt about_to_wake ps /\ 0 <= k <= 1.
Proof.
  intros [j w Hj|_]; [|lia].
  rewrite !(cnt_insert _ ps j _ _ Hj). simpl. lia.
Qed.

Lemma untimed_step_inv g s l s' : ticket_inv g s -> untimed_step s l s' -> ticket_inv (g + grant l) s'.
Proof.
  intros (Hp & Hw & Hg) [Hs Hp']. split; [done|].
  destruct Hs; simpl in *;
    repeat match goal with
    | H : xadd1 _ _ _ _ |- _ => apply xadd1_inv in H as [-> ->]
    | H : _ !! _ = Some Expired |- _ => by apply (untimed_lookup _ _ _ Hp) in H
    | H : _ !! _ = Some ExpiredWake |- _ => by apply (untimed_lookup _ _ _ Hp) in H
    end; try (split; counts; fail).
  - pose proof (list_lookup_insert_eq ps t Expired ltac:(by eapply lookup_lt_Some)) as He.
    by apply (untimed_lookup _ _ _ Hp') in He.
  - apply futex_wake_counts in H0 as (H1 & H2 & H3 & Hk).
    rewrite (cnt_insert _ ps t _ _ H) in H1. rewrite (cnt_insert _ ps t _ _ H) in H2.
    rewrite (cnt_insert _ ps t _ _ H) in H3. simpl in *. lia.
  - apply futex_wake_counts in H0 as (H2 & H3 & H4 & Hk).
    rewrite (cnt_insert _ ps t _ _ H) in H2. rewrite (cnt_insert _ ps t _ _ H) in H3.
    rewrite (cnt_insert _ ps t _ _ H) in H4. simpl in *. lia.
  - apply futex_wake_counts in H0 as (H2 & H3 & H4 & Hk). assert (k = 0) as -> by lia. lia.
Qed.

Lemma untimed_run_inv g s ls s' :
  ticket_inv g s -> steps untimed_step s ls s' -> ticket_inv (g + grants ls - trues ls) s'.
Proof.
  intros Hi Hr. revert g Hi. induction Hr as [s|s1 s2 s3 ls Hs _ IH|s1 l s2 s3 ls Hs _ IH]; intros g Hi.
  - replace (g + grants [] - trues []) with g by (unfold grants, trues; simpl; lia). done.
  - apply IH. apply (untimed_step_inv _ _ _ _ Hi) in Hs. simpl in Hs. by rewrite Z.add_0_r in Hs.
  - apply (untimed_step_inv _ _ _ _ Hi) in Hs. apply IH in Hs.
    replace (g + grants (l :: ls) - trues (l :: ls)) with (g + grant (Some l) + grants ls - trues ls);
      [done|]. unfold grants, trues. simpl. destruct l; lia.
Qed.

Lemma init_ticket_inv r n : 0 <= r -> ticket_inv r (init r n).
Proof.
  intros Hr. unfold ticket_inv, init. simpl. rewrite !cnt_replicate. simpl.
  split; [|lia]. by apply Forall_replicate.
Qed.

(** No more waits have succeeded than resources were there or granted. *)
Lemma futex_tickets r n ls s :
  0 <= r -> steps untimed_step (init r n) ls s ->
  trues ls <= r + grants ls /\ counter_ s = r + grants ls - trues ls - cnt in_wait (pcs s).
Proof.
  intros Hr Hs. destruct (untimed_run_inv r _ ls s (init_ticket_inv r n Hr) Hs) as (_ & Hw & Hg).
  pose proof (cnt_nonneg woken (pcs s) ltac:(by intros [])).
  pose proof (cnt_nonneg about_to_wake (pcs s) ltac:(by intros [])). lia.
Qed.

Lemma plain_untimed s ls s' : steps plain_step s ls s' -> steps untimed_step s ls s'.
Proof.
  assert (forall a l b, plain_step a l b -> untimed_step a l b) as H.
  { intros a l b [? Hp]. split; [done|]. eapply Forall_impl; [exact Hp|]. by intros []. }
  induction 1; [apply steps_nil|eapply steps_tau; eauto|eapply steps_lab; eauto].
Qed.

(** C23: While no wait has a timeout and the counter stays an int32_t, in any
    interleaving of [wait], [notify] and [anotify], no wait succeeds without a
    resource of its own: at any time the waits that succeeded are at most the
    initial resources plus the grants; and the counter is what is left of them
    less one for each thread inside [wait]. *)
Theorem futex_no_overgrant r n ls s :
  0 <= r -> steps untimed_step (init r n) ls s ->
  trues ls <= r + grants ls /\
  counter_ s = r + grants ls - trues ls - cnt in_wait (pcs s).
Proof. apply futex_tickets. Qed.

(** One resource, and one granted by [anotify] while a thread sleeps. *)
Example futex_no_overgrant_witness :
  trues [WaitTrue 0%nat; Granted 1%nat; WaitTrue 0%nat] <=
    1 + grants [WaitTrue 0%nat; Granted 1%nat; WaitTrue 0%nat] /\
  counter_ (mk 0 [Idle; Idle]) = 1 + grants [WaitTrue 0%nat; Granted 1%nat; WaitTrue 0%nat] -
    trues [WaitTrue 0%nat; Granted 1%nat; WaitTrue 0%nat] - cnt in_wait [Idle; Idle].
Proof.
  apply (futex_no_overgrant 1 2 _ (mk 0 [Idle; Idle])); [lia|].
  eapply (steps_lab _ _ _ (mk 0 [Idle; Idle])).
  { split; [fx (wait_fast 1 [Idle; Idle] 0 1)|]. by repeat constructor. }
  eapply (steps_tau _ _ (mk (-1) [Parking (-1); Idle])).
  { split; [fx (wait_slow 0 [Idle; Idle] 0 (-1) 0)|]. by repeat constructor. }
  eapply (steps_tau _ _ (mk (-1) [Sleeping (-1); Idle])).
  { split; [by apply (wait_sleep _ [Parking (-1); Idle] 0 (-1))|]. by repeat constructor. }
  eapply (steps_lab _ _ _ (mk 0 [Sleeping (-1); ANotifyWake])).
  { split; [fx (anotify_below (-1) [Sleeping (-1); Idle] 1 (-1) 0)|]. by repeat constructor. }
  eapply (steps_tau _ _ (mk 0 [Woken; Idle])).
  { split; [|by repeat constructor]. eapply (anotify_wake _ _ 1); [done|].
    exact (wake_one [Sleeping (-1); Idle] 0 (-1) eq_refl). }
  eapply steps_lab; [|apply steps_nil]. split; [by apply (wait_woken _ [Woken; Idle] 0)|].
  by repeat constructor.
Defined.

(** A notifier in its loop can always finish: some waiter is there to be put
    to sleep and woken. *)
Theorem futex_notify_completes r n ls s t :
  0 <= r -> steps plain_step (init r n) ls s -> pcs s !! t = Some NotifyWake ->
  exists s', steps plain_step s [NotifyDone t] s' /\ pcs s' !! t = Some Idle.
Proof.
  intros Hr Hs Ht. destruct (run_inv r _ ls s (futex_init_inv r n Hr) Hs) as (Hp & Hw & _).
  pose proof (cnt_lookup waking (pcs s) t _ ltac:(by intros []) Ht) as H1. simpl in H1.
  destruct (cnt_pos waiting (pcs s)) as (j & p & Hj & Hpos); [by intros []|lia|].
  assert (exists w, w = -1 /\ (p = Parking w \/ p = Sleeping w)) as (w & -> & Hpw).
  { pose proof (plain_lookup _ _ _ Hp Hj) as Hpl. destruct p; simpl in *; try lia; eauto. }
  assert (j <> t) as Hjt by (intros ->; destruct Hpw; congruence).
  destruct s as [c ps]. simpl in *.
  assert (forall ps, ps !! t = Some NotifyWake -> ps !! j = Some (Sleeping (-1)) -> Forall plain ps ->
    plain_step (mk c ps) (Some (NotifyDone t)) (mk c (<[j := Woken]> (<[t := Idle]> ps)))) as Hwake.
  { intros qs Hqt Hqj Hq. split.
    - eapply notify_wake; [done| |done]. apply (wake_one _ _ (-1)).
      by rewrite list_lookup_insert_ne by done.
    - simpl. by do 2 (apply Forall_insert; [|done]). }
  assert (forall ps : list pc, ps !! t = Some NotifyWake ->
    <[j := Woken]> (<[t := Idle]> ps) !! t = Some Idle) as Hidle.
  { intros qs Hq. rewrite list_lookup_insert_ne by done. apply list_lookup_insert_eq.
    by eapply lookup_lt_Some. }
  destruct Hpw as [-> | ->].
  - eexists. split.
    + eapply steps_tau with (s2 := mk c (<[j := Sleeping (-1)]> ps)).
      { split; [by apply wait_sleep|]. simpl. by apply Forall_insert. }
      eapply steps_lab; [|apply steps_nil]. apply Hwake.
      * by rewrite list_lookup_insert_ne.
      * apply list_lookup_insert_eq. by eapply lookup_lt_Some.
      * by apply Forall_insert.
    + simpl. apply Hidle. by rewrite list_lookup_insert_ne.
  - eexists. split; [eapply steps_lab; [by apply Hwake|apply steps_nil]|]. by apply Hidle.
Qed.

Example futex_notify_completes_witness :
  exists s', steps plain_step (mk 0 [Parking (-1); NotifyWake]) [NotifyDone 1] s' /\
    pcs s' !! 1%nat = Some Idle.
Proof.
  apply (futex_notify_completes 0 2 [Granted 1%nat]); [lia| |done].
  eapply (steps_tau _ _ (mk (-1) [Parking (-1); Idle])).
  { split; [|by repeat constructor]. fx (wait_slow 0 [Idle; Idle] 0 (-1) 0 (-1)). }
  eapply steps_lab; [|apply steps_nil].
  split; [|by repeat constructor]. fx (notify_below (-1) [Parking (-1); Idle] 1 (-1) 0).
Defined.

(** ** What timeouts and [anotify] break *)

(** A wait that times out while two others are queued wakes one of them: the
    woken wait succeeds although nothing was ever granted. *)
Theorem futex_timeout_overgrants :
  exists s, steps step (init 0 2) [WaitFalse 0%nat; WaitTrue 1%nat] s.
Proof.
  eexists.
  eapply steps_tau; [fx (wait_slow 0 [Idle; Idle] 0 2000 0 (-1))|].
  eapply steps_tau; [fx (wait_slow (-1) _ 1 (-1) (-1) (-2))|].
  eapply steps_tau; [by apply (wait_sleep _ _ 0 2000)|].
  eapply steps_tau; [by apply (wait_sleep _ _ 1 (-1))|].
  eapply steps_tau; [by eapply (wait_timeout _ _ 0 2000)|].
  eapply steps_tau; [fx (expired_below (-2) _ 0 (-2) (-1))|].
  eapply steps_lab; [eapply expired_wake; [done|by apply (wake_one _ 1 (-1))]|].
  eapply steps_lab; [by apply (wait_woken _ _ 1)|]. apply steps_nil.
Qed.

(** [anotify] can miss a thread that has taken its place in the counter but is
    not asleep yet: the thread then sleeps with a resource granted and nobody
    left to wake it. *)
Theorem futex_anotify_lost :
  exists s, steps step (init 0 2) [Granted 1%nat] s /\ counter_ s = 0 /\ pcs s = [Sleeping (-1); Idle].
Proof.
  eexists. split; [|split].
  - eapply steps_tau; [fx (wait_slow 0 [Idle; Idle] 0 (-1) 0 (-1))|].
    eapply steps_lab; [fx (anotify_below (-1) _ 1 (-1) 0)|].
    eapply steps_tau; [eapply (anotify_wake _ _ 1); [done|]; apply wake_none;
      intros [|[|j]] w; done|].
    eapply steps_tau; [by apply (wait_sleep _ _ 0 (-1))|]. apply steps_nil.
  - done.
  - done.
Qed.

(** A notifier whose waiter times out stays in its loop: no thread is waiting,
    the resource is back in the counter, and every wake-up finds nobody. *)
Theorem futex_notify_stuck :
  exists s, steps step (init 0 2) [Granted 1%nat; WaitFalse 0%nat] s /\ counter_ s = 1 /\
    pcs s = [Idle; NotifyWake] /\
    (forall k ps', futex_wake (pcs s) k ps' -> k = 0 /\ ps' = pcs s).
Proof.
  eexists. split; [|split; [|split]].
  - eapply steps_tau; [fx (wait_slow 0 [Idle; Idle] 0 2000 0 (-1))|].
    eapply steps_tau; [by apply (wait_sleep _ _ 0 2000)|].
    eapply steps_lab; [fx (notify_below (-1) _ 1 (-1) 0)|].
    eapply steps_tau; [by eapply (wait_timeout _ _ 0 2000)|].
    eapply steps_lab; [fx (expired_quiet 0 _ 0 0 1)|]. apply steps_nil.
  - done.
  - done.
  - intros k ps' Hw. inversion Hw as [[|[|j]] w Hj|]; subst; done.
Qed.

(** A timeout below a second becomes a timeout of zero. *)
Lemma futex_timeout_subsecond w :
  0 <= w < 1000 -> futex_timeout w = Some {| tv_sec := 0; tv_nsec := 0 |}.
Proof.
  intros Hw. unfold futex_timeout. zfalse (w =? -1). unfold addtime_timespec.
  by zfalse (1000 <=? w).
Qed.

End FutexCondition.
