(* ===== verification/LinkedList.v ===== *)
(** * LinkedList: the intrusive lists of common/queue.h

    The elements are pointers to objects with [next] and [prev] fields, so the
    queues are modelled over a heap of such nodes; a dereference of NULL or of
    an address outside the heap is undefined ([None]). [rep] says which list of
    nodes a queue holds, and the operations are refined to lists. *)

From S2P Require Import Prelude.

(** Addresses and objects; a pointer is [None] for NULL. *)
Notation loc := positive (only parsing).
Record node := mk_node { next : option loc; prev : option loc }.
Notation heap := (gmap positive node) (only parsing).

Definition load (h : heap) (p : option loc) : option node := l ← p; h !! l.
Definition set_next (h : heap) (p v : option loc) : option heap :=
  l ← p; n ← h !! l; Some (<[l := mk_node v (prev n)]> h).
Definition set_prev (h : heap) (p v : option loc) : option heap :=
  l ← p; n ← h !! l; Some (<[l := mk_node (next n) v]> h).

(** ** The queue object

    src/code/cc/common/queue.h:640-642 [DLinkedListQueue] *)
Record queue := mk { mem : heap; head_ : option loc; tail_ : option loc }.

(** src/code/cc/common/queue.h:562-565 [DLinkedListQueue::DLinkedListQueue] *)
Definition make (h : heap) : queue := mk h None None.

(** src/code/cc/common/queue.h:628-633 [DLinkedListQueue::empty] *)
Definition empty (q : queue) : bool :=
  if bool_decide (head_ q = tail_ q) && bool_decide (head_ q = None) then true else false.

(** ** SLinkedListQueue *)
Module SLinkedListQueue.

(** src/code/cc/common/queue.h:509-518 [SLinkedListQueue::push] *)
Definition push (q : queue) (item : option loc) : option queue :=
  h ← set_next (mem q) item None;
  if empty q then Some (mk h item item)
  else h ← set_next h (tail_ q) item; Some (mk h (head_ q) item).

(** src/code/cc/common/queue.h:519-528 [SLinkedListQueue::push_front] *)
Definition push_front (q : queue) (item : option loc) : option queue :=
  if empty q then h ← set_next (mem q) item None; Some (mk h item item)
  else h ← set_next (mem q) item (head_ q); Some (mk h item (tail_ q)).

(** src/code/cc/common/queue.h:529-537 [SLinkedListQueue::pop] *)
Definition pop (q : queue) : option (option loc * queue) :=
  let x := head_ q in
  n ← load (mem q) x;
  let head' := next n in
  let tail' := match head' with None => None | Some _ => tail_ q end in
  h ← set_next (mem q) x None;
  Some (x, mk h head' tail').

(** src/code/cc/common/queue.h:544-549 [SLinkedListQueue::head, tail] *)
Definition head (q : queue) : option loc := head_ q.
Definition tail (q : queue) : option loc := tail_ q.

End SLinkedListQueue.

(** ** DLinkedListQueue *)
Module DLinkedListQueue.

(** src/code/cc/common/queue.h:566-577 [DLinkedListQueue::push] *)
Definition push (q : queue) (item : option loc) : option queue :=
  h ← set_next (mem q) item None;
  if empty q then h ← set_prev h item None; Some (mk h item item)
  else
    h ← set_next h (tail_ q) item;
    h ← set_prev h item (tail_ q);
    Some (mk h (head_ q) item).

(** src/code/cc/common/queue.h:578-589 [DLinkedListQueue::push_front] *)
Definition push_front (q : queue) (item : option loc) : option queue :=
  h ← set_prev (mem q) item None;
  if empty q then h ← set_next h item None; Some (mk h item item)
  else
    h ← set_next h item (head_ q);
    h ← set_prev h (head_ q) item;
    Some (mk h item (tail_ q)).

(** src/code/cc/common/queue.h:590-601 [DLinkedListQueue::pop] *)
Definition pop (q : queue) : option (option loc * queue) :=
  let x := head_ q in
  n ← load (mem q) x;
  let head' := next n in
  '(h, tail') ← match head' with
                | None => Some (mem q, None)
                | Some _ => h ← set_prev (mem q) head' None; Some (h, tail_ q)
                end;
  h ← set_prev h x None;
  h ← set_next h x None;
  Some (x, mk h head' tail').

(** src/code/cc/common/queue.h:602-611 [DLinkedListQueue::replace] *)
Definition replace (q : queue) (o n : option loc) : option queue :=
  no ← load (mem q) o;
  h ← match prev no with None => Some (mem q) | Some _ => set_next (mem q) (prev no) n end;
  no ← load h o;
  h ← set_prev h n (prev no);
  no ← load h o;
  h ← match next no with None => Some h | Some _ => set_prev h (next no) n end;
  no ← load h o;
  h ← set_next h n (next no);
  Some (mk h (head_ q) (tail_ q)).

End DLinkedListQueue.

(** ** What only the blocking list has *)
Module BlockingDLinkedList.

(** src/code/cc/common/queue.h:242-258 [BlockingDLinkedListQueue::remove] *)
Definition remove (q : queue) (x : option loc) : option queue :=
  if bool_decide (head_ q = x) && bool_decide (tail_ q = x) then Some (mk (mem q) None None)
  else if bool_decide (head_ q = x) then
    nx ← load (mem q) x;
    h ← set_prev (mem q) (next nx) None;
    Some (mk h (next nx) (tail_ q))
  else if bool_decide (tail_ q = x) then
    nx ← load (mem q) x;
    h ← set_next (mem q) (prev nx) None;
    Some (mk h (head_ q) (prev nx))
  else
    nx ← load (mem q) x;
    h ← set_next (mem q) (prev nx) (next nx);
    nx ← load h x;
    h ← set_prev h (next nx) (prev nx);
    Some (mk h (head_ q) (tail_ q)).

(** src/code/cc/common/queue.h:225-230 [BlockingDLinkedListQueue::clear] *)
Definition clear (q : queue) : option loc * queue := (head_ q, mk (mem q) None None).

End BlockingDLinkedList.

(** ** Segments

    [seg dbl h p xs e]: the nodes [xs] are chained in [h], the first one's
    [prev] is [p] (for a doubly linked list, [dbl = true]) and the last one's
    [next] is [e]. *)
Definition first (xs : list loc) (e : option loc) : option loc :=
  match xs with [] => e | x :: _ => Some x end.
Definition final (xs : list loc) (p : option loc) : option loc :=
  match last xs with None => p | Some x => Some x end.

Fixpoint seg (dbl : bool) (h : heap) (p : option loc) (xs : list loc) (e : option loc) : Prop :=
  match xs with
  | [] => True
  | x :: xs =>
      (exists n, h !! x = Some n /\ next n = first xs e /\ (dbl = true -> prev n = p)) /\
      seg dbl h (Some x) xs e
  end.

(** The queue holds the nodes [xs], in this order. *)
Definition rep (dbl : bool) (q : queue) (xs : list loc) : Prop :=
  NoDup xs /\ head_ q = head xs /\ tail_ q = last xs /\ seg dbl (mem q) None xs None.

(** Outside [xs] the two heaps agree. *)
Definition agree_off (xs : list loc) (h h' : heap) : Prop :=
  forall l, l ∉ xs -> h' !! l = h !! l.

Lemma final_cons x xs p : final (x :: xs) p = final xs (Some x).
Proof. unfold final. rewrite last_cons. by destruct (last xs). Qed.

Lemma final_snoc xs x p : final (xs ++ [x]) p = Some x.
Proof. unfold final. by rewrite last_snoc. Qed.

Lemma first_app xs ys e : first (xs ++ ys) e = first xs (first ys e).
Proof. by destruct xs. Qed.

Lemma seg_app dbl h p xs ys e :
  seg dbl h p (xs ++ ys) e <-> seg dbl h p xs (first ys e) /\ seg dbl h (final xs p) ys e.
Proof.
  revert p. induction xs as [|x xs IH]; intros p; [simpl; tauto|].
  rewrite final_cons. simpl. rewrite IH, first_app. tauto.
Qed.

Lemma seg_frame dbl h p xs e l n : l ∉ xs -> seg dbl (<[l := n]> h) p xs e <-> seg dbl h p xs e.
Proof.
  revert p. induction xs as [|x xs IH]; intros p Hl; [done|].
  apply not_elem_of_cons in Hl as [Hne Hl]. simpl. rewrite IH by done.
  by rewrite lookup_insert_ne by done.
Qed.

Lemma seg_lookup dbl h p xs e x : seg dbl h p xs e -> x ∈ xs -> exists n, h !! x = Some n.
Proof.
  revert p. induction xs as [|y xs IH]; intros p; [by intros _ ?%elem_of_nil|].
  intros [(n & Hn & _) Hs] [->|Hx]%elem_of_cons; eauto.
Qed.

(** The node in the middle of a segment. *)
Lemma seg_middle dbl h p xs x ys e :
  seg dbl h p (xs ++ x :: ys) e <->
  seg dbl h p xs (Some x) /\
  (exists n, h !! x = Some n /\ next n = first ys e /\ (dbl = true -> prev n = final xs p)) /\
  seg dbl h (Some x) ys e.
Proof. rewrite seg_app. simpl. tauto. Qed.

(** Redirecting the [next] of the last node, the [prev] of the first. *)
Lemma seg_set_next dbl h p xs x e e' n :
  x ∉ xs -> h !! x = Some n -> seg dbl h p (xs ++ [x]) e ->
  seg dbl (<[x := mk_node e' (prev n)]> h) p (xs ++ [x]) e'.
Proof.
  intros Hx Hn. rewrite !seg_middle. intros (Hs & (n' & Hn' & _ & Hp) & _).
  rewrite seg_frame by done. rewrite Hn in Hn'. injection Hn' as <-. split; [done|].
  split; [|done]. eexists. rewrite lookup_insert_eq. done.
Qed.

Lemma seg_set_prev dbl h p p' x xs e n :
  x ∉ xs -> h !! x = Some n -> seg dbl h p (x :: xs) e ->
  seg dbl (<[x := mk_node (next n) p']> h) p' (x :: xs) e.
Proof.
  intros Hx Hn [(n' & Hn' & Hnx & _) Hs]. simpl. rewrite seg_frame by done. split; [|done].
  rewrite Hn in Hn'. injection Hn' as <-. eexists. rewrite lookup_insert_eq. done.
Qed.

Lemma rep_empty dbl q xs : rep dbl q xs -> empty q = bool_decide (xs = []).
Proof.
  intros (_ & Hh & Ht & _). unfold empty. rewrite Hh, Ht.
  destruct xs as [|x xs]; [done|]. simpl.
  destruct (bool_decide (Some x = last (x :: xs))); done.
Qed.

Lemma make_rep dbl h : rep dbl (make h) [].
Proof. unfold rep, make. simpl. repeat split. constructor. Qed.

(** ** Functional refinement: each operation does to the list what its name says *)

Lemma set_next_Some (h : heap) l n v :
  h !! l = Some n -> set_next h (Some l) v = Some (<[l := mk_node v (prev n)]> h).
Proof. intros H. unfold set_next. simpl. by rewrite H. Qed.

Lemma set_prev_Some (h : heap) l n v :
  h !! l = Some n -> set_prev h (Some l) v = Some (<[l := mk_node (next n) v]> h).
Proof. intros H. unfold set_prev. simpl. by rewrite H. Qed.

Lemma agree_off_refl xs (h : heap) : agree_off xs h h.
Proof. done. Qed.

Lemma agree_off_insert xs (h h' : heap) l n :
  l ∈ xs -> agree_off xs h h' -> agree_off xs h (<[l := n]> h').
Proof.
  intros Hl Ha k Hk. rewrite lookup_insert_ne; [by apply Ha|]. intros ->. done.
Qed.

#[export] Hint Resolve agree_off_refl agree_off_insert : sperm.
#[export] Hint Extern 1 (_ ∈ _) => set_solver : sperm.

Ltac at_node :=
  rewrite ?lookup_insert_ne by congruence;
  first [eassumption | rewrite lookup_insert_eq; reflexivity].
Ltac step_heap :=
  match goal with
  | |- context [set_next ?h (Some ?l) ?v] => erewrite (set_next_Some h l) by at_node
  | |- context [set_prev ?h (Some ?l) ?v] => erewrite (set_prev_Some h l) by at_node
  end; cbn [mbind option_bind next prev].

Lemma snoc_cases {A} (xs : list A) : xs = [] \/ exists ys y, xs = ys ++ [y].
Proof. induction xs using rev_ind; eauto. Qed.

Lemma head_mid (xs ys : list loc) x :
  x ∉ xs -> bool_decide (head (xs ++ x :: ys) = Some x) = bool_decide (xs = []).
Proof.
  intros Hx. apply bool_decide_ext. destruct xs as [|a xs]; [done|].
  simpl. split; [|done]. intros [= ->]. set_solver.
Qed.

Lemma last_mid (xs ys : list loc) x :
  x ∉ ys -> bool_decide (last (xs ++ x :: ys) = Some x) = bool_decide (ys = []).
Proof.
  intros Hx. apply bool_decide_ext. destruct (snoc_cases ys) as [->|(zs & z & ->)].
  - by rewrite last_snoc.
  - rewrite app_comm_cons, (assoc_L (++)), last_snoc. split; [intros [= ->]; set_solver|by destruct zs].
Qed.

Lemma NoDup_snoc (xs : list loc) x : NoDup xs -> x ∉ xs -> NoDup (xs ++ [x]).
Proof. intros. apply NoDup_app. split; [done|]. split; [set_solver|apply NoDup_singleton]. Qed.

Lemma rep_single dbl h x n :
  h !! x = Some n -> next n = None -> (dbl = true -> prev n = None) ->
  rep dbl (mk h (Some x) (Some x)) [x].
Proof. intros. split; [apply NoDup_singleton|]. repeat split. by exists n. Qed.

Module SProps.
Import SLinkedListQueue.

Lemma spush_spec q xs x nx :
  rep false q xs -> x ∉ xs -> mem q !! x = Some nx ->
  exists q', push q (Some x) = Some q' /\ rep false q' (xs ++ [x]) /\ agree_off (x :: xs) (mem q) (mem q').
Proof.
  intros Hr Hx Hnx. pose proof (rep_empty _ _ _ Hr) as He. destruct Hr as (Hnd & Hh & Ht & Hs).
  unfold push. rewrite He, Ht, Hh. erewrite set_next_Some by done. cbn [mbind option_bind].
  destruct (snoc_cases xs) as [->|(ys & t & ->)].
  - eexists. split; [done|]. split; [|cbn [mem]; eauto with sperm].
    by eapply rep_single; [apply lookup_insert_eq|..].
  - destruct (seg_lookup _ _ _ _ _ t Hs ltac:(set_solver)) as (nt & Hnt).
    assert (t <> x) by set_solver. rewrite bool_decide_eq_false_2 by (by destruct ys).
    rewrite last_snoc. step_heap. eexists. split; [done|]. split; [|cbn [mem]; eauto with sperm].
    apply NoDup_app in Hnd as Hnd'. destruct Hnd' as (_ & Hty & _).
    split; [by apply NoDup_snoc|]. split; [by destruct ys|].
    split; [by rewrite last_snoc|]. cbn [mem].
    rewrite seg_app. split.
    + simpl. eapply seg_set_next; [set_solver|by rewrite lookup_insert_ne by congruence|].
      rewrite seg_frame by done. done.
    + simpl. split; [|done]. eexists. rewrite lookup_insert_ne by congruence.
      by rewrite lookup_insert_eq.
Qed.

Lemma spush_front_spec q xs x nx :
  rep false q xs -> x ∉ xs -> mem q !! x = Some nx ->
  exists q', push_front q (Some x) = Some q' /\ rep false q' (x :: xs) /\
    agree_off [x] (mem q) (mem q').
Proof.
  intros Hr Hx Hnx. pose proof (rep_empty _ _ _ Hr) as He. destruct Hr as (Hnd & Hh & Ht & Hs).
  unfold push_front. rewrite He, Hh, Ht. destruct xs as [|y xs].
  - rewrite bool_decide_eq_true_2 by done. erewrite set_next_Some by done.
    eexists. split; [done|]. split; [|cbn [mem]; eauto with sperm].
    by eapply rep_single; [apply lookup_insert_eq|..].
  - rewrite bool_decide_eq_false_2 by done. erewrite set_next_Some by done.
    eexists. split; [done|]. split; [|cbn [mem]; eauto with sperm].
    split; [by constructor|]. split_and!; [done|by rewrite last_cons_cons|].
    cbn [seg mem]. rewrite lookup_insert_eq. split; [by eexists|].
    eapply (seg_frame false _ (Some x) (y :: xs)); [done|]. destruct Hs as [(n & ? & ? & ?) ?].
    split; [by exists n|done].
Qed.

Lemma spop_spec q x xs :
  rep false q (x :: xs) ->
  exists q' n, pop q = Some (Some x, q') /\ rep false q' xs /\ agree_off [x] (mem q) (mem q') /\
    mem q' !! x = Some n /\ next n = None.
Proof.
  intros (Hnd & Hh & Ht & (n & Hn & Hnx & _) & Hs). apply NoDup_cons in Hnd as [Hx Hnd].
  unfold pop. rewrite Hh. unfold load. cbn [mbind option_bind hd_error]. rewrite Hn.
  cbn [mbind option_bind]. erewrite set_next_Some by done. cbn [mbind option_bind].
  eexists _, _. split; [done|]. split; [|split; [cbn [mem]; eauto with sperm|cbn [mem]; by rewrite lookup_insert_eq]].
  rewrite Hnx, Ht. split; [done|]. cbn [mem head_ tail_]. split; [by destruct xs|]. split.
  - destruct xs as [|y xs]; [done|]. by rewrite last_cons_cons.
  - apply seg_frame; [done|]. destruct xs as [|y xs]; [done|].
    destruct Hs as [(m & ? & ? & ?) ?]. split; [by exists m|done].
Qed.

End SProps.

Module DProps.
Import DLinkedListQueue.

Lemma push_spec q xs x nx :
  rep true q xs -> x ∉ xs -> mem q !! x = Some nx ->
  exists q', push q (Some x) = Some q' /\ rep true q' (xs ++ [x]) /\ agree_off (x :: xs) (mem q) (mem q').
Proof.
  intros Hr Hx Hnx. pose proof (rep_empty _ _ _ Hr) as He. destruct Hr as (Hnd & Hh & Ht & Hs).
  unfold push. rewrite He, Ht, Hh. erewrite set_next_Some by done. cbn [mbind option_bind].
  destruct (snoc_cases xs) as [->|(ys & t & ->)].
  - rewrite bool_decide_eq_true_2 by done. step_heap. eexists. split; [done|].
    split; [|cbn [mem]; eauto with sperm]. by eapply rep_single; [apply lookup_insert_eq|..].
  - destruct (seg_lookup _ _ _ _ _ t Hs ltac:(set_solver)) as (nt & Hnt).
    assert (t <> x) by set_solver. rewrite bool_decide_eq_false_2 by (by destruct ys).
    rewrite last_snoc. step_heap. step_heap. eexists. split; [done|]. split; [|cbn [mem]; eauto 6 with sperm].
    split; [by apply NoDup_snoc|]. split; [by destruct ys|].
    split; [by rewrite last_snoc|]. cbn [mem].
    rewrite seg_app, seg_frame by done. split.
    + simpl. apply NoDup_app in Hnd as (_ & Hty & _).
      eapply seg_set_next; [set_solver|by rewrite lookup_insert_ne by congruence|].
      rewrite seg_frame by done. done.
    + simpl. split; [|done]. eexists. rewrite lookup_insert_eq.
      rewrite final_snoc. done.
Qed.

Lemma push_front_spec q xs x nx :
  rep true q xs -> x ∉ xs -> mem q !! x = Some nx ->
  exists q', push_front q (Some x) = Some q' /\ rep true q' (x :: xs) /\
    agree_off (x :: xs) (mem q) (mem q').
Proof.
  intros Hr Hx Hnx. pose proof (rep_empty _ _ _ Hr) as He. destruct Hr as (Hnd & Hh & Ht & Hs).
  unfold push_front. rewrite He, Hh, Ht. erewrite set_prev_Some by done. cbn [mbind option_bind].
  destruct xs as [|y xs].
  - rewrite bool_decide_eq_true_2 by done. step_heap. eexists. split; [done|].
    split; [|cbn [mem]; eauto with sperm]. by eapply rep_single; [apply lookup_insert_eq|..].
  - rewrite bool_decide_eq_false_2 by done. cbn [hd_error]. assert (y <> x) by set_solver.
    destruct (seg_lookup _ _ _ _ _ y Hs ltac:(set_solver)) as (ny & Hny).
    step_heap. step_heap. apply NoDup_cons in Hnd as Hnd'. destruct Hnd' as [Hy _].
    eexists. split; [done|]. split; [|cbn [mem]; eauto 6 with sperm].
    split; [by constructor|]. split_and!; [done|by rewrite last_cons_cons|].
    cbn [mem]. split.
    + eexists. rewrite lookup_insert_ne by congruence. by rewrite lookup_insert_eq.
    + eapply seg_set_prev; [done|by rewrite !lookup_insert_ne by congruence|].
      rewrite !seg_frame by done. done.
Qed.

Lemma pop_spec q x xs :
  rep true q (x :: xs) ->
  exists q', pop q = Some (Some x, q') /\ rep true q' xs /\ agree_off (x :: xs) (mem q) (mem q') /\
    mem q' !! x = Some (mk_node None None).
Proof.
  intros (Hnd & Hh & Ht & (n & Hn & Hnx & _) & Hs). apply NoDup_cons in Hnd as [Hx Hnd].
  unfold pop. rewrite Hh. unfold load. cbn [mbind option_bind hd_error]. rewrite Hn.
  cbn [mbind option_bind]. rewrite Hnx. destruct xs as [|y xs]; cbn [first mbind option_bind].
  - step_heap. step_heap. eexists. split; [done|]. split; [|split; [cbn [mem]; eauto with sperm|]].
    + repeat split. constructor.
    + cbn [mem]. by rewrite lookup_insert_eq.
  - destruct (seg_lookup _ _ _ _ _ y Hs ltac:(set_solver)) as (ny & Hny).
    assert (y <> x) by set_solver. apply NoDup_cons in Hnd as Hnd'. destruct Hnd' as [Hy _].
    step_heap. step_heap. step_heap. eexists. split; [done|]. split; [|split; [cbn [mem]; eauto 6 with sperm|]].
    + split; [done|]. split_and!; [done|by rewrite Ht, last_cons_cons|]. cbn [mem].
      rewrite !seg_frame by done. by eapply seg_set_prev.
    + cbn [mem]. by rewrite lookup_insert_eq.
Qed.

(** Removing a node from anywhere in the list, both ends included. *)
Lemma remove_spec q xs x ys :
  rep true q (xs ++ x :: ys) ->
  exists q', BlockingDLinkedList.remove q (Some x) = Some q' /\ rep true q' (xs ++ ys) /\
    agree_off (xs ++ x :: ys) (mem q) (mem q').
Proof.
  intros (Hnd & Hh & Ht & Hs). unfold BlockingDLinkedList.remove.
  pose proof Hs as (Hxs & (n & Hn & Hnx & Hp) & Hys)%seg_middle. specialize (Hp eq_refl).
  assert (x ∉ xs /\ x ∉ ys /\ NoDup (xs ++ ys)) as (Hx1 & Hx2 & Hnd2).
  { apply NoDup_app in Hnd as (? & Hd & [? ?]%NoDup_cons).
    split_and!; [set_solver|done|]. apply NoDup_app. set_solver. }
  rewrite Hh, Ht, head_mid, last_mid by done. unfold load. cbn [mbind option_bind].
  rewrite Hn. cbn [mbind option_bind]. rewrite Hnx, Hp.
  destruct (snoc_cases xs) as [->|(xs' & t & ->)].
  - rewrite bool_decide_eq_true_2 by done. cbn [app andb].
    destruct ys as [|b ys]; [eexists; split; [done|]; split; [|done]; repeat split; constructor|].
    rewrite bool_decide_eq_false_2 by done. cbn [first].
    destruct (seg_lookup _ _ _ _ _ b Hys ltac:(set_solver)) as (nb & Hb).
    step_heap. eexists. split; [done|]. split; [|cbn [mem]; eauto 6 with sperm].
    split; [done|]. cbn [app] in *. split_and!; [done|by rewrite last_cons_cons|].
    apply NoDup_cons in Hnd2 as [Hb2 _]. by eapply seg_set_prev.
  - rewrite (bool_decide_eq_false_2 (xs' ++ [t] = [])) by (by destruct xs').
    rewrite final_snoc. cbn [andb].
    destruct (seg_lookup _ _ _ _ _ t Hxs ltac:(set_solver)) as (nt & Hnt).
    apply NoDup_app in Hnd2 as Hnd3. destruct Hnd3 as ((_ & Htx & _)%NoDup_app & Hxy & Hndy).
    assert (t <> x /\ t ∉ xs') as [? ?] by set_solver.
    destruct ys as [|b ys].
    + rewrite bool_decide_eq_true_2 by done. step_heap. eexists. split; [done|].
      split; [|cbn [mem]; eauto 6 with sperm].
      rewrite app_nil_r in *. split; [done|]. split_and!; [by destruct xs'|by rewrite last_snoc|].
      by eapply seg_set_next.
    + rewrite bool_decide_eq_false_2 by done. cbn [first]. step_heap.
      rewrite lookup_insert_ne, Hn by congruence. cbn [mbind option_bind]. rewrite Hnx, Hp, final_snoc.
      cbn [first]. assert (t <> b /\ t ∉ ys) as [? ?] by set_solver.
      destruct (seg_lookup _ _ _ _ _ b Hys ltac:(set_solver)) as (nb & Hb).
      step_heap. eexists. split; [done|]. split; [|cbn [mem]; eauto 6 with sperm].
      split; [done|]. split_and!; [by destruct xs'| |].
      { rewrite !last_app, last_cons_cons. done. }
      cbn [mem]. rewrite seg_app, seg_frame by set_solver. split.
      * by eapply seg_set_next.
      * rewrite final_snoc. apply NoDup_cons in Hndy as [? _].
        eapply seg_set_prev; [done|by rewrite lookup_insert_ne by congruence|].
        rewrite seg_frame by set_solver. done.
Qed.

End DProps.

(** ** Whole runs *)

Lemma set_next_dom (h h' : heap) p v : set_next h p v = Some h' -> dom h' = dom h.
Proof.
  unfold set_next. intros H. bind_inv. simplify_eq. rewrite dom_insert_L.
  apply elem_of_dom_2 in H0. set_solver.
Qed.

Lemma set_prev_dom (h h' : heap) p v : set_prev h p v = Some h' -> dom h' = dom h.
Proof.
  unfold set_prev. intros H. bind_inv. simplify_eq. rewrite dom_insert_L.
  apply elem_of_dom_2 in H0. set_solver.
Qed.

#[local] Arguments set_next : simpl never.
#[local] Arguments set_prev : simpl never.
Ltac dom_solve :=
  intros; bind_inv;
  repeat match goal with
  | H : (if ?b then _ else _) = Some _ |- _ => destruct b
  | H : match ?x with Some _ => _ | None => _ end = Some _ |- _ => destruct x
  | _ => progress (bind_inv; simplify_eq/=)
  end;
  repeat match goal with
  | H : set_next _ _ _ = Some _ |- _ => apply set_next_dom in H
  | H : set_prev _ _ _ = Some _ |- _ => apply set_prev_dom in H
  end; congruence.

(** The operations of a doubly linked queue. *)
Inductive op :=
| Push (x : loc) | PushFront (x : loc) | Pop | Remove (x : loc) | Clear
| Replace (o n : loc).

(** What the code does: the node handed out, if any, and the queue. *)
Definition run_op (o : op) (q : queue) : option (option loc * queue) :=
  match o with
  | Push x => q ← DLinkedListQueue.push q (Some x); Some (None, q)
  | PushFront x => q ← DLinkedListQueue.push_front q (Some x); Some (None, q)
  | Pop => DLinkedListQueue.pop q
  | Remove x => q ← BlockingDLinkedList.remove q (Some x); Some (None, q)
  | Clear => let '(x, q) := BlockingDLinkedList.clear q in Some (x, q)
  | Replace o n => q ← DLinkedListQueue.replace q (Some o) (Some n); Some (None, q)
  end.

Fixpoint run (os : list op) (q : queue) : option (list (option loc) * queue) :=
  match os with
  | [] => Some ([], q)
  | o :: os => '(r, q) ← run_op o q; '(rs, q) ← run os q; Some (r :: rs, q)
  end.

(** What it means: a list without duplicates. [None] for a use outside the
    contract: pushing a node that is in the list, popping the empty list,
    removing or replacing a node that is not there, replacing the first or the
    last node (the code leaves [head_] and [tail_] behind). *)
Definition spec_op (o : op) (xs : list loc) : option (option loc * list loc) :=
  match o with
  | Push x => if decide (x ∈ xs) then None else Some (None, xs ++ [x])
  | PushFront x => if decide (x ∈ xs) then None else Some (None, x :: xs)
  | Pop => match xs with [] => None | x :: xs => Some (Some x, xs) end
  | Remove x => if decide (x ∈ xs) then Some (None, filter (fun y => y <> x) xs) else None
  | Clear => Some (head xs, [])
  | Replace o n =>
      if bool_decide (o ∈ xs /\ n ∉ xs /\ head xs <> Some o /\ last xs <> Some o)
      then Some (None, map (fun y => if decide (y = o) then n else y) xs) else None
  end.

Fixpoint spec_run (os : list op) (xs : list loc) : option (list (option loc) * list loc) :=
  match os with
  | [] => Some ([], xs)
  | o :: os => '(r, xs) ← spec_op o xs; '(rs, xs) ← spec_run os xs; Some (r :: rs, xs)
  end.

(** The nodes an operation mentions exist. *)
Definition op_ok (h : heap) (o : op) : Prop :=
  match o with
  | Push x | PushFront x | Remove x | Replace _ x => x ∈ dom h
  | _ => True
  end.

Lemma run_op_dom o q r q' : run_op o q = Some (r, q') -> dom (mem q') = dom (mem q).
Proof.
  destruct o; cbn [run_op]; unfold DLinkedListQueue.push, DLinkedListQueue.push_front,
    DLinkedListQueue.pop, DLinkedListQueue.replace, BlockingDLinkedList.remove, load; dom_solve.
Qed.

Lemma filter_middle (xs ys : list loc) x :
  x ∉ xs -> x ∉ ys -> filter (fun y => y <> x) (xs ++ x :: ys) = xs ++ ys.
Proof.
  intros Hx Hy. rewrite filter_app, filter_cons_False by auto.
  assert (forall zs : list loc, x ∉ zs -> filter (fun y => y <> x) zs = zs) as Hf.
  { intros zs Hz. induction zs as [|z zs IH]; [done|].
    rewrite filter_cons_True, IH by set_solver. done. }
  by rewrite !Hf.
Qed.

Lemma map_middle (xs ys : list loc) o n :
  o ∉ xs -> o ∉ ys ->
  map (fun y => if decide (y = o) then n else y) (xs ++ o :: ys) = xs ++ n :: ys.
Proof.
  intros Hx Hy. rewrite map_app. cbn [map]. rewrite decide_True by done.
  assert (forall zs : list loc, o ∉ zs -> map (fun y => if decide (y = o) then n else y) zs = zs) as Hf.
  { intros zs Hz. induction zs as [|z zs IH]; [done|].
    cbn [map]. rewrite decide_False, IH by set_solver. done. }
  by rewrite !Hf.
Qed.

(** A node that is neither the first nor the last has two neighbours. *)
Lemma inner_split (xs : list loc) o :
  o ∈ xs -> head xs <> Some o -> last xs <> Some o ->
  exists ys a b zs, xs = ys ++ a :: o :: b :: zs.
Proof.
  intros (ys & zs & ->)%list_elem_of_split Hh Hl.
  destruct (snoc_cases ys) as [->|(ys' & a & ->)]; [done|].
  destruct zs as [|b zs]; [by rewrite last_snoc in Hl|].
  exists ys', a, b, zs. by rewrite <- (assoc_L (++)).
Qed.

(** In the middle of the list [replace] puts the new node in the place of the
    old one. *)
Lemma replace_middle q xs a o b ys n nn :
  rep true q (xs ++ a :: o :: b :: ys) -> n ∉ xs ++ a :: o :: b :: ys -> mem q !! n = Some nn ->
  exists q', DLinkedListQueue.replace q (Some o) (Some n) = Some q' /\
    rep true q' (xs ++ a :: n :: b :: ys).
Proof.
  intros (Hnd & Hh & Ht & Hs) Hn Hnn.
  pose proof Hs as (Hxs & (na & Hna & Hnxa & Hpa) & Hs2)%seg_middle. specialize (Hpa eq_refl).
  destruct Hs2 as [(no & Hno & Hnxo & Hpo) [(nb & Hnb & Hnxb & Hpb) Hys]].
  specialize (Hpo eq_refl). specialize (Hpb eq_refl). cbn [first] in *.
  apply NoDup_app in Hnd as (Hnd1 & Hd & Hnd2).
  apply NoDup_cons in Hnd2 as [Ha Hnd2]. apply NoDup_cons in Hnd2 as [Ho Hnd3].
  apply NoDup_cons in Hnd3 as [Hb Hnd4].
  assert (a <> o /\ a <> b /\ o <> b /\ n <> a /\ n <> b /\ n <> o) as (?&?&?&?&?&?) by set_solver.
  unfold DLinkedListQueue.replace, load. cbn [mbind option_bind]. rewrite Hno.
  cbn [mbind option_bind]. rewrite Hpo. step_heap. rewrite lookup_insert_ne, Hno by congruence.
  cbn [mbind option_bind]. rewrite Hpo. step_heap.
  rewrite !lookup_insert_ne, Hno by congruence. cbn [mbind option_bind]. rewrite Hnxo. step_heap.
  rewrite !lookup_insert_ne, Hno by congruence. cbn [mbind option_bind]. rewrite Hnxo. step_heap.
  eexists. split; [done|]. split; [|split; [by destruct xs|split]].
  - apply NoDup_app. split; [done|]. split; [set_solver|].
    apply NoDup_cons. split; [set_solver|]. apply NoDup_cons. split; [set_solver|by apply NoDup_cons].
  - cbn [tail_]. rewrite Ht, !last_app, !last_cons_cons. done.
  - cbn [mem]. apply seg_middle. split; [rewrite !seg_frame by set_solver; done|]. split.
    { eexists. rewrite !lookup_insert_ne by congruence. rewrite lookup_insert_eq. done. }
    cbn [seg first]. split; [eexists; rewrite lookup_insert_eq; done|]. split.
    { eexists. rewrite lookup_insert_ne by congruence. rewrite lookup_insert_eq. done. }
    rewrite !seg_frame by set_solver. done.
Qed.

Lemma run_op_refines o q xs r xs' :
  rep true q xs -> op_ok (mem q) o -> spec_op o xs = Some (r, xs') ->
  exists q', run_op o q = Some (r, q') /\ rep true q' xs'.
Proof.
  intros Hr Hok Hs. destruct o as [x|x| |x| |o n]; cbn [spec_op op_ok run_op] in *.
  - case_decide; simplify_eq. apply elem_of_dom in Hok as [n Hn].
    destruct (DProps.push_spec q xs x n) as (q' & -> & ? & _); [done..|]. by exists q'.
  - case_decide; simplify_eq. apply elem_of_dom in Hok as [n Hn].
    destruct (DProps.push_front_spec q xs x n) as (q' & -> & ? & _); [done..|]. by exists q'.
  - destruct xs as [|x xs]; simplify_eq.
    destruct (DProps.pop_spec q x xs') as (q' & -> & ? & _); [done|]. by exists q'.
  - case_decide as Hx; simplify_eq. apply list_elem_of_split in Hx as (ys & zs & ->).
    destruct (DProps.remove_spec q ys x zs) as (q' & -> & ? & _); [done|]. exists q'.
    destruct Hr as ((_ & Hd & [? ?]%NoDup_cons)%NoDup_app & _).
    rewrite filter_middle by set_solver. done.
  - simplify_eq. destruct Hr as (_ & Hh & _). unfold BlockingDLinkedList.clear.
    eexists. rewrite Hh. split; [done|]. apply make_rep.
  - case_bool_decide as Hc; simplify_eq. destruct Hc as (Hin & Hn & Hh & Hl).
    destruct (inner_split xs o Hin Hh Hl) as (ys & a & b & zs & ->).
    apply elem_of_dom in Hok as [nn Hnn].
    destruct (replace_middle q ys a o b zs n nn Hr Hn Hnn) as (q' & -> & Hr'). exists q'.
    split; [done|].
    destruct Hr as ((_ & Hd & [Ha [Ho _]%NoDup_cons]%NoDup_cons)%NoDup_app & _).
    change (ys ++ a :: o :: b :: zs) with (ys ++ [a] ++ o :: b :: zs).
    rewrite (assoc_L (++)), map_middle, <- (assoc_L (++)) by set_solver. done.
Qed.

(** C12: Refinement: any sequence of operations that is legal on the list runs on
    the heap without undefined behaviour, hands out the same nodes, and ends in
    a queue that holds the list. *)
Theorem dlist_refines_list h os rs xs :
  Forall (op_ok h) os -> spec_run os [] = Some (rs, xs) ->
  exists q, run os (make h) = Some (rs, q) /\ rep true q xs.
Proof.
  intros Hok. assert (forall q ys, dom (mem q) = dom h -> rep true q ys ->
    spec_run os ys = Some (rs, xs) -> exists q', run os q = Some (rs, q') /\ rep true q' xs) as H;
    [|intros; eapply H; [done|apply make_rep|done]].
  revert rs. induction Hok as [|o os Ho _ IH]; intros rs q ys Hd Hr Hs; cbn [run spec_run] in *.
  { simplify_eq. by exists q. }
  bind_inv. destruct x as [r ys']. bind_inv. destruct x as [rs' xs']. simplify_eq.
  destruct (run_op_refines o q ys r ys') as (q1 & Hq1 & Hr1); [done| |done|].
  { destruct o; simpl in *; rewrite ?Hd; done. }
  rewrite Hq1. cbn [mbind option_bind].
  destruct (IH rs' q1 ys') as (q2 & Hq2 & Hr2); [|done|done|].
  { by rewrite (run_op_dom _ _ _ _ Hq1). }
  exists q2. by rewrite Hq2.
Qed.

Example dlist_refines_list_witness :
  let h : heap := {[ 1%positive := mk_node None None; 2%positive := mk_node None None;
    3%positive := mk_node None None; 4%positive := mk_node None None ]} in
  exists q, run [Push 1; Push 2; PushFront 3; Replace 1 4; Pop; Remove 2] (make h) =
    Some ([None; None; None; None; Some 3%positive; None], q) /\ rep true q [4%positive].
Proof.
  intros h. apply (dlist_refines_list h); [|done].
  repeat constructor; simpl; apply elem_of_dom; eexists; done.
Defined.

(** The singly linked queue: pushes and pops. *)
Definition srun_op (o : op) (q : queue) : option (option loc * queue) :=
  match o with
  | Push x => q ← SLinkedListQueue.push q (Some x); Some (None, q)
  | PushFront x => q ← SLinkedListQueue.push_front q (Some x); Some (None, q)
  | Pop => SLinkedListQueue.pop q
  | Remove _ | Replace _ _ => None
  | Clear => let '(x, q) := BlockingDLinkedList.clear q in Some (x, q)
  end.

Lemma srun_op_refines o q xs r xs' :
  rep false q xs -> op_ok (mem q) o -> (forall x, o <> Remove x) ->
  (forall x n, o <> Replace x n) -> spec_op o xs = Some (r, xs') ->
  exists q', srun_op o q = Some (r, q') /\ rep false q' xs'.
Proof.
  intros Hr Hok Hno Hno' Hs. destruct o as [x|x| |x| |x n]; cbn [spec_op op_ok srun_op] in *.
  - case_decide; simplify_eq. apply elem_of_dom in Hok as [n Hn].
    destruct (SProps.spush_spec q xs x n) as (q' & -> & ? & _); [done..|]. by exists q'.
  - case_decide; simplify_eq. apply elem_of_dom in Hok as [n Hn].
    destruct (SProps.spush_front_spec q xs x n) as (q' & -> & ? & _); [done..|]. by exists q'.
  - destruct xs as [|x xs]; simplify_eq.
    destruct (SProps.spop_spec q x xs') as (q' & n & -> & ? & _); [done|]. by exists q'.
  - by destruct (Hno x).
  - simplify_eq. destruct Hr as (_ & Hh & _). unfold BlockingDLinkedList.clear.
    eexists. rewrite Hh. split; [done|]. apply make_rep.
  - by destruct (Hno' x n).
Qed.

(** [pop] does not test for the empty queue: it dereferences NULL. *)
Lemma pop_empty h : DLinkedListQueue.pop (make h) = None /\ SLinkedListQueue.pop (make h) = None.
Proof. done. Qed.

(** ** replace at the ends *)

(** At the front of the list [replace] leaves [head_] on the old node: the next
    [pop] hands out the node that was replaced, and the new node is lost. *)
Theorem replace_head_stale q o b ys n nn :
  rep true q (o :: b :: ys) -> n ∉ o :: b :: ys -> mem q !! n = Some nn ->
  exists q' q'', DLinkedListQueue.replace q (Some o) (Some n) = Some q' /\
    DLinkedListQueue.pop q' = Some (Some o, q'') /\ head_ q'' = Some b.
Proof.
  intros (Hnd & Hh & Ht & Hs) Hn Hnn.
  destruct Hs as [(no & Hno & Hnxo & Hpo) [(nb & Hnb & Hnxb & Hpb) Hys]].
  specialize (Hpo eq_refl). specialize (Hpb eq_refl). cbn [first] in *.
  apply NoDup_cons in Hnd as [Ho _]. assert (o <> b /\ n <> b /\ n <> o) as (?&?&?) by set_solver.
  unfold DLinkedListQueue.replace, load. cbn [mbind option_bind]. rewrite Hno.
  cbn [mbind option_bind]. rewrite Hpo. cbn [mbind option_bind]. rewrite Hno. cbn [mbind option_bind].
  step_heap. rewrite !lookup_insert_ne, Hno by congruence. cbn [mbind option_bind]. rewrite Hnxo.
  step_heap. rewrite !lookup_insert_ne, Hno by congruence. cbn [mbind option_bind]. rewrite Hnxo.
  step_heap. eexists _, _. split; [done|]. unfold DLinkedListQueue.pop, load. cbn [head_ mem].
  rewrite Hh. cbn [hd_error mbind option_bind]. rewrite !lookup_insert_ne, Hno by congruence.
  cbn [mbind option_bind]. rewrite Hnxo. step_heap. step_heap. step_heap. done.
Qed.

Example replace_head_stale_witness :
  let h : heap := {[ 1%positive := mk_node (Some 2%positive) None;
    2%positive := mk_node None (Some 1%positive); 3%positive := mk_node None None ]} in
  let q := mk h (Some 1%positive) (Some 2%positive) in
  exists q' q'', DLinkedListQueue.replace q (Some 1%positive) (Some 3%positive) = Some q' /\
    DLinkedListQueue.pop q' = Some (Some 1%positive, q'') /\ head_ q'' = Some 2%positive.
Proof.
  intros h q. apply (replace_head_stale q 1 2 [] 3 (mk_node None None)); [|set_solver|done].
  split; [|split; [done|split; [done|]]].
  - apply NoDup_cons. split; [set_solver|apply NoDup_singleton].
  - split; [by eexists|]. split; [by eexists|done].
Defined.
