(* ===== verification/Monitor.v ===== *)
(** * Monitor: threads over one MutexLock and its Conditions

    The blocking queues of common/queue.h share one shape: a method takes the
    lock with a [LockGuard], waits on a condition in a [while] loop, asserts
    that the loop's test no longer holds, acts on the queue, notifies, and
    releases the lock on return; a timed wait that fails returns early. [Class]
    is that shape; the instances are in [Queue.v]. The step relation runs any
    number of threads, with spurious wake-ups, and a notification goes to any
    one waiting thread. *)

From S2P Require Import Prelude Utils Lock Cond.

(** ** The shape of a class

    [M] are the calls of its methods, [R] their results, [Q] the data the lock
    protects, [C] the names of its conditions. *)
Class Monitor (M R Q C : Type) := {
  (** The [while] loop in front of the body: the test and the condition. *)
  blocked : M -> Q -> bool;
  waits_on : M -> C;
  (** The statements after the loop; [None] is a failing assertion or
      undefined behaviour. *)
  body : M -> Q -> option (R * Q);
  (** The condition notified by the body. *)
  notifies : M -> option C;
  (** The result of a method whose timed wait fails. *)
  timed_out : M -> R;
  (** The argument [wait_ms]; -1 for a method without one. *)
  wait_ms : M -> Z;
}.

Section monitor.
Context {M R Q C : Type} `{!EqDecision C} `{!Monitor M R Q C}.

(** Where a thread is; [ret] is what pthread_cond_(timed)wait will return
    once the lock is taken again. *)
Inductive pc :=
| Idle
| Calling (m : M)
| Inside (m : M)
| Waiting (c : C) (m : M)
| Awake (m : M) (ret : Z).

Record state := mk { data : Q; owner : option nat; pcs : list pc }.

Definition init (q : Q) (threads : nat) : state := mk q None (replicate threads Idle).

(** A completed call: the thread, the call, its result, and whether it gave
    up on a timeout. *)
Record event := mk_event { who : nat; call : M; result : R; gave_up : bool }.

(** [Condition::notify]: one of the threads waiting on [c] gets to run, or
    nothing happens when there is none. *)
Inductive signal : option C -> list pc -> list pc -> Prop :=
| signal_none ps : signal None ps ps
| signal_one c ps j m :
    ps !! j = Some (Waiting c m) -> signal (Some c) ps (<[j := Awake m 0]> ps)
| signal_nobody c ps :
    (forall j m, ps !! j <> Some (Waiting c m)) -> signal (Some c) ps ps.

Inductive step : state -> option event -> state -> Prop :=
| st_call q o ps t m :
    ps !! t = Some Idle -> step (mk q o ps) None (mk q o (<[t := Calling m]> ps))
| st_lock q ps t m :
    ps !! t = Some (Calling m) ->
    step (mk q None ps) None (mk q (Some t) (<[t := Inside m]> ps))
| st_wait q ps t m :
    ps !! t = Some (Inside m) -> blocked m q = true ->
    step (mk q (Some t) ps) None (mk q None (<[t := Waiting (waits_on m) m]> ps))
| st_spurious q o ps t c m :
    ps !! t = Some (Waiting c m) -> step (mk q o ps) None (mk q o (<[t := Awake m 0]> ps))
| st_timeout q o ps t c m :
    ps !! t = Some (Waiting c m) -> wait_ms m <> -1 ->
    step (mk q o ps) None (mk q o (<[t := Awake m ETIMEDOUT]> ps))
| st_relock q ps t m ret :
    ps !! t = Some (Awake m ret) ->
    (if wait_ms m =? -1 then Condition.wait ret = Some tt
     else Condition.timedWait ret = Some true) ->
    step (mk q None ps) None (mk q (Some t) (<[t := Inside m]> ps))
| st_give_up q ps t m ret :
    ps !! t = Some (Awake m ret) -> wait_ms m <> -1 -> Condition.timedWait ret = Some false ->
    step (mk q None ps) (Some (mk_event t m (timed_out m) true)) (mk q None (<[t := Idle]> ps))
| st_body q ps t m r q' ps' :
    ps !! t = Some (Inside m) -> blocked m q = false -> body m q = Some (r, q') ->
    signal (notifies m) (<[t := Idle]> ps) ps' ->
    step (mk q (Some t) ps) (Some (mk_event t m r false)) (mk q' None ps').

(** A thread inside whose body cannot run: a failed assertion or undefined
    behaviour. *)
Definition crashes (s : state) : Prop :=
  exists t m, pcs s !! t = Some (Inside m) /\ blocked m (data s) = false /\
    body m (data s) = None.

(** ** Exclusion *)

Definition excl (s : state) : Prop :=
  forall t m, pcs s !! t = Some (Inside m) -> owner s = Some t.

Lemma signal_inside c ps ps' t m :
  signal c ps ps' -> ps' !! t = Some (Inside m) -> ps !! t = Some (Inside m).
Proof.
  destruct 1 as [|c ps j n Hj|]; [done| |done].
  rewrite list_lookup_insert_Some. intros [(? & ? & ?)|[? ?]]; done.
Qed.

Lemma step_excl s l s' : excl s -> step s l s' -> excl s'.
Proof.
  intros He Hs. destruct Hs; intros u n; simpl in *;
    try (rewrite list_lookup_insert_Some; intros [(? & ? & ?)|[? Hu]]; simplify_eq/=;
         try done; specialize (He u n Hu); simpl in *; congruence).
  intros Hu. eapply signal_inside in Hu; [|done].
  rewrite list_lookup_insert_Some in Hu. destruct Hu as [(? & ? & ?)|[? Hu]]; [done|].
  specialize (He u n Hu). simpl in *. congruence.
Qed.

Lemma init_excl q n : excl (init q n).
Proof. intros t m. simpl. intros [? _]%lookup_replicate_1. done. Qed.

(** ** Linearizability

    The calls of a class, one at a time: each returns what its body computes
    when it is not blocked, or gives up without an effect. *)
Definition seq_event (q : Q) (e : event) : option Q :=
  if gave_up e then
    if negb (wait_ms (call e) =? -1) then Some q else None
  else
    if blocked (call e) q then None
    else '(_, q) ← body (call e) q; Some q.

Definition event_result (q : Q) (e : event) (r : R) : Prop :=
  if gave_up e then r = timed_out (call e) else exists q', body (call e) q = Some (r, q').

Inductive seq_run : Q -> list event -> Q -> Prop :=
| seq_nil q : seq_run q [] q
| seq_cons q e es q1 q2 :
    seq_event q e = Some q1 -> event_result q e (result e) -> seq_run q1 es q2 ->
    seq_run q (e :: es) q2.

Lemma step_data s l s' :
  step s l s' ->
  match l with
  | None => data s' = data s
  | Some e => seq_event (data s) e = Some (data s') /\ event_result (data s) e (result e)
  end.
Proof.
  destruct 1; simpl; try done; unfold seq_event, event_result; simpl.
  - zfalse (wait_ms m =? -1). done.
  - rewrite H0, H1. simpl. eauto.
Qed.

(** The completed calls, in the order in which they held the lock, are a
    sequential run of the class that ends in the current data. *)
Lemma run_linearizable s es s' : steps step s es s' -> seq_run (data s) es (data s').
Proof.
  induction 1 as [s|s1 s2 s3 es Hs _ IH|s1 e s2 s3 es Hs _ IH]; [constructor| |].
  - apply step_data in Hs. by rewrite <- Hs.
  - apply step_data in Hs as [? ?]. by econstructor.
Qed.

Lemma seq_run_app q es1 es2 q' :
  seq_run q (es1 ++ es2) q' -> exists q1, seq_run q es1 q1 /\ seq_run q1 es2 q'.
Proof.
  revert q. induction es1 as [|e es1 IH]; intros q Hs; [exists q; split; [constructor|done]|].
  inversion Hs as [|? ? ? q1 ? H1 H2 Hs']; subst. destruct (IH _ Hs') as (q2 & ? & ?).
  exists q2. split; [by econstructor|done].
Qed.

Lemma seq_event_body q e q' :
  seq_event q e = Some q' -> event_result q e (result e) -> gave_up e = false ->
  blocked (call e) q = false /\ body (call e) q = Some (result e, q').
Proof.
  unfold seq_event, event_result. intros H1 H2 Hg. rewrite Hg in *.
  destruct (blocked (call e) q); [done|]. destruct H2 as [q2 H2]. rewrite H2 in H1.
  by simplify_eq/=.
Qed.

(** ** Data invariants *)

(** What every body preserves holds along a sequential run. *)
Lemma seq_run_invariant (I : Q -> Prop) q es q' :
  (forall m q r q', I q -> blocked m q = false -> body m q = Some (r, q') -> I q') ->
  I q -> seq_run q es q' -> I q'.
Proof.
  intros Hb Hq Hs. revert Hq. induction Hs as [q|q e es q1 q2 H1 H2 _ IH]; [done|].
  intros Hq. apply IH. destruct (gave_up e) eqn:Hg.
  - unfold seq_event in H1. rewrite Hg in H1. by destruct (negb _); simplify_eq.
  - destruct (seq_event_body q e q1 H1 H2 Hg) as [? ?]. by eapply Hb.
Qed.

(** A property of the data that every body preserves, and under which no
    body fails, holds in every reachable state, and no reachable state
    crashes. *)
Lemma run_safe (I : Q -> Prop) q n es s :
  (forall m q, I q -> blocked m q = false -> exists r q', body m q = Some (r, q') /\ I q') ->
  I q -> steps step (init q n) es s -> I (data s) /\ ~ crashes s.
Proof.
  intros Hb Hq Hs. assert (I (data s)) as Hi.
  { refine (steps_invariant step (fun s => I (data s)) (init q n) es s _ Hq Hs).
    intros a l b Ha Hst. destruct Hst; simpl in *; try done.
    destruct (Hb m q0 Ha H0) as (r' & q'' & He & ?). congruence. }
  split; [done|]. intros (t & m & _ & Hf & Hn). destruct (Hb m _ Hi Hf) as (? & ? & ? & _). congruence.
Qed.

(** ** Wake-ups

    [supply c q] counts what the waiters on [c] are waiting for. A method is
    [about c] when it waits on [c]; the threads that are awake on their way
    to test the loop of a method about [c] are [active]. *)
Context (supply : C -> Q -> Z) (about : C -> M -> bool).

Definition waiting (c : C) (p : pc) : Z :=
  match p with Waiting d _ => if decide (d = c) then 1 else 0 | _ => 0 end.
Definition active (c : C) (p : pc) : Z :=
  match p with
  | Inside m => if about c m then 1 else 0
  | Awake m ret => if about c m && negb (ret =? ETIMEDOUT) then 1 else 0
  | _ => 0
  end.

(** If anybody sleeps on [c], there are at least as many threads on their way
    to the supply as there is supply: nobody is needed from the sleepers. *)
Definition served (c : C) (s : state) : Prop :=
  0 < cnt (waiting c) (pcs s) -> supply c (data s) <= cnt (active c) (pcs s).

(** What the wake-up discipline needs from a class: a method is about the
    condition it waits on, and waits only when there is nothing; a body adds
    at most one to a supply, and then notifies; a method about a condition
    takes at least one. *)
Class Disciplined := {
  about_only c m : about c m = true -> c = waits_on m;
  blocked_about m q : blocked m q = true -> about (waits_on m) m = true;
  blocked_empty m q : blocked m q = true -> supply (waits_on m) q <= 0;
  body_supply c m q r q' :
    blocked m q = false -> body m q = Some (r, q') ->
    supply c q' <= supply c q + (if decide (notifies m = Some c) then 1 else 0)
                   - (if about c m then 1 else 0);
}.

Context `{!Disciplined}.

Definition placed (s : state) : Prop :=
  forall t c m, pcs s !! t = Some (Waiting c m) -> c = waits_on m /\ about c m = true.

Lemma signal_waiting o ps ps' t c m :
  signal o ps ps' -> ps' !! t = Some (Waiting c m) -> ps !! t = Some (Waiting c m).
Proof.
  destruct 1 as [|d ps j n Hj|]; [done| |done].
  rewrite list_lookup_insert_Some. intros [(? & ? & ?)|[? ?]]; done.
Qed.

Lemma step_placed s l s' : placed s -> step s l s' -> placed s'.
Proof.
  intros Hp Hs. destruct Hs; intros u c' n; simpl in *;
    try (rewrite list_lookup_insert_Some; intros [(? & ? & ?)|[? Hu]]; simplify_eq/=;
         try done; try (by eapply Hp); try (split; [done|by eapply blocked_about])).
  intros Hu.
  match goal with H : signal _ _ _ |- _ => apply (signal_waiting _ _ _ _ _ _ H) in Hu end.
  rewrite list_lookup_insert_Some in Hu. destruct Hu as [(? & ? & ?)|[? Hu]]; [done|].
  by eapply Hp.
Qed.

Lemma waiting_nonneg c p : 0 <= waiting c p.
Proof. destruct p; simpl; repeat case_decide; lia. Qed.
Lemma active_nonneg c p : 0 <= active c p.
Proof. destruct p; simpl; try case_match; lia. Qed.

(** What a notification does to the counts. *)
Lemma signal_counts o ps ps' c :
  (forall t m, ps !! t = Some (Waiting c m) -> about c m = true) ->
  signal o ps ps' -> 0 < cnt (waiting c) ps' ->
  cnt (active c) ps + (if decide (o = Some c) then 1 else 0) <= cnt (active c) ps' /\
  0 < cnt (waiting c) ps.
Proof.
  intros Hab. destruct 1 as [ps|d ps j m Hj|d ps Hno]; intros Hw.
  - rewrite decide_False by done. lia.
  - rewrite !(cnt_insert _ ps j _ _ Hj) in *. simpl in *. destruct (decide (d = c)) as [->|Hd].
    + rewrite (Hab j m Hj). simpl. rewrite decide_True by done. lia.
    + rewrite (decide_False (P := Some d = Some c)) by congruence.
      destruct (about c m && _); lia.
  - destruct (decide (Some d = Some c)) as [[= ->]|]; [|lia].
    destruct (cnt_pos (waiting c) ps) as (j & p & Hj & Hp); [apply waiting_nonneg|done|].
    destruct p as [| | |d' m|]; simpl in Hp; try lia. case_decide; [subst|lia].
    by destruct (Hno j m).
Qed.

Lemma step_served s l s' c : placed s -> served c s -> step s l s' -> served c s'.
Proof.
  intros Hpl Hsv Hs. unfold served in *.
  destruct Hs as [q o ps t m Ht|q ps t m Ht|q ps t m Ht Hb|q o ps t d m Ht|q o ps t d m Ht _
    |q ps t m ret Ht Hret|q ps t m ret Ht _ Hret|q ps t m r q' ps' Ht Hb Hbody Hsig]; simpl in *;
    try (rewrite !(cnt_insert _ ps t _ _ Ht); simpl in *).
  - lia.
  - destruct (about c m); lia.
  - case_decide as Hd.
    + subst. pose proof (blocked_empty m q Hb). pose proof (blocked_about m q Hb) as ->.
      pose proof (cnt_lookup (active (waits_on m)) ps t _ (active_nonneg _) Ht) as Hl.
      simpl in Hl. rewrite (blocked_about m q Hb) in Hl. lia.
    + destruct (about c m) eqn:Ha; [by apply about_only in Ha|]. lia.
  - repeat case_decide; destruct (about c m); simpl; lia.
  - repeat case_decide; destruct (about c m); simpl; lia.
  - destruct (about c m); simpl; [|lia]. destruct (negb (ret =? ETIMEDOUT)); lia.
  - unfold Condition.timedWait in Hret. destruct (ret =? ETIMEDOUT) eqn:E.
    + rewrite andb_comm. simpl. lia.
    + simpl in Hret. destruct (ret <? 0); done.
  - intros Hw. pose proof (body_supply c m q r q' Hb Hbody).
    assert (forall u n, <[t := Idle]> ps !! u = Some (Waiting c n) -> about c n = true) as Hab.
    { intros u n Hu. apply list_lookup_insert_Some in Hu as [(? & ? & ?)|[? Hu]]; [done|].
      by eapply Hpl. }
    destruct (signal_counts _ _ _ c Hab Hsig Hw) as [Hact Hpos].
    rewrite (cnt_insert (active c) ps t _ _ Ht) in Hact.
    rewrite (cnt_insert (waiting c) ps t _ _ Ht) in Hpos. simpl in *. specialize (Hsv ltac:(lia)). lia.
Qed.

(** While anybody sleeps on [c], as many threads as there is supply are on their
    way to it. *)
Lemma run_served q n es s t c m :
  steps step (init q n) es s -> pcs s !! t = Some (Waiting c m) ->
  supply c (data s) <= cnt (active c) (pcs s).
Proof.
  intros Hs Ht.
  assert (placed s /\ served c s) as [_ Hsv].
  { refine (steps_invariant step (fun s => placed s /\ served c s) (init q n) es s _ _ Hs).
    - intros a l b [Hp Hv] Hst. split; [by eapply step_placed|by eapply step_served].
    - split; [intros u d n0 [? _]%lookup_replicate_1; done|].
      unfold served. simpl. rewrite !cnt_replicate. simpl. lia. }
  apply Hsv.
  pose proof (cnt_lookup (waiting c) (pcs s) t _ (waiting_nonneg c) Ht) as Hw. simpl in Hw.
  rewrite decide_True in Hw by done. lia.
Qed.

(** A sleeper with supply is never forgotten: some thread is on its way to
    test the loop of a method about the same condition. *)
Lemma run_no_lost_wakeup q n es s t c m :
  steps step (init q n) es s -> pcs s !! t = Some (Waiting c m) -> 0 < supply c (data s) ->
  exists u p, pcs s !! u = Some p /\ 0 < active c p.
Proof.
  intros Hs Ht Hsup. apply cnt_pos; [apply active_nonneg|].
  pose proof (run_served q n es s t c m Hs Ht). lia.
Qed.
End monitor.
