(* ===== verification/Queue.v ===== *)
(** * Queue: the blocking queues of common/queue.h and the STL wrappers

    Each class is an instance of [Monitor]: the data behind its mutex, its
    methods with the test of their [while] loop and the statements after it.
    A call carries its arguments; [wait_ms] is -1 for no timeout. *)

From Stdlib Require Import Sorting.Sorted.
From S2P Require Import Prelude Utils Lock Cond LinkedList Monitor.

(** What a method returns: nothing, nothing with a value stored through the
    pointer argument, [true] with such a value, [false], or a size. *)
Inductive res (A : Type) := Void | Stored (v : A) | True_ (v : A) | False_ | Size (n : Z).
Arguments Void {A}. Arguments Stored {A}. Arguments True_ {A}. Arguments False_ {A}. Arguments Size {A}.

(** ** BlockingQueue *)
Module BlockingQueue.

Section queue.
Context {T : Type}.

Inductive meth := push (x : T) | push_front (x : T) | pop (wait_ms : Z) | size.
Inductive cond := notEmpty_.
#[export] Instance cond_eq_dec : EqDecision cond.
Proof. solve_decision. Defined.

(** src/code/cc/common/queue.h:116-150 [BlockingQueue]
    The statements under the lock, after the loop of [pop]. *)
Definition body (m : meth) (queue_ : list T) : option (res T * list T) :=
  match m with
  | push x => Some (Void, queue_ ++ [x])
  | push_front x => Some (Void, x :: queue_)
  | pop _ => match queue_ with [] => None | x :: queue_ => Some (True_ x, queue_) end
  | size => Some (Size (Z.of_nat (length queue_)), queue_)
  end.

(** src/code/cc/common/queue.h:111-155 [BlockingQueue] *)
#[export] Instance methods : Monitor meth (res T) (list T) cond := {
  blocked m queue_ := match m with pop _ => bool_decide (queue_ = []) | _ => false end;
  waits_on _ := notEmpty_;
  body := body;
  notifies m := match m with push _ | push_front _ => Some notEmpty_ | _ => None end;
  timed_out _ := False_;
  wait_ms m := match m with pop w => w | _ => -1 end;
}.

End queue.
Arguments meth : clear implicits.
End BlockingQueue.

Module BlockingQueueProps.
Import BlockingQueue.

Section props.
Context {T : Type}.

Notation event := (@event (meth T) (res T)).

(** The elements a completed call put in and took out. *)
Definition pushed (e : event) : list T :=
  match call e with push x | push_front x => [x] | _ => [] end.
Definition popped (e : event) : list T :=
  match result e with True_ x => [x] | _ => [] end.
Definition is_front (e : event) : Prop :=
  match call e with push_front _ => True | _ => False end.

Lemma seq_event_conserves q (e : event) q1 :
  seq_event q e = Some q1 -> event_result q e (result e) ->
  q ++ pushed e ≡ₚ popped e ++ q1 /\ (~ is_front e -> q ++ pushed e = popped e ++ q1).
Proof.
  unfold seq_event, event_result, pushed, popped, is_front.
  destruct e as [t m r g]. simpl. destruct g.
  - destruct m; simpl; try done. destruct (negb _); [|done]. intros [= <-] ->.
    by rewrite app_nil_r.
  - destruct m; simpl; intros H1 [q' H2]; repeat case_bool_decide; simplify_eq/=; try done.
    + split; [by rewrite Permutation_app_comm|tauto].
    + destruct q as [|x q]; [done|]. simplify_eq/=. by rewrite app_nil_r.
    + by rewrite app_nil_r.
Qed.

Lemma seq_run_conserves q (es : list event) q' :
  seq_run q es q' ->
  q ++ concat (map pushed es) ≡ₚ concat (map popped es) ++ q' /\
  (Forall (fun e => ~ is_front e) es ->
   q ++ concat (map pushed es) = concat (map popped es) ++ q').
Proof.
  induction 1 as [q|q e es q1 q2 H1 H2 _ [IH1 IH2]]; simpl; [by rewrite app_nil_r|].
  destruct (seq_event_conserves q e q1 H1 H2) as [Hp He].
  rewrite <- (assoc_L (++)). split.
  - rewrite (assoc_L (++)), Hp, <- (assoc_L (++)). by rewrite IH1.
  - intros [Hf Hfs]%Forall_cons.
    rewrite (assoc_L (++)), (He Hf), <- (assoc_L (++)). by rewrite (IH2 Hfs).
Qed.

(** C2: Whatever the interleaving of threads, timeouts and spurious wake-ups, the
    assertion of [pop] never fails; every element pushed is popped at most
    once and the rest is in the queue; and with only [push] and [pop], the
    elements come out in the order they went in. *)
Theorem blocking_queue_fifo n (es : list event) s :
  steps step (init [] n) es s ->
  ~ crashes s /\
  concat (map pushed es) ≡ₚ concat (map popped es) ++ data s /\
  (Forall (fun e => ~ is_front e) es ->
   concat (map pushed es) = concat (map popped es) ++ data s).
Proof.
  intros Hs. split; [|exact (seq_run_conserves _ _ _ (run_linearizable _ _ _ Hs))].
  apply (run_safe (fun _ => True)) in Hs as [_ Hc]; [done| |done].
  intros m q _ Hb. destruct m; simpl in *; eauto.
  case_bool_decide; [done|]. destruct q; [done|eauto].
Qed.

(** The supply of [notEmpty_] is the number of elements, and [pop] takes one. *)
#[export] Instance disciplined :
  Disciplined (M := meth T) (fun _ q => Z.of_nat (length q))
    (fun _ m => match m with pop _ => true | _ => false end).
Proof.
  split; intros.
  - by destruct c, (waits_on m).
  - by destruct m.
  - destruct m; simpl in *; try done. case_bool_decide; [|done]. subst. simpl. lia.
  - destruct c, m; simpl in *; simplify_eq/=; rewrite ?length_app; simpl.
    + lia.
    + lia.
    + destruct q; [done|]. simplify_eq/=. lia.
    + lia.
Qed.

(** A thread that is awake inside [pop] and will test the queue: it holds the
    lock, or it was woken and takes the lock next. *)
Definition coming (p : @pc (meth T) cond) : Z :=
  match p with
  | Inside (pop _) => 1
  | Awake (pop _) ret => if bool_decide (ret = ETIMEDOUT) then 0 else 1
  | _ => 0
  end.

(** C3: No wake-up is lost: while a thread sleeps in [pop], at least as many
    threads as there are elements in the queue are awake inside [pop]. *)
Theorem blocking_queue_no_lost_wakeup n (es : list event) s t c m :
  steps step (init [] n) es s -> pcs s !! t = Some (Waiting c m) ->
  Z.of_nat (length (data s)) <= cnt coming (pcs s).
Proof.
  intros Hs Ht. etrans; [exact (run_served _ _ _ _ _ _ t c m Hs Ht)|].
  apply Z.eq_le_incl. clear. induction (pcs s) as [|p ps IH]; [done|]. cbn [cnt]. f_equal; [|done].
  destruct p as [| |[]| |[] ret]; simpl; try done.
  destruct (Z.eqb_spec ret ETIMEDOUT); by case_bool_decide.
Qed.
End props.

(** One thread pushes 1 and 2, another pops: it gets 1. *)
Example blocking_queue_fifo_witness :
  exists (es : list (@event (meth nat) (res nat))) s,
    es = [mk_event 0 (push 1%nat) Void false; mk_event 0 (push 2%nat) Void false;
          mk_event 1 (pop (-1)) (True_ 1%nat) false] /\
    ~ crashes s /\
    concat (map pushed es) ≡ₚ concat (map popped es) ++ data s /\
    (Forall (fun e => ~ is_front e) es ->
     concat (map pushed es) = concat (map popped es) ++ data s).
Proof.
  eexists _, (mk [2%nat] None [Idle; Idle]). split; [done|].
  apply (blocking_queue_fifo 2).
  eapply steps_tau; [by apply (st_call _ _ _ 0 (push 1%nat))|].
  eapply steps_tau; [by apply (st_lock _ _ 0 (push 1%nat))|].
  eapply steps_lab; [eapply (st_body _ _ 0); [done|done|done|]; apply signal_nobody;
    intros [|[|j]] m; done|].
  eapply steps_tau; [by apply (st_call _ _ _ 0 (push 2%nat))|].
  eapply steps_tau; [by apply (st_lock _ _ 0 (push 2%nat))|].
  eapply steps_lab; [eapply (st_body _ _ 0); [done|done|done|]; apply signal_nobody;
    intros [|[|j]] m; done|].
  eapply steps_tau; [by apply (st_call _ _ _ 1 (pop (-1)))|].
  eapply steps_tau; [by apply (st_lock _ _ 1 (pop (-1)))|].
  eapply steps_lab; [eapply (st_body _ _ 1); [done|done|done|]; apply signal_none|].
  apply steps_nil.
Defined.

(** Two threads sleep in [pop] and an element comes: one of them is awake. *)
Example blocking_queue_no_lost_wakeup_witness :
  Z.of_nat (length [1%nat]) <=
  cnt coming [Idle; Awake (pop (-1)) 0; Waiting notEmpty_ (pop (T := nat) (-1))].
Proof.
  apply (blocking_queue_no_lost_wakeup (T := nat) 3 [mk_event 0 (push 1%nat) Void false]
    (mk [1%nat] None [Idle; Awake (pop (-1)) 0; Waiting notEmpty_ (pop (-1))]) 2 notEmpty_ (pop (-1)));
    [|done].
  eapply steps_tau; [by apply (st_call _ _ _ 1 (pop (-1)))|].
  eapply steps_tau; [by apply (st_lock _ _ 1 (pop (-1)))|].
  eapply steps_tau; [by apply (st_wait _ _ 1 (pop (-1)))|].
  eapply steps_tau; [by apply (st_call _ _ _ 2 (pop (-1)))|].
  eapply steps_tau; [by apply (st_lock _ _ 2 (pop (-1)))|].
  eapply steps_tau; [by apply (st_wait _ _ 2 (pop (-1)))|].
  eapply steps_tau; [by apply (st_call _ _ _ 0 (push 1%nat))|].
  eapply steps_tau; [by apply (st_lock _ _ 0 (push 1%nat))|].
  eapply steps_lab; [|apply steps_nil].
  eapply (st_body _ _ 0); [done|done|done|]. exact (signal_one notEmpty_
    [Idle; Waiting notEmpty_ (pop (-1)); Waiting notEmpty_ (pop (-1))] 1 (pop (-1)) eq_refl).
Defined.

End BlockingQueueProps.

(** ** BoundedBlockingQueue *)
Module BoundedBlockingQueue.

Section queue.
Context {T : Type}.

Inductive meth :=
| push (x : T) (wait_ms : Z) | push_front (x : T) (wait_ms : Z) | pop (wait_ms : Z) | size.
Inductive cond := notEmpty_ | notFull_.
#[export] Instance cond_eq_dec : EqDecision cond.
Proof. solve_decision. Defined.

(** src/code/cc/common/queue.h:430-434 [BoundedBlockingQueue] *)
Record t := mk { queue_ : list T; size_ : Z }.

(** src/code/cc/common/queue.h:357-360 [BoundedBlockingQueue::BoundedBlockingQueue]
    The [int] argument becomes a [size_t]. *)
Definition make (max_size : Z) : t := mk [] (u64 max_size).

Definition count (q : t) : Z := Z.of_nat (length (queue_ q)).

(** src/code/cc/common/queue.h:361-428 [BoundedBlockingQueue]
    The statements after the loops, their assertions included. *)
Definition body (m : meth) (q : t) : option (res T * t) :=
  match m with
  | push x _ =>
      if count q =? size_ q then None else Some (True_ x, mk (queue_ q ++ [x]) (size_ q))
  | push_front x _ =>
      if count q =? size_ q then None else Some (True_ x, mk (x :: queue_ q) (size_ q))
  | pop _ =>
      match queue_ q with [] => None | x :: xs => Some (True_ x, mk xs (size_ q)) end
  | size => Some (Size (count q), q)
  end.

(** src/code/cc/common/queue.h:355-435 [BoundedBlockingQueue] *)
#[export] Instance methods : Monitor meth (res T) t cond := {
  blocked m q :=
    match m with
    | push _ _ | push_front _ _ => count q =? size_ q
    | pop _ => bool_decide (queue_ q = [])
    | size => false
    end;
  waits_on m := match m with push _ _ | push_front _ _ => notFull_ | _ => notEmpty_ end;
  body := body;
  notifies m :=
    match m with
    | push _ _ | push_front _ _ => Some notEmpty_ | pop _ => Some notFull_ | size => None
    end;
  timed_out _ := False_;
  wait_ms m := match m with push _ w | push_front _ w | pop w => w | size => -1 end;
}.
End queue.
Arguments meth : clear implicits.
Arguments t : clear implicits.
End BoundedBlockingQueue.

Module BoundedBlockingQueueProps.
Import BoundedBlockingQueue.

Section props.
Context {T : Type}.
Notation event := (@event (meth T) (res T)).

Definition pushed (e : event) : list T :=
  match call e, result e with
  | push _ _, True_ x | push_front _ _, True_ x => [x] | _, _ => []
  end.
Definition popped (e : event) : list T :=
  match call e, result e with pop _, True_ x => [x] | _, _ => [] end.
Definition is_front (e : event) : Prop :=
  match call e with push_front _ _ => True | _ => False end.

Lemma bounded_seq_event_conserves q (e : event) q1 :
  seq_event q e = Some q1 -> event_result q e (result e) ->
  queue_ q ++ pushed e ≡ₚ popped e ++ queue_ q1 /\
  (~ is_front e -> queue_ q ++ pushed e = popped e ++ queue_ q1).
Proof.
  unfold seq_event, event_result, pushed, popped, is_front.
  destruct e as [t m r g]. simpl. destruct g.
  - destruct (negb _); [|done]. intros [= <-] ->. destruct m; simpl; by rewrite app_nil_r.
  - destruct m; simpl; intros H1 [q' H2]; simplify_eq/=;
      repeat (case_match; simplify_eq/=); try done;
      rewrite ?app_nil_r; try done.
    split; [by rewrite Permutation_app_comm|tauto].
Qed.

Lemma bounded_seq_run_conserves q (es : list event) q' :
  seq_run q es q' ->
  queue_ q ++ concat (map pushed es) ≡ₚ concat (map popped es) ++ queue_ q' /\
  (Forall (fun e => ~ is_front e) es ->
   queue_ q ++ concat (map pushed es) = concat (map popped es) ++ queue_ q').
Proof.
  induction 1 as [q|q e es q1 q2 H1 H2 _ [IH1 IH2]]; simpl; [by rewrite app_nil_r|].
  destruct (bounded_seq_event_conserves q e q1 H1 H2) as [Hp He].
  rewrite <- (assoc_L (++)). split.
  - rewrite (assoc_L (++)), Hp, <- (assoc_L (++)). by rewrite IH1.
  - intros [Hf Hfs]%Forall_cons.
    rewrite (assoc_L (++)), (He Hf), <- (assoc_L (++)). by rewrite (IH2 Hfs).
Qed.

Definition bounded (sz : Z) (q : t T) : Prop := size_ q = sz /\ count q <= sz.

Lemma body_bounded sz (m : meth T) q :
  bounded sz q -> blocked m q = false -> exists r q', body m q = Some (r, q') /\ bounded sz q'.
Proof.
  intros [<- Hc] Hb. unfold bounded, count in *.
  destruct m as [x w|x w|w|]; simpl in *; rewrite ?Hb; try (eexists _, _; split; [done|]);
    simpl; rewrite ?length_app; simpl; try (split; [done|]; zbool; unfold count in *; lia).
  case_bool_decide; [done|]. destruct (queue_ q); [done|].
  eexists _, _. split; [done|]. simpl in *. split; [done|lia].
Qed.

(** C4: The queue never holds more than its size, no assertion fails, and what was
    pushed by the calls that returned true is what was popped and what is
    still there, in FIFO order when [push_front] is not used. *)
Theorem bounded_queue_safe max_size n (es : list event) s :
  steps step (init (make max_size) n) es s ->
  ~ crashes s /\ count (data s) <= u64 max_size /\
  concat (map pushed es) ≡ₚ concat (map popped es) ++ queue_ (data s) /\
  (Forall (fun e => ~ is_front e) es ->
   concat (map pushed es) = concat (map popped es) ++ queue_ (data s)).
Proof.
  intros Hs. pose proof (bounded_seq_run_conserves _ _ _ (run_linearizable _ _ _ Hs)) as Hseq.
  apply (run_safe (bounded (u64 max_size))) in Hs as [[_ Hb] Hc].
  - split; [done|]. split; [done|]. exact Hseq.
  - intros m q. apply body_bounded.
  - split; [done|]. unfold count. simpl. pose proof (u64_range max_size). lia.
Qed.

#[export] Instance disciplined :
  Disciplined (M := meth T)
    (fun c q => match c with notEmpty_ => count q | notFull_ => size_ q - count q end)
    (fun c m => match c, m with
                | notEmpty_, pop _ | notFull_, push _ _ | notFull_, push_front _ _ => true
                | _, _ => false end).
Proof.
  split; unfold count.
  - by intros [] [].
  - by intros [] q.
  - intros [] q; simpl; intros; unfold count in *; zbool; try lia.
    case_bool_decide as Hq; [|done]. rewrite Hq. simpl. lia.
  - intros c m q r q' Hb Hbody. destruct c, m; simpl in *; rewrite ?Hb in Hbody;
      unfold count in *; simplify_eq/=; repeat (case_match; simplify_eq/=); rewrite ?length_app; simpl; lia.
Qed.

(** C5: No wake-up is lost on either condition: while a popper sleeps and there is
    an element, another popper is awake; while a pusher sleeps and there is
    room, another pusher is awake. *)
Theorem bounded_queue_no_lost_wakeup max_size n (es : list event) s t c m :
  steps step (init (make max_size) n) es s -> pcs s !! t = Some (Waiting c m) ->
  match c with
  | notEmpty_ => queue_ (data s) <> []
  | notFull_ => count (data s) < size_ (data s)
  end ->
  exists u m', waits_on m' = c /\ m' <> size /\
    (pcs s !! u = Some (Inside m') \/
     exists ret, pcs s !! u = Some (Awake m' ret) /\ ret <> ETIMEDOUT).
Proof.
  intros Hs Ht Hd.
  destruct (run_no_lost_wakeup _ _ _ _ _ _ t c m Hs Ht) as (u & p & Hu & Hp).
  { destruct c; [|lia]. unfold count. destruct (queue_ (data s)); [done|]. simpl. lia. }
  exists u. destruct p as [|m'|m'|d m'|m' ret]; simpl in Hp; try lia; try (case_decide; lia).
  - exists m'. destruct c, m'; simpl in *; try lia; (split; [done|split; [done|eauto]]).
  - exists m'. destruct (Z.eqb_spec ret ETIMEDOUT).
    { rewrite andb_comm in Hp. simpl in Hp. lia. }
    destruct c, m'; simpl in *; try lia; (split; [done|split; [done|eauto]]).
Qed.
End props.

Example bounded_queue_safe_witness :
  exists (es : list (@event (meth nat) (res nat))) s,
    es = [mk_event 0 (push 1%nat (-1)) (True_ 1%nat) false] /\ pcs s !! 1%nat = Some (Waiting notFull_ (push 2%nat (-1))) /\
    ~ crashes s /\ count (data s) <= u64 1 /\
    concat (map pushed es) ≡ₚ concat (map popped es) ++ queue_ (data s) /\
    (Forall (fun e => ~ is_front e) es ->
     concat (map pushed es) = concat (map popped es) ++ queue_ (data s)).
Proof.
  eexists _, (Monitor.mk (mk [1%nat] 1) None [Idle; Waiting notFull_ (push 2%nat (-1))]).
  split; [done|]. split; [done|].
  apply (bounded_queue_safe 1 2).
  eapply steps_tau; [by apply (st_call _ _ _ 0 (push 1%nat (-1)))|].
  eapply steps_tau; [by apply (st_lock _ _ 0 (push 1%nat (-1)))|].
  eapply steps_lab; [eapply (st_body _ _ 0); [done|done|done|]; apply signal_nobody;
    intros [|[|j]] m; done|].
  eapply steps_tau; [by apply (st_call _ _ _ 1 (push 2%nat (-1)))|].
  eapply steps_tau; [by apply (st_lock _ _ 1 (push 2%nat (-1)))|].
  eapply steps_tau; [by apply (st_wait _ _ 1 (push 2%nat (-1)))|]. apply steps_nil.
Defined.

Example bounded_queue_no_lost_wakeup_witness :
  let s := Monitor.mk (mk [1%nat] 1) None
    [Idle; Awake (pop (T := nat) (-1)) 0; Waiting notEmpty_ (pop (-1))] in
  exists u m', waits_on m' = notEmpty_ /\ m' <> size /\
    (pcs s !! u = Some (Inside m') \/
     exists ret, pcs s !! u = Some (Awake m' ret) /\ ret <> ETIMEDOUT).
Proof.
  intros s. apply (bounded_queue_no_lost_wakeup 1 3
    [mk_event 0 (push 1%nat (-1)) (True_ 1%nat) false] s 2 notEmpty_ (pop (-1)));
    [|done|done].
  eapply steps_tau; [by apply (st_call _ _ _ 1 (pop (-1)))|].
  eapply steps_tau; [by apply (st_lock _ _ 1 (pop (-1)))|].
  eapply steps_tau; [by apply (st_wait _ _ 1 (pop (-1)))|].
  eapply steps_tau; [by apply (st_call _ _ _ 2 (pop (-1)))|].
  eapply steps_tau; [by apply (st_lock _ _ 2 (pop (-1)))|].
  eapply steps_tau; [by apply (st_wait _ _ 2 (pop (-1)))|].
  eapply steps_tau; [by apply (st_call _ _ _ 0 (push 1%nat (-1)))|].
  eapply steps_tau; [by apply (st_lock _ _ 0 (push 1%nat (-1)))|].
  eapply steps_lab; [|apply steps_nil].
  eapply (st_body _ _ 0); [done|done|done|].
  exact (signal_one notEmpty_ [Idle; Waiting notEmpty_ (pop (-1)); Waiting notEmpty_ (pop (-1))]
    1 (pop (-1)) eq_refl).
Defined.

End BoundedBlockingQueueProps.

(** ** std::priority_queue

    The container is kept as a list in the order [top]/[pop] deliver it: no
    element is less than a later one. The standard leaves open which of several
    equivalent elements comes first. *)
Module PriorityQueue.

Section pq.
Context {T : Type} (Compare : T -> T -> bool).

Fixpoint push (x : T) (q : list T) : list T :=
  match q with
  | [] => [x]
  | y :: q => if Compare y x then x :: y :: q else y :: push x q
  end.
Definition top (q : list T) : option T := head q.
Definition pop (q : list T) : option (list T) :=
  match q with [] => None | _ :: q => Some q end.

(** [a] may stand before [b]. *)
Definition before (a b : T) : Prop := Compare a b = false.
Definition ordered (q : list T) : Prop := StronglySorted before q.

(** A strict weak order, as the standard requires. *)
Class StrictWeak := {
  cmp_asym a b : Compare a b = true -> Compare b a = false;
  cmp_weak a b c : Compare a b = false -> Compare b c = false -> Compare a c = false;
}.

Lemma push_perm x q : push x q ≡ₚ x :: q.
Proof.
  induction q as [|y q IH]; simpl; [done|]. destruct (Compare y x); [done|].
  rewrite IH. apply Permutation_swap.
Qed.

Lemma push_ordered `{!StrictWeak} x q : ordered q -> ordered (push x q).
Proof.
  unfold ordered. induction 1 as [|y q Hq IH Hy]; simpl; [by repeat constructor|].
  destruct (Compare y x) eqn:E.
  - apply SSorted_cons; [by constructor|]. apply Forall_cons. split; [by apply cmp_asym|].
    eapply Forall_impl; [exact Hy|]. intros z Hz. eapply cmp_weak; [by apply cmp_asym|done].
  - apply SSorted_cons; [done|]. rewrite push_perm. by constructor.
Qed.
End pq.
End PriorityQueue.

(** ** BlockingPriorityQueue *)
Module BlockingPriorityQueue.

Section queue.
Context {T : Type} (Compare : T -> T -> bool).

Inductive meth := push (x : T) | pop (wait_ms : Z) | top (wait_ms : Z) | size.
Inductive cond := notEmpty_.
#[export] Instance cond_eq_dec : EqDecision cond.
Proof. solve_decision. Defined.

(** src/code/cc/common/queue.h:52-101 [BlockingPriorityQueue]
    The statements under the lock, after the loops of [pop] and [top]. *)
Definition body (m : meth) (pqueue_ : list T) : option (res T * list T) :=
  match m with
  | push x => Some (Void, PriorityQueue.push Compare x pqueue_)
  | pop _ =>
      v ← PriorityQueue.top pqueue_; q ← PriorityQueue.pop pqueue_; Some (True_ v, q)
  | top _ => v ← PriorityQueue.top pqueue_; Some (True_ v, pqueue_)
  | size => Some (Size (Z.of_nat (length pqueue_)), pqueue_)
  end.

(** src/code/cc/common/queue.h:46-106 [BlockingPriorityQueue] *)
#[export] Instance methods : Monitor meth (res T) (list T) cond := {
  blocked m pqueue_ := match m with pop _ | top _ => bool_decide (pqueue_ = []) | _ => false end;
  waits_on _ := notEmpty_;
  body := body;
  notifies m := match m with push _ => Some notEmpty_ | _ => None end;
  timed_out _ := False_;
  wait_ms m := match m with pop w | top w => w | _ => -1 end;
}.
End queue.
Arguments meth : clear implicits.
End BlockingPriorityQueue.

Module BlockingPriorityQueueProps.
Import BlockingPriorityQueue.

Section props.
Context {T : Type} (Compare : T -> T -> bool) `{!PriorityQueue.StrictWeak Compare}.
Notation event := (@event (meth T) (res T)).
#[local] Existing Instance methods.

Definition pushed (e : event) : list T := match call e with push x => [x] | _ => [] end.
Definition popped (e : event) : list T :=
  match call e, result e with pop _, True_ x => [x] | _, _ => [] end.

Lemma priority_seq_run_conserves q (es : list event) q' :
  seq_run (Monitor0 := methods Compare) q es q' ->
  q ++ concat (map pushed es) ≡ₚ concat (map popped es) ++ q'.
Proof.
  induction 1 as [q|q e es q1 q2 H1 H2 _ IH]; simpl; [by rewrite app_nil_r|].
  assert (q ++ pushed e ≡ₚ popped e ++ q1) as Hp.
  { unfold seq_event, event_result, pushed, popped in *. destruct e as [t m r g]. simpl in *.
    destruct g.
    { destruct m; simpl in *; try done; destruct (negb _); simplify_eq; by rewrite app_nil_r. }
    destruct H2 as [q'' H2]. destruct m; simpl in *; simplify_eq/=.
    - by rewrite PriorityQueue.push_perm, Permutation_app_comm.
    - case_bool_decide; [done|]. destruct q; [done|]. simplify_eq/=. by rewrite app_nil_r.
    - case_bool_decide; [done|]. destruct q; [done|]. simplify_eq/=. by rewrite app_nil_r.
    - by rewrite app_nil_r. }
  rewrite (assoc_L (++)), Hp, <- !(assoc_L (++)). by rewrite IH.
Qed.

Lemma body_ordered (m : meth T) q r q' :
  PriorityQueue.ordered Compare q -> body Compare m q = Some (r, q') ->
  PriorityQueue.ordered Compare q'.
Proof.
  intros Hq Hb. destruct m; cbn [body] in Hb.
  - simplify_eq. by apply PriorityQueue.push_ordered.
  - destruct q; simplify_eq/=. by inversion Hq.
  - by destruct q; simplify_eq/=.
  - by simplify_eq.
Qed.

(** What a [pop] or [top] returns is in the queue, and nothing there beats it. *)
Lemma body_delivers (m : meth T) q v q' y :
  PriorityQueue.ordered Compare q -> body Compare m q = Some (True_ v, q') ->
  v ∈ q /\ (y ∈ q -> Compare v y = false).
Proof.
  intros Hq Hb. assert (exists xs, q = v :: xs) as [xs ->].
  { destruct m, q; simpl in *; simplify_eq/=; eauto. }
  split; [set_solver|]. inversion Hq as [|? ? _ Hf]; subst. rewrite Forall_forall in Hf.
  intros [->|Hy]%elem_of_cons; [|by apply Hf].
  destruct (Compare v v) eqn:E; [|done]. pose proof (PriorityQueue.cmp_asym Compare v v E). congruence.
Qed.

(** C6: Whatever the interleaving, nothing crashes and no element is lost or
    duplicated; and whenever a [pop] or a [top] returned [v], then of the
    elements that were in the queue - those pushed before, less those popped
    before - [v] was one, and none of them beats it. *)
Theorem priority_queue_order n (es : list event) s :
  steps (step (Monitor0 := methods Compare)) (init [] n) es s ->
  ~ crashes (Monitor0 := methods Compare) s /\
  concat (map pushed es) ≡ₚ concat (map popped es) ++ data s /\
  (forall es1 e es2 v, es = es1 ++ e :: es2 -> result e = True_ v -> exists q,
     concat (map pushed es1) ≡ₚ concat (map popped es1) ++ q /\
     v ∈ q /\ forall y, y ∈ q -> Compare v y = false).
Proof.
  intros Hs. pose proof (run_linearizable _ _ _ Hs) as Hseq. split; [|split].
  - apply (run_safe (fun _ => True)) in Hs as [_ Hc]; [done| |done].
    intros m q _ Hb. destruct m; simpl in *; eauto.
    all: case_bool_decide; [done|]; destruct q; [done|eauto].
  - exact (priority_seq_run_conserves _ _ _ Hseq).
  - intros es1 e es2 v -> Hr. apply seq_run_app in Hseq as (q & H1 & H2). exists q.
    split; [exact (priority_seq_run_conserves _ _ _ H1)|].
    apply (seq_run_invariant (PriorityQueue.ordered Compare)) in H1;
      [|intros m q1 r q2 Hq _; by apply body_ordered|constructor].
    inversion H2 as [|? ? ? q' ? He Hres _]; subst. destruct (gave_up e) eqn:Hg.
    { unfold event_result in Hres. rewrite Hg, Hr in Hres. done. }
    destruct (seq_event_body q e q' He Hres Hg) as [_ Hb]. rewrite Hr in Hb.
    split; [exact (proj1 (body_delivers _ _ _ _ v H1 Hb))|].
    intros y. exact (proj2 (body_delivers _ _ _ _ y H1 Hb)).
Qed.
End props.

#[export] Instance nat_less_weak : PriorityQueue.StrictWeak Nat.ltb.
Proof. split; intros; zb. Qed.

Example priority_queue_order_witness :
  exists (es : list (@event (meth nat) (res nat))) s,
    es = [mk_event 0 (push 1%nat) Void false; mk_event 0 (push 5%nat) Void false;
          mk_event 1 (pop (-1)) (True_ 5%nat) false] /\
    ~ crashes (Monitor0 := methods Nat.ltb) s /\
    concat (map pushed es) ≡ₚ concat (map popped es) ++ data s /\
    (forall es1 e es2 v, es = es1 ++ e :: es2 -> result e = True_ v -> exists q,
       concat (map pushed es1) ≡ₚ concat (map popped es1) ++ q /\
       v ∈ q /\ forall y, y ∈ q -> Nat.ltb v y = false).
Proof.
  eexists _, (mk [1%nat] None [Idle; Idle]). split; [done|].
  apply (priority_queue_order Nat.ltb 2).
  eapply steps_tau; [by apply (st_call _ _ _ 0 (push 1%nat))|].
  eapply steps_tau; [by apply (st_lock _ _ 0 (push 1%nat))|].
  eapply steps_lab; [eapply (st_body _ _ 0); [done|done|done|]; apply signal_nobody;
    intros [|[|j]] m; done|].
  eapply steps_tau; [by apply (st_call _ _ _ 0 (push 5%nat))|].
  eapply steps_tau; [by apply (st_lock _ _ 0 (push 5%nat))|].
  eapply steps_lab; [eapply (st_body _ _ 0); [done|done|done|]; apply signal_nobody;
    intros [|[|j]] m; done|].
  eapply steps_tau; [by apply (st_call _ _ _ 1 (pop (-1)))|].
  eapply steps_tau; [by apply (st_lock _ _ 1 (pop (-1)))|].
  eapply steps_lab; [eapply (st_body _ _ 1); [done|done|done|]; apply signal_none|].
  apply steps_nil.
Defined.

(** [top] shares the condition with [pop] but takes nothing: when the one
    notification of a [push] goes to a thread in [top], which does not pass it
    on, a thread in [pop] keeps sleeping over a queue that is not empty. *)
Theorem priority_queue_top_steals (x : nat) :
  exists (es : list (@event (meth nat) (res nat))) s,
    steps (step (Monitor0 := methods Nat.ltb)) (init [] 3) es s /\
    data s = [x] /\ pcs s = [Idle; Waiting notEmpty_ (pop (-1)); Idle].
Proof.
  eexists [mk_event 0 (push x) Void false; mk_event 2 (top (-1)) (True_ x) false],
    (mk [x] None [Idle; Waiting notEmpty_ (pop (-1)); Idle]). split; [|done].
  eapply steps_tau; [by apply (st_call _ _ _ 1 (pop (-1)))|].
  eapply steps_tau; [by apply (st_lock _ _ 1 (pop (-1)))|].
  eapply steps_tau; [by apply (st_wait _ _ 1 (pop (-1)))|].
  eapply steps_tau; [by apply (st_call _ _ _ 2 (top (-1)))|].
  eapply steps_tau; [by apply (st_lock _ _ 2 (top (-1)))|].
  eapply steps_tau; [by apply (st_wait _ _ 2 (top (-1)))|].
  eapply steps_tau; [by apply (st_call _ _ _ 0 (push x))|].
  eapply steps_tau; [by apply (st_lock _ _ 0 (push x))|].
  eapply steps_lab; [eapply (st_body _ _ 0); [done|done|done|];
    by apply (signal_one _ _ 2 (top (-1)))|].
  eapply steps_tau; [by apply (st_relock _ _ 2 (top (-1)) 0)|].
  eapply steps_lab; [eapply (st_body _ _ 2); [done|done|done|]; apply signal_none|].
  apply steps_nil.
Qed.

End BlockingPriorityQueueProps.

(** ** BlockingDLinkedListQueue and BlockingSLinkedListQueue

    Their statements under the lock are those of the unsynchronised lists of
    [LinkedList.v], over the same heap of nodes. *)
Module BlockingLinked.

Inductive meth :=
| push (item : option positive) | push_front (item : option positive) | pop (wait_ms : Z)
| clear | replace (o n : option positive) | remove (x : option positive).
Inductive cond := notEmpty_.
#[export] Instance cond_eq_dec : EqDecision cond.
Proof. solve_decision. Defined.

Definition linked_blocked (m : meth) (q : queue) : bool :=
  match m with pop _ => empty q | _ => false end.
Definition linked_notifies (m : meth) : option cond :=
  match m with push _ | push_front _ => Some notEmpty_ | _ => None end.
Definition linked_wait_ms (m : meth) : Z := match m with pop w => w | _ => -1 end.

(** src/code/cc/common/queue.h:168-258 [BlockingDLinkedListQueue]
    The statements under the lock; [pop] first asserts that the list is not
    empty. *)
Definition dbody (m : meth) (q : queue) : option (res (option positive) * queue) :=
  match m with
  | push item => q ← DLinkedListQueue.push q item; Some (Void, q)
  | push_front item => q ← DLinkedListQueue.push_front q item; Some (Void, q)
  | pop _ =>
      if empty q then None else '(x, q) ← DLinkedListQueue.pop q; Some (True_ x, q)
  | clear => let '(x, q) := BlockingDLinkedList.clear q in Some (Stored x, q)
  | replace o n => q ← DLinkedListQueue.replace q o n; Some (Void, q)
  | remove x => q ← BlockingDLinkedList.remove q x; Some (Void, q)
  end.

(** src/code/cc/common/queue.h:161-270 [BlockingDLinkedListQueue] *)
Definition dmethods : Monitor meth (res (option positive)) queue cond := {|
  blocked := linked_blocked; waits_on _ := notEmpty_; body := dbody;
  notifies := linked_notifies; timed_out _ := False_; wait_ms := linked_wait_ms;
|}.

(** src/code/cc/common/queue.h:283-338 [BlockingSLinkedListQueue]
    It has no [replace] and no [remove]. *)
Definition sbody (m : meth) (q : queue) : option (res (option positive) * queue) :=
  match m with
  | push item => q ← SLinkedListQueue.push q item; Some (Void, q)
  | push_front item => q ← SLinkedListQueue.push_front q item; Some (Void, q)
  | pop _ =>
      if empty q then None else '(x, q) ← SLinkedListQueue.pop q; Some (True_ x, q)
  | clear => let '(x, q) := BlockingDLinkedList.clear q in Some (Stored x, q)
  | replace _ _ | remove _ => None
  end.

(** src/code/cc/common/queue.h:276-350 [BlockingSLinkedListQueue] *)
Definition smethods : Monitor meth (res (option positive)) queue cond := {|
  blocked := linked_blocked; waits_on _ := notEmpty_; body := sbody;
  notifies := linked_notifies; timed_out _ := False_; wait_ms := linked_wait_ms;
|}.

End BlockingLinked.

Module BlockingLinkedProps.
Import BlockingLinked.

Notation event := (@event meth (res (option positive))).

(** The list operation a completed call stands for; none for a call that gave
    up. *)
Definition op_of (m : meth) : option op :=
  match m with
  | push (Some x) => Some (Push x)
  | push_front (Some x) => Some (PushFront x)
  | pop _ => Some Pop
  | clear => Some Clear
  | remove (Some x) => Some (Remove x)
  | replace (Some o) (Some n) => Some (Replace o n)
  | _ => None
  end.

Definition out_of (r : res (option positive)) : option positive :=
  match r with True_ p | Stored p => p | _ => None end.

Fixpoint ops_of (es : list event) : option (list op) :=
  match es with
  | [] => Some []
  | e :: es =>
      os ← ops_of es;
      if gave_up e then Some os else o ← op_of (call e); Some (o :: os)
  end.

Definition outs_of (es : list event) : list (option positive) :=
  concat (map (fun e => if gave_up e then [] else [out_of (result e)]) es).

(** The callers keep to the contract of the list: no node is pushed that is in
    it, none removed or replaced that is not, none replaced at its ends. That a
    [pop] finds an element is not asked of them. *)
Fixpoint legal (os : list op) (xs : list positive) : Prop :=
  match os with
  | [] => True
  | o :: os =>
      match spec_op o xs with Some (_, ys) => legal os ys | None => o = Pop end
  end.

Lemma dbody_run_op m o q r q' :
  op_of m = Some o -> dbody m q = Some (r, q') -> run_op o q = Some (out_of r, q').
Proof.
  destruct m as [[x|]|[x|]|w| |[o1|] [n1|]|[x|]]; simpl; intros [= <-] H; cbn [run_op];
    try (by bind_inv; simplify_eq; rewrite H).
  - destruct (empty q); [done|]. bind_inv. by destruct x; simplify_eq.
  - by simplify_eq.
Qed.

(** A call that was not blocked finds the list as its operation needs it. *)
Lemma unblocked_spec m o q xs os :
  op_of m = Some o -> linked_blocked m q = false -> rep true q xs -> legal (o :: os) xs ->
  exists r ys, spec_op o xs = Some (r, ys) /\ legal os ys.
Proof.
  intros Ho Hb Hr Hl. cbn [legal] in Hl. destruct (spec_op o xs) as [[r ys]|] eqn:E; [by exists r, ys|].
  subst. assert (exists w, m = pop w) as [w ->].
  { by destruct m as [[]|[]| | |[] []|[]]; simplify_eq/=; eauto. }
  cbn in Hb. rewrite (rep_empty _ _ _ Hr) in Hb. case_bool_decide; [done|]. by destruct xs.
Qed.

Lemma seq_run_refines es os q q' xs :
  seq_run (Monitor0 := dmethods) q es q' -> ops_of es = Some os ->
  legal os xs -> rep true q xs -> Forall (op_ok (mem q)) os ->
  exists rs xs', spec_run os xs = Some (rs, xs') /\ rep true q' xs' /\ outs_of es = rs /\
    dom (mem q') = dom (mem q).
Proof.
  intros Hs. revert os xs.
  induction Hs as [q|q e es q1 q2 H1 H2 _ IH]; intros os xs Ho Hl Hr Hok.
  { simplify_eq/=. by exists [], xs. }
  cbn [ops_of] in Ho. bind_inv. unfold outs_of. cbn [map concat].
  destruct (gave_up e) eqn:Hg.
  - unfold seq_event in H1. rewrite Hg in H1. simplify_eq. destruct (negb _); simplify_eq.
    by apply IH.
  - destruct (op_of (call e)) as [o|] eqn:Eo; [|done]. simplify_eq/=.
    destruct (seq_event_body _ _ _ H1 H2 Hg) as [Hb Hbody].
    destruct (unblocked_spec _ _ _ _ _ Eo Hb Hr Hl) as (r & ys & Hsp & Hl').
    apply Forall_cons in Hok as [Hok1 Hok2].
    pose proof (dbody_run_op _ _ _ _ _ Eo Hbody) as Hrun.
    destruct (run_op_refines o q xs r ys Hr Hok1 Hsp) as (q4 & Hq4 & Hr4).
    rewrite Hq4 in Hrun. simplify_eq. pose proof (run_op_dom _ _ _ _ Hq4) as Hd.
    destruct (IH x ys) as (rs & zs & Hrs & ? & <- & Hd'); [done|done|done| |].
    { eapply Forall_impl; [exact Hok2|]. intros [] Ho'; simpl in *; by rewrite ?Hd. }
    exists (out_of (result e) :: outs_of es), zs. rewrite Hsp. cbn [mbind option_bind].
    rewrite Hrs. split; [done|]. split; [done|]. split; [done|]. by rewrite Hd'.
Qed.

(** C13: Under any interleaving, as long as the completed calls keep to the contract
    of the list and pass no NULL: taken in the order of the lock they are a run
    of the list, which returns what they returned; the heap holds that list,
    and the next call within the contract finds its body defined. *)
Theorem blocking_dlist_refines h n (es : list event) s os :
  steps (step (Monitor0 := dmethods)) (init (make h) n) es s ->
  ops_of es = Some os -> Forall (op_ok h) os -> legal os [] ->
  exists xs, spec_run os [] = Some (outs_of es, xs) /\ rep true (data s) xs /\
  (forall o r ys, op_ok h o -> spec_op o xs = Some (r, ys) ->
   exists q, run_op o (data s) = Some (r, q) /\ rep true q ys).
Proof.
  intros Hs Ho Hok Hl. apply run_linearizable in Hs.
  destruct (seq_run_refines es os _ _ [] Hs) as (rs & xs & Hsp & Hr & <- & Hd);
    [done|done|apply make_rep|done|].
  exists xs. split; [done|]. split; [done|]. intros o r ys Ho' Hspec.
  apply (run_op_refines o _ xs); [done| |done]. destruct o; simpl in *; by rewrite ?Hd.
Qed.

Example blocking_dlist_refines_witness :
  let h : gmap positive node := {[ 1%positive := mk_node None None ]} in
  exists s : @state meth queue cond, pcs s = [Idle] /\
  exists xs, spec_run [Push 1; Pop] [] = Some (outs_of
      [mk_event 0 (push (Some 1%positive)) Void false;
       mk_event 0 (pop (-1)) (True_ (Some 1%positive)) false], xs) /\ rep true (data s) xs /\
    (forall o r ys, op_ok h o -> spec_op o xs = Some (r, ys) ->
     exists q, run_op o (data s) = Some (r, q) /\ rep true q ys).
Proof.
  intros h. eexists (mk _ None [Idle]). split; [done|].
  refine (blocking_dlist_refines h 1 _ _ [Push 1; Pop] _ _ _ _); [|done| |].
  - eapply steps_tau; [by apply (st_call _ _ _ 0 (push (Some 1%positive)))|].
    eapply steps_tau; [by apply (st_lock _ _ 0 (push (Some 1%positive)))|].
    eapply steps_lab; [eapply (st_body _ _ 0); [done|done|done|]; apply signal_nobody;
      intros [|j] m; done|].
    eapply steps_tau; [by apply (st_call _ _ _ 0 (pop (-1)))|].
    eapply steps_tau; [by apply (st_lock _ _ 0 (pop (-1)))|].
    eapply steps_lab; [eapply (st_body _ _ 0); [done|done|done|]; apply signal_none|].
    apply steps_nil.
  - constructor; [|by repeat constructor]. apply elem_of_dom. by eexists.
  - done.
Defined.

End BlockingLinkedProps.

(** ** The STL wrappers *)
Module STLQueue.
Section stl.
Context {T : Type}.
(** src/code/cc/common/queue.h:652-656 [STLQueue::pop] *)
Definition pop (q : list T) : option (T * list T) :=
  match q with [] => None | x :: q => Some (x, q) end.
(** src/code/cc/common/queue.h:657-659 [STLQueue::top] *)
Definition top (q : list T) : option T := head q.
(** src/code/cc/common/queue.h:660-662 [STLQueue::empty] *)
Definition empty (q : list T) : bool := bool_decide (q = []).
End stl.
End STLQueue.

Module STLDeque.
Section stl.
Context {T : Type}.
(** src/code/cc/common/queue.h:672-674 [STLDeque::push] *)
Definition push (x : T) (q : list T) : list T := q ++ [x].
(** src/code/cc/common/queue.h:675-677 [STLDeque::push_front] *)
Definition push_front (x : T) (q : list T) : list T := x :: q.
(** src/code/cc/common/queue.h:678-682 [STLDeque::pop] *)
Definition pop (q : list T) : option (T * list T) :=
  match q with [] => None | x :: q => Some (x, q) end.
(** src/code/cc/common/queue.h:683-688 [STLDeque::top] *)
Definition top (q : list T) : option T := head q.
End stl.
End STLDeque.

Module STLPriorityQueue.
Section stl.
Context {T : Type} (Compare : T -> T -> bool).
(** src/code/cc/common/queue.h:698-701 [STLPriorityQueue::push] *)
Definition push (x : T) (q : list T) : list T := PriorityQueue.push Compare x q.
(** src/code/cc/common/queue.h:702-706 [STLPriorityQueue::pop] *)
Definition pop (q : list T) : option (T * list T) :=
  x ← PriorityQueue.top q; q ← PriorityQueue.pop q; Some (x, q).
(** src/code/cc/common/queue.h:707-712 [STLPriorityQueue::top] *)
Definition top (q : list T) : option T := PriorityQueue.top q.
End stl.
End STLPriorityQueue.
