(* ===== verification/SyncedQueue.v ===== *)
(** * SyncedQueue: the template SyncedQueue of common/queue.h over a condition

    The class trusts its [Cond]: a [wait] that returns true must be backed by a
    [notify]. That promise is the class [Tickets]; the safety of [SyncedQueue]
    is proved against it, and the futex and pipe conditions are instances. The
    queue is STLDeque and the lock a MutexLock, so that the section between
    [lock] and [unlock] is one step. *)

From S2P Require Import Prelude Cond Queue.

(** What the threads see of a condition. *)
Inductive cond_label :=
| WaitReturns (t : nat) (b : bool)   (* wait returns *)
| Notified (t : nat).                (* notify takes effect *)

(** A condition as a transition system. *)
Class CondSystem (C : Type) := {
  cond_step : C -> option cond_label -> C -> Prop;
  cond_init : C -> Prop;
}.

Definition waits (ls : list cond_label) : Z :=
  cnt (fun l => match l with WaitReturns _ true => 1 | _ => 0 end) ls.
Definition notifications (ls : list cond_label) : Z :=
  cnt (fun l => match l with Notified _ => 1 | _ => 0 end) ls.

(** The promise: no wait succeeds without a notification of its own. *)
Class Tickets (C : Type) `{CondSystem C} :=
  tickets c ls c' : cond_init c -> steps cond_step c ls c' -> waits ls <= notifications ls.

Module SyncedQueue.
Section synced.
Context {T C : Type} `{CondSystem C}.

(** The second argument of a successful [wait]'s caller: [pop] with a
    pointer, [pop] with NULL, [top]. *)
Inductive kind := PopInto | PopNull | Top.

(** Where a thread is: outside (or inside the condition), between the queue
    and [cond_.notify], after a successful wait. *)
Inductive pc := Outside | Notifying | Holding (k : kind).

(** src/code/cc/common/queue.h:492-496 [SyncedQueue] *)
Record state := mk { queue_ : list T; cond_ : C; pcs : list pc }.

(** What a completed call did: an element went in, an element came out, a
    call returned without one. *)
Inductive label := Pushed (x : T) | Popped (x : T) | Peeked (x : T) | Refused | TookNothing.

(** src/code/cc/common/queue.h:450-487 [SyncedQueue] *)
Inductive step : state -> option label -> state -> Prop :=
(* push, push_front: lock, insert, unlock; then notify *)
| s_push q c ps t x :
    ps !! t = Some Outside ->
    step (mk q c ps) (Some (Pushed x)) (mk (STLDeque.push x q) c (<[t := Notifying]> ps))
| s_push_front q c ps t x :
    ps !! t = Some Outside ->
    step (mk q c ps) (Some (Pushed x)) (mk (STLDeque.push_front x q) c (<[t := Notifying]> ps))
| s_notify q c c' ps t :
    ps !! t = Some Notifying -> cond_step c (Some (Notified t)) c' ->
    step (mk q c ps) None (mk q c' (<[t := Outside]> ps))
(* the condition at work *)
| s_cond q c c' ps : cond_step c None c' -> step (mk q c ps) None (mk q c' ps)
| s_wait_false q c c' ps t :
    ps !! t = Some Outside -> cond_step c (Some (WaitReturns t false)) c' ->
    step (mk q c ps) (Some Refused) (mk q c' ps)
| s_wait_true q c c' ps t k :
    ps !! t = Some Outside -> cond_step c (Some (WaitReturns t true)) c' ->
    step (mk q c ps) None (mk q c' (<[t := Holding k]> ps))
(* pop, top after the wait: lock, take or look, unlock; top notifies back *)
| s_pop q q' c ps t x :
    ps !! t = Some (Holding PopInto) -> STLDeque.pop q = Some (x, q') ->
    step (mk q c ps) (Some (Popped x)) (mk q' c (<[t := Outside]> ps))
| s_pop_null q c ps t :
    ps !! t = Some (Holding PopNull) ->
    step (mk q c ps) (Some TookNothing) (mk q c (<[t := Outside]> ps))
| s_top q c ps t x :
    ps !! t = Some (Holding Top) -> STLDeque.top q = Some x ->
    step (mk q c ps) (Some (Peeked x)) (mk q c (<[t := Notifying]> ps)).

Definition init (c : C) (threads : nat) : state := mk [] c (replicate threads Outside).

(** A thread about to take from the empty queue: the assertion of the debug
    build, undefined behaviour otherwise. *)
Definition crashes (s : state) : Prop :=
  queue_ s = [] /\ exists t k, pcs s !! t = Some (Holding k) /\ k <> PopNull.

Definition holding (p : pc) : Z := match p with Holding _ => 1 | _ => 0 end.
Definition notifying (p : pc) : Z := match p with Notifying => 1 | _ => 0 end.

(** The invariant, for the condition's labels so far: every element is
    matched by a thread that holds a ticket, a thread still to notify, or a
    ticket in the condition. *)
Definition inv (c0 : C) (s : state) : Prop :=
  exists cl, steps cond_step c0 cl (cond_ s) /\
    cnt holding (pcs s) + cnt notifying (pcs s) + (notifications cl - waits cl)
      <= Z.of_nat (length (queue_ s)).

Ltac counts_sq :=
  repeat match goal with
  | Hl : ?ps !! ?t = Some _ |- context [cnt ?f (<[?t := ?x]> ?ps)] =>
      rewrite (cnt_insert f ps t x _ Hl)
  end;
  unfold notifications, waits in *; rewrite ?cnt_app; simpl in *; lia.

Lemma cond_snoc c0 cl c l c' :
  steps cond_step c0 cl c -> cond_step c (Some l) c' -> steps cond_step c0 (cl ++ [l]) c'.
Proof. intros Hr Hs. eapply steps_app; [exact Hr|]. eapply steps_lab; [done|apply steps_nil]. Qed.

Lemma step_inv_synced c0 s l s' : inv c0 s -> step s l s' -> inv c0 s'.
Proof.
  intros (cl & Hr & Hi) Hs. destruct Hs; simpl in *.
  - exists cl. split; [done|]. simpl. unfold STLDeque.push. rewrite length_app. counts_sq.
  - exists cl. split; [done|]. simpl. counts_sq.
  - exists (cl ++ [Notified t]). split; [by eapply cond_snoc|]. simpl. counts_sq.
  - exists cl. split; [|done].
    replace cl with (cl ++ []) by apply app_nil_r. eapply steps_app; [exact Hr|].
    eapply steps_tau; [done|apply steps_nil].
  - exists (cl ++ [WaitReturns t false]). split; [by eapply cond_snoc|]. simpl. counts_sq.
  - exists (cl ++ [WaitReturns t true]). split; [by eapply cond_snoc|]. simpl. counts_sq.
  - exists cl. split; [done|]. simpl. destruct q; [done|]. simplify_eq/=. counts_sq.
  - exists cl. split; [done|]. simpl. counts_sq.
  - exists cl. split; [done|]. simpl. counts_sq.
Qed.

(** Over a condition that keeps its promise, no thread ever finds the queue
    empty after a successful wait. *)
Lemma run_safe_synced `{!Tickets C} c n ls s :
  cond_init c -> steps step (init c n) ls s -> ~ crashes s.
Proof.
  intros Hc Hs (Hq & t & k & Ht & _).
  assert (inv c s) as (cl & Hr & Hi).
  { eapply (steps_invariant step (inv c)); [intros a l b; apply step_inv_synced| |exact Hs].
    exists []. split; [apply steps_nil|]. unfold init. simpl. rewrite !cnt_replicate. simpl.
    unfold notifications, waits. simpl. lia. }
  pose proof (tickets c cl _ Hc Hr) as Htk.
  pose proof (cnt_lookup holding (pcs s) t _ ltac:(intros []; simpl; lia) Ht) as H1. simpl in H1.
  pose proof (cnt_nonneg notifying (pcs s) ltac:(intros []; simpl; lia)).
  rewrite Hq in Hi. simpl in Hi. lia.
Qed.

(** The elements that went in and those that came out. *)
Definition pushes (ls : list label) : list T :=
  omap (fun l => match l with Pushed x => Some x | _ => None end) ls.
Definition pops (ls : list label) : list T :=
  omap (fun l => match l with Popped x => Some x | _ => None end) ls.

(** Every element that went in came out once or is still there, and a [top]
    answered an element that was there. *)
Lemma run_conserves s ls s' :
  steps step s ls s' -> queue_ s ++ pushes ls ≡ₚ pops ls ++ queue_ s'.
Proof.
  induction 1 as [s|s1 s2 s3 ls Hs _ IH|s1 l s2 s3 ls Hs _ IH].
  - by rewrite app_nil_r.
  - rewrite <- IH. by inversion Hs.
  - unfold pushes, pops in *. inversion Hs; subst; simpl in *; try done.
    + rewrite <- IH. unfold STLDeque.push. by rewrite <- (assoc_L (++)).
    + rewrite <- IH. unfold STLDeque.push_front. simpl. by rewrite <- Permutation_middle.
    + destruct q; [done|]. simplify_eq/=. by rewrite IH.
Qed.
End synced.
Arguments state : clear implicits.
End SyncedQueue.

(** ** The futex condition as a ticket system *)
Module FutexTickets.
Import FutexCondition.

Definition cond_label_of (l : label) : option cond_label :=
  match l with
  | WaitTrue t => Some (WaitReturns t true)
  | WaitFalse t => Some (WaitReturns t false)
  | Granted t => Some (Notified t)
  | NotifyDone _ => None
  end.

(** Without timeouts and [anotify]. *)
#[export] Instance futex_system : CondSystem state := {
  cond_step s l s' := exists l', plain_step s l' s' /\ (l' ≫= cond_label_of) = l;
  cond_init s := exists n, s = init 0 n;
}.

Lemma futex_run s cl s' :
  steps cond_step s cl s' ->
  exists ls, steps plain_step s ls s' /\ waits cl = trues ls /\ notifications cl = grants ls.
Proof.
  induction 1 as [s|s1 s2 s3 cl [l [Hs Hl]] _ (ls & Hr & Hw & Hn)
    |s1 c s2 s3 cl [l [Hs Hl]] _ (ls & Hr & Hw & Hn)].
  - exists []. split; [apply steps_nil|done].
  - destruct l as [l|].
    + exists (l :: ls). split; [by eapply steps_lab|]. unfold trues, grants in *.
      destruct l; simpl in *; done || lia.
    + exists ls. split; [by eapply steps_tau|done].
  - destruct l as [l|]; [|done]. exists (l :: ls). split; [by eapply steps_lab|].
    unfold trues, grants, waits, notifications in *. destruct l; simplify_eq/=; lia.
Qed.

#[export] Instance futex_tickets_law : Tickets state.
Proof.
  intros s cl s' [n ->] Hr. apply futex_run in Hr as (ls & Hr & -> & ->).
  apply plain_untimed in Hr. destruct (futex_tickets 0 n ls s' ltac:(lia) Hr). lia.
Defined.
End FutexTickets.

(** ** The pipe condition as a ticket system *)
Module PipeTickets.

(** The bytes in the pipe. A wait that returns true has taken one
    ([FileDescriptorCondition.wait_true_took]), a notification has written one. *)
Record pipe := mk_pipe { bytes : Z }.

Inductive pipe_step : pipe -> option cond_label -> pipe -> Prop :=
| p_read n t first rs w :
    1 <= n -> FileDescriptorCondition.wait first rs w = FileDescriptorCondition.Returns true true ->
    pipe_step (mk_pipe n) (Some (WaitReturns t true)) (mk_pipe (n - 1))
| p_refuse n t first rs w :
    FileDescriptorCondition.wait first rs w = FileDescriptorCondition.Returns false false ->
    pipe_step (mk_pipe n) (Some (WaitReturns t false)) (mk_pipe n)
| p_write n t ws y :
    FileDescriptorCondition.notify ws FileDescriptorCondition.kRetryCounter 0 = Some (y, true) ->
    pipe_step (mk_pipe n) (Some (Notified t)) (mk_pipe (n + 1)).

#[export] Instance pipe_system : CondSystem pipe := {
  cond_step := pipe_step; cond_init p := bytes p = 0;
}.

Lemma pipe_run p cl p' :
  steps pipe_step p cl p' -> 0 <= bytes p ->
  0 <= bytes p' /\ bytes p' = bytes p + notifications cl - waits cl.
Proof.
  unfold notifications, waits.
  induction 1 as [p|p1 p2 p3 cl Hs _ IH|p1 l p2 p3 cl Hs _ IH]; intros Hp; simpl; [lia| |].
  - inversion Hs.
  - inversion Hs; subst; simpl in *; specialize (IH ltac:(lia)); lia.
Qed.

#[export] Instance pipe_tickets_law : Tickets pipe.
Proof. intros p cl p' Hp Hr. apply pipe_run in Hr; simpl in *; lia. Defined.
End PipeTickets.

Module SyncedQueueProps.
Import SyncedQueue.
#[local] Existing Instances FutexTickets.futex_system FutexTickets.futex_tickets_law.
#[local] Existing Instances PipeTickets.pipe_system PipeTickets.pipe_tickets_law.

(** C24: A SyncedQueue over the futex condition used without timeouts, by any number
    of pushing, popping and peeking threads, never takes from an empty queue;
    and every element that was pushed was popped once or is in the queue. *)
Theorem synced_futex_safe (T : Type) m n (ls : list (@label T)) s :
  steps (step (C := FutexCondition.state)) (init (FutexCondition.init 0 m) n) ls s ->
  ~ crashes s /\ pushes ls ≡ₚ pops ls ++ queue_ s.
Proof.
  intros Hs. split; [|exact (run_conserves _ _ _ Hs)].
  apply run_safe_synced in Hs; [done|]. by exists m.
Qed.

Example synced_futex_safe_witness :
  ~ crashes (mk [5%nat] (FutexCondition.init 0 1) [Notifying]) /\
  pushes [Pushed 5%nat] ≡ₚ pops [Pushed 5%nat] ++ [5%nat].
Proof.
  apply (synced_futex_safe nat 1 1 [Pushed 5%nat] (mk [5%nat] (FutexCondition.init 0 1) [Notifying])).
  eapply steps_lab; [|apply steps_nil]. by apply (s_push [] _ [Outside] 0 5%nat).
Defined.

(** The same over a pipe, with any timeouts. *)
Theorem synced_pipe_safe (T : Type) n (ls : list (@label T)) s :
  steps (step (C := PipeTickets.pipe)) (init (PipeTickets.mk_pipe 0) n) ls s -> ~ crashes s.
Proof. by apply run_safe_synced. Qed.

Example synced_pipe_safe_witness :
  ~ crashes (mk [5%nat] (PipeTickets.mk_pipe 0) [Notifying]).
Proof.
  apply (synced_pipe_safe nat 1 [Pushed 5%nat]).
  eapply steps_lab; [|apply steps_nil]. by apply (s_push [] _ [Outside] 0 5%nat).
Defined.

(** [pop(NULL)] uses its ticket up but leaves the element in the queue, where
    no later wait accounts for it. *)
Lemma pop_null_keeps (T C : Type) `{CondSystem C} (q : list T) c ps t :
  ps !! t = Some (Holding PopNull) ->
  step (mk q c ps) (Some TookNothing) (mk q c (<[t := Outside]> ps)).
Proof. apply s_pop_null. Qed.

(** NopCondition never refuses: the first pop of a fresh queue takes from the
    empty queue. *)
Record nop := mk_nop {}.
#[local] Instance nop_system : CondSystem nop := {
  cond_step s l s' :=
    exists t, l = Some (Notified t) \/ l = Some (WaitReturns t (NopCondition.wait 0));
  cond_init _ := True;
}.

Theorem synced_nop_crashes :
  exists s, steps step (init mk_nop 1) ([] : list (@label nat)) s /\ crashes s.
Proof.
  eexists. split.
  - eapply steps_tau; [|apply steps_nil].
    eapply (s_wait_true _ _ mk_nop _ 0 PopInto); [done|]. exists 0%nat. by right.
  - split; [done|]. by exists 0%nat, PopInto.
Qed.

End SyncedQueueProps.
