(* ===== verification/LkFree.v ===== *)
(** * LkFree: the lock-free allocator of common/lkfree.h

    A free list of arena entries (a Treiber stack) over which any number of
    threads run [alloc] and [free], one access to shared memory per step. An
    [Entry*] is the index of the entry in the arena, [None] for NULL. *)

From S2P Require Import Prelude Atomic.

Module SampleMemoryAllcator.

(** Where a thread is: in the loop of [alloc] before reading [head_], after
    reading [t], after reading [n = t->next]; the same for [free(e)]. *)
Inductive pc :=
| Idle
| Alloc | AllocHead (t : nat) | AllocNext (t : nat) (n : option nat)
| Free (e : nat) | FreeHead (e : nat) (t : option nat) | FreeLinked (e : nat) (t : option nat).

(** src/code/cc/common/lkfree.h:14-25 [SampleMemoryAllcator]
    [next] is the field of every entry; [held] the entries the program was
    given and has not returned. *)
Record state := mk { next : nat -> option nat; head_ : option nat; held : list nat; pcs : list pc }.

(** src/code/cc/common/lkfree.h:30-32 [SampleMemoryAllcator::SampleMemoryAllcator (loop)] *)
Definition link (number : nat) : nat -> option nat :=
  foldl (fun nx i => <[(i - 1)%nat := Some i]> nx) (fun _ => None) (seq 1 (number - 1)).

(** src/code/cc/common/lkfree.h:28-35 [SampleMemoryAllcator::SampleMemoryAllcator] *)
Definition make (number threads : nat) : state :=
  mk (<[(number - 1)%nat := None]> (link number)) (Some 0%nat) [] (replicate threads Idle).

(** [CompareAndSwapPointer(head_, n, t) == t]: the new [head_], and whether the
    exchange took place. *)
Definition cas (head n t : option nat) : option nat * bool :=
  if decide (head = t) then (n, true) else (head, false).

(** What a thread did. *)
Inductive label := Allocated (i e : nat) | Freed (i e : nat).

(** src/code/cc/common/lkfree.h:41-62 [SampleMemoryAllcator::alloc, free]
    The program frees only what it holds. *)
Inductive step : state -> option label -> state -> Prop :=
| a_call nx h hd ps i :
    ps !! i = Some Idle -> step (mk nx h hd ps) None (mk nx h hd (<[i := Alloc]> ps))
| a_empty nx hd ps i :
    ps !! i = Some Alloc -> step (mk nx None hd ps) None (mk nx None hd ps)
| a_head nx t hd ps i :
    ps !! i = Some Alloc ->
    step (mk nx (Some t) hd ps) None (mk nx (Some t) hd (<[i := AllocHead t]> ps))
| a_next nx h hd ps i t :
    ps !! i = Some (AllocHead t) ->
    step (mk nx h hd ps) None (mk nx h hd (<[i := AllocNext t (nx t)]> ps))
| a_cas nx h h' hd ps i t n :
    ps !! i = Some (AllocNext t n) -> cas h n (Some t) = (h', true) ->
    step (mk nx h hd ps) (Some (Allocated i t)) (mk nx h' (t :: hd) (<[i := Idle]> ps))
| a_retry nx h h' hd ps i t n :
    ps !! i = Some (AllocNext t n) -> cas h n (Some t) = (h', false) ->
    step (mk nx h hd ps) None (mk nx h' hd (<[i := Alloc]> ps))
| f_call nx h hd hd' ps i e :
    ps !! i = Some Idle -> hd ≡ₚ e :: hd' ->
    step (mk nx h hd ps) None (mk nx h hd' (<[i := Free e]> ps))
| f_head nx h hd ps i e :
    ps !! i = Some (Free e) ->
    step (mk nx h hd ps) None (mk nx h hd (<[i := FreeHead e h]> ps))
| f_link nx h hd ps i e t :
    ps !! i = Some (FreeHead e t) ->
    step (mk nx h hd ps) None (mk (<[e := t]> nx) h hd (<[i := FreeLinked e t]> ps))
| f_cas nx h h' hd ps i e t :
    ps !! i = Some (FreeLinked e t) -> cas h (Some e) t = (h', true) ->
    step (mk nx h hd ps) (Some (Freed i e)) (mk nx h' hd (<[i := Idle]> ps))
| f_retry nx h h' hd ps i e t :
    ps !! i = Some (FreeLinked e t) -> cas h (Some e) t = (h', false) ->
    step (mk nx h hd ps) None (mk nx h' hd (<[i := Free e]> ps)).

(** src/code/cc/common/lkfree.h:37-39 [SampleMemoryAllcator::~SampleMemoryAllcator]
    Inside the class [free] is the member function: the arena's first entry is
    pushed on the free list. *)
Definition destroy (s : state) : state :=
  mk (<[0%nat := head_ s]> (next s)) (Some 0%nat) (held s) (pcs s).

(** ** Free lists *)

Fixpoint chain (nx : nat -> option nat) (p : option nat) (fl : list nat) : Prop :=
  match fl with
  | [] => p = None
  | x :: fl => p = Some x /\ chain nx (nx x) fl
  end.

Lemma chain_frame nx p fl e t : e ∉ fl -> chain nx p fl -> chain (<[e := t]> nx) p fl.
Proof.
  revert p. induction fl as [|x fl IH]; intros p He; [done|].
  apply not_elem_of_cons in He as [Hne He]. intros [-> Hc]. split; [done|].
  rewrite fn_lookup_insert_ne by done. by apply IH.
Qed.

Lemma link_spec k nx0 i :
  foldl (fun nx i => <[(i - 1)%nat := Some i]> nx) nx0 (seq 1 k) i =
    if decide (i < k)%nat then Some (S i) else nx0 i.
Proof.
  induction k as [|k IH]; [done|].
  rewrite seq_S, foldl_app. cbn [foldl]. replace (1 + k - 1)%nat with k by lia.
  destruct (decide (i = k)) as [->|].
  - rewrite fn_lookup_insert, decide_True by lia. done.
  - rewrite fn_lookup_insert_ne by done. rewrite IH. by repeat case_decide; try lia.
Qed.

Lemma make_chain number threads :
  (0 < number)%nat -> chain (next (make number threads)) (head_ (make number threads)) (seq 0 number).
Proof.
  intros Hn. simpl.
  assert (forall k j, (j + k = number)%nat -> (0 < k)%nat ->
    chain (<[(number - 1)%nat := None]> (link number)) (Some j) (seq j k)) as H;
    [|by apply (H number 0%nat)].
  induction k as [|k IH]; intros j Hj Hk; [lia|]. simpl. split; [done|].
  destruct (decide (j = number - 1)%nat) as [->|].
  - rewrite fn_lookup_insert. assert (k = 0)%nat as -> by lia. done.
  - rewrite fn_lookup_insert_ne by done. unfold link. rewrite link_spec, decide_True by lia.
    apply IH; lia.
Qed.

(** ** Safety with one allocating thread *)

Definition flight (p : pc) : list nat :=
  match p with Free e | FreeHead e _ | FreeLinked e _ => [e] | _ => [] end.

Definition entries (ps : list pc) : list nat := concat (flight <$> ps).

Lemma entries_insert ps i p q :
  ps !! i = Some p -> entries (<[i := q]> ps) ++ flight p ≡ₚ entries ps ++ flight q.
Proof.
  intros Hi. unfold entries. rewrite list_fmap_insert. apply concat_insert.
  by rewrite list_lookup_fmap, Hi.
Qed.

Lemma entries_lookup ps i p e : ps !! i = Some p -> e ∈ flight p -> e ∈ entries ps.
Proof.
  unfold entries. intros Hi He. apply list_elem_of_In, in_concat. exists (flight p).
  split; [|by apply list_elem_of_In]. apply list_elem_of_In, list_elem_of_fmap.
  exists p. split; [done|]. by eapply list_elem_of_lookup_2.
Qed.

(** The entries of the arena, each once. *)
Section arena.
Context (arena : list nat) (arena_once : NoDup arena).

(** The invariant: the free list [fl] hangs together; each entry of the arena is
    in exactly one of the free list, the program's hands and the hands of a
    freeing thread; only thread 0 allocates, and what it read is still so. *)
Definition local_ok (s : state) (fl : list nat) (i : nat) (p : pc) : Prop :=
  match p with
  | Idle | Free _ | FreeHead _ _ => True
  | Alloc => i = 0%nat
  | AllocHead t => i = 0%nat /\ t ∈ fl
  | AllocNext t n => i = 0%nat /\ t ∈ fl /\ next s t = n
  | FreeLinked e t => next s e = t
  end.

Definition inv (s : state) : Prop :=
  exists fl, chain (next s) (head_ s) fl /\ fl ++ held s ++ entries (pcs s) ≡ₚ arena /\
    forall i p, pcs s !! i = Some p -> local_ok s fl i p.

(** Only thread 0 is in [alloc]. *)
Definition single (s : state) : Prop :=
  forall i p, pcs s !! i = Some p ->
    match p with Alloc | AllocHead _ | AllocNext _ _ => i = 0%nat | _ => True end.

Definition single_step (s : state) (l : option label) (s' : state) : Prop := step s l s' /\ single s'.

Lemma inv_pc s fl i p q :
  pcs s !! i = Some p -> flight q = flight p -> local_ok s fl i q ->
  chain (next s) (head_ s) fl -> fl ++ held s ++ entries (pcs s) ≡ₚ arena ->
  (forall i p, pcs s !! i = Some p -> local_ok s fl i p) ->
  inv (mk (next s) (head_ s) (held s) (<[i := q]> (pcs s))).
Proof.
  intros Hi Hf Hl Hc Hn Ho. exists fl. split; [done|]. simpl. split.
  - pose proof (entries_insert (pcs s) i p q Hi) as Hp. rewrite Hf in Hp.
    apply (inj (fun l => l ++ flight p)) in Hp. by rewrite Hp.
  - intros j r. rewrite list_lookup_insert_Some. intros [(-> & <- & _)|[_ Hj]]; [|exact (Ho j r Hj)].
    exact Hl.
Qed.

(** Two threads never free the same entry. *)
Lemma entries_ne ps i j p q e e' :
  NoDup (entries ps) -> ps !! i = Some p -> ps !! j = Some q -> i <> j ->
  e ∈ flight p -> e' ∈ flight q -> e <> e'.
Proof.
  intros Hn Hi Hj Hij He He' ->.
  pose proof (entries_insert ps i p Idle Hi) as Hp. simpl in Hp. rewrite app_nil_r in Hp.
  rewrite <- Hp in Hn. apply NoDup_app in Hn as (_ & Hd & _).
  apply (Hd e'); [|done]. apply (entries_lookup _ j q); [|done].
  by rewrite list_lookup_insert_ne.
Qed.

Lemma cas_true h n t h' : cas h n t = (h', true) -> h = t /\ h' = n.
Proof. unfold cas. case_decide; [|done]. by intros [= <-]. Qed.
Lemma cas_false h n t h' : cas h n t = (h', false) -> h' = h.
Proof. unfold cas. case_decide; [done|]. by intros [= <-]. Qed.

Lemma stack_inv_pop nx n t hd ps i fl :
  ps !! i = Some (AllocNext t n) -> chain nx (Some t) fl -> fl ++ hd ++ entries ps ≡ₚ arena ->
  single (mk nx (Some t) hd ps) ->
  (forall j p, ps !! j = Some p -> local_ok (mk nx (Some t) hd ps) fl j p) ->
  inv (mk nx n (t :: hd) (<[i := Idle]> ps)).
Proof.
  intros Hi Hc Hn Hsg Ho. destruct (Ho i _ Hi) as (-> & _ & Hnx). simpl in Hnx.
  destruct fl as [|x fl]; [done|]. destruct Hc as [[= <-] Hc]. rewrite Hnx in Hc.
  exists fl. split; [done|]. simpl. split.
  - pose proof (entries_insert ps 0 _ Idle Hi) as Hp. simpl in Hp. rewrite !app_nil_r in Hp.
    rewrite Hp. by rewrite <- Permutation_middle.
  - intros j r. rewrite list_lookup_insert_Some. intros [(-> & <- & _)|[Hj Hr]]; [done|].
    specialize (Hsg j r Hr). specialize (Ho j r Hr). destruct r; simpl in *; done.
Qed.

Lemma inv_push nx t hd ps i e fl :
  ps !! i = Some (FreeLinked e t) -> chain nx t fl -> fl ++ hd ++ entries ps ≡ₚ arena ->
  (forall j p, ps !! j = Some p -> local_ok (mk nx t hd ps) fl j p) ->
  inv (mk nx (Some e) hd (<[i := Idle]> ps)).
Proof.
  intros Hi Hc Hn Ho. pose proof (Ho i _ Hi) as He. simpl in He.
  exists (e :: fl). simpl. split; [by rewrite He|]. split.
  - pose proof (entries_insert ps i _ Idle Hi) as Hp. simpl in Hp. rewrite app_nil_r in Hp.
    rewrite <- Hp in Hn. etrans; [|exact Hn]. solve_Permutation.
  - intros j r. rewrite list_lookup_insert_Some. intros [(-> & <- & _)|[Hj Hr]]; [done|].
    specialize (Ho j r Hr). destruct r; simpl in *; set_solver.
Qed.

Lemma inv_link nx h hd ps i e t fl :
  ps !! i = Some (FreeHead e t) -> chain nx h fl -> fl ++ hd ++ entries ps ≡ₚ arena ->
  (forall j p, ps !! j = Some p -> local_ok (mk nx h hd ps) fl j p) ->
  inv (mk (<[e := t]> nx) h hd (<[i := FreeLinked e t]> ps)).
Proof.
  intros Hi Hc Hn Ho. pose proof arena_once as Hnd. rewrite <- Hn in Hnd.
  apply NoDup_app in Hnd as (_ & Hd & (_ & _ & Hne)%NoDup_app).
  assert (e ∈ entries ps) as Hee by (eapply entries_lookup; [done|]; set_solver).
  assert (e ∉ fl) as Hef by (intros H; apply (Hd e H); set_solver).
  exists fl. simpl. split; [by apply chain_frame|]. split.
  - pose proof (entries_insert ps i _ (FreeLinked e t) Hi) as Hp.
    apply (inj (fun l => l ++ [e])) in Hp. by rewrite Hp.
  - intros j r. rewrite list_lookup_insert_Some. intros [(-> & <- & _)|[Hj Hr]].
    + simpl. apply fn_lookup_insert.
    + specialize (Ho j r Hr). destruct r; simpl in *; try done.
      * destruct Ho as (? & ? & ?). rewrite fn_lookup_insert_ne by (intros ->; done). done.
      * rewrite fn_lookup_insert_ne; [done|].
        eapply (entries_ne ps i j); [done..| |]; set_solver.
Qed.

Lemma inv_take nx h hd hd' ps i e fl :
  ps !! i = Some Idle -> hd ≡ₚ e :: hd' -> chain nx h fl -> fl ++ hd ++ entries ps ≡ₚ arena ->
  (forall j p, ps !! j = Some p -> local_ok (mk nx h hd ps) fl j p) ->
  inv (mk nx h hd' (<[i := Free e]> ps)).
Proof.
  intros Hi Hh Hc Hn Ho. exists fl. simpl. split; [done|]. split.
  - pose proof (entries_insert ps i _ (Free e) Hi) as Hp. simpl in Hp. rewrite app_nil_r in Hp.
    rewrite Hp, (comm (++) (entries ps)). simpl. rewrite Hh in Hn.
    etrans; [|exact Hn]. solve_Permutation.
  - intros j r. rewrite list_lookup_insert_Some. intros [(-> & <- & _)|[_ Hj]]; [done|].
    exact (Ho j r Hj).
Qed.

Lemma step_inv_single s l s' : single s -> inv s -> single_step s l s' -> inv s'.
Proof.
  intros Hsg (fl & Hc & Hn & Ho) [Hs Hsg'].
  destruct Hs as [nx h hd ps i Hi|nx hd ps i Hi|nx t hd ps i Hi|nx h hd ps i t Hi
    |nx h h' hd ps i t n Hi Hcas|nx h h' hd ps i t n Hi Hcas|nx h hd hd' ps i e Hi Hh
    |nx h hd ps i e Hi|nx h hd ps i e t Hi|nx h h' hd ps i e t Hi Hcas|nx h h' hd ps i e t Hi Hcas];
    simpl in *; pose proof (Ho i _ Hi) as Hl; simpl in Hl.
  - eapply (inv_pc (mk nx h hd ps) fl i _ _ Hi); try done.
    apply (Hsg' i Alloc). simpl. apply list_lookup_insert_eq. by eapply lookup_lt_Some.
  - by exists fl.
  - eapply (inv_pc (mk nx (Some t) hd ps) fl i _ _ Hi); try done. simpl.
    destruct fl; [done|]. destruct Hc as [[= ->] _]. set_solver.
  - destruct Hl. by eapply (inv_pc (mk nx h hd ps) fl i _ _ Hi).
  - apply cas_true in Hcas as [-> ->]. by eapply stack_inv_pop.
  - apply cas_false in Hcas as ->. eapply (inv_pc (mk nx h hd ps) fl i _ _ Hi); try done. apply Hl.
  - by eapply inv_take.
  - by eapply (inv_pc (mk nx h hd ps) fl i _ _ Hi).
  - by eapply inv_link.
  - apply cas_true in Hcas as [-> ->]. by eapply inv_push.
  - apply cas_false in Hcas as ->. by eapply (inv_pc (mk nx h hd ps) fl i _ _ Hi).
Qed.

Lemma steps_inv_single s ls s' :
  single s -> inv s -> steps single_step s ls s' -> single s' /\ inv s'.
Proof.
  intros Hsg Hi Hs.
  refine (steps_invariant single_step (fun s => single s /\ inv s) _ _ _ _ (conj Hsg Hi) Hs).
  intros a l b [Ha Hia] Hst. split; [apply Hst|by eapply step_inv_single].
Qed.
End arena.

Lemma make_inv number threads : (0 < number)%nat -> inv (seq 0 number) (make number threads).
Proof.
  intros Hn. exists (seq 0 number). split; [by apply make_chain|]. split.
  - simpl. unfold entries. rewrite fmap_replicate. simpl.
    replace (concat (replicate threads [])) with (@nil nat)
      by (clear; induction threads; simpl; done).
    by rewrite app_nil_r.
  - intros i p [-> _]%lookup_replicate_1. done.
Qed.

Lemma inv_held number s : inv (seq 0 number) s -> NoDup (held s).
Proof.
  intros (fl & _ & Hn & _). pose proof (NoDup_seq 0 number) as H. rewrite <- Hn in H.
  by apply NoDup_app in H as (_ & _ & (? & _)%NoDup_app).
Qed.

(** C14: With a single allocating thread and any number of freeing ones no entry is
    lost and none is given out twice: in every reachable state the free list
    that starts at [head_], what the program holds and what the threads inside
    [free] are putting back are together the entries of the arena, each exactly
    once; and an allocation hands out an entry the program does not hold. *)
Theorem single_allocator_safe number threads ls s :
  (0 < number)%nat -> steps single_step (make number threads) ls s ->
  (exists fl, chain (next s) (head_ s) fl /\ fl ++ held s ++ entries (pcs s) ≡ₚ seq 0 number) /\
  NoDup (held s) /\
  (forall l e s', single_step s (Some l) s' -> l = Allocated 0 e -> e ∉ held s).
Proof.
  intros Hn Hs. apply (steps_inv_single (seq 0 number)) in Hs as [Hsg Hi];
    [|apply NoDup_seq|intros i p [-> _]%lookup_replicate_1; done|by apply make_inv].
  split; [destruct Hi as (fl & ? & ? & _); by exists fl|]. split; [by eapply inv_held|].
  intros l e s' Hst ->.
  pose proof (step_inv_single _ (NoDup_seq 0 number) _ _ _ Hsg Hi Hst) as Hi'.
  apply inv_held in Hi'. destruct Hst as [Hst _]. inversion Hst; subst.
  simpl in *. by apply NoDup_cons in Hi' as [? _].
Qed.

Example single_allocator_safe_witness :
  let s := mk (<[2%nat := None]> (link 3)) (Some 0%nat) [] [Alloc] in
  (exists fl, chain (next s) (head_ s) fl /\ fl ++ held s ++ entries (pcs s) ≡ₚ seq 0 3) /\
  NoDup (held s) /\
  (forall l e s', single_step s (Some l) s' -> l = Allocated 0 e -> e ∉ held s).
Proof.
  intros s. apply (single_allocator_safe 3 1 []); [lia|].
  eapply steps_tau; [|apply steps_nil]. split; [by apply (a_call _ _ _ [Idle] 0)|].
  intros [|i] p; simpl; [by intros [= <-]|done].
Defined.

(** ** Two allocating threads: the ABA problem

    One thread reads the head [0] and its successor [1] and is delayed; the
    other allocates 0 and 1 and frees 0 again. The delayed exchange finds the
    head it expects and installs 1, which the other thread still holds: the
    next allocation hands it out a second time. *)
Theorem aba_double_allocation :
  exists s, steps step (make 3 2)
    [Allocated 1 0; Allocated 1 1; Freed 1 0; Allocated 0 0; Allocated 1 1] s /\
    held s = [1; 0; 1]%nat.
Proof.
  eexists. split.
  - eapply steps_tau; [by apply (a_call _ _ _ _ 0)|].
    eapply steps_tau; [by apply (a_head _ 0 _ _ 0)|].
    eapply steps_tau; [by apply (a_next _ _ _ _ 0 0)|].
    eapply steps_tau; [by apply (a_call _ _ _ _ 1)|].
    eapply steps_tau; [by apply (a_head _ 0 _ _ 1)|].
    eapply steps_tau; [by apply (a_next _ _ _ _ 1 0)|].
    eapply steps_lab; [by eapply (a_cas _ _ _ _ _ 1 0)|].
    eapply steps_tau; [by apply (a_call _ _ _ _ 1)|].
    eapply steps_tau; [by apply (a_head _ 1 _ _ 1)|].
    eapply steps_tau; [by apply (a_next _ _ _ _ 1 1)|].
    eapply steps_lab; [by eapply (a_cas _ _ _ _ _ 1 1)|].
    eapply steps_tau; [apply (f_call _ _ _ [1%nat] _ 1 0); [done|apply Permutation_swap]|].
    eapply steps_tau; [by apply (f_head _ _ _ _ 1 0)|].
    eapply steps_tau; [by eapply (f_link _ _ _ _ 1 0)|].
    eapply steps_lab; [by eapply (f_cas _ _ _ _ _ 1 0)|].
    eapply steps_lab; [by eapply (a_cas _ _ _ _ _ 0 0)|].
    eapply steps_tau; [by apply (a_call _ _ _ _ 1)|].
    eapply steps_tau; [by apply (a_head _ 1 _ _ 1)|].
    eapply steps_tau; [by apply (a_next _ _ _ _ 1 1)|].
    eapply steps_lab; [by eapply (a_cas _ _ _ _ _ 1 1)|].
    apply steps_nil.
  - done.
Qed.

(** The destructor releases nothing: it calls the member [free] on the arena,
    which links the first entry of a fresh allocator to itself. *)
Lemma destroy_cycle number threads :
  next (destroy (make number threads)) 0%nat = Some 0%nat /\
  head_ (destroy (make number threads)) = Some 0%nat.
Proof. simpl. by rewrite fn_lookup_insert. Qed.

End SampleMemoryAllcator.
