(* ===== verification/Itachi.v ===== *)
(** * Itachi: the asynchronous dispatcher of itachi/itachi.{h,cc} and
    itachi/handler.{h,cc}

    A context is reference counted; [launch] puts it in the queue of a CPU or a
    poll thread, and the queue's reference is given up after [onComplete]. The
    queues are the blocking lists of [LinkedList.v]/[Queue.v], represented by
    the lists those are proved to hold. libev is a parameter of the model: it
    holds the watchers [ev_once] registered and calls [net_callback] for one of
    them with some events. *)

From S2P Require Import Prelude Atomic.

(** ** Contexts *)

(** src/code/cc/itachi/itachi.h:68-72 [AsyncContext::Type] *)
Inductive ctype := NOP | CPU | NET.

(** The event bits of libev, as the set of the flags the source tests. *)
Record events := mk_events { EV_READ : bool; EV_WRITE : bool; EV_TIMER : bool; EV_ERROR : bool }.

(** src/code/cc/itachi/itachi.h:89-96 [AsyncContext::Net] *)
Record net := mk_net {
  fd : Z; net_events : events; timeout_ms : Z; timeout : bool; readable : bool; writeable : bool;
}.

(** src/code/cc/itachi/itachi.h:30-100 [AsyncContext]
    [owner] is the [itachi] of its client; the [next] field is the queues'. *)
Record context := mk_context {
  count : RefCount.t; thread_hint : Z; type_ : ctype; action : Z; urgent : bool; net_ : net;
  owner : nat;
}.

(** src/code/cc/itachi/itachi.cc:19-27 [AsyncContext::AsyncContext]
    The counter is a [uint32_t]; [net] stays uninitialised, here [n]. *)
Definition new_context (instance_counter : Z) (client : nat) (n : net) : Z * context :=
  let '(old, new) := atomic_exchange_and_add (mk_ity false 4) instance_counter 1 in
  (new, mk_context RefCount.make (u32 (old + 1)) NOP 0 false n client).

(** src/code/cc/itachi/itachi.cc:29-33 [AsyncContext::initCpuEvent] *)
Definition initCpuEvent (act : Z) (emergency : bool) (c : context) : context :=
  mk_context (count c) (thread_hint c) CPU act emergency (net_ c) (owner c).

Definition init_net (ev : events) (act f tmo : Z) (c : context) : context :=
  mk_context (count c) (thread_hint c) NET act (urgent c)
    (mk_net f ev tmo false (readable (net_ c)) (writeable (net_ c))) (owner c).

(** src/code/cc/itachi/itachi.cc:35-42 [AsyncContext::initNetReadEvent] *)
Definition initNetReadEvent : Z -> Z -> Z -> context -> context :=
  init_net (mk_events true false false false).

(** src/code/cc/itachi/itachi.cc:44-51 [AsyncContext::initNetWriteEvent] *)
Definition initNetWriteEvent : Z -> Z -> Z -> context -> context :=
  init_net (mk_events false true false false).

(** src/code/cc/itachi/itachi.cc:53-60 [AsyncContext::initNetEvent] *)
Definition initNetEvent : Z -> Z -> Z -> context -> context :=
  init_net (mk_events true true false false).

(** ** The dispatcher *)

(** src/code/cc/itachi/itachi.h:104-121 [Itachi]
    The live contexts, the flag, the queues of the two handlers, and the
    watchers libev holds for each poll thread. *)
Record itachi := mk {
  ctxs : gmap nat context;
  stop_ : bool;
  cpu_queue : list (list nat);
  poll_queue : list (list nat);
  watchers : list (list nat);
}.

Definition self : nat := 0.

Definition set_ctxs (f : gmap nat context -> gmap nat context) (s : itachi) : itachi :=
  mk (f (ctxs s)) (stop_ s) (cpu_queue s) (poll_queue s) (watchers s).

(** src/code/cc/common/atomic.h:52-54 [RefCount::acquire] on a live context. *)
Definition acquire (c : nat) (s : itachi) : option itachi :=
  x ← ctxs s !! c;
  '(_, n) ← RefCount.acquire (count x);
  Some (set_ctxs <[c := mk_context n (thread_hint x) (type_ x) (action x) (urgent x) (net_ x) (owner x)]> s).

(** src/code/cc/itachi/itachi.cc:67-72 [AsyncContext::release]
    The context is deleted with the last reference; [None] is a use after
    that. *)
Definition release (c : nat) (s : itachi) : option itachi :=
  x ← ctxs s !! c;
  '(r, n) ← RefCount.release (count x);
  if r =? 0 then Some (set_ctxs (delete c) s)
  else Some (set_ctxs <[c := mk_context n (thread_hint x) (type_ x) (action x) (urgent x) (net_ x) (owner x)]> s).

(** [thread_hint % threads_], the int converted to unsigned. *)
Definition pick (hint : Z) (threads : nat) : option nat :=
  if Nat.eqb threads 0 then None else Some (Z.to_nat (hint `mod` Z.of_nat threads)).

(** src/code/cc/itachi/handler.cc:100-114 [CpuHandler::push] *)
Definition cpu_push (c : nat) (s : itachi) : option (Z * itachi) :=
  if stop_ s then Some (-1, s) else
  x ← ctxs s !! c;
  id ← pick (thread_hint x) (length (cpu_queue s));
  q ← cpu_queue s !! id;
  let q' := if urgent x then c :: q else q ++ [c] in
  Some (0, mk (ctxs s) (stop_ s) (<[id := q']> (cpu_queue s)) (poll_queue s) (watchers s)).

(** src/code/cc/itachi/handler.cc:206-217 [PollHandler::push] *)
Definition poll_push (c : nat) (s : itachi) : option (Z * itachi) :=
  if stop_ s then Some (-1, s) else
  x ← ctxs s !! c;
  id ← pick (thread_hint x) (length (poll_queue s));
  q ← poll_queue s !! id;
  Some (0, mk (ctxs s) (stop_ s) (cpu_queue s) (<[id := q ++ [c]]> (poll_queue s)) (watchers s)).

(** src/code/cc/itachi/itachi.cc:99-129 [Itachi::launch_] *)
Definition launch_ (c : nat) (auto_acquire : bool) (s : itachi) : option (Z * itachi) :=
  x ← ctxs s !! c;
  if negb (bool_decide (owner x = self)) then Some (-1, s) else
  s ← (if auto_acquire then acquire c s else Some s);
  x ← ctxs s !! c;
  '(code, s) ← match type_ x with
               | CPU => cpu_push c s
               | NET => poll_push c s
               | NOP => Some (-1, s)
               end;
  if negb (code =? 0) && auto_acquire then s ← release c s; Some (code, s) else Some (code, s).

(** src/code/cc/itachi/itachi.cc:131-133 [Itachi::launch] *)
Definition launch (c : nat) (s : itachi) : option (Z * itachi) := launch_ c true s.

(** src/code/cc/itachi/itachi.cc:76-91 [Itachi::Itachi, start]
    The handlers get their queues and, for polling, their event loops. *)
Definition make : itachi := mk ∅ true [] [] [].
Definition start (cpu_threads poll_threads : nat) (s : itachi) : Z * itachi :=
  if negb (stop_ s) then (-1, s)
  else (0, mk (ctxs s) false (replicate cpu_threads []) (replicate poll_threads [])
             (replicate poll_threads [])).

(** src/code/cc/itachi/handler.cc:219-231 [net_callback]
    libev has already dropped the watcher; [None] is SPERM_FATAL or a use after
    deletion. *)
Definition net_callback (c : nat) (revents : events) (s : itachi) : option itachi :=
  x ← ctxs s !! c;
  if EV_ERROR revents then None else
  let rd := EV_READ revents in
  let wr := EV_WRITE revents in
  let n := mk_net (fd (net_ x)) (net_events (net_ x)) (timeout_ms (net_ x))
             (EV_TIMER revents && negb rd && negb wr) rd wr in
  let x := mk_context (count x) (thread_hint x) (type_ x) (action x) (urgent x) n (owner x) in
  let x := initCpuEvent (action x) false x in
  '(code, s) ← launch_ c false (set_ctxs <[c := x]> s);
  if code =? -1 then None else Some s.

(** The timeout given to [ev_once], in seconds times 1000; -1 for none. *)
Definition once_timeout (x : context) : Z :=
  if timeout_ms (net_ x) <? 0 then -1 else timeout_ms (net_ x).

(** src/code/cc/itachi/handler.cc:241-251 [PollHandler::thread_function (body)]
    Registering one context of the cleared queue. *)
Definition register (id c : nat) (s : itachi) : option itachi :=
  x ← ctxs s !! c;
  match type_ x with
  | NET =>
      w ← watchers s !! id;
      Some (mk (ctxs s) (stop_ s) (cpu_queue s) (poll_queue s) (<[id := w ++ [c]]> (watchers s)))
  | _ => None
  end.

(** ** Threads

    The handler threads and the program's own: between any two of their steps
    the others may run. *)
Inductive thread :=
| CpuLoop (id : nat)                                   (* about to pop *)
| CpuRun (id c : nat) (rest : list nat) (first : bool) (* in onComplete of [c] *)
| CpuClear (id : nat)                                  (* about to clear the queue *)
| PollWait (id : nat)                                  (* in ev_run *)
| PollReg (id : nat) (rest : list nat)                 (* registering the cleared queue *)
| Exited.

(** [users c]: the references the program itself holds. *)
Record sys := mk_sys { it : itachi; users : nat -> Z; ths : list thread }.

Definition next_run (id : nat) (rest : list nat) : thread :=
  match rest with [] => CpuLoop id | c :: rest => CpuRun id c rest false end.

(** The contexts chained through their [next] field: in a queue or a watcher,
    or in the list a handler thread has taken; and those in [onComplete]. *)
Definition cpu_rest (t : thread) : list nat := match t with CpuRun _ _ rest _ => rest | _ => [] end.
Definition poll_rest (t : thread) : list nat := match t with PollReg _ rest => rest | _ => [] end.
Definition run_of (t : thread) : list nat := match t with CpuRun _ c _ _ => [c] | _ => [] end.
Definition over (F : thread -> list nat) (ts : list thread) : list nat := concat (F <$> ts).

Definition cpu_linked (s : sys) : list nat := concat (cpu_queue (it s)) ++ over cpu_rest (ths s).
Definition polled (s : sys) : list nat :=
  concat (poll_queue (it s)) ++ concat (watchers (it s)) ++ over poll_rest (ths s).
Definition linked (s : sys) : list nat := cpu_linked s ++ polled s.
Definition running (s : sys) : list nat := over run_of (ths s).

Definition take_cpu (id : nat) (q : list nat) (s : itachi) : itachi :=
  mk (ctxs s) (stop_ s) (<[id := q]> (cpu_queue s)) (poll_queue s) (watchers s).
Definition take_poll (id : nat) (q : list nat) (s : itachi) : itachi :=
  mk (ctxs s) (stop_ s) (cpu_queue s) (<[id := q]> (poll_queue s)) (watchers s).
Definition take_watch (id : nat) (w : list nat) (s : itachi) : itachi :=
  mk (ctxs s) (stop_ s) (cpu_queue s) (poll_queue s) (<[id := w]> (watchers s)).

(** src/code/cc/itachi/handler.cc:116-255 [CpuHandler::thread_function, PollHandler::thread_function]
    The program's steps come first: it may use any live context, re-initialise
    or launch one that is not launched already ("you can't launch the same
    AsyncContext for twice"), and stop the dispatcher. *)
Inductive step : sys -> option unit -> sys -> Prop :=
| u_new s u ts c x :
    ctxs s !! c = None -> count x = RefCount.make ->
    step (mk_sys s u ts) None (mk_sys (set_ctxs <[c := x]> s) (<[c := 1]> u) ts)
| u_init s u ts c x x' :
    ctxs s !! c = Some x -> c ∉ linked (mk_sys s u ts) ->
    (exists a e, x' = initCpuEvent a e x) \/ (exists ev a f t, x' = init_net ev a f t x) ->
    step (mk_sys s u ts) None (mk_sys (set_ctxs <[c := x']> s) u ts)
| u_acquire s s' u ts c :
    acquire c s = Some s' -> step (mk_sys s u ts) None (mk_sys s' (<[c := u c + 1]> u) ts)
| u_release s s' u ts c :
    0 < u c -> release c s = Some s' ->
    step (mk_sys s u ts) None (mk_sys s' (<[c := u c - 1]> u) ts)
| u_launch s s' u ts c code :
    c ∉ linked (mk_sys s u ts) -> launch c s = Some (code, s') ->
    step (mk_sys s u ts) None (mk_sys s' u ts)
| u_stop s u ts :
    step (mk_sys s u ts) None
      (mk_sys (mk (ctxs s) true (cpu_queue s) (poll_queue s) (watchers s)) u ts)
(* CpuHandler::thread_function *)
| c_exit s u ts t id :
    ts !! t = Some (CpuLoop id) -> stop_ s = true ->
    step (mk_sys s u ts) None (mk_sys s u (<[t := Exited]> ts))
| c_pop s u ts t id c q :
    ts !! t = Some (CpuLoop id) -> cpu_queue s !! id = Some (c :: q) ->
    step (mk_sys s u ts) None (mk_sys (take_cpu id q s) u (<[t := CpuRun id c [] true]> ts))
| c_done s s' u ts t id c rest first :
    ts !! t = Some (CpuRun id c rest first) -> release c s = Some s' ->
    step (mk_sys s u ts) None
      (mk_sys s' u (<[t := if (first : bool) then CpuClear id else next_run id rest]> ts))
| c_clear s u ts t id q :
    ts !! t = Some (CpuClear id) -> cpu_queue s !! id = Some q ->
    step (mk_sys s u ts) None (mk_sys (take_cpu id [] s) u (<[t := next_run id q]> ts))
(* PollHandler::thread_function *)
| p_exit s u ts t id :
    ts !! t = Some (PollWait id) -> stop_ s = true ->
    step (mk_sys s u ts) None (mk_sys s u (<[t := Exited]> ts))
| p_event s s' u ts t id w1 c w2 rev :
    ts !! t = Some (PollWait id) -> watchers s !! id = Some (w1 ++ c :: w2) ->
    net_callback c rev (take_watch id (w1 ++ w2) s) = Some s' ->
    step (mk_sys s u ts) None (mk_sys s' u ts)
| p_clear s u ts t id q :
    ts !! t = Some (PollWait id) -> poll_queue s !! id = Some q ->
    step (mk_sys s u ts) None (mk_sys (take_poll id [] s) u (<[t := PollReg id q]> ts))
| p_reg s s' u ts t id c rest :
    ts !! t = Some (PollReg id (c :: rest)) -> register id c s = Some s' ->
    step (mk_sys s u ts) None (mk_sys s' u (<[t := PollReg id rest]> ts))
| p_back s u ts t id :
    ts !! t = Some (PollReg id []) ->
    step (mk_sys s u ts) None (mk_sys s u (<[t := PollWait id]> ts)).

(** A started dispatcher with its threads. *)
Definition init (cpu_threads poll_threads : nat) : sys :=
  mk_sys (start cpu_threads poll_threads make).2 (fun _ => 0)
    ((CpuLoop <$> seq 0 cpu_threads) ++ (PollWait <$> seq 0 poll_threads)).

(** ** Reference counts *)

(** [f c] holders for every context: the counts are right, and a context is
    alive exactly while somebody holds it. *)
Definition refs_ok (m : gmap nat context) (f : nat -> Z) : Prop :=
  forall c, 0 <= f c /\
    match m !! c with
    | Some x => RefCount.ref_count_ (count x) = f c /\ 1 <= f c <= 2147483647
    | None => f c = 0
    end.

(** The fields other than the count agree. *)
Definition same_fields (x y : context) : Prop := type_ x = type_ y /\ owner x = owner y.
Definition kept (m m' : gmap nat context) : Prop :=
  forall c y, m' !! c = Some y -> exists x, m !! c = Some x /\ same_fields x y.

Lemma kept_refl m : kept m m.
Proof. intros c y Hy. by exists y. Qed.

Lemma kept_trans m1 m2 m3 : kept m1 m2 -> kept m2 m3 -> kept m1 m3.
Proof.
  intros H1 H2 c y Hy. destruct (H2 c y Hy) as (x & Hx & E1).
  destruct (H1 c x Hx) as (w & Hw & E2). exists w. split; [done|].
  destruct E1, E2. split; congruence.
Qed.

Lemma refs_ok_ext m f g : (forall c, f c = g c) -> refs_ok m f -> refs_ok m g.
Proof. intros He H c. rewrite <- He. apply H. Qed.

Lemma acquire_spec c s s' f :
  refs_ok (ctxs s) f -> acquire c s = Some s' ->
  refs_ok (ctxs s') (<[c := f c + 1]> f) /\ kept (ctxs s) (ctxs s') /\
  s' = set_ctxs (fun _ => ctxs s') s /\ c ∈ dom (ctxs s').
Proof.
  intros Hf. unfold acquire. intros H. destruct (ctxs s !! c) as [x|] eqn:Hx; [|done].
  cbn [mbind option_bind] in H. unfold RefCount.acquire in H.
  pose proof (Hf c) as [H0 Hc]. rewrite Hx in Hc. destruct Hc as [Hr Hc].
  destruct (decide (f c = 2147483647)) as [Hmax|Hmax].
  { unfold atomic_exchange_and_add in H. simpl in H. unfold xadd in H. rewrite Hr, Hmax in H. done. }
  rewrite int32_add in H by lia. rewrite chk32_ok in H by lia. simplify_eq/=. split_and!; [..|done|].
  - intros d. destruct (decide (d = c)) as [->|Hd].
    + rewrite lookup_insert_eq, fn_lookup_insert. simpl. lia.
    + rewrite lookup_insert_ne, fn_lookup_insert_ne by done. apply Hf.
  - intros d y. rewrite lookup_insert_Some. intros [[<- <-]|[_ Hy]]; [by exists x|by exists y].
  - apply elem_of_dom. rewrite lookup_insert_eq. by eexists.
Qed.

Lemma release_spec c s f :
  refs_ok (ctxs s) f -> 1 <= f c ->
  exists s', release c s = Some s' /\ refs_ok (ctxs s') (<[c := f c - 1]> f) /\
    kept (ctxs s) (ctxs s') /\ s' = set_ctxs (fun _ => ctxs s') s.
Proof.
  intros Hf Hc. unfold release. pose proof (Hf c) as [H0 Hx].
  destruct (ctxs s !! c) as [x|] eqn:Hx'; [|lia]. cbn [mbind option_bind].
  unfold RefCount.release. rewrite int32_add by lia. rewrite chk32_ok by lia.
  cbn [mbind option_bind]. destruct Hx as [Hr Hx].
  destruct (RefCount.ref_count_ (count x) - 1 =? 0) eqn:E; zbool; eexists; (split; [done|]);
    (split; [|split; [|done]]); simpl.
  - intros d. destruct (decide (d = c)) as [->|Hd].
    + rewrite lookup_delete_eq, fn_lookup_insert. lia.
    + rewrite lookup_delete_ne, fn_lookup_insert_ne by done. apply Hf.
  - intros d y. rewrite lookup_delete_Some. intros [_ Hy]. by exists y.
  - intros d. destruct (decide (d = c)) as [->|Hd].
    + rewrite lookup_insert_eq, fn_lookup_insert. simpl. lia.
    + rewrite lookup_insert_ne, fn_lookup_insert_ne by done. apply Hf.
  - intros d y. rewrite lookup_insert_Some. intros [[<- <-]|[_ Hy]]; [by exists x|by exists y].
Qed.

(** A push to a queue that succeeds links the context there. *)
Definition push_ok (c : nat) (qs qs' : list (list nat)) : Prop :=
  concat qs' ≡ₚ c :: concat qs /\ length qs' = length qs.

Lemma push_insert c qs id q q' :
  qs !! id = Some q -> q' ≡ₚ c :: q -> push_ok c qs (<[id := q']> qs).
Proof.
  intros Hq Hp. split; [|apply length_insert].
  apply (Permutation_app_inv_r q). rewrite (concat_insert qs id q q' Hq), Hp. solve_Permutation.
Qed.

Lemma cpu_push_spec c s code s' :
  cpu_push c s = Some (code, s') ->
  (code = -1 /\ s' = s /\ stop_ s = true) \/
  (code = 0 /\ exists qs, push_ok c (cpu_queue s) qs /\
    s' = mk (ctxs s) (stop_ s) qs (poll_queue s) (watchers s)).
Proof.
  unfold cpu_push. destruct (stop_ s); intros H; bind_inv; [by left|right].
  split; [done|]. eexists. split; [|done]. eapply push_insert; [done|].
  destruct (urgent x); [done|]. solve_Permutation.
Qed.

Lemma poll_push_spec c s code s' :
  poll_push c s = Some (code, s') ->
  (code = -1 /\ s' = s /\ stop_ s = true) \/
  (code = 0 /\ exists qs, push_ok c (poll_queue s) qs /\
    s' = mk (ctxs s) (stop_ s) (cpu_queue s) qs (watchers s)).
Proof.
  unfold poll_push. destruct (stop_ s); intros H; bind_inv; [by left|right].
  split; [done|]. eexists. split; [|done]. eapply push_insert; [done|]. solve_Permutation.
Qed.

(** [launch_] either links the context in the queue for its type, with one more
    reference when it acquires, or fails and leaves counts and queues as they
    were. *)
Definition launched (c : nat) (s s' : itachi) : Prop :=
  exists x, ctxs s' !! c = Some x /\ owner x = self /\
    ((type_ x = CPU /\ push_ok c (cpu_queue s) (cpu_queue s') /\ poll_queue s' = poll_queue s) \/
     (type_ x = NET /\ push_ok c (poll_queue s) (poll_queue s') /\ cpu_queue s' = cpu_queue s)).

Lemma launch_push_spec c x s code s' :
  ctxs s !! c = Some x -> owner x = self ->
  match type_ x with CPU => cpu_push c s | NET => poll_push c s | NOP => Some (-1, s) end =
    Some (code, s') ->
  (code = -1 /\ s' = s) \/
  (code = 0 /\ launched c s s' /\ ctxs s' = ctxs s /\ watchers s' = watchers s).
Proof.
  intros Hx Ho H. destruct (type_ x) eqn:Et.
  - simplify_eq. by left.
  - apply cpu_push_spec in H as [(-> & -> & _)|(-> & qs & Hq & ->)]; [by left|right].
    split; [done|]. split; [|done]. exists x. split; [done|]. split; [done|]. by left.
  - apply poll_push_spec in H as [(-> & -> & _)|(-> & qs & Hq & ->)]; [by left|right].
    split; [done|]. split; [|done]. exists x. split; [done|]. split; [done|]. by right.
Qed.

Lemma launch_spec c (auto : bool) s code s' f :
  refs_ok (ctxs s) f -> launch_ c auto s = Some (code, s') ->
  kept (ctxs s) (ctxs s') /\ watchers s' = watchers s /\
  ((code = 0 /\ launched c s s' /\ refs_ok (ctxs s') (if auto then <[c := f c + 1]> f else f)) \/
   (code = -1 /\ refs_ok (ctxs s') f /\ cpu_queue s' = cpu_queue s /\ poll_queue s' = poll_queue s)).
Proof.
  intros Hf H. unfold launch_ in H. destruct (ctxs s !! c) as [x|] eqn:Hx; [|done].
  cbn [mbind option_bind] in H. case_bool_decide as Ho; cbn [negb] in H.
  2:{ simplify_eq. split; [apply kept_refl|]. split; [done|]. by right. }
  destruct auto.
  - destruct (acquire c s) as [s1|] eqn:Ha; [|done]. cbn [mbind option_bind] in H.
    destruct (acquire_spec _ _ _ _ Hf Ha) as (Hf1 & Hk1 & Hs1 & _).
    destruct (ctxs s1 !! c) as [x1|] eqn:Hx1; [|done]. cbn [mbind option_bind] in H.
    destruct (Hk1 c x1 Hx1) as (x' & Hx' & Ht & Ho'). rewrite Hx in Hx'. simplify_eq.
    destruct (match type_ x1 with NOP => _ | _ => _ end) as [[code1 s2]|] eqn:Hpush; [|done].
    apply launch_push_spec in Hpush as [(-> & ->)|(-> & Hl & Hc2 & Hw2)]; [..|done|congruence].
    + cbn [mbind option_bind negb andb Z.eqb] in H.
      destruct (release_spec c s1 _ Hf1) as (s3 & Hr & Hf3 & Hk3 & Hs3).
      { rewrite fn_lookup_insert. pose proof (Hf c). lia. }
      rewrite Hr in H. cbn [mbind option_bind] in H. simplify_eq.
      split; [by eapply kept_trans|]. rewrite Hs3, Hs1. split; [done|]. right.
      split; [done|]. split; [|done]. eapply refs_ok_ext; [|exact Hf3]. intros d.
      destruct (decide (d = c)) as [->|Hd]; [rewrite !fn_lookup_insert; lia|].
      by rewrite !fn_lookup_insert_ne.
    + cbn [mbind option_bind negb andb Z.eqb] in H. simplify_eq.
      rewrite Hc2, Hw2. split; [done|]. rewrite Hs1. split; [done|]. left. split; [done|].
      split; [|done]. destruct Hl as (y & ? & ? & Hl). exists y. split; [done|]. split; [done|].
      rewrite Hs1 in Hl. exact Hl.
  - cbn [mbind option_bind] in H. rewrite Hx in H. cbn [mbind option_bind] in H.
    destruct (match type_ x with NOP => _ | _ => _ end) as [[code1 s2]|] eqn:Hpush; [|done].
    cbn [mbind option_bind] in H. rewrite andb_false_r in H. simplify_eq.
    apply launch_push_spec in Hpush as [(-> & ->)|(-> & Hl & Hc2 & Hw2)]; [..|done|congruence].
    + split; [apply kept_refl|]. split; [done|]. by right.
    + rewrite Hc2, Hw2. split; [apply kept_refl|]. split; [done|]. by left.
Qed.

(** ** The invariant *)

Definition holders (s : sys) (c : nat) : Z := users s c + occ c (linked s ++ running s).

Record inv (s : sys) : Prop := {
  inv_refs : refs_ok (ctxs (it s)) (holders s);
  inv_users : forall c, 0 <= users s c;
  inv_nodup : NoDup (linked s);
  inv_owner c x : ctxs (it s) !! c = Some x -> c ∈ linked s -> owner x = self;
  inv_net c x : ctxs (it s) !! c = Some x -> c ∈ polled s -> type_ x = NET;
}.

Lemma over_insert F ts t p q :
  ts !! t = Some p -> over F (<[t := q]> ts) ++ F p ≡ₚ over F ts ++ F q.
Proof.
  intros Ht. unfold over. rewrite list_fmap_insert. apply concat_insert.
  by rewrite list_lookup_fmap, Ht.
Qed.

Lemma over_same F ts t p q : ts !! t = Some p -> F q = F p -> over F (<[t := q]> ts) ≡ₚ over F ts.
Proof.
  intros Ht Hf. pose proof (over_insert F ts t p q Ht) as H. rewrite Hf in H.
  by apply Permutation_app_inv_r in H.
Qed.

Lemma over_elem F ts t p c : ts !! t = Some p -> c ∈ F p -> c ∈ over F ts.
Proof.
  intros Ht Hc. unfold over. apply list_elem_of_In, in_concat. exists (F p).
  split; [|by apply list_elem_of_In]. apply list_elem_of_In, list_elem_of_fmap.
  exists p. split; [done|]. by eapply list_elem_of_lookup_2.
Qed.

Lemma occ_app {A} `{EqDecision A} (x : A) l k : occ x (l ++ k) = occ x l + occ x k.
Proof. apply cnt_app. Qed.

Lemma occ_perm (x : nat) l k : l ≡ₚ k -> occ x l = occ x k.
Proof. intros H. unfold occ. by rewrite H. Qed.

Lemma occ_cons (x c : nat) l : occ x (c :: l) = (if decide (c = x) then 1 else 0) + occ x l.
Proof. done. Qed.

Lemma occ_single (x c : nat) : occ x [c] = if decide (c = x) then 1 else 0.
Proof. unfold occ. simpl. case_decide; lia. Qed.

(** Steps that only move or drop links: [k] leaves the links and joins the
    running ones. *)
Lemma inv_move s s' k :
  inv s -> ctxs (it s') = ctxs (it s) -> users s' = users s ->
  linked s ≡ₚ k ++ linked s' -> running s' ≡ₚ k ++ running s -> polled s' ⊆ polled s -> inv s'.
Proof.
  intros [Hr Hu Hn Ho Ht] Hc Hus Hl Hrun Hp.
  assert (forall c, c ∈ linked s' -> c ∈ linked s) as Hsub by (intros c Hc'; rewrite Hl; set_solver).
  split.
  - rewrite Hc. eapply refs_ok_ext; [|exact Hr]. intros c. unfold holders. rewrite Hus. f_equal.
    apply occ_perm. rewrite Hl, Hrun. solve_Permutation.
  - by rewrite Hus.
  - rewrite Hl in Hn. by apply NoDup_app in Hn as (_ & _ & ?).
  - intros c x. rewrite Hc. eauto.
  - intros c x. rewrite Hc. eauto.
Qed.

(** Steps of the program on counts. *)
Lemma inv_counts s s' :
  inv s -> kept (ctxs (it s)) (ctxs (it s')) -> refs_ok (ctxs (it s')) (holders s') ->
  (forall c, 0 <= users s' c) -> linked s' = linked s -> polled s' = polled s -> inv s'.
Proof.
  intros [Hr Hu Hn Ho Ht] Hk Hr' Hu' Hl Hp. split; [done|done|by rewrite Hl|..].
  - intros c y Hy Hc. rewrite Hl in Hc. destruct (Hk c y Hy) as (x & Hx & _ & <-). by eapply Ho.
  - intros c y Hy Hc. rewrite Hp in Hc. destruct (Hk c y Hy) as (x & Hx & <- & _). by eapply Ht.
Qed.

(** Linking a context that is linked nowhere. *)
Lemma launched_links c s s' u ts :
  launched c s s' -> watchers s' = watchers s ->
  linked (mk_sys s' u ts) ≡ₚ c :: linked (mk_sys s u ts) /\
  forall d, d ∈ polled (mk_sys s' u ts) -> d ∈ polled (mk_sys s u ts) \/
    (d = c /\ exists x, ctxs s' !! c = Some x /\ type_ x = NET).
Proof.
  intros (x & Hx & Ho & [(Ht & [Hp _] & He)|(Ht & [Hp _] & He)]) Hw;
    unfold linked, cpu_linked, polled; simpl; rewrite Hw, He, ?Hp.
  - split; [solve_Permutation|]. intros d Hd. by left.
  - split; [solve_Permutation|]. intros d. rewrite !elem_of_app, Hp, elem_of_cons.
    intros [[->|?]|?]; [right; eauto|left; tauto..].
Qed.

Lemma inv_launch s s' u ts c code :
  inv (mk_sys s u ts) -> c ∉ linked (mk_sys s u ts) -> launch c s = Some (code, s') ->
  inv (mk_sys s' u ts).
Proof.
  intros Hi Hc Hl. pose proof Hi as [Hr Hu Hn Ho Ht]. simpl in *.
  destruct (launch_spec c true s code s' _ Hr Hl) as (Hk & Hw & [(-> & Hlk & Hr')|(-> & Hr' & Hcq & Hpq)]).
  - destruct (launched_links c s s' u ts Hlk Hw) as [Hperm Hpol].
    destruct Hlk as (x & Hx & Hox & _). split; simpl.
    + eapply refs_ok_ext; [|exact Hr']. intros d. unfold holders. simpl.
      rewrite !occ_app, (occ_perm d _ _ Hperm), occ_cons.
      destruct (decide (c = d)) as [->|Hd]; [rewrite fn_lookup_insert|rewrite fn_lookup_insert_ne by done];
        unfold holders; rewrite ?occ_app; unfold running; simpl; lia.
    + done.
    + rewrite Hperm. by constructor.
    + intros d y Hy. rewrite Hperm, elem_of_cons. intros [->|Hd]; [congruence|].
      destruct (Hk d y Hy) as (z & Hz & _ & <-). by eapply Ho.
    + intros d y Hy Hd. destruct (Hpol d Hd) as [Hd'|(-> & z & Hz & ?)]; [|congruence].
      destruct (Hk d y Hy) as (z & Hz & <- & _). by eapply Ht.
  - eapply (inv_counts (mk_sys s u ts)); simpl; try done.
    + eapply refs_ok_ext; [|exact Hr']. intros d. unfold holders, linked, cpu_linked, polled. simpl.
      by rewrite Hcq, Hpq, Hw.
    + unfold linked, cpu_linked, polled. simpl. by rewrite Hcq, Hpq, Hw.
    + unfold polled. simpl. by rewrite Hpq, Hw.
Qed.

(** The end of a callback: the handler's reference is given up. *)
Lemma inv_done s s1 s' c :
  inv s -> c ∈ running s -> release c (it s) = Some s1 ->
  it s' = s1 -> users s' = users s ->
  (exists k, linked s ≡ₚ k ++ linked s' /\ c :: running s' ≡ₚ k ++ running s) ->
  polled s' ⊆ polled s -> inv s'.
Proof.
  intros Hi Hc Hrel Hit Hus (k & Hl & Hrun) Hp. pose proof Hi as [Hr Hu Hn Ho Ht].
  destruct (release_spec c (it s) _ Hr) as (s2 & Hrel' & Hr' & Hk & _).
  { unfold holders. rewrite occ_app. apply occ_pos in Hc.
    pose proof (occ_nonneg c (linked s)). pose proof (Hu c). lia. }
  rewrite Hrel in Hrel'. simplify_eq. split.
  - eapply refs_ok_ext; [|exact Hr']. intros d. unfold holders. rewrite Hus.
    assert (occ d (linked s ++ running s) = occ d (linked s' ++ running s') + (if decide (c = d) then 1 else 0)) as He.
    { rewrite <- occ_single, <- occ_app. apply occ_perm. rewrite Hl.
      transitivity (linked s' ++ (k ++ running s)); [solve_Permutation|]. rewrite <- Hrun. solve_Permutation. }
    destruct (decide (c = d)) as [->|Hd];
      [rewrite fn_lookup_insert|rewrite fn_lookup_insert_ne by done]; unfold holders; lia.
  - by rewrite Hus.
  - rewrite Hl in Hn. by apply NoDup_app in Hn as (_ & _ & ?).
  - intros d y Hy Hd. destruct (Hk d y Hy) as (z & Hz & _ & <-). eapply Ho; [done|].
    rewrite Hl. apply elem_of_app. by right.
  - intros d y Hy Hd. destruct (Hk d y Hy) as (z & Hz & <- & _). eapply Ht; [done|]. by apply Hp.
Qed.

(** What moving a thread does to the three lists. *)
Ltac thread_moves :=
  match goal with
  | Ht : ?ts !! ?t = Some ?p |- context [over ?F (<[?t := ?q]> ?ts)] =>
      rewrite (over_same F ts t p q Ht) by done
  end.

Lemma inv_thread s u ts t p q :
  inv (mk_sys s u ts) -> ts !! t = Some p ->
  cpu_rest q = cpu_rest p -> poll_rest q = poll_rest p -> run_of q = run_of p ->
  inv (mk_sys s u (<[t := q]> ts)).
Proof.
  intros Hi Ht H1 H2 H3. apply (inv_move (mk_sys s u ts) _ []); try done;
    unfold linked, cpu_linked, polled, running; simpl.
  - by rewrite (over_same cpu_rest ts t p q), (over_same poll_rest ts t p q).
  - by rewrite (over_same run_of ts t p q).
  - intros c. rewrite (over_same poll_rest ts t p q) by done. done.
Qed.

Lemma concat_take (qs : list (list nat)) id q q' :
  qs !! id = Some q -> concat (<[id := q']> qs) ++ q ≡ₚ concat qs ++ q'.
Proof. apply concat_insert. Qed.

Lemma inv_pop s u ts t id c q :
  inv (mk_sys s u ts) -> ts !! t = Some (CpuLoop id) -> cpu_queue s !! id = Some (c :: q) ->
  inv (mk_sys (take_cpu id q s) u (<[t := CpuRun id c [] true]> ts)).
Proof.
  intros Hi Ht Hq. apply (inv_move (mk_sys s u ts) _ [c]); try done;
    unfold linked, cpu_linked, polled, running; simpl.
  - rewrite (over_same cpu_rest ts t (CpuLoop id) (CpuRun id c [] true) Ht) by done.
    rewrite (over_same poll_rest ts t (CpuLoop id) (CpuRun id c [] true) Ht) by done.
    assert (concat (cpu_queue s) ≡ₚ c :: concat (<[id := q]> (cpu_queue s))) as ->;
      [|solve_Permutation].
    apply (Permutation_app_inv_r q). rewrite <- (concat_take _ id (c :: q) q Hq). solve_Permutation.
  - pose proof (over_insert run_of ts t _ (CpuRun id c [] true) Ht) as H. simpl in H.
    rewrite app_nil_r in H. rewrite H. solve_Permutation.
  - intros d. rewrite (over_same poll_rest ts t (CpuLoop id) (CpuRun id c [] true) Ht) by done. done.
Qed.

(** The list a thread goes on with. *)
Lemma next_run_lists id rest :
  poll_rest (next_run id rest) = [] /\ run_of (next_run id rest) ++ cpu_rest (next_run id rest) = rest.
Proof. by destruct rest. Qed.

Lemma inv_clear s u ts t id q :
  inv (mk_sys s u ts) -> ts !! t = Some (CpuClear id) -> cpu_queue s !! id = Some q ->
  inv (mk_sys (take_cpu id [] s) u (<[t := next_run id q]> ts)).
Proof.
  intros Hi Ht Hq. destruct (next_run_lists id q) as [Hp Hl].
  apply (inv_move (mk_sys s u ts) _ (run_of (next_run id q))); try done;
    unfold linked, cpu_linked, polled, running; simpl.
  - rewrite (over_same poll_rest ts t (CpuClear id) (next_run id q) Ht) by done.
    pose proof (over_insert cpu_rest ts t _ (next_run id q) Ht) as H. simpl in H.
    rewrite app_nil_r in H. rewrite H.
    pose proof (concat_take _ id q [] Hq) as Hc. rewrite app_nil_r in Hc. rewrite <- Hc.
    clear -Hl. revert Hl. generalize (run_of (next_run id q)) (cpu_rest (next_run id q)).
    intros A B <-. solve_Permutation.
  - pose proof (over_insert run_of ts t _ (next_run id q) Ht) as H. simpl in H.
    rewrite app_nil_r in H. rewrite H. solve_Permutation.
  - intros d. rewrite (over_same poll_rest ts t (CpuClear id) (next_run id q) Ht) by done. done.
Qed.

Lemma inv_run_done s s' u ts t id c rest (first : bool) :
  inv (mk_sys s u ts) -> ts !! t = Some (CpuRun id c rest first) -> release c s = Some s' ->
  (first = true -> rest = []) ->
  inv (mk_sys s' u (<[t := if first then CpuClear id else next_run id rest]> ts)).
Proof.
  intros Hi Ht Hr Hfr. set (q := if first then CpuClear id else next_run id rest).
  assert (poll_rest q = [] /\ run_of q ++ cpu_rest q = rest) as [Hp Hl].
  { unfold q. destruct first; [by rewrite Hfr|apply next_run_lists]. }
  assert (cpu_queue s' = cpu_queue s /\ poll_queue s' = poll_queue s /\
    watchers s' = watchers s) as (Hcq & Hpq & Hw).
  { unfold release in Hr. bind_inv. destruct x0 as [r n].
    destruct (r =? 0); by simplify_eq/=. }
  eapply (inv_done _ s' _ c Hi); try done.
  - eapply over_elem; [exact Ht|]. set_solver.
  - exists (run_of q). unfold linked, cpu_linked, polled, running; simpl. rewrite Hcq, Hpq, Hw. split.
    + rewrite (over_same poll_rest ts t (CpuRun id c rest first) q Ht) by done.
      pose proof (over_insert cpu_rest ts t _ q Ht) as H. simpl in H.
      assert (over cpu_rest ts ≡ₚ run_of q ++ over cpu_rest (<[t := q]> ts)) as ->; [|solve_Permutation].
      apply (Permutation_app_inv_r (cpu_rest q)). rewrite <- H, <- Hl. solve_Permutation.
    + pose proof (over_insert run_of ts t _ q Ht) as H. simpl in H.
      rewrite (comm (++) (run_of q)), <- H. solve_Permutation.
  - unfold polled. simpl. rewrite Hpq, Hw. intros d.
    rewrite (over_same poll_rest ts t (CpuRun id c rest first) q Ht) by done. done.
Qed.

Lemma inv_poll_clear s u ts t id q :
  inv (mk_sys s u ts) -> ts !! t = Some (PollWait id) -> poll_queue s !! id = Some q ->
  inv (mk_sys (take_poll id [] s) u (<[t := PollReg id q]> ts)).
Proof.
  intros Hi Ht Hq.
  assert (polled (mk_sys (take_poll id [] s) u (<[t := PollReg id q]> ts)) ≡ₚ polled (mk_sys s u ts)) as Hpol.
  { unfold polled. simpl. pose proof (over_insert poll_rest ts t _ (PollReg id q) Ht) as H.
    simpl in H. rewrite app_nil_r in H. rewrite H.
    pose proof (concat_take _ id q [] Hq) as Hc. rewrite app_nil_r in Hc. rewrite <- Hc. solve_Permutation. }
  apply (inv_move (mk_sys s u ts) _ []); try done.
  - unfold linked. rewrite Hpol. unfold cpu_linked. simpl.
    by rewrite (over_same cpu_rest ts t (PollWait id) (PollReg id q) Ht).
  - unfold running. simpl. by rewrite (over_same run_of ts t (PollWait id) (PollReg id q) Ht).
  - intros d. by rewrite Hpol.
Qed.

Lemma inv_poll_register s s' u ts t id c rest :
  inv (mk_sys s u ts) -> ts !! t = Some (PollReg id (c :: rest)) -> register id c s = Some s' ->
  inv (mk_sys s' u (<[t := PollReg id rest]> ts)).
Proof.
  intros Hi Ht Hr. unfold register in Hr. bind_inv. destruct (type_ x); try done. bind_inv.
  assert (polled (mk_sys (mk (ctxs s) (stop_ s) (cpu_queue s) (poll_queue s)
      (<[id := x0 ++ [c]]> (watchers s))) u (<[t := PollReg id rest]> ts)) ≡ₚ polled (mk_sys s u ts)) as Hpol.
  { unfold polled. simpl. f_equiv.
    pose proof (over_insert poll_rest ts t _ (PollReg id rest) Ht) as H1. simpl in H1.
    pose proof (concat_take _ id x0 (x0 ++ [c]) H0) as H2.
    apply (Permutation_app_inv_r (c :: rest)). rewrite <- (assoc_L (++)), H1.
    apply (Permutation_app_inv_r x0).
    transitivity (concat (<[id := x0 ++ [c]]> (watchers s)) ++ x0 ++ over poll_rest ts ++ rest);
      [solve_Permutation|].
    rewrite (assoc_L (++)), H2. solve_Permutation. }
  apply (inv_move (mk_sys s u ts) _ []); try done.
  - unfold linked. rewrite Hpol. unfold cpu_linked. simpl.
    by rewrite (over_same cpu_rest ts t (PollReg id (c :: rest)) (PollReg id rest) Ht).
  - unfold running. simpl. by rewrite (over_same run_of ts t (PollReg id (c :: rest)) (PollReg id rest) Ht).
  - intros d. by rewrite Hpol.
Qed.

(** An event: the watcher's reference moves to the CPU queue. *)
Lemma inv_event s s' u ts id w1 c w2 rev :
  inv (mk_sys s u ts) -> watchers s !! id = Some (w1 ++ c :: w2) ->
  net_callback c rev (take_watch id (w1 ++ w2) s) = Some s' -> inv (mk_sys s' u ts).
Proof.
  intros [Hr Hu Hn Ho Ht] Hw H. simpl in *. unfold net_callback in H. simpl in H.
  destruct (ctxs s !! c) as [x|] eqn:Hx; [|done]. cbn [mbind option_bind] in H.
  destruct (EV_ERROR rev); [done|].
  match type of H with context [set_ctxs <[c := ?y]> ?z] => set (x' := y) in H; set (s1 := set_ctxs <[c := x']> z) in H end.
  assert (linked (mk_sys s u ts) ≡ₚ c :: linked (mk_sys s1 u ts) /\
    polled (mk_sys s u ts) ≡ₚ c :: polled (mk_sys s1 u ts)) as [Hl1 Hp1].
  { unfold linked, cpu_linked, polled. simpl.
    assert (concat (watchers s) ≡ₚ c :: concat (<[id := w1 ++ w2]> (watchers s))) as ->;
      [|split; solve_Permutation].
    apply (Permutation_app_inv_r (w1 ++ w2)). rewrite <- (concat_take _ id _ (w1 ++ w2) Hw). solve_Permutation. }
  rewrite Hl1 in Hn. apply NoDup_cons in Hn as [Hc Hn].
  assert (refs_ok (ctxs s1) (holders (mk_sys s u ts))) as Hr1.
  { intros d. specialize (Hr d). simpl. destruct (decide (d = c)) as [->|Hd].
    - rewrite lookup_insert_eq. rewrite Hx in Hr. exact Hr.
    - by rewrite lookup_insert_ne. }
  destruct (launch_ c false s1) as [[code s2]|] eqn:Hlaunch; [|done]. cbn [mbind option_bind] in H.
  destruct (launch_spec c false s1 code s2 _ Hr1 Hlaunch) as (Hk & Hw2 & [(-> & Hlk & Hr2)|(-> & _)]);
    [|done]. simpl in H. simplify_eq.
  destruct (launched_links c s1 s' u ts Hlk Hw2) as [Hl2 Hp2].
  destruct Hlk as (y & Hy & Hoy & _). destruct (Hk c y Hy) as (z & Hz & Hty & _).
  simpl in Hz. rewrite lookup_insert_eq in Hz. simplify_eq.
  assert (forall d y, d <> c -> ctxs s' !! d = Some y ->
    exists x, ctxs s !! d = Some x /\ same_fields x y) as Hk'.
  { intros d y' Hd Hy'. destruct (Hk d y' Hy') as (x2 & Hx2 & Hs). simpl in Hx2.
    rewrite lookup_insert_ne in Hx2 by done. by exists x2. }
  split; simpl; [|done|rewrite Hl2; by constructor|..].
  - eapply refs_ok_ext; [|exact Hr2]. intros d. unfold holders. simpl. f_equal. apply occ_perm.
    rewrite Hl1, Hl2. done.
  - intros d y' Hy'. rewrite Hl2, elem_of_cons. destruct (decide (d = c)) as [->|Hd]; [congruence|].
    intros [->|Hd']; [done|]. destruct (Hk' d y' Hd Hy') as (x2 & Hx2 & _ & <-).
    eapply Ho; [done|]. rewrite Hl1. by right.
  - intros d y' Hy' Hd. destruct (decide (d = c)) as [->|Hdc].
    + destruct (Hp2 c Hd) as [Hd'|(_ & y2 & Hy2 & Hnet)].
      * destruct Hc. clear -Hd'. unfold linked. set_solver.
      * simplify_eq. simpl in Hty. congruence.
    + destruct (Hp2 d Hd) as [Hd'|(? & _)]; [|done].
      destruct (Hk' d y' Hdc Hy') as (x2 & Hx2 & <- & _). eapply Ht; [done|]. rewrite Hp1. by right.
Qed.

(** The program's own steps. *)
Lemma inv_new s u ts c x :
  inv (mk_sys s u ts) -> ctxs s !! c = None -> count x = RefCount.make ->
  inv (mk_sys (set_ctxs <[c := x]> s) (<[c := 1]> u) ts).
Proof.
  intros [Hr Hu Hn Ho Ht] Hc Hx. simpl in *.
  pose proof (Hr c) as [_ H0]. rewrite Hc in H0. unfold holders in H0. simpl in H0.
  pose proof (occ_nonneg c (linked (mk_sys s u ts) ++ running (mk_sys s u ts))) as Hocc.
  pose proof (Hu c). assert (occ c (linked (mk_sys s u ts) ++ running (mk_sys s u ts)) = 0) as Ho0 by lia.
  assert (forall d, d ∈ linked (mk_sys s u ts) -> d <> c) as Hne.
  { intros d Hd ->. apply occ_pos in Hd. rewrite occ_app in Ho0.
    pose proof (occ_nonneg c (running (mk_sys s u ts))). lia. }
  split; simpl.
  - intros d. unfold holders. simpl. destruct (decide (d = c)) as [->|Hd].
    + rewrite lookup_insert_eq, fn_lookup_insert, Hx.
      change (linked (mk_sys (set_ctxs <[c := x]> s) (<[c := 1]> u) ts)) with (linked (mk_sys s u ts)).
      change (running (mk_sys (set_ctxs <[c := x]> s) (<[c := 1]> u) ts)) with (running (mk_sys s u ts)).
      rewrite Ho0. simpl. lia.
    + rewrite lookup_insert_ne, fn_lookup_insert_ne by done. apply Hr.
  - intros d. destruct (decide (d = c)) as [->|Hd];
      [rewrite fn_lookup_insert; lia|rewrite fn_lookup_insert_ne by done; done].
  - done.
  - intros d y Hy Hd. rewrite lookup_insert_ne in Hy by (symmetry; by apply Hne). by eapply Ho.
  - intros d y Hy Hd. rewrite lookup_insert_ne in Hy; [by eapply Ht|].
    symmetry. apply Hne. unfold linked. apply elem_of_app. by right.
Qed.

Lemma inv_init s u ts c x x' :
  inv (mk_sys s u ts) -> ctxs s !! c = Some x -> c ∉ linked (mk_sys s u ts) -> count x' = count x ->
  inv (mk_sys (set_ctxs <[c := x']> s) u ts).
Proof.
  intros [Hr Hu Hn Ho Ht] Hc Hl Hx. simpl in *. split; simpl; [|done|done|..].
  - intros d. specialize (Hr d). destruct (decide (d = c)) as [->|Hd].
    + rewrite lookup_insert_eq, Hx. rewrite Hc in Hr. exact Hr.
    + rewrite lookup_insert_ne by done. exact Hr.
  - intros d y Hy Hd. rewrite lookup_insert_ne in Hy by (intros ->; done). by eapply Ho.
  - intros d y Hy Hd. assert (d <> c) as Hdc by (intros ->; apply Hl; unfold linked; set_solver).
    rewrite lookup_insert_ne in Hy by done. by eapply Ht.
Qed.

Lemma inv_acquire s s' u ts c :
  inv (mk_sys s u ts) -> acquire c s = Some s' -> inv (mk_sys s' (<[c := u c + 1]> u) ts).
Proof.
  intros Hi Ha. pose proof Hi as [Hr Hu _ _ _]. simpl in *.
  destruct (acquire_spec c s s' _ Hr Ha) as (Hr' & Hk & Hs' & _).
  eapply (inv_counts (mk_sys s u ts)); simpl; [done|done| | |by rewrite Hs'|by rewrite Hs'].
  - eapply refs_ok_ext; [|exact Hr']. intros d.
    assert (linked (mk_sys s' (<[c := u c + 1]> u) ts) = linked (mk_sys s u ts)) as Hl by (by rewrite Hs').
    unfold holders. rewrite Hl. simpl. destruct (decide (d = c)) as [->|Hd];
      [rewrite !fn_lookup_insert; unfold running; simpl; lia|by rewrite !fn_lookup_insert_ne].
  - intros d. pose proof (Hu d). pose proof (Hu c). destruct (decide (d = c)) as [->|Hd];
      [rewrite fn_lookup_insert; lia|by rewrite fn_lookup_insert_ne].
Qed.

Lemma inv_release s s' u ts c :
  inv (mk_sys s u ts) -> 0 < u c -> release c s = Some s' -> inv (mk_sys s' (<[c := u c - 1]> u) ts).
Proof.
  intros Hi Hc Ha. pose proof Hi as [Hr Hu _ _ _]. simpl in *.
  pose proof (occ_nonneg c (linked (mk_sys s u ts) ++ running (mk_sys s u ts))).
  destruct (release_spec c s _ Hr) as (s2 & Ha2 & Hr' & Hk & Hs'); [unfold holders; simpl; lia|].
  rewrite Ha in Ha2. simplify_eq.
  eapply (inv_counts (mk_sys s u ts)); simpl; [done|done| | |by rewrite Hs'|by rewrite Hs'].
  - eapply refs_ok_ext; [|exact Hr']. intros d.
    assert (linked (mk_sys s' (<[c := u c - 1]> u) ts) = linked (mk_sys s u ts)) as Hl by (by rewrite Hs').
    unfold holders. rewrite Hl. simpl. destruct (decide (d = c)) as [->|Hd];
      [rewrite !fn_lookup_insert; unfold running; simpl; lia|by rewrite !fn_lookup_insert_ne].
  - intros d. pose proof (Hu d). destruct (decide (d = c)) as [->|Hd];
      [rewrite fn_lookup_insert; lia|by rewrite fn_lookup_insert_ne].
Qed.

(** The first context of a batch is popped alone. *)
Definition firsts (s : sys) : Prop :=
  forall t id c rest, ths s !! t = Some (CpuRun id c rest true) -> rest = [].

Lemma step_firsts s l s' : firsts s -> step s l s' -> firsts s'.
Proof.
  intros Hf Hs. destruct Hs; intros t' id' c' rest'; simpl in *; try apply Hf;
    rewrite list_lookup_insert_Some; intros [(? & ? & ?)|[? Hr]]; simplify_eq/=;
    try done; try (by eapply Hf).
  - destruct first; [done|]. by destruct rest.
  - by destruct q.
Qed.

Lemma step_inv_itachi s l s' : firsts s -> inv s -> step s l s' -> inv s'.
Proof.
  intros Hf Hi Hs. destruct Hs.
  - by apply inv_new.
  - eapply inv_init; [done..|]. by destruct H1 as [(? & ? & ->)|(? & ? & ? & ? & ->)].
  - by eapply inv_acquire.
  - by eapply inv_release.
  - by eapply inv_launch.
  - by apply (inv_move (mk_sys s u ts) _ []).
  - by eapply inv_thread.
  - by eapply inv_pop.
  - eapply inv_run_done; [done..|]. intros ->. by eapply Hf.
  - by eapply inv_clear.
  - by eapply inv_thread.
  - by eapply inv_event.
  - by eapply inv_poll_clear.
  - by eapply inv_poll_register.
  - by eapply inv_thread.
Qed.

Lemma init_inv_itachi C P : inv (init C P) /\ firsts (init C P).
Proof.
  assert (forall F : thread -> list nat, (forall id, F (CpuLoop id) = []) -> (forall id, F (PollWait id) = []) ->
    over F (ths (init C P)) = []) as Hov.
  { intros F H1 H2. unfold over.
    assert (forall l : list thread, (forall x, x ∈ l -> F x = []) -> concat (F <$> l) = []) as H.
    { induction l as [|x l IH]; intros Hx; [done|]. cbn [fmap list_fmap concat].
      rewrite Hx, IH by set_solver. done. }
    apply H. intros x. simpl. rewrite elem_of_app, !list_elem_of_fmap.
    intros [(id & -> & _)|(id & -> & _)]; done. }
  assert (forall n, concat (replicate n (@nil nat)) = []) as Hrep by (induction n; simpl; done).
  assert (linked (init C P) = []) as Hl.
  { unfold linked, cpu_linked, polled. rewrite !Hov by done. simpl. by rewrite !Hrep. }
  split.
  - split; [|done| | |].
    + intros c. unfold holders. rewrite Hl. unfold running. rewrite Hov by done. done.
    + rewrite Hl. constructor.
    + intros c x H. done.
    + intros c x H. done.
  - intros t id c rest. simpl. rewrite lookup_app_Some.
    intros [H|[_ H]]; apply list_elem_of_lookup_2, list_elem_of_fmap in H as (? & ? & _); done.
Qed.

Lemma reachable_inv_itachi C P ls s : steps step (init C P) ls s -> inv s.
Proof.
  intros Hs. apply (steps_invariant step (fun s => inv s /\ firsts s)) in Hs; [tauto| |apply init_inv_itachi].
  intros a l b [Hi Hf] Hst. split; [by eapply step_inv_itachi|by eapply step_firsts].
Qed.

(** C1: Reference counting is exact: whatever the program and the handler threads
    do, the count of a context is the number of references the program holds
    plus its places in queues, watchers, taken lists and callbacks; a context
    is alive exactly while that number is positive, so no handler thread ever
    reaches a deleted one; and it is linked at most once. *)
Theorem dispatcher_refcounts C P ls s :
  steps step (init C P) ls s ->
  (forall c x, ctxs (it s) !! c = Some x ->
    RefCount.ref_count_ (count x) = users s c + occ c (linked s) + occ c (running s)) /\
  (forall c, is_Some (ctxs (it s) !! c) <-> 0 < users s c \/ c ∈ linked s \/ c ∈ running s) /\
  NoDup (linked s) /\
  (forall t id c rest first, ths s !! t = Some (CpuRun id c rest first) ->
    is_Some (release c (it s))).
Proof.
  intros Hs. destruct (reachable_inv_itachi C P ls s Hs) as [Hr Hu Hn _ _].
  assert (forall c, holders s c = users s c + occ c (linked s) + occ c (running s)) as Hh.
  { intros c. unfold holders. rewrite occ_app. lia. }
  split; [|split; [|split; [done|]]].
  - intros c x Hx. specialize (Hr c). rewrite Hx in Hr. rewrite <- Hh. tauto.
  - intros c. specialize (Hr c) as [_ Hr]. rewrite !occ_pos.
    pose proof (Hu c). pose proof (occ_nonneg c (linked s)). pose proof (occ_nonneg c (running s)).
    destruct (ctxs (it s) !! c) as [x|]; rewrite Hh in Hr.
    + split; [lia|by eexists].
    + split; [by intros [??]|lia].
  - intros t id c rest first Ht.
    destruct (release_spec c (it s) _ Hr) as (s' & -> & _); [|by eexists].
    assert (c ∈ running s) as Hc by (eapply over_elem; [exact Ht|]; set_solver).
    apply occ_pos in Hc. rewrite Hh. pose proof (Hu c). pose proof (occ_nonneg c (linked s)). lia.
Qed.

(** A context of the program, for the concrete runs. *)
Definition sample (t : ctype) : context :=
  mk_context RefCount.make 1 t 0 false (mk_net 3 (mk_events true false false false) (-1) false false false) self.

Example dispatcher_refcounts_witness :
  let s := mk_sys (set_ctxs <[5%nat := sample CPU]> (start 1 0 make).2) (<[5%nat := 1]> (fun _ => 0)) [CpuLoop 0] in
  (forall c x, ctxs (it s) !! c = Some x ->
    RefCount.ref_count_ (count x) = users s c + occ c (linked s) + occ c (running s)) /\
  (forall c, is_Some (ctxs (it s) !! c) <-> 0 < users s c \/ c ∈ linked s \/ c ∈ running s) /\
  NoDup (linked s) /\
  (forall t id c rest first, ths s !! t = Some (CpuRun id c rest first) ->
    is_Some (release c (it s))).
Proof.
  intros s. apply (dispatcher_refcounts 1 0 []).
  eapply steps_tau; [|apply steps_nil]. by apply (u_new _ _ _ 5 (sample CPU)).
Defined.

(** C29: A launch that fails gives its reference back. *)
Theorem launch_rollback C P ls s c code s' :
  steps step (init C P) ls s -> launch c (it s) = Some (code, s') -> code <> 0 ->
  code = -1 /\ cpu_queue s' = cpu_queue (it s) /\ poll_queue s' = poll_queue (it s) /\
  (forall d, option_map (fun x => RefCount.ref_count_ (count x)) (ctxs s' !! d) =
    option_map (fun x => RefCount.ref_count_ (count x)) (ctxs (it s) !! d)).
Proof.
  intros Hs Hl Hc. destruct (reachable_inv_itachi C P ls s Hs) as [Hr _ _ _ _].
  destruct (launch_spec c true (it s) code s' _ Hr Hl) as (_ & _ & [(-> & _)|(-> & Hr' & Hq1 & Hq2)]);
    [done|]. split; [done|]. split; [done|]. split; [done|].
  intros d. specialize (Hr d) as [_ H1]. specialize (Hr' d) as [_ H2].
  destruct (ctxs s' !! d), (ctxs (it s) !! d); simpl; try lia; [|done]. f_equal. lia.
Qed.

Example launch_rollback_witness :
  let s := mk_sys (set_ctxs <[5%nat := sample NOP]> (start 1 0 make).2) (<[5%nat := 1]> (fun _ => 0)) [CpuLoop 0] in
  exists s', launch 5 (it s) = Some (-1, s') /\
    -1 = -1 /\ cpu_queue s' = cpu_queue (it s) /\ poll_queue s' = poll_queue (it s) /\
    (forall d, option_map (fun x => RefCount.ref_count_ (count x)) (ctxs s' !! d) =
      option_map (fun x => RefCount.ref_count_ (count x)) (ctxs (it s) !! d)).
Proof.
  intros s. eexists. split; [reflexivity|].
  apply (launch_rollback 1 0 [] s 5 (-1)); [|reflexivity|done].
  eapply steps_tau; [|apply steps_nil]. by apply (u_new _ _ _ 5 (sample NOP)).
Defined.

(** [stop] joins the threads and deletes the queues: a context still queued
    keeps its reference and is never released. *)
Theorem stop_leaks_queued :
  exists s, steps step (init 1 0) [] s /\ ths s = [Exited] /\ stop_ (it s) = true /\
    users s 5%nat = 0 /\ cpu_queue (it s) = [[5%nat]] /\ is_Some (ctxs (it s) !! 5%nat).
Proof.
  eexists. split; [|split_and!].
  - eapply steps_tau; [by apply (u_new _ _ _ 5 (sample CPU))|].
    eapply steps_tau; [eapply (u_launch _ _ _ _ 5); [|reflexivity]|].
    { unfold linked, cpu_linked, polled, over. simpl. set_solver. }
    eapply steps_tau; [eapply (u_release _ _ _ _ 5); [|reflexivity]|].
    { rewrite fn_lookup_insert. lia. }
    eapply steps_tau; [apply u_stop|].
    eapply steps_tau; [by apply (c_exit _ _ _ 0 0)|]. apply steps_nil.
  - done.
  - done.
  - simpl. rewrite !fn_lookup_insert. lia.
  - done.
  - simpl. by eexists.
Qed.

(** An event that libev delivers after [stop] aborts the process: the launch
    inside [net_callback] refuses, which is treated as fatal. *)
Theorem event_after_stop_aborts c rev s : stop_ s = true -> net_callback c rev s = None.
Proof.
  intros Hs. unfold net_callback. destruct (ctxs s !! c) as [x|]; [|done]. simpl.
  destruct (EV_ERROR rev); [done|].
  match goal with |- context [set_ctxs <[c := ?y]> s] =>
    set (s1 := set_ctxs <[c := y]> s); assert (ctxs s1 !! c = Some y) as Hx by apply lookup_insert_eq
  end.
  assert (stop_ s1 = true) as Hs1 by done.
  unfold launch_. rewrite Hx. cbn [mbind option_bind]. case_bool_decide; cbn [negb]; [|done].
  cbn [mbind option_bind]. rewrite Hx. cbn [mbind option_bind type_ initCpuEvent].
  unfold cpu_push. rewrite Hs1. done.
Qed.

Example event_after_stop_aborts_witness :
  net_callback 5 (mk_events true false false false)
    (mk {[5%nat := sample NET]} true [[]] [[]] [[]]) = None.
Proof. by apply event_after_stop_aborts. Defined.
