(* ===== verification/Handlers.v ===== *)
(** * Handlers: what the handlers of itachi/handler.{h,cc} own

    [start] and [stop] allocate and free the arrays of a handler, create and join
    its threads and make and destroy its event loops. Pointers are numbers of
    blocks in a [world], so that freeing twice, using a freed or a null pointer,
    joining a thread twice and waiting for a thread that never leaves are [None].
    Which threads leave depends on the member [stop_] and on the event loops that
    were woken since it was set, both in the [world]. Itachi.v describes what the
    threads do in between. *)

From S2P Require Import Prelude.

(** What an array holds: a pthread_t, a ThreadArg with its [id] and its [tid], a
    queue, an event loop or an ev_async; [None] while it is not written. *)
Inductive cell :=
| Pthread (t : option nat)
| Arg (id : option nat) (tid : option Z)
| Queue
| Loop (l : option nat)
| Async.

(** What the threads see of the others: the member Itachi::stop_, the event loops
    that got an ev_async_send while it was set, and of each thread the event loop
    it waits in, if it waits in one. *)
Record signals := mk_signals {
  stop_ : bool; woken : gset nat; naps : gmap nat (option nat);
}.

Record world := mk_world {
  live : gmap nat (list cell);   (* the arrays *)
  threads : gset nat;            (* threads that were created and not joined *)
  loops : gset nat;              (* event loops *)
  fresh : nat;                   (* no number from here on was used *)
  sig : signals;
}.

(** [new T[n]] *)
Definition new_array (xs : list cell) (w : world) : nat * world :=
  (fresh w, mk_world (<[fresh w := xs]> (live w)) (threads w) (loops w) (S (fresh w))
    (sig w)).

(** [if(p) { delete [] p; p = NULL; }] *)
Definition free (p : option nat) (w : world) : option (option nat * world) :=
  match p with
  | None => Some (None, w)
  | Some b => _ ← live w !! b;
              Some (None, mk_world (delete b (live w)) (threads w) (loops w) (fresh w) (sig w))
  end.

Definition load (p : option nat) (i : nat) (w : world) : option cell :=
  b ← p; xs ← live w !! b; xs !! i.

Definition store (p : option nat) (i : nat) (c : cell) (w : world) : option world :=
  b ← p; xs ← live w !! b; _ ← xs !! i;
  Some (mk_world (<[b := <[i := c]> xs]> (live w)) (threads w) (loops w) (fresh w) (sig w)).

(** [stop_ = b] *)
Definition set_stop (b : bool) (w : world) : world :=
  mk_world (live w) (threads w) (loops w) (fresh w)
    (mk_signals b (woken (sig w)) (naps (sig w))).

(** ** Handler *)
Module Handler.

(** src/code/cc/itachi/handler.h:40-47 [Handler] *)
Record t := mk { threads_ : nat; tids_ : option nat; args_ : option nat }.

(** src/code/cc/itachi/handler.cc:14-17 [Handler::Handler] *)
Definition make : t := mk 0 None None.

(** src/code/cc/itachi/handler.cc:29-38 [Handler::fini] *)
Definition fini (h : t) (w : world) : option (t * world) :=
  '(tids, w) ← free (tids_ h) w;
  '(args, w) ← free (args_ h) w;
  Some (mk (threads_ h) tids args, w).

(** src/code/cc/itachi/handler.cc:23-27 [Handler::init] *)
Definition init (n : nat) (h : t) (w : world) : option (t * world) :=
  '(h, w) ← fini h w;
  let '(tids, w) := new_array (replicate n (Pthread None)) w in
  let '(args, w) := new_array (replicate n (Arg None None)) w in
  Some (mk (threads_ h) (Some tids) (Some args), w).

(** pthread_create, given its result: the new thread, and the event loop
    thread_function waits in. *)
Definition pthread_create (ret : Z) (nap : option nat) (w : world) : option (nat * world) :=
  if ret =? 0 then
    Some (fresh w,
          mk_world (live w) ({[fresh w]} ∪ threads w) (loops w) (S (fresh w))
            (mk_signals (stop_ (sig w)) (woken (sig w)) (<[fresh w := nap]> (naps (sig w)))))
  else None.

Section start.
(** The event loop the virtual thread_function waits in, given its [id]; [None]
    where it cannot be read. *)
Variable waits : nat -> world -> option (option nat).

(** src/code/cc/itachi/handler.cc:49-58 [Handler::start (loop)]
    [rets] are the results of pthread_create for the threads from [i] on; one
    that is not 0 ends the program. *)
Fixpoint spawn (h : t) (i : nat) (rets : list Z) (w : world) : option world :=
  match rets with
  | [] => Some w
  | ret :: rets =>
      w ← store (args_ h) i (Arg (Some i) None) w;
      nap ← waits i w;
      '(tid, w) ← pthread_create ret nap w;
      w ← store (tids_ h) i (Pthread (Some tid)) w;
      spawn h (S i) rets w
  end.

(** src/code/cc/itachi/handler.cc:46-59 [Handler::start] *)
Definition start (rets : list Z) (h : t) (w : world) : option (t * world) :=
  let n := length rets in
  '(h, w) ← init n h w;
  let h := mk n (tids_ h) (args_ h) in
  w ← spawn h 0 rets w;
  Some (h, w).
End start.

(** Whether a thread is sure to leave its loop: it tests [stop_] before each turn
    and a turn ends once the clients' onComplete return, but for the wait in an
    event loop, which has to be woken after the flag was set. *)
Definition leaves (g : signals) (tid : nat) : bool :=
  match naps g !! tid with
  | Some None => stop_ g
  | Some (Some l) => stop_ g && bool_decide (l ∈ woken g)
  | None => false
  end.

(** pthread_join waits for the thread; [None] when it waits for ever or the
    thread is not there. *)
Definition pthread_join (tid : nat) (w : world) : option world :=
  if decide (tid ∈ threads w) then
    if leaves (sig w) tid then
      Some (mk_world (live w) (threads w ∖ {[tid]}) (loops w) (fresh w) (sig w))
    else None
  else None.

(** src/code/cc/itachi/handler.cc:62-64 [Handler::stop (loop)] *)
Fixpoint join (h : t) (i k : nat) (w : world) : option world :=
  match k with
  | O => Some w
  | S k =>
      c ← load (tids_ h) i w;
      match c with
      | Pthread (Some tid) => w ← pthread_join tid w; join h (S i) k w
      | _ => None
      end
  end.

(** src/code/cc/itachi/handler.cc:61-66 [Handler::stop] *)
Definition stop (h : t) (w : world) : option (t * world) :=
  w ← join h 0 (threads_ h) w; fini h w.

(** src/code/cc/itachi/handler.cc:40-44 [proxy_thread_function]
    The thread given [args_ + i] notes its [tid] and returns the [id] that
    thread_function gets. *)
Definition proxy_thread_function (args : option nat) (i : nat) (tid : Z) (w : world)
  : option (nat * world) :=
  c ← load args i w;
  match c with
  | Arg (Some id) _ => w ← store args i (Arg (Some id) (Some tid)) w; Some (id, w)
  | _ => None
  end.

(** src/code/cc/itachi/handler.h:36-38 [Handler::get_tid]
    An argument the thread has not written yet holds no [tid]. *)
Definition get_tid (n : nat) (h : t) (w : world) : option Z :=
  if Nat.eqb (threads_ h) 0 then None else
  c ← load (args_ h) (n mod threads_ h) w;
  match c with Arg _ tid => tid | _ => None end.

(** src/code/cc/itachi/handler.cc:19-21 [Handler::~Handler] *)
Definition destroy (h : t) (w : world) : option world :=
  '(_, w) ← fini h w; Some w.
End Handler.

(** ** CpuHandler *)
Module CpuHandler.

(** src/code/cc/itachi/handler.h:52-67 [CpuHandler] *)
Record t := mk { base : Handler.t; queue_ : option nat }.

(** src/code/cc/itachi/handler.cc:70-72 [CpuHandler::CpuHandler] *)
Definition make : t := mk Handler.make None.

(** src/code/cc/itachi/handler.cc:83-88 [CpuHandler::fini] *)
Definition fini (h : t) (w : world) : option (t * world) :=
  '(q, w) ← free (queue_ h) w; Some (mk (base h) q, w).

(** src/code/cc/itachi/handler.cc:78-81 [CpuHandler::init] *)
Definition init (n : nat) (h : t) (w : world) : option (t * world) :=
  '(h, w) ← fini h w;
  let '(q, w) := new_array (replicate n Queue) w in
  Some (mk (base h) (Some q), w).

(** src/code/cc/itachi/handler.cc:116-125 [CpuHandler::thread_function (wait)]
    It waits for an element for a limited time only. *)
Definition waits (id : nat) (w : world) : option (option nat) := Some None.

(** src/code/cc/itachi/handler.cc:90-93 [CpuHandler::start] *)
Definition start (rets : list Z) (h : t) (w : world) : option (t * world) :=
  '(h, w) ← init (length rets) h w;
  '(b, w) ← Handler.start waits rets (base h) w;
  Some (mk b (queue_ h), w).

(** src/code/cc/itachi/handler.cc:95-98 [CpuHandler::stop] *)
Definition stop (h : t) (w : world) : option (t * world) :=
  '(b, w) ← Handler.stop (base h) w; fini (mk b (queue_ h)) w.

(** src/code/cc/itachi/handler.cc:74-76 [CpuHandler::~CpuHandler] *)
Definition destroy (h : t) (w : world) : option world :=
  '(h, w) ← fini h w; Handler.destroy (base h) w.

(** src/code/cc/itachi/handler.cc:105-113 [CpuHandler::push (queue_[id])]
    The queue a context is put in, after the test of the flag. *)
Definition push_queue (hint : nat) (h : t) (w : world) : option nat :=
  if Nat.eqb (Handler.threads_ (base h)) 0 then None else
  let id := (hint mod Handler.threads_ (base h))%nat in
  _ ← load (queue_ h) id w; Some id.
End CpuHandler.

(** ** PollHandler *)
Module PollHandler.

(** src/code/cc/itachi/handler.h:71-87 [PollHandler] *)
Record t := mk {
  base : Handler.t; queue_ : option nat; loop_ : option nat; async_ : option nat;
}.

(** src/code/cc/itachi/handler.cc:134-136 [PollHandler::PollHandler] *)
Definition make : t := mk Handler.make None None None.

(** ev_loop_new, given whether it succeeds. *)
Definition ev_loop_new (ok : bool) (w : world) : option (nat * world) :=
  if ok then
    Some (fresh w, mk_world (live w) (threads w) ({[fresh w]} ∪ loops w) (S (fresh w)) (sig w))
  else None.

Definition ev_loop_destroy (l : nat) (w : world) : option world :=
  if decide (l ∈ loops w) then
    Some (mk_world (live w) (threads w) (loops w ∖ {[l]}) (fresh w) (sig w))
  else None.

(** ev_async_send: the loop's ev_run returns, in this turn or in the next. *)
Definition ev_async_send (l : nat) (w : world) : option world :=
  if decide (l ∈ loops w) then
    Some (if stop_ (sig w) then
            mk_world (live w) (threads w) (loops w) (fresh w)
              (mk_signals true ({[l]} ∪ woken (sig w)) (naps (sig w)))
          else w)
  else None.

(** [loop_[i]] *)
Definition load_loop (h : t) (i : nat) (w : world) : option nat :=
  match load (loop_ h) i w with Some (Loop l) => l | _ => None end.

(** src/code/cc/itachi/handler.cc:168-173 [PollHandler::fini (loop)] *)
Fixpoint destroy_loops (h : t) (i k : nat) (w : world) : option world :=
  match k with
  | O => Some w
  | S k =>
      l ← load_loop h i w; w ← ev_loop_destroy l w; destroy_loops h (S i) k w
  end.

(** src/code/cc/itachi/handler.cc:163-181 [PollHandler::fini] *)
Definition fini (h : t) (w : world) : option (t * world) :=
  '(q, w) ← free (queue_ h) w;
  w ← (if loop_ h then destroy_loops h 0 (Handler.threads_ (base h)) w else Some w);
  '(l, w) ← free (loop_ h) w;
  '(a, w) ← free (async_ h) w;
  Some (mk (base h) q l a, w).

(** src/code/cc/itachi/handler.cc:153-161 [PollHandler::init (loop)]
    [oks] says which of the event loops from [i] on libev can make; one it
    cannot ends the program. *)
Fixpoint make_loops (h : t) (i : nat) (oks : list bool) (w : world) : option world :=
  match oks with
  | [] => Some w
  | ok :: oks =>
      '(l, w) ← ev_loop_new ok w;
      w ← store (loop_ h) i (Loop (Some l)) w;
      _ ← load (async_ h) i w;
      make_loops h (S i) oks w
  end.

(** src/code/cc/itachi/handler.cc:148-161 [PollHandler::init] *)
Definition init (oks : list bool) (h : t) (w : world) : option (t * world) :=
  let n := length oks in
  '(h, w) ← fini h w;
  let '(q, w) := new_array (replicate n Queue) w in
  let '(l, w) := new_array (replicate n (Loop None)) w in
  let '(a, w) := new_array (replicate n Async) w in
  let h := mk (base h) (Some q) (Some l) (Some a) in
  w ← make_loops h 0 oks w;
  Some (h, w).

(** src/code/cc/itachi/handler.cc:233-238 [PollHandler::thread_function (ev_run)] *)
Definition waits (h : t) (id : nat) (w : world) : option (option nat) :=
  Some <$> load_loop h id w.

(** src/code/cc/itachi/handler.cc:183-186 [PollHandler::start] *)
Definition start (oks : list bool) (rets : list Z) (h : t) (w : world)
  : option (t * world) :=
  '(h, w) ← init oks h w;
  '(b, w) ← Handler.start (waits h) rets (base h) w;
  Some (mk b (queue_ h) (loop_ h) (async_ h), w).

(** src/code/cc/itachi/handler.cc:190-192 [PollHandler::stop (loop)] *)
Fixpoint wake (h : t) (i k : nat) (w : world) : option world :=
  match k with
  | O => Some w
  | S k =>
      l ← load_loop h i w; _ ← load (async_ h) i w;
      w ← ev_async_send l w; wake h (S i) k w
  end.

(** src/code/cc/itachi/handler.cc:189-195 [PollHandler::stop] *)
Definition stop (h : t) (w : world) : option (t * world) :=
  w ← wake h 0 (Handler.threads_ (base h)) w;
  '(b, w) ← Handler.stop (base h) w;
  fini (mk b (queue_ h) (loop_ h) (async_ h)) w.

(** src/code/cc/itachi/handler.cc:138-140 [PollHandler::~PollHandler] *)
Definition destroy (h : t) (w : world) : option world :=
  '(h, w) ← fini h w; Handler.destroy (base h) w.
End PollHandler.

(** ** The two handlers of the dispatcher *)

(** src/code/cc/itachi/itachi.h:115-120 [Itachi]
    Its member [stop_] is in the world, where the threads of the handlers see it. *)
Record itachi := mk { cpu_handler_ : CpuHandler.t; poll_handler_ : PollHandler.t }.

(** src/code/cc/itachi/itachi.cc:76-80 [Itachi::Itachi] *)
Definition make (w : world) : itachi * world :=
  (mk CpuHandler.make PollHandler.make, set_stop true w).

(** src/code/cc/itachi/itachi.cc:82-91 [Itachi::start]
    [cr] and [pr] are the results of creating the CPU and the poll threads,
    [oks] those of making the event loops. *)
Definition start (cr : list Z) (oks : list bool) (pr : list Z) (s : itachi) (w : world)
  : option (Z * itachi * world) :=
  if negb (stop_ (sig w)) then Some (-1, s, w) else
  let w := set_stop false w in
  '(c, w) ← CpuHandler.start cr (cpu_handler_ s) w;
  '(p, w) ← PollHandler.start oks pr (poll_handler_ s) w;
  Some (0, mk c p, w).

(** src/code/cc/itachi/itachi.cc:93-97 [Itachi::stop] *)
Definition stop (s : itachi) (w : world) : option (itachi * world) :=
  let w := set_stop true w in
  '(c, w) ← CpuHandler.stop (cpu_handler_ s) w;
  '(p, w) ← PollHandler.stop (poll_handler_ s) w;
  Some (mk c p, w).

(** src/code/cc/itachi/itachi.h:106-106 [Itachi::~Itachi]
    The members are destroyed in the opposite order of their declaration. *)
Definition destroy (s : itachi) (w : world) : option world :=
  w ← PollHandler.destroy (poll_handler_ s) w;
  CpuHandler.destroy (cpu_handler_ s) w.

(** ** One array at a time *)

Lemma insert_at {A} (pre : list A) i (x y : A) rest :
  length pre = i -> <[i := x]> (pre ++ y :: rest) = pre ++ x :: rest.
Proof. intros <-. by rewrite insert_app_r_alt, Nat.sub_diag by lia. Qed.

Lemma lookup_at {A} (pre : list A) i (y : A) rest :
  length pre = i -> (pre ++ y :: rest) !! i = Some y.
Proof. intros <-. by rewrite list_lookup_middle. Qed.

(** A world with two arrays at [a] and [b] over the others. *)
Definition two (m : gmap nat (list cell)) (a : nat) (xa : list cell) (b : nat) (xb : list cell)
    (thr lps : gset nat) (f : nat) (g : signals) : world :=
  mk_world (<[b := xb]> (<[a := xa]> m)) thr lps f g.

Section two_arrays.
Context (m : gmap nat (list cell)) (a b : nat) (Hab : a <> b).

Lemma store_snd xa pre y rest thr lps f g i c :
  length pre = i ->
  store (Some b) i c (two m a xa b (pre ++ y :: rest) thr lps f g) =
  Some (two m a xa b (pre ++ c :: rest) thr lps f g).
Proof.
  intros Hi. unfold store, two. cbn [mbind option_bind live threads loops fresh sig].
  rewrite lookup_insert_eq. cbn [mbind option_bind]. rewrite (lookup_at _ i) by done.
  cbn [mbind option_bind]. by rewrite (insert_at _ i), insert_insert_eq by done.
Qed.

Lemma store_fst xb pre y rest thr lps f g i c :
  length pre = i ->
  store (Some a) i c (two m a (pre ++ y :: rest) b xb thr lps f g) =
  Some (two m a (pre ++ c :: rest) b xb thr lps f g).
Proof.
  intros Hi. unfold store, two. cbn [mbind option_bind live threads loops fresh sig].
  rewrite lookup_insert_ne, lookup_insert_eq by done. cbn [mbind option_bind].
  rewrite (lookup_at _ i) by done. cbn [mbind option_bind]. rewrite (insert_at _ i) by done.
  by rewrite (insert_insert_ne _ a b), insert_insert_eq by done.
Qed.

Lemma load_snd xa xb thr lps f g i : load (Some b) i (two m a xa b xb thr lps f g) = xb !! i.
Proof. unfold load, two. cbn. by rewrite lookup_insert_eq. Qed.

Lemma load_fst xa xb thr lps f g i : load (Some a) i (two m a xa b xb thr lps f g) = xa !! i.
Proof. unfold load, two. cbn. by rewrite lookup_insert_ne, lookup_insert_eq. Qed.
End two_arrays.

(** ** Starting *)

Definition pthreads (ts : list nat) : list cell := (fun t => Pthread (Some t)) <$> ts.
Definition arguments (i n : nat) : list cell := (fun j => Arg (Some j) None) <$> seq i n.
Definition ev_loops (ls : list nat) : list cell := (fun l => Loop (Some l)) <$> ls.

(** Threads [f], [f + 1], ... that wait in the event loops [kd i], [kd (i + 1)], ... *)
Fixpoint asleep (kd : nat -> option nat) (f i k : nat) (np : gmap nat (option nat))
  : gmap nat (option nat) :=
  match k with
  | O => np
  | S k => asleep kd (S f) (S i) k (<[f := kd i]> np)
  end.

Lemma asleep_below kd k f i np x : (x < f)%nat -> asleep kd f i k np !! x = np !! x.
Proof.
  revert f i np. induction k as [|k IH]; intros f i np Hx; [done|].
  cbn [asleep]. rewrite IH by lia. by rewrite lookup_insert_ne by lia.
Qed.

Lemma asleep_lookup kd k f i np j :
  (j < k)%nat -> asleep kd f i k np !! (f + j)%nat = Some (kd (i + j)%nat).
Proof.
  revert f i np j. induction k as [|k IH]; intros f i np j Hj; [lia|]. cbn [asleep].
  destruct j as [|j].
  - rewrite !Nat.add_0_r, asleep_below by lia. by rewrite lookup_insert_eq.
  - replace (f + S j)%nat with (S f + j)%nat by lia.
    replace (i + S j)%nat with (S i + j)%nat by lia. apply IH. lia.
Qed.

Definition with_naps (np : gmap nat (option nat)) (g : signals) : signals :=
  mk_signals (stop_ g) (woken g) np.

Lemma create_two m a xa b xb thr lps f g nap :
  Handler.pthread_create 0 nap (two m a xa b xb thr lps f g) =
  Some (f, two m a xa b xb ({[f]} ∪ thr) lps (S f) (with_naps (<[f := nap]> (naps g)) g)).
Proof. done. Qed.

Section starting.
(** A handler whose thread [j] waits in [kd j], which does not depend on what the
    two arrays of the base class hold. *)
Context (waits : nat -> world -> option (option nat)) (kd : nat -> option nat).
Context (m : gmap nat (list cell)) (a b N : nat).
Context (Hwaits : forall j xa xb thr lps f g,
  (j < N)%nat -> waits j (two m a xa b xb thr lps f g) = Some (kd j)).

Lemma spawn_spec k i n ta pa thr lps f g :
  a <> b -> length ta = i -> length pa = i -> (i + k <= N)%nat ->
  Handler.spawn waits (Handler.mk n (Some a) (Some b)) i (replicate k 0)
    (two m a (ta ++ replicate k (Pthread None)) b (pa ++ replicate k (Arg None None)) thr lps f g) =
  Some (two m a (ta ++ pthreads (seq f k)) b (pa ++ arguments i k)
          (list_to_set (seq f k) ∪ thr) lps (f + k) (with_naps (asleep kd f i k (naps g)) g)).
Proof.
  intros Hab. revert i ta pa thr f g. induction k as [|k IH]; intros i ta pa thr f g Ht Hp HN.
  { cbn. rewrite !app_nil_r, Nat.add_0_r. destruct g. do 2 f_equal. set_solver. }
  cbn [replicate Handler.spawn Handler.args_ Handler.tids_].
  rewrite (store_snd m a b) by done. cbn [mbind option_bind].
  rewrite Hwaits by lia. cbn [mbind option_bind].
  rewrite create_two. cbn [mbind option_bind].
  rewrite (store_fst m a b) by done. cbn [mbind option_bind].
  rewrite !cons_middle, !app_assoc.
  rewrite IH by (rewrite ?length_app; simpl; lia).
  unfold pthreads, arguments. cbn [seq fmap list_fmap]. rewrite <- !app_assoc.
  do 2 f_equal; [|lia]. cbn [list_to_set].
  by rewrite union_assoc_L, (union_comm_L _ {[f]}).
Qed.
End starting.

(** Starting the threads of a handler that has none. *)
Lemma handler_start_spec waits kd n h w :
  let f := fresh w in
  (forall j xa xb thr lps f' g, (j < n)%nat ->
     waits j (two (live w) f xa (S f) xb thr lps f' g) = Some (kd j)) ->
  Handler.tids_ h = None -> Handler.args_ h = None ->
  Handler.start waits (replicate n 0) h w =
  Some (Handler.mk n (Some f) (Some (S f)),
        two (live w) f (pthreads (seq (S (S f)) n)) (S f) (arguments 0 n)
          (list_to_set (seq (S (S f)) n) ∪ threads w) (loops w) (S (S f) + n)
          (with_naps (asleep kd (S (S f)) 0 n (naps (sig w))) (sig w))).
Proof.
  intros f Hw Ht Ha. subst f. unfold Handler.start, Handler.init, Handler.fini. rewrite Ht, Ha.
  cbn [free mbind option_bind Handler.threads_ Handler.tids_ Handler.args_].
  rewrite length_replicate. unfold new_array. cbn [live threads loops fresh sig].
  cbn [mbind option_bind Handler.threads_ Handler.tids_ Handler.args_].
  pose proof (spawn_spec waits kd (live w) (fresh w) (S (fresh w)) n Hw n 0 n [] []
    (threads w) (loops w) (S (S (fresh w))) (sig w) ltac:(lia)
    eq_refl eq_refl ltac:(lia)) as H.
  unfold two at 1 in H. cbn [app] in H. by rewrite H.
Qed.

Lemma make_loops_spec k m a b i h la xa thr lps f g :
  a <> b -> PollHandler.loop_ h = Some a -> PollHandler.async_ h = Some b ->
  length la = i -> (i + k <= length xa)%nat ->
  PollHandler.make_loops h i (replicate k true)
    (two m a (la ++ replicate k (Loop None)) b xa thr lps f g) =
  Some (two m a (la ++ ev_loops (seq f k)) b xa thr (list_to_set (seq f k) ∪ lps) (f + k) g).
Proof.
  intros Hab Hl Ha. revert i la lps f. induction k as [|k IH]; intros i la lps f Hi Hx.
  { cbn. rewrite !app_nil_r, Nat.add_0_r. do 2 f_equal. set_solver. }
  cbn [replicate PollHandler.make_loops]. unfold PollHandler.ev_loop_new.
  cbn [mbind option_bind]. rewrite Hl, Ha.
  change (mk_world _ _ _ _ _) with
    (two m a (la ++ Loop None :: replicate k (Loop None)) b xa thr ({[f]} ∪ lps) (S f) g).
  change (fresh _) with f.
  rewrite (store_fst m a b) by done. cbn [mbind option_bind].
  rewrite (load_snd m a b) by done.
  destruct (xa !! i) eqn:E; [|apply lookup_ge_None in E; lia]. cbn [mbind option_bind].
  rewrite cons_middle, app_assoc, IH by (rewrite ?length_app; simpl; lia).
  unfold ev_loops. cbn [seq fmap list_fmap]. rewrite <- !app_assoc.
  do 2 f_equal; [|lia]. cbn [list_to_set].
  by rewrite union_assoc_L, (union_comm_L _ {[f]}).
Qed.

Lemma cpu_start_spec n h w :
  Handler.tids_ (CpuHandler.base h) = None -> Handler.args_ (CpuHandler.base h) = None ->
  CpuHandler.queue_ h = None ->
  let f := fresh w in
  CpuHandler.start (replicate n 0) h w =
  Some (CpuHandler.mk (Handler.mk n (Some (S f)) (Some (S (S f)))) (Some f),
        two (<[f := replicate n Queue]> (live w)) (S f) (pthreads (seq (S (S (S f))) n))
          (S (S f)) (arguments 0 n)
          (list_to_set (seq (S (S (S f))) n) ∪ threads w) (loops w) (S (S (S f)) + n)
          (with_naps (asleep (fun _ => None) (S (S (S f))) 0 n (naps (sig w))) (sig w))).
Proof.
  intros Ht Ha Hq f. subst f. unfold CpuHandler.start, CpuHandler.init, CpuHandler.fini.
  rewrite Hq, length_replicate. cbn [free mbind option_bind CpuHandler.base CpuHandler.queue_].
  unfold new_array. cbn [mbind option_bind CpuHandler.base CpuHandler.queue_].
  by rewrite (handler_start_spec _ (fun _ => None)).
Qed.

Lemma poll_start_spec n h w :
  Handler.tids_ (PollHandler.base h) = None -> Handler.args_ (PollHandler.base h) = None ->
  PollHandler.queue_ h = None -> PollHandler.loop_ h = None -> PollHandler.async_ h = None ->
  let f := fresh w in
  let g := (S (S (S f)) + n)%nat in
  PollHandler.start (replicate n true) (replicate n 0) h w =
  Some (PollHandler.mk (Handler.mk n (Some g) (Some (S g))) (Some f) (Some (S f)) (Some (S (S f))),
        two (<[S (S f) := replicate n Async]> (<[S f := ev_loops (seq (S (S (S f))) n)]>
               (<[f := replicate n Queue]> (live w))))
          g (pthreads (seq (S (S g)) n)) (S g) (arguments 0 n)
          (list_to_set (seq (S (S g)) n) ∪ threads w)
          (list_to_set (seq (S (S (S f))) n) ∪ loops w) (S (S g) + n)
          (with_naps (asleep (fun j => Some (S (S (S f)) + j)%nat) (S (S g)) 0 n (naps (sig w)))
             (sig w))).
Proof.
  intros Ht Ha Hq Hl Hs f g. subst f g.
  unfold PollHandler.start, PollHandler.init, PollHandler.fini.
  rewrite Hq, Hl, Hs, length_replicate.
  cbn [free mbind option_bind PollHandler.base PollHandler.queue_ PollHandler.loop_
       PollHandler.async_].
  unfold new_array. cbn [live threads loops fresh sig].
  pose proof (make_loops_spec n (<[fresh w := replicate n Queue]> (live w)) (S (fresh w))
    (S (S (fresh w))) 0
    (PollHandler.mk (PollHandler.base h) (Some (fresh w)) (Some (S (fresh w)))
       (Some (S (S (fresh w))))) [] (replicate n Async) (threads w) (loops w)
    (S (S (S (fresh w)))) (sig w) ltac:(lia) eq_refl eq_refl eq_refl) as H.
  rewrite length_replicate in H. specialize (H ltac:(lia)).
  unfold two at 1 in H. cbn [app] in H. rewrite H.
  cbn [mbind option_bind PollHandler.base PollHandler.queue_ PollHandler.loop_
       PollHandler.async_].
  rewrite (handler_start_spec _ (fun j => Some (S (S (S (fresh w))) + j)%nat)); [done| |done..].
  intros j xa xb thr lps f' g Hj. unfold PollHandler.waits, PollHandler.load_loop, load, two.
  cbn [mbind option_bind live fresh PollHandler.loop_].
  rewrite !lookup_insert_ne, lookup_insert_eq by lia. cbn [mbind option_bind app].
  unfold ev_loops. by rewrite list_lookup_fmap, lookup_seq_lt.
Qed.

(** ** Stopping *)

Lemma join_spec h t pre ts w :
  Handler.tids_ h = Some t -> live w !! t = Some (pthreads (pre ++ ts)) ->
  NoDup ts -> (forall x, x ∈ ts -> x ∈ threads w /\ Handler.leaves (sig w) x = true) ->
  Handler.join h (length pre) (length ts) w =
  Some (mk_world (live w) (threads w ∖ list_to_set ts) (loops w) (fresh w) (sig w)).
Proof.
  intros Ht. revert pre w. induction ts as [|x ts IH]; intros pre w Hl Hnd Hin.
  { destruct w. cbn. do 2 f_equal. set_solver. }
  cbn [length Handler.join]. unfold load. rewrite Ht. cbn [mbind option_bind]. rewrite Hl.
  cbn [mbind option_bind]. unfold pthreads. rewrite fmap_app. cbn [fmap list_fmap].
  rewrite lookup_at by by rewrite length_fmap. cbn [mbind option_bind].
  destruct (Hin x ltac:(set_solver)) as [Hx Hlv].
  unfold Handler.pthread_join. rewrite decide_True, Hlv by done.
  cbn [mbind option_bind]. apply NoDup_cons in Hnd as [Hx' Hnd].
  replace (S (length pre)) with (length (pre ++ [x])) by (rewrite length_app; simpl; lia).
  rewrite IH; cbn [live threads loops fresh sig]; [|by rewrite <- app_assoc|done|].
  - do 2 f_equal. cbn [list_to_set]. by rewrite difference_difference_l_L.
  - intros y Hy. destruct (Hin y ltac:(set_solver)) as [Hy' Hlv'].
    split; [|done]. apply elem_of_difference. split; [done|].
    intros ->%elem_of_singleton. done.
Qed.

Lemma load_loop_spec h l pre x ls w :
  PollHandler.loop_ h = Some l -> live w !! l = Some (ev_loops (pre ++ x :: ls)) ->
  PollHandler.load_loop h (length pre) w = Some x.
Proof.
  intros Hl E. unfold PollHandler.load_loop, load. rewrite Hl. cbn [mbind option_bind].
  rewrite E. cbn [mbind option_bind]. unfold ev_loops. rewrite fmap_app.
  cbn [fmap list_fmap]. by rewrite lookup_at by by rewrite length_fmap.
Qed.

Lemma destroy_loops_spec h l pre ls w :
  PollHandler.loop_ h = Some l -> live w !! l = Some (ev_loops (pre ++ ls)) ->
  NoDup ls -> (forall x, x ∈ ls -> x ∈ loops w) ->
  PollHandler.destroy_loops h (length pre) (length ls) w =
  Some (mk_world (live w) (threads w) (loops w ∖ list_to_set ls) (fresh w) (sig w)).
Proof.
  intros Ht. revert pre w. induction ls as [|x ls IH]; intros pre w Hl Hnd Hin.
  { destruct w. cbn. do 2 f_equal. set_solver. }
  cbn [length PollHandler.destroy_loops].
  rewrite (load_loop_spec h l pre x ls) by done. cbn [mbind option_bind].
  unfold PollHandler.ev_loop_destroy. rewrite decide_True by (apply Hin; set_solver).
  cbn [mbind option_bind]. apply NoDup_cons in Hnd as [Hx Hnd].
  replace (S (length pre)) with (length (pre ++ [x])) by (rewrite length_app; simpl; lia).
  rewrite IH; cbn [live threads loops fresh sig]; [|by rewrite <- app_assoc|done|].
  - do 2 f_equal. cbn [list_to_set]. by rewrite difference_difference_l_L.
  - intros y Hy. apply elem_of_difference. split; [apply Hin; set_solver|].
    intros ->%elem_of_singleton. done.
Qed.

Lemma free_spec b xs w :
  live w !! b = Some xs ->
  free (Some b) w =
  Some (None, mk_world (delete b (live w)) (threads w) (loops w) (fresh w) (sig w)).
Proof. intros H. unfold free. by rewrite H. Qed.

(** The base handler gives back its arrays and its threads. *)
Lemma handler_stop_spec t a ts xa w :
  t <> a -> live w !! t = Some (pthreads ts) -> live w !! a = Some xa ->
  NoDup ts -> (forall x, x ∈ ts -> x ∈ threads w /\ Handler.leaves (sig w) x = true) ->
  Handler.stop (Handler.mk (length ts) (Some t) (Some a)) w =
  Some (Handler.mk (length ts) None None,
        mk_world (delete a (delete t (live w))) (threads w ∖ list_to_set ts) (loops w) (fresh w)
          (sig w)).
Proof.
  intros Hta Ht Ha Hnd Hin. unfold Handler.stop. cbn [Handler.threads_].
  rewrite (join_spec _ t [] ts) by done. cbn [mbind option_bind].
  unfold Handler.fini. cbn [Handler.tids_ Handler.args_].
  rewrite (free_spec t (pthreads ts)) by done. cbn [mbind option_bind live].
  rewrite (free_spec a xa); [done|]. cbn [live]. by rewrite lookup_delete_ne.
Qed.

Lemma cpu_stop_spec q t a ts xq xa w :
  NoDup [q; t; a] ->
  live w !! q = Some xq -> live w !! t = Some (pthreads ts) -> live w !! a = Some xa ->
  NoDup ts -> (forall x, x ∈ ts -> x ∈ threads w /\ Handler.leaves (sig w) x = true) ->
  CpuHandler.stop (CpuHandler.mk (Handler.mk (length ts) (Some t) (Some a)) (Some q)) w =
  Some (CpuHandler.mk (Handler.mk (length ts) None None) None,
        mk_world (delete q (delete a (delete t (live w)))) (threads w ∖ list_to_set ts)
          (loops w) (fresh w) (sig w)).
Proof.
  rewrite !NoDup_cons, !not_elem_of_cons. intros ((? & ? & _) & (? & _) & _) Hq Ht Ha Hnd Hin.
  unfold CpuHandler.stop. cbn [CpuHandler.base].
  rewrite (handler_stop_spec t a ts xa) by done. cbn [mbind option_bind].
  unfold CpuHandler.fini. cbn [CpuHandler.queue_ CpuHandler.base].
  rewrite (free_spec q xq); [done|]. cbn [live]. by rewrite !lookup_delete_ne by done.
Qed.

Definition wakened (ls : list nat) (g : signals) : signals :=
  mk_signals (stop_ g) (list_to_set ls ∪ woken g) (naps g).

(** Once the flag is set every event loop is woken. *)
Lemma wake_spec h l y pre ls xy w :
  PollHandler.loop_ h = Some l -> PollHandler.async_ h = Some y ->
  live w !! l = Some (ev_loops (pre ++ ls)) -> live w !! y = Some xy ->
  length xy = (length pre + length ls)%nat ->
  stop_ (sig w) = true -> (forall x, x ∈ ls -> x ∈ loops w) ->
  PollHandler.wake h (length pre) (length ls) w =
  Some (mk_world (live w) (threads w) (loops w) (fresh w) (wakened ls (sig w))).
Proof.
  intros Hl Hy. revert pre w. induction ls as [|x ls IH]; intros pre w Hxl Hxy Hn Hf Hin.
  { destruct w as [? ? ? ? []]. unfold wakened. cbn. by rewrite union_empty_l_L. }
  cbn [length] in Hn. cbn [length PollHandler.wake].
  rewrite (load_loop_spec h l pre x ls) by done. cbn [mbind option_bind].
  unfold load at 1. rewrite Hy. cbn [mbind option_bind]. rewrite Hxy. cbn [mbind option_bind].
  destruct (xy !! length pre) eqn:E; [|apply lookup_ge_None in E; lia].
  cbn [mbind option_bind]. unfold PollHandler.ev_async_send.
  rewrite decide_True by (apply Hin; constructor). rewrite Hf. cbn [mbind option_bind].
  replace (S (length pre)) with (length (pre ++ [x])) by (rewrite length_app; simpl; lia).
  rewrite IH; cbn [live threads loops fresh sig stop_ woken naps]; [|by rewrite <- app_assoc|done| |done|].
  - unfold wakened. cbn [stop_ woken naps list_to_set]. rewrite Hf. do 3 f_equal.
    rewrite union_assoc_L. by rewrite (union_comm_L _ {[x]}).
  - rewrite length_app. simpl. lia.
  - intros z Hz. apply Hin. set_solver.
Qed.

Lemma poll_stop_spec q l y t a ts ls xq xy xa w :
  NoDup [q; l; y; t; a] -> length ls = length ts -> length xy = length ts ->
  live w !! q = Some xq -> live w !! l = Some (ev_loops ls) -> live w !! y = Some xy ->
  live w !! t = Some (pthreads ts) -> live w !! a = Some xa ->
  stop_ (sig w) = true ->
  NoDup ts ->
  (forall x, x ∈ ts -> x ∈ threads w /\ Handler.leaves (wakened ls (sig w)) x = true) ->
  NoDup ls -> (forall x, x ∈ ls -> x ∈ loops w) ->
  PollHandler.stop (PollHandler.mk (Handler.mk (length ts) (Some t) (Some a)) (Some q) (Some l)
    (Some y)) w =
  Some (PollHandler.mk (Handler.mk (length ts) None None) None None None,
        mk_world (delete y (delete l (delete q (delete a (delete t (live w))))))
          (threads w ∖ list_to_set ts) (loops w ∖ list_to_set ls) (fresh w)
          (wakened ls (sig w))).
Proof.
  rewrite !NoDup_cons, !not_elem_of_cons.
  intros ((? & ? & ? & ? & _) & (? & ? & ? & _) & (? & ? & _) & (? & _) & _) Els Exy
    Hq Hl Hy Ht Ha Hf Hnd Hin Hndl Hinl.
  unfold PollHandler.stop. cbn [PollHandler.base Handler.threads_].
  pose proof (wake_spec (PollHandler.mk (Handler.mk (length ts) (Some t) (Some a)) (Some q)
    (Some l) (Some y)) l y [] ls xy w eq_refl eq_refl Hl Hy) as Hwake.
  cbn [length] in Hwake. rewrite Els in Hwake. rewrite Hwake by done. clear Hwake.
  cbn [mbind option_bind].
  rewrite (handler_stop_spec t a ts xa) by done. cbn [mbind option_bind].
  unfold PollHandler.fini.
  cbn [PollHandler.queue_ PollHandler.base PollHandler.loop_ PollHandler.async_
       Handler.threads_].
  rewrite (free_spec q xq); [|cbn [live]; by rewrite !lookup_delete_ne by done].
  cbn [mbind option_bind live threads loops fresh sig].
  rewrite <- Els at 2. rewrite (destroy_loops_spec _ l [] ls);
    [|done|cbn [live app]; by rewrite !lookup_delete_ne by done|done|done].
  cbn [mbind option_bind live threads loops fresh sig].
  rewrite (free_spec l (ev_loops ls)); [|cbn [live]; by rewrite !lookup_delete_ne by done].
  cbn [mbind option_bind live threads loops fresh sig].
  rewrite (free_spec y xy); [|cbn [live]; by rewrite !lookup_delete_ne by done].
  done.
Qed.

(** ** The life of a dispatcher *)

(** Numbers from [fresh] on are not in use. *)
Definition world_ok (w : world) : Prop :=
  forall x, (fresh w <= x)%nat ->
    live w !! x = None /\ x ∉ threads w /\ x ∉ loops w.

(** The handlers own nothing; they keep the numbers of threads they last had. *)
Definition idle (c p : nat) : itachi :=
  mk (CpuHandler.mk (Handler.mk c None None) None)
    (PollHandler.mk (Handler.mk p None None) None None None).

Definition same_resources (w w' : world) : Prop :=
  live w' = live w /\ threads w' = threads w /\ loops w' = loops w.

Lemma fresh_two m a xa b xb thr lps f g : fresh (two m a xa b xb thr lps f g) = f.
Proof. done. Qed.
Lemma live_two m a xa b xb thr lps f g :
  live (two m a xa b xb thr lps f g) = <[b := xb]> (<[a := xa]> m).
Proof. done. Qed.
Lemma threads_two m a xa b xb thr lps f g : threads (two m a xa b xb thr lps f g) = thr.
Proof. done. Qed.
Lemma loops_two m a xa b xb thr lps f g : loops (two m a xa b xb thr lps f g) = lps.
Proof. done. Qed.
Lemma sig_two m a xa b xb thr lps f g : sig (two m a xa b xb thr lps f g) = g.
Proof. done. Qed.

Definition start_all (c p : nat) : itachi -> world -> option (Z * itachi * world) :=
  start (replicate c 0) (replicate p true) (replicate p 0).

Lemma give_back (A B T : gset nat) : A ## T -> B ## T -> (A ∪ (B ∪ T)) ∖ B ∖ A = T.
Proof. set_solver. Qed.

Lemma give_back_one (A T : gset nat) : A ## T -> (A ∪ T) ∖ A = T.
Proof. set_solver. Qed.

Ltac look :=
  repeat first [ rewrite lookup_insert_eq | rewrite lookup_insert_ne by lia
               | rewrite lookup_delete_ne by lia ].

Lemma seq_fresh (P : nat -> Prop) f i n :
  (forall x, (f <= x)%nat -> P x) -> (f <= i)%nat -> forall x, x ∈ seq i n -> P x.
Proof. intros H Hi x Hx%elem_of_seq. apply H. lia. Qed.

Lemma seq_disjoint (X : gset nat) f i n :
  (forall x, (f <= x)%nat -> x ∉ X) -> (f <= i)%nat -> (list_to_set (seq i n) : gset nat) ## X.
Proof.
  intros H Hi. apply elem_of_disjoint. intros x Hx%elem_of_list_to_set%elem_of_seq.
  apply H. lia.
Qed.

(** The CPU threads leave once the flag is set; the poll threads, which were made
    later, once their event loops are woken as well. *)
Lemma cpu_leaves kd f c F p i np wk x :
  (f + c <= F)%nat -> x ∈ seq f c ->
  Handler.leaves (mk_signals true wk (asleep kd F i p (asleep (fun _ => None) f i c np))) x = true.
Proof.
  intros HF Hx%elem_of_seq. unfold Handler.leaves. cbn [naps stop_ woken].
  rewrite asleep_below by lia. replace x with (f + (x - f))%nat by lia.
  by rewrite asleep_lookup by lia.
Qed.

Lemma poll_leaves l F p np wk x :
  x ∈ seq F p ->
  Handler.leaves (mk_signals true (list_to_set (seq l p) ∪ wk)
    (asleep (fun j => Some (l + j)%nat) F 0 p np)) x = true.
Proof.
  intros Hx%elem_of_seq. unfold Handler.leaves. cbn [naps stop_ woken].
  replace x with (F + (x - F))%nat by lia. rewrite asleep_lookup by lia.
  apply bool_decide_eq_true_2. rewrite elem_of_union, elem_of_list_to_set, elem_of_seq.
  left. lia.
Qed.

(** Starting an idle dispatcher succeeds and creates the threads asked for;
    stopping it then joins them all and gives everything back. *)
Lemma start_stop c0 p0 c p w :
  world_ok w -> stop_ (sig w) = true ->
  exists s w', start_all c p (idle c0 p0) w = Some (0, s, w') /\ stop_ (sig w') = false /\
    (exists ts, length ts = (c + p)%nat /\ NoDup ts /\
      threads w' = list_to_set ts ∪ threads w /\ (forall x, x ∈ ts -> x ∉ threads w)) /\
    exists w'', stop s w' = Some (idle c p, w'') /\ same_resources w w'' /\ world_ok w'' /\
      stop_ (sig w'') = true.
Proof.
  intros Hok Hflag. unfold start_all, start, idle. rewrite Hflag.
  cbn [negb cpu_handler_ poll_handler_].
  rewrite cpu_start_spec by done. cbn [mbind option_bind].
  rewrite poll_start_spec by done. cbn [mbind option_bind].
  rewrite ?fresh_two, ?live_two, ?threads_two, ?loops_two, ?sig_two.
  cbn [set_stop live threads loops fresh sig].
  set (f := fresh w) in *. set (F := (S (S (S f)) + c)%nat). set (G := (S (S (S F)) + p)%nat).
  assert (forall x, (f <= x)%nat -> live w !! x = None) as Hl by (intros; by apply Hok).
  assert (forall x, (f <= x)%nat -> x ∉ threads w) as Ht by (intros; by apply Hok).
  assert (forall x, (f <= x)%nat -> x ∉ loops w) as Hp by (intros; by apply Hok).
  eexists _, _. split; [done|]. split; [done|].
  assert (F = S (S (S f)) + c)%nat as EF by done.
  assert (G = S (S (S F)) + p)%nat as EG by done. clearbody F G. split.
  { exists (seq (S (S G)) p ++ seq (S (S (S f))) c). cbn [threads two]. split_and!.
    - rewrite length_app, !length_seq. lia.
    - apply NoDup_app. split_and!; [apply NoDup_seq| |apply NoDup_seq].
      intros x Hx%elem_of_seq Hy%elem_of_seq. lia.
    - rewrite list_to_set_app_L. by rewrite union_assoc_L.
    - intros x [Hx|Hx]%elem_of_app; revert x Hx; eapply seq_fresh; try done; lia. }
  unfold stop. cbn [cpu_handler_ poll_handler_].
  unfold set_stop. rewrite ?live_two, ?threads_two, ?loops_two, ?fresh_two, ?sig_two.
  unfold with_naps. cbn [stop_ woken naps].
  pose proof (cpu_stop_spec f (S f) (S (S f)) (seq (S (S (S f))) c)) as Hc.
  rewrite length_seq in Hc.
  erewrite Hc; clear Hc; cbn [live threads loops fresh sig].
  2: { rewrite !NoDup_cons, !not_elem_of_cons, NoDup_nil. set_solver by lia. }
  2-4: by look.
  2: apply NoDup_seq.
  2: { intros x Hx. split; [set_solver|]. apply cpu_leaves; [lia|done]. }
  cbn [mbind option_bind].
  pose proof (poll_stop_spec F (S F) (S (S F)) G (S G) (seq (S (S G)) p) (seq (S (S (S F))) p))
    as Hc.
  rewrite !length_seq in Hc.
  erewrite Hc; clear Hc; cbn [live threads loops fresh sig].
  2: { rewrite !NoDup_cons, !not_elem_of_cons, NoDup_nil. set_solver by lia. }
  2: done.
  2: apply length_replicate.
  2-6: by look.
  2: done.
  2, 4: apply NoDup_seq.
  2: { intros x Hx. split; [|by apply poll_leaves].
       pose proof Hx as Hx'%elem_of_seq. apply elem_of_difference. split; [set_solver|].
       intros Hy%elem_of_list_to_set%elem_of_seq. lia. }
  2: intros; set_solver.
  eexists. split; [done|]. split_and!; [..|done].
  - split_and!; cbn [live threads loops].
    + apply map_eq. intros i.
      rewrite !lookup_delete, !lookup_insert.
      repeat (case_decide; [try (subst; symmetry; apply Hl; lia); lia|]). done.
    + apply give_back; eapply seq_disjoint; try done; lia.
    + apply give_back_one. eapply seq_disjoint; try done; lia.
  - intros x Hx. cbn [live threads loops fresh] in *. look. rewrite Hl by lia.
    pose proof (Ht x ltac:(lia)). pose proof (Hp x ltac:(lia)).
    split; [done|].
    rewrite !elem_of_difference, !elem_of_union, !elem_of_list_to_set, !elem_of_seq.
    naive_solver lia.
Qed.

(** The calls a program makes on a dispatcher; [start] has a result. *)
Inductive op := Start (cpu_threads poll_threads : nat) | Stop.

Definition run_op (o : op) (s : itachi) (w : world) : option (list Z * itachi * world) :=
  match o with
  | Start c p => '(ret, s, w) ← start_all c p s w; Some ([ret], s, w)
  | Stop => '(s, w) ← stop s w; Some ([], s, w)
  end.

Fixpoint run (os : list op) (s : itachi) (w : world) : option (list Z * itachi * world) :=
  match os with
  | [] => Some ([], s, w)
  | o :: os =>
      '(r, s, w) ← run_op o s w; '(rs, s, w) ← run os s w; Some (r ++ rs, s, w)
  end.

(** A program that makes the dispatcher first. *)
Definition program (os : list op) (w : world) : option (list Z * itachi * world) :=
  let '(s, w) := make w in run os s w.

(** What the calls may be and return: a dispatcher runs with [c] and [p] threads,
    or it is idle after it ran with [n] threads in all. *)
Inductive phase := Idle (n : nat) | Running (c p : nat).

Definition next (o : op) (ph : phase) : option (list Z * phase) :=
  match o, ph with
  | Start c p, Idle _ => Some ([0], Running c p)
  | Start _ _, Running _ _ => Some ([-1], ph)
  | Stop, Running c p => Some ([], Idle (c + p))
  | Stop, Idle n => if Nat.eqb n 0 then Some ([], ph) else None
  end.

Fixpoint phases (os : list op) (ph : phase) : option (list Z * phase) :=
  match os with
  | [] => Some ([], ph)
  | o :: os => '(r, ph) ← next o ph; '(rs, ph) ← phases os ph; Some (r ++ rs, ph)
  end.

(** The state in each phase, over the resources of [w0]. *)
Definition stands (w0 : world) (ph : phase) (s : itachi) (w : world) : Prop :=
  match ph with
  | Idle n =>
      exists c p, n = (c + p)%nat /\ s = idle c p /\ same_resources w0 w /\ world_ok w /\
        stop_ (sig w) = true
  | Running c p =>
      exists c0 p0 w1, same_resources w0 w1 /\ world_ok w1 /\ stop_ (sig w1) = true /\
        start_all c p (idle c0 p0) w1 = Some (0, s, w)
  end.

Lemma same_resources_trans w1 w2 w3 :
  same_resources w1 w2 -> same_resources w2 w3 -> same_resources w1 w3.
Proof. unfold same_resources. intros (-> & -> & ->) (-> & -> & ->). done. Qed.

(** Stopping an idle dispatcher reads its null pointers, if it ever had a
    thread. *)
Lemma stop_idle c p w :
  stop (idle c p) w = if Nat.eqb (c + p) 0 then Some (idle c p, set_stop true w) else None.
Proof.
  unfold stop, idle. cbn [cpu_handler_ poll_handler_]. destruct c as [|c]; [|done].
  destruct p as [|p]; done.
Qed.

(** The results are the expected ones and the state stands as it should. *)
Definition agrees (w0 : world) (r : option (list Z * itachi * world))
    (e : option (list Z * phase)) : Prop :=
  match r, e with
  | Some (zs, s, w), Some (zs', ph) => zs = zs' /\ stands w0 ph s w
  | None, None => True
  | _, _ => False
  end.

Lemma run_op_stands o w0 ph s w : stands w0 ph s w -> agrees w0 (run_op o s w) (next o ph).
Proof.
  intros H. destruct o as [c p|], ph as [n|c1 p1]; cbn [run_op next stands] in *.
  - destruct H as (c0 & p0 & -> & -> & Hs & Hw & Hf).
    destruct (start_stop c0 p0 c p w Hw Hf) as (s & w' & E & _). rewrite E.
    cbn [mbind option_bind]. split; [done|]. by exists c0, p0, w.
  - destruct H as (c0 & p0 & w1 & Hs & Hw & Hf & E).
    destruct (start_stop c0 p0 c1 p1 w1 Hw Hf) as (s' & w' & E' & Hst & _).
    rewrite E in E'. injection E' as <- <-.
    unfold start_all at 1, start at 1. rewrite Hst. cbn [negb mbind option_bind].
    split; [done|]. by exists c0, p0, w1.
  - destruct H as (c & p & -> & -> & Hs & Hw & Hf). rewrite stop_idle.
    destruct (Nat.eqb (c + p) 0); [|done]. cbn [mbind option_bind].
    split; [done|]. by exists c, p.
  - destruct H as (c0 & p0 & w1 & Hs & Hw & Hf & E).
    destruct (start_stop c0 p0 c1 p1 w1 Hw Hf)
      as (s' & w' & E' & _ & _ & w2 & E2 & Hs2 & Hw2 & Hf2).
    rewrite E in E'. injection E' as <- <-. rewrite E2. cbn [mbind option_bind].
    split; [done|]. exists c1, p1.
    split_and!; [done|done| |done|done]. by eapply same_resources_trans.
Qed.

Lemma run_stands os w0 ph s w : stands w0 ph s w -> agrees w0 (run os s w) (phases os ph).
Proof.
  revert ph s w. induction os as [|o os IH]; intros ph s w H; [done|].
  pose proof (run_op_stands o w0 ph s w H) as Ho. cbn [run phases].
  destruct (run_op o s w) as [[[r s'] w']|], (next o ph) as [[r' ph']|]; try done.
  destruct Ho as [<- Ho]. specialize (IH ph' s' w' Ho). cbn [mbind option_bind].
  destruct (run os s' w') as [[[rs s2] w2]|], (phases os ph') as [[rs' ph2]|]; try done.
  destruct IH as [<- IH]. done.
Qed.

Lemma program_stands os w0 : world_ok w0 -> agrees w0 (program os w0) (phases os (Idle 0)).
Proof. intros Hw. apply run_stands. by exists 0%nat, 0%nat. Qed.

(** C33: When every pthread_create and ev_loop_new succeeds and onComplete returns, every sequence of calls of
    [start] and [stop] on a new dispatcher returns, unless it stops one that is not
    running and has had threads; that one joins threads through a null pointer. In
    particular every thread [stop] waits for leaves its loop: the flag is set
    before it, and the event loop it waits in is woken after that. The results of
    [start] are 0, and -1 of a dispatcher that runs already, which changes nothing.
    Whenever the dispatcher is stopped, it has joined all its threads, destroyed
    all its event loops and freed all its arrays, each once, and nothing else. *)
Theorem dispatcher_lifecycle os w0 :
  world_ok w0 ->
  match program os w0, phases os (Idle 0) with
  | Some (rets, s, w), Some (rets', ph) => rets = rets' /\ stands w0 ph s w
  | None, None => True
  | _, _ => False
  end.
Proof. apply program_stands. Qed.

Definition empty_world : world := mk_world ∅ ∅ ∅ 0 (mk_signals false ∅ ∅).

Lemma empty_world_ok : world_ok empty_world.
Proof. intros x _. cbn. by split_and!. Qed.

Example dispatcher_lifecycle_witness :
  match program [Start 2 1; Start 3 3; Stop] empty_world,
        phases [Start 2 1; Start 3 3; Stop] (Idle 0) with
  | Some (rets, s, w), Some (rets', ph) => rets = rets' /\ stands empty_world ph s w
  | None, None => True
  | _, _ => False
  end.
Proof.
  exact (dispatcher_lifecycle [Start 2 1; Start 3 3; Stop] empty_world empty_world_ok).
Defined.

Example program_run :
  phases [Start 2 1; Start 3 3; Stop; Start 1 1] (Idle 0) = Some ([0; -1; 0], Running 1 1).
Proof. reflexivity. Qed.

(** In particular the second of two calls of [stop] is one too many. *)
Theorem stop_twice c p w :
  world_ok w -> (0 < c + p)%nat -> program [Start c p; Stop; Stop] w = None.
Proof.
  intros Hw Hn.
  assert (phases [Start c p; Stop; Stop] (Idle 0) = None) as P.
  { simpl. destruct c, p; done || lia. }
  pose proof (program_stands [Start c p; Stop; Stop] w Hw) as H. rewrite P in H.
  by destruct (program [Start c p; Stop; Stop] w) as [[[? s] w']|].
Qed.

Example stop_twice_witness : program [Start 1 0; Stop; Stop] empty_world = None.
Proof. apply stop_twice; [exact empty_world_ok|lia]. Defined.

(** ** Threads at work *)

(** The queue a launched context goes to is there while the dispatcher runs. *)
Theorem push_running c p c0 p0 w s w' hint :
  world_ok w -> stop_ (sig w) = true -> start_all c p (idle c0 p0) w = Some (0, s, w') ->
  (0 < c)%nat ->
  CpuHandler.push_queue hint (cpu_handler_ s) w' = Some (hint mod c)%nat.
Proof.
  intros Hok Hflag. unfold start_all, start, idle. rewrite Hflag.
  cbn [negb cpu_handler_ poll_handler_].
  rewrite cpu_start_spec by done. cbn [mbind option_bind].
  rewrite poll_start_spec by done. cbn [mbind option_bind].
  rewrite ?fresh_two, ?live_two, ?threads_two, ?loops_two. cbn [set_stop live fresh].
  intros [= <- <-] Hc. unfold CpuHandler.push_queue. cbn [cpu_handler_ CpuHandler.base
    Handler.threads_ CpuHandler.queue_].
  replace (Nat.eqb c 0) with false by (symmetry; apply Nat.eqb_neq; lia).
  pose proof (Nat.mod_upper_bound hint c ltac:(lia)).
  unfold load. cbn [mbind option_bind]. rewrite live_two. look. cbn [mbind option_bind].
  by rewrite lookup_replicate_2.
Qed.

Example push_running_witness :
  exists (s : itachi) (w : world),
    start_all 2 1 (idle 0 0) (set_stop true empty_world) = Some (0, s, w) /\
    CpuHandler.push_queue 5 (cpu_handler_ s) w = Some 1%nat.
Proof.
  destruct (start_stop 0 0 2 1 (set_stop true empty_world) empty_world_ok eq_refl)
    as (s & w & E & _).
  exists s, w. split; [exact E|].
  exact (push_running 2 1 0 0 (set_stop true empty_world) s w 5 empty_world_ok eq_refl E ltac:(lia)).
Defined.

(** Before its handler was started there is none: [Itachi::start] clears the
    flag first, and a context launched in between divides by a number of threads
    that is 0. After [stop] the pointer is null: a thread that tested the flag
    before and goes on then writes through it. *)
Theorem push_idle c p hint w : CpuHandler.push_queue hint (cpu_handler_ (idle c p)) w = None.
Proof. by destruct c. Qed.

(** Each thread gets its own number, whatever the order in which they begin. *)
Theorem proxy_ids n i tid w h w' :
  Handler.start CpuHandler.waits (replicate n 0) Handler.make w = Some (h, w') -> (i < n)%nat ->
  exists w'', Handler.proxy_thread_function (Handler.args_ h) i tid w' = Some (i, w'') /\
    Handler.get_tid i h w'' = Some tid /\
    forall j, (j < n)%nat -> j <> i -> Handler.get_tid j h w'' = Handler.get_tid j h w'.
Proof.
  rewrite (handler_start_spec _ (fun _ => None)) by done. intros [= <- <-] Hi.
  set (f := fresh w).
  assert (forall j, (j < n)%nat -> arguments 0 n !! j = Some (Arg (Some j) None)) as Hargs.
  { intros j Hj. unfold arguments. by rewrite list_lookup_fmap, lookup_seq_lt. }
  unfold Handler.proxy_thread_function. cbn [Handler.args_].
  rewrite load_snd by lia. rewrite Hargs by done. cbn [mbind option_bind].
  unfold store. cbn [mbind option_bind]. rewrite live_two, lookup_insert_eq.
  cbn [mbind option_bind]. rewrite Hargs by done. cbn [mbind option_bind].
  eexists. split; [done|].
  assert (forall j, (j < n)%nat -> Nat.eqb n 0 = false /\ (j mod n)%nat = j) as Hmod.
  { intros j Hj. split; [apply Nat.eqb_neq; lia|by apply Nat.mod_small]. }
  unfold Handler.get_tid, load. cbn [Handler.threads_ Handler.args_ live mbind option_bind].
  split.
  - destruct (Hmod i Hi) as [-> ->]. rewrite lookup_insert_eq. cbn [mbind option_bind].
    rewrite list_lookup_insert_eq; [done|]. unfold arguments. by rewrite length_fmap, length_seq.
  - intros j Hj Hji. destruct (Hmod j Hj) as [-> ->]. rewrite live_two, !lookup_insert_eq.
    cbn [mbind option_bind]. by rewrite list_lookup_insert_ne.
Qed.

Definition two_threads : world :=
  two ∅ 0 (pthreads [2; 3]%nat) 1 (arguments 0 2) (list_to_set [2; 3]%nat ∪ ∅) ∅ 4
    (mk_signals false ∅ (<[3%nat := None]> (<[2%nat := None]> ∅))).

Example proxy_ids_witness :
  exists w'', Handler.proxy_thread_function (Some 1%nat) 1 77
      two_threads =
      Some (1%nat, w'') /\
    Handler.get_tid 1 (Handler.mk 2 (Some 0%nat) (Some 1%nat)) w'' = Some 77.
Proof.
  destruct (proxy_ids 2 1 77 empty_world (Handler.mk 2 (Some 0%nat) (Some 1%nat))
    two_threads
    (handler_start_spec CpuHandler.waits (fun _ => None) 2 Handler.make empty_world
       (fun _ _ _ _ _ _ _ _ => eq_refl) eq_refl eq_refl) ltac:(lia)) as (w & E & H & _).
  exists w. split; [exact E|exact H].
Defined.

(** Destroying a dispatcher that is not running leaves the world as it is. *)
Lemma destroy_idle c p w : destroy (idle c p) w = Some w.
Proof. done. Qed.
