(* ===== verification/ASocket.v ===== *)
(** * ASocket: framed messages and asynchronous sockets of
    itachi/asocket.{h,cc}

    A [Message] is a 4-byte length followed by the body. [read] and [write] run
    against the results of the system calls, given as a list: one result per
    call, and [Blocked] when the list is used up inside the loop. [Abort] is a
    failing assertion or SPERM_FATAL. *)

From S2P Require Import Prelude Cond Atomic Itachi.

(** ** Message *)
Module Message.

Definition kReadBufferSize : Z := 65536.
Definition EPIPE : Z := 32.

(** src/code/cc/itachi/asocket.h:21-27 [Message::kDone...] *)
Inductive code := kDone | kWouldBlock | kEOF | kBrokenPipe | kError (errno : Z).

(** src/code/cc/itachi/asocket.h:17-35 [Message] *)
Record t := mk { body_len : Z; body : list byte; body_off : Z }.

(** src/code/cc/itachi/asocket.cc:15-18 [Message::onRecv] *)
Definition onRecv (m : t) : t := mk (body_len m) [] 0.

(** src/code/cc/itachi/asocket.cc:19-22 [Message::onSend] *)
Definition onSend (m : t) : t := mk (u32 (Z.of_nat (length (body m)))) (body m) 0.

(** The result of one [::read] into the 64K buffer. *)
Inductive rd := Data (bs : list byte) | Fail (errno : Z).

Inductive outcome := Ret (c : code) (m : t) | Abort | Blocked.

Definition sizeof_len : Z := 4.

(** src/code/cc/itachi/asocket.cc:37-44 [Message::read (header)]
    The message and [off] after the header part of [buf] was taken. *)
Definition fill_header (m : t) (buf : list byte) : option (t * Z) :=
  if body_off m <? sizeof_len then
    let x := Z.min (sizeof_len - body_off m) (Z.of_nat (length buf)) in
    h ← poke (le_bytes 4 (body_len m)) (body_off m) (take (Z.to_nat x) buf);
    Some (mk (le_val h) (body m) (u32 (body_off m + x)), x)
  else Some (m, 0).

(** src/code/cc/itachi/asocket.cc:24-65 [Message::read] *)
Fixpoint read (rs : list rd) (m : t) : outcome :=
  match rs with
  | [] => Blocked
  | r :: rs =>
      match r with
      | Data [] => Ret kEOF m
      | Fail e => if e =? EAGAIN then Ret kWouldBlock m else Ret (kError e) m
      | Data buf =>
          match fill_header m buf with
          | None => Abort
          | Some (m, off) =>
              let code := Z.of_nat (length buf) in
              if (body_off m <? sizeof_len) || (code <=? off) then read rs m
              else
                let m := mk (body_len m) (body m ++ drop (Z.to_nat off) buf)
                           (u32 (body_off m + (code - off))) in
                if Z.of_nat (length (body m)) <=? body_len m then
                  if sizeof_len + body_len m =? body_off m then Ret kDone m else Abort
                else read rs m
          end
      end
  end.

(** The result of one [::write]: it takes at most [k] of the bytes asked. *)
Inductive wr := Wrote (k : Z) | WFail (errno : Z).

(** The bytes of the message on the wire. *)
Definition frame (m : t) : list byte := le_bytes 4 (body_len m) ++ body m.

(** src/code/cc/itachi/asocket.cc:69-79 [Message::write (request)]
    The bytes passed to [::write]: the rest of the header, then the rest of the
    body; [None] when there is none. *)
Definition request (m : t) : option (list byte) :=
  if body_off m <? sizeof_len then
    Some (drop (Z.to_nat (body_off m)) (le_bytes 4 (body_len m)))
  else
    let rest := s32 (u64 (u64 (Z.of_nat (length (body m)) - body_off m) + sizeof_len)) in
    if rest <=? 0 then None
    else Some (take (Z.to_nat rest) (drop (Z.to_nat (body_off m - sizeof_len)) (body m))).

(** src/code/cc/itachi/asocket.cc:67-95 [Message::write]
    The outcome, and the bytes that went out. *)
Fixpoint write (ws : list wr) (m : t) : outcome * list byte :=
  match request m with
  | None => (Ret kDone m, [])
  | Some req =>
      match ws with
      | [] => (Blocked, [])
      | WFail e :: _ =>
          if e =? EAGAIN then (Ret kWouldBlock m, [])
          else if e =? EPIPE then (Ret kBrokenPipe m, [])
          else (Ret (kError e) m, [])
      | Wrote k :: ws =>
          let code := Z.min k (Z.of_nat (length req)) in
          if code =? 0 then (Abort, [])
          else
            let '(o, out) := write ws (mk (body_len m) (body m) (u32 (body_off m + code))) in
            (o, take (Z.to_nat code) req ++ out)
      end
  end.

(** ** Writing *)

(** The state while a message is being sent: [body_off] bytes are out. *)
Definition sending (m : t) : Prop :=
  body_len m = Z.of_nat (length (body m)) /\ body_len m <= 2147483643 /\
  0 <= body_off m <= sizeof_len + body_len m.

Lemma frame_length m : Z.of_nat (length (frame m)) = 4 + Z.of_nat (length (body m)).
Proof. unfold frame. rewrite length_app, length_le_bytes. lia. Qed.

Lemma request_spec m :
  sending m ->
  (request m = None /\ body_off m = sizeof_len + body_len m) \/
  (exists req post, request m = Some req /\ req <> [] /\
     drop (Z.to_nat (body_off m)) (frame m) = req ++ post).
Proof.
  intros (Hl & Hb & Ho). unfold request, frame, sizeof_len in *. case_bool; zbool.
  - right. eexists _, (body m). split; [done|]. split.
    + intros Hd. apply (f_equal length) in Hd. rewrite length_drop, length_le_bytes in Hd. simpl in Hd. lia.
    + rewrite drop_app_le by (rewrite length_le_bytes; lia). done.
  - replace (s32 _) with (4 + body_len m - body_off m).
    2:{ replace (u64 (u64 (Z.of_nat (length (body m)) - body_off m) + 4))
          with (u64 (Z.of_nat (length (body m)) - body_off m + 4))
          by (symmetry; apply (wrapU_add_l 64)).
        rewrite u64_id by lia. rewrite s32_id by lia. lia. }
    case_bool; zbool; [left; split; [done|lia]|right].
    eexists _, []. split; [done|]. split.
    + intros Hd. apply (f_equal length) in Hd. rewrite length_take, length_drop in Hd. simpl in Hd. lia.
    + rewrite drop_app_ge by (rewrite length_le_bytes; lia). rewrite length_le_bytes.
      rewrite app_nil_r, take_ge; [f_equal; lia|]. rewrite length_drop. lia.
Qed.

Lemma write_step m k req post :
  sending m -> request m = Some req -> drop (Z.to_nat (body_off m)) (frame m) = req ++ post ->
  1 <= k <= Z.of_nat (length req) ->
  sending (mk (body_len m) (body m) (u32 (body_off m + k))) /\ u32 (body_off m + k) = body_off m + k /\
  drop (Z.to_nat (body_off m)) (frame m) =
    take (Z.to_nat k) req ++ drop (Z.to_nat (body_off m + k)) (frame m).
Proof.
  intros (Hl & Hb & Ho) Hreq Hd Hk.
  assert (Z.of_nat (length req) <= sizeof_len + body_len m - body_off m) as Hlen.
  { apply (f_equal length) in Hd. rewrite length_drop, length_app in Hd.
    pose proof (frame_length m). unfold sizeof_len in *. lia. }
  unfold sending, sizeof_len in *. simpl. rewrite u32_id by lia. split; [lia|]. split; [done|].
  replace (Z.to_nat (body_off m + k)) with (Z.to_nat (body_off m) + Z.to_nat k)%nat by lia.
  rewrite <- drop_drop, Hd, drop_app_le by lia.
  rewrite (assoc_L (++)), take_drop. done.
Qed.

(** However the kernel splits the writes, the bytes that go out are the next
    bytes of the frame; [write] returns [kDone] exactly when they reach its
    end, and after any other return the message resumes where it stopped. *)
Lemma write_frame ws m o out :
  sending m -> Forall (fun w => match w with Wrote k => 1 <= k | _ => True end) ws ->
  write ws m = (o, out) ->
  o <> Abort /\
  forall c m', o = Ret c m' ->
    sending m' /\ frame m' = frame m /\
    out ++ drop (Z.to_nat (body_off m')) (frame m) = drop (Z.to_nat (body_off m)) (frame m) /\
    (c = kDone <-> body_off m' = sizeof_len + body_len m').
Proof.
  revert m o out. induction ws as [|w ws IH]; intros m o out Hm Hf Hw; cbn [write] in Hw;
    destruct (request_spec m Hm) as [[Hr He]|(req & post & Hr & Hne & Hd)]; rewrite Hr in Hw.
  - simplify_eq. split; [done|]. intros c m' [= <- <-]. done.
  - simplify_eq. done.
  - simplify_eq. split; [done|]. intros c m' [= <- <-]. done.
  - assert (0 < Z.of_nat (length req)) by (destruct req; [done|simpl; lia]).
    assert (body_off m < sizeof_len + body_len m) as Hlt.
    { apply (f_equal length) in Hd. rewrite length_drop, length_app in Hd.
      pose proof (frame_length m). destruct Hm as (? & ? & ?). unfold sizeof_len in *. lia. }
    apply Forall_cons in Hf as [Hk Hf]. destruct w as [k|e].
    + replace (Z.min k _ =? 0) with false in Hw by (symmetry; zb).
      destruct (write_step m (Z.min k (Z.of_nat (length req))) req post Hm Hr Hd) as (Hm1 & Hu & Hs); [lia|].
      destruct (write ws _) as [o1 out1] eqn:Hw1. simplify_eq.
      destruct (IH _ _ _ Hm1 Hf Hw1) as [Ha Hret]. split; [done|].
      intros c m' ->. destruct (Hret c m' eq_refl) as (H1 & H2 & H3 & H4).
      assert (forall f, frame (mk (body_len m) (body m) f) = frame m) as Hfr by done.
      rewrite Hfr in H2, H3. cbn [body_off] in H3. rewrite Hu in H3.
      split; [done|]. split; [done|]. split; [|done].
      rewrite Hs, <- H3, (assoc_L (++)). done.
    + destruct (e =? EAGAIN); [|destruct (e =? EPIPE)]; simplify_eq;
        (split; [done|]); intros c m' [= <- <-]; (split; [done|]); (split; [done|]);
        (split; [done|]); split; intros; (done || lia).
Qed.

Example write_frame_witness :
  let m := onSend (mk 0 [x61; x62; x63] 0) in
  let '(o, out) := write [Wrote 2; Wrote 9; Wrote 1; WFail 11] m in
  o <> Abort /\
  forall c m', o = Ret c m' ->
    sending m' /\ frame m' = frame m /\
    out ++ drop (Z.to_nat (body_off m')) (frame m) = drop (Z.to_nat (body_off m)) (frame m) /\
    (c = kDone <-> body_off m' = sizeof_len + body_len m').
Proof.
  intros m. destruct (write _ m) as [o out] eqn:Hw.
  apply (write_frame [Wrote 2; Wrote 9; Wrote 1; WFail 11]); [|by repeat constructor|done].
  split; [done|]. split; [vm_compute; done|]. split; vm_compute; done.
Defined.

(** ** Reading *)

(** The state while the header is read: [o] bytes of the length [n] are in. *)
Definition in_header (n o : Z) (m : t) : Prop :=
  body_off m = o /\ 0 <= o <= 4 /\ body m = [] /\ 0 <= body_len m < 4294967296 /\
  take (Z.to_nat o) (le_bytes 4 (body_len m)) = take (Z.to_nat o) (le_bytes 4 n).

Lemma onRecv_header n m : 0 <= body_len m < 4294967296 -> in_header n 0 (onRecv m).
Proof. intros. unfold in_header. simpl. split_and!; done || lia. Qed.

(** Taking the next bytes of the header. *)
Lemma fill_header_spec n o m buf x :
  0 <= n < 4294967296 -> in_header n o m -> o < 4 ->
  x = Z.min (4 - o) (Z.of_nat (length buf)) ->
  take (Z.to_nat x) buf = take (Z.to_nat x) (drop (Z.to_nat o) (le_bytes 4 n)) ->
  exists m', fill_header m buf = Some (m', x) /\ in_header n (o + x) m' /\
    (o + x = 4 -> body_len m' = n).
Proof.
  intros Hn (Ho & Hr & Hb & Hbl & Ht) Hlt Hx Hbuf. unfold fill_header, sizeof_len.
  rewrite Ho. ztrue (o <? 4). rewrite <- Hx.
  assert (length (take (Z.to_nat x) buf) = Z.to_nat x) as Hlx by (rewrite length_take; lia).
  unfold poke. rewrite Hlx, length_le_bytes. case_bool; [|zb]. cbn [mbind option_bind].
  eexists. split; [done|].
  set (h := take (Z.to_nat o) (le_bytes 4 (body_len m)) ++ take (Z.to_nat x) buf ++
    drop (Z.to_nat o + Z.to_nat x) (le_bytes 4 (body_len m))).
  assert (length h = 4%nat) as Hh.
  { unfold h. rewrite !length_app, Hlx, length_take, length_drop, length_le_bytes. lia. }
  assert (take (Z.to_nat (o + x)) h = take (Z.to_nat (o + x)) (le_bytes 4 n)) as Hth.
  { replace (Z.to_nat (o + x)) with (Z.to_nat o + Z.to_nat x)%nat by lia.
    unfold h. rewrite (assoc_L (++)), take_app_le, take_ge
      by (rewrite length_app, Hlx, length_take, length_le_bytes; lia).
    rewrite Ht, Hbuf, <- (take_drop (Z.to_nat o) (le_bytes 4 n)) at 1.
    rewrite take_app_le, take_take, Nat.min_id by (rewrite length_take, length_le_bytes; lia).
    rewrite <- (take_drop (Z.to_nat o) (le_bytes 4 n)) at 3.
    rewrite take_app_ge by (rewrite length_take, length_le_bytes; lia).
    rewrite length_take, length_le_bytes. do 2 f_equal. lia. }
  assert (le_bytes 4 (le_val h) = h) as Hlh by (rewrite <- Hh; apply le_bytes_val).
  split.
  - unfold in_header. cbn [body_off body body_len]. rewrite u32_id by lia. rewrite Hlh.
    pose proof (le_val_range h) as Hv. rewrite Hh in Hv. change (256 ^ Z.of_nat 4) with 4294967296 in Hv.
    split_and!; done || lia.
  - intros H4. rewrite H4 in Hth. cbn [body_len].
    rewrite !take_ge in Hth by (rewrite ?length_le_bytes; lia). rewrite Hth, le_val_bytes.
    apply Z.mod_small. simpl. lia.
Qed.

Lemma Data_nonempty buf : buf <> [] ->
  forall rs m, read (Data buf :: rs) m =
    match fill_header m buf with
    | None => Abort
    | Some (m, off) =>
        let code := Z.of_nat (length buf) in
        if (body_off m <? sizeof_len) || (code <=? off) then read rs m
        else
          let m := mk (body_len m) (body m ++ drop (Z.to_nat off) buf)
                     (u32 (body_off m + (code - off))) in
          if Z.of_nat (length (body m)) <=? body_len m then
            if sizeof_len + body_len m =? body_off m then Ret kDone m else Abort
          else read rs m
    end.
Proof. by destruct buf. Qed.

(** The end of the header. *)
Lemma fill_header_end n o m part :
  0 <= n < 4294967296 -> in_header n o m ->
  exists m', fill_header m (drop (Z.to_nat o) (le_bytes 4 n) ++ part) = Some (m', 4 - o) /\
    body_off m' = 4 /\ body m' = [] /\ body_len m' = n.
Proof.
  intros Hn Hm. pose proof Hm as (Ho & Hr & Hb & Hbl & Ht).
  destruct (decide (o = 4)) as [->|Ho4].
  - exists m. unfold fill_header, sizeof_len. rewrite Ho. split; [done|]. split; [done|]. split; [done|].
    rewrite !take_ge in Ht by (rewrite length_le_bytes; lia).
    apply (f_equal le_val) in Ht. rewrite !le_val_bytes in Ht.
    change (256 ^ Z.of_nat 4) with 4294967296 in Ht. by rewrite !Z.mod_small in Ht by lia.
  - destruct (fill_header_spec n o m (drop (Z.to_nat o) (le_bytes 4 n) ++ part) (4 - o))
      as (m' & Hf & (H1 & _ & H2 & _ & _) & H3); try done; try lia.
    + rewrite length_app, length_drop, length_le_bytes. lia.
    + rewrite take_app_le by (rewrite length_drop, length_le_bytes; lia). done.
    + exists m'. split; [done|]. split; [lia|]. split; [done|]. apply H3. lia.
Qed.

(** The read that brings the first byte of the body decides: when it brings the
    whole body the message is done, when it brings a part of it the assertion
    fails. *)
Lemma read_last n o m part rs :
  0 <= n < 4294967296 -> in_header n o m -> part <> [] ->
  Z.of_nat (length part) <= kReadBufferSize ->
  read (Data (drop (Z.to_nat o) (le_bytes 4 n) ++ part) :: rs) m =
    let m' := mk n part (4 + Z.of_nat (length part)) in
    if Z.of_nat (length part) <=? n then
      if 4 + n =? 4 + Z.of_nat (length part) then Ret kDone m' else Abort
    else read rs m'.
Proof.
  intros Hn Hm Hp Hlen. unfold kReadBufferSize in Hlen.
  assert (0 < Z.of_nat (length part)) by (destruct part; [done|simpl; lia]).
  rewrite Data_nonempty by (destruct part; [done|]; by destruct (drop _ _)).
  destruct (fill_header_end n o m part Hn Hm) as (m' & -> & Ho & Hb & Hl).
  destruct Hm as (_ & Hr & _).
  rewrite length_app, length_drop, length_le_bytes, Ho, Hb, Hl. unfold sizeof_len. cbv zeta.
  case_bool; [zb|]. cbn [body body_len body_off app].
  rewrite drop_app_ge by (rewrite length_drop, length_le_bytes; lia).
  replace (Z.to_nat (4 - o) - length (drop (Z.to_nat o) (le_bytes 4 n)))%nat with 0%nat
    by (rewrite length_drop, length_le_bytes; lia).
  rewrite drop_0.
  rewrite u32_id by lia.
  replace (4 + (Z.of_nat (4 - Z.to_nat o + length part) - (4 - o))) with (4 + Z.of_nat (length part)) by lia.
  done.
Qed.

(** The reads before it only collect the header. *)
Lemma read_header n hs o m rs :
  0 <= n < 4294967296 -> in_header n o m -> Forall (fun b => b <> []) hs ->
  o + Z.of_nat (length (concat hs)) <= 4 ->
  concat hs = take (length (concat hs)) (drop (Z.to_nat o) (le_bytes 4 n)) ->
  exists m', read (map Data hs ++ rs) m = read rs m' /\
    in_header n (o + Z.of_nat (length (concat hs))) m'.
Proof.
  intros Hn Hm Hne. revert o m Hm. induction Hne as [|b hs Hb _ IH]; intros o m Hm Hl Hc.
  { exists m. simpl. rewrite Z.add_0_r. done. }
  cbn [concat] in *. rewrite length_app in *.
  assert (0 < Z.of_nat (length b)) by (destruct b; [done|simpl; lia]).
  assert (b = take (length b) (drop (Z.to_nat o) (le_bytes 4 n)) /\
    concat hs = take (length (concat hs)) (drop (Z.to_nat (o + Z.of_nat (length b))) (le_bytes 4 n)))
    as [Hb1 Hb2].
  { pose proof (proj1 (proj2 Hm)). rewrite <- take_take_drop in Hc. apply app_inj_1 in Hc as [Hc1 Hc2].
    - split; [done|]. rewrite Hc2 at 1. f_equal. rewrite drop_drop. f_equal. lia.
    - rewrite length_take, length_drop, length_le_bytes. lia. }
  destruct (fill_header_spec n o m b (Z.of_nat (length b))) as (m1 & Hf & Hm1 & _); try done; try lia.
  { rewrite Nat2Z.id, firstn_all. done. }
  cbn [map app]. rewrite Data_nonempty, Hf by done. cbv zeta.
  ztrue ((body_off m1 <? sizeof_len) || (Z.of_nat (length b) <=? Z.of_nat (length b))).
  destruct (IH _ _ Hm1) as (m2 & -> & Hm2); [lia|done|].
  exists m2. split; [done|]. replace (o + Z.of_nat (length b + length (concat hs)))
    with (o + Z.of_nat (length b) + Z.of_nat (length (concat hs))) by lia. done.
Qed.

(** A frame whose body arrives in one piece, with the end of the header or
    after it, is received: however the header is split, [read] returns [kDone]
    with the body. *)
Lemma read_frame n hs k bs m rs :
  0 < n < 4294967296 -> 0 <= body_len m < 4294967296 -> Forall (fun b => b <> []) hs ->
  (k <= 4)%nat -> concat hs = take k (le_bytes 4 n) ->
  Z.of_nat (length bs) = n -> n <= kReadBufferSize ->
  read (map Data hs ++ Data (drop k (le_bytes 4 n) ++ bs) :: rs) (onRecv m) =
    Ret kDone (mk n bs (4 + n)).
Proof.
  intros Hn Hm Hne Hk Hc Hl Hb.
  assert (length (concat hs) = k) as Hk' by (rewrite Hc, length_take, length_le_bytes; lia).
  destruct (read_header n hs 0 (onRecv m) (Data (drop k (le_bytes 4 n) ++ bs) :: rs)) as (m1 & -> & Hm1);
    [lia|by apply onRecv_header|done|lia|rewrite Hk'; by rewrite Hc|].
  rewrite Hk', Z.add_0_l in Hm1. rewrite <- (Nat2Z.id k).
  rewrite (read_last n (Z.of_nat k) m1 bs rs); [|lia|done|intros ->; simpl in Hl; lia|lia].
  rewrite Hl. cbv zeta. ztrue (n <=? n). ztrue (4 + n =? 4 + n). done.
Qed.

Example read_frame_witness :
  read [Data [x02; x00]; Data [x00; x00; x68; x69]] (onRecv (mk 7 [x01] 9)) =
    Ret kDone (mk 2 [x68; x69] 6).
Proof.
  apply (read_frame 2 [[x02; x00]] 2 [x68; x69] (mk 7 [x01] 9) []); repeat constructor; done.
Defined.

(** A body that arrives in two pieces kills the process: the test after the
    append is turned around, so the first piece passes for the whole body and
    the assertion on the total fails. *)
Theorem read_partial_body_aborts n hs k part m rs :
  0 < n < 4294967296 -> 0 <= body_len m < 4294967296 -> Forall (fun b => b <> []) hs ->
  (k <= 4)%nat -> concat hs = take k (le_bytes 4 n) ->
  part <> [] -> Z.of_nat (length part) < n -> Z.of_nat (length part) <= kReadBufferSize ->
  read (map Data hs ++ Data (drop k (le_bytes 4 n) ++ part) :: rs) (onRecv m) = Abort.
Proof.
  intros Hn Hm Hne Hk Hc Hp Hl Hb.
  assert (length (concat hs) = k) as Hk' by (rewrite Hc, length_take, length_le_bytes; lia).
  destruct (read_header n hs 0 (onRecv m) (Data (drop k (le_bytes 4 n) ++ part) :: rs)) as (m1 & -> & Hm1);
    [lia|by apply onRecv_header|done|lia|rewrite Hk'; by rewrite Hc|].
  rewrite Hk', Z.add_0_l in Hm1. rewrite <- (Nat2Z.id k).
  rewrite (read_last n (Z.of_nat k) m1 part rs); [|lia|done|done|lia].
  cbv zeta. ztrue (Z.of_nat (length part) <=? n). by zfalse (4 + n =? 4 + Z.of_nat (length part)).
Qed.

Example read_partial_body_aborts_witness :
  read [Data [x02; x00; x00; x00; x68]; Data [x69]] (onRecv (mk 0 [] 0)) = Abort.
Proof.
  apply (read_partial_body_aborts 2 [] 0 [x68] (mk 0 [] 0) [Data [x69]]); repeat constructor; done.
Defined.

Definition size_of (r : rd) : Z := match r with Data bs => Z.of_nat (length bs) | _ => 0 end.

Lemma read_after_empty rs m :
  body_len m = 0 -> 4 <= body_off m -> body_off m + cnt size_of rs < 4294967296 ->
  (forall m', read rs m <> Ret kDone m') /\ read rs m <> Abort.
Proof.
  revert m. induction rs as [|r rs IH]; intros m Hl Ho Hc; [done|]. cbn [cnt] in Hc.
  pose proof (cnt_nonneg size_of rs ltac:(intros []; simpl; lia)).
  destruct r as [[|b bs]|e]; [done| |cbn [read]; by destruct (e =? EAGAIN)].
  set (buf := b :: bs) in *. rewrite Data_nonempty by done. unfold fill_header, sizeof_len.
  zfalse (body_off m <? 4). cbn zeta iota beta. zfalse (body_off m <? 4).
  cbn [size_of] in Hc. assert (0 < Z.of_nat (length buf)) by (unfold buf; simpl; lia).
  zfalse (Z.of_nat (length buf) <=? 0). cbn [orb]. cbn [body body_len]. rewrite Hl.
  assert (Z.of_nat (length (body m ++ drop (Z.to_nat 0) buf)) <=? 0 = false) as ->.
  { rewrite length_app. simpl. zb. }
  apply IH; cbn [body_len body_off]; [done|rewrite u32_id by lia; lia..].
Qed.

(** A frame with an empty body is never received: once its header is in, the
    reader waits for more, and takes whatever follows for its body. *)
Theorem read_empty_never_done m rs :
  cnt size_of rs < 4294967292 -> 0 <= body_len m < 4294967296 ->
  (forall m', read (Data (le_bytes 4 0) :: rs) (onRecv m) <> Ret kDone m') /\
  read (Data (le_bytes 4 0) :: rs) (onRecv m) <> Abort.
Proof.
  intros Hc Hm. destruct (read_header 0 [le_bytes 4 0] 0 (onRecv m) rs) as (m1 & Hr & Hm1);
    [lia|by apply onRecv_header|by repeat constructor|done|done|].
  cbn [map app] in Hr. rewrite Hr. destruct Hm1 as (Ho & _ & _ & Hbl & Ht). simpl in Ho.
  apply read_after_empty; [|lia|lia].
  rewrite !take_ge in Ht by (rewrite length_le_bytes; simpl; lia).
  apply (f_equal le_val) in Ht. rewrite !le_val_bytes in Ht.
  change (256 ^ Z.of_nat 4) with 4294967296 in Ht. by rewrite !Z.mod_small in Ht by lia.
Qed.

Example read_empty_never_done_witness :
  (forall m', read [Data (le_bytes 4 0); Data [x01; x00; x00; x00; x61]] (onRecv (mk 0 [] 0)) <> Ret kDone m') /\
  read [Data (le_bytes 4 0); Data [x01; x00; x00; x00; x61]] (onRecv (mk 0 [] 0)) <> Abort.
Proof. apply (read_empty_never_done (mk 0 [] 0) [Data [x01; x00; x00; x00; x61]]); simpl; lia. Defined.

(** ** From one end to the other *)

(** A message being sent across several would-blocks: [write] is called again
    for every batch of results of the system call. *)
Fixpoint send_all (wss : list (list wr)) (m : t) : outcome * list byte :=
  match wss with
  | [] => (Blocked, [])
  | ws :: wss =>
      match write ws m with
      | (Ret kWouldBlock m', out) => let '(o, out') := send_all wss m' in (o, out ++ out')
      | r => r
      end
  end.

Definition accepting (w : wr) : Prop := match w with Wrote k => 1 <= k | _ => True end.

Lemma send_all_frame wss m m' out :
  sending m -> Forall (Forall accepting) wss -> send_all wss m = (Ret kDone m', out) ->
  out = drop (Z.to_nat (body_off m)) (frame m).
Proof.
  intros Hm Hf. revert m out Hm. induction Hf as [|ws wss Hw _ IH]; intros m out Hm H; [done|].
  cbn [send_all] in H. destruct (write ws m) as [o1 out1] eqn:E.
  destruct (write_frame _ _ _ _ Hm Hw E) as [_ Hr].
  destruct o1 as [[] m1| |]; simplify_eq.
  - destruct (Hr _ _ eq_refl) as (Hs & _ & He & Hd). pose proof (proj1 Hd eq_refl).
    pose proof (frame_length m). pose proof (frame_length m').
    destruct (Hr _ _ eq_refl) as (_ & Hff & _ & _).
    rewrite (drop_ge (frame m) (Z.to_nat (body_off m'))), app_nil_r in He; [done|].
    rewrite <- Hff. destruct Hs as (? & _). unfold sizeof_len in *. lia.
  - destruct (send_all wss m1) as [o2 out2] eqn:E2. simplify_eq.
    destruct (Hr _ _ eq_refl) as (Hs & Hff & He & _).
    rewrite (IH _ _ Hs E2), Hff. done.
Qed.

(** C11: A message sent through any sequence of partial writes and would-blocks is
    received with the same length and body, however its header is cut, when its
    body comes in one read: the bytes a completed [write] put out, fed to
    [read]. *)
Theorem message_transfer wss m0 m m' out hs last m1 rs :
  0 < Z.of_nat (length (body m)) <= kReadBufferSize -> m0 = onSend m ->
  Forall (Forall accepting) wss -> send_all wss m0 = (Ret kDone m', out) ->
  0 <= body_len m1 < 4294967296 -> Forall (fun b => b <> []) hs ->
  (length (concat hs) <= 4)%nat -> concat hs ++ last = out ->
  exists r, read (map Data hs ++ Data last :: rs) (onRecv m1) = Ret kDone r /\
    body r = body m /\ body_len r = Z.of_nat (length (body m)).
Proof.
  unfold kReadBufferSize. intros Hb -> Hf Hs Hm1 Hne Hl Ho.
  pose proof (send_all_frame _ (onSend m) _ _ ltac:(unfold sending, onSend; simpl; rewrite u32_id by lia;
    unfold sizeof_len; lia) Hf Hs) as Hout.
  unfold frame, onSend in Hout. cbn [body body_len body_off] in Hout. rewrite u32_id in Hout by lia.
  change (Z.to_nat 0) with 0%nat in Hout. rewrite drop_0 in Hout.
  set (n := Z.of_nat (length (body m))) in *. set (k := length (concat hs)) in *.
  rewrite Hout in Ho. rewrite <- (take_drop k (le_bytes 4 n)), <- (assoc_L (++)) in Ho.
  apply app_inj_1 in Ho as [Hc Hlast]; [|fold k; rewrite length_take, length_le_bytes; lia].
  rewrite Hlast. exists (mk n (body m) (4 + n)). split; [|done].
  apply read_frame; unfold kReadBufferSize; done || lia.
Qed.

Example message_transfer_witness :
  exists r, read (map Data [[x03; x00]; [x00]] ++ [Data [x00; x61; x62; x63]]) (onRecv (mk 9 [x01] 0)) =
      Ret kDone r /\ body r = [x61; x62; x63] /\ body_len r = Z.of_nat (length [x61; x62; x63]).
Proof.
  apply (message_transfer [[Wrote 2; WFail 11]; [Wrote 9; Wrote 1; WFail 11]; [Wrote 5]]
    (mk 3 [x61; x62; x63] 0) (mk 0 [x61; x62; x63] 5) (mk 3 [x61; x62; x63] 7)
    [x03; x00; x00; x00; x61; x62; x63]); repeat constructor; done.
Defined.

End Message.

(** ** The socket calls of common/socket.h *)
Module Socket.

Definition EINTR : Z := 4.
Definition ECONNABORTED : Z := 103.
Definition EINPROGRESS : Z := 115.

(** What a system call returns: a value, [errno] untouched, or a failure. *)
Inductive res := Ok (v : Z) | Err (errno : Z).

(** src/code/cc/common/socket.h:19-25 [create_tcp_socket] *)
Definition create_tcp_socket (r : res) : Z := match r with Ok v => v | Err _ => -1 end.

(** src/code/cc/common/socket.h:43-51 [get_socket_error] *)
Definition get_socket_error (r : res) : Z := match r with Ok v => v | Err _ => 1 end.

(** src/code/cc/common/socket.h:53-64 [tcp_accept]
    One result per [accept]; [None] when they are used up. *)
Fixpoint tcp_accept (rs : list res) : option Z :=
  match rs with
  | [] => None
  | Ok v :: _ => Some v
  | Err e :: rs => if (e =? EINTR) || (e =? ECONNABORTED) then tcp_accept rs else Some (-1)
  end.

(** src/code/cc/common/socket.h:66-89 [tcp_connect]
    One result per [connect], and the [errno] there was before. *)
Fixpoint tcp_connect (errno : Z) (rs : list res) : option Z :=
  match rs with
  | [] => None
  | r :: rs =>
      let '(ret, errno) := match r with Ok _ => (0, errno) | Err e => (-1, e) end in
      if negb (ret =? 0) && negb (errno =? EINPROGRESS) then
        if errno =? EINTR then tcp_connect errno rs else Some (-1)
      else if errno =? EINPROGRESS then Some 1 else Some 0
  end.

(** src/code/cc/common/socket.h:91-112 [tcp_bind_listen] *)
Definition tcp_bind_listen (bind listen : res) : Z :=
  match bind with
  | Err _ => -1
  | Ok _ => match listen with Err _ => -1 | Ok _ => 0 end
  end.

(** A connection that is made at once is reported as one in progress when an
    old EINPROGRESS is still in [errno]. *)
Lemma tcp_connect_stale rs : tcp_connect EINPROGRESS (Ok 0 :: rs) = Some 1.
Proof. done. Qed.

(** Interrupted calls are repeated. *)
Lemma tcp_connect_retries errno n r rs :
  tcp_connect errno (replicate n (Err EINTR) ++ Err r :: rs) =
    tcp_connect errno (Err r :: rs).
Proof.
  revert errno. induction n as [|n IH]; intros errno; [done|]. cbn [replicate app tcp_connect].
  cbn [negb andb Z.eqb]. simpl. by rewrite IH.
Qed.

End Socket.

(** ** AsyncSocket *)
Module AsyncSocket.

(** src/code/cc/itachi/asocket.h:67-73 [AsyncSocket::Action] *)
Definition AA_CONNECT : Z := 4.
Definition AA_CONNECTED : Z := 5.
Definition AA_BIND_LISTEN : Z := 6.
Definition AA_READ : Z := 7.
Definition AA_WRITE : Z := 8.

(** src/code/cc/itachi/asocket.h:39-94 [AsyncSocket]
    The fields it adds to its context; [msg_] points into the heap of
    messages. *)
Record t := mk {
  io_timestamp_ : Z; io_timeout_ms_ : Z; msg_ : option nat;
  ip_ : list byte; port_ : Z; timeout_ms_ : Z;
}.

(** The dispatcher with the contexts, the sockets by the number of their
    context, the messages that are allocated, and the descriptors that are
    open. *)
Record world := mk_world {
  it : itachi; socks : gmap nat t; msgs : gmap nat Message.t; fds : gset Z;
}.

Definition set_it (s : itachi) (w : world) : world := mk_world s (socks w) (msgs w) (fds w).
Definition set_sock (c : nat) (k : t) (w : world) : world :=
  mk_world (it w) (<[c := k]> (socks w)) (msgs w) (fds w).
Definition set_msg (p : nat) (m : Message.t) (w : world) : world :=
  mk_world (it w) (socks w) (<[p := m]> (msgs w)) (fds w).
Definition open (fd : Z) (w : world) : world := mk_world (it w) (socks w) (msgs w) ({[fd]} ∪ fds w).

(** Changing the context of socket [c]. *)
Definition init (f : context -> context) (c : nat) (w : world) : option world :=
  x ← ctxs (it w) !! c; Some (set_it (set_ctxs <[c := f x]> (it w)) w).

Definition with_fd (f : Z) (x : context) : context :=
  let n := net_ x in
  mk_context (count x) (thread_hint x) (type_ x) (action x) (urgent x)
    (mk_net f (net_events n) (timeout_ms n) (timeout n) (readable n) (writeable n)) (owner x).

Definition fd_of (c : nat) (w : world) : option Z := x ← ctxs (it w) !! c; Some (fd (net_ x)).

(** "255.255.255.255" *)
Definition no_ip : list byte :=
  [x32; x35; x35; x2e; x32; x35; x35; x2e; x32; x35; x35; x2e; x32; x35; x35].

(** src/code/cc/itachi/asocket.cc:99-117 [AsyncSocket::AsyncSocket]
    Both constructors, for a context that was just made; the timeouts stay
    uninitialised, here [g]. *)
Definition make (c : nat) (f : Z) (g : Z * Z * Z) (w : world) : option world :=
  init (with_fd f) c (set_sock c (mk g.1.1 g.1.2 None no_ip (-1) g.2) w).

(** src/code/cc/itachi/itachi.cc:62-65 [AsyncContext::close_fd] *)
Definition close_fd (c : nat) (w : world) : option world :=
  f ← fd_of c w;
  init (with_fd (-1)) c (mk_world (it w) (socks w) (msgs w) (fds w ∖ {[f]})).

(** [delete msg_]: nothing for NULL, [None] when it was freed before. *)
Definition delete_msg (m : option nat) (w : world) : option world :=
  match m with
  | None => Some w
  | Some p => _ ← msgs w !! p; Some (mk_world (it w) (socks w) (delete p (msgs w)) (fds w))
  end.

(** src/code/cc/itachi/asocket.cc:186-189 [AsyncSocket::close] *)
Definition close (c : nat) (w : world) : option world :=
  w ← close_fd c w; k ← socks w !! c; delete_msg (msg_ k) w.

(** src/code/cc/itachi/asocket.cc:119-121 [AsyncSocket::~AsyncSocket] *)
Definition destroy (c : nat) (w : world) : option world :=
  w ← close c w;
  Some (mk_world (set_ctxs (delete c) (it w)) (delete c (socks w)) (msgs w) (fds w)).

(** src/code/cc/itachi/asocket.cc:226-271 [AsyncSocket::onConnectTimeout...]
    Every default callback gives up a reference; the last one runs the
    destructor. *)
Definition release (c : nat) (w : world) : option world :=
  x ← ctxs (it w) !! c;
  '(r, _) ← RefCount.release (count x);
  if r =? 0 then destroy c w else s ← Itachi.release c (it w); Some (set_it s w).

(** What the operating system answers. *)
Record os := mk_os {
  os_errno : Z; os_socket : Socket.res; os_connect : list Socket.res;
  os_bind : Socket.res; os_listen : Socket.res; os_accept : list Socket.res;
}.

Definition launch (c : nat) (w : world) : option (Z * world) :=
  '(r, s) ← Itachi.launch c (it w);
  Some (if r =? -1 then -1 else 0, set_it s w).

(** src/code/cc/itachi/asocket.cc:123-142 [AsyncSocket::bindAndListen] *)
Definition bindAndListen (c : nat) (o : os) (w : world) : option (Z * world) :=
  let fd := Socket.create_tcp_socket (os_socket o) in
  if fd =? -1 then Some (-1, w) else
  let w := open fd w in
  if Socket.tcp_bind_listen (os_bind o) (os_listen o) =? -1 then Some (-1, w) else
  w ← init (initNetReadEvent AA_BIND_LISTEN fd (-1)) c w;
  launch c w.

(** src/code/cc/itachi/asocket.cc:144-172 [AsyncSocket::connect] *)
Definition connect (c : nat) (ip : list byte) (port tmo : Z) (o : os) (w : world) :
    option (Z * world) :=
  k ← socks w !! c;
  let w := set_sock c (mk (io_timestamp_ k) (io_timeout_ms_ k) (msg_ k) ip port tmo) w in
  let fd := Socket.create_tcp_socket (os_socket o) in
  if fd =? -1 then Some (-1, w) else
  let w := open fd w in
  code ← Socket.tcp_connect (os_errno o) (os_connect o);
  if code =? -1 then Some (-1, w) else
  w ← (if code =? 0 then init (fun x => initCpuEvent AA_CONNECTED false (with_fd fd x)) c w
       else init (initNetWriteEvent AA_CONNECT fd tmo) c w);
  launch c w.

(** src/code/cc/itachi/asocket.cc:174-177 [AsyncSocket::reconnect] *)
Definition reconnect (c : nat) (o : os) (w : world) : option (Z * world) :=
  w ← close c w; k ← socks w !! c; connect c (ip_ k) (port_ k) (timeout_ms_ k) o w.

(** src/code/cc/itachi/asocket.cc:179-184 [AsyncSocket::accept] *)
Definition accept (o : os) (w : world) : option (Z * world) :=
  sock ← Socket.tcp_accept (os_accept o);
  Some (sock, if sock =? -1 then w else open sock w).

(** src/code/cc/itachi/asocket.h:49-53 [AsyncSocket::takeOutMessage] *)
Definition takeOutMessage (c : nat) (w : world) : option (option nat * world) :=
  k ← socks w !! c;
  Some (msg_ k, set_sock c (mk (io_timestamp_ k) (io_timeout_ms_ k) None (ip_ k) (port_ k) (timeout_ms_ k)) w).

(** src/code/cc/itachi/asocket.cc:192-196 [AsyncSocket::recv (launch)] *)
Definition recv_launch (c : nat) (tmo : Z) (w : world) : option (Z * world) :=
  f ← fd_of c w; w ← init (initNetReadEvent AA_READ f tmo) c w; launch c w.

(** src/code/cc/itachi/asocket.cc:210-214 [AsyncSocket::send (launch)] *)
Definition send_launch (c : nat) (tmo : Z) (w : world) : option (Z * world) :=
  f ← fd_of c w; w ← init (initNetWriteEvent AA_WRITE f tmo) c w; launch c w.

(** src/code/cc/itachi/asocket.cc:197-206 [AsyncSocket::recv (message)]
    What both do after the launch, [reset] being [onRecv] or [onSend]; [now] is
    the clock in milliseconds. *)
Definition put_message (reset : Message.t -> Message.t) (c p : nat) (tmo now : Z) (w : world) :
    option (Z * world) :=
  k ← socks w !! c;
  match msg_ k with
  | Some _ => Some (-1, w)
  | None =>
      m ← msgs w !! p;
      Some (0, set_sock c (mk (u64 now) tmo (Some p) (ip_ k) (port_ k) (timeout_ms_ k)) (set_msg p (reset m) w))
  end.

(** src/code/cc/itachi/asocket.cc:191-207 [AsyncSocket::recv] *)
Definition recv (c p : nat) (tmo now : Z) (w : world) : option (Z * world) :=
  '(r, w) ← recv_launch c tmo w;
  if r =? -1 then Some (-1, w) else put_message Message.onRecv c p tmo now w.

(** src/code/cc/itachi/asocket.cc:209-224 [AsyncSocket::send] *)
Definition send (c p : nat) (tmo now : Z) (w : world) : option (Z * world) :=
  '(r, w) ← send_launch c tmo w;
  if r =? -1 then Some (-1, w) else put_message Message.onSend c p tmo now w.

(** src/code/cc/itachi/asocket.h:54-65 [AsyncSocket::onConnectTimeout...]
    The callback [onComplete] ends in, if any. *)
Inductive event :=
| onConnectTimeout | onConnected | onConnectFailed (code : Z) | onAccept
| onRecvOK | onRecvTimeout | onPeerClosed | onRecvFailed (code : Z)
| onSendOK | onSendTimeout | onBrokenPipe | onSendFailed (code : Z)
| Relaunched | Nothing | Pending.

(** src/code/cc/itachi/asocket.cc:314-317 [AsyncSocket::Client::onComplete (rest_ms)]
    Unsigned arithmetic, read as an [int64_t]. *)
Definition rest_ms (k : t) (now : Z) : Z :=
  s64 (u64 (u64 (io_timestamp_ k + u64 (io_timeout_ms_ k)) - u64 now)).

(** src/code/cc/itachi/asocket.cc:314-328 [AsyncSocket::Client::onComplete (would block)]
    Waiting again for what is left of the timeout. [None] is SPERM_FATAL. *)
Definition wait_again (ini : Z -> Z -> context -> context) (ontimeout : event) (c : nat) (k : t)
    (now : Z) (w : world) : option (event * world) :=
  let rest := if 0 <? io_timeout_ms_ k then rest_ms k now else -1 in
  if (0 <? io_timeout_ms_ k) && (rest <=? 0) then Some (ontimeout, w) else
  f ← fd_of c w;
  w ← init (ini f (s32 rest)) c w;
  '(r, w) ← launch c w;
  if r =? -1 then None else Some (Relaunched, w).

(** What the calls of one [onComplete] return. *)
Record input := mk_input {
  so_error : Socket.res; errno : Z; reads : list Message.rd; writes : list Message.wr; now : Z;
}.

(** src/code/cc/itachi/asocket.cc:306-330 [AsyncSocket::Client::onComplete (AA_READ)] *)
Definition complete_read (c : nat) (i : input) (w : world) : option (event * world) :=
  k ← socks w !! c;
  p ← msg_ k;
  m ← msgs w !! p;
  match Message.read (reads i) m with
  | Message.Abort => None
  | Message.Blocked => Some (Pending, w)
  | Message.Ret code m =>
      let w := set_msg p m w in
      match code with
      | Message.kDone => Some (onRecvOK, w)
      | Message.kWouldBlock => wait_again (initNetReadEvent AA_READ) onRecvTimeout c k (now i) w
      | Message.kEOF => Some (onPeerClosed, w)
      | Message.kError e => Some (onRecvFailed e, w)
      | Message.kBrokenPipe => Some (Nothing, w)
      end
  end.

(** src/code/cc/itachi/asocket.cc:331-354 [AsyncSocket::Client::onComplete (AA_WRITE)]
    Also the bytes that went out. *)
Definition complete_write (c : nat) (i : input) (w : world) : option (event * world * list byte) :=
  k ← socks w !! c;
  p ← msg_ k;
  m ← msgs w !! p;
  let '(o, out) := Message.write (writes i) m in
  match o with
  | Message.Abort => None
  | Message.Blocked => Some (Pending, w, out)
  | Message.Ret code m =>
      let w := set_msg p m w in
      match code with
      | Message.kDone => Some (onSendOK, w, out)
      | Message.kWouldBlock =>
          '(e, w) ← wait_again (initNetWriteEvent AA_WRITE) onSendTimeout c k (now i) w;
          Some (e, w, out)
      | Message.kBrokenPipe => Some (onBrokenPipe, w, out)
      | Message.kError e => Some (onSendFailed e, w, out)
      | Message.kEOF => Some (Nothing, w, out)
      end
  end.

(** src/code/cc/itachi/asocket.cc:279-359 [AsyncSocket::Client::onComplete] *)
Definition onComplete (c : nat) (i : input) (w : world) : option (event * world * list byte) :=
  x ← ctxs (it w) !! c;
  if action x =? AA_CONNECT then
    if timeout (net_ x) then Some (onConnectTimeout, w, []) else
    let code := Socket.get_socket_error (so_error i) in
    if code =? 0 then Some (onConnected, w, []) else Some (onConnectFailed (errno i), w, [])
  else if action x =? AA_CONNECTED then Some (onConnected, w, [])
  else if action x =? AA_BIND_LISTEN then Some (onAccept, w, [])
  else if action x =? AA_READ then '(e, w) ← complete_read c i w; Some (e, w, [])
  else if action x =? AA_WRITE then complete_write c i w
  else None.
(** ** The race of [recv] and [send] *)

Lemma init_spec f c w w' :
  init f c w = Some w' -> exists x, ctxs (it w) !! c = Some x /\
    w' = set_it (set_ctxs <[c := f x]> (it w)) w.
Proof. unfold init. intros H. destruct (ctxs (it w) !! c) as [x|]; [|done]. simpl in H. simplify_eq. by exists x. Qed.

(** A launch keeps everything of the contexts but the counts. *)
Definition same_ctx (s s' : itachi) : Prop :=
  forall c y, ctxs s' !! c = Some y -> exists x, ctxs s !! c = Some x /\ action x = action y /\ net_ x = net_ y.

Lemma same_ctx_refl s : same_ctx s s.
Proof. intros c y Hy. by exists y. Qed.

Lemma same_ctx_trans s1 s2 s3 : same_ctx s1 s2 -> same_ctx s2 s3 -> same_ctx s1 s3.
Proof.
  intros H1 H2 c y Hy. destruct (H2 c y Hy) as (x & Hx & ? & ?). destruct (H1 c x Hx) as (v & ? & ? & ?).
  exists v. split; [done|]. split; congruence.
Qed.

Lemma recount_same c x n s :
  ctxs s !! c = Some x ->
  same_ctx s (set_ctxs <[c := mk_context n (thread_hint x) (type_ x) (action x) (urgent x) (net_ x) (owner x)]> s).
Proof.
  intros Hx d y. simpl. rewrite lookup_insert_Some. intros [[<- <-]|[_ Hy]]; [by exists x|by exists y].
Qed.

Lemma acquire_same c s s' : Itachi.acquire c s = Some s' -> same_ctx s s'.
Proof.
  unfold Itachi.acquire. intros H. destruct (ctxs s !! c) as [x|] eqn:Hx; [|done]. cbn [mbind option_bind] in H.
  destruct (RefCount.acquire (count x)) as [[? n]|]; [|done]. cbn [mbind option_bind] in H. simplify_eq. by apply recount_same.
Qed.

Lemma release_same c s s' : Itachi.release c s = Some s' -> same_ctx s s'.
Proof.
  unfold Itachi.release. intros H. destruct (ctxs s !! c) as [x|] eqn:Hx; [|done]. cbn [mbind option_bind] in H.
  destruct (RefCount.release (count x)) as [[r n]|]; [|done]. cbn [mbind option_bind] in H.
  destruct (r =? 0); simplify_eq; [|by apply recount_same].
  intros d y. simpl. rewrite lookup_delete_Some. intros [_ Hy]. by exists y.
Qed.

Lemma launch_same c auto s code s' : launch_ c auto s = Some (code, s') -> same_ctx s s'.
Proof.
  unfold launch_. intros H. destruct (ctxs s !! c) as [x|] eqn:Hx; [|done]. cbn [mbind option_bind] in H.
  destruct (negb _); [simplify_eq; apply same_ctx_refl|].
  destruct (if auto then Itachi.acquire c s else Some s) as [s1|] eqn:Ha; [|done]. cbn [mbind option_bind] in H.
  assert (same_ctx s s1) as H1.
  { destruct auto; [by eapply acquire_same|]. simplify_eq. apply same_ctx_refl. }
  destruct (ctxs s1 !! c) as [x1|] eqn:Hx1; [|done]. cbn [mbind option_bind] in H.
  destruct (match type_ x1 with NOP => _ | _ => _ end) as [[code1 s2]|] eqn:Hp; [|done].
  assert (ctxs s2 = ctxs s1) as H2.
  { destruct (type_ x1); [by simplify_eq| |].
    - apply cpu_push_spec in Hp as [(_ & -> & _)|(_ & ? & _ & ->)]; done.
    - apply poll_push_spec in Hp as [(_ & -> & _)|(_ & ? & _ & ->)]; done. }
  assert (same_ctx s s2) as H3 by (eapply same_ctx_trans; [exact H1|]; intros d y; rewrite H2; apply same_ctx_refl).
  cbn [mbind option_bind] in H. destruct (_ && _); [|by simplify_eq].
  destruct (Itachi.release c s2) as [s3|] eqn:Hr; [|done]. cbn in H. simplify_eq.
  eapply same_ctx_trans; [exact H3|]. by eapply release_same.
Qed.

Lemma sock_launch_spec c w r w' :
  launch c w = Some (r, w') ->
  same_ctx (it w) (it w') /\ socks w' = socks w /\ msgs w' = msgs w /\ fds w' = fds w.
Proof.
  unfold launch. intros H. destruct (Itachi.launch c (it w)) as [[? s]|] eqn:Hl; [|done].
  cbn in H. simplify_eq. split; [by eapply launch_same|done].
Qed.

(** [recv] and [send] launch the context first and store the message after: a
    handler thread that runs the completion in between finds no message and
    the assertion fails, for any event libev reports and whatever the calls
    return. *)
Theorem launch_before_message (rd : bool) c tmo w r w1 rev s2 i :
  (if rd then recv_launch c tmo w else send_launch c tmo w) = Some (r, w1) ->
  (msg_ <$> socks w !! c) = Some None ->
  net_callback c rev (it w1) = Some s2 ->
  onComplete c i (set_it s2 w1) = None.
Proof.
  intros Hl Hk Hn.
  assert (socks w1 = socks w /\ exists x, ctxs (it w1) !! c = Some x /\ action x = if rd then AA_READ else AA_WRITE)
    as (Hs & Hx).
  { unfold net_callback in Hn. destruct (ctxs (it w1) !! c) as [y|] eqn:Hy; [|done]. clear Hn.
    destruct rd; unfold recv_launch, send_launch in Hl;
      (destruct (fd_of c w) as [f|]; [|done]); cbn [mbind option_bind] in Hl;
      (destruct (init _ c w) as [w0|] eqn:Hi; [|done]); cbn [mbind option_bind] in Hl;
      apply init_spec in Hi as (x & Hx & ->); apply sock_launch_spec in Hl as (Hsame & -> & _);
      (split; [done|]); destruct (Hsame c y Hy) as (x' & Hx' & Ha & _); simpl in Hx';
      rewrite lookup_insert_eq in Hx'; simplify_eq; by exists y. }
  destruct Hx as (x & Hx & Ha). unfold net_callback in Hn. rewrite Hx in Hn. cbn [mbind option_bind] in Hn.
  destruct (EV_ERROR rev); [done|].
  destruct (launch_ c false _) as [[code s3]|] eqn:H3; [|done]. cbn [mbind option_bind] in Hn.
  destruct (code =? -1); [done|]. simplify_eq.
  unfold onComplete. cbn [it set_it]. destruct (ctxs s2 !! c) as [y|] eqn:Hy; [|done].
  destruct (launch_same _ _ _ _ _ H3 c y Hy) as (z & Hz & Haz & _). simpl in Hz.
  rewrite lookup_insert_eq in Hz. simplify_eq. cbn [action initCpuEvent] in Haz. cbn [mbind option_bind].
  rewrite <- Haz, Ha. unfold complete_read, complete_write. cbn [socks set_it]. rewrite Hs.
  destruct (socks w !! c) as [k|]; [|by destruct rd]. simpl in Hk. simplify_eq. simpl. rewrite Hk.
  by destruct rd.
Qed.

(** A dispatcher with one thread of each kind and socket 5 on descriptor 7. *)
Definition sample_world (act : Z) (m : option nat) (tmo : Z) : world :=
  let x := mk_context RefCount.make 0 CPU act false (mk_net 7 (mk_events true false false false) (-1) false true false) self in
  mk_world (set_ctxs <[5%nat := x]> (start 1 1 Itachi.make).2) {[5%nat := mk 1000 tmo m no_ip 80 (-1)]}
    {[3%nat := Message.mk 0 [] 0]} {[7]}.

Example launch_before_message_witness :
  exists w1 s2, recv_launch 5 (-1) (sample_world 0 None 0) = Some (0, w1) /\
    net_callback 5 (mk_events true false false false) (it w1) = Some s2 /\
    onComplete 5 (mk_input (Socket.Ok 0) 0 [] [] 0) (set_it s2 w1) = None.
Proof.
  eexists _, _. split; [vm_compute; reflexivity|]. split; [vm_compute; reflexivity|].
  eapply (launch_before_message true 5 (-1) (sample_world 0 None 0) 0 _ (mk_events true false false false));
    [vm_compute; reflexivity..].
Defined.

(** When a message is already in the socket [recv] reports a failure, but the
    context is in the queue of a poll thread, with one more reference. *)
Theorem recv_rejected_launched c p tmo now w w1 q :
  recv_launch c tmo w = Some (0, w1) -> (msg_ <$> socks w !! c) = Some (Some q) ->
  recv c p tmo now w = Some (-1, w1) /\ c ∈ concat (poll_queue (it w1)).
Proof.
  intros Hl Hk. unfold recv. rewrite Hl. cbn [mbind option_bind]. change (0 =? -1) with false. cbn iota.
  unfold recv_launch in Hl. destruct (fd_of c w) as [f|]; [|done]. cbn [mbind option_bind] in Hl.
  destruct (init _ c w) as [w0|] eqn:Hi; [|done]. cbn [mbind option_bind] in Hl.
  apply init_spec in Hi as (x & Hx & ->). pose proof (sock_launch_spec _ _ _ _ Hl) as (_ & Hs & _).
  unfold put_message. rewrite Hs. cbn [socks set_it].
  destruct (socks w !! c) as [k|] eqn:Hck; [|done]. simpl in Hk. simplify_eq. cbn [mbind option_bind]. rewrite Hk.
  split; [done|]. unfold launch, Itachi.launch, launch_ in Hl. cbn [it set_it] in Hl.
  simpl in Hl. rewrite lookup_insert_eq in Hl. cbn [mbind option_bind] in Hl.
  destruct (negb _); [by simplify_eq/=|].
  destruct (Itachi.acquire c _) as [s1|] eqn:Ha; [|done]. cbn [mbind option_bind] in Hl.
  destruct (ctxs s1 !! c) as [x1|] eqn:Hx1; [|done]. cbn [mbind option_bind] in Hl.
  assert (type_ x1 = NET) as Ht.
  { unfold Itachi.acquire in Ha. simpl in Ha. rewrite lookup_insert_eq in Ha. cbn [mbind option_bind] in Ha.
    destruct (RefCount.acquire _) as [[? n]|]; [|done]. simpl in Ha. simplify_eq. simpl in Hx1.
    rewrite insert_insert_eq, lookup_insert_eq in Hx1. by simplify_eq. }
  rewrite Ht in Hl. destruct (poll_push c s1) as [[code s2]|] eqn:Hp; [|done]. cbn [mbind option_bind] in Hl.
  apply poll_push_spec in Hp as [(-> & -> & _)|(-> & qs & [Hq _] & ->)].
  - cbn [negb Z.eqb andb] in Hl. destruct (Itachi.release c s1); [|done]. by simplify_eq/=.
  - cbn [negb Z.eqb andb mbind option_bind] in Hl. simplify_eq. cbn [it set_it poll_queue]. rewrite Hq. left.
Qed.

Example recv_rejected_launched_witness :
  exists w1, recv 5 3 (-1) 0 (sample_world 0 (Some 3%nat) 0) = Some (-1, w1) /\
    5%nat ∈ concat (poll_queue (it w1)).
Proof.
  eexists. eapply (recv_rejected_launched 5 3 (-1) 0 (sample_world 0 (Some 3%nat) 0)); vm_compute; reflexivity.
Defined.

(** ** Closing *)

Lemma close_spec c w w1 :
  close c w = Some w1 ->
  exists k x, socks w !! c = Some k /\ ctxs (it w) !! c = Some x /\ socks w1 = socks w /\
    ctxs (it w1) !! c = Some (with_fd (-1) x) /\ fds w1 = fds w ∖ {[fd (net_ x)]} /\
    match msg_ k with None => msgs w1 = msgs w | Some p => msgs w1 !! p = None /\ is_Some (msgs w !! p) end.
Proof.
  unfold close, close_fd, fd_of. intros H.
  destruct (ctxs (it w) !! c) as [x|] eqn:Hx; [|done]. cbn [mbind option_bind] in H.
  unfold init in H. simpl in H. rewrite Hx in H. cbn [mbind option_bind] in H. simpl in H.
  destruct (socks w !! c) as [k|] eqn:Hk; [|done]. cbn [mbind option_bind] in H.
  exists k, x. split; [done|]. split; [done|]. unfold delete_msg in H.
  destruct (msg_ k) as [p|].
  - cbn [msgs set_it] in H. destruct (msgs w !! p) eqn:Hp; [|done]. simpl in H. simplify_eq. simpl.
    rewrite lookup_insert_eq, lookup_delete_eq. done.
  - simplify_eq. simpl. rewrite lookup_insert_eq. done.
Qed.

(** [close] deletes the message and keeps the pointer: the destructor of the
    socket, or [reconnect], deletes it again. Without a message both are
    fine. *)
Theorem close_twice c w w1 k o :
  close c w = Some w1 -> socks w !! c = Some k ->
  (is_Some (msg_ k) -> destroy c w1 = None /\ reconnect c o w1 = None) /\
  (msg_ k = None -> is_Some (destroy c w1)).
Proof.
  intros Hc Hk. destruct (close_spec _ _ _ Hc) as (k' & x & Hk' & Hx & Hs & Hx1 & _ & Hm). simplify_eq.
  assert (close c w1 = delete_msg (msg_ k) (mk_world (set_ctxs <[c := with_fd (-1) (with_fd (-1) x)]> (it w1))
    (socks w1) (msgs w1) (fds w1 ∖ {[-1]}))) as He.
  { unfold close, close_fd, fd_of, init. rewrite Hx1. cbn [mbind option_bind]. simpl. rewrite Hx1.
    cbn [mbind option_bind]. simpl. rewrite Hs, Hk. done. }
  unfold destroy, reconnect. rewrite He. split.
  - intros [p Hp]. rewrite Hp in *. simpl. destruct Hm as [-> _]. done.
  - intros Hp. rewrite Hp. simpl. by eexists.
Qed.

Example close_twice_witness :
  let k := mk 1000 0 (Some 3%nat) no_ip 80 (-1) in
  let o := mk_os 0 (Socket.Ok 8) [Socket.Ok 0] (Socket.Ok 0) (Socket.Ok 0) [] in
  exists w1, close 5 (sample_world 0 (Some 3%nat) 0) = Some w1 /\
  (is_Some (msg_ k) -> destroy 5 w1 = None /\ reconnect 5 o w1 = None) /\
  (msg_ k = None -> is_Some (destroy 5 w1)).
Proof.
  intros k o. eexists. split; [vm_compute; reflexivity|].
  apply (close_twice 5 (sample_world 0 (Some 3%nat) 0)); [vm_compute; reflexivity|done].
Defined.

(** The destructor closes the descriptor and frees the message and the
    socket. *)
Lemma destroy_frees c w w1 :
  destroy c w = Some w1 ->
  exists k x, socks w !! c = Some k /\ ctxs (it w) !! c = Some x /\ fd (net_ x) ∉ fds w1 /\
    ctxs (it w1) !! c = None /\ (forall p, msg_ k = Some p -> msgs w1 !! p = None).
Proof.
  unfold destroy. intros H. destruct (close c w) as [w'|] eqn:Hc; [|done]. cbn [mbind option_bind] in H.
  simplify_eq. destruct (close_spec _ _ _ Hc) as (k & x & Hk & Hx & _ & _ & Hf & Hm).
  exists k, x. split; [done|]. split; [done|]. simpl. rewrite Hf, lookup_delete_eq. split; [set_solver|].
  split; [done|]. intros p Hp. rewrite Hp in Hm. tauto.
Qed.

(** A [connect] whose system call fails, or a [bindAndListen] whose bind or
    listen does, returns -1 with the new descriptor still open and no context
    that knows it: nothing will close it. *)
Theorem failed_setup_leaks_fd c ip port tmo o w fd1 k :
  Socket.create_tcp_socket (os_socket o) = fd1 -> fd1 <> -1 -> socks w !! c = Some k ->
  (forall d x, ctxs (it w) !! d = Some x -> fd (net_ x) <> fd1) ->
  (Socket.tcp_connect (os_errno o) (os_connect o) = Some (-1) ->
   exists w', connect c ip port tmo o w = Some (-1, w') /\ fd1 ∈ fds w' /\
     (forall d x, ctxs (it w') !! d = Some x -> fd (net_ x) <> fd1)) /\
  (Socket.tcp_bind_listen (os_bind o) (os_listen o) = -1 ->
   exists w', bindAndListen c o w = Some (-1, w') /\ fd1 ∈ fds w' /\
     (forall d x, ctxs (it w') !! d = Some x -> fd (net_ x) <> fd1)).
Proof.
  intros Hfd Hne Hk Hu. split; intros Hf.
  - unfold connect. rewrite Hk, Hfd. cbn [mbind option_bind]. zfalse (fd1 =? -1). rewrite Hf. simpl.
    eexists. split; [done|]. simpl. split; [set_solver|done].
  - unfold bindAndListen. rewrite Hfd. zfalse (fd1 =? -1). rewrite Hf. simpl.
    eexists. split; [done|]. simpl. split; [set_solver|done].
Qed.

Example failed_setup_leaks_fd_witness :
  let o := mk_os 0 (Socket.Ok 8) [Socket.Err 4; Socket.Err 111] (Socket.Err 98) (Socket.Ok 0) [] in
  let w := sample_world 0 None 0 in
  (Socket.tcp_connect (os_errno o) (os_connect o) = Some (-1) ->
   exists w', connect 5 [x31] 80 (-1) o w = Some (-1, w') /\ 8 ∈ fds w' /\
     (forall d x, ctxs (it w') !! d = Some x -> fd (net_ x) <> 8)) /\
  (Socket.tcp_bind_listen (os_bind o) (os_listen o) = -1 ->
   exists w', bindAndListen 5 o w = Some (-1, w') /\ 8 ∈ fds w' /\
     (forall d x, ctxs (it w') !! d = Some x -> fd (net_ x) <> 8)).
Proof.
  intros o w. eapply (failed_setup_leaks_fd 5 [x31] 80 (-1) o w 8); [reflexivity|done|reflexivity|].
  intros d x Hd. unfold w, sample_world in Hd. simpl in Hd. apply lookup_insert_Some in Hd as [[_ <-]|[_ Hd]]; [done|].
  by rewrite lookup_empty in Hd.
Defined.

(** ** Timeouts *)

Lemma rest_ms_exact k now :
  0 <= io_timestamp_ k < 4611686018427387904 -> 0 < io_timeout_ms_ k < 2147483648 ->
  0 <= now < 4611686018427387904 -> rest_ms k now = io_timestamp_ k + io_timeout_ms_ k - now.
Proof.
  intros. unfold rest_ms. rewrite (u64_id (io_timeout_ms_ k)), (u64_id now) by lia.
  rewrite (u64_id (_ + _)) by lia. unfold s64, u64. rewrite (wrapS_wrapU 64) by lia. apply s64_id. lia.
Qed.

(** A launch that can fail only for the reasons the source has. *)
Definition launchable (c : nat) (s : itachi) : Prop :=
  stop_ s = false /\ poll_queue s <> [] /\
  exists x, ctxs s !! c = Some x /\ owner x = self /\ 1 <= RefCount.ref_count_ (count x) < 2147483647.

Lemma launch_net c x s :
  ctxs s !! c = Some x -> type_ x = NET -> launchable c s ->
  exists s' y, Itachi.launch c s = Some (0, s') /\ ctxs s' !! c = Some y /\ net_ y = net_ x /\ action y = action x.
Proof.
  intros Hx Ht (Hst & Hq & x' & Hx' & Ho & Hc). simplify_eq. unfold Itachi.launch, launch_.
  rewrite Hx. cbn [mbind option_bind]. rewrite bool_decide_true by done. cbn [negb].
  unfold Itachi.acquire. rewrite Hx. cbn [mbind option_bind]. unfold RefCount.acquire.
  rewrite int32_add by lia. rewrite chk32_ok by lia. cbn [mbind option_bind set_ctxs ctxs].
  rewrite lookup_insert_eq. cbn [mbind option_bind type_]. rewrite Ht. unfold poll_push.
  cbn [stop_ ctxs set_ctxs poll_queue]. rewrite Hst, lookup_insert_eq. cbn [mbind option_bind thread_hint].
  unfold pick. destruct (poll_queue s) as [|q qs] eqn:Hqs; [done|]. rewrite <- Hqs.
  assert (0 < Z.of_nat (length (poll_queue s))) by (rewrite Hqs; simpl; lia).
  destruct (Nat.eqb_spec (length (poll_queue s)) 0); [lia|]. cbn [mbind option_bind].
  set (id := Z.to_nat _).
  destruct (lookup_lt_is_Some_2 (poll_queue s) id) as [q' Hq'].
  { unfold id. pose proof (Z.mod_pos_bound (thread_hint x) (Z.of_nat (length (poll_queue s)))). lia. }
  rewrite Hq'. cbn [mbind option_bind negb Z.eqb andb]. eexists _, _. split; [done|]. cbn [ctxs].
  rewrite lookup_insert_eq. done.
Qed.

Lemma wait_again_spec (rd : bool) tmo_event c k t w :
  0 <= io_timestamp_ k < 4611686018427387904 -> 0 < io_timeout_ms_ k < 2147483648 ->
  io_timestamp_ k <= t < 4611686018427387904 -> launchable c (it w) ->
  let ini := if rd then initNetReadEvent AA_READ else initNetWriteEvent AA_WRITE in
  let d := io_timestamp_ k + io_timeout_ms_ k in
  (d <= t -> wait_again ini tmo_event c k t w = Some (tmo_event, w)) /\
  (t < d -> exists w' y, wait_again ini tmo_event c k t w = Some (Relaunched, w') /\
    ctxs (it w') !! c = Some y /\ timeout_ms (net_ y) = d - t /\
    action y = if rd then AA_READ else AA_WRITE).
Proof.
  intros Hts Htm Ht Hl ini d. unfold wait_again. ztrue (0 <? io_timeout_ms_ k).
  rewrite rest_ms_exact by lia. fold d. cbn [andb]. split; intros Hd.
  - by ztrue (d - t <=? 0).
  - zfalse (d - t <=? 0). pose proof Hl as (Hst & Hq & x & Hx & Ho & Hc). unfold fd_of. rewrite Hx. cbn [mbind option_bind].
    unfold init. rewrite Hx. cbn [mbind option_bind]. unfold launch.
    set (x' := ini _ _ x). set (w1 := set_it _ w).
    destruct (launch_net c x' (it w1)) as (s' & y & Hln & Hy & Hn & Ha).
    + apply lookup_insert_eq.
    + unfold x', ini. by destruct rd.
    + split; [done|]. split; [done|]. exists x'. split; [apply lookup_insert_eq|].
      unfold x', ini. by destruct rd.
    + rewrite Hln. simpl. exists (set_it s' w1), y. split; [done|]. split; [done|].
      rewrite Hn, Ha. unfold x', ini. rewrite s32_id by lia. by destruct rd.
Qed.

(** C28: A read or write that would block waits again for exactly what is left of
    its timeout, counted from the call of [recv] or [send]: at or after the
    deadline the timeout callback runs; before it the context is launched with
    the time to the deadline. *)
Theorem io_deadline (rd : bool) c p k m m' x i w out :
  let d := io_timestamp_ k + io_timeout_ms_ k in
  0 <= io_timestamp_ k <= now i -> now i < 4611686018427387904 -> 0 < io_timeout_ms_ k < 2147483648 ->
  launchable c (it w) -> socks w !! c = Some k -> msg_ k = Some p -> msgs w !! p = Some m ->
  ctxs (it w) !! c = Some x -> action x = (if rd then AA_READ else AA_WRITE) ->
  (if rd then (Message.read (reads i) m, []) else Message.write (writes i) m) =
    (Message.Ret Message.kWouldBlock m', out) ->
  (d <= now i ->
   onComplete c i w = Some (if rd then onRecvTimeout else onSendTimeout, set_msg p m' w, out)) /\
  (now i < d ->
   exists w' y, onComplete c i w = Some (Relaunched, w', out) /\
     ctxs (it w') !! c = Some y /\ timeout_ms (net_ y) = d - now i /\ action y = action x).
Proof.
  intros d Ht1 Ht2 Htm Hl Hk Hp Hm Hx Ha Hio.
  destruct (wait_again_spec rd (if rd then onRecvTimeout else onSendTimeout) c k (now i) (set_msg p m' w))
    as [H1 H2]; [lia..|done|]. unfold onComplete. rewrite Hx. cbn [mbind option_bind]. rewrite Ha. clear Ha.
  destruct rd; cbn -[Message.read Message.write wait_again] in *.
  - unfold complete_read. rewrite Hk. cbn [mbind option_bind]. rewrite Hp. cbn [mbind option_bind].
    rewrite Hm. cbn [mbind option_bind]. simplify_eq. rewrite H.
    split; intros Hd; [by rewrite H1|]. destruct (H2 Hd) as (w' & y & -> & Hy). by exists w', y.
  - unfold complete_write. rewrite Hk. cbn [mbind option_bind]. rewrite Hp. cbn [mbind option_bind].
    rewrite Hm. cbn [mbind option_bind]. rewrite Hio.
    split; intros Hd; [by rewrite H1|]. destruct (H2 Hd) as (w' & y & -> & Hy). by exists w', y.
Qed.

Example io_deadline_witness :
  let w := sample_world AA_READ (Some 3%nat) 500 in
  let i := mk_input (Socket.Ok 0) 0 [Message.Data [x02]; Message.Fail 11] [] 1200 in
  exists w' y, onComplete 5 i w = Some (Relaunched, w', []) /\
    ctxs (it w') !! 5%nat = Some y /\ timeout_ms (net_ y) = 300 /\ action y = AA_READ.
Proof.
  intros w i.
  apply (io_deadline true 5 3 (mk 1000 500 (Some 3%nat) no_ip 80 (-1)) (Message.mk 0 [] 0)
    (Message.mk 2 [] 1) (mk_context RefCount.make 0 CPU AA_READ false
      (mk_net 7 (mk_events true false false false) (-1) false true false) self) i w []);
    try reflexivity; try (simpl; lia).
  split; [done|]. split; [done|]. eexists. split; [reflexivity|]. split; [done|]. simpl. lia.
Defined.

End AsyncSocket.
