(* ===== verification/Descriptors.v ===== *)
(** * Descriptors: the file descriptors behind the conditions of common/cond.h,
    common/cond.cc, and the names of common/socket.h

    The descriptors a process has open are a set of numbers. System calls return
    results given as arguments; a call that makes a descriptor adds it. *)

From S2P Require Import Prelude ASocket.
Import Socket.

Notation table := (gset Z).

(** close: 0, or -1 with EBADF for a number that is not open. *)
Definition close (fd : Z) (t : table) : Z * table :=
  if decide (fd ∈ t) then (0, t ∖ {[fd]}) else (-1, t).

(** [if(fd != -1) { close(fd); fd = -1; }] *)
Definition close_if (fd : Z) (t : table) : Z * table :=
  if fd =? -1 then (fd, t) else (-1, (close fd t).2).

(** The descriptor a call makes. *)
Definition opened (r : res) (t : table) : table :=
  match r with Ok v => {[v]} ∪ t | Err _ => t end.

(** ** What makes the pair of descriptors

    The template parameter of FileDescriptorCondition: [create] stores a pair of
    descriptors, [fini] is the destructor. *)
Class Factory (F : Type) := {
  calls : Type;
  make_factory : F;
  factory_create : calls -> F -> table -> option (Z * (Z * Z) * F * table);
  factory_fini : F -> table -> table;
}.

(** The results of pipe and of socketpair: two descriptors or a failure. *)
Definition two (r : option (Z * Z)) (f : unit) (t : table)
  : option (Z * (Z * Z) * unit * table) :=
  match r with
  | Some (a, b) => Some (0, (a, b), tt, {[a]} ∪ ({[b]} ∪ t))
  | None => Some (-1, (-1, -1), tt, t)
  end.

Module PipePairFactory.
(** src/code/cc/common/cond.h:174-179 [PipePairFactory] *)
Definition create : option (Z * Z) -> unit -> table -> option (Z * (Z * Z) * unit * table) := two.
Instance factory : Factory unit :=
  {| calls := option (Z * Z); make_factory := tt; factory_create := create; factory_fini _ t := t |}.
End PipePairFactory.

Module SocketPairFactory.
(** src/code/cc/common/cond.h:181-186 [SocketPairFactory] *)
Definition create : option (Z * Z) -> unit -> table -> option (Z * (Z * Z) * unit * table) := two.
Instance factory : Factory unit :=
  {| calls := option (Z * Z); make_factory := tt; factory_create := create; factory_fini _ t := t |}.
End SocketPairFactory.

Module TcpPairFactory.

(** src/code/cc/common/cond.h:189-202 [TcpPairFactory] *)
Record t := mk { rd_ : Z; wr_ : Z; server_ : Z }.

(** src/code/cc/common/cond.cc:62-65 [TcpPairFactory::TcpPairFactory] *)
Definition make : t := mk (-1) (-1) (-1).

(** The results of the calls of [create]: socket, bind and listen for the
    server, socket for the client, and accept until it is not interrupted. *)
Record results := mk_results {
  server : res; bind : res; listen : res; client : res; accepts : list res;
}.

(** src/code/cc/common/cond.cc:93-105 [TcpPairFactory::create]
    The results of the calls are not tested. The thread that connects runs
    until the join and makes no descriptor. *)
Definition create (r : results) (f : t) (tb : table)
  : option (Z * (Z * Z) * t * table) :=
  let s := create_tcp_socket (server r) in
  let tb := opened (server r) tb in
  let _ := tcp_bind_listen (bind r) (listen r) in
  let rd := create_tcp_socket (client r) in
  let tb := opened (client r) tb in
  wr ← tcp_accept (accepts r);
  let tb := if wr <? 0 then tb else {[wr]} ∪ tb in
  Some (0, (rd, wr), mk rd wr s, tb).

(** src/code/cc/common/cond.cc:87-91 [TcpPairFactory::thread_function]
    The connection from [rd_]: the results of connect and the errno before; the
    answer is not used. *)
Definition thread_function (errno : Z) (connects : list res) : option unit :=
  _ ← tcp_connect errno connects; Some tt.

(** src/code/cc/common/cond.cc:67-80 [TcpPairFactory::~TcpPairFactory] *)
Definition fini (f : t) (tb : table) : table :=
  let '(_, tb) := close_if (rd_ f) tb in
  let '(_, tb) := close_if (wr_ f) tb in
  let '(_, tb) := close_if (server_ f) tb in
  tb.

Instance factory : Factory t :=
  {| calls := results; make_factory := make; factory_create := create; factory_fini := fini |}.
End TcpPairFactory.
#[export] Existing Instance TcpPairFactory.factory.

(** ** The condition over a factory *)
Module FileDescriptorCondition.
Section condition.
Context {F : Type} `{Factory F}.

(** src/code/cc/common/cond.h:167-172 [FileDescriptorCondition] *)
Record t := mk { factory_ : F; fds_0 : Z; fds_1 : Z; epfd_ : Z }.

(** src/code/cc/common/cond.h:62-82 [FileDescriptorCondition::FileDescriptorCondition]
    [ep] is the result of epoll_create and [ctl] that of epoll_ctl; [None] is
    SPERM_FATAL. *)
Definition construct (cr : calls) (ep : res) (ctl : Z) (tb : table) : option (t * table) :=
  '(ret, (a, b), f, tb) ← factory_create cr make_factory tb;
  if negb (ret =? 0) then None else
  let epfd := match ep with Ok v => v | Err _ => -1 end in
  let tb := opened ep tb in
  if epfd =? -1 then None else
  if negb (ctl =? 0) then None else
  Some (mk f a b epfd, tb).

(** src/code/cc/common/cond.h:83-96 [FileDescriptorCondition::~FileDescriptorCondition] *)
Definition destroy_body (c : t) (tb : table) : table :=
  let '(_, tb) := close_if (fds_0 c) tb in
  let '(_, tb) := close_if (fds_1 c) tb in
  let '(_, tb) := close_if (epfd_ c) tb in
  tb.

(** The destructor runs its body, then that of the member. *)
Definition destroy (c : t) (tb : table) : table := factory_fini (factory_ c) (destroy_body c tb).
End condition.
Arguments t F : clear implicits.
End FileDescriptorCondition.
Import FileDescriptorCondition.

(** ** Names *)

Section names.
(** What the C library makes of an address. *)
Context (addr : Type) (inet_ntop : addr -> list byte).

(** The bytes of a port the other way round, on a little-endian machine. *)
Definition ntohs (p : Z) : Z := Z.lor (Z.shiftl (Z.land p 255) 8) (Z.land (Z.shiftr p 8) 255).

(** What the functions store through their pointers. *)
Record named := mk_named { ip : list byte; port : Z }.

(** src/code/cc/common/socket.h:114-128 [get_peer_name]
    For what getpeername answers. *)
Definition get_peer_name (r : option (addr * Z)) (old : named) : Z * named :=
  match r with
  | None => (-1, old)
  | Some (a, p) => (0, mk_named (inet_ntop a) (ntohs p))
  end.

(** src/code/cc/common/socket.h:130-144 [get_sock_name]
    For what getsockname answers. *)
Definition get_sock_name (r : option (addr * Z)) (old : named) : Z * named :=
  match r with
  | None => (-1, old)
  | Some (a, p) => (0, mk_named (inet_ntop a) (ntohs p))
  end.

(** src/code/cc/common/socket.h:146-160 [get_ip]
    For the addresses gethostbyname2_r answers; a list that is empty may not be
    read. *)
Definition get_ip (r : option (list addr)) (old : list byte) : option (Z * list byte) :=
  match r with
  | None => Some (-1, old)
  | Some addrs => a ← addrs !! 0%nat; Some (0, inet_ntop a)
  end.

(** src/code/cc/common/socket.h:162-167 [get_local_ip]
    With NDEBUG the assertion, and the call in it, are not compiled. *)
Definition get_local_ip (NDEBUG : bool) (r : option (list addr)) : option (list byte) :=
  if NDEBUG then Some [] else
  '(ret, ip) ← get_ip r []; if ret =? 0 then Some ip else None.
End names.

(** ** Closing *)

Lemma close_fd_spec fd t : (close fd t).2 = t ∖ {[fd]}.
Proof. unfold close. case_decide; [done|]. simpl. set_solver. Qed.

Lemma close_if_spec fd t : (close_if fd t).2 = if fd =? -1 then t else t ∖ {[fd]}.
Proof. unfold close_if. destruct (fd =? -1); [done|]. apply close_fd_spec. Qed.

(** Numbers of descriptors are not negative; closing -1 is closing nothing. *)
Definition table_ok (t : table) : Prop := forall fd, fd ∈ t -> 0 <= fd.

Lemma close_if_ok fd t : table_ok t -> (close_if fd t).2 = t ∖ {[fd]}.
Proof.
  intros H. rewrite close_if_spec. destruct (Z.eqb_spec fd (-1)) as [->|]; [|done].
  assert (-1 ∉ t) by (intros H1%H; lia). set_solver.
Qed.

Lemma table_ok_difference t x : table_ok t -> table_ok (t ∖ x).
Proof. intros H fd [? _]%elem_of_difference. by apply H. Qed.

Lemma close_three a b c t :
  table_ok t ->
  (let '(_, t) := close_if a t in let '(_, t) := close_if b t in
   let '(_, t) := close_if c t in t) = t ∖ {[a; b; c]}.
Proof.
  intros H. pose proof (close_if_ok a t H) as Ha. destruct (close_if a t) as [? t1].
  simpl in Ha. subst t1. pose proof (table_ok_difference _ {[a]} H) as H1.
  pose proof (close_if_ok b _ H1) as Hb. destruct (close_if b _) as [? t2].
  simpl in Hb. subst t2. pose proof (table_ok_difference _ {[b]} H1) as H2.
  pose proof (close_if_ok c _ H2) as Hc. destruct (close_if c _) as [? t3].
  simpl in Hc. subst t3. rewrite !difference_difference_l_L. f_equal. set_solver.
Qed.

Lemma destroy_body_spec {F} `{Factory F} (c : t F) tb :
  table_ok tb -> destroy_body c tb = tb ∖ {[fds_0 c; fds_1 c; epfd_ c]}.
Proof. apply close_three. Qed.

Lemma tcp_fini_spec f tb :
  table_ok tb ->
  TcpPairFactory.fini f tb =
  tb ∖ {[TcpPairFactory.rd_ f; TcpPairFactory.wr_ f; TcpPairFactory.server_ f]}.
Proof. apply close_three. Qed.

(** ** What a factory promises a condition

    The descriptors a [create] that succeeds adds were not open; they are the
    pair and those the factory closes itself. *)
Definition owned_by {F} `{Factory F} (own : F -> gset Z) : Prop :=
  (forall cr t ret a b f t', factory_create cr make_factory t = Some (ret, (a, b), f, t') -> ret = 0 ->
     t' ∖ t ⊆ {[a; b]} ∪ own f /\ t ⊆ t') /\
  (forall f t, table_ok t -> factory_fini f t = t ∖ own f).

Lemma pipe_owned : owned_by (H := PipePairFactory.factory) (fun _ => ∅).
Proof.
  split; [|intros [] t _; simpl; set_solver]. intros cr t ret a b f t'. simpl.
  unfold PipePairFactory.create, two. destruct cr as [[x y]|]; intros [= <- <- <- <- <-]; [|done].
  intros _. set_solver.
Qed.

Lemma socket_pair_owned : owned_by (H := SocketPairFactory.factory) (fun _ => ∅).
Proof. exact pipe_owned. Qed.

Lemma accept_result rs v : tcp_accept rs = Some v -> v = -1 \/ Ok v ∈ rs.
Proof.
  induction rs as [|[w|e] rs IH]; cbn; [done|intros [= ->]; set_solver|].
  destruct (_ || _); [|intros [= <-]; by left]. intros H%IH. destruct H; [by left|right; set_solver].
Qed.

Lemma tcp_owned : owned_by (H := TcpPairFactory.factory)
  (fun f => {[TcpPairFactory.rd_ f; TcpPairFactory.wr_ f; TcpPairFactory.server_ f]}).
Proof.
  split; [|intros; by apply tcp_fini_spec]. intros cr t ret a b f t'. simpl.
  unfold TcpPairFactory.create. destruct (tcp_accept _) as [wr|]; [|done].
  cbn [mbind option_bind]. intros [= <- <- <- <- <-] _.
  destruct (TcpPairFactory.server cr), (TcpPairFactory.client cr); cbn; destruct (_ <? 0);
    set_solver.
Qed.

(** ** The life of a condition *)

(** A condition over any such factory closes what it opened: destroying it
    leaves the table as it was before it was constructed, if nobody touched the
    table in between. *)
Theorem condition_closes {F} `{Factory F} (own : F -> gset Z) cr ep ctl tb (c : t F) tb' :
  owned_by own -> construct cr ep ctl tb = Some (c, tb') -> table_ok tb' ->
  {[fds_0 c; fds_1 c; epfd_ c]} ∪ own (factory_ c) ## tb ->
  destroy c tb' = tb.
Proof.
  intros [Hcr Hfini] Hc Hok Hnew. unfold construct in Hc.
  destruct (factory_create cr make_factory tb) as [[[[ret [a b]] f] t1]|] eqn:E; [|done].
  cbn [mbind option_bind] in Hc.
  destruct (Z.eqb_spec ret 0) as [->|]; [|done]. cbn [negb] in Hc.
  destruct (Hcr _ _ _ _ _ _ _ E eq_refl) as [H1 H2].
  destruct ep as [v|]; [|done]. destruct (v =? -1); [done|].
  destruct (ctl =? 0); [|done]. cbn [negb] in Hc. injection Hc as <- <-.
  cbn [fds_0 fds_1 epfd_ factory_ opened] in *. unfold destroy.
  rewrite destroy_body_spec by done. rewrite Hfini by by apply table_ok_difference.
  cbn [fds_0 fds_1 epfd_ factory_]. clear E Hcr Hfini.
  apply set_eq. intros x. split.
  - intros Hx. destruct (decide (x ∈ tb)) as [|Hn]; [done|].
    assert (x ∈ t1 -> x ∈ {[a; b]} ∪ own f) by (intros; apply H1; set_solver). set_solver.
  - intros Hx. assert (x ∈ t1) by set_solver.
    assert (x ∉ {[a; b; v]} ∪ own f) by set_solver. set_solver.
Qed.

Example condition_closes_witness :
  destroy (H := PipePairFactory.factory) (mk tt 3 4 5) {[3; 4; 5; 0]} = {[0]}.
Proof.
  apply (condition_closes (H := PipePairFactory.factory) (fun _ => ∅) (Some (3, 4)) (Ok 5) 0);
    [exact pipe_owned| |intros fd; set_solver by lia|set_solver by lia].
  vm_compute. reflexivity.
Defined.

(** The pair of the TCP factory is closed twice, by the condition and then by
    the factory. When the first close has freed the number of the reading end,
    another thread may be given it; the second close takes it away. *)
Theorem tcp_closes_twice cr ep ctl tb (c : t TcpPairFactory.t) tb' :
  construct cr ep ctl tb = Some (c, tb') -> table_ok tb' -> 0 <= fds_0 c ->
  let t1 := destroy_body c tb' in
  fds_0 c ∉ t1 /\ fds_0 c ∉ factory_fini (factory_ c) ({[fds_0 c]} ∪ t1).
Proof.
  intros Hc Hok Hfd t1. subst t1. rewrite destroy_body_spec by done.
  assert (fds_0 c = TcpPairFactory.rd_ (factory_ c)) as Hrd.
  { unfold construct in Hc. cbn in Hc. unfold TcpPairFactory.create in Hc.
    destruct (tcp_accept _); [|done]. cbn in Hc.
    destruct ep as [v|]; [|done]. destruct (v =? -1); [done|].
    destruct (ctl =? 0); [|done]. by injection Hc as <- _. }
  split; [set_solver|]. cbn. rewrite tcp_fini_spec; [rewrite <- Hrd; set_solver|].
  intros fd [->%elem_of_singleton|[? _]%elem_of_difference]%elem_of_union; [done|by apply Hok].
Qed.

Example tcp_closes_twice_witness :
  let c := mk (TcpPairFactory.mk 4 5 3) 4 5 6 in
  4 ∉ factory_fini (factory_ c) ({[4]} ∪ destroy_body c ({[6; 5; 4; 3]} : gset Z)).
Proof.
  refine (proj2 (tcp_closes_twice
    (TcpPairFactory.mk_results (Ok 3) (Ok 0) (Ok 0) (Ok 4) [Err EINTR; Ok 5]) (Ok 6) 0 ∅
    (mk (TcpPairFactory.mk 4 5 3) 4 5 6) {[6; 5; 4; 3]} _ _ _)).
  - vm_compute. reflexivity.
  - intros fd. set_solver by lia.
  - done.
Defined.

(** [create] of the TCP factory answers 0 whatever its calls return: when the
    server cannot listen, the pair holds a -1. *)
Lemma tcp_create_zero r f tb out : TcpPairFactory.create r f tb = Some out -> out.1.1.1 = 0.
Proof.
  unfold TcpPairFactory.create. destruct (tcp_accept _); [|done]. by intros [= <-].
Qed.

(** ** Names *)

Lemma ntohs_involutive p : 0 <= p < 65536 -> ntohs (ntohs p) = p.
Proof.
  intros Hp. assert (forall q, 0 <= q < 65536 -> ntohs q = 256 * (q `mod` 256) + q / 256) as H.
  { intros q Hq. unfold ntohs.
    change 255 with (Z.ones 8). rewrite !Z.land_ones, Z.shiftl_mul_pow2, Z.shiftr_div_pow2 by lia.
    change (2 ^ 8) with 256.
    rewrite (Z.mod_small (q / 256)) by dlia.
    pose proof (Z.add_lor_land (q `mod` 256 * 256) (q / 256)) as Hlor.
    replace (Z.land (q `mod` 256 * 256) (q / 256)) with 0 in Hlor; [lia|]. symmetry.
    clear Hlor. apply Z.bits_inj'. intros j Hj. rewrite Z.land_spec, Z.bits_0. change 256 with (2 ^ 8).
    destruct (Z.lt_ge_cases j 8); [by rewrite Z.mul_pow2_bits_low|].
    assert (Z.testbit (q / 2 ^ 8) j = false) as ->; [|apply andb_false_r].
    apply Z.testbit_false; [lia|]. rewrite Z.div_small; [done|].
    split; [apply Z.div_pos; lia|].
    assert (2 ^ 8 <= 2 ^ j) by (apply Z.pow_le_mono_r; lia).
    assert (q / 2 ^ 8 < 256) by (apply Z.div_lt_upper_bound; simpl; lia). simpl in *. lia. }
  rewrite (H p) by done. rewrite H by dlia. dlia.
Qed.

(** Without assertions the local address is never asked for. *)
Lemma get_local_ip_ndebug {addr} (ntop : addr -> list byte) r :
  get_local_ip addr ntop true r = Some [].
Proof. done. Qed.
