(* ===== verification/Nasty.v ===== *)
(** * Nasty: the expression reader and writer of nasty/

    [lex] interprets the rules of nasty.lexer: the longest match, the first rule
    among equals. [parse] is the shift-reduce automaton of the grammar of
    nasty.parser, [write] the printer of nasty.cc. A text is a list of bytes;
    the line and column an atom remembers are not modelled, since nothing reads
    them. *)

From S2P Require Import Prelude.

(** src/code/cc/nasty/nasty.h:51-57 [Atom::SR...]
    The kinds of leaves. *)
Inductive kind := SR | ID | DBL | INT.
#[export] Instance kind_eq_dec : EqDecision kind.
Proof. solve_decision. Defined.

(** src/code/cc/nasty/nasty.h:35-80 [Expr, Atom]
    An expression is the vector of its atoms. *)
Inductive atom := Leaf (type_ : kind) (s_ : list byte) | EX (ex_ : list atom).
Definition expr : Type := list atom.

Inductive token := LBRACE | RBRACE | Tok (k : kind) (s : list byte).

(** ** The lexer *)

(** src/code/cc/nasty/nasty.lexer:28-28 [C]
    The range [+-/] adds the comma and the dot. *)
Definition is_C (b : byte) : bool :=
  let z := byte_to_Z b in
  (97 <=? z) && (z <=? 122) || (65 <=? z) && (z <=? 90) || (z =? 95) (* a-zA-Z_ *)
  || (z =? 33) || (z =? 64) || (z =? 35) || (z =? 36) || (z =? 37) || (z =? 94) || (z =? 38) (* !@#$%^& *)
  || (z =? 42) || (43 <=? z) && (z <=? 47) || (z =? 60) || (z =? 62) || (z =? 58) || (z =? 126). (* *+-/<>:~ *)

(** src/code/cc/nasty/nasty.lexer:29-29 [D] *)
Definition is_D (b : byte) : bool := (48 <=? byte_to_Z b) && (byte_to_Z b <=? 57).

Definition is_space (b : byte) : bool :=
  bool_decide (b = x20) || bool_decide (b = x09) || bool_decide (b = x0a).

(** The longest prefix of bytes that satisfy [f], and the rest. *)
Fixpoint span (f : byte -> bool) (l : list byte) : list byte * list byte :=
  match l with
  | [] => ([], [])
  | b :: l => if f b then let '(u, v) := span f l in (b :: u, v) else ([], b :: l)
  end.

(** The end of a string literal, after its opening quote. *)
Fixpoint scan_string (l : list byte) : option (list byte * list byte) :=
  match l with
  | [] => None
  | b :: l =>
      if decide (b = x22) then Some ([b], l)
      else if decide (b = x5c) then
        match l with
        | [] => None
        | c :: l =>
            if decide (c = x0a) then None
            else '(u, v) ← scan_string l; Some (b :: c :: u, v)
        end
      else '(u, v) ← scan_string l; Some (b :: u, v)
  end.

(** What a rule does with its match. *)
Inductive action := Return (t : token) | Skip | Terminate.

(** src/code/cc/nasty/nasty.lexer:32-39 [rules]
    One match: the rule's action, the text it matched and the rest. *)
Definition lex1 (l : list byte) : option (action * list byte * list byte) :=
  match l with
  | [] => None
  | b :: r =>
      Some
        (if decide (b = x28) then (Return LBRACE, [b], r)
         else if decide (b = x29) then (Return RBRACE, [b], r)
         else if decide (b = x22) then
           match scan_string r with
           | Some (u, v) => (Return (Tok SR (b :: u)), b :: u, v)
           | None => (Terminate, [b], r)
           end
         else if is_C b then
           let '(u, v) := span (fun c => is_C c || is_D c) r in (Return (Tok ID (b :: u)), b :: u, v)
         else if is_D b then
           let '(u, v) := span is_D r in
           match v with
           | c :: v' =>
               if decide (c = x2e) then
                 let '(u', v'') := span is_D v' in
                 (Return (Tok DBL (b :: u ++ c :: u')), b :: u ++ c :: u', v'')
               else (Return (Tok INT (b :: u)), b :: u, v)
           | [] => (Return (Tok INT (b :: u)), b :: u, v)
           end
         else if is_space b then (Skip, [b], r)
         else (Terminate, [b], r))
  end.

(** The tokens up to the end of the input, or to the first byte no rule but the
    last matches; [n] bounds the number of matches. *)
Fixpoint lex_fuel (n : nat) (l : list byte) : list token :=
  match n with
  | O => []
  | S n =>
      match lex1 l with
      | Some (Return t, _, r) => t :: lex_fuel n r
      | Some (Skip, _, r) => lex_fuel n r
      | _ => []
      end
  end.

(** src/code/cc/nasty/nasty.lexer:32-39 [yylex]
    Every match takes a byte, so the length of the input is enough fuel. *)
Definition lex (l : list byte) : list token := lex_fuel (length l) l.

(** ** The parser *)

(** src/code/cc/nasty/nasty.cc:42-44 [Expr::appendAtom] *)
Definition appendAtom (e : expr) (a : atom) : expr := e ++ [a].

(** src/code/cc/nasty/nasty.parser:36-48 [yyparse]
    [cur] is the expression being read, [stack] those around it; [None] is the
    SPERM_FATAL of yyerror. *)
Fixpoint parse (stack : list expr) (cur : expr) (ts : list token) : option expr :=
  match ts with
  | [] => match stack, cur with [], _ :: _ => Some cur | _, _ => None end
  | LBRACE :: ts => parse (cur :: stack) [] ts
  | RBRACE :: ts =>
      match stack, cur with
      | outer :: stack, _ :: _ => parse stack (appendAtom outer (EX cur)) ts
      | _, _ => None
      end
  | Tok k s :: ts => parse stack (appendAtom cur (Leaf k s)) ts
  end.

(** src/code/cc/nasty/nasty.cc:25-40 [Parser::run]
    [file] is what fopen and reading give: [None] for a file that cannot be
    opened, for which [run] returns NULL; the outer [None] is the abort. *)
Definition run (file : option (list byte)) : option (option expr) :=
  match file with
  | None => Some None
  | Some text => e ← parse [] [] (lex text); Some (Some e)
  end.

(** ** The writer *)

(** src/code/cc/nasty/nasty.cc:52-56 [repeat] *)
Definition repeat (indent : Z) (c : byte) : list byte := replicate (Z.to_nat indent) c.

(** src/code/cc/nasty/nasty.cc:79-90 [Atom::write]
    The text and the new [lbrace]; the inner function is Expr::write,
    lines 65-72. *)
Fixpoint write_atom (indent lbrace : Z) (a : atom) : list byte * Z :=
  match a with
  | EX ex_ =>
      let '(o, lbrace) :=
        (fix write (lbrace : Z) (e : expr) : list byte * Z :=
           match e with
           | [] => ([], lbrace)
           | a :: e =>
               let '(o1, lbrace) := write_atom (indent + 1) lbrace a in
               let sep := match e with [] => [] | _ => [x0a] end in
               let '(o2, lbrace) := write lbrace e in
               (o1 ++ sep ++ o2, lbrace)
           end) (lbrace + 1) ex_ in
      (o ++ [x29], lbrace)
  | Leaf _ s_ =>
      (repeat (if lbrace =? 0 then indent else indent - 1) x20 ++ repeat lbrace x28 ++ s_, 0)
  end.

(** src/code/cc/nasty/nasty.cc:65-72 [Expr::write] *)
Fixpoint write (indent lbrace : Z) (e : expr) : list byte * Z :=
  match e with
  | [] => ([], lbrace)
  | a :: e =>
      let '(o1, lbrace) := write_atom indent lbrace a in
      let sep := match e with [] => [] | _ => [x0a] end in
      let '(o2, lbrace) := write indent lbrace e in
      (o1 ++ sep ++ o2, lbrace)
  end.

(** src/code/cc/nasty/nasty.cc:58-63 [Expr::toString] *)
Definition toString (e : expr) : list byte := (write 0 0 e).1.

Example toString_sample :
  toString [EX [EX [Leaf ID [x61]; Leaf INT [x31]]; Leaf ID [x62]]; Leaf ID [x63]] =
    [x20; x28; x28; x61; x0a; x20; x20; x31; x29; x0a; x20; x62; x29; x0a; x63].
Proof. reflexivity. Qed.

(** ** What the rules say *)

Definition is_CD (b : byte) : bool := is_C b || is_D b.

(** The repeated part of the string rule and its closing quote. *)
Inductive sr_tail : list byte -> Prop :=
| sr_close : sr_tail [x22]
| sr_escape c l : c <> x0a -> sr_tail l -> sr_tail (x5c :: c :: l)
| sr_char c l : c <> x5c -> c <> x22 -> sr_tail l -> sr_tail (c :: l).

(** The texts each rule matches. *)
Inductive matches : action -> list byte -> Prop :=
| m_lbrace : matches (Return LBRACE) [x28]
| m_rbrace : matches (Return RBRACE) [x29]
| m_sr l : sr_tail l -> matches (Return (Tok SR (x22 :: l))) (x22 :: l)
| m_id b l : is_C b = true -> Forall is_CD l -> matches (Return (Tok ID (b :: l))) (b :: l)
| m_dbl b u v : is_D b = true -> Forall is_D u -> Forall is_D v ->
    matches (Return (Tok DBL (b :: u ++ x2e :: v))) (b :: u ++ x2e :: v)
| m_int b u : is_D b = true -> Forall is_D u -> matches (Return (Tok INT (b :: u))) (b :: u)
| m_skip b : is_space b = true -> matches Skip [b]
| m_any b : b <> x0a -> matches Terminate [b].

(** Their order in the file. *)
Definition rank (a : action) : Z :=
  match a with
  | Return LBRACE => 0 | Return RBRACE => 1 | Return (Tok SR _) => 2 | Return (Tok ID _) => 3
  | Return (Tok DBL _) => 4 | Return (Tok INT _) => 5 | Skip => 6 | Terminate => 7
  end.

(** The classes of the first byte exclude each other. *)
Ltac bytes :=
  repeat match goal with b : byte |- _ => destruct b; try (vm_compute in *; done) end.

Lemma C_not_D b : is_C b = true -> is_D b = false.
Proof. by destruct b. Qed.
Lemma C_not_special b : is_C b = true -> b <> x28 /\ b <> x29 /\ b <> x22.
Proof. by destruct b. Qed.
Lemma D_not_special b : is_D b = true -> b <> x28 /\ b <> x29 /\ b <> x22 /\ is_C b = false.
Proof. by destruct b. Qed.
Lemma space_not_special b :
  is_space b = true -> b <> x28 /\ b <> x29 /\ b <> x22 /\ is_C b = false /\ is_D b = false.
Proof. by destruct b. Qed.

Lemma span_spec f l u v :
  span f l = (u, v) -> l = u ++ v /\ Forall f u /\ match v with [] => True | b :: _ => f b = false end.
Proof.
  revert u v. induction l as [|b l IH]; intros u v H; simpl in H; [by simplify_eq|].
  destruct (f b) eqn:Hb; [|by simplify_eq].
  destruct (span f l) as [u' v'] eqn:E. simplify_eq. destruct (IH _ _ eq_refl) as (-> & Hu & Hv).
  split; [done|]. split; [|done]. constructor; [by rewrite Hb|done].
Qed.

(** A prefix that satisfies [f] is no longer than the span. *)
Lemma span_longest (f : byte -> bool) (u v u' v' : list byte) :
  u ++ v = u' ++ v' -> Forall f u' -> match v with [] => True | b :: _ => f b = false end ->
  (length u' <= length u)%nat.
Proof.
  revert u'. induction u as [|b u IH]; intros u' He Hf Hv; simpl in *.
  - destruct u' as [|b u']; [done|]. subst v. simpl in Hv. apply Forall_cons in Hf as [Hb _]. by rewrite Hv in Hb.
  - destruct u' as [|b' u']; simpl; [lia|]. injection He as -> He. apply Forall_cons in Hf as [_ Hf].
    pose proof (IH u' He Hf Hv). lia.
Qed.

Lemma span_exact (f : byte -> bool) u v :
  Forall f u -> match v with [] => True | b :: _ => f b = false end -> span f (u ++ v) = (u, v).
Proof.
  intros Hu Hv. induction Hu as [|b u Hb _ IH]; simpl.
  - destruct v as [|b v]; simpl; [done|]. by rewrite Hv.
  - destruct (f b); [|done]. by rewrite IH.
Qed.

Lemma scan_string_tail (n : nat) : forall l u v : list byte,
  (length l <= n)%nat -> scan_string l = Some (u, v) -> l = u ++ v /\ sr_tail u.
Proof.
  induction n as [|n IH]; intros l u v Hl H; (destruct l as [|b l]; [done|]); simpl in Hl; [lia|].
  simpl in H. case_decide as Hq; [simplify_eq; by split; [|constructor]|].
  case_decide as Hb.
  - destruct l as [|c l]; [done|]. case_decide as Hc; [done|]. bind_inv. destruct x. simplify_eq.
    simpl in Hl. apply IH in H as [-> Ht]; [|lia]. by split; [|constructor].
  - bind_inv. destruct x. simplify_eq. apply IH in H as [-> Ht]; [|lia].
    by split; [|constructor].
Qed.

Lemma scan_string_spec l u v : scan_string l = Some (u, v) -> l = u ++ v /\ sr_tail u.
Proof. by apply (scan_string_tail (length l)). Qed.

Lemma scan_string_exact u v : sr_tail u -> scan_string (u ++ v) = Some (u, v).
Proof.
  induction 1 as [|c l Hc _ IH|c l H1 H2 _ IH]; simpl; [done|..].
  - rewrite decide_False by done. by rewrite IH.
  - rewrite decide_False, decide_False by done. by rewrite IH.
Qed.


Lemma scan_string_unique u v u' v' : sr_tail u -> sr_tail u' -> u ++ v = u' ++ v' -> u' = u.
Proof.
  intros Hu Hu' He. apply (scan_string_exact _ v) in Hu. apply (scan_string_exact _ v') in Hu'.
  rewrite He in Hu. congruence.
Qed.

(** The longest match, for a number: with a dot or without. *)
Lemma number_longest b u v w' r' :
  is_D b = true -> Forall is_D u -> match v with [] => True | c :: _ => is_D c = false end ->
  b :: u ++ v = w' ++ r' -> forall a', matches a' w' ->
  (exists b' u', a' = Return (Tok INT (b' :: u')) /\ w' = b' :: u' /\ (length w' <= S (length u))%nat) \/
  (exists b' v' v'', a' = Return (Tok DBL (b' :: u ++ x2e :: v')) /\ w' = b' :: u ++ x2e :: v' /\
     v = x2e :: v'' /\ Forall is_D v' /\ v'' = v' ++ r') \/
  (a' = Terminate /\ w' = [b]).
Proof.
  intros Hb Hu Hv He a' Hm. destruct (D_not_special b Hb) as (H1 & H2 & H3 & H4).
  inversion Hm as [| | |c l Hc|c u1 v1 Hc Hu1 Hv1|c u1 Hc Hu1|c Hc|c Hc]; subst; simpl in He; injection He as -> He; try done.
  - congruence.
  - right; left. rewrite <- (assoc_L (++)) in He. simpl in He.
    assert (u1 = u /\ v = x2e :: v1 ++ r') as [-> ->].
    { assert (span is_D (u ++ v) = (u, v)) as E1 by by apply span_exact.
      assert (span is_D (u1 ++ x2e :: v1 ++ r') = (u1, x2e :: v1 ++ r')) as E2 by by apply span_exact.
      rewrite He, E2 in E1. by simplify_eq. }
    by eexists _, _, _.
  - left. eexists _, _. split; [done|]. split; [done|]. simpl.
    pose proof (span_longest _ _ _ _ _ He Hu1 Hv). lia.
  - destruct (space_not_special c Hc) as (_ & _ & _ & _ & ?). congruence.
  - by do 2 right.
Qed.

(** What the choice of [lex1] has to satisfy. *)
Definition longest (l : list byte) (a : action) (w r : list byte) : Prop :=
  l = w ++ r /\ w <> [] /\ matches a w /\
  (forall a' w' r', l = w' ++ r' -> matches a' w' ->
     (length w' <= length w)%nat /\ (length w' = length w -> rank a <= rank a')).

Lemma lex1_number b l a w r :
  is_D b = true ->
  (let '(u, v) := span is_D l in
   match v with
   | c :: v' =>
       if decide (c = x2e) then
         let '(u', v'') := span is_D v' in (Return (Tok DBL (b :: u ++ c :: u')), b :: u ++ c :: u', v'')
       else (Return (Tok INT (b :: u)), b :: u, v)
   | [] => (Return (Tok INT (b :: u)), b :: u, v)
   end) = (a, w, r) -> longest (b :: l) a w r.
Proof.
  intros HD H.
  destruct (span is_D l) as [u v] eqn:Es. apply span_spec in Es as (-> & Hu & Hv).
  assert ((forall v', v <> x2e :: v') \/ exists v', v = x2e :: v') as [Hnd|[v' ->]].
  { destruct v as [|c v]; [by left|]. destruct (decide (c = x2e)) as [->|]; [by right; eexists|left; congruence]. }
  - assert (a = Return (Tok INT (b :: u)) /\ w = b :: u /\ r = v) as (-> & -> & ->).
    { destruct v as [|c v]; [by simplify_eq|]. case_decide as Hc; [by subst; destruct (Hnd v)|]. by simplify_eq. }
    split_and!; [done|done|by constructor|]. intros a' w' r' He Hm.
    destruct (number_longest _ _ _ _ _ HD Hu Hv He _ Hm) as
      [(b' & u' & -> & -> & Hl)|[(b' & v1 & v2 & -> & -> & -> & _)|[-> ->]]].
    + split; [exact Hl|]. by intros.
    + by destruct (Hnd v2).
    + split; [simpl; lia|done].
  - rewrite decide_True in H by done. destruct (span is_D v') as [u' v2] eqn:Es'.
    apply span_spec in Es' as (-> & Hu' & Hv'). simplify_eq.
    split_and!; [|done|by constructor|].
    { simpl. by rewrite <- (assoc_L (++)). }
    intros a' w' r' He Hm.
    destruct (number_longest b u (x2e :: u' ++ r) _ _ HD Hu Hv He _ Hm) as
      [(b' & u1 & -> & -> & Hl)|[(b' & v1 & v3 & -> & -> & Hv3 & Hf & Hv4)|[-> ->]]].
    + split; [simpl in *; rewrite length_app; lia|]. simpl. lia.
    + split; [|done]. injection Hv3 as Hv3. subst v3. pose proof (span_longest _ _ _ _ _ Hv4 Hf Hv').
       simpl. rewrite !length_app. simpl. lia.
    + split; [simpl; lia|done].
Qed.

#[local] Opaque byte_eq_dec Byte.byte_eq_dec is_C is_D is_space byte_to_Z.

Lemma lex1_ok l a w r :
  lex1 l = Some (a, w, r) -> longest l a w r.
Proof.
  unfold lex1. destruct l as [|b l]; [done|]. intros H. injection H as H.
  case_decide as E1; [simplify_eq|case_decide as E2; [simplify_eq|case_decide as E3]].
  - split_and!; [done|done|constructor|]. intros a' w' r' He Hm.
    inversion Hm; subst; simpl in He; simplify_eq; try done; simpl; split; (lia || done).
  - split_and!; [done|done|constructor|]. intros a' w' r' He Hm.
    inversion Hm; subst; simpl in He; simplify_eq; try done; simpl; split; (lia || done).
  - subst b. destruct (scan_string l) as [[u v]|] eqn:Es; simplify_eq.
    + destruct (scan_string_spec _ _ _ Es) as [-> Ht].
      split_and!; [done|done|by constructor|]. intros a' w' r' He Hm.
      inversion Hm; subst; simpl in He; simplify_eq; try done; simpl; split; try (lia || done).
      match goal with H : sr_tail ?x |- _ => by rewrite (scan_string_unique u r x r') end.
    + split_and!; [done|done|by constructor|]. intros a' w' r' He Hm.
      inversion Hm; subst; simpl in He; simplify_eq; try done; simpl; split; try (lia || done);
        match goal with H : sr_tail ?x |- _ => by rewrite (scan_string_exact x r' H) in Es end.
  - destruct (is_C b) eqn:HC; [|destruct (is_D b) eqn:HD; [|destruct (is_space b) eqn:HS]].
    + destruct (span _ l) as [u v] eqn:Es. simplify_eq. apply span_spec in Es as (-> & Hu & Hv).
      split_and!; [done|done|by constructor|]. intros a' w' r' He Hm. pose proof (C_not_D b HC).
      inversion Hm; subst; simpl in He; simplify_eq; try done; simpl; try (split; (lia || done)); try congruence.
      match goal with He : u ++ r = ?x ++ _, H : Forall _ ?x |- _ => pose proof (span_longest _ _ _ _ _ He H Hv) end.
      split; [lia|done].
    + by apply (lex1_number b l a w r HD).
    + simplify_eq. split_and!; [done|done|by constructor|]. intros a' w' r' He Hm.
      inversion Hm; subst; simpl in He; simplify_eq; try done; simpl; try (split; (lia || done)); congruence.
    + simplify_eq. split_and!; [done|done|constructor|].
      { intros ->. vm_compute in HS. done. }
      intros a' w' r' He Hm.
      inversion Hm; subst; simpl in He; simplify_eq; try done; simpl; try (split; (lia || done)); congruence.
Qed.

(** C16: [lex1] applies the longest match of the rules, and the first rule among
    those that match as much; and it finds one for every input that is not
    empty. *)
Theorem lex1_longest l :
  l <> [] -> exists a w r, lex1 l = Some (a, w, r) /\ longest l a w r.
Proof.
  intros Hl. destruct (lex1 l) as [[[a w] r]|] eqn:E; [|by destruct l].
  exists a, w, r. split; [done|]. by apply lex1_ok.
Qed.

Example lex1_longest_witness :
  exists a w r, lex1 [x31; x2e; x35; x2e; x36] = Some (a, w, r) /\ longest [x31; x2e; x35; x2e; x36] a w r.
Proof. by apply (lex1_longest [x31; x2e; x35; x2e; x36]). Defined.

(** The fuel of [lex] is enough: more does not change the tokens. *)
Lemma lex1_shorter l a w r : lex1 l = Some (a, w, r) -> (length r < length l)%nat.
Proof.
  unfold lex1. destruct l as [|b l]; [done|]. intros H. injection H as H.
  repeat case_decide; try (simplify_eq; simpl; lia).
  - destruct (scan_string l) as [[u v]|] eqn:Es; simplify_eq; [|simpl; lia].
    destruct (scan_string_spec _ _ _ Es) as [-> _]. simpl. rewrite length_app. lia.
  - destruct (is_C b); [|destruct (is_D b); [|destruct (is_space b); simplify_eq; simpl; lia]].
    + destruct (span _ l) as [u v] eqn:Es. simplify_eq. apply span_spec in Es as (-> & _).
      simpl. rewrite length_app. lia.
    + destruct (span _ l) as [u v] eqn:Es. apply span_spec in Es as (-> & _). simpl.
      rewrite length_app. destruct v as [|c v]; [simplify_eq; simpl; lia|]. case_decide; [|simplify_eq; simpl; lia].
      destruct (span _ v) as [u' v2] eqn:Es. apply span_spec in Es as (-> & _). simplify_eq. simpl.
      rewrite length_app. lia.
Qed.

Lemma lex_fuel_enough n m l :
  (length l <= n)%nat -> (length l <= m)%nat -> lex_fuel n l = lex_fuel m l.
Proof.
  revert m l. induction n as [|n IH]; intros [|m] l Hn Hm; simpl.
  - done.
  - destruct l; simpl in *; [done|lia].
  - destruct l; simpl in *; [done|lia].
  - destruct (lex1 l) as [[[[t| |] w] r]|] eqn:E; [..|done|done];
      apply lex1_shorter in E; [f_equal|]; apply IH; lia.
Qed.

Lemma lex_unfold l :
  lex l = match lex1 l with
          | Some (Return t, _, r) => t :: lex r
          | Some (Skip, _, r) => lex r
          | _ => []
          end.
Proof.
  unfold lex. destruct l as [|b l]; [done|].
  change (lex_fuel (length (b :: l)) (b :: l)) with
    (match lex1 (b :: l) with
     | Some (Return t, _, r) => t :: lex_fuel (length l) r
     | Some (Skip, _, r) => lex_fuel (length l) r
     | _ => []
     end).
  destruct (lex1 (b :: l)) as [[[[t| |] w] r]|] eqn:E; [..|done|done];
    apply lex1_shorter in E; simpl in E; [f_equal|]; apply lex_fuel_enough; lia.
Qed.

(** ** The grammar *)

(** The productions of nasty.parser. *)
Inductive expr_of : list token -> expr -> Prop :=
| e_atom ts a : atom_of ts a -> expr_of ts [a]
| e_append ts1 e ts2 a : expr_of ts1 e -> atom_of ts2 a -> expr_of (ts1 ++ ts2) (e ++ [a])
with atom_of : list token -> atom -> Prop :=
| a_brace ts e : expr_of ts e -> atom_of (LBRACE :: ts ++ [RBRACE]) (EX e)
| a_leaf k s : atom_of [Tok k s] (Leaf k s).

Scheme expr_of_mut := Induction for expr_of Sort Prop
with atom_of_mut := Induction for atom_of Sort Prop.
Combined Scheme of_mut from expr_of_mut, atom_of_mut.

(** The tokens of an expression, and expressions without an empty one. *)
Fixpoint toks_atom (a : atom) : list token :=
  match a with
  | Leaf k s => [Tok k s]
  | EX e => LBRACE :: concat (map toks_atom e) ++ [RBRACE]
  end.
Definition toks (e : expr) : list token := concat (map toks_atom e).

Inductive wf_atom : atom -> Prop :=
| wf_leaf k s : wf_atom (Leaf k s)
| wf_ex e : e <> [] -> Forall wf_atom e -> wf_atom (EX e).
Definition wf (e : expr) : Prop := e <> [] /\ Forall wf_atom e.

(** Induction over an atom with its nested expressions. *)
Lemma atom_ind' (P : atom -> Prop) :
  (forall k s, P (Leaf k s)) -> (forall e, Forall P e -> P (EX e)) -> forall a, P a.
Proof.
  intros HL HE. refine (fix rec a := match a with Leaf k s => HL k s | EX e => HE e _ end).
  induction e as [|a' e IH]; constructor; [apply rec|exact IH].
Qed.

Lemma toks_app e1 e2 : toks (e1 ++ e2) = toks e1 ++ toks e2.
Proof. unfold toks. by rewrite map_app, concat_app. Qed.

(** A derivation is the tokens of its expression. *)
Lemma derivation_toks :
  (forall ts e, expr_of ts e -> ts = toks e /\ wf e) /\
  (forall ts a, atom_of ts a -> ts = toks_atom a /\ wf_atom a).
Proof.
  apply of_mut; intros.
  - destruct H as [-> Hw]. unfold toks, wf. simpl. rewrite app_nil_r. by repeat constructor.
  - destruct H as [-> [_ Hw]]. destruct H0 as [-> Ha]. split.
    + rewrite toks_app. unfold toks at 3. simpl. by rewrite app_nil_r.
    + split; [by destruct e|]. apply Forall_app. split; [done|by constructor].
  - destruct H as [-> [He Hw]]. split; [done|by constructor].
  - split; [done|constructor].
Qed.

Lemma toks_derivation a : wf_atom a -> atom_of (toks_atom a) a.
Proof.
  induction a as [k s|e IH] using atom_ind'; intros Hw; [constructor|].
  inversion Hw as [|? He Hf]; subst. simpl. constructor. clear Hw.
  induction e as [|a e IHe] using rev_ind; [done|]. rewrite map_app, concat_app. simpl. rewrite app_nil_r.
  apply Forall_app in IH as [IH1 [Ha _]%Forall_cons]. apply Forall_app in Hf as [Hf1 [Hwa _]%Forall_cons].
  destruct e as [|a0 e0]; [simpl; constructor; by apply Ha|].
  constructor; [by apply IHe|by apply Ha].
Qed.

Lemma toks_expr e : wf e -> expr_of (toks e) e.
Proof.
  intros Hw. assert (atom_of (toks_atom (EX e)) (EX e)) as Ha by (apply toks_derivation; by constructor; apply Hw).
  inversion Ha as [ts e' He Ht|]; subst. apply app_inj_tail in Ht as [Ht _]. unfold toks. by rewrite <- Ht.
Qed.

(** ** The parser *)

(** The parser reads an atom in any context. *)
Lemma parse_atom a : wf_atom a -> forall stack cur ts,
  parse stack cur (toks_atom a ++ ts) = parse stack (cur ++ [a]) ts.
Proof.
  induction a as [k s|e IH] using atom_ind'; intros Hw stack cur ts; [done|].
  inversion Hw as [|? He Hf]; subst. cbn [toks_atom app parse]. clear Hw.
  assert (forall cur' ts', parse (cur :: stack) cur' (concat (map toks_atom e) ++ ts') =
    parse (cur :: stack) (cur' ++ e) ts') as Hseq.
  { clear He. induction e as [|a e IHe]; intros cur' ts'; [by rewrite app_nil_r|].
    apply Forall_cons in IH as [Ha IH]. apply Forall_cons in Hf as [Hwa Hf].
    cbn [map concat]. rewrite <- (assoc_L (++)), (Ha Hwa), (IHe IH Hf), <- (assoc_L (++)). done. }
  rewrite <- (assoc_L (++)), Hseq. simpl. by destruct e.
Qed.

Lemma parse_expr e : Forall wf_atom e -> forall cur ts,
  parse [] cur (toks e ++ ts) = parse [] (cur ++ e) ts.
Proof.
  induction 1 as [|a e Ha _ IH]; intros cur ts; [by rewrite app_nil_r|].
  unfold toks in *. cbn [map concat]. rewrite <- (assoc_L (++)), parse_atom, IH, <- (assoc_L (++)) by done. done.
Qed.

(** The tokens read so far. *)
Fixpoint context (stack : list expr) (cur : expr) : list token :=
  match stack with
  | [] => toks cur
  | outer :: stack => context stack outer ++ LBRACE :: toks cur
  end.

Lemma context_append stack cur a : context stack (cur ++ [a]) = context stack cur ++ toks_atom a.
Proof.
  destruct stack as [|outer stack]; simpl; rewrite toks_app; unfold toks at 2; simpl; rewrite app_nil_r; [done|].
  by rewrite <- (assoc_L (++)).
Qed.

Lemma parse_sound ts : forall stack cur e,
  Forall (Forall wf_atom) stack -> Forall wf_atom cur -> parse stack cur ts = Some e ->
  context stack cur ++ ts = toks e /\ wf e.
Proof.
  induction ts as [|t ts IH]; intros stack cur e Hs Hc H; simpl in H.
  - destruct stack, cur; try done. simplify_eq. rewrite app_nil_r. by split.
  - destruct t as [| |k s].
    + apply IH in H as [H1 H2]; [|by constructor|by constructor]. split; [|done].
      rewrite <- H1. simpl. by rewrite <- (assoc_L (++)).
    + destruct stack as [|outer stack], cur as [|c cur]; try done.
      apply Forall_cons in Hs as [Ho Hs]. apply IH in H as [H1 H2]; [|done|].
      2:{ apply Forall_app. split; [done|]. apply Forall_singleton. by constructor. }
      split; [|done]. rewrite <- H1. unfold appendAtom. rewrite context_append. simpl.
      rewrite <- !(assoc_L (++)). simpl. unfold toks. simpl. by rewrite <- !(assoc_L (++)).
    + apply IH in H as [H1 H2]; [|done|apply Forall_app; split; [done|by repeat constructor]].
      split; [|done]. rewrite <- H1. unfold appendAtom. rewrite context_append, <- (assoc_L (++)). done.
Qed.

(** C15: The automaton accepts exactly the token sequences of the grammar, with the
    expression the grammar gives them. *)
Theorem parse_grammar ts e : parse [] [] ts = Some e <-> expr_of ts e.
Proof.
  split.
  - intros H. apply parse_sound in H as [H1 H2]; [|constructor|constructor].
    simpl in H1. rewrite H1. by apply toks_expr.
  - intros H. apply (proj1 derivation_toks) in H as [-> [Hn Hw]].
    rewrite <- (app_nil_r (toks e)), parse_expr by done. by destruct e.
Qed.

(** ** Writing and reading back *)

(** The leaves' texts are texts of their kind. *)
Inductive texts_atom : atom -> Prop :=
| t_leaf k s : matches (Return (Tok k s)) s -> texts_atom (Leaf k s)
| t_ex e : Forall texts_atom e -> texts_atom (EX e).

(** What follows an atom in the printed text: nothing, a newline or a brace. *)
Definition separated (rest : list byte) : Prop :=
  match rest with [] => True | b :: _ => b = x0a \/ b = x29 end.

Lemma separated_CD rest : separated rest -> match rest with [] => True | b :: _ => is_C b || is_D b = false end.
Proof. destruct rest as [|b r]; [done|]. intros [->| ->]; done. Qed.
Lemma separated_D rest : separated rest ->
  match rest with [] => True | b :: _ => is_D b = false /\ b <> x2e end.
Proof. destruct rest as [|b r]; [done|]. intros [->| ->]; done. Qed.

Lemma lex1_leaf k s rest :
  matches (Return (Tok k s)) s -> separated rest -> lex1 (s ++ rest) = Some (Return (Tok k s), s, rest).
Proof.
  intros Hm Hs. pose proof (separated_CD _ Hs). pose proof (separated_D _ Hs).
  inversion Hm; subst; unfold lex1; simpl.
  - by rewrite scan_string_exact.
  - destruct (C_not_special b) as (? & ? & ?); [done|]. rewrite !decide_False by done.
    rewrite H3. by rewrite span_exact.
  - destruct (D_not_special b) as (? & ? & ? & HC); [done|]. rewrite !decide_False by done. rewrite HC, H3.
    rewrite <- (assoc_L (++)). simpl. rewrite span_exact by done. rewrite decide_True by done.
    rewrite span_exact; [done|done|]. by destruct rest; [|tauto].
  - destruct (D_not_special b) as (? & ? & ? & HC); [done|]. rewrite !decide_False by done. rewrite HC, H3.
    rewrite span_exact; [|done|by destruct rest; [|tauto]]. destruct rest as [|c rest]; [done|].
    rewrite decide_False by tauto. done.
Qed.

Lemma lex_space b l : is_space b = true -> lex (b :: l) = lex l.
Proof.
  intros Hb. destruct (space_not_special b Hb) as (? & ? & ? & HC & HD). rewrite lex_unfold. simpl.
  rewrite !decide_False by done. by rewrite HC, HD, Hb.
Qed.

Lemma lex_spaces n l : lex (repeat n x20 ++ l) = lex l.
Proof. unfold repeat. induction (Z.to_nat n) as [|k IH]; simpl; [done|]. by rewrite lex_space. Qed.

Lemma lex_braces n l : lex (repeat n x28 ++ l) = replicate (Z.to_nat n) LBRACE ++ lex l.
Proof. unfold repeat. induction (Z.to_nat n) as [|k IH]; [done|]. cbn [replicate app]. by rewrite lex_unfold, <- IH. Qed.

Lemma lex_rbrace l : lex (x29 :: l) = RBRACE :: lex l.
Proof. by rewrite lex_unfold. Qed.

Lemma lex_leaf k s rest :
  matches (Return (Tok k s)) s -> separated rest -> lex (s ++ rest) = Tok k s :: lex rest.
Proof. intros. by rewrite lex_unfold, (lex1_leaf k s rest). Qed.

Lemma write_atom_EX indent lb e :
  write_atom indent lb (EX e) =
    let '(o, lb) := write (indent + 1) (lb + 1) e in (o ++ [x29], lb).
Proof.
  simpl. generalize (lb + 1) as n. intros n.
  match goal with |- (let '(_, _) := ?f n e in _) = _ => enough (forall n, f n e = write (indent + 1) n e) as H by by rewrite H end.
  clear n. induction e as [|a e IH]; intros n; [done|]. simpl.
  destruct (write_atom (indent + 1) n a) as [o1 n1]. by rewrite IH.
Qed.

(** What the printer promises about an atom or an expression: the braces left
    open are written with its first leaf, and the text reads as its tokens. *)
Definition prints (o : list byte) (lb lb' : Z) (ts : list token) : Prop :=
  lb' = 0 /\ forall rest, separated rest ->
    lex (o ++ rest) = replicate (Z.to_nat lb) LBRACE ++ ts ++ lex rest.

Lemma write_prints indent lb e o lb' :
  Forall (fun a => forall indent lb o lb', 0 <= lb ->
    write_atom indent lb a = (o, lb') -> prints o lb lb' (toks_atom a)) e ->
  e <> [] -> 0 <= lb -> write indent lb e = (o, lb') -> prints o lb lb' (toks e).
Proof.
  intros Hf. revert lb o lb'. induction Hf as [|a e Ha Hf IH]; intros lb o lb' He Hlb H; [done|].
  cbn [write] in H. destruct (write_atom indent lb a) as [o1 lb1] eqn:E1.
  destruct (Ha _ _ _ _ Hlb E1) as [-> Hl1]. destruct (write indent 0 e) as [o2 lb2] eqn:E2. simplify_eq.
  destruct e as [|a2 e].
  - simpl in E2. simplify_eq. split; [done|]. intros rest Hr. unfold toks. simpl. rewrite !app_nil_r. by apply Hl1.
  - destruct (IH 0 o2 lb' ltac:(done) ltac:(lia) E2) as [-> Hl2]. split; [done|]. intros rest Hr.
    rewrite <- !(assoc_L (++)). rewrite Hl1 by by left. cbn [app]. rewrite lex_space by done. rewrite Hl2 by done.
    unfold toks. cbn [map concat]. by rewrite <- !(assoc_L (++)).
Qed.

Lemma write_atom_prints a : wf_atom a -> texts_atom a -> forall indent lb o lb', 0 <= lb ->
  write_atom indent lb a = (o, lb') -> prints o lb lb' (toks_atom a).
Proof.
  induction a as [k s|e IH] using atom_ind'; intros Hw Ht indent lb o lb' Hlb H.
  - inversion Ht; subst. simpl in H. simplify_eq. split; [done|]. intros rest Hr.
    rewrite <- !(assoc_L (++)), lex_spaces, lex_braces, (lex_leaf k s) by done. done.
  - inversion Hw as [|? He Hf]; inversion Ht as [|? Hx]; subst. rewrite write_atom_EX in H.
    destruct (write (indent + 1) (lb + 1) e) as [o1 lb1] eqn:E. simplify_eq.
    destruct (write_prints (indent + 1) (lb + 1) e o1 lb') as [-> Hl]; [|done|lia|done|].
    + apply Forall_forall. intros a Ha. rewrite Forall_forall in IH, Hf, Hx. by apply IH; auto.
    + split; [done|]. intros rest Hr. rewrite <- (assoc_L (++)). simpl. rewrite Hl by by right.
      rewrite lex_rbrace. replace (Z.to_nat (lb + 1)) with (Z.to_nat lb + 1)%nat by lia.
      rewrite replicate_add. cbn [replicate]. rewrite <- !(assoc_L (++)). simpl. done.
Qed.

(** An expression without an empty parenthesis, each leaf of which carries a
    text of its kind. *)
Definition printable (e : expr) : Prop := wf e /\ Forall texts_atom e.

Lemma write_run e : printable e -> run (Some (toString e)) = Some (Some e).
Proof.
  intros [[He Hw] Ht]. unfold run, toString. destruct (write 0 0 e) as [o lb'] eqn:E. simpl.
  destruct (write_prints 0 0 e o lb') as [_ Hl]; [|done|lia|done|].
  - apply Forall_forall. intros a Ha. rewrite Forall_forall in Hw, Ht. by apply write_atom_prints; [apply Hw|apply Ht].
  - specialize (Hl [] I). rewrite app_nil_r in Hl. rewrite Hl. simpl. unfold lex. simpl. rewrite app_nil_r.
    rewrite <- (app_nil_r (toks e)), parse_expr by done. simpl. by destruct e.
Qed.

Definition good_token (t : token) : Prop :=
  match t with Tok k s => matches (Return (Tok k s)) s | _ => True end.

Lemma lex_good n l : Forall good_token (lex_fuel n l).
Proof.
  revert l. induction n as [|n IH]; intros l; simpl; [constructor|].
  destruct (lex1 l) as [[[[t| |] w] r]|] eqn:E; try constructor; try apply IH.
  apply lex1_ok in E as (_ & _ & Hm & _). destruct t; [done..|]. by inversion Hm; subst.
Qed.

Lemma toks_texts a : Forall good_token (toks_atom a) -> texts_atom a.
Proof.
  induction a as [k s|e IH] using atom_ind'; intros Hg; constructor.
  - by apply Forall_cons in Hg as [? _].
  - simpl in Hg. apply Forall_cons in Hg as [_ Hg]. apply Forall_app in Hg as [Hg _].
    induction IH as [|a e Ha _ IHe]; constructor; simpl in Hg; apply Forall_app in Hg as [? ?]; auto.
Qed.

(** C10: Every expression the reader returns is printed to a text that it reads as
    the same expression; and so is every other expression without an empty
    parenthesis whose leaves carry texts of their kind. *)
Theorem toString_reads_back e :
  printable e \/ (exists text, run (Some text) = Some (Some e)) ->
  run (Some (toString e)) = Some (Some e).
Proof.
  intros [Hp|[text Hr]]; [by apply write_run|]. apply write_run. unfold run in Hr.
  destruct (parse [] [] (lex text)) as [e'|] eqn:Hp; [|done]. simpl in Hr. simplify_eq.
  apply parse_sound in Hp as [Ht Hw]; [|constructor|constructor]. split; [done|]. simpl in Ht.
  pose proof (lex_good (length text) text) as Hg. fold (lex text) in Hg. rewrite Ht in Hg. clear -Hg.
  unfold toks in Hg. induction e as [|a e IH]; constructor; simpl in Hg; apply Forall_app in Hg as [? ?];
    [by apply toks_texts|by apply IH].
Qed.

Example toString_reads_back_witness :
  let e := [EX [EX [Leaf ID [x61]; Leaf INT [x31]]; Leaf SR [x22; x5c; x22; x22]]; Leaf DBL [x32; x2e]] in
  run (Some (toString e)) = Some (Some e).
Proof.
  intros e. apply (toString_reads_back e). right.
  by exists [x28; x28; x61; x20; x31; x29; x22; x5c; x22; x22; x29; x32; x2e].
Defined.

(** A byte that starts no token ends the input in silence: what follows it is
    not read. *)
Lemma lex_stops l r b : is_C b = false -> is_D b = false -> is_space b = false ->
  b <> x22 -> b <> x28 -> b <> x29 -> lex (b :: l) = lex (b :: r).
Proof.
  intros HC HD HS H1 H2 H3. rewrite !(lex_unfold (b :: _)). simpl.
  rewrite !decide_False by done. by rewrite HC, HD, HS.
Qed.
