(* ===== verification/Dispatch.v ===== *)
(** * Dispatch: requests, services and their dispatch of sasuke/rpc.{h,cc} and
    sasuke/proto_rpc.h

    What goes over the wire and what a server does with it; the sockets are in
    [Rpc.v]. A [Request] or [Response] is an object whose class implements
    Serializable, here an instance of [Stream]; a service is user code given by
    its record. [None] is an exception or an access outside a buffer. *)

From S2P Require Import Prelude ByteArray Compress Serializer.

(** ** Wire format *)

(** src/code/cc/sasuke/rpc.cc:196-209 [serialize_request]
    The method, then the object. *)
Definition serialize_request {A} `{Stream A} (a : allocator) (method : list byte) (request : A)
    (bytes : Writeable.t) : option (bool * Writeable.t) :=
  '(ok, bytes) ← serialize_string a method bytes;
  if negb ok then Some (false, bytes) else
  '(ok, bytes) ← out a request bytes;
  Some (ok, bytes).

(** src/code/cc/sasuke/rpc.cc:211-219 [deserialize_method] *)
Definition deserialize_method (method : list byte) (bytes : Readable.t) :
    option (bool * list byte * Readable.t) :=
  deserialize_string method bytes.

(** src/code/cc/sasuke/rpc.cc:222-230 [serialize_response] *)
Definition serialize_response {A} `{Stream A} (a : allocator) (response : A) (bytes : Writeable.t) :
    option (bool * Writeable.t) :=
  out a response bytes.

(** src/code/cc/sasuke/rpc.cc:232-240 [deserialize_response] *)
Definition deserialize_response {A} `{Stream A} (response : A) (bytes : Readable.t) :
    option (bool * option A * Readable.t) :=
  in_ (Some response) bytes.

(** ** Services *)

(** src/code/cc/sasuke/rpc.h:61-82 [Service]
    The classes of its objects and its virtual methods. *)
Record service := mk_service {
  Req : Type; Res : Type;
  Req_stream : Stream Req; Res_stream : Stream Res;
  allocateRequest : Req; allocateResponse : Res;
  run : Req -> Res -> Res;
}.
#[export] Existing Instance Req_stream.
#[export] Existing Instance Res_stream.

(** src/code/cc/sasuke/rpc.h:153-157 [ServiceCallBack::dispatcher_] *)
Definition dispatcher : Type := gmap (list byte) service.

(** src/code/cc/sasuke/rpc.h:150-152 [ServiceCallBack::registerService] *)
Definition registerService (d : dispatcher) (method : list byte) (s : service) : dispatcher :=
  <[method := s]> d.

(** What [handle] does with the service's objects. *)
Inductive ev := AllocRequest | AllocResponse | Ran | FreeRequest | FreeResponse.
#[export] Instance ev_eq_dec : EqDecision ev.
Proof. solve_decision. Defined.

(** The code after [fail]: what is not null is deallocated. *)
Definition cleanup (request response : bool) : list ev :=
  (if request then [FreeRequest] else []) ++ (if response then [FreeResponse] else []).

(** src/code/cc/sasuke/rpc.cc:455-512 [ServiceCallBack::handle] *)
Definition handle (d : dispatcher) (a : allocator) (in_bytes : Readable.t) (out_bytes : Writeable.t) :
    option (Z * list ev * Readable.t * Writeable.t) :=
  '(ok, method, in_bytes) ← deserialize_method [] in_bytes;
  if negb ok then Some (-1, cleanup false false, in_bytes, out_bytes) else
  match d !! method with
  | None => Some (-1, cleanup false false, in_bytes, out_bytes)
  | Some s =>
      '(ok, request, in_bytes) ← in_ (Some (allocateRequest s)) in_bytes;
      if negb ok then Some (-1, [AllocRequest] ++ cleanup true false, in_bytes, out_bytes) else
      request ← request;
      let response := run s request (allocateResponse s) in
      '(ok, out_bytes) ← serialize_response a response out_bytes;
      if negb ok then
        Some (-1, [AllocRequest; AllocResponse; Ran] ++ cleanup true true, in_bytes, out_bytes)
      else
        Some (0, [AllocRequest; AllocResponse; Ran; FreeRequest; FreeResponse] ++ cleanup false false,
              in_bytes, out_bytes)
  end.

(** ** Protobuf objects as requests and responses *)

Section proto.
Context {T : Type} (ByteSize : T -> Z) (SerializeToArray : T -> Z -> option (list byte))
  (Parse : list byte -> option T) (new : T).

(** src/code/cc/sasuke/proto_rpc.h:26-34 [Request::serialize, deserialize]
    The same for Response, lines 47-55. A protobuf object is never
    uninitialised: it is at least what its constructor makes it. *)
Definition proto_stream : Stream T := {|
  out a x w :=
    '(ok, w) ← Proto.SerializeToByteArray ByteSize SerializeToArray a x (Some w);
    w ← w; Some (ok, w);
  in_ x b :=
    '(ok, x, b) ← Proto.DeserizlizeFromByteArray Parse (default new x) (Some b);
    b ← b; Some (ok, Some x, b);
|}.
End proto.

(** src/code/cc/sasuke/proto_rpc.h:59-83 [Service]
    The service of a [handleRequest] between two protobuf classes. *)
Definition proto_service {T1 T2} (s1 : Stream T1) (s2 : Stream T2) (new1 : T1) (new2 : T2)
    (handleRequest : T1 -> T2 -> T2) : service :=
  mk_service T1 T2 s1 s2 new1 new2 handleRequest.

(** A protobuf class keeps the contract of a streamed type: its messages are
    those the generated code can size, write and parse. *)
Section proto_laws.
Context {T : Type} (ByteSize : T -> Z) (SerializeToArray : T -> Z -> option (list byte))
  (Parse : list byte -> option T) (new : T).

Definition proto_laws : @StreamLaws T (proto_stream ByteSize SerializeToArray Parse new).
Proof.
  refine {|
    valid := Proto.message_ok ByteSize SerializeToArray Parse : T -> Prop;
    wire := Proto.message_wire ByteSize SerializeToArray : T -> list byte |}.
  - intros x (Hs & _). unfold Proto.message_wire.
    pose proof (encode_nonempty (ByteSize x) ltac:(lia)). by destruct (encode _).
  - intros a x w Hw Hx Hc He. pose proof Hx as (_ & bs & Hbs & Hl & _).
    unfold Proto.message_wire in *. rewrite Hbs, length_app in Hc. cbn in Hc.
    destruct (Proto.serialize_spec ByteSize SerializeToArray Parse a x w Hw Hx)
      as (w' & bs' & H1 & Hw' & Hbs' & Hcont); [lia|done|].
    exists w'. cbn [out proto_stream]. rewrite H1. split; [done|]. split; [done|].
    rewrite Hbs in *. by simplify_eq.
  - intros x y b r Hb Hx Hr.
    destruct (Proto.deserialize_spec ByteSize SerializeToArray Parse x (default new y) b r Hx Hb Hr)
      as (b' & Ho1 & Hw' & Hr').
    exists b'. cbn [in_ proto_stream]. by rewrite Ho1.
Defined.
End proto_laws.

(** ** A whole call *)

Lemma serialize_request_wire {A} `{StreamLaws A} a method (q : A) w :
  Writeable.wf w -> valid method -> valid q ->
  Writeable.cur_ w + Z.of_nat (length (wire method)) + Z.of_nat (length (wire q)) + 9 <= 2 ^ 63 ->
  (forall n, n <= 2 ^ 63 -> enough a n = true) ->
  exists w', serialize_request a method q w = Some (true, w') /\ Writeable.wf w' /\
    Writeable.content w' = Writeable.content w ++ wire method ++ wire q.
Proof.
  intros Hw Hm Hq Hc He. destruct (out_wire a method w) as (w1 & Ho1 & Hw1 & Hc1); [done|done|lia|done|].
  pose proof (Writeable.content_length _ Hw). pose proof (Writeable.content_length _ Hw1) as Hl1.
  rewrite Hc1, length_app in Hl1.
  destruct (out_wire a q w1) as (w2 & Ho2 & Hw2 & Hc2); [done|done|lia|done|].
  exists w2. unfold serialize_request. change (serialize_string a method w) with (out a method w).
  rewrite Ho1. cbn [mbind option_bind negb]. rewrite Ho2. split; [done|]. split; [done|].
  by rewrite Hc2, Hc1, (assoc_L (++)).
Qed.

Lemma deserialize_method_wire m0 method b r :
  Readable.wf b -> valid method -> Readable.rest b = wire method ++ r ->
  exists b', deserialize_method m0 b = Some (true, method, b') /\ Readable.wf b' /\ Readable.rest b' = r.
Proof.
  intros Hb Hm Hr. destruct (in_wire method (Some m0) b r Hb Hm Hr) as (b' & Hin & Hw & Hr').
  exists b'. split; [|done]. cbn [in_ string_stream] in Hin. unfold deserialize_method.
  destruct (deserialize_string _ b) as [[[ok u] b1]|] eqn:E; simpl in *; [|done]. by simplify_eq.
Qed.

(** The server's part: a well-formed request of a registered method is run on
    exactly the object the client sent, and answered with the object the service
    made of it; both objects are given back. *)
Lemma handle_ok d a s `{LQ : !StreamLaws (Req s)} `{LR : !StreamLaws (Res s)} method (q : Req s) b w r :
  d !! method = Some s -> valid method -> valid q -> valid (run s q (allocateResponse s)) ->
  Readable.wf b -> Readable.rest b = wire method ++ wire q ++ r -> Writeable.wf w ->
  Writeable.cur_ w + Z.of_nat (length (wire (run s q (allocateResponse s)))) + 9 <= 2 ^ 63 ->
  (forall n, n <= 2 ^ 63 -> enough a n = true) ->
  exists b' w', handle d a b w =
      Some (0, [AllocRequest; AllocResponse; Ran; FreeRequest; FreeResponse], b', w') /\
    Readable.rest b' = r /\ Writeable.wf w' /\
    Writeable.content w' = Writeable.content w ++ wire (run s q (allocateResponse s)).
Proof.
  intros Hd Hm Hq Hr Hb Hrest Hw Hc He.
  destruct (deserialize_method_wire [] method b _ Hb Hm Hrest) as (b1 & H1 & Hb1 & Hr1).
  destruct (in_wire q (Some (allocateRequest s)) b1 r Hb1 Hq Hr1) as (b2 & H2 & Hb2 & Hr2).
  destruct (out_wire a (run s q (allocateResponse s)) w) as (w' & H3 & Hw' & Hc'); [done|done|lia|done|].
  exists b2, w'. unfold handle. rewrite H1. cbn [mbind option_bind negb]. rewrite Hd, H2.
  cbn [mbind option_bind negb]. unfold serialize_response. rewrite H3. done.
Qed.

(** The bytes one side hands to the other. *)
Definition received (w : Writeable.t) : Readable.t :=
  Readable.make (Writeable.content w) (Z.of_nat (length (Writeable.content w))).

(** A call from end to end: the client serializes the request, the server
    handles what arrived, the client reads the response: it is the one the
    service made of the request that was sent. *)
Lemma rpc_call_ok d a s (LQ : @StreamLaws (Req s) (Req_stream s)) (LR : @StreamLaws (Res s) (Res_stream s))
    method (q : Req s) (res0 : Res s) :
  let result := run s q (allocateResponse s) in
  d !! method = Some s -> valid method -> valid q -> valid result ->
  Z.of_nat (length (wire method)) + Z.of_nat (length (wire q)) <= 2 ^ 62 ->
  Z.of_nat (length (wire result)) <= 2 ^ 62 ->
  (forall n, n <= 2 ^ 63 -> enough a n = true) ->
  exists w log b' w' b'', Writeable.wf w /\ Writeable.wf w' /\
    serialize_request a method q (Writeable.make (fill a) true) = Some (true, w) /\
    handle d a (received w) (Writeable.make (fill a) true) = Some (0, log, b', w') /\
    log = [AllocRequest; AllocResponse; Ran; FreeRequest; FreeResponse] /\
    deserialize_response res0 (received w') = Some (true, Some result, b'').
Proof.
  intros result Hd Hm Hq Hr Hl1 Hl2 He.
  pose proof (Writeable.make_wf (fill a) true) as Hw0.
  pose proof (Writeable.content_make (fill a) true) as Hc0.
  destruct (serialize_request_wire a method q _ Hw0 Hm Hq) as (w & H1 & Hw & Hc); [cbn [Writeable.make Writeable.cur_]; lia|done|].
  rewrite Hc0 in Hc. cbn [app] in Hc.
  destruct (handle_ok d a s method q (received w) (Writeable.make (fill a) true) []) as (b' & w' & H2 & _ & Hw' & Hc'); try done.
  { apply Readable.readable_make_wf. fold (received w).
    rewrite Hc, length_app. lia. }
  { unfold received. rewrite Readable.rest_make, Hc, app_nil_r. done. }
  { cbn [Writeable.make Writeable.cur_]. fold result. lia. }
  rewrite Hc0 in Hc'. cbn [app] in Hc'. fold result in Hc'.
  destruct (in_wire result (Some res0) (received w') []) as (b'' & H3 & _).
  { apply Readable.readable_make_wf. rewrite Hc'. lia. }
  { done. }
  { unfold received. rewrite Readable.rest_make, Hc', app_nil_r. done. }
  by exists w, [AllocRequest; AllocResponse; Ran; FreeRequest; FreeResponse], b', w', b''.
Qed.

(** A service from strings to numbers: the length of its argument. *)
Definition length_service : service :=
  mk_service (list byte) uint64 string_stream uint64_stream [] (U64 0) (fun q _ => U64 (Z.of_nat (length q))).

(** Whatever arrives, every object the service allocated is given back, exactly
    once, and nothing is written unless the service ran. *)
Theorem handle_outcomes d a b w ret log b' w' :
  handle d a b w = Some (ret, log, b', w') ->
  (ret = -1 /\ w' = w /\ (log = [] \/ log = [AllocRequest; FreeRequest])) \/
  ((ret = 0 \/ ret = -1) /\ log = [AllocRequest; AllocResponse; Ran; FreeRequest; FreeResponse]).
Proof.
  unfold handle. intros H.
  destruct (deserialize_method [] b) as [[[ok m] b1]|]; [|done]. cbn [mbind option_bind] in H.
  destruct ok; cbn [negb] in H; [|simplify_eq; left; split_and!; [done|done|by left]].
  destruct (d !! m) as [s|]; [|simplify_eq; left; split_and!; [done|done|by left]].
  destruct (in_ _ b1) as [[[ok q] b2]|]; [|done]. cbn [mbind option_bind] in H.
  destruct ok; cbn [negb] in H; [|simplify_eq; left; split_and!; [done|done|by right]].
  destruct q as [q|]; [|done]. cbn [mbind option_bind] in H.
  destruct (serialize_response a _ w) as [[ok w1]|]; [|done]. cbn [mbind option_bind] in H.
  destruct ok; cbn [negb] in H; simplify_eq; right; (split; [|done]); [by left|by right].
Qed.

Example handle_outcomes_witness :
  (-1 = -1 /\ Writeable.make x00 true = Writeable.make x00 true /\ (@nil ev = [] \/ @nil ev = [AllocRequest; FreeRequest])) \/
  ((-1 = 0 \/ -1 = -1) /\ @nil ev = [AllocRequest; AllocResponse; Ran; FreeRequest; FreeResponse]).
Proof.
  eapply (handle_outcomes (registerService ∅ [x66] length_service) (mk_allocator (fun _ => true) x00)
    (Readable.make [x02; x67; x00] 3)). vm_compute. reflexivity.
Defined.

(** A client can take the server down: a request of a protobuf service that
    declares more bytes than it brings makes the parser read past the end of the
    message. *)
Theorem oversized_request_crashes {T1 T2} BS SA (P : list byte -> option T1) new1 (s2 : Stream T2) new2 f
    d a method v r b w :
  d !! method = Some (proto_service (proto_stream BS SA P new1) s2 new1 new2 f) ->
  valid method -> 0 <= v < 18446744073709551616 -> Z.of_nat (length r) < v -> Readable.wf b ->
  Readable.rest b = wire method ++ encode v ++ r ->
  handle d a b w = None.
Proof.
  intros Hd Hm Hv Hr Hb Hrest.
  destruct (deserialize_method_wire [] method b _ Hb Hm Hrest) as (b1 & Ho & Hb1 & Hr1).
  unfold handle. rewrite Ho. cbn [mbind option_bind negb]. rewrite Hd.
  cbn [proto_service Req Req_stream allocateRequest in_ proto_stream default].
  by rewrite (Proto.message_size_unchecked P _ b1 v r).
Qed.

Example oversized_request_crashes_witness :
  let s := proto_service (proto_stream (fun _ : list byte => 0) (fun _ _ => None) Some []) uint64_stream
    [] (U64 0) (fun _ x => x) in
  let b := Readable.make [x02; x66; x0a; x00] 4 in
  handle (registerService ∅ [x66] s) (mk_allocator (fun _ => true) x00) b (Writeable.make x00 true) = None.
Proof.
  intros s b.
  refine (oversized_request_crashes (fun _ => 0) (fun _ _ => None) Some [] uint64_stream (U64 0) (fun _ x => x)
    (registerService ∅ [x66] s) _ [x66] 5 [x00] b _ _ _ _ _ _ _).
  - unfold registerService. apply lookup_insert_eq.
  - by compute.
  - lia.
  - simpl. lia.
  - by compute.
  - by compute.
Defined.
