(* ===== verification/Rpc.v ===== *)
(** * Rpc: the sockets of sasuke/rpc.{h,cc} - wrappers, client, worker threads,
    device and server

    zeromq is a parameter of the model: the wrappers and the client run against
    the results of its calls, given as lists, one result per call; the worker
    loop runs over any socket that keeps the documented contract of a REP
    socket, the class [RepSocket]. *)

From S2P Require Import Prelude ByteArray Compress Serializer Dispatch.

(** [Blocked]: the results are used up inside a loop; [Undefined]: the C++ has
    undefined behaviour or aborts. *)
Inductive io (A : Type) := Done (x : A) | Blocked | Undefined.
Arguments Done {A} x.
Arguments Blocked {A}.
Arguments Undefined {A}.
#[export] Instance io_bind : MBind io := fun A B f m =>
  match m with Done x => f x | Blocked => Blocked | Undefined => Undefined end.
Definition lift {A} (m : option A) : io A := match m with Some x => Done x | None => Undefined end.

(** What a call of zeromq returns: a result, or -1 with its errno. *)
Inductive zres (A : Type) := ZOk (x : A) | ZErr (errno : Z).
Arguments ZOk {A} x.
Arguments ZErr {A} errno.

Definition EINTR : Z := 4.
Definition interrupted {A} (r : zres A) : bool := match r with ZErr e => e =? EINTR | _ => false end.
Definition failed {A} (r : zres A) : bool := match r with ZErr _ => true | _ => false end.

(** ** Wrappers

    [goto again] on EINTR; the answer is [None] for -1, with the results that
    are left. *)
Fixpoint retry {A} (rs : list (zres A)) : io (option A * list (zres A)) :=
  match rs with
  | [] => Blocked
  | ZOk x :: rs => Done (Some x, rs)
  | ZErr e :: rs => if e =? EINTR then retry rs else Done (None, rs)
  end.

(** src/code/cc/sasuke/rpc.cc:87-97 [_zmq_recv] *)
Definition _zmq_recv : list (zres (list byte)) -> io (option (list byte) * list (zres (list byte))) := retry.

(** src/code/cc/sasuke/rpc.cc:99-109 [_zmq_send] *)
Definition _zmq_send : list (zres unit) -> io (option unit * list (zres unit)) := retry.

(** src/code/cc/sasuke/rpc.cc:124-134 [_zmq_getsockopt] *)
Definition _zmq_getsockopt : list (zres bool) -> io (option bool * list (zres bool)) := retry.

(** src/code/cc/sasuke/rpc.cc:111-122 [_zmq_poll]
    Any error is tried again. *)
Fixpoint _zmq_poll (rs : list (zres Z)) : io (Z * list (zres Z)) :=
  match rs with
  | [] => Blocked
  | ZOk n :: rs => Done (n, rs)
  | ZErr e :: rs => if e =? EINTR then _zmq_poll rs else _zmq_poll rs
  end.

(** A message: closed; a variable never initialised that looks like a message;
    or one that holds bytes, [ptr] when they are a malloc'ed block that the
    message frees. *)
Inductive zmsg := Invalid | Garbage | Holds (bs : list byte) (ptr : bool).

Definition zmq_msg_init : zmsg := Holds [] false.

(** The message and the number of blocks freed with it; closing a closed
    message is the documented error EFAULT and does nothing. *)
Definition zmq_msg_close (m : zmsg) : io (zmsg * Z) :=
  match m with
  | Invalid => Done (Invalid, 0)
  | Garbage => Undefined
  | Holds _ ptr => Done (Invalid, if ptr then 1 else 0)
  end.

(** src/code/cc/sasuke/rpc.cc:137-146 [_zmq_put_msg]
    [enough]: whether [zmq_msg_init_size] finds the memory. *)
Definition _zmq_put_msg (msg : zmsg) (enough : bool) (data : list byte) : io (bool * zmsg) :=
  '(msg, _) ← zmq_msg_close msg;
  if enough then Done (true, Holds data false) else Done (false, msg).

(** src/code/cc/sasuke/rpc.cc:148-159 [_zmq_put_msg_ptr_internal_free] *)
Definition _zmq_put_msg_ptr_internal_free (msg : zmsg) (data : list byte) : io zmsg :=
  '(msg, _) ← zmq_msg_close msg; Done (Holds data true).

(** ** Client *)
Module Client.

(** src/code/cc/sasuke/rpc.cc:322-339 [Client::recvInternalMessage]
    [None] for -1. *)
Definition recvInternalMessage (polls : list (zres Z)) (recvs : list (zres (list byte))) :
    io (option (list byte)) :=
  '(ret, _) ← _zmq_poll polls;
  if ret <? 0 then Done None
  else if ret =? 0 then Done None
  else '(m, _) ← _zmq_recv recvs; Done m.

(** src/code/cc/sasuke/rpc.cc:299-301 [Client::Message::Message] *)
Definition make_message : zmsg := zmq_msg_init.
(** src/code/cc/sasuke/rpc.cc:303-309 [Client::Message::~Message, free] *)
Definition free_message (m : zmsg) : io (zmsg * Z) := zmq_msg_close m.
(** src/code/cc/sasuke/rpc.cc:311-316 [Client::Message::data] *)
Definition message_data (m : zmsg) : option (list byte) :=
  match m with Holds bs _ => Some bs | _ => None end.

(** src/code/cc/sasuke/rpc.cc:318-320 [Client::recvMessage]
    The answer, and the message; one that is received releases the old one. *)
Definition recvMessage (m : zmsg) (polls : list (zres Z)) (recvs : list (zres (list byte))) :
    io (Z * zmsg) :=
  r ← recvInternalMessage polls recvs;
  match r with
  | None => Done (-1, m)
  | Some bs => Done (0, Holds bs false)
  end.

(** src/code/cc/sasuke/rpc.cc:282-295 [Client::sendPtrInternalFree]
    [msg] is what the uninitialised variable holds. The answer, what went out,
    and how often the block was freed here. *)
Definition sendPtrInternalFree (msg : zmsg) (data : list byte) (sends : list (zres unit)) :
    io (Z * option (list byte) * Z) :=
  msg ← _zmq_put_msg_ptr_internal_free msg data;
  '(r, _) ← _zmq_send sends;
  match r with
  | None => '(_, n) ← zmq_msg_close msg; Done (-1, None, n)
  | Some _ => Done (0, Some data, 0)
  end.

(** src/code/cc/sasuke/rpc.cc:341-357 [Client::send(ReadableByteArray)] *)
Definition send_bytes (bytes : Readable.t) (enough : bool) (sends : list (zres unit)) :
    io (Z * option (list byte)) :=
  let '(off, size) := Readable.remain bytes in
  data ← lift (peek (Readable.bytes_ bytes) off size);
  '(ok, msg) ← _zmq_put_msg zmq_msg_init enough data;
  if negb ok then '(_, _) ← zmq_msg_close msg; Done (-1, None) else
  '(r, _) ← _zmq_send sends;
  match r with
  | None => '(_, _) ← zmq_msg_close msg; Done (-1, None)
  | Some _ => Done (0, Some data)
  end.

(** src/code/cc/sasuke/rpc.cc:359-378 [Client::recv(WriteableByteArray)] *)
Definition recv_bytes (a : allocator) (bytes : Writeable.t) (polls : list (zres Z))
    (recvs : list (zres (list byte))) : io (Z * Writeable.t) :=
  m ← recvInternalMessage polls recvs;
  match m with
  | None => Done (-1, bytes)
  | Some data =>
      '(dst, bytes) ← lift (Writeable.allocate (enough a) (fill a) bytes (Z.of_nat (length data)));
      match dst with
      | None => Done (-1, bytes)
      | Some off => bytes ← lift (Writeable.store bytes off data); Done (0, bytes)
      end
  end.

(** src/code/cc/sasuke/rpc.cc:381-395 [Client::send(Request)] *)
Definition send {A} `{Stream A} (a : allocator) (msg : zmsg) (method : list byte) (request : A)
    (sends : list (zres unit)) : io (Z * option (list byte)) :=
  '(ok, send_bytes) ← lift (serialize_request a method request (Writeable.make (fill a) true));
  if negb (ok : bool) then Done (-1, None) else
  '(data, _) ← lift (Writeable.data send_bytes);
  '(r, sent, _) ← sendPtrInternalFree msg data sends;
  Done (if r <? 0 then -1 else 0, sent).

(** src/code/cc/sasuke/rpc.cc:397-416 [Client::recv(Response)]
    The answer and the response object. *)
Definition recv {A} `{Stream A} (response : A) (polls : list (zres Z)) (recvs : list (zres (list byte))) :
    io (Z * option A) :=
  m ← recvInternalMessage polls recvs;
  match m with
  | None => Done (-1, Some response)
  | Some data =>
      '(ok, response, _) ← lift (deserialize_response response
        (Readable.make data (Z.of_nat (length data))));
      if negb (ok : bool) then Done (-1, response) else Done (0, response)
  end.

(** src/code/cc/sasuke/rpc.cc:418-426 [Client::call]
    [reply] is what the network makes of the bytes that were sent. *)
Definition call {A B} `{Stream A} `{Stream B} (a : allocator) (msg : zmsg) (method : list byte) (request : A)
    (response : B) (sends : list (zres unit)) (polls : list (zres Z))
    (reply : list byte -> list (zres (list byte))) : io (Z * option B) :=
  '(r, sent) ← send a msg method request sends;
  if r <? 0 then Done (-1, Some response) else
  '(r, response) ← recv response polls (match sent with Some bs => reply bs | None => [] end);
  if r <? 0 then Done (-1, response) else Done (0, response).

(** src/code/cc/sasuke/rpc.h:86-134 [Client]
    The socket, the uri, and the sockets of the process that are open. *)
Record t := mk { zmq_main_socket_ : option nat; uri_ : list byte; opened : gset nat }.

(** src/code/cc/sasuke/rpc.cc:244-247 [Client::Client] *)
Definition make (o : gset nat) : t := mk None [] o.

(** src/code/cc/sasuke/rpc.cc:275-280 [Client::close] *)
Definition close (c : t) : t :=
  match zmq_main_socket_ c with
  | Some s => mk None (uri_ c) (opened c ∖ {[s]})
  | None => c
  end.

(** src/code/cc/sasuke/rpc.cc:253-268 [Client::connect]
    [socket]: the new socket, if there is one; [conn]: whether it connects. *)
Definition connect (uri : list byte) (socket : option nat) (conn : bool) (c : t) : Z * t :=
  match socket with
  | None => (-1, close (mk None uri (opened c)))
  | Some s =>
      let c := mk (Some s) uri ({[s]} ∪ opened c) in
      if conn then (0, c) else (-1, close c)
  end.

(** src/code/cc/sasuke/rpc.cc:270-273 [Client::reconnect] *)
Definition reconnect (socket : option nat) (conn : bool) (c : t) : Z * t :=
  let c := close c in connect (uri_ c) socket conn c.

End Client.

(** ** The documented contract of a REP socket

    Receiving and sending alternate: from a receive to the next send nothing can
    be received, whatever arrives meanwhile, and polling for input does not
    succeed. *)
Class RepSocket (S : Type) := {
  pollin : S -> bool;
  zrecv : S -> option (list byte * S);
  zsend : S -> list byte -> option S;
  network : S -> S -> Prop;
  awaiting : S -> Prop;
  rep_received s m s' : zrecv s = Some (m, s') -> awaiting s';
  rep_awaiting s : awaiting s -> pollin s = false;
  rep_network s s' : awaiting s -> network s s' -> awaiting s';
}.

(** ** Worker threads of the server *)
Module Worker.
Section worker.
Context {S : Type} `{RepSocket S}.
(** [CallBack::handle] over the bytes received: the answer and the reply. *)
Context (handle : list byte -> option (Z * list byte)).

(** A request that was received, with its reply if there was one. *)
Record served := mk_served { request : list byte; reply : option (list byte) }.

Inductive state := Running (receiver : S) | Stopped.

(** src/code/cc/sasuke/rpc.cc:540-587 [Server::rpc_thread_function (loop)]
    One round, [stop_] and the poll having been read. *)
Definition round (stop_ : bool) (receiver : S) : option (option served * state) :=
  if stop_ then Some (None, Stopped) else
  if negb (pollin receiver) then Some (None, Running receiver) else
  match zrecv receiver with
  | None => Some (None, Stopped)
  | Some (m, receiver) =>
      '(ret, data) ← handle m;
      if ret <? 0 then Some (Some (mk_served m None), Running receiver) else
      match zsend receiver data with
      | None => Some (Some (mk_served m None), Stopped)
      | Some receiver => Some (Some (mk_served m (Some data)), Running receiver)
      end
  end.

(** src/code/cc/sasuke/rpc.cc:519-595 [Server::rpc_thread_function]
    The rounds of the thread, and the network between them. *)
Inductive step : state -> option served -> state -> Prop :=
| w_round stop s l s' : round stop s = Some (l, s') -> step (Running s) l s'
| w_network s s' : network s s' -> step (Running s) None (Running s').

(** A socket that waits for a reply, or no socket any more, serves nothing. *)
Definition silent (w : state) : Prop := match w with Running s => awaiting s | Stopped => True end.

Lemma silent_step w l w' : silent w -> step w l w' -> silent w' /\ l = None.
Proof.
  intros Hw Hs. destruct Hs as [stop s l s' Hr|s s' Hn].
  - unfold round in Hr. destruct stop; [by simplify_eq|].
    rewrite (rep_awaiting s Hw) in Hr. simpl in Hr. by simplify_eq.
  - split; [|done]. by eapply rep_network.
Qed.

Lemma silent_steps w ls w' : silent w -> steps step w ls w' -> ls = [].
Proof.
  intros Hw Hs. induction Hs as [|s1 s2 s3 ls Hs _ IH|s1 l s2 s3 ls Hs _ _]; [done|..].
  - apply IH. by eapply silent_step.
  - by destruct (silent_step _ _ _ Hw Hs).
Qed.

Lemma served_step w l w' :
  step w (Some l) w' ->
  exists ret data, handle (request l) = Some (ret, data) /\
    ((0 <= ret /\ reply l = Some data) \/ (reply l = None /\ silent w')).
Proof.
  intros Hs. inversion Hs as [stop s l' s' Hr|]; subst. unfold round in Hr.
  destruct stop; [done|]. destruct (negb (pollin s)); [done|].
  destruct (zrecv s) as [[m s1]|] eqn:Hrecv; [|done].
  destruct (handle m) as [[ret data]|] eqn:Hh; [|done]. cbn [mbind option_bind] in Hr.
  destruct (ret <? 0) eqn:Hret; zbool; [|destruct (zsend s1 data) as [s2|]]; simplify_eq;
    exists ret, data; (split; [done|]); simpl; [right|by left|by right].
  split; [done|]. by eapply rep_received.
Qed.

(** C18: Every request a worker answers gets the handler's reply; the first one it
    does not answer - the handler failed, or the send did - is the last it
    receives: it stays in the loop without ever replying, for any number of
    rounds and whatever the network does. *)
Theorem worker_served s ls w ls1 x ls2 :
  steps step (Running s) ls w -> ls = ls1 ++ x :: ls2 ->
  exists ret data, handle (request x) = Some (ret, data) /\
    ((0 <= ret /\ reply x = Some data) \/ (reply x = None /\ ls2 = [])).
Proof.
  generalize (Running s) as w0. intros w0 Hs. revert ls1.
  induction Hs as [|s1 s2 s3 ls Hs _ IH|s1 l s2 s3 ls Hs Hr IH]; intros ls1 Hl; [by destruct ls1|by apply (IH ls1)|].
  destruct ls1 as [|y ls1]; [|simpl in Hl; simplify_eq; by apply (IH ls1)]. simpl in Hl. simplify_eq.
  destruct (served_step _ _ _ Hs) as (ret & data & Hh & [?|[Hn Hsil]]); exists ret, data; (split; [done|]); [by left|right].
  split; [done|]. by eapply silent_steps.
Qed.

End worker.

(** A REP socket: the requests that have arrived, and whether one is being
    served. *)
#[export, refine] Instance queue_socket : RepSocket (list (list byte) * bool) := {
  pollin s := negb s.2 && bool_decide (s.1 <> []);
  zrecv s := match s with (m :: q, false) => Some (m, (q, true)) | _ => None end;
  zsend s m := if s.2 then Some (s.1, false) else None;
  network s s' := exists m, s' = (s.1 ++ [m], s.2);
  awaiting s := s.2 = true;
}.
Proof.
  - intros [[|m q] []] m' s' H; by simplify_eq/=.
  - by intros [q b] ->.
  - intros s s' Hs (m & ->). done.
Defined.

Example worker_served_witness :
  let handle m := Some (if decide (m = [x62]) then (-1, []) else (0, m)) in
  exists ret data, handle [x62] = Some (ret, data) /\
    ((0 <= ret /\ reply (mk_served [x62] None) = Some data) \/
     (reply (mk_served [x62] None) = None /\ @nil served = [])).
Proof.
  intros handle.
  apply (worker_served handle ([[x61]; [x62]; [x63]], false) [mk_served [x61] (Some [x61]); mk_served [x62] None]
    (Running ([[x63]], true)) [mk_served [x61] (Some [x61])] (mk_served [x62] None) []); [|done].
  eapply steps_lab; [by apply (w_round handle false)|].
  eapply steps_lab; [by apply (w_round handle false)|]. apply steps_nil.
Defined.

End Worker.

(** The server's handler over bytes: a fresh reply buffer for every request. *)
Definition service_callback (d : dispatcher) (a : allocator) (m : list byte) : option (Z * list byte) :=
  '(ret, _, _, out_bytes) ← handle d a (Readable.make m (Z.of_nat (length m))) (Writeable.make (fill a) true);
  '(data, _) ← Writeable.data out_bytes;
  Some (ret, data).

(** ** The retry loops *)

(** [_zmq_recv], [_zmq_send] and [_zmq_getsockopt] return as soon as a call is
    not interrupted; [_zmq_poll] returns only when a call succeeds - an error
    that persists, such as that of a closed context, keeps it in its loop - so
    that the tests of its answer for a failure never hold. *)
Theorem retry_loops_end {A} (rs : list (zres A)) (ps : list (zres Z)) :
  (retry rs = Blocked <-> Forall (fun r => interrupted r = true) rs) /\
  (_zmq_poll ps = Blocked <-> Forall (fun r => failed r = true) ps) /\
  (forall n ps', Forall (fun r => match r with ZOk n => 0 <= n | _ => True end) ps ->
     _zmq_poll ps = Done (n, ps') -> 0 <= n) /\
  _zmq_poll ps <> Undefined.
Proof.
  split_and!.
  - induction rs as [|[x|e] rs IH]; simpl; [by split|rewrite Forall_cons; simpl; by split; [|intros []]|].
    rewrite Forall_cons. simpl. destruct (e =? EINTR); [rewrite IH; tauto|by split; [|intros []]].
  - induction ps as [|[x|e] ps IH]; simpl; [by split|rewrite Forall_cons; simpl; by split; [|intros []]|].
    rewrite Forall_cons. simpl. destruct (e =? EINTR); rewrite IH; tauto.
  - induction ps as [|[x|e] ps IH]; simpl; intros n ps' Hf H; [done|..]; apply Forall_cons in Hf as [Hx Hf].
    + by simplify_eq.
    + destruct (e =? EINTR); by eapply IH.
  - induction ps as [|[x|e] ps IH]; simpl; [done..|]. by destruct (e =? EINTR).
Qed.

(** ** A call over the sockets *)

(** A server that gets every request and whose replies all arrive: the receive
    results of the client that sent [bs]. *)
Definition answering (d : dispatcher) (a : allocator) (bs : list byte) : list (zres (list byte)) :=
  match service_callback d a bs with
  | Some (ret, data) => if ret <? 0 then [] else [ZErr EINTR; ZOk data]
  | None => []
  end.

(** C7: [Client::call] over working sockets returns 0 with the response the service
    made of the request, interrupted calls included; it does so when the message
    variable it closes without having initialised it happens to look closed, and
    has undefined behaviour otherwise. *)
Theorem client_call d a s (LQ : @StreamLaws (Req s) (Req_stream s)) (LR : @StreamLaws (Res s) (Res_stream s))
    method (q : Req s) (res0 : Res s) n k :
  let result := run s q (allocateResponse s) in
  let call msg := Client.call a msg method q res0 (replicate n (ZErr EINTR) ++ [ZOk tt])
    [ZErr EINTR; ZOk k] (answering d a) in
  d !! method = Some s -> valid method -> valid q -> valid result ->
  Z.of_nat (length (wire method)) + Z.of_nat (length (wire q)) <= 2 ^ 62 ->
  Z.of_nat (length (wire result)) <= 2 ^ 62 ->
  (forall n, n <= 2 ^ 63 -> enough a n = true) -> 0 < k ->
  call Invalid = Done (0, Some result) /\ call Garbage = Undefined.
Proof.
  intros result call Hd Hm Hq Hr Hl1 Hl2 He Hk.
  destruct (rpc_call_ok d a s LQ LR method q res0 Hd Hm Hq Hr Hl1 Hl2 He)
    as (w & log & b' & w' & b'' & Hw & Hw' & Ho & Hh & _ & Hi).
  assert (forall n, retry (replicate n (ZErr EINTR) ++ [ZOk tt]) = Done (Some tt, [])) as Hretry.
  { clear. induction n as [|n IH]; [done|]. exact IH. }
  unfold call, Client.call, Client.send. rewrite Ho. cbn [lift mbind io_bind negb].
  rewrite (Writeable.data_content w Hw). cbn [lift mbind io_bind].
  unfold Client.sendPtrInternalFree. split; [|done].
  cbn [_zmq_put_msg_ptr_internal_free zmq_msg_close mbind io_bind]. unfold _zmq_send. rewrite Hretry.
  cbn [mbind io_bind]. change (0 <? 0) with false. cbn iota. cbn [mbind io_bind].
  unfold answering, service_callback. fold (received w). rewrite Hh. cbn [mbind option_bind].
  rewrite (Writeable.data_content w' Hw'). cbn [mbind option_bind]. change (0 <? 0) with false. cbn iota.
  unfold Client.recv, Client.recvInternalMessage. cbn [_zmq_poll]. change (EINTR =? EINTR) with true. cbn iota.
  cbn [mbind io_bind]. zfalse (k <? 0). zfalse (k =? 0). unfold _zmq_recv. cbn [retry].
  change (EINTR =? EINTR) with true. cbn iota. cbn [mbind io_bind].
  fold (received w'). rewrite Hi. done.
Qed.

Example client_call_witness :
  let s := length_service in
  let a := mk_allocator (fun _ => true) x00 in
  let q : Req s := [x61; x62; x63] in
  let call msg := Client.call a msg [x66] q (allocateResponse s) (replicate 2 (ZErr EINTR) ++ [ZOk tt])
    [ZErr EINTR; ZOk 1] (answering (registerService ∅ [x66] s) a) in
  call Invalid = Done (0, Some (run s q (allocateResponse s))) /\ call Garbage = Undefined.
Proof.
  intros s a q call.
  apply (client_call (registerService ∅ [x66] s) a s string_laws uint64_laws [x66] q (allocateResponse s) 2 1).
  - unfold registerService. apply lookup_insert_eq.
  - by compute.
  - by compute.
  - by compute.
  - by compute.
  - by compute.
  - done.
  - lia.
Defined.

(** ** The device between the router and the workers *)
Module Device.

(** What a [recv] gives: the part, and what ZMQ_RCVMORE then says ([None]: the
    option cannot be read). *)
Definition part : Type := list byte * option bool.

(** src/code/cc/sasuke/rpc.cc:706-720 [device (forwarding)]
    One message from [rs] to the other side: whether it got through, the parts
    that were sent with their ZMQ_SNDMORE flag, and the results that are
    left. *)
Fixpoint forward (rs : list (zres part)) (ss : list (zres unit)) :
    io (bool * list (list byte * bool) * list (zres part) * list (zres unit)) :=
  match rs with
  | [] => Blocked
  | ZErr e :: rs => if e =? EINTR then forward rs ss else Done (false, [], rs, ss)
  | ZOk (msg, None) :: rs => Done (false, [], rs, ss)
  | ZOk (msg, Some more) :: rs =>
      '(r, ss) ← _zmq_send ss;
      match r with
      | None => Done (false, [], rs, ss)
      | Some _ =>
          if (more : bool) then
            '(ok, out, rs, ss) ← forward rs ss; Done (ok, (msg, true) :: out, rs, ss)
          else Done (true, [(msg, false)], rs, ss)
      end
  end.

(** One side of the device: the results of its receives and sends, and what was
    sent to it. *)
Record side := mk { recvs : list (zres part); sends : list (zres unit); sent : list (list byte * bool) }.

(** A message from one side to the other. *)
Definition transfer (from to : side) : io (bool * side * side) :=
  '(ok, out, rs, ss) ← forward (recvs from) (sends to);
  Done (ok, mk rs (sends from) (sent from), mk (recvs to) ss (sent to ++ out)).

(** The turn of one round: [stop], the number of sockets ready, and which. *)
Record turn := mk_turn { stop : bool; ret : Z; in_front : bool; in_end : bool }.

(** src/code/cc/sasuke/rpc.cc:677-742 [device]
    The loop over the turns that come; [Blocked] when they are used up. *)
Fixpoint device (ts : list turn) (front end_ : side) : io (side * side) :=
  match ts with
  | [] => Blocked
  | t :: ts =>
      if stop t then Done (front, end_) else
      if ret t <? 0 then Done (front, end_) else
      if ret t =? 0 then device ts front end_ else
      '(ok, front, end_) ← (if in_front t then transfer front end_ else Done (true, front, end_));
      if negb (ok : bool) then Done (front, end_) else
      '(ok, end_, front) ← (if in_end t then transfer end_ front else Done (true, end_, front));
      if negb (ok : bool) then Done (front, end_) else
      device ts front end_
  end.

(** A message of several parts: what comes before the last one, and the last. *)
Definition message : Type := list (list byte) * list byte.

(** Its parts with their flags. *)
Definition flagged (m : message) : list (list byte * bool) := map (fun p => (p, true)) m.1 ++ [(m.2, false)].
Definition wires (ms : list message) : list (list byte * bool) := concat (map flagged ms).

(** Receive results that are whole messages, interruptions anywhere. *)
Inductive arrives : list (zres part) -> list message -> Prop :=
| ar_nil : arrives [] []
| ar_again rs ms : arrives rs ms -> arrives (ZErr EINTR :: rs) ms
| ar_part p rs m last ms :
    arrives rs ((m, last) :: ms) -> arrives (ZOk (p, Some true) :: rs) ((p :: m, last) :: ms)
| ar_last p rs ms : arrives rs ms -> arrives (ZOk (p, Some false) :: rs) (([], p) :: ms).

(** Send results without a failure. *)
Definition sending (ss : list (zres unit)) : Prop := Forall (fun r => failed r = true -> interrupted r = true) ss.

Lemma send_ok ss r ss' : sending ss -> _zmq_send ss = Done (r, ss') -> r = Some tt /\ sending ss'.
Proof.
  unfold _zmq_send. induction 1 as [|x ss Hx Hss IH]; intros H; [done|]. destruct x as [[]|e]; simpl in H.
  - by simplify_eq.
  - destruct (e =? EINTR) eqn:He; [by apply IH|]. simpl in Hx. rewrite He in Hx. by specialize (Hx eq_refl).
Qed.

(** One turn of a side forwards exactly the next message. *)
Lemma forward_message rs ms ss ok out rs' ss' :
  arrives rs ms -> sending ss -> forward rs ss = Done (ok, out, rs', ss') ->
  exists m ms', ms = m :: ms' /\ ok = true /\ out = flagged m /\ arrives rs' ms' /\ sending ss'.
Proof.
  intros Ha. revert ss ok out rs' ss'.
  induction Ha as [|rs ms _ IH|p rs m last ms _ IH|p rs ms Ha _]; intros ss ok out rs' ss' Hs H; simpl in H; [done|by eapply IH|..];
    (destruct (_zmq_send ss) as [[r ss1]| |] eqn:Es; [|done|done]);
    apply send_ok in Es as [-> Hs1]; [|done| |done].
  - simpl in H. destruct (forward rs ss1) as [[[[ok1 out1] rs1] ss2]| |] eqn:Ef; [|done|done]. simpl in H. simplify_eq.
    destruct (IH _ _ _ _ _ Hs1 Ef) as (m' & ms' & Hm & -> & -> & Hr & Hs2). simplify_eq.
    by exists (p :: m, last), ms'.
  - simpl in H. simplify_eq. by exists ([], p), ms.
Qed.

(** What a side still has to give, and what it was sent. *)
Definition carries (s : side) (ms : list message) : Prop := arrives (recvs s) ms /\ sending (sends s).

Lemma transfer_message from to ms ms' ok from' to' :
  carries from ms -> carries to ms' -> transfer from to = Done (ok, from', to') ->
  exists m ms1, ms = m :: ms1 /\ ok = true /\ carries from' ms1 /\ carries to' ms' /\
    sent from' = sent from /\ sent to' = sent to ++ flagged m.
Proof.
  intros [Ha Hs] [Ha' Hs'] H. unfold transfer in H.
  destruct (forward _ _) as [[[[ok1 out] rs] ss]| |] eqn:Ef; [|done|done]. simpl in H. simplify_eq.
  destruct (forward_message _ _ _ _ _ _ _ Ha Hs' Ef) as (m & ms1 & -> & -> & -> & ? & ?).
  by exists m, ms1.
Qed.

Lemma wires_snoc ms m : wires (ms ++ [m]) = wires ms ++ flagged m.
Proof. unfold wires. rewrite map_app, concat_app. simpl. by rewrite app_nil_r. Qed.

(** While no call fails, every turn hands on whole messages. *)
Lemma device_messages ts front end_ fms ems front' end' :
  carries front fms -> carries end_ ems -> device ts front end_ = Done (front', end') ->
  exists fd fr ed er, fms = fd ++ fr /\ ems = ed ++ er /\
    sent end' = sent end_ ++ wires fd /\ sent front' = sent front ++ wires ed /\
    carries front' fr /\ carries end' er.
Proof.
  revert front end_ fms ems. induction ts as [|t ts IH]; intros front end_ fms ems Hf He H; [done|].
  cbn [device] in H.
  assert (forall f' e', f' = front -> e' = end_ -> exists fd fr ed er, fms = fd ++ fr /\ ems = ed ++ er /\
    sent e' = sent end_ ++ wires fd /\ sent f' = sent front ++ wires ed /\ carries f' fr /\ carries e' er) as H0.
  { intros f' e' -> ->. exists [], fms, [], ems. unfold wires. simpl. by rewrite !app_nil_r. }
  destruct (stop t); [simplify_eq; by apply H0|]. destruct (ret t <? 0); [simplify_eq; by apply H0|].
  destruct (ret t =? 0); [by apply IH|]. clear H0.
  destruct (if in_front t then _ else _) as [[[ok f1] e1]| |] eqn:E1; [|done|done].
  assert (exists fd fr, fms = fd ++ fr /\ ok = true /\ carries f1 fr /\ carries e1 ems /\
    sent f1 = sent front /\ sent e1 = sent end_ ++ wires fd) as (fd & fr & -> & -> & Hf1 & He1 & Hsf & Hse).
  { destruct (in_front t).
    - destruct (transfer_message _ _ _ _ _ _ _ Hf He E1) as (m & ms1 & -> & -> & ? & ? & ? & Hs).
      exists [m], ms1. unfold wires. simpl. by rewrite app_nil_r.
    - simplify_eq. exists [], fms. unfold wires. simpl. by rewrite app_nil_r. }
  cbn [mbind io_bind negb] in H.
  destruct (if in_end t then _ else _) as [[[ok e2] f2]| |] eqn:E2; [|done|done].
  assert (exists ed er, ems = ed ++ er /\ ok = true /\ carries e2 er /\ carries f2 fr /\
    sent e2 = sent e1 /\ sent f2 = sent f1 ++ wires ed) as (ed & er & -> & -> & He2 & Hf2 & Hse2 & Hsf2).
  { destruct (in_end t).
    - destruct (transfer_message _ _ _ _ _ _ _ He1 Hf1 E2) as (m & ms1 & -> & -> & ? & ? & ? & Hs).
      exists [m], ms1. unfold wires. simpl. by rewrite app_nil_r.
    - simplify_eq. exists [], ems. unfold wires. simpl. by rewrite app_nil_r. }
  cbn [mbind io_bind negb] in H.
  destruct (IH _ _ _ _ Hf2 He2 H) as (fd' & fr' & ed' & er' & -> & -> & Hs1 & Hs2 & ? & ?).
  exists (fd ++ fd'), fr', (ed ++ ed'), er'. unfold wires in *. rewrite !map_app, !concat_app, !(assoc_L (++)).
  rewrite <- !(assoc_L (++)), Hs1, Hs2, Hse2, Hsf2, Hse, Hsf, <- !(assoc_L (++)). done.
Qed.

(** Whatever the calls answer: the parts that were received, with what
    ZMQ_RCVMORE said of them; and the parts of [out] as they were received. *)
Definition parts (rs : list (zres part)) : list part :=
  omap (fun r => match r with ZOk p => Some p | ZErr _ => None end) rs.
Definition handed (out : list (list byte * bool)) : list part := map (fun '(p, more) => (p, Some more)) out.

Lemma parts_app rs rs' : parts (rs ++ rs') = parts rs ++ parts rs'.
Proof. apply omap_app. Qed.
Lemma handed_app out out' : handed (out ++ out') = handed out ++ handed out'.
Proof. apply map_app. Qed.

Lemma forward_parts rs ss ok out rs' ss' :
  forward rs ss = Done (ok, out, rs', ss') ->
  exists used lost, rs = used ++ rs' /\ parts used = handed out ++ lost /\
    (length lost <= if ok then 0 else 1)%nat.
Proof.
  revert ss ok out. induction rs as [|[[msg [more|]]|e] rs IH]; intros ss ok out H; simpl in H; [done|..].
  - destruct (_zmq_send ss) as [[[[]|] ss1]| |]; simpl in H; try done.
    2:{ simplify_eq. by exists [ZOk (msg, Some more)], [(msg, Some more)]. }
    destruct more; [|by simplify_eq; exists [ZOk (msg, Some false)], []].
    destruct (forward rs ss1) as [[[[ok1 out1] rs1] ss2]| |] eqn:Ef; simpl in H; simplify_eq.
    destruct (IH _ _ _ Ef) as (used & lost & -> & Hp & Hl).
    exists (ZOk (msg, Some true) :: used), lost. split; [done|]. split; [|done].
    transitivity ((msg, Some true) :: parts used); [done|]. by rewrite Hp.
  - simplify_eq. by exists [ZOk (msg, None)], [(msg, None)].
  - destruct (e =? EINTR); [|simplify_eq; exists [ZErr e], []; split; [done|split; [done|simpl; lia]]].
    destruct (IH _ _ _ H) as (used & lost & -> & Hp & Hl). by exists (ZErr e :: used), lost.
Qed.

(** What [from] took, [to] was sent: all but [lost]. *)
Definition moved (from from' to to' : side) (lost : list part) : Prop :=
  exists used out, recvs from = used ++ recvs from' /\ sent to' = sent to ++ out /\
    parts used = handed out ++ lost.

Lemma moved_refl from to : moved from from to to [].
Proof. exists [], []. by rewrite app_nil_r. Qed.

Lemma moved_trans f1 f2 f3 t1 t2 t3 lost : moved f1 f2 t1 t2 [] -> moved f2 f3 t2 t3 lost -> moved f1 f3 t1 t3 lost.
Proof.
  intros (u1 & o1 & Hr1 & Hs1 & Hp1) (u2 & o2 & Hr2 & Hs2 & Hp2). exists (u1 ++ u2), (o1 ++ o2).
  rewrite parts_app, handed_app, Hr1, Hr2, Hs2, Hs1, Hp1, Hp2, app_nil_r, !(assoc_L (++)). done.
Qed.

Lemma transfer_moved from to ok from' to' :
  transfer from to = Done (ok, from', to') ->
  exists lost, moved from from' to to' lost /\ moved to to' from from' [] /\
    (length lost <= if ok then 0 else 1)%nat.
Proof.
  unfold transfer. destruct (forward _ _) as [[[[ok1 out] rs] ss]| |] eqn:Ef; intros H; [|done|done].
  simpl in H. simplify_eq. destruct (forward_parts _ _ _ _ _ _ Ef) as (used & lost & Hr & Hp & Hl).
  exists lost. split; [by exists used, out|]. split; [|done]. exists [], []. simpl. by rewrite app_nil_r.
Qed.

(** One direction of a round. *)
Lemma turn_moved (b : bool) from to ok from' to' :
  (if b then transfer from to else Done (true, from, to)) = Done (ok, from', to') ->
  exists lost, moved from from' to to' lost /\ moved to to' from from' [] /\
    (length lost <= if ok then 0 else 1)%nat.
Proof.
  destruct b; [apply transfer_moved|]. intros H. simplify_eq. exists [].
  split; [apply moved_refl|]. split; [apply moved_refl|simpl; lia].
Qed.

(** C17: Over any results of its calls, failures included, the device hands on the
    parts it received in order and each with the flag ZMQ_RCVMORE gave, in both
    directions; when a call fails it ends, and at most one part it has received,
    the last, is lost. While no call fails and whole messages arrive, it hands
    on whole messages: when it stops, each side was sent a prefix of the
    messages the other side received, and nothing of the rest was taken. *)
Theorem device_forwards ts front end_ front' end' :
  device ts front end_ = Done (front', end') ->
  (exists lf le, moved front front' end_ end' lf /\ moved end_ end' front front' le /\
     (length lf + length le <= 1)%nat) /\
  (forall fms ems, carries front fms -> carries end_ ems ->
   exists fd fr ed er, fms = fd ++ fr /\ ems = ed ++ er /\
     sent end' = sent end_ ++ wires fd /\ sent front' = sent front ++ wires ed /\
     carries front' fr /\ carries end' er).
Proof.
  intros H. split; [|intros fms ems Hf He; by eapply device_messages].
  revert front end_ H. induction ts as [|t ts IH]; intros front end_ H; [done|].
  cbn [device] in H.
  assert (forall f' e', f' = front -> e' = end_ -> exists lf le, moved front f' end_ e' lf /\
    moved end_ e' front f' le /\ (length lf + length le <= 1)%nat) as H0.
  { intros f' e' -> ->. exists [], []. split; [apply moved_refl|]. split; [apply moved_refl|simpl; lia]. }
  destruct (stop t); [simplify_eq; by apply H0|]. destruct (ret t <? 0); [simplify_eq; by apply H0|].
  destruct (ret t =? 0); [by apply IH|]. clear H0.
  destruct (if in_front t then _ else _) as [[[ok f1] e1]| |] eqn:E1; [|done|done].
  apply turn_moved in E1 as (l1 & Ha1 & Hb1 & Hl1). cbn [mbind io_bind] in H.
  destruct ok; cbn [negb] in H; [|simplify_eq; exists l1, []; simpl; split_and!; [done..|lia]].
  destruct (if in_end t then _ else _) as [[[ok e2] f2]| |] eqn:E2; [|done|done].
  apply turn_moved in E2 as (l2 & Ha2 & Hb2 & Hl2). cbn [mbind io_bind] in H.
  assert (l1 = []) as -> by (destruct l1; [done|simpl in Hl1; lia]).
  pose proof (moved_trans _ _ _ _ _ _ _ Ha1 Hb2) as Hf. pose proof (moved_trans _ _ _ _ _ _ _ Hb1 Ha2) as He.
  destruct ok; cbn [negb] in H; [|simplify_eq; exists [], l2; simpl; split_and!; [done..|lia]].
  assert (l2 = []) as -> by (destruct l2; [done|simpl in Hl2; lia]).
  destruct (IH _ _ H) as (lf & le & Hf' & He' & Hl). exists lf, le.
  split; [by eapply moved_trans|]. split; [by eapply moved_trans|done].
Qed.

(** A failing send ends the second message: its first part is lost. *)
Example device_forwards_witness :
  let front := mk [ZOk ([x01], Some true); ZErr EINTR; ZOk ([x02], Some false); ZOk ([x04], Some true)]
    [ZOk tt] [] in
  let end_ := mk [ZOk ([x03], Some false)] [ZErr EINTR; ZOk tt; ZOk tt; ZErr 156] [] in
  let front' := mk [] [] [([x03], false)] in
  let end' := mk [] [] [([x01], true); ([x02], false)] in
  (exists lf le, moved front front' end_ end' lf /\ moved end_ end' front front' le /\
     (length lf + length le <= 1)%nat) /\
  (forall fms ems, carries front fms -> carries end_ ems ->
   exists fd fr ed er, fms = fd ++ fr /\ ems = ed ++ er /\
     sent end' = sent end_ ++ wires fd /\ sent front' = sent front ++ wires ed /\
     carries front' fr /\ carries end' er).
Proof.
  intros front end_ front' end'.
  apply (device_forwards [mk_turn false 2 true true; mk_turn false 0 false false; mk_turn false 1 true false]).
  reflexivity.
Defined.

(** Two whole messages, one each way. *)
Example device_messages_run :
  let front := mk [ZOk ([x01], Some true); ZErr EINTR; ZOk ([x02], Some false)] [ZOk tt] [] in
  let end_ := mk [ZOk ([x03], Some false)] [ZErr EINTR; ZOk tt; ZOk tt] [] in
  carries front [([[x01]], [x02])] /\ carries end_ [([], [x03])] /\
  device [mk_turn false 2 true true; mk_turn true 0 false false] front end_ =
    Done (mk [] [] [([x03], false)], mk [] [] [([x01], true); ([x02], false)]).
Proof. split; [split; repeat constructor; done|]. split; [split; repeat constructor; done|done]. Qed.

End Device.

(** ** Ownership of the client's socket *)
Module ClientProps.
Import Client.

(** The calls of a program on its client; [socket]: a fresh one, or none. *)
Inductive op := Connect (uri : list byte) (socket : option nat) (conn : bool)
  | Reconnect (socket : option nat) (conn : bool) | Close.

Definition run_op (o : op) (c : t) : t :=
  match o with
  | Connect uri s conn => (connect uri s conn c).2
  | Reconnect s conn => (reconnect s conn c).2
  | Close => close c
  end.

Definition socket_of (o : op) : option nat := match o with Connect _ s _ | Reconnect s _ => s | Close => None end.

(** The client has its socket open, and the rest of the process the sockets
    [base]. *)
Definition owns (base : gset nat) (c : t) : Prop :=
  match zmq_main_socket_ c with
  | None => opened c = base
  | Some s => s ∉ base /\ opened c = {[s]} ∪ base
  end.

Lemma close_owns base c : owns base c -> owns base (close c) /\ zmq_main_socket_ (close c) = None.
Proof.
  unfold owns, close. destruct (zmq_main_socket_ c) as [s|] eqn:E; simpl; [|by rewrite E].
  intros [Hs ->]. split; [set_solver|done].
Qed.

Lemma connect_owns base uri s conn c :
  zmq_main_socket_ c = None -> owns base c -> (forall x, s = Some x -> x ∉ base) ->
  owns base (connect uri s conn c).2 /\
  ((connect uri s conn c).1 = 0 <-> is_Some (zmq_main_socket_ (connect uri s conn c).2)).
Proof.
  unfold owns, connect. intros -> Hc Hs. destruct s as [x|]; simpl; [|split; [done|split; [done|by intros []]]].
  specialize (Hs x eq_refl). destruct conn; simpl.
  - rewrite Hc. split; [done|]. by split.
  - split; [set_solver|]. split; [done|by intros []].
Qed.

(** C20: A program that uses [reconnect], or [connect] only when it is not
    connected, never has more than the one socket the client refers to, and none
    after a failure; every other [connect] leaves the socket it had open with
    nothing that refers to it. *)
Theorem client_sockets base os c :
  owns base c -> Forall (fun o => forall x, socket_of o = Some x -> x ∉ base) os ->
  (forall os1 uri s conn os2, os = os1 ++ Connect uri s conn :: os2 ->
     zmq_main_socket_ (foldl (flip run_op) c os1) = None) ->
  owns base (foldl (flip run_op) c os) /\
  (forall old uri x conn, zmq_main_socket_ (foldl (flip run_op) c os) = Some old -> x <> old ->
     old ∈ opened (run_op (Connect uri (Some x) conn) (foldl (flip run_op) c os)) /\
     zmq_main_socket_ (run_op (Connect uri (Some x) conn) (foldl (flip run_op) c os)) <> Some old).
Proof.
  intros Hc Hf Ho. assert (owns base (foldl (flip run_op) c os)) as Hown.
  { revert c Hc Ho. induction Hf as [|o os Hs _ IH]; intros c Hc Ho; [done|]. cbn [foldl]. apply IH.
    - unfold flip. destruct o as [uri s conn|s conn|]; cbn [run_op socket_of] in *.
      + apply connect_owns; [|done|done]. by apply (Ho [] uri s conn os).
      + unfold reconnect. destruct (close_owns _ _ Hc). by apply connect_owns.
      + by apply close_owns.
    - intros os1 uri s conn os2 Heq. apply (Ho (o :: os1) uri s conn os2). simpl. by rewrite Heq. }
  split; [done|]. intros old uri x conn Hold Hx. unfold owns in Hown. rewrite Hold in Hown.
  destruct Hown as [_ Hop]. simpl. destruct conn; simpl; rewrite Hop; split; (set_solver || congruence || done).
Qed.

Example client_sockets_witness :
  let os := [Connect [x61] (Some 3%nat) true; Reconnect (Some 4%nat) true] in
  let c := foldl (flip run_op) (make {[1%nat]}) os in
  owns {[1%nat]} c /\
  (forall old uri x conn, zmq_main_socket_ c = Some old -> x <> old ->
     old ∈ opened (run_op (Connect uri (Some x) conn) c) /\
     zmq_main_socket_ (run_op (Connect uri (Some x) conn) c) <> Some old).
Proof.
  intros os c. apply (client_sockets {[1%nat]} os (make {[1%nat]})).
  - done.
  - repeat constructor; intros x [= <-]; set_solver.
  - intros [|o1 [|o2 [|o3 os1]]] uri s conn os2 [=]; done.
Defined.
End ClientProps.

(** ** Context *)
Module Context.

(** src/code/cc/sasuke/rpc.h:22-37 [Context]
    The singleton's io threads if there is one, its connection number, and
    whether the SIGPIPE handler is installed. *)
Record t := mk { instance_ : option Z; connection_number_ : Z; sigpipe : bool }.

Definition kDefaultIOThreads : Z := 4.

(** src/code/cc/sasuke/rpc.cc:32-40 [Context::init] *)
Definition init (io_threads : Z) (c : t) : t :=
  match instance_ c with None => mk (Some io_threads) 0 true | Some _ => c end.

(** src/code/cc/sasuke/rpc.cc:42-47 [Context::instance] *)
Definition instance (c : t) : t :=
  match instance_ c with None => mk (Some kDefaultIOThreads) 0 (sigpipe c) | Some _ => c end.

(** src/code/cc/sasuke/rpc.cc:68-70 [Context::increaseConnectionNumber]
    [AtomicInc] of a [uint32_t]. *)
Definition increaseConnectionNumber (c : t) : Z * t :=
  let n := u32 (connection_number_ c + 1) in (n, mk (instance_ c) n (sigpipe c)).

(** src/code/cc/sasuke/rpc.cc:57-66 [Context::~Context]
    For the results of zmq_term, -1 with [errno] for a failure: how often it was
    called, and whether a warning was printed. *)
Fixpoint destroy (rets : list Z) : io (Z * bool) :=
  match rets with
  | [] => Blocked
  | ret :: rets =>
      if ret <? 0 then
        if ret =? EINTR then '(n, warned) ← destroy rets; Done (n + 1, warned)
        else Done (1, true)
      else Done (1, false)
  end.

(** The result is compared with EINTR where the errno was meant: a call that was
    interrupted is not repeated, and the context stays. *)
Lemma destroy_once ret rets : ret = 0 \/ ret = -1 -> destroy (ret :: rets) = Done (1, ret =? -1).
Proof. by intros [-> | ->]. Qed.

(** An [init] that comes after the first use does nothing: neither the number of
    threads nor the handler is what was asked for. *)
Lemma init_late n c : init n (instance c) = instance c.
Proof. unfold init, instance. by destruct (instance_ c) eqn:E; rewrite ?E. Qed.

End Context.

(** ** Server *)
Module Server.

(** src/code/cc/sasuke/rpc.h:160-186 [Server]
    [callback_threads_] is uninitialised before the first [run]; [joinable]
    counts the threads that run and were not joined, the device included. *)
Record t := mk {
  main : option nat; back : option nat; uri_ : list byte; inproc_uri_ : Z;
  callback_threads_ : option Z; joinable : Z; stop_ : bool; opened : gset nat; ctx : Context.t;
}.

(** src/code/cc/sasuke/rpc.cc:430-436 [Server::Server] *)
Definition make (o : gset nat) (c : Context.t) : t := mk None None [] 0 None 0 true o c.

(** src/code/cc/sasuke/rpc.cc:442-451 [Server::close] *)
Definition close (s : t) : t :=
  let o1 := match main s with Some x => opened s ∖ {[x]} | None => opened s end in
  let o2 := match back s with Some x => o1 ∖ {[x]} | None => o1 end in
  mk None None (uri_ s) (inproc_uri_ s) (callback_threads_ s) (joinable s) (stop_ s) o2 (ctx s).

Definition set_main (x : nat) (s : t) : t :=
  mk (Some x) (back s) (uri_ s) (inproc_uri_ s) (callback_threads_ s) (joinable s) (stop_ s) ({[x]} ∪ opened s)
    (Context.instance (ctx s)).
Definition set_back (x : nat) (s : t) : t :=
  mk (main s) (Some x) (uri_ s) (inproc_uri_ s) (callback_threads_ s) (joinable s) (stop_ s) ({[x]} ∪ opened s)
    (Context.instance (ctx s)).

(** What the calls of one [run] return: the sockets, and whether they bind. *)
Record calls := mk_calls { socket1 : option nat; bind1 : bool; socket2 : option nat; bind2 : bool }.

(** src/code/cc/sasuke/rpc.cc:607-663 [Server::run]
    Creating a thread does not fail; [None] is SPERM_FATAL. A socket that cannot
    be made is the null pointer. *)
Definition run (uri : list byte) (callback_threads : Z) (k : calls) (s : t) : option (Z * t) :=
  if negb (stop_ s) then Some (-1, s) else
  if callback_threads <=? 0 then None else
  let s := mk (main s) (back s) uri (inproc_uri_ s) (Some callback_threads) (joinable s) (stop_ s) (opened s) (ctx s) in
  match socket1 k with
  | None => Some (-1, close (mk None (back s) (uri_ s) (inproc_uri_ s) (callback_threads_ s) (joinable s) (stop_ s)
                               (opened s) (Context.instance (ctx s))))
  | Some x =>
      let s := set_main x s in
      if negb (bind1 k) then Some (-1, close s) else
      match socket2 k with
      | None => Some (-1, close (mk (main s) None (uri_ s) (inproc_uri_ s) (callback_threads_ s) (joinable s) (stop_ s)
                                   (opened s) (ctx s)))
      | Some y =>
          let s := set_back y s in
          let '(n, c) := Context.increaseConnectionNumber (ctx s) in
          let s := mk (main s) (back s) (uri_ s) n (callback_threads_ s) (joinable s) (stop_ s) (opened s) c in
          if negb (bind2 k) then Some (-1, close s) else
          Some (0, mk (main s) (back s) (uri_ s) n (callback_threads_ s) (callback_threads + 1) false (opened s) c)
      end
  end.

(** src/code/cc/sasuke/rpc.cc:665-675 [Server::stop]
    [None]: the number of threads is not initialised, or a thread is joined that
    does not run. *)
Definition stop (s : t) : option t :=
  n ← callback_threads_ s;
  if joinable s =? n + 1 then
    Some (mk (main s) (back s) (uri_ s) (inproc_uri_ s) (Some n) 0 true (opened s) (ctx s))
  else None.

(** A server that does not run: no thread, and no socket unless it was stopped
    without being closed. *)
Definition idle (base : gset nat) (s : t) : Prop :=
  stop_ s = true /\ joinable s = 0 /\ main s = None /\ back s = None /\ opened s = base.
Definition serving (base : gset nat) (s : t) : Prop :=
  exists x y n, stop_ s = false /\ callback_threads_ s = Some n /\ joinable s = n + 1 /\
    main s = Some x /\ back s = Some y /\ x <> y /\ x ∉ base /\ y ∉ base /\ opened s = {[x; y]} ∪ base.

Definition fresh (base : gset nat) (k : calls) : Prop :=
  (forall x, socket1 k = Some x -> x ∉ base) /\ (forall y, socket2 k = Some y -> y ∉ base) /\
  (socket1 k = socket2 k -> socket1 k = None).

Lemma run_idle base uri n k s r s' :
  idle base s -> fresh base k -> run uri n k s = Some (r, s') ->
  (r = -1 /\ idle base s') \/ (r = 0 /\ serving base s').
Proof.
  intros (Hst & Hj & Hm & Hb & <-) (H1 & H2 & H3) H. unfold run in H. rewrite Hst in H. cbn [negb] in H.
  destruct (n <=? 0); [done|]. destruct k as [x b1 y b2]. cbn [socket1 bind1 socket2 bind2] in *.
  destruct x as [x|]; [|simplify_eq; left; unfold idle, close; simpl; by rewrite Hb].
  specialize (H1 x eq_refl).
  destruct b1; cbn [negb] in H; [|simplify_eq; left; unfold idle, close; simpl; rewrite ?Hb; split_and!; try done; set_solver].
  destruct y as [y|]; [|simplify_eq; left; unfold idle, close; simpl; split_and!; try done; set_solver].
  specialize (H2 y eq_refl). assert (x <> y) by (intros ->; by specialize (H3 eq_refl)).
  destruct b2; cbn [negb] in H; simpl in H; simplify_eq; [right|left].
  - split; [done|]. exists x, y, n. simpl. split_and!; try done. set_solver.
  - split; [done|]. unfold idle, close. simpl. split_and!; try done. set_solver.
Qed.

(** C19: A [run] that fails leaves the server as it was, with no socket of its own;
    one that succeeds can be stopped, and a second [run] meanwhile is refused.
    After [stop] the sockets are still open until [close], which gives exactly
    them back; a [run] without it leaves both open with nothing that refers to
    them. *)
Theorem server_lifecycle base uri n k s r s' :
  idle base s -> fresh base k -> run uri n k s = Some (r, s') ->
  (r = -1 /\ idle base s') \/
  (r = 0 /\ serving base s' /\ (forall uri2 n2 k2, run uri2 n2 k2 s' = Some (-1, s')) /\
   exists s2, stop s' = Some s2 /\ idle base (close s2) /\ stop s2 = None /\
     (forall uri2 n2 k2 r2 s3, fresh (opened s2) k2 -> run uri2 n2 k2 s2 = Some (r2, s3) -> r2 = 0 ->
        opened s2 ⊆ opened s3 /\ exists x y, main s' = Some x /\ back s' = Some y /\
          main s3 <> Some x /\ back s3 <> Some x /\ main s3 <> Some y /\ back s3 <> Some y)).
Proof.
  intros Hi Hf H. destruct (run_idle _ _ _ _ _ _ _ Hi Hf H) as [?|[-> Hs]]; [by left|right].
  split; [done|]. split; [done|]. destruct Hs as (x & y & m & Hst & Hct & Hj & Hm & Hb & Hxy & Hx & Hy & Ho).
  split; [intros; unfold run; by rewrite Hst|].
  assert (0 < m) as Hm0.
  { unfold run in H. destruct Hi as (Hst0 & _). rewrite Hst0 in H. cbn [negb] in H. destruct (n <=? 0) eqn:En; [done|].
    zbool. destruct (socket1 k); [|done]. destruct (bind1 k); [|done]. cbn [negb] in H. destruct (socket2 k); [|done].
    destruct (bind2 k); simpl in H; simplify_eq. simpl in Hct. by simplify_eq. }
  eexists. split; [unfold stop; rewrite Hct; simpl; by ztrue (joinable s' =? m + 1)|].
  split; [|split].
  - unfold idle, close. simpl. rewrite Hm, Hb, Ho. split_and!; try done. set_solver.
  - unfold stop. cbn [callback_threads_ joinable mbind option_bind]. by zfalse (0 =? m + 1).
  - simpl. intros uri2 n2 k2 r2 s3 (Hf1 & Hf2 & _) H2 ->. unfold run in H2. cbn [stop_ negb] in H2.
    destruct (n2 <=? 0); [done|]. destruct (socket1 k2) as [x2|]; [|by simplify_eq].
    destruct (bind1 k2); cbn [negb] in H2; [|by simplify_eq]. destruct (socket2 k2) as [y2|]; [|by simplify_eq].
    destruct (bind2 k2); simpl in H2; simplify_eq. simpl. rewrite Ho in *.
    specialize (Hf1 x2 eq_refl). specialize (Hf2 y2 eq_refl).
    split; [set_solver|]. exists x, y. split_and!; try done; intros [= ->]; set_solver.
Qed.

Example server_lifecycle_witness :
  let s := make {[1%nat]} (Context.mk None 0 false) in
  let s' := mk (Some 2%nat) (Some 3%nat) [x75] 1 (Some 4) 5 false ({[3%nat]} ∪ ({[2%nat]} ∪ {[1%nat]})) (Context.mk (Some 4) 1 false) in
  (0 = -1 /\ idle {[1%nat]} s') \/
  (0 = 0 /\ serving {[1%nat]} s' /\ (forall uri2 n2 k2, run uri2 n2 k2 s' = Some (-1, s')) /\
   exists s2, stop s' = Some s2 /\ idle {[1%nat]} (close s2) /\ stop s2 = None /\
     (forall uri2 n2 k2 r2 s3, fresh (opened s2) k2 -> run uri2 n2 k2 s2 = Some (r2, s3) -> r2 = 0 ->
        opened s2 ⊆ opened s3 /\ exists x y, main s' = Some x /\ back s' = Some y /\
          main s3 <> Some x /\ back s3 <> Some x /\ main s3 <> Some y /\ back s3 <> Some y)).
Proof.
  intros s s'. apply (server_lifecycle {[1%nat]} [x75] 4 (mk_calls (Some 2%nat) true (Some 3%nat) true) s 0 s').
  - done.
  - unfold fresh. simpl. split_and!; [intros x [= <-]; set_solver|intros y [= <-]; set_solver|done].
  - reflexivity.
Defined.

End Server.
