(* ===== verification/Loops.v ===== *)
(** * Loops: what the exercises of src/code/leetcode share

    The counted [for] statement over a state, in the option monad of the
    prelude, with its invariant rule; the integer intervals it runs over; and
    the facts on sorted lists the exercises need. Indices into a vector or a
    string stay exact integers: they are between -1 and a length that an [int]
    holds. Sums and products of the data are checked ([chk32]). *)

From S2P Require Import Prelude.
From stdpp Require Export sorting.

#[global] Open Scope Z_scope.

(** ** [for (int i = a; i <= b; i++) s = body(i, s)] and its count-down twin *)

Fixpoint for_ {S} (ks : list Z) (body : Z -> S -> option S) (s : S) : option S :=
  match ks with
  | [] => Some s
  | i :: ks => s' ← body i s; for_ ks body s'
  end.

Definition upto (a b : Z) : list Z := seqZ a (b - a + 1).
Definition downto (a b : Z) : list Z := rev (seqZ b (a - b + 1)).

Lemma upto_nil a b : b < a -> upto a b = [].
Proof. intros. apply seqZ_nil. lia. Qed.

Lemma upto_cons a b : a <= b -> upto a b = a :: upto (a + 1) b.
Proof. intros. unfold upto. rewrite seqZ_cons by lia. f_equal. f_equal; lia. Qed.

Lemma upto_snoc a b : a <= b -> upto a b = upto a (b - 1) ++ [b].
Proof.
  intros. unfold upto.
  replace (b - a + 1) with (Z.of_nat (S (Z.to_nat (b - a)))) by lia.
  rewrite seqZ_S. f_equal; [f_equal; lia|]. f_equal. lia.
Qed.

Lemma upto_app a b c : a <= b + 1 -> b <= c -> upto a c = upto a b ++ upto (b + 1) c.
Proof.
  intros. unfold upto. replace (c - a + 1) with ((b - a + 1) + (c - (b + 1) + 1)) by lia.
  rewrite seqZ_app by lia. f_equal. f_equal. lia.
Qed.

Lemma downto_nil a b : a < b -> downto a b = [].
Proof. intros. unfold downto. by rewrite seqZ_nil by lia. Qed.

Lemma downto_cons a b : b <= a -> downto a b = a :: downto (a - 1) b.
Proof.
  intros. unfold downto.
  replace (seqZ b (a - b + 1)) with (upto b a) by done.
  rewrite upto_snoc by done. rewrite rev_app_distr. simpl.
  unfold upto. repeat f_equal.
Qed.

Lemma elem_of_upto x a b : x ∈ upto a b <-> a <= x <= b.
Proof. unfold upto. rewrite elem_of_seqZ. lia. Qed.

Lemma length_upto a b : length (upto a b) = Z.to_nat (b - a + 1).
Proof. apply length_seqZ. Qed.

Lemma NoDup_upto a b : NoDup (upto a b).
Proof. apply NoDup_seqZ. Qed.

Lemma for_app {S} ks js body (s : S) :
  for_ (ks ++ js) body s = s' ← for_ ks body s; for_ js body s'.
Proof. revert s. induction ks as [|i ks IH]; intros s; [done|]. simpl. destruct (body i s); [apply IH|done]. Qed.

Lemma for_ext {S} ks (f g : Z -> S -> option S) s :
  (forall i s, f i s = g i s) -> for_ ks f s = for_ ks g s.
Proof.
  intros H. revert s. induction ks as [|i ks IH]; intros s; [done|]. simpl. rewrite H.
  destruct (g i s); [apply IH|done].
Qed.

(** The invariant rule of the counted loop: [I i s] holds before round [i]. *)
Lemma for_upto {S} (I : Z -> S -> Prop) a b body s :
  a <= b + 1 -> I a s ->
  (forall i s, a <= i <= b -> I i s -> exists s', body i s = Some s' /\ I (i + 1) s') ->
  exists s', for_ (upto a b) body s = Some s' /\ I (b + 1) s'.
Proof.
  remember (Z.to_nat (b + 1 - a)) as n eqn:Hn. revert a s Hn.
  induction n as [|n IH]; intros a s Hn Hab HI Hstep.
  - rewrite upto_nil by lia. replace (b + 1) with a by lia. by exists s.
  - rewrite upto_cons by lia. simpl.
    destruct (Hstep a s) as (s1 & -> & H1); [lia|done|]. simpl.
    apply IH; [lia|lia|done|]. intros. apply Hstep; [lia|done].
Qed.

Lemma for_downto {S} (I : Z -> S -> Prop) a b body s :
  b <= a + 1 -> I a s ->
  (forall i s, b <= i <= a -> I i s -> exists s', body i s = Some s' /\ I (i - 1) s') ->
  exists s', for_ (downto a b) body s = Some s' /\ I (b - 1) s'.
Proof.
  remember (Z.to_nat (a + 1 - b)) as n eqn:Hn. revert a s Hn.
  induction n as [|n IH]; intros a s Hn Hab HI Hstep.
  - rewrite downto_nil by lia. replace (b - 1) with a by lia. by exists s.
  - rewrite downto_cons by lia. simpl.
    destruct (Hstep a s) as (s1 & -> & H1); [lia|done|]. simpl.
    apply IH; [lia|lia|done|]. intros. apply Hstep; [lia|done].
Qed.

(** What every round keeps holds at the end, if the loop gets there. *)
Lemma for_keeps {S} (I : S -> Prop) ks body s s' :
  I s -> (forall i s s', i ∈ ks -> I s -> body i s = Some s' -> I s') -> for_ ks body s = Some s' -> I s'.
Proof.
  revert s. induction ks as [|k ks IH]; intros s HI Hstep; cbn; [by intros [= <-]|].
  destruct (body k s) as [s1|] eqn:E; [|done]. cbn. apply IH; [eapply Hstep; [left|done..]|].
  intros i t t' Hi. apply Hstep. by right.
Qed.

(** ** [while] and [for (;;)]: a round goes on ([inl]) or leaves the loop ([inr]) *)

Fixpoint loop {S} (fuel : nat) (body : S -> option (S + S)) (s : S) : option S :=
  match fuel with
  | O => None
  | Datatypes.S fuel =>
      r ← body s;
      match r with inl s => loop fuel body s | inr s => Some s end
  end.

(** Its rule: a round keeps the invariant with fewer rounds left, or leaves with
    the result. *)
Lemma loop_rule {S : Type} (I : nat -> S -> Prop) (Q : S -> Prop) (body : S -> option (S + S)) :
  (forall k s, I k s -> exists r, body s = Some r /\
     match r with inl s' => exists k', (k' < k)%nat /\ I k' s' | inr s' => Q s' end) ->
  forall fuel k s, I k s -> (k < fuel)%nat -> exists s', loop fuel body s = Some s' /\ Q s'.
Proof.
  intros Hb fuel. induction fuel as [|fuel IH]; intros k s HI Hk; [lia|]. simpl.
  destruct (Hb k s HI) as ([s'|s'] & -> & H); simpl; [|by exists s'].
  destruct H as (k' & ? & ?). apply (IH k'); [done|lia].
Qed.

(** A decidable fact on all small numbers, by evaluation. *)
Lemma forallb_seq (f : nat -> bool) n : forallb f (seq 0 n) = true -> forall k, (k < n)%nat -> f k = true.
Proof. rewrite forallb_forall. intros H k Hk. apply H, in_seq. lia. Qed.

(** ** Vectors *)

Notation size l := (Z.of_nat (length l)).

Lemma arr_get_in {A} (l : list A) i : 0 <= i < size l -> exists x, arr_get l i = Some x.
Proof.
  intros. unfold arr_get. zfalse (i <? 0). apply lookup_lt_is_Some. lia.
Qed.

Lemma arr_set_in {A} (l : list A) i x :
  0 <= i < size l -> arr_set l i x = Some (<[Z.to_nat i := x]> l).
Proof. intros. unfold arr_set. by ztrue ((0 <=? i) && (i <? size l)). Qed.

Lemma arr_get_out {A} (l : list A) i : i < 0 \/ size l <= i -> arr_get l i = None.
Proof.
  intros. unfold arr_get. case_bool; [done|]. apply lookup_ge_None. zb.
Qed.

Lemma arr_get_app {A} (l1 l2 : list A) x : arr_get (l1 ++ x :: l2) (size l1) = Some x.
Proof. rewrite arr_get_nat. by rewrite list_lookup_middle. Qed.

Lemma arr_get_mid {A} (l1 l2 l : list A) x i :
  l = l1 ++ x :: l2 -> i = size l1 -> arr_get l i = Some x.
Proof. intros -> ->. apply arr_get_app. Qed.

Lemma arr_get_insert {A} (l : list A) i j x :
  0 <= i < size l -> 0 <= j ->
  arr_get (<[Z.to_nat i := x]> l) j = if j =? i then Some x else arr_get l j.
Proof.
  intros. unfold arr_get. zfalse (j <? 0). case_bool.
  - apply Z.eqb_eq in E as ->. rewrite list_lookup_insert_eq by lia. done.
  - rewrite list_lookup_insert_ne; [done|]. zb.
Qed.

(** ** Sorted lists *)

Lemma sorted_node {A} (R : relation A) `{!Transitive R} l v r :
  StronglySorted R (l ++ v :: r) <->
  (StronglySorted R l /\ StronglySorted R r) /\
  ((forall x, x ∈ l -> R x v) /\ forall y, y ∈ r -> R v y).
Proof.
  rewrite StronglySorted_app. split.
  - intros (H & Hl & Hr). inversion Hr as [|? ? Hs Hf]; subst.
    repeat split; try done.
    + intros x Hx. apply H; [done|left].
    + by apply Forall_forall.
  - intros ((Hl & Hr) & H1 & H2). split_and!; [|done|].
    + intros x y Hx [->|Hy]%elem_of_cons; [by apply H1|].
      transitivity v; [by apply H1|by apply H2].
    + constructor; [done|]. by apply Forall_forall.
Qed.

(** ** Checked sums that stay in range *)

Ltac step := cbn -[Z.max Z.min Z.add Z.sub Z.mul Z.abs].
Ltac ok32 := repeat (rewrite chk32_ok by lia; step).

(** ** Arrays that start uninitialised: a cell is [None] until it is written *)

Notation vla n := (replicate (Z.to_nat n) None).
Definition vget (dp : list (option Z)) (i : Z) : option Z := c ← arr_get dp i; c.
Definition vset (dp : list (option Z)) (i v : Z) : option (list (option Z)) := arr_set dp i (Some v).

Lemma vset_in dp i v : 0 <= i < size dp -> vset dp i v = Some (<[Z.to_nat i := Some v]> dp).
Proof. apply arr_set_in. Qed.

Lemma vget_insert dp i j v :
  0 <= i < size dp -> 0 <= j ->
  vget (<[Z.to_nat i := Some v]> dp) j = if j =? i then Some v else vget dp j.
Proof. intros. unfold vget. rewrite arr_get_insert by done. by case_bool. Qed.

(** ** Total reads, for references *)

Definition at_ (l : list Z) (i : Z) : Z := l !!! Z.to_nat i.

Lemma arr_get_at (l : list Z) i : 0 <= i < size l -> arr_get l i = Some (at_ l i).
Proof.
  intros Hi. destruct (arr_get_in l i Hi) as [x Hx]. rewrite Hx. f_equal.
  apply arr_get_Some in Hx as [_ Hx]. unfold at_. by rewrite (list_lookup_total_correct _ _ _ Hx).
Qed.

Lemma at_Forall (P : Z -> Prop) l i : Forall P l -> 0 <= i < size l -> P (at_ l i).
Proof.
  intros HP Hi. rewrite Forall_lookup in HP. apply (HP (Z.to_nat i)).
  unfold at_. apply list_lookup_lookup_total_lt. lia.
Qed.

(** [sumf f a b] is [f a + ... + f (b - 1)]. *)
Definition sumf (f : Z -> Z) (a b : Z) : Z := foldr (fun i s => f i + s) 0 (upto a (b - 1)).

Lemma sumf_nil f a b : b <= a -> sumf f a b = 0.
Proof. intros. unfold sumf. by rewrite upto_nil by lia. Qed.

Lemma sumf_cons f a b : a < b -> sumf f a b = f a + sumf f (a + 1) b.
Proof. intros. unfold sumf. by rewrite upto_cons by lia. Qed.

Lemma sumf_app f a b c : a <= b <= c -> sumf f a c = sumf f a b + sumf f b c.
Proof.
  intros. unfold sumf. rewrite (upto_app a (b - 1) (c - 1)), Z.sub_add by lia.
  rewrite foldr_app. generalize (foldr (fun i s => f i + s) 0 (upto b (c - 1))). intros z.
  induction (upto a (b - 1)) as [|x l IH]; simpl; [lia|]. rewrite IH. lia.
Qed.

Lemma sumf_snoc f a b : a <= b -> sumf f a (b + 1) = sumf f a b + f b.
Proof. intros. rewrite (sumf_app f a b) by lia. rewrite (sumf_cons f b), (sumf_nil f (b + 1)) by lia. lia. Qed.

Lemma sumf_le f g a b : (forall i, a <= i < b -> f i <= g i) -> sumf f a b <= sumf g a b.
Proof.
  intros H. unfold sumf. assert (forall i, i ∈ upto a (b - 1) -> f i <= g i) as Hl.
  { intros i Hi%elem_of_upto. apply H. lia. }
  induction (upto a (b - 1)) as [|x l IH]; simpl; [done|].
  pose proof (Hl x ltac:(by left)). assert (forall i, i ∈ l -> f i <= g i) by (intros; apply Hl; by right).
  specialize (IH H1). lia.
Qed.

Lemma sumf_const c a b : a <= b -> sumf (fun _ => c) a b = (b - a) * c.
Proof.
  intros Hab. remember (Z.to_nat (b - a)) as n eqn:Hn. revert a Hn Hab.
  induction n as [|n IH]; intros a Hn Hab.
  - rewrite sumf_nil by lia. replace b with a by lia. lia.
  - rewrite sumf_cons, IH by lia. lia.
Qed.

(** ** Optima: [m] is the greatest of the values [P] holds of *)

Definition is_max (P : Z -> Prop) (m : Z) : Prop := P m /\ forall x, P x -> x <= m.

Lemma is_max_union (P Q R : Z -> Prop) a b :
  is_max P a -> is_max Q b -> (forall x, R x <-> P x \/ Q x) -> is_max R (Z.max a b).
Proof.
  intros [Ha Hp] [Hb Hq] HR. split.
  - apply HR. destruct (Z.max_spec a b) as [[_ ->]|[_ ->]]; auto.
  - intros x [Hx%Hp|Hx%Hq]%HR; lia.
Qed.

Lemma sorted_lookup {A} (R : relation A) l (i j : nat) x y :
  StronglySorted R l -> (i < j)%nat -> l !! i = Some x -> l !! j = Some y -> R x y.
Proof.
  intros Hs. revert i j. induction Hs as [|z l Hl IH Hz]; intros i j Hij Hi Hj; [done|].
  destruct j as [|j]; [lia|]. destruct i as [|i]; simpl in *; [|apply (IH i j); done || lia].
  injection Hi as <-. rewrite Forall_lookup in Hz. by apply (Hz j).
Qed.

Lemma sorted_at l i j : StronglySorted Z.le l -> 0 <= i <= j -> j < size l -> at_ l i <= at_ l j.
Proof.
  intros Hs Hi Hj. destruct (decide (i = j)) as [->|]; [lia|].
  pose proof (arr_get_at l i ltac:(lia)) as [_ Ei]%arr_get_Some.
  pose proof (arr_get_at l j ltac:(lia)) as [_ Ej]%arr_get_Some.
  by apply (sorted_lookup Z.le l _ _ _ _ Hs) with (2 := Ei) (3 := Ej); lia.
Qed.

Lemma elem_of_at l x : x ∈ l <-> exists i, 0 <= i < size l /\ at_ l i = x.
Proof.
  split.
  - intros (i & Hi)%list_elem_of_lookup. pose proof (lookup_lt_Some _ _ _ Hi).
    exists (Z.of_nat i). split; [lia|]. unfold at_. rewrite Nat2Z.id. by apply list_lookup_total_correct.
  - intros (i & Hi & <-). pose proof (arr_get_at l i Hi) as [_ E]%arr_get_Some.
    by apply list_elem_of_lookup_2 in E.
Qed.

(** The invariant rule of a loop over all of an array. *)
Lemma for_array {X S} (A : list X) (I : list X -> S -> Prop) f s :
  I [] s ->
  (forall p a q s, A = p ++ a :: q -> I p s -> exists s', f a s = Some s' /\ I (p ++ [a]) s') ->
  exists s', for_ (upto 0 (size A - 1)) (fun i s => a ← arr_get A i; f a s) s = Some s' /\ I A s'.
Proof.
  intros H0 Hstep.
  destruct (for_upto (fun i s => I (take (Z.to_nat i) A) s) 0 (size A - 1)
    (fun i s => a ← arr_get A i; f a s) s) as (s' & E & Hs'); [lia|done| |].
  - intros i s' Hi HI. destruct (arr_get_in A i ltac:(lia)) as [a Ha]. rewrite Ha. simpl.
    apply arr_get_Some in Ha as [_ Ha].
    destruct (Hstep (take (Z.to_nat i) A) a (drop (Datatypes.S (Z.to_nat i)) A) s') as (s2 & E & H2);
      [by rewrite take_drop_middle|done|].
    exists s2. split; [done|]. replace (Z.to_nat (i + 1)) with (Datatypes.S (Z.to_nat i)) by lia.
    by rewrite (take_S_r _ _ _ Ha).
  - exists s'. split; [done|]. by rewrite Z.sub_add, take_ge in Hs' by lia.
Qed.
