(* ===== verification/Trees.v ===== *)
(** * Trees: the binary tree exercises of src/code/leetcode

    A [TreeNode*] that is only read, or freshly made, is a value of [TreeNode],
    with [NULL] for the null pointer; following it is undefined ([None]). Each
    exercise is a module named after its file. The references the exercises are
    compared with - the traversals, the levels, the paths - come first. *)

From S2P Require Import Prelude Loops.

(** src/code/leetcode/same-tree.cc:13-18 [TreeNode] *)
Inductive TreeNode := NULL | Node (val : Z) (left right : TreeNode).

#[export] Instance TreeNode_eq_dec : EqDecision TreeNode.
Proof. solve_decision. Defined.

Notation leaf v := (Node v NULL NULL).

(** ** References *)

Fixpoint inorder (t : TreeNode) : list Z :=
  match t with NULL => [] | Node v l r => inorder l ++ v :: inorder r end.
Fixpoint preorder (t : TreeNode) : list Z :=
  match t with NULL => [] | Node v l r => v :: preorder l ++ preorder r end.
Fixpoint postorder (t : TreeNode) : list Z :=
  match t with NULL => [] | Node v l r => postorder l ++ postorder r ++ [v] end.

(** The nodes by depth, from left to right. *)
Fixpoint zip_app (xs ys : list (list Z)) : list (list Z) :=
  match xs, ys with
  | [], _ => ys
  | _, [] => xs
  | x :: xs, y :: ys => (x ++ y) :: zip_app xs ys
  end.
Fixpoint levels (t : TreeNode) : list (list Z) :=
  match t with NULL => [] | Node v l r => [v] :: zip_app (levels l) (levels r) end.

(** The values from the root to each leaf, from left to right. *)
Fixpoint leaf_paths (t : TreeNode) : list (list Z) :=
  match t with
  | NULL => []
  | leaf v => [[v]]
  | Node v l r => cons v <$> leaf_paths l ++ leaf_paths r
  end.

(** Sums of the paths that start at the root and go down, and of all paths. *)
Inductive down : TreeNode -> Z -> Prop :=
| down_stop v l r : down (Node v l r) v
| down_left v l r s : down l s -> down (Node v l r) (v + s)
| down_right v l r s : down r s -> down (Node v l r) (v + s).
Inductive path : TreeNode -> Z -> Prop :=
| path_down t s : down t s -> path t s
| path_bend v l r a b : down l a -> down r b -> path (Node v l r) (a + v + b)
| path_left v l r s : path l s -> path (Node v l r) s
| path_right v l r s : path r s -> path (Node v l r) s.
#[export] Hint Constructors down path : sperm.

(** What bounds every sum over the tree, and the number of its nodes. *)
Fixpoint weight (t : TreeNode) : Z :=
  match t with NULL => 0 | Node v l r => Z.abs v + weight l + weight r end.
Notation nodes t := (size (inorder t)).

Lemma weight_nonneg t : 0 <= weight t.
Proof. induction t; simpl; lia. Qed.

Lemma nodes_node v l r : nodes (Node v l r) = nodes l + nodes r + 1.
Proof. simpl. rewrite length_app. simpl. lia. Qed.

Lemma size_preorder t : size (preorder t) = nodes t.
Proof. induction t; [done|]. rewrite nodes_node. simpl. rewrite length_app. lia. Qed.

Lemma size_postorder t : size (postorder t) = nodes t.
Proof. induction t; [done|]. rewrite nodes_node. simpl. rewrite !length_app. simpl. lia. Qed.

Lemma leaf_paths_node v l r :
  (l <> NULL \/ r <> NULL) -> leaf_paths (Node v l r) = cons v <$> leaf_paths l ++ leaf_paths r.
Proof. by destruct l, r; intros []. Qed.

Lemma down_weight t s : down t s -> Z.abs s <= weight t.
Proof. induction 1; simpl; pose proof (weight_nonneg l); pose proof (weight_nonneg r); lia. Qed.

(** ** binary-tree-max-path-sum.cc *)
Module MaxPathSum.

(** The best sum from the root down, and the best path found below.

    src/code/leetcode/binary-tree-max-path-sum.cc:39-62 [Solution::side] *)
Fixpoint side (root : TreeNode) : option (Z * Z) :=
  match root with
  | NULL => None
  | Node val tl tr =>
      match tl, tr with
      | NULL, NULL => Some (val, val)
      | NULL, _ =>
          '(r, rp) ← side tr;
          s ← chk32 (Z.max 0 r + val);
          Some (s, Z.max r rp)
      | _, NULL =>
          '(l, lp) ← side tl;
          s ← chk32 (Z.max 0 l + val);
          Some (s, Z.max l lp)
      | _, _ =>
          '(l, lp) ← side tl;
          '(r, rp) ← side tr;
          let p := Z.max (Z.max l r) (Z.max lp rp) in
          both ← chk32 (Z.max 0 l + Z.max 0 r);
          bend ← chk32 (both + val);
          s ← chk32 (Z.max (Z.max 0 l) (Z.max 0 r) + val);
          Some (s, Z.max p bend)
      end
  end.

(** src/code/leetcode/binary-tree-max-path-sum.cc:24-33 [Solution::maxPathSum] *)
Definition maxPathSum (root : TreeNode) : option Z :=
  match root with
  | NULL => Some 0
  | _ => '(s, p) ← side root; Some (Z.max s p)
  end.

Lemma down_node v l r s :
  down (Node v l r) s <-> s = v \/ (exists a, down l a /\ s = v + a) \/ (exists a, down r a /\ s = v + a).
Proof. split; [inversion 1; subst; eauto 6|]. intros [->|[(? & ? & ->)|(? & ? & ->)]]; eauto with sperm. Qed.

Lemma path_node v l r s :
  path (Node v l r) s <->
  down (Node v l r) s \/ (exists a b, down l a /\ down r b /\ s = a + v + b) \/ path l s \/ path r s.
Proof.
  split; [inversion 1; subst; eauto 8|].
  intros [?|[(? & ? & ? & ? & ->)|[?|?]]]; eauto with sperm.
Qed.

Lemma not_down_NULL s : ~ down NULL s.
Proof. inversion 1. Qed.
Lemma not_path_NULL s : ~ path NULL s.
Proof. inversion 1 as [? ? H'| | |]. inversion H'. Qed.

(** What [side] returns is right: the best sum down, a path, and all others. *)
Definition good (t : TreeNode) (s p : Z) : Prop :=
  is_max (down t) s /\ path t p /\ forall x, path t x -> x <= Z.max s p.

Lemma good_weight t s p : good t s p -> Z.abs s <= weight t.
Proof. intros [[H _] _]. by apply down_weight. Qed.

(** Reduce a fact on the paths of a node to its children and decide it. *)
Ltac paths :=
  unfold good, is_max in *; setoid_rewrite path_node; setoid_rewrite down_node;
  repeat match goal with
  | H : _ /\ _ |- _ => destruct H
  | |- _ /\ _ => split
  | |- forall _, _ => intros
  | H : exists _, _ |- _ => destruct H
  | H : _ \/ _ |- _ => destruct H
  | H : down NULL _ |- _ => by apply not_down_NULL in H
  | H : path NULL _ |- _ => by apply not_path_NULL in H
  | B : forall x, ?P x -> _, H : ?P ?y |- _ => lazymatch goal with
      | _ : y <= _ |- _ => fail | _ => pose proof (B y H) end
  end; try lia.

Lemma good_leaf v : good (leaf v) v v.
Proof. paths; eauto. Qed.

Lemma good_right v r b p : good r b p -> good (Node v NULL r) (Z.max 0 b + v) (Z.max b p).
Proof.
  paths.
  - destruct (Z.max_spec 0 b) as [[? ->]|[? ->]]; [|by left].
    right; right. exists b. split; [done|lia].
  - destruct (Z.max_spec b p) as [[? ->]|[? ->]]; eauto with sperm.
Qed.

Lemma good_left v l a p : good l a p -> good (Node v l NULL) (Z.max 0 a + v) (Z.max a p).
Proof.
  paths.
  - destruct (Z.max_spec 0 a) as [[? ->]|[? ->]]; [|by left].
    right; left. exists a. split; [done|lia].
  - destruct (Z.max_spec a p) as [[? ->]|[? ->]]; eauto with sperm.
Qed.

Lemma good_both v l r a lp b rp :
  good l a lp -> good r b rp ->
  good (Node v l r) (Z.max (Z.max 0 a) (Z.max 0 b) + v)
    (Z.max (Z.max (Z.max a b) (Z.max lp rp)) (Z.max 0 a + Z.max 0 b + v)).
Proof.
  paths.
  - destruct (Z.max_spec (Z.max 0 a) (Z.max 0 b)) as [[? ->]|[? ->]].
    + right; right. exists b. split; [done|lia].
    + destruct (Z.max_spec 0 a) as [[? ->]|[? ->]]; [|by left].
      right; left. exists a. split; [done|lia].
  - destruct (Z.max_spec (Z.max (Z.max a b) (Z.max lp rp)) (Z.max 0 a + Z.max 0 b + v))
      as [[? ->]|[? ->]].
    + destruct (Z.max_spec 0 a) as [[? ->]|[? ->]], (Z.max_spec 0 b) as [[? ->]|[? ->]];
        [right; left|left; right; left|left; right; right|left; left; lia].
      * exists a, b. split_and!; [done|done|lia].
      * exists a. split; [done|lia].
      * exists b. split; [done|lia].
    + destruct (Z.max_spec (Z.max a b) (Z.max lp rp)) as [[? ->]|[? ->]];
        [destruct (Z.max_spec lp rp) as [[? ->]|[? ->]]|destruct (Z.max_spec a b) as [[? ->]|[? ->]]];
        eauto 6 with sperm.
Qed.

(** [side] of a tree whose weight an [int] holds. *)
Lemma side_spec t :
  t <> NULL -> weight t <= 2147483647 -> exists s p, side t = Some (s, p) /\ good t s p.
Proof.
  induction t as [|v l IHl r IHr]; [done|]. intros _ Hw. cbn [weight] in Hw.
  pose proof (weight_nonneg l). pose proof (weight_nonneg r).
  destruct (decide (l = NULL)) as [->|Hl], (decide (r = NULL)) as [->|Hr];
    try (destruct IHl as (a & lp & El & Gl); [done|simpl in *; lia|];
         pose proof (good_weight _ _ _ Gl));
    try (destruct IHr as (b & rp & Er & Gr); [done|simpl in *; lia|];
         pose proof (good_weight _ _ _ Gr)).
  - exists v, v. split; [done|apply good_leaf].
  - eexists _, _. split; [|by apply good_right].
    destruct r; [done|]. cbn [side]. cbn [side] in Er. rewrite Er. step. by ok32.
  - eexists _, _. split; [|by apply good_left].
    destruct l; [done|]. cbn [side]. cbn [side] in El. rewrite El. step. by ok32.
  - eexists _, _. split; [|by apply good_both].
    destruct l; [done|]. destruct r; [done|].
    cbn [side] in *. rewrite El, Er. step. by ok32.
Qed.

(** C34: maxPathSum returns the greatest sum of a path of a tree that is not empty,
    where a path goes up from any node and down again, whatever the signs of
    the values; no addition overflows while an [int] holds the sum of the
    absolute values. *)
Theorem maxPathSum_max t :
  t <> NULL -> weight t <= 2147483647 ->
  exists m, maxPathSum t = Some m /\ path t m /\ forall x, path t x -> x <= m.
Proof.
  intros Hn Hw. destruct (side_spec t Hn Hw) as (s & p & E & [Hs _] & Hp & Hx).
  exists (Z.max s p). split; [destruct t; [done|]; unfold maxPathSum; by rewrite E|].
  split; [|done]. destruct (Z.max_spec s p) as [[? ->]|[? ->]]; eauto with sperm.
Qed.

Lemma maxPathSum_max_witness :
  let t := Node (-10) (leaf 9) (Node 20 (leaf 15) (leaf 7)) in
  t <> NULL /\ weight t <= 2147483647 /\ maxPathSum t = Some 42 /\
  exists m, maxPathSum t = Some m /\ path t m /\ forall x, path t x -> x <= m.
Proof. intros t. split_and!; [done|vm_compute; congruence|done|]. by apply (maxPathSum_max t). Defined.

(** Two values that an [int] cannot add are undefined behaviour. *)
Example maxPathSum_overflow : maxPathSum (Node 2147483647 (leaf 1) NULL) = None.
Proof. done. Qed.

End MaxPathSum.

(** ** binary-tree-inorder-traversal.cc *)
Module InorderTraversal.

(** src/code/leetcode/binary-tree-inorder-traversal.cc:30-35 [Solution::R] *)
Fixpoint R (root : TreeNode) (vs : list Z) : list Z :=
  match root with NULL => vs | Node val l r => R r (R l vs ++ [val]) end.

(** src/code/leetcode/binary-tree-inorder-traversal.cc:23-28 [Solution::inorderTraversal] *)
Definition inorderTraversal (root : TreeNode) : list Z := R root [].

Lemma R_inorder t vs : R t vs = vs ++ inorder t.
Proof.
  revert vs. induction t as [|v l IHl r IHr]; intros; simpl; [by rewrite app_nil_r|].
  by rewrite IHr, IHl, <- !(assoc_L (++)).
Qed.

Lemma inorderTraversal_inorder t : inorderTraversal t = inorder t.
Proof. apply R_inorder. Qed.

End InorderTraversal.

(** ** valid-binary-search-tree.cc *)
Module ValidBST.

(** The answer, [xmin] and [xmax]; the out-parameters of a [false] are what they
    were at the return.

    src/code/leetcode/valid-binary-search-tree.cc:33-50 [Solution::isValid] *)
Fixpoint isValid (root : TreeNode) : option (bool * Z * Z) :=
  match root with
  | NULL => None
  | Node val tl tr =>
      '(ok, xmin, xmax) ←
        match tl with
        | NULL => Some (true, val, val)
        | _ =>
            '(b, t1, t2) ← isValid tl;
            if negb b then Some (false, val, val)
            else if val <=? t2 then Some (false, val, val)
            else Some (true, Z.min val t1, Z.max val t2)
        end;
      if negb ok then Some (false, xmin, xmax) else
      match tr with
      | NULL => Some (true, xmin, xmax)
      | _ =>
          '(b, t1, t2) ← isValid tr;
          if negb b then Some (false, xmin, xmax)
          else if t1 <=? val then Some (false, xmin, xmax)
          else Some (true, Z.min xmin t1, Z.max xmax t2)
      end
  end.

(** src/code/leetcode/valid-binary-search-tree.cc:26-31 [Solution::isValidBST] *)
Definition isValidBST (root : TreeNode) : option bool :=
  match root with NULL => Some true | _ => '(b, _, _) ← isValid root; Some b end.

(** [lo] and [hi] are the least and the greatest of [xs]. *)
Definition ends (lo hi : Z) (xs : list Z) : Prop :=
  lo ∈ xs /\ hi ∈ xs /\ forall x, x ∈ xs -> lo <= x <= hi.

Lemma ends_left lo hi xs v :
  ends lo hi xs -> (forall x, x ∈ xs -> x < v) <-> ~ v <= hi.
Proof. intros (_ & Hh & H). split; [intros Hx; apply Hx in Hh; lia|]. intros ? x ?%H. lia. Qed.

Lemma ends_right lo hi xs v :
  ends lo hi xs -> (forall x, x ∈ xs -> v < x) <-> ~ lo <= v.
Proof. intros (Hl & _ & H). split; [intros Hx; apply Hx in Hl; lia|]. intros ? x ?%H. lia. Qed.

Lemma ends_app a b xs c d ys : ends a b xs -> ends c d ys -> ends (Z.min a c) (Z.max b d) (xs ++ ys).
Proof.
  intros (Ha & Hb & Hx) (Hc & Hd & Hy). unfold ends.
  setoid_rewrite elem_of_app. split_and!.
  - destruct (Z.min_spec a c) as [[_ ->]|[_ ->]]; auto.
  - destruct (Z.max_spec b d) as [[_ ->]|[_ ->]]; auto.
  - intros x [?%Hx|?%Hy]; lia.
Qed.

Lemma ends_one v : ends v v [v].
Proof. split_and!; [by left|by left|]. by intros x ->%list_elem_of_singleton. Qed.

Lemma isValid_spec t :
  t <> NULL ->
  exists b lo hi, isValid t = Some (b, lo, hi) /\
    (b = true <-> StronglySorted Z.lt (inorder t)) /\ (b = true -> ends lo hi (inorder t)).
Proof.
  induction t as [|v l IHl r IHr]; [done|]. intros _. cbn [isValid inorder].
  assert (exists b lo hi,
    match l with
    | NULL => Some (true, v, v)
    | _ => '(b, t1, t2) ← isValid l;
           if negb b then Some (false, v, v)
           else if v <=? t2 then Some (false, v, v)
           else Some (true, Z.min v t1, Z.max v t2)
    end = Some (b, lo, hi) /\
    (b = true <-> StronglySorted Z.lt (inorder l) /\ forall x, x ∈ inorder l -> x < v) /\
    (b = true -> ends lo hi (inorder l ++ [v]))) as (b & lo & hi & -> & Hb & He).
  { destruct (decide (l = NULL)) as [->|Hl]; [|destruct IHl as (b & lo & hi & E & Hb & He); [done|]].
    - exists true, v, v. split; [done|]. split; [|intros; apply ends_one].
      split; [|done]. split; [constructor|]. by intros ? ?%elem_of_nil.
    - exists (b && negb (v <=? hi)), (if b && negb (v <=? hi) then Z.min v lo else v),
        (if b && negb (v <=? hi) then Z.max v hi else v).
      rewrite E. step.
      destruct b; [specialize (He eq_refl)|]; simpl; [|split; [by destruct l|]; intuition congruence].
      rewrite <- Hb, (ends_left _ _ _ v He).
      destruct (Z.leb_spec v hi); simpl.
      + split; [by destruct l|]. split; [|done]. split; [done|]. intros [_ ?]. lia.
      + split; [by destruct l|]. split; [split; [split; [done|lia]|done]|]. intros _.
        rewrite (Z.min_comm v), (Z.max_comm v). apply ends_app; [done|apply ends_one]. }
  setoid_rewrite (sorted_node Z.lt). destruct b; step.
  2: { exists false, lo, hi. split; [done|]. split; [|done]. split; [done|]. intros [[] []]. by apply Hb. }
  specialize (He eq_refl). destruct (proj1 Hb eq_refl) as [Sl Ll]. clear Hb IHl.
  destruct (decide (r = NULL)) as [->|Hr]; [|destruct IHr as (b & lo2 & hi2 & E & Hb & He2); [done|]].
  - exists true, lo, hi. split_and!; [done| |done].
    split; [|done]. intros _. split_and!; [done|constructor|done|by intros ? ?%elem_of_nil].
  - destruct r as [|v' rl rr]; [done|]. rewrite E. step. destruct b; step.
    2: { exists false, lo, hi. split_and!; [done|split; [done|]|done]. intros [[_ H] _]. by apply Hb. }
    specialize (He2 eq_refl). destruct (Z.leb_spec lo2 v).
    + exists false, lo, hi. split_and!; [done|split; [done|]|done].
      intros [_ [_ H2]]. apply (ends_right _ _ _ v He2) in H2. lia.
    + exists true, (Z.min lo lo2), (Z.max hi hi2). split_and!; [done| |].
      * split; [intros _|done]. split_and!; [done|by apply Hb|done|].
        apply (ends_right _ _ _ v He2). lia.
      * intros _. pose proof (ends_app _ _ _ _ _ _ He He2) as Hap.
        by rewrite <- (assoc_L (++)) in Hap.
Qed.

Lemma isValidBST_spec t :
  exists b, isValidBST t = Some b /\ (b = true <-> StronglySorted Z.lt (inorder t)).
Proof.
  destruct (decide (t = NULL)) as [->|Hn]; [exists true; repeat constructor|].
  destruct (isValid_spec t Hn) as (b & lo & hi & E & Hb & _).
  exists b. split; [|done]. destruct t; [done|]. unfold isValidBST. by rewrite E.
Qed.

(** isValidBST answers whether the inorder traversal of the tree is strictly
    increasing, the definition of a search tree, looking at each subtree only
    through the least and the greatest value it returns. *)
Theorem isValidBST_inorder t :
  exists b, isValidBST t = Some b /\
    (b = true <-> StronglySorted Z.lt (InorderTraversal.inorderTraversal t)).
Proof. rewrite InorderTraversal.inorderTraversal_inorder. apply isValidBST_spec. Qed.

End ValidBST.

(** ** same-tree.cc, symmetric-tree.cc *)
Module Shape.

(** src/code/leetcode/same-tree.cc:22-27 [Solution::isSameTree] *)
Fixpoint isSameTree (x y : TreeNode) : bool :=
  match x, y with
  | NULL, NULL => true
  | NULL, _ | _, NULL => false
  | Node vx xl xr, Node vy yl yr =>
      if negb (vx =? vy) then false else isSameTree xl yl && isSameTree xr yr
  end.

(** src/code/leetcode/symmetric-tree.cc:27-32 [Solution::isMirror] *)
Fixpoint isMirror (x y : TreeNode) : bool :=
  match x, y with
  | NULL, NULL => true
  | NULL, _ | _, NULL => false
  | Node vx xl xr, Node vy yl yr =>
      if negb (vx =? vy) then false else isMirror xl yr && isMirror xr yl
  end.

(** src/code/leetcode/symmetric-tree.cc:22-26 [Solution::isSymmetric] *)
Definition isSymmetric (root : TreeNode) : bool :=
  match root with NULL => true | Node _ l r => isMirror l r end.

Fixpoint mirror (t : TreeNode) : TreeNode :=
  match t with NULL => NULL | Node v l r => Node v (mirror r) (mirror l) end.

Lemma isSameTree_eq x y : isSameTree x y = true <-> x = y.
Proof.
  revert y. induction x as [|v l IHl r IHr]; intros [|v' l' r']; simpl; try done.
  destruct (Z.eqb_spec v v'); simpl; [|naive_solver].
  rewrite andb_true_iff, IHl, IHr. naive_solver.
Qed.

Lemma isMirror_eq x y : isMirror x y = true <-> x = mirror y.
Proof.
  revert y. induction x as [|v l IHl r IHr]; intros [|v' l' r']; simpl; try done.
  destruct (Z.eqb_spec v v'); simpl; [|naive_solver].
  rewrite andb_true_iff, IHl, IHr. naive_solver.
Qed.

Lemma isSymmetric_mirror t : isSymmetric t = true <-> t = mirror t.
Proof.
  destruct t as [|v l r]; simpl; [done|]. rewrite isMirror_eq. split; [|congruence].
  intros ->. f_equal. clear. by induction r as [|v l IHl r IHr]; simpl; [|rewrite <- IHl, <- IHr at 1].
Qed.

End Shape.

(** ** maximum-depth-of-binary-tree.cc, minimum-depth-of-binary-tree.cc *)
Module Depth.

(** src/code/leetcode/maximum-depth-of-binary-tree.cc:24-28 [Solution::maxDepth] *)
Fixpoint maxDepth (root : TreeNode) : option Z :=
  match root with
  | NULL => Some 0
  | Node _ tl tr => l ← maxDepth tl; r ← maxDepth tr; chk32 (Z.max l r + 1)
  end.

(** src/code/leetcode/minimum-depth-of-binary-tree.cc:25-41 [Solution::minDepth] *)
Fixpoint minDepth (root : TreeNode) : option Z :=
  match root with
  | NULL => Some 0
  | Node _ tl tr =>
      match tl, tr with
      | NULL, NULL => Some 1
      | NULL, _ => r ← minDepth tr; chk32 (1 + r)
      | _, NULL => l ← minDepth tl; chk32 (1 + l)
      | _, _ => l ← minDepth tl; r ← minDepth tr; chk32 (1 + Z.min l r)
      end
  end.

(** [d] is the length of a path to a leaf, and all are on one side of it. *)
Definition extreme (le : Z -> Z -> Prop) (t : TreeNode) (d : Z) : Prop :=
  (exists p, p ∈ leaf_paths t /\ size p = d) /\ forall p, p ∈ leaf_paths t -> le (size p) d.

Lemma extreme_bound (le : Z -> Z -> Prop) t d :
  extreme le t d -> 1 <= d <= nodes t.
Proof.
  intros [(p & Hp & <-) _]. clear le. revert p Hp. induction t as [|v l IHl r IHr]; [by intros ? ?%elem_of_nil|].
  intros p. rewrite nodes_node.
  destruct (decide (l = NULL /\ r = NULL)) as [[-> ->]|Hn].
  - intros ->%list_elem_of_singleton. simpl. lia.
  - rewrite leaf_paths_node by (destruct (decide (l = NULL)); naive_solver).
    intros (q & -> & Hq)%list_elem_of_fmap. simpl length.
    apply elem_of_app in Hq as [Hq|Hq]; [apply IHl in Hq|apply IHr in Hq]; lia.
Qed.

Lemma extreme_leaf le `{!Reflexive le} v : extreme le (leaf v) 1.
Proof. split; [by exists [v]; split; [left|]|]. by intros p ->%list_elem_of_singleton. Qed.

(** The paths of a node are longer by one; [pick] takes the extreme of two. *)
Section extremes.
Context (le : Z -> Z -> Prop) (pick : Z -> Z -> Z).
Hypothesis le_succ : forall a b, le a b -> le (a + 1) (b + 1).
Hypothesis pick_l : forall a b c, le c a -> le c (pick a b).
Hypothesis pick_r : forall a b c, le c b -> le c (pick a b).
Hypothesis pick_one : forall a b, pick a b = a \/ pick a b = b.

Lemma extreme_node v l r d :
  (l <> NULL \/ r <> NULL) ->
  (exists p, p ∈ leaf_paths l ++ leaf_paths r /\ size p = d) ->
  (forall p, p ∈ leaf_paths l ++ leaf_paths r -> le (size p) d) ->
  extreme le (Node v l r) (d + 1).
Proof.
  intros Hn (p & Hp & <-) Hle. unfold extreme. rewrite leaf_paths_node by done.
  split; [exists (v :: p); split; [by apply list_elem_of_fmap_2|simpl; lia]|].
  intros q (q' & -> & Hq)%list_elem_of_fmap. apply Hle, le_succ in Hq.
  simpl length. by replace (size q' + 1) with (Z.of_nat (S (length q'))) in Hq by lia.
Qed.

Lemma extreme_right v r d : r <> NULL -> extreme le r d -> extreme le (Node v NULL r) (d + 1).
Proof. intros Hr [H1 H2]. apply extreme_node; [by right|done|done]. Qed.

Lemma extreme_left v l d : l <> NULL -> extreme le l d -> extreme le (Node v l NULL) (d + 1).
Proof. intros Hr [H1 H2]. apply extreme_node; [by left|by rewrite app_nil_r..]. Qed.

Lemma extreme_both v l r a b :
  l <> NULL -> extreme le l a -> extreme le r b -> extreme le (Node v l r) (pick a b + 1).
Proof.
  intros Hl [(p & Hp & Ep) Hla] [(q & Hq & Eq) Hlb].
  apply extreme_node; [by left| |].
  - destruct (pick_one a b) as [->| ->]; [exists p|exists q]; rewrite elem_of_app; auto.
  - intros x [Hx|Hx]%elem_of_app; auto.
Qed.
End extremes.

(** maxDepth of a tree that is not empty is the length of its longest path from
    the root to a leaf. *)
Lemma maxDepth_longest t :
  t <> NULL -> nodes t <= 2147483647 -> exists d, maxDepth t = Some d /\ extreme Z.le t d.
Proof.
  induction t as [|v l IHl r IHr]; [done|]. intros _ Hn. rewrite nodes_node in Hn.
  cbn [maxDepth]. destruct (decide (l = NULL)) as [->|Hl], (decide (r = NULL)) as [->|Hr];
    try (destruct IHl as (a & -> & Ha); [done|lia|]; pose proof (extreme_bound _ _ _ Ha));
    try (destruct IHr as (b & -> & Hb); [done|lia|]; pose proof (extreme_bound _ _ _ Hb)); step.
  - exists 1. split; [done|]. apply extreme_leaf, _.
  - rewrite Z.max_r by lia. ok32. eexists. split; [done|]. apply extreme_right; [lia|done|done].
  - rewrite Z.max_l by lia. ok32. eexists. split; [done|]. apply extreme_left; [lia|done|done].
  - ok32. eexists. split; [done|]. apply (extreme_both Z.le Z.max); try done; lia.
Qed.

(** minDepth is the length of the shortest. *)
Lemma minDepth_shortest t :
  t <> NULL -> nodes t <= 2147483647 -> exists d, minDepth t = Some d /\ extreme Z.ge t d.
Proof.
  induction t as [|v l IHl r IHr]; [done|]. intros _ Hn. rewrite nodes_node in Hn.
  destruct (decide (l = NULL)) as [->|Hl], (decide (r = NULL)) as [->|Hr];
    try (destruct IHl as (a & Ea & Ha); [done|lia|]; pose proof (extreme_bound _ _ _ Ha));
    try (destruct IHr as (b & Eb & Hb); [done|lia|]; pose proof (extreme_bound _ _ _ Hb)).
  - exists 1. split; [done|]. apply extreme_leaf. intros ?; lia.
  - exists (b + 1). destruct r; [done|]. cbn [minDepth] in *. rewrite Eb. step. ok32.
    split; [f_equal; lia|]. apply extreme_right; [lia|done|done].
  - exists (a + 1). destruct l; [done|]. cbn [minDepth] in *. rewrite Ea. step. ok32.
    split; [f_equal; lia|]. apply extreme_left; [lia|done|done].
  - exists (Z.min a b + 1). destruct l; [done|]. destruct r; [done|].
    cbn [minDepth] in *. rewrite Ea, Eb. step. ok32.
    split; [f_equal; lia|]. apply (extreme_both Z.ge Z.min); try done; lia.
Qed.

End Depth.

(** ** balanced-binary-tree.cc *)
Module Balanced.

(** The depth and [*balanced].

    src/code/leetcode/balanced-binary-tree.cc:32-46 [Solution::R] *)
Fixpoint R (root : TreeNode) : option (Z * bool) :=
  match root with
  | NULL => Some (0, true)
  | Node _ tl tr =>
      '(l, lb) ← R tl;
      '(r, rb) ← R tr;
      d ← chk32 (1 + Z.max l r);
      Some (d, if negb lb || negb rb || (1 <? Z.abs (l - r)) then false else true)
  end.

(** src/code/leetcode/balanced-binary-tree.cc:25-30 [Solution::isBalanced] *)
Definition isBalanced (root : TreeNode) : option bool := '(_, bal) ← R root; Some bal.

(** Balanced: the heights of two siblings differ by at most one, everywhere. *)
Fixpoint height (t : TreeNode) : Z :=
  match t with NULL => 0 | Node _ l r => 1 + Z.max (height l) (height r) end.
Inductive balanced : TreeNode -> Prop :=
| balanced_NULL : balanced NULL
| balanced_Node v l r :
    balanced l -> balanced r -> -1 <= height l - height r <= 1 -> balanced (Node v l r).

Lemma height_nodes t : 0 <= height t <= nodes t.
Proof. induction t; [done|]. rewrite nodes_node. simpl height. lia. Qed.

Lemma balanced_R_spec t :
  nodes t <= 2147483647 ->
  exists b, R t = Some (height t, b) /\ (b = true <-> balanced t).
Proof.
  induction t as [|v l IHl r IHr]; intros Hn; [exists true; repeat constructor|].
  rewrite nodes_node in Hn. pose proof (height_nodes l). pose proof (height_nodes r).
  destruct IHl as (lb & El & Hl); [lia|]. destruct IHr as (rb & Er & Hr); [lia|].
  simpl R. rewrite El, Er. step. ok32. eexists. split; [done|].
  destruct lb; simpl; [|split; [done|]; inversion 1; subst; by apply Hl].
  destruct rb; simpl; [|split; [done|]; inversion 1; subst; by apply Hr].
  case_bool; (split; [intros|inversion 1; subst]); try done.
  - zb.
  - constructor; [by apply Hl|by apply Hr|zb].
Qed.

Lemma isBalanced_balanced t :
  nodes t <= 2147483647 -> exists b, isBalanced t = Some b /\ (b = true <-> balanced t).
Proof. intros Hn. destruct (balanced_R_spec t Hn) as (b & E & Hb). exists b. unfold isBalanced. by rewrite E. Qed.

End Balanced.

(** ** path-sum.cc, path-sum-2.cc, sum-root-to-leaf-numbers.cc *)
Module PathSum.

Fixpoint total (p : list Z) : Z := match p with [] => 0 | v :: p => v + total p end.

(** The paths of a given sum, in their order. *)
Definition with_sum (sum : Z) (ps : list (list Z)) : list (list Z) :=
  filter (fun p => total p = sum) ps.

(** src/code/leetcode/path-sum.cc:32-44 [Solution::R] *)
Fixpoint has (root : TreeNode) (sum : Z) : option bool :=
  match root with
  | NULL => None
  | Node val tl tr =>
      match tl, tr with
      | NULL, NULL => Some (sum =? val)
      | _, _ =>
          b ← match tl with NULL => Some false | _ => s ← chk32 (sum - val); has tl s end;
          if b : bool then Some true else
          match tr with NULL => Some false | _ => s ← chk32 (sum - val); has tr s end
      end
  end.

(** src/code/leetcode/path-sum.cc:23-30 [Solution::hasPathSum] *)
Definition hasPathSum (root : TreeNode) (sum : Z) : option bool :=
  match root with NULL => Some false | _ => has root sum end.

(** The vectors [trace] and [path] are passed by reference: both are returned.

    src/code/leetcode/path-sum-2.cc:34-51 [Solution::R] *)
Fixpoint R (root : TreeNode) (trace : list Z) (sum : Z) (path : list (list Z))
    : option (list Z * list (list Z)) :=
  match root with
  | NULL => None
  | Node val tl tr =>
      match tl, tr with
      | NULL, NULL => Some (trace, if sum =? val then path ++ [trace ++ [val]] else path)
      | _, _ =>
          let trace := trace ++ [val] in
          '(trace, path) ←
            match tl with
            | NULL => Some (trace, path)
            | _ => s ← chk32 (sum - val); R tl trace s path
            end;
          '(trace, path) ←
            match tr with
            | NULL => Some (trace, path)
            | _ => s ← chk32 (sum - val); R tr trace s path
            end;
          Some (removelast trace, path)
      end
  end.

(** src/code/leetcode/path-sum-2.cc:23-32 [Solution::pathSum] *)
Definition pathSum (root : TreeNode) (sum : Z) : option (list (list Z)) :=
  match root with NULL => Some [] | _ => '(_, path) ← R root [] sum []; Some path end.

Lemma with_sum_cons s v ps : with_sum s (cons v <$> ps) = cons v <$> with_sum (s - v) ps.
Proof.
  unfold with_sum. induction ps as [|p ps IH]; [done|].
  rewrite fmap_cons, !filter_cons, IH. cbn [total].
  destruct (decide (total p = s - v)), (decide (v + total p = s)); try done; lia.
Qed.

Lemma with_sum_app s ps qs : with_sum s (ps ++ qs) = with_sum s ps ++ with_sum s qs.
Proof. apply filter_app. Qed.

Lemma with_sum_leaf s v : with_sum s (leaf_paths (leaf v)) = if s =? v then [[v]] else [].
Proof.
  unfold with_sum. simpl. rewrite filter_cons, filter_nil. cbn [total].
  destruct (decide (v + 0 = s)), (Z.eqb_spec s v); try done; lia.
Qed.

Lemma fmap_app_snoc (trace : list Z) v (ps : list (list Z)) :
  app (trace ++ [v]) <$> ps = app trace <$> (cons v <$> ps).
Proof. rewrite <- list_fmap_compose. apply list_fmap_ext. intros ? x _. simpl. by rewrite <- (assoc_L (++)). Qed.

Definition visit (t : TreeNode) v (trace : list Z) sum path :=
  match t with NULL => Some (trace, path) | _ => s ← chk32 (sum - v); R t trace s path end.

Lemma R_node v l r trace sum path :
  ~ (l = NULL /\ r = NULL) ->
  R (Node v l r) trace sum path =
  ('(trace, path) ← visit l v (trace ++ [v]) sum path;
   '(trace, path) ← visit r v trace sum path;
   Some (removelast trace, path)).
Proof. intros Hn. destruct l, r; try done. by destruct Hn. Qed.

Lemma path_R_spec t trace sum path :
  t <> NULL -> Z.abs sum + weight t <= 2147483647 ->
  R t trace sum path = Some (trace, path ++ (app trace <$> with_sum sum (leaf_paths t))).
Proof.
  revert trace sum path. induction t as [|v l IHl r IHr]; [done|].
  intros trace sum path _ Hw. cbn [weight] in Hw.
  pose proof (weight_nonneg l). pose proof (weight_nonneg r).
  destruct (decide (l = NULL /\ r = NULL)) as [[-> ->]|Hn].
  { rewrite with_sum_leaf. simpl R. case_bool; simpl; by rewrite ?app_nil_r. }
  rewrite leaf_paths_node by (destruct (decide (l = NULL)); naive_solver).
  rewrite with_sum_cons, with_sum_app.
  assert (forall trace path, visit l v trace sum path = Some (trace, path ++ (app trace <$> with_sum (sum - v) (leaf_paths l)))) as El.
  { intros. destruct l; [by rewrite app_nil_r|]. unfold visit. rewrite chk32_ok by lia. apply IHl; [done|lia]. }
  assert (forall trace path, visit r v trace sum path = Some (trace, path ++ (app trace <$> with_sum (sum - v) (leaf_paths r)))) as Er.
  { intros. destruct r; [by rewrite app_nil_r|]. unfold visit. rewrite chk32_ok by lia. apply IHr; [done|lia]. }
  rewrite R_node by done. simpl. rewrite El. simpl. rewrite Er. simpl.
  by rewrite removelast_last, <- (assoc_L (++)), <- fmap_app, fmap_app_snoc.
Qed.


Definition visit_has (t : TreeNode) v sum :=
  match t with NULL => Some false | _ => s ← chk32 (sum - v); has t s end.

Lemma has_node v l r sum :
  ~ (l = NULL /\ r = NULL) ->
  has (Node v l r) sum =
  (b ← visit_has l v sum; if b : bool then Some true else visit_has r v sum).
Proof. intros Hn. destruct l, r; try done. by destruct Hn. Qed.

Lemma has_spec t sum :
  t <> NULL -> Z.abs sum + weight t <= 2147483647 ->
  has t sum = Some (negb (bool_decide (with_sum sum (leaf_paths t) = []))).
Proof.
  revert sum. induction t as [|v l IHl r IHr]; [done|].
  intros sum _ Hw. cbn [weight] in Hw. pose proof (weight_nonneg l). pose proof (weight_nonneg r).
  destruct (decide (l = NULL /\ r = NULL)) as [[-> ->]|Hn].
  { rewrite with_sum_leaf. simpl has. by case_bool. }
  rewrite leaf_paths_node by (destruct (decide (l = NULL)); naive_solver).
  rewrite with_sum_cons, with_sum_app, has_node by done.
  assert (visit_has l v sum =
    Some (negb (bool_decide (with_sum (sum - v) (leaf_paths l) = [])))) as ->.
  { destruct l; [done|]. unfold visit_has. rewrite chk32_ok by lia. apply IHl; [done|lia]. }
  assert (visit_has r v sum =
    Some (negb (bool_decide (with_sum (sum - v) (leaf_paths r) = [])))) as ->.
  { destruct r; [done|]. unfold visit_has. rewrite chk32_ok by lia. apply IHr; [done|lia]. }
  simpl. by destruct (with_sum _ (leaf_paths l)), (with_sum _ (leaf_paths r)).
Qed.

(** pathSum lists exactly the paths from the root to a leaf that have the given
    sum, from left to right, and hasPathSum answers whether there is one. *)
Lemma pathSum_leaf_paths t sum :
  Z.abs sum + weight t <= 2147483647 ->
  pathSum t sum = Some (with_sum sum (leaf_paths t)) /\
  hasPathSum t sum = Some (negb (bool_decide (with_sum sum (leaf_paths t) = []))).
Proof.
  intros Hw. destruct (decide (t = NULL)) as [->|Hn]; [done|]. split.
  - transitivity ('(_, path) ← R t [] sum []; Some path); [by destruct t|].
    rewrite path_R_spec by done. simpl. f_equal. by rewrite list_fmap_id.
  - rewrite <- has_spec by done. by destruct t.
Qed.

(** src/code/leetcode/sum-root-to-leaf-numbers.cc:32-44 [Solution::R] *)
Fixpoint numbers (v : Z) (node : TreeNode) (sum : Z) : option Z :=
  match node with
  | NULL => None
  | Node val tl tr =>
      v10 ← chk32 (v * 10);
      v ← chk32 (v10 + val);
      match tl, tr with
      | NULL, NULL => chk32 (sum + v)
      | _, _ =>
          sum ← match tl with NULL => Some sum | _ => numbers v tl sum end;
          match tr with NULL => Some sum | _ => numbers v tr sum end
      end
  end.

(** src/code/leetcode/sum-root-to-leaf-numbers.cc:21-30 [Solution::sumNumbers] *)
Definition sumNumbers (root : TreeNode) : option Z :=
  match root with NULL => Some 0 | _ => numbers 0 root 0 end.

(** The digits of a path, read in base ten. *)
Definition number (v : Z) (p : list Z) : Z := foldl (fun v d => v * 10 + d) v p.
Definition numbers_total (v : Z) (ps : list (list Z)) : Z := total (number v <$> ps).

Fixpoint digits (t : TreeNode) : Prop :=
  match t with NULL => True | Node d l r => 0 <= d <= 9 /\ digits l /\ digits r end.

Lemma total_app p q : total (p ++ q) = total p + total q.
Proof. induction p as [|v p IH]; simpl; [done|]. rewrite IH. lia. Qed.

Lemma numbers_total_app v ps qs : numbers_total v (ps ++ qs) = numbers_total v ps + numbers_total v qs.
Proof. unfold numbers_total. by rewrite fmap_app, total_app. Qed.

Lemma numbers_total_cons v d ps : numbers_total v (cons d <$> ps) = numbers_total (v * 10 + d) ps.
Proof. unfold numbers_total. by rewrite <- list_fmap_compose. Qed.

(** A number is no smaller than any of its prefixes. *)
Lemma numbers_total_ge t v :
  0 <= v -> digits t -> t <> NULL -> v * 10 <= numbers_total v (leaf_paths t).
Proof.
  revert v. induction t as [|d l IHl r IHr]; [done|]. intros v Hv (Hd & Dl & Dr) _.
  destruct (decide (l = NULL /\ r = NULL)) as [[-> ->]|Hn]; [cbn; lia|].
  rewrite leaf_paths_node by (destruct (decide (l = NULL)); naive_solver).
  rewrite numbers_total_cons, numbers_total_app.
  specialize (IHl (v * 10 + d) ltac:(lia) Dl). specialize (IHr (v * 10 + d) ltac:(lia) Dr).
  destruct (decide (l = NULL)) as [->|Hl], (decide (r = NULL)) as [->|Hr];
    [naive_solver|specialize (IHr Hr)|specialize (IHl Hl)|specialize (IHl Hl); specialize (IHr Hr)];
    unfold numbers_total in *; simpl in *; lia.
Qed.

Lemma numbers_total_pos t v : 0 <= v -> digits t -> 0 <= numbers_total v (leaf_paths t).
Proof.
  intros Hv Hd. destruct (decide (t = NULL)) as [->|Hn]; [done|].
  pose proof (numbers_total_ge t v Hv Hd Hn). lia.
Qed.

Definition visit_number (t : TreeNode) v sum :=
  match t with NULL => Some sum | _ => numbers v t sum end.

Lemma numbers_spec t v sum :
  t <> NULL -> digits t -> 0 <= v -> 0 <= sum ->
  sum + numbers_total v (leaf_paths t) <= 2147483647 ->
  numbers v t sum = Some (sum + numbers_total v (leaf_paths t)).
Proof.
  revert v sum. induction t as [|d l IHl r IHr]; [done|]. intros v sum _ (Hd & Dl & Dr) Hv Hs.
  destruct (decide (l = NULL /\ r = NULL)) as [[-> ->]|Hn].
  { cbn. intros Hb. ok32. f_equal. lia. }
  rewrite leaf_paths_node by (destruct (decide (l = NULL)); naive_solver).
  rewrite numbers_total_cons, numbers_total_app. intros Hb.
  pose proof (numbers_total_pos l (v * 10 + d) ltac:(lia) Dl).
  pose proof (numbers_total_pos r (v * 10 + d) ltac:(lia) Dr).
  assert (v * 10 + d <= 2147483647).
  { destruct (decide (l = NULL)) as [->|Hl]; [assert (r <> NULL) as Hr by naive_solver|].
    - pose proof (numbers_total_ge r (v * 10 + d) ltac:(lia) Dr Hr). lia.
    - pose proof (numbers_total_ge l (v * 10 + d) ltac:(lia) Dl Hl). lia. }
  transitivity (sum ← visit_number l (v * 10 + d) sum; visit_number r (v * 10 + d) sum).
  { cbn [numbers]. ok32. destruct l, r; try done. by destruct Hn. }
  assert (forall s, 0 <= s -> s + numbers_total (v * 10 + d) (leaf_paths l) <= 2147483647 ->
    visit_number l (v * 10 + d) s = Some (s + numbers_total (v * 10 + d) (leaf_paths l))) as El.
  { intros s Hs' Hb'. destruct l; [by rewrite Z.add_0_r|]. apply IHl; done || lia. }
  assert (forall s, 0 <= s -> s + numbers_total (v * 10 + d) (leaf_paths r) <= 2147483647 ->
    visit_number r (v * 10 + d) s = Some (s + numbers_total (v * 10 + d) (leaf_paths r))) as Er.
  { intros s Hs' Hb'. destruct r; [by rewrite Z.add_0_r|]. apply IHr; done || lia. }
  rewrite El by lia. simpl mbind. rewrite Er by lia. f_equal. lia.
Qed.

(** sumNumbers adds up the numbers whose decimal digits the paths from the root
    to a leaf spell, as long as an [int] holds the sum. *)
Lemma sumNumbers_total t :
  digits t -> numbers_total 0 (leaf_paths t) <= 2147483647 ->
  sumNumbers t = Some (numbers_total 0 (leaf_paths t)).
Proof.
  intros Hd Hb. destruct (decide (t = NULL)) as [->|Hn]; [done|].
  transitivity (numbers 0 t 0); [by destruct t|]. by apply (numbers_spec t 0 0).
Qed.

End PathSum.

(** ** construct-binary-tree-from-{preorder-and-inorder,inorder-and-postorder}-traversal.cc *)
Module Construct.

(** The search for the root in [inorder], of [n] rounds at most.

    src/code/leetcode/construct-binary-tree-from-preorder-and-inorder-traversal.cc:33-36 [Solution::R] *)
Fixpoint seek (n : nat) (inorder : list Z) (i x : Z) : option Z :=
  match n with
  | O => Some i
  | S n => y ← arr_get inorder i; if y =? x then Some i else seek n inorder (i + 1) x
  end.

(** [vec.size() - 1], passed as an [int]. *)
Definition last_index {A} (vec : list A) : Z := s32 (u64 (size vec - 1)).

Module PreIn.
(** [fuel] bounds the depth of the recursion; that of the call is the length.

    src/code/leetcode/construct-binary-tree-from-preorder-and-inorder-traversal.cc:28-41 [Solution::R] *)
Fixpoint R (fuel : nat) (preorder : list Z) (ps pe : Z) (inorder : list Z) (is_ ie : Z)
    : option TreeNode :=
  if pe <? ps then Some NULL
  else if ps =? pe then v ← arr_get preorder ps; Some (leaf v)
  else match fuel with
  | O => None
  | S fuel =>
      x ← arr_get preorder ps;
      i ← seek (Z.to_nat (ie - is_ + 1)) inorder is_ x;
      l ← R fuel preorder (ps + 1) ((i - is_) + ps) inorder is_ (i - 1);
      r ← R fuel preorder ((i - is_) + ps + 1) pe inorder (i + 1) ie;
      Some (Node x l r)
  end.

(** src/code/leetcode/construct-binary-tree-from-preorder-and-inorder-traversal.cc:24-27 [Solution::buildTree] *)
Definition buildTree (preorder inorder : list Z) : option TreeNode :=
  R (length preorder) preorder 0 (last_index preorder) inorder 0 (last_index inorder).
End PreIn.

Module InPost.
(** src/code/leetcode/construct-binary-tree-from-inorder-and-postorder-traversal.cc:28-41 [Solution::R] *)
Fixpoint R (fuel : nat) (inorder : list Z) (is_ ie : Z) (postorder : list Z) (ps pe : Z)
    : option TreeNode :=
  if pe <? ps then Some NULL
  else if ps =? pe then v ← arr_get postorder ps; Some (leaf v)
  else match fuel with
  | O => None
  | S fuel =>
      x ← arr_get postorder pe;
      i ← seek (Z.to_nat (ie - is_ + 1)) inorder is_ x;
      l ← R fuel inorder is_ (i - 1) postorder ps ((i - is_) + ps - 1);
      r ← R fuel inorder (i + 1) ie postorder ((i - is_) + ps) (pe - 1);
      Some (Node x l r)
  end.

(** src/code/leetcode/construct-binary-tree-from-inorder-and-postorder-traversal.cc:24-27 [Solution::buildTree] *)
Definition buildTree (inorder postorder : list Z) : option TreeNode :=
  R (length postorder) inorder 0 (last_index inorder) postorder 0 (last_index postorder).
End InPost.

Lemma last_index_eq {A} (vec : list A) : size vec < 2147483648 -> last_index vec = size vec - 1.
Proof.
  intros. unfold last_index. destruct vec as [|x vec]; [done|].
  rewrite u64_id, s32_id; simpl in *; lia.
Qed.

Lemma seek_found n (c xs ys : list Z) x :
  x ∉ xs -> (length xs < n)%nat ->
  seek n (c ++ xs ++ x :: ys) (size c) x = Some (size c + size xs).
Proof.
  revert n c. induction xs as [|y xs IH]; intros [|n] c Hx Hn; simpl in *; try lia.
  - rewrite arr_get_app. simpl. rewrite Z.eqb_refl. f_equal. lia.
  - rewrite arr_get_app. simpl. apply not_elem_of_cons in Hx as [Hy Hx].
    zfalse (y =? x). specialize (IH n (c ++ [y]) Hx ltac:(lia)).
    rewrite length_app in IH. simpl in IH. rewrite <- (assoc_L (++)) in IH. simpl in IH.
    replace (size c + 1) with (Z.of_nat (length c + 1)) by lia. rewrite IH. f_equal. lia.
Qed.

Lemma nodes_one t : nodes t = 1 -> exists v, t = leaf v.
Proof.
  destruct t as [|v l r]; [done|]. rewrite nodes_node. intros Hn. exists v. f_equal.
  - destruct l; [done|rewrite nodes_node in Hn; lia].
  - destruct r; [done|rewrite nodes_node in Hn; lia].
Qed.

Lemma nodes_zero t : nodes t = 0 -> t = NULL.
Proof. destruct t; [done|]. rewrite nodes_node. lia. Qed.

Lemma PreIn_R t fuel (a b c d : list Z) :
  NoDup (inorder t) -> nodes t <= Z.of_nat fuel ->
  PreIn.R fuel (a ++ preorder t ++ b) (size a) (size a + nodes t - 1)
    (c ++ inorder t ++ d) (size c) (size c + nodes t - 1) = Some t.
Proof.
  revert fuel a b c d. induction t as [|v l IHl r IHr]; intros fuel a b c d Hd Hf.
  { destruct fuel; simpl PreIn.R; case_bool; [done|zb|done|zb]. }
  destruct (decide (nodes (Node v l r) = 1)) as [H1|H1].
  { destruct (nodes_one _ H1) as [w [= -> -> ->]].
    destruct fuel; simpl PreIn.R; case_bool; [zb| |zb|]; case_bool; [|zb| |zb];
      simpl; by rewrite arr_get_app. }
  cbn [inorder] in Hd. apply NoDup_app in Hd as (Dl & Hlr & [Hv Dr]%NoDup_cons).
  rewrite nodes_node in *. destruct fuel as [|fuel]; [lia|].
  cbn [PreIn.R inorder preorder].
  zfalse (size a + (nodes l + nodes r + 1) - 1 <? size a).
  zfalse (size a =? size a + (nodes l + nodes r + 1) - 1).
  rewrite <- !(assoc_L (++)), <- !app_comm_cons, arr_get_app. simpl mbind.
  rewrite seek_found; [|by intros Hi%Hlr; destruct Hi; left|lia]. simpl mbind.
  replace (PreIn.R fuel _ (size a + 1) _ _ _ _) with (Some l); [simpl mbind|].
  replace (PreIn.R fuel _ _ _ _ _ _) with (Some r); [done|].
  - rewrite <- (IHr fuel (a ++ v :: preorder l) b (c ++ inorder l ++ [v]) d) by (done || lia).
    rewrite !length_app. simpl length. rewrite <- !(assoc_L (++)). simpl app.
    pose proof (size_preorder l). f_equal; lia.
  - rewrite <- (IHl fuel (a ++ [v]) (preorder r ++ b) c (v :: inorder r ++ d)) by (done || lia).
    rewrite !length_app. simpl length. rewrite <- !(assoc_L (++)). simpl app. f_equal; lia.
Qed.

Lemma InPost_R t fuel (a b c d : list Z) :
  NoDup (inorder t) -> nodes t <= Z.of_nat fuel ->
  InPost.R fuel (c ++ inorder t ++ d) (size c) (size c + nodes t - 1)
    (a ++ postorder t ++ b) (size a) (size a + nodes t - 1) = Some t.
Proof.
  revert fuel a b c d. induction t as [|v l IHl r IHr]; intros fuel a b c d Hd Hf.
  { destruct fuel; simpl InPost.R; case_bool; [done|zb|done|zb]. }
  destruct (decide (nodes (Node v l r) = 1)) as [H1|H1].
  { destruct (nodes_one _ H1) as [w [= -> -> ->]].
    destruct fuel; simpl InPost.R; case_bool; [zb| |zb|]; case_bool; [|zb| |zb];
      simpl; by rewrite arr_get_app. }
  cbn [inorder] in Hd. apply NoDup_app in Hd as (Dl & Hlr & [Hv Dr]%NoDup_cons).
  rewrite nodes_node in *. destruct fuel as [|fuel]; [lia|].
  pose proof (size_postorder l). pose proof (size_postorder r).
  cbn [InPost.R inorder postorder].
  zfalse (size a + (nodes l + nodes r + 1) - 1 <? size a).
  zfalse (size a =? size a + (nodes l + nodes r + 1) - 1).
  rewrite (arr_get_mid (a ++ postorder l ++ postorder r) b _ v); [simpl mbind| |].
  2: { by rewrite <- !(assoc_L (++)). }
  2: { rewrite !length_app. lia. }
  rewrite <- !(assoc_L (++)), <- !app_comm_cons.
  rewrite seek_found; [|by intros Hi%Hlr; destruct Hi; left|lia]. simpl mbind.
  replace (InPost.R fuel _ (size c) _ _ _ _) with (Some l); [simpl mbind|].
  replace (InPost.R fuel _ _ _ _ _ _) with (Some r); [done|].
  - rewrite <- (IHr fuel (a ++ postorder l) ([v] ++ b) (c ++ inorder l ++ [v]) d) by (done || lia).
    rewrite !length_app. simpl length. rewrite <- !(assoc_L (++)). simpl app. f_equal; lia.
  - rewrite <- (IHl fuel a (postorder r ++ [v] ++ b) c (v :: inorder r ++ d)) by (done || lia).
    f_equal; lia.
Qed.

(** C35: A tree with distinct values is rebuilt from its preorder and inorder
    traversals, and from its inorder and postorder traversals, with as many
    nested calls as it has nodes at most. *)
Theorem buildTree_traversals t :
  NoDup (inorder t) -> nodes t < 2147483648 ->
  PreIn.buildTree (preorder t) (inorder t) = Some t /\
  InPost.buildTree (inorder t) (postorder t) = Some t.
Proof.
  intros Hd Hn. pose proof (size_preorder t). pose proof (size_postorder t).
  unfold PreIn.buildTree, InPost.buildTree. rewrite !last_index_eq by lia. split.
  - rewrite <- (PreIn_R t (length (preorder t)) [] [] [] []) at 1 by (done || lia).
    simpl. rewrite !app_nil_r. f_equal; lia.
  - rewrite <- (InPost_R t (length (postorder t)) [] [] [] []) at 1 by (done || lia).
    simpl. rewrite !app_nil_r. f_equal; lia.
Qed.

Lemma buildTree_traversals_witness :
  let t := Node 3 (leaf 9) (Node 20 (leaf 15) (leaf 7)) in
  NoDup (inorder t) /\ nodes t < 2147483648 /\
  PreIn.buildTree [3; 9; 20; 15; 7] [9; 3; 15; 20; 7] = Some t /\
  InPost.buildTree [9; 3; 15; 20; 7] [9; 15; 7; 20; 3] = Some t.
Proof.
  intros t. assert (NoDup (inorder t)) as Hd by exact (bool_decide_unpack (NoDup (inorder t)) I).
  split; [done|]. split; [done|]. by apply (buildTree_traversals t).
Defined.

(** A duplicate finds the wrong root in [inorder]; a value that is missing there
    sends the recursion past the end of the vectors. *)
Example buildTree_duplicate :
  PreIn.buildTree [1; 1] [1; 1] = Some (Node 1 NULL (leaf 1)) /\
  PreIn.buildTree (preorder (Node 1 (leaf 1) NULL)) (inorder (Node 1 (leaf 1) NULL)) <>
    Some (Node 1 (leaf 1) NULL) /\
  PreIn.buildTree [5; 6] [7; 6] = None.
Proof. by vm_compute. Qed.

End Construct.

(** ** convert-sorted-array-to-binary-search-tree.cc *)
Module SortedArray.

(** src/code/leetcode/convert-sorted-array-to-binary-search-tree.cc:31-43 [Solution::R] *)
Fixpoint R (fuel : nat) (num : list Z) (s e : Z) : option TreeNode :=
  if e <? s then Some NULL
  else if e =? s then v ← arr_get num s; Some (leaf v)
  else match fuel with
  | O => None
  | S fuel =>
      es ← chk32 (e + s);
      let n := Z.quot es 2 in
      v ← arr_get num n;
      l ← R fuel num s (n - 1);
      r ← R fuel num (n + 1) e;
      Some (Node v l r)
  end.

(** src/code/leetcode/convert-sorted-array-to-binary-search-tree.cc:24-30 [Solution::sortedArrayToBST] *)
Definition sortedArrayToBST (num : list Z) : option TreeNode :=
  if size num =? 0 then Some NULL else R (length num) num 0 (Construct.last_index num).

(** The height of a tree of [k] nodes filled level by level. *)
Definition full_height (k : Z) : Z := Z.log2 (2 * k + 1).

Lemma full_height_half k : 1 <= k -> full_height k = 1 + full_height (k / 2).
Proof.
  intros Hk. unfold full_height. rewrite Z.log2_succ_double by lia.
  destruct (decide (k = 1)) as [->|Hne]; [done|].
  pose proof (Z.div_mod k 2 ltac:(lia)) as Hd. pose proof (Z.mod_pos_bound k 2 ltac:(lia)).
  set (q := k / 2) in *. clearbody q. assert (0 < q) by lia. rewrite Z.log2_succ_double by lia.
  assert (k = 2 * q \/ k = 2 * q + 1) as [->| ->] by lia.
  - rewrite Z.log2_double; lia.
  - rewrite Z.log2_succ_double; lia.
Qed.

Lemma full_height_succ k : 0 <= k -> full_height k <= full_height (k + 1) <= full_height k + 1.
Proof.
  intros Hk. unfold full_height. split; [apply Z.log2_le_mono; lia|].
  destruct (decide (k = 0)) as [->|]; [done|].
  rewrite !Z.log2_succ_double by lia. pose proof (Z.log2_succ_le k) as H. rewrite <- Z.add_1_r in H. lia.
Qed.

Lemma sorted_R_spec xs fuel (a b : list Z) :
  size a + size xs <= 1073741824 -> (length xs <= fuel)%nat ->
  exists t, R fuel (a ++ xs ++ b) (size a) (size a + size xs - 1) = Some t /\
    inorder t = xs /\ Balanced.balanced t /\ Balanced.height t = full_height (size xs).
Proof.
  remember (length xs) as k eqn:Hk. revert xs fuel a b Hk.
  induction k as [k IH] using lt_wf_ind. intros xs fuel a b Hk Hn Hf.
  destruct xs as [|x [|y xs]].
  { subst k. exists NULL. split_and!; [|done|constructor|done].
    destruct fuel; simpl R; case_bool; [done|simpl in *; zb|done|simpl in *; zb]. }
  { subst k. exists (leaf x). split_and!; [|done|by repeat constructor|done].
    simpl length. simpl app.
    destruct fuel; simpl R; case_bool; [zb| |zb|]; case_bool; [|zb| |zb]; by rewrite arr_get_app. }
  destruct fuel as [|fuel]; [simpl in Hk; lia|].
  assert (exists ls v rs, x :: y :: xs = ls ++ v :: rs /\ size ls = (size (y :: xs)) / 2)
    as (ls & v & rs & E & Els).
  { set (k2 := Nat.div (length (y :: xs)) 2).
    assert (k2 <= length (y :: xs))%nat by (apply Nat.Div0.div_le_upper_bound; simpl; lia).
    destruct (lookup_lt_is_Some_2 (x :: y :: xs) k2) as [v Hv]; [simpl in *; lia|].
    exists (take k2 (x :: y :: xs)), v, (drop (S k2) (x :: y :: xs)).
    split; [by rewrite take_drop_middle|]. rewrite length_take_le by (simpl in *; lia).
    unfold k2. by rewrite Nat2Z.inj_div. }
  assert (size (y :: xs) = size ls + size rs) as Hs.
  { apply (f_equal length) in E. rewrite length_app in E. simpl in *. lia. }
  rewrite Hs in Els. rewrite E in Hk |- *.
  assert (0 < size ls + size rs) by (rewrite <- Hs; simpl; lia). clear Hs E x y xs.
  rewrite length_app in Hk. cbn [length] in Hk.
  destruct (IH (length ls) ltac:(lia) ls fuel a (v :: rs ++ b)) as (l & El & Il & Bl & Hl); [lia..|].
  destruct (IH (length rs) ltac:(lia) rs fuel (a ++ ls ++ [v]) b) as (r & Er & Ir & Br & Hr);
    [rewrite ?length_app; simpl; lia..|].
  rewrite !length_app in Er. simpl length in Er. rewrite <- !(assoc_L (++)) in *.
  exists (Node v l r). split.
  - cbn [R]. zfalse (size a + Z.of_nat k - 1 <? size a).
    zfalse (size a + Z.of_nat k - 1 =? size a). rewrite chk32_ok by lia. simpl mbind.
    replace (Z.quot _ 2) with (size a + size ls).
    2: { rewrite Z.quot_div_nonneg by lia. dlia. }
    rewrite (arr_get_mid (a ++ ls) (rs ++ b) _ v); [simpl mbind| |rewrite length_app; lia].
    2: { by rewrite <- !(assoc_L (++)). }
    rewrite El. simpl mbind.
    replace (R fuel _ _ _) with (Some r); [done|]. rewrite <- Er. simpl. f_equal; lia.
  - simpl. rewrite Il, Ir, Hl, Hr. split; [done|].
    assert (Z.of_nat k / 2 = size rs) as E2 by dlia.
    rewrite (full_height_half (Z.of_nat k)), E2 by lia.
    assert (size rs = size ls \/ size rs = size ls + 1) as Hd by dlia.
    pose proof (full_height_succ (size ls) ltac:(lia)).
    split; [constructor; [done..|]|]; rewrite ?Hl, ?Hr; destruct Hd as [-> | ->]; lia.
Qed.

(** From a sorted array of distinct values sortedArrayToBST makes a balanced
    search tree with exactly these values; the midpoint [(e + s) / 2] does not
    overflow up to 2^30 values. *)
Theorem sortedArrayToBST_spec num :
  StronglySorted Z.lt num -> size num <= 1073741824 ->
  exists t, sortedArrayToBST num = Some t /\ inorder t = num /\
    ValidBST.isValidBST t = Some true /\ Balanced.isBalanced t = Some true.
Proof.
  intros Hs Hn. destruct (sorted_R_spec num (length num) [] []) as (t & E & Hi & Hb & _); [simpl; lia..|].
  exists t. split; [|split; [done|]].
  - unfold sortedArrayToBST. rewrite Construct.last_index_eq by lia.
    rewrite app_nil_r in E. simpl in E. destruct num; [|exact E].
    simpl in E. by injection E as <-.
  - destruct (ValidBST.isValidBST_spec t) as (b & -> & Hv). rewrite Hi in Hv.
    rewrite (proj2 Hv Hs). split; [done|].
    destruct (Balanced.isBalanced_balanced t) as (b' & -> & Hb'); [rewrite Hi; lia|].
    by rewrite (proj2 Hb' Hb).
Qed.

Lemma sortedArrayToBST_spec_witness :
  let num := [-10; -3; 0; 5; 9] in
  StronglySorted Z.lt num /\ size num <= 1073741824 /\
  exists t, sortedArrayToBST num = Some t /\ inorder t = num /\
    ValidBST.isValidBST t = Some true /\ Balanced.isBalanced t = Some true.
Proof.
  intros num. assert (StronglySorted Z.lt num) as Hs.
  { repeat (constructor; [|repeat (constructor; [done|]); constructor]). constructor. }
  split; [done|]. split; [by vm_compute|]. by apply (sortedArrayToBST_spec num).
Defined.

End SortedArray.

(** ** unique-binary-search-trees.cc, unique-binary-search-trees-2.cc *)
Module Unique.

(** The loops over [i], [u] and [v] are binds of lists. The depth of the recursion
    is bounded by the number of keys.

    src/code/leetcode/unique-binary-search-trees-2.cc:29-50 [Solution::R] *)
Fixpoint R (fuel : nat) (s e : Z) : list TreeNode :=
  if e <? s then [NULL]
  else if s =? e then [leaf s]
  else match fuel with
  | O => []
  | S fuel => i ← upto s e; u ← R fuel s (i - 1); v ← R fuel (i + 1) e; [Node i u v]
  end.

(** src/code/leetcode/unique-binary-search-trees-2.cc:24-27 [Solution::generateTrees] *)
Definition generateTrees (n : Z) : list TreeNode := R (Z.to_nat n) 1 n.

(** src/code/leetcode/unique-binary-search-trees.cc:6-19 [Solution::numTrees] *)
Definition numTrees (n : Z) : option Z :=
  let N := n in
  if N + 1 <=? 0 then None else
  let dp := replicate (Z.to_nat (N + 1)) 0 in
  dp ← arr_set dp 0 1;
  dp ← arr_set dp 1 1;
  dp ← for_ (upto 2 N) (fun i dp =>
    for_ (upto 1 i) (fun j dp =>
      d ← arr_get dp i; l ← arr_get dp (j - 1); r ← arr_get dp (i - j);
      p ← chk32 (l * r); d ← chk32 (d + p);
      arr_set dp i d) dp) dp;
  arr_get dp N.

(** A split of an interval at one of its members. *)
Lemma upto_split xs i ys s e :
  xs ++ i :: ys = upto s e <-> s <= i <= e /\ xs = upto s (i - 1) /\ ys = upto (i + 1) e.
Proof.
  split.
  - intros E. assert (i ∈ upto s e) as Hi by (rewrite <- E, elem_of_app; right; left).
    apply elem_of_upto in Hi. split; [done|].
    rewrite (upto_app s (i - 1) e), Z.sub_add, (upto_cons i) in E by lia.
    assert (length xs = length (upto s (i - 1))) as Hl.
    { destruct (lookup_seqZ s (e - s + 1) (length xs) i) as [H _].
      fold (upto s e) in H. rewrite (upto_app s (i - 1) e), Z.sub_add, (upto_cons i), <- E in H by lia.
      rewrite length_upto. destruct H as [H _]; [by apply list_lookup_middle|lia]. }
    by apply app_inj_1 in E as [-> [= ->]].
  - intros (Hi & -> & ->). rewrite (upto_app s (i - 1) e), Z.sub_add by lia. by rewrite (upto_cons i e) by lia.
Qed.

Lemma R_enough fuel s e t : e - s + 1 <= Z.of_nat fuel -> t ∈ R fuel s e <-> inorder t = upto s e.
Proof.
  revert s e t. induction fuel as [|fuel IH]; intros s e t Hf.
  { simpl. ztrue (e <? s). rewrite upto_nil by lia. rewrite list_elem_of_singleton.
    split; [by intros ->|]. destruct t; [done|]. intros E. by apply app_nil in E as [_ ?]. }
  cbn [R]. destruct (Z.ltb_spec e s).
  { rewrite upto_nil by lia. rewrite list_elem_of_singleton.
    split; [by intros ->|]. destruct t; [done|]. intros E. by apply app_nil in E as [_ ?]. }
  destruct (Z.eqb_spec s e) as [->|].
  { rewrite list_elem_of_singleton, upto_cons, upto_nil by lia. split; [by intros ->|].
    intros E. destruct (Construct.nodes_one t) as [v ->]; [by rewrite E|]. simpl in E. congruence. }
  rewrite list_elem_of_bind. split.
  - intros (i & (u & (v & ->%list_elem_of_singleton & Hv)%list_elem_of_bind & Hu)%list_elem_of_bind & Hi).
    apply elem_of_upto in Hi. apply IH in Hv; [|lia]. apply IH in Hu; [|lia].
    simpl. by apply upto_split.
  - destruct t as [|i l r]; simpl.
    { rewrite upto_cons by lia. done. }
    intros (Hi & Hl & Hr)%upto_split. exists i. split; [|by apply elem_of_upto].
    apply list_elem_of_bind. exists l. split; [|apply IH; [lia|done]].
    apply list_elem_of_bind. exists r. split; [by left|apply IH; [lia|done]].
Qed.

Lemma R_NoDup fuel s e : NoDup (R fuel s e).
Proof.
  revert s e. induction fuel as [|fuel IH]; intros s e; cbn [R];
    repeat case_bool; try apply NoDup_singleton; [constructor|].
  apply NoDup_bind; [|intros i _; apply NoDup_bind; [|intros u _; apply NoDup_bind|]|apply NoDup_upto];
    try apply IH; try (intros; apply NoDup_singleton).
  - intros i j t _ _. rewrite !list_elem_of_bind.
    intros (u & (v & ->%list_elem_of_singleton & _)%list_elem_of_bind & _)
      (u' & (v' & Et%list_elem_of_singleton & _)%list_elem_of_bind & _). congruence.
  - intros u u' t _ _. rewrite !list_elem_of_bind.
    intros (v & ->%list_elem_of_singleton & _) (v' & Et%list_elem_of_singleton & _). congruence.
  - intros v v' t _ _ ->%list_elem_of_singleton Et%list_elem_of_singleton. congruence.
Qed.

(** *** The number of trees *)

(** The Catalan numbers below [n], the last one first. *)
Fixpoint catalans (n : nat) : list Z :=
  match n with
  | O => [1]
  | S n => let c := catalans n in PathSum.total (zip_with Z.mul c (reverse c)) :: c
  end.
Definition catalan (k : Z) : Z := hd 0 (catalans (Z.to_nat k)).

Lemma size_bind {A B} (f : A -> list B) l : size (l ≫= f) = PathSum.total ((fun x => size (f x)) <$> l).
Proof. induction l as [|x l IH]; [done|]. cbn. rewrite length_app. rewrite <- IH. lia. Qed.

Lemma size_bind_const {A B} (f : A -> list B) l n :
  (forall x, x ∈ l -> size (f x) = n) -> size (l ≫= f) = size l * n.
Proof.
  induction l as [|x l IH]; intros H; [done|]. cbn -[Z.mul]. rewrite length_app.
  pose proof (H x ltac:(by left)). rewrite Nat2Z.inj_add, IH by (intros; apply H; by right). lia.
Qed.

Lemma length_catalans n : length (catalans n) = S n.
Proof. induction n as [|n IH]; simpl; [done|]. by rewrite IH. Qed.

Lemma lookup_catalans n (j : nat) : (j <= n)%nat -> catalans n !! j = Some (catalan (Z.of_nat (n - j))).
Proof.
  revert j. induction n as [|n IH]; intros j Hj; [by replace j with 0%nat by lia|].
  destruct j as [|j]; [unfold catalan; by rewrite Nat2Z.id|].
  change (catalans (S n) !! S j) with (catalans n !! j). rewrite IH by lia. by rewrite Nat.sub_succ.
Qed.

Lemma catalan_succ s e :
  s <= e ->
  catalan (e - s + 1) = PathSum.total ((fun i => catalan (i - s) * catalan (e - i)) <$> upto s e).
Proof.
  intros Hse. remember (Z.to_nat (e - s)) as n eqn:Hn.
  replace (e - s + 1) with (Z.of_nat (S n)) by lia.
  unfold catalan at 1. rewrite Nat2Z.id. simpl catalans. simpl hd.
  f_equal. apply list_eq. intros j. rewrite lookup_zip_with, list_lookup_fmap.
  pose proof (length_catalans n) as Hl.
  destruct (decide (j <= n)%nat) as [Hj|Hj].
  - rewrite reverse_lookup, !lookup_catalans by lia. unfold upto. rewrite lookup_seqZ_lt by lia. simpl.
    rewrite Hl, Z.mul_comm. do 3 f_equal; lia.
  - rewrite (lookup_ge_None_2 (catalans n)), (lookup_ge_None_2 (upto s e)) by (rewrite ?length_upto; lia).
    done.
Qed.

Lemma R_catalan fuel s e : -1 <= e - s <= Z.of_nat fuel - 1 -> size (R fuel s e) = catalan (e - s + 1).
Proof.
  revert s e. induction fuel as [|fuel IH]; intros s e Hf; cbn [R].
  { ztrue (e <? s). by replace (e - s + 1) with 0 by lia. }
  case_bool; [by replace (e - s + 1) with 0 by zb|]. case_bool; [by replace (e - s + 1) with 1 by zb|].
  zbool. rewrite size_bind, catalan_succ by lia. f_equal. apply list_fmap_ext.
  intros k i Hk. apply list_elem_of_lookup_2, elem_of_upto in Hk.
  replace (catalan (i - s)) with (size (R fuel s (i - 1))) by (rewrite IH by lia; f_equal; lia).
  apply size_bind_const. intros u _.
  replace (e - i) with (e - (i + 1) + 1) by lia. rewrite <- IH by lia.
  rewrite (size_bind_const _ _ 1) by done. lia.
Qed.

Lemma numTrees_catalan n : 1 <= n <= 19 -> numTrees n = Some (catalan n).
Proof.
  intros Hn. assert (forall k, (k < 19)%nat ->
    bool_decide (numTrees (Z.of_nat k + 1) = Some (catalan (Z.of_nat k + 1))) = true) as H.
  { apply forallb_seq. by vm_compute. }
  specialize (H (Z.to_nat (n - 1)) ltac:(lia)). apply bool_decide_eq_true in H.
  by replace (Z.of_nat (Z.to_nat (n - 1)) + 1) with n in H by lia.
Qed.

(** generateTrees returns each search tree over the keys 1 to n exactly once,
    and numTrees is their number for every n of which an [int] holds it. *)
Theorem generateTrees_numTrees n :
  0 <= n ->
  (forall t, t ∈ generateTrees n <-> inorder t = upto 1 n) /\ NoDup (generateTrees n) /\
  (1 <= n <= 19 -> numTrees n = Some (size (generateTrees n))).
Proof.
  intros Hn. split; [intros t; apply R_enough; lia|]. split; [apply R_NoDup|].
  intros Hb. rewrite numTrees_catalan by done. unfold generateTrees.
  rewrite R_catalan by lia. do 2 f_equal. lia.
Qed.

Lemma generateTrees_numTrees_witness :
  0 <= 3 /\ numTrees 3 = Some 5 /\
  (forall t, t ∈ generateTrees 3 <-> inorder t = upto 1 3) /\ NoDup (generateTrees 3) /\
  (1 <= 3 <= 19 -> numTrees 3 = Some (size (generateTrees 3))).
Proof. split; [lia|]. split; [done|]. apply (generateTrees_numTrees 3). lia. Defined.

(** With no key the array has one element and [dp[1]] is written all the same;
    with twenty the sum overflows. *)
Example numTrees_ub : numTrees 0 = None /\ numTrees 20 = None.
Proof. by vm_compute. Qed.

End Unique.

(** ** binary-tree-{level-order,zigzag-level-order,level-order}-traversal{,-2}.cc *)
Module Levels.

(** One level: [cur] is [S[sw]], which is emptied, [next] is [S[1 - sw]].

    src/code/leetcode/binary-tree-level-order-traversal.cc:32-40 [Solution::levelOrder] *)
Definition push (q : list TreeNode) (p : TreeNode) : list TreeNode :=
  match p with NULL => q | _ => q ++ [p] end.
(** src/code/leetcode/binary-tree-level-order-traversal.cc:33-39 [Solution::levelOrder] *)
Fixpoint level (cur next : list TreeNode) (vs : list Z) : option (list TreeNode * list Z) :=
  match cur with
  | [] => Some (next, vs)
  | NULL :: _ => None
  | Node val l r :: cur => level cur (push (push next l) r) (vs ++ [val])
  end.

(** [fuel] bounds the number of levels.

    src/code/leetcode/binary-tree-level-order-traversal.cc:31-44 [Solution::levelOrder] *)
Fixpoint level_loop (fuel : nat) (cur : list TreeNode) (res : list (list Z)) : option (list (list Z)) :=
  match cur, fuel with
  | [], _ => Some res
  | _, O => None
  | _, S fuel => '(next, vs) ← level cur [] []; level_loop fuel next (res ++ [vs])
  end.

(** src/code/leetcode/binary-tree-level-order-traversal.cc:25-45 [Solution::levelOrder] *)
Definition levelOrder (root : TreeNode) : option (list (list Z)) :=
  match root with NULL => Some [] | _ => level_loop (length (inorder root)) [root] [] end.

(** The same with two stacks, the top of each first.

    src/code/leetcode/binary-tree-zigzag-level-order-traversal.cc:36-44 [Solution::zigzagLevelOrder] *)
Definition spush (p : TreeNode) (s : list TreeNode) : list TreeNode :=
  match p with NULL => s | _ => p :: s end.
(** src/code/leetcode/binary-tree-zigzag-level-order-traversal.cc:33-45 [Solution::zigzagLevelOrder] *)
Fixpoint zlevel (sw : bool) (cur next : list TreeNode) (vs : list Z) : option (list TreeNode * list Z) :=
  match cur with
  | [] => Some (next, vs)
  | NULL :: _ => None
  | Node val l r :: cur =>
      zlevel sw cur (if sw then spush l (spush r next) else spush r (spush l next)) (vs ++ [val])
  end.

(** src/code/leetcode/binary-tree-zigzag-level-order-traversal.cc:31-49 [Solution::zigzagLevelOrder] *)
Fixpoint zlevel_loop (fuel : nat) (sw : bool) (cur : list TreeNode) (res : list (list Z))
    : option (list (list Z)) :=
  match cur, fuel with
  | [], _ => Some res
  | _, O => None
  | _, S fuel => '(next, vs) ← zlevel sw cur [] []; zlevel_loop fuel (negb sw) next (res ++ [vs])
  end.

(** src/code/leetcode/binary-tree-zigzag-level-order-traversal.cc:25-50 [Solution::zigzagLevelOrder] *)
Definition zigzagLevelOrder (root : TreeNode) : option (list (list Z)) :=
  match root with NULL => Some [] | _ => zlevel_loop (length (inorder root)) false [root] [] end.

(** src/code/leetcode/binary-tree-level-order-traversal-2.cc:37-49 [Solution::R] *)
Fixpoint R (root : TreeNode) (depth : Z) (vvi : list (list Z)) : option (list (list Z)) :=
  match root with
  | NULL => Some vvi
  | Node val l r =>
      let vvi := if depth =? size vvi then vvi ++ [[]] else vvi in
      vvi ← R l (depth + 1) vvi;
      vvi ← R r (depth + 1) vvi;
      vi ← arr_get vvi depth;
      arr_set vvi depth (vi ++ [val])
  end.

(** src/code/leetcode/binary-tree-level-order-traversal-2.cc:27-36 [Solution::levelOrderBottom] *)
Definition levelOrderBottom (root : TreeNode) : option (list (list Z)) :=
  vvi ← R root 0 [];
  for_ (downto (size vvi - 1) 0) (fun i vvi2 => vi ← arr_get vvi i; Some (vvi2 ++ [vi])) [].

(** *** The levels of a row of trees *)

#[global] Instance zip_app_nil_r : RightId eq [] zip_app.
Proof. by intros []. Qed.

Lemma zip_app_assoc xs ys zs : zip_app (zip_app xs ys) zs = zip_app xs (zip_app ys zs).
Proof.
  revert ys zs. induction xs as [|x xs IH]; intros [|y ys] [|z zs]; simpl; try done.
  by rewrite IH, (assoc_L (++)).
Qed.

Notation full q := (Forall (fun t => t <> NULL) q).
Definition row_levels (q : list TreeNode) : list (list Z) := foldr zip_app [] (levels <$> q).
Definition kids (t : TreeNode) : list TreeNode :=
  match t with NULL => [] | Node _ l r => push (push [] l) r end.
Definition value (t : TreeNode) : Z := match t with NULL => 0 | Node v _ _ => v end.
Definition row_nodes (q : list TreeNode) : nat := length (q ≫= inorder).

Lemma row_levels_app p q : row_levels (p ++ q) = zip_app (row_levels p) (row_levels q).
Proof. induction p as [|t p IH]; [done|]. cbn. unfold row_levels in *. by rewrite IH, zip_app_assoc. Qed.

Lemma push_app q p : push q p = q ++ push [] p.
Proof. destruct p; simpl; by rewrite ?app_nil_r. Qed.

Lemma row_levels_kids t : t <> NULL -> levels t = [value t] :: row_levels (kids t).
Proof.
  destruct t as [|v l r]; [done|]. intros _. simpl. f_equal. rewrite push_app, row_levels_app.
  destruct l, r; simpl; by rewrite ?(right_id_L [] zip_app).
Qed.

(** The levels of a row: its values, then the levels of its children. *)
Lemma row_levels_step q :
  q <> [] -> full q -> row_levels q = (value <$> q) :: row_levels (q ≫= kids).
Proof.
  induction q as [|t q IH]; [done|]. intros _ [Ht Hq]%Forall_cons.
  change (row_levels (t :: q)) with (zip_app (levels t) (row_levels q)).
  rewrite row_levels_kids by done. destruct q as [|u q].
  { cbn. by rewrite !app_nil_r. }
  rewrite IH by done. change ((t :: u :: q) ≫= kids) with (kids t ++ (u :: q) ≫= kids).
  by rewrite row_levels_app.
Qed.

Lemma kids_not_NULL q : full (q ≫= kids).
Proof.
  apply Forall_forall. intros t (u & Ht & _)%list_elem_of_bind.
  destruct u as [|v [] []]; simpl in Ht; repeat (apply elem_of_cons in Ht as [->|Ht]; [done|]);
    by apply elem_of_nil in Ht.
Qed.

Lemma row_nodes_kids q :
  q <> [] -> full q -> (row_nodes (q ≫= kids) < row_nodes q)%nat.
Proof.
  assert (forall t, t <> NULL -> (row_nodes (kids t) < length (inorder t))%nat) as Hk.
  { intros [|v l r]; [done|]. intros _. simpl. rewrite length_app. simpl. unfold row_nodes.
    destruct l, r; simpl; repeat (rewrite length_app; simpl); lia. }
  assert (forall p q, row_nodes (p ++ q) = row_nodes p + row_nodes q)%nat as Ha.
  { intros p q'. unfold row_nodes. by rewrite bind_app, length_app. }
  induction q as [|t q IH]; [done|]. intros _ [Ht Hq]%Forall_cons.
  cbn [mbind list_bind]. rewrite Ha. change (t :: q) with ([t] ++ q). rewrite Ha.
  pose proof (Hk t Ht). unfold row_nodes at 3. simpl. rewrite app_nil_r.
  destruct q as [|u q]; [by cbn in *; lia|]. specialize (IH ltac:(done) Hq). lia.
Qed.

Lemma row_nodes_nil q : full q -> row_nodes q = 0%nat -> q = [].
Proof.
  destruct q as [|[|v l r] q]; [done|by intros [? _]%Forall_cons|].
  intros _. unfold row_nodes. simpl. rewrite !length_app. simpl. lia.
Qed.

(** *** levelOrder *)

Lemma level_row q next vs :
  full q -> level q next vs = Some (next ++ q ≫= kids, vs ++ (value <$> q)).
Proof.
  revert next vs. induction q as [|[|v l r] q IH]; intros next vs Hq.
  - simpl. by rewrite !app_nil_r.
  - by apply Forall_cons in Hq as [? _].
  - apply Forall_cons in Hq as [_ Hq]. cbn [level]. rewrite IH by done.
    rewrite fmap_cons. cbn [mbind list_bind kids value].
    rewrite (push_app (push next l)), (push_app next), (push_app (push [] l)).
    by rewrite <- !(assoc_L (++)).
Qed.

Lemma level_loop_row fuel q res :
  full q -> (row_nodes q <= fuel)%nat -> level_loop fuel q res = Some (res ++ row_levels q).
Proof.
  revert q res. induction fuel as [|fuel IH]; intros q res Hq Hf.
  { rewrite (row_nodes_nil q Hq) by lia. by rewrite app_nil_r. }
  destruct (decide (q = [])) as [->|Hn]; [by rewrite app_nil_r|].
  pose proof (row_nodes_kids q Hn Hq).
  transitivity ('(next, vs) ← level q [] []; level_loop fuel next (res ++ [vs])); [by destruct q|].
  rewrite level_row by done. simpl. rewrite IH by (apply kids_not_NULL || lia).
  by rewrite (row_levels_step q), <- (assoc_L (++)) by done.
Qed.

(** *** zigzagLevelOrder *)

Fixpoint alternate (b : bool) (ls : list (list Z)) : list (list Z) :=
  match ls with [] => [] | l :: ls => (if b then reverse l else l) :: alternate (negb b) ls end.

(** The order in which a stack gives the row back. *)
Definition dir {A} (sw : bool) (l : list A) : list A := if sw then reverse l else l.

Lemma spush_kids (sw : bool) v l r next :
  (if sw then spush l (spush r next) else spush r (spush l next)) =
  dir (negb sw) (kids (Node v l r)) ++ next.
Proof. by destruct sw, l, r. Qed.

Lemma zlevel_row sw q next vs :
  full q ->
  zlevel sw q next vs = Some (foldl (fun n t => dir (negb sw) (kids t) ++ n) next q, vs ++ (value <$> q)).
Proof.
  revert next vs. induction q as [|[|v l r] q IH]; intros next vs Hq.
  - simpl. by rewrite !app_nil_r.
  - by apply Forall_cons in Hq as [? _].
  - apply Forall_cons in Hq as [_ Hq]. cbn [zlevel]. rewrite IH by done.
    rewrite (spush_kids sw v l r), fmap_cons, <- (assoc_L (++)). done.
Qed.

Lemma foldl_dir sw q next :
  foldl (fun n t => dir (negb sw) (kids t) ++ n) next (dir sw q) =
  dir (negb sw) (q ≫= kids) ++ next.
Proof.
  destruct sw; cbn [dir negb].
  - revert next. induction q as [|t q IH] using rev_ind; intros next; [done|].
    rewrite reverse_snoc. simpl. by rewrite IH, bind_app, <- (assoc_L (++)), bind_singleton.
  - revert next. induction q as [|t q IH]; intros next; [done|].
    cbn [foldl mbind list_bind]. by rewrite IH, reverse_app, <- (assoc_L (++)).
Qed.

Lemma zlevel_loop_row fuel sw q res :
  full q -> (row_nodes q <= fuel)%nat ->
  zlevel_loop fuel sw (dir sw q) res = Some (res ++ alternate sw (row_levels q)).
Proof.
  revert sw q res. induction fuel as [|fuel IH]; intros sw q res Hq Hf.
  { rewrite (row_nodes_nil q Hq) by lia. rewrite app_nil_r. by destruct sw. }
  destruct (decide (q = [])) as [->|Hn]; [rewrite app_nil_r; by destruct sw|].
  pose proof (row_nodes_kids q Hn Hq).
  transitivity ('(next, vs) ← zlevel sw (dir sw q) [] []; zlevel_loop fuel (negb sw) next (res ++ [vs])).
  { destruct (dir sw q) eqn:E; [|done]. destruct sw; simpl in E; [|done].
    by apply (f_equal reverse) in E; rewrite reverse_involutive in E. }
  rewrite zlevel_row by (destruct sw; [by apply Forall_reverse|done]).
  simpl. rewrite foldl_dir, app_nil_r, IH by (apply kids_not_NULL || lia).
  rewrite (row_levels_step q), <- (assoc_L (++)) by done. simpl.
  destruct sw; simpl; by rewrite ?fmap_reverse.
Qed.

(** *** levelOrderBottom *)

Lemma R_levels t (a b : list (list Z)) :
  R t (size a) (a ++ b) = Some (a ++ zip_app b (levels t)).
Proof.
  revert a b. induction t as [|v l IHl r IHr]; intros a b.
  { simpl. by rewrite (right_id_L [] zip_app). }
  assert (exists x b', (if size a =? size (a ++ b) then (a ++ b) ++ [[]] else a ++ b) = (a ++ [x]) ++ b' /\
    zip_app b (levels (Node v l r)) = (x ++ [v]) :: zip_app (zip_app b' (levels l)) (levels r))
    as (x & b' & Eb & Ez).
  { rewrite length_app. destruct b as [|x b].
    - exists [], []. split; [|done]. case_bool; [by rewrite !app_nil_r|]. simpl in *. zb.
    - exists x, b. simpl. case_bool; [simpl in *; zb|]. by rewrite <- (assoc_L (++)), zip_app_assoc. }
  rewrite Ez. cbn [R]. rewrite Eb.
  replace (size a + 1) with (size (a ++ [x])) by (rewrite length_app; simpl; lia).
  rewrite IHl. simpl. rewrite IHr. simpl.
  rewrite <- (assoc_L (++)). simpl. rewrite (arr_get_app a). simpl. rewrite arr_set_nat by (rewrite length_app; simpl; lia).
  f_equal. rewrite insert_app_r_alt by lia. by rewrite Nat.sub_diag.
Qed.

Lemma reverse_loop (vvi : list (list Z)) :
  for_ (downto (size vvi - 1) 0) (fun i vvi2 => vi ← arr_get vvi i; Some (vvi2 ++ [vi])) [] =
  Some (reverse vvi).
Proof.
  destruct (for_downto (fun i vvi2 => vvi2 = reverse (drop (Z.to_nat (i + 1)) vvi))
    (size vvi - 1) 0 (fun i vvi2 => vi ← arr_get vvi i; Some (vvi2 ++ [vi])) []) as (s & -> & ->).
  - lia.
  - rewrite drop_ge by lia. done.
  - intros i s Hi ->. destruct (arr_get_in vvi i) as [x Hx]; [lia|]. rewrite Hx. simpl.
    eexists. split; [done|]. apply arr_get_Some in Hx as [_ Hx].
    replace (Z.to_nat (i - 1 + 1)) with (Z.to_nat i) by lia.
    rewrite (drop_S _ _ _ Hx), reverse_cons. do 3 f_equal. lia.
  - done.
Qed.

(** The breadth-first traversal over two queues and the depth-first one over a
    vector per depth give the same levels, the second one bottom up; that over
    two stacks gives every other level backwards. All of them end. *)
Theorem level_orders t :
  levelOrder t = Some (levels t) /\
  zigzagLevelOrder t = Some (alternate false (levels t)) /\
  levelOrderBottom t = Some (reverse (levels t)).
Proof.
  split_and!.
  - destruct (decide (t = NULL)) as [->|Hn]; [done|].
    transitivity (level_loop (length (inorder t)) [t] []); [by destruct t|].
    rewrite level_loop_row by (repeat constructor; done || (unfold row_nodes; simpl; rewrite app_nil_r; lia)).
    f_equal. simpl. unfold row_levels. simpl. by rewrite (right_id_L [] zip_app).
  - destruct (decide (t = NULL)) as [->|Hn]; [done|].
    transitivity (zlevel_loop (length (inorder t)) false (dir false [t]) []); [by destruct t|].
    rewrite zlevel_loop_row by (repeat constructor; done || (unfold row_nodes; simpl; rewrite app_nil_r; lia)).
    f_equal. simpl. unfold row_levels. simpl. by rewrite (right_id_L [] zip_app).
  - unfold levelOrderBottom. pose proof (R_levels t [] []) as E. simpl in E. change (Z.of_nat 0) with 0 in E. rewrite E. apply reverse_loop.
Qed.

Example level_orders_run :
  let t := Node 3 (leaf 9) (Node 20 (leaf 15) (leaf 7)) in
  zigzagLevelOrder t = Some [[3]; [20; 9]; [15; 7]].
Proof. done. Qed.

End Levels.
