(* ===== verification/Arrays.v ===== *)
(** * Arrays: the exercises of src/code/leetcode over arrays of integers

    Each exercise is a module named after its file. An array is a list of
    integers an [int] holds; reads and writes outside it, reads of cells that
    were not written and overflows of [int] are undefined ([None]). The
    theorems compare the single passes of the code with what is to be
    optimised, stated over all candidates. *)

From S2P Require Import Prelude Loops.

(** ** candy.cc *)
Module Candy.

(** src/code/leetcode/candy.cc:24-34 [Solution::L] *)
Definition L (ratings : list Z) (dp : list (option Z)) : option (list (option Z)) :=
  let n := size ratings in
  dp ← vset dp 0 1;
  for_ (upto 1 (n - 1)) (fun i dp =>
    a ← arr_get ratings i; b ← arr_get ratings (i - 1);
    if b <? a then x ← vget dp (i - 1); x ← chk32 (x + 1); vset dp i x else vset dp i 1) dp.

(** src/code/leetcode/candy.cc:36-46 [Solution::R] *)
Definition R (ratings : list Z) (dp : list (option Z)) : option (list (option Z)) :=
  let n := size ratings in
  dp ← vset dp (n - 1) 1;
  for_ (downto (n - 2) 0) (fun i dp =>
    a ← arr_get ratings i; b ← arr_get ratings (i + 1);
    if b <? a then x ← vget dp (i + 1); x ← chk32 (x + 1); vset dp i x else vset dp i 1) dp.

(** src/code/leetcode/candy.cc:8-22 [Solution::candy] *)
Definition candy (ratings : list Z) : option Z :=
  let N := size ratings in
  if N =? 0 then Some 0 else
  dp0 ← L ratings (vla N);
  dp1 ← R ratings (vla N);
  for_ (upto 0 (N - 1)) (fun i sum =>
    a ← vget dp0 i; b ← vget dp1 i; chk32 (sum + Z.max a b)) 0.

(** A distribution gives everyone one, and more than a neighbour of lower rating. *)
Definition fair (r : Z -> Z) (n : Z) (c : Z -> Z) : Prop :=
  (forall i, 0 <= i < n -> 1 <= c i) /\
  (forall i, 0 <= i < n - 1 -> (r i < r (i + 1) -> c i < c (i + 1)) /\ (r (i + 1) < r i -> c (i + 1) < c i)).

(** The length of the run that rises to place [k], seen from one side. *)
Fixpoint rise (r : nat -> Z) (k : nat) : Z :=
  match k with O => 1 | S j => if r j <? r (S j) then rise r j + 1 else 1 end.

Lemma rise_range r k : 1 <= rise r k <= Z.of_nat k + 1.
Proof. induction k as [|k IH]; simpl rise; [lia|]. case_bool; lia. Qed.

Section ratings.
Context (ratings : list Z).
Notation n := (size ratings).
Notation r := (at_ ratings).
Definition lft (i : Z) : Z := rise (fun j => r (Z.of_nat j)) (Z.to_nat i).
Definition rgt (i : Z) : Z := rise (fun j => r (n - 1 - Z.of_nat j)) (Z.to_nat (n - 1 - i)).

Lemma lft_succ i : 0 <= i -> lft (i + 1) = if r i <? r (i + 1) then lft i + 1 else 1.
Proof.
  intros. unfold lft. replace (Z.to_nat (i + 1)) with (S (Z.to_nat i)) by lia. cbn [rise].
  by replace (Z.of_nat (S (Z.to_nat i))) with (i + 1) by lia; rewrite Z2Nat.id by lia.
Qed.

Lemma rgt_pred i : i < n - 1 -> rgt i = if r (i + 1) <? r i then rgt (i + 1) + 1 else 1.
Proof.
  intros. unfold rgt. replace (Z.to_nat (n - 1 - i)) with (S (Z.to_nat (n - 1 - (i + 1)))) by lia.
  cbn [rise]. by replace (n - 1 - Z.of_nat (Z.to_nat (n - 1 - (i + 1)))) with (i + 1) by lia;
    replace (n - 1 - Z.of_nat (S (Z.to_nat (n - 1 - (i + 1))))) with i by lia.
Qed.

Lemma lft_range i : 0 <= i < n -> 1 <= lft i <= n.
Proof. intros. unfold lft. pose proof (rise_range (fun j => r (Z.of_nat j)) (Z.to_nat i)). lia. Qed.

Lemma rgt_range i : 0 <= i < n -> 1 <= rgt i <= n.
Proof. intros. unfold rgt. pose proof (rise_range (fun j => r (n - 1 - Z.of_nat j)) (Z.to_nat (n - 1 - i))). lia. Qed.

Hypothesis Hn : 0 < n <= 46340.

Definition filled (dp : list (option Z)) (f : Z -> Z) (a b : Z) : Prop :=
  size dp = n /\ forall i, a <= i < b -> vget dp i = Some (f i).

Lemma filled_set dp f a b i v :
  0 <= a -> b <= n -> filled dp f a b -> 0 <= i < n -> v = f i ->
  exists dp', vset dp i v = Some dp' /\ filled dp' f (if decide (i = a - 1) then i else a)
    (if decide (i = b) then i + 1 else b).
Proof.
  intros Ha Hb [Hs Hd] Hi ->. rewrite vset_in by lia. eexists. split; [done|].
  split; [by rewrite length_insert|]. intros j Hj.
  assert (0 <= j) by (case_decide; lia). rewrite vget_insert by lia.
  destruct (Z.eqb_spec j i) as [->|]; [done|]. apply Hd. repeat case_decide; lia.
Qed.

Lemma L_lft : exists dp, L ratings (vla n) = Some dp /\ filled dp lft 0 n.
Proof.
  unfold L. rewrite vset_in by (rewrite length_replicate; lia). simpl mbind.
  edestruct (for_upto (fun i dp => filled dp lft 0 i) 1 (n - 1)) as (dp & E & H); [lia| | |
    exists dp; rewrite Z.sub_add in H; split; [exact E|exact H]].
  - split; [rewrite length_insert, length_replicate; lia|]. intros i Hi.
    rewrite vget_insert by (rewrite ?length_replicate; lia). by replace i with 0 by lia.
  - intros i dp' Hi [Hs Hd]. rewrite !arr_get_at by lia. simpl mbind.
    pose proof (lft_range i ltac:(lia)). pose proof (lft_succ (i - 1) ltac:(lia)) as E.
    rewrite Z.sub_add in E.
    destruct (filled_set dp' lft 0 i i (lft i)) as (dp2 & E2 & H2); [lia|lia|done|lia|done|].
    rewrite (decide_True (P:=(i = i))), decide_False in H2 by lia.
    exists dp2. split; [|done]. case_bool; [|by rewrite <- E].
    rewrite Hd by lia. simpl mbind. rewrite chk32_ok by lia. simpl mbind. by rewrite <- E.
Qed.

Lemma R_rgt : exists dp, R ratings (vla n) = Some dp /\ filled dp rgt 0 n.
Proof.
  unfold R. rewrite vset_in by (rewrite length_replicate; lia). simpl mbind.
  edestruct (for_downto (fun i dp => filled dp rgt (i + 1) n) (n - 2) 0) as (dp & E & H); [lia| | |
    exists dp; split; [exact E|exact H]].
  - split; [rewrite length_insert, length_replicate; lia|]. intros i Hi.
    rewrite vget_insert by (rewrite ?length_replicate; lia). case_bool; [|zb].
    unfold rgt. by replace (Z.to_nat (n - 1 - i)) with 0%nat by lia.
  - intros i dp' Hi [Hs Hd]. rewrite !arr_get_at by lia. simpl mbind.
    pose proof (rgt_range i ltac:(lia)). pose proof (rgt_pred i ltac:(lia)) as E.
    destruct (filled_set dp' rgt (i + 1) n i (rgt i)) as (dp2 & E2 & H2); [lia|lia|done|lia|done|].
    rewrite (decide_True (P:=(i = i + 1 - 1))), decide_False in H2 by lia.
    exists dp2. rewrite Z.sub_add. split; [|done]. case_bool; [|by rewrite <- E].
    rewrite Hd by lia. simpl mbind. rewrite chk32_ok by lia. simpl mbind. by rewrite <- E.
Qed.

Definition best (i : Z) : Z := Z.max (lft i) (rgt i).

Lemma candy_best : candy ratings = Some (sumf best 0 n).
Proof.
  unfold candy. zfalse (n =? 0). destruct L_lft as (dp0 & -> & H0). simpl mbind.
  destruct R_rgt as (dp1 & -> & H1). simpl mbind.
  destruct (for_upto (fun i sum => sum = sumf best 0 i) 0 (n - 1) (fun i sum =>
    a ← vget dp0 i; b ← vget dp1 i; chk32 (sum + Z.max a b)) 0) as (s & -> & ->); [lia|done| |].
  - intros i s Hi ->. rewrite (proj2 H0), (proj2 H1) by lia. simpl mbind. fold (best i).
    rewrite <- sumf_snoc by lia. rewrite chk32_ok; [by eexists|].
    pose proof (sumf_le (fun _ => 0) best 0 (i + 1)) as Hl.
    pose proof (sumf_le best (fun _ => 46340) 0 (i + 1)) as Hu. rewrite !sumf_const in * by lia.
    assert (forall j, 0 <= j < i + 1 -> 0 <= best j <= 46340) as Hr.
    { intros j Hj. unfold best. pose proof (lft_range j ltac:(lia)). pose proof (rgt_range j ltac:(lia)). lia. }
    specialize (Hl (fun j Hj => proj1 (Hr j Hj))). specialize (Hu (fun j Hj => proj2 (Hr j Hj))). nia.
  - by rewrite Z.sub_add.
Qed.

Lemma best_fair : fair r n best.
Proof.
  split; intros i Hi; unfold best.
  - pose proof (lft_range i ltac:(lia)). lia.
  - pose proof (lft_succ i ltac:(lia)). pose proof (rgt_pred i ltac:(lia)).
    pose proof (lft_range i ltac:(lia)). pose proof (rgt_range (i + 1) ltac:(lia)).
    destruct (Z.ltb_spec (r i) (r (i + 1))), (Z.ltb_spec (r (i + 1)) (r i)); lia.
Qed.

Lemma fair_best c : fair r n c -> forall i, 0 <= i < n -> best i <= c i.
Proof.
  intros [H1 H2] i Hi. unfold best. apply Z.max_lub.
  - rewrite <- (Z2Nat.id i) in Hi |- * by lia. induction (Z.to_nat i) as [|k IH].
    + unfold lft. simpl. by apply H1.
    + replace (Z.of_nat (S k)) with (Z.of_nat k + 1) in * by lia. rewrite lft_succ by lia.
      specialize (IH ltac:(lia)). specialize (H2 (Z.of_nat k) ltac:(lia)).
      case_bool; [|by apply H1]. zbool. lia.
  - replace i with (n - 1 - Z.of_nat (Z.to_nat (n - 1 - i))) in * by lia.
    induction (Z.to_nat (n - 1 - i)) as [|k IH].
    + unfold rgt. replace (Z.to_nat _) with 0%nat by lia. simpl. by apply H1.
    + replace (n - 1 - Z.of_nat k) with (n - 1 - Z.of_nat (S k) + 1) in IH by lia.
      rewrite rgt_pred by lia. specialize (IH ltac:(lia)).
      specialize (H2 (n - 1 - Z.of_nat (S k)) ltac:(lia)). case_bool; [|by apply H1]. zbool. lia.
Qed.
End ratings.

(** candy returns the least number of candies of any distribution in which
    everyone has one and more than each neighbour of lower rating; two passes
    suffice. The bound keeps the sum, at most the square of the length, an int. *)
Theorem candy_minimal ratings :
  0 < size ratings <= 46340 ->
  exists c, fair (at_ ratings) (size ratings) c /\
    candy ratings = Some (sumf c 0 (size ratings)) /\
    forall d, fair (at_ ratings) (size ratings) d -> sumf c 0 (size ratings) <= sumf d 0 (size ratings).
Proof.
  intros Hn. exists (best ratings). split; [by apply best_fair|]. split; [by apply candy_best|].
  intros d Hd. apply sumf_le. intros i Hi. by apply fair_best.
Qed.

Lemma candy_minimal_witness :
  0 < size [1; 3; 2; 2; 1] <= 46340 /\ candy [1; 3; 2; 2; 1] = Some 7 /\
  exists c, fair (at_ [1; 3; 2; 2; 1]) (size [1; 3; 2; 2; 1]) c /\
    candy [1; 3; 2; 2; 1] = Some (sumf c 0 (size [1; 3; 2; 2; 1])) /\
    forall d, fair (at_ [1; 3; 2; 2; 1]) (size [1; 3; 2; 2; 1]) d ->
      sumf c 0 (size [1; 3; 2; 2; 1]) <= sumf d 0 (size [1; 3; 2; 2; 1]).
Proof. split; [simpl; lia|]. split; [done|]. apply (candy_minimal [1; 3; 2; 2; 1]). simpl. lia. Defined.

End Candy.

(** ** container-with-most-water.cc *)
Module Container.

(** The loop over [j], of [k] rounds at most.

    src/code/leetcode/container-with-most-water.cc:21-26 [Solution::maxArea] *)
Fixpoint inner (k : nat) (height : list Z) (i j res : Z) : option Z :=
  match k with
  | O => Some res
  | S k =>
      hi ← arr_get height i; hj ← arr_get height j;
      a ← chk32 ((j - i) * Z.min hi hj);
      let res := Z.max res a in
      if hi <=? hj then Some res else inner k height i (j - 1) res
  end.

(** src/code/leetcode/container-with-most-water.cc:10-29 [Solution::maxArea] *)
Definition maxArea (height : list Z) : option Z :=
  let n := size height in
  if n =? 0 then Some 0 else
  '(res, _) ← for_ (upto 0 (n - 1)) (fun i '(res, lm) =>
    hi ← arr_get height i;
    if hi <=? lm then Some (res, lm) else
    res ← inner (Z.to_nat (n - 1 - i)) height i (n - 1) res;
    Some (res, hi)) (0, 0);
  Some res.

Section height.
Context (height : list Z).
Notation n := (size height).
Notation h := (at_ height).
Definition area (i j : Z) : Z := (j - i) * Z.min (h i) (h j).

Hypothesis Hh : Forall (fun x => 0 <= x /\ x * n <= 2147483647) height.

Lemma h_range i : 0 <= i < n -> 0 <= h i /\ h i * n <= 2147483647.
Proof. apply (at_Forall (fun x => 0 <= x /\ x * n <= 2147483647)); done. Qed.

Lemma area_range i j : 0 <= i < j -> j < n -> 0 <= area i j <= 2147483647.
Proof.
  intros. unfold area. pose proof (h_range i ltac:(lia)). pose proof (h_range j ltac:(lia)). nia.
Qed.

(** [res] is an area or 0, and no smaller than the areas seen. *)
Definition reached (res : Z) : Prop := res = 0 \/ exists i j, 0 <= i < j /\ j < n /\ res = area i j.

Lemma inner_spec k i j res :
  j = i + Z.of_nat k -> 0 <= i -> j < n -> reached res -> 0 <= res ->
  (forall j', j < j' < n -> area i j' <= res) ->
  exists res', inner k height i j res = Some res' /\ reached res' /\ res <= res' /\
    forall j', i < j' < n -> area i j' <= res'.
Proof.
  revert j res. induction k as [|k IH]; intros j res -> Hi Hj Hr H0 Hs.
  { exists res. split_and!; [done|done|done|]. intros. apply Hs. lia. }
  cbn [inner]. rewrite !arr_get_at by lia. simpl mbind.
  fold (area i (i + Z.of_nat (S k))). pose proof (area_range i (i + Z.of_nat (S k)) ltac:(lia) Hj) as Ha.
  rewrite chk32_ok by lia. simpl mbind.
  assert (reached (Z.max res (area i (i + Z.of_nat (S k))))) as Hr'.
  { destruct (Z.max_spec res (area i (i + Z.of_nat (S k)))) as [[_ ->]|[_ ->]]; [|done].
    right. exists i, (i + Z.of_nat (S k)). split_and!; lia. }
  case_bool; zbool.
  - eexists. split; [done|]. split_and!; [done|lia|]. intros j' Hj'.
    destruct (decide (i + Z.of_nat (S k) < j')); [pose proof (Hs j' ltac:(lia)); lia|].
    unfold area in *. pose proof (h_range i ltac:(lia)). pose proof (h_range j' ltac:(lia)). nia.
  - destruct (IH (i + Z.of_nat (S k) - 1) (Z.max res (area i (i + Z.of_nat (S k)))))
      as (res' & E' & ? & ? & ?); [lia|lia|lia|done|lia| |].
    + intros j' Hj'. destruct (decide (j' = i + Z.of_nat (S k))) as [->|]; [lia|].
      pose proof (Hs j' ltac:(lia)). lia.
    + exists res'. split_and!; [done|done|lia|done].
Qed.

(** Before round [i]: the highest so far, and all pairs that start earlier. *)
Definition before (i : Z) (s : Z * Z) : Prop :=
  reached s.1 /\ 0 <= s.1 /\ 0 <= s.2 /\ (s.2 = 0 \/ exists i', 0 <= i' < i /\ s.2 = h i') /\
  forall i' j, 0 <= i' < i -> i' < j < n -> area i' j <= s.1.

Lemma maxArea_spec :
  exists res, maxArea height = Some res /\ reached res /\
    forall i j, 0 <= i < j -> j < n -> area i j <= res.
Proof.
  unfold maxArea. destruct (Z.eqb_spec n 0) as [E0|Hn].
  { exists 0. split_and!; [done|by left|]. intros. lia. }
  edestruct (for_upto before 0 (n - 1)) as ([res lm] & -> & Hr & _ & _ & _ & Ha); [lia| | |].
  - split_and!; [by left|done|done|by left|]. intros; lia.
  - intros i [res lm] Hi (Hr & H0 & Hl & Hm & Ha). simpl in *.
    rewrite arr_get_at by lia. simpl mbind. pose proof (h_range i ltac:(lia)). case_bool; zbool.
    + eexists. split; [done|]. split_and!; simpl; [done|done|done| |].
      { destruct Hm as [->|(m & Hm & ->)]; [by left|right; exists m; split; [lia|done]]. }
      intros i' j Hi' Hj. destruct (decide (i' = i)) as [->|]; [|apply Ha; lia].
      unfold area. destruct Hm as [->|(m & Hm & ->)]; [nia|].
      specialize (Ha m j ltac:(lia) ltac:(lia)). unfold area in Ha.
      pose proof (h_range j ltac:(lia)). nia.
    + destruct (inner_spec (Z.to_nat (n - 1 - i)) i (n - 1) res) as (res' & -> & ? & ? & Hi2);
        [lia|lia|lia|done|done|intros; lia|].
      eexists. split; [done|]. split_and!; simpl; [done|lia|lia|right; exists i; split; [lia|done]|].
      intros i' j Hi' Hj. destruct (decide (i' = i)) as [->|]; [by apply Hi2|].
      specialize (Ha i' j ltac:(lia) Hj). lia.
  - exists res. split_and!; [done|done|]. intros i j Hi Hj. apply Ha; lia.
Qed.
End height.

(** maxArea is the greatest area over all pairs of lines, or 0 with fewer than
    two: neither the lines skipped because a line before them is as high, nor
    the rest of a row after its first line that is as high, hold a greater one. *)
Theorem maxArea_max height :
  Forall (fun x => 0 <= x /\ x * size height <= 2147483647) height ->
  exists res, maxArea height = Some res /\ reached height res /\
    forall i j, 0 <= i < j -> j < size height -> area height i j <= res.
Proof. apply maxArea_spec. Qed.

Lemma maxArea_max_witness :
  Forall (fun x => 0 <= x /\ x * size [1; 8; 6; 2; 5; 4; 8; 3; 7] <= 2147483647) [1; 8; 6; 2; 5; 4; 8; 3; 7] /\
  maxArea [1; 8; 6; 2; 5; 4; 8; 3; 7] = Some 49 /\
  exists res, maxArea [1; 8; 6; 2; 5; 4; 8; 3; 7] = Some res /\ reached [1; 8; 6; 2; 5; 4; 8; 3; 7] res /\
    forall i j, 0 <= i < j -> j < size [1; 8; 6; 2; 5; 4; 8; 3; 7] -> area [1; 8; 6; 2; 5; 4; 8; 3; 7] i j <= res.
Proof.
  assert (Forall (fun x => 0 <= x /\ x * size [1; 8; 6; 2; 5; 4; 8; 3; 7] <= 2147483647)
    [1; 8; 6; 2; 5; 4; 8; 3; 7]) as H by (repeat (constructor; [simpl; lia|]); constructor).
  split; [done|]. split; [done|]. by apply (maxArea_max [1; 8; 6; 2; 5; 4; 8; 3; 7]).
Defined.

End Container.

(** ** best-time-to-buy-and-sell-stock{,-2,-3}.cc *)
Module Stock.

(** The state is [dp] and [s].

    src/code/leetcode/best-time-to-buy-and-sell-stock-3.cc:36-46 [Solution::P0] *)
Definition P0 (prices : list Z) (dp : list (option Z)) : option (list (option Z)) :=
  let t := size prices - 1 in
  dp ← vset dp 0 0;
  s ← arr_get prices 0;
  '(dp, _) ← for_ (upto 1 t) (fun i '(dp, s) =>
    x ← vget dp (i - 1); p ← arr_get prices i;
    g ← chk32 (p - s);
    dp ← vset dp i (Z.max x g);
    Some (dp, Z.min s p)) (dp, s);
  Some dp.

(** src/code/leetcode/best-time-to-buy-and-sell-stock-3.cc:48-58 [Solution::P1] *)
Definition P1 (prices : list Z) (dp : list (option Z)) : option (list (option Z)) :=
  let t := size prices - 1 in
  dp ← vset dp t 0;
  s ← arr_get prices t;
  '(dp, _) ← for_ (downto (t - 1) 0) (fun i '(dp, s) =>
    x ← vget dp (i + 1); p ← arr_get prices i;
    g ← chk32 (s - p);
    dp ← vset dp i (Z.max x g);
    Some (dp, Z.max s p)) (dp, s);
  Some dp.

(** src/code/leetcode/best-time-to-buy-and-sell-stock.cc:9-20 [Solution::maxProfit] *)
Definition maxProfit (prices : list Z) : option Z :=
  let n := size prices in
  if n =? 0 then Some 0 else dp ← P0 prices (vla n); vget dp (n - 1).

(** src/code/leetcode/best-time-to-buy-and-sell-stock-3.cc:10-34 [Solution::maxProfit] *)
Definition maxProfit3 (prices : list Z) : option Z :=
  let n := size prices in
  if n =? 0 then Some 0 else
  dp0 ← P0 prices (vla n);
  dp1 ← P1 prices (vla n);
  for_ (upto 0 (n - 1)) (fun i result =>
    v1 ← if negb (i =? 0) then vget dp0 (i - 1) else Some 0;
    v2 ← vget dp1 i;
    v ← chk32 (v1 + v2);
    Some (Z.max v result)) 0.

(** The inner loop of the second exercise: the end of the run that rises at [x].

    src/code/leetcode/best-time-to-buy-and-sell-stock-2.cc:21-25 [Solution::maxProfit] *)
Fixpoint run (k : nat) (prices : list Z) (x : Z) : option Z :=
  match k with
  | O => Some x
  | S k => a ← arr_get prices x; b ← arr_get prices (x - 1);
           if a <=? b then Some x else run k prices (x + 1)
  end.

(** src/code/leetcode/best-time-to-buy-and-sell-stock-2.cc:15-29 [Solution::maxProfit] *)
Fixpoint runs (fuel : nat) (prices : list Z) (x result : Z) : option Z :=
  let n := size prices in
  if negb (x <? n) then Some result else
  match fuel with
  | O => None
  | S fuel =>
      skip ← if x =? 0 then Some true
             else a ← arr_get prices x; b ← arr_get prices (x - 1); Some (a <=? b);
      if skip : bool then runs fuel prices (x + 1) result else
      s ← arr_get prices (x - 1);
      x ← run (Z.to_nat (n - x)) prices x;
      l ← arr_get prices (x - 1);
      let x := x - 1 in
      runs fuel prices (x + 1) result
  end.

(** src/code/leetcode/best-time-to-buy-and-sell-stock-2.cc:6-31 [Solution::maxProfit] *)
Definition maxProfit2 (prices : list Z) : option Z :=
  if size prices =? 0 then Some 0 else runs (length prices) prices 0 0.

Section prices.
Context (prices : list Z).
Notation n := (size prices).
Notation p := (at_ prices).

(** Buying at [k] and selling at [j], with days between [a] and [b]. *)
Definition trade (a b x : Z) : Prop := exists k j, a <= k <= j /\ j <= b /\ x = p j - p k.
Definition two_trades (x : Z) : Prop :=
  exists k j k' j', 0 <= k <= j /\ j <= k' <= j' /\ j' < n /\ x = (p j - p k) + (p j' - p k').

Hypothesis Hn : 0 < n.
Hypothesis Hp : Forall (fun x => 0 <= x <= 1073741823) prices.

Lemma p_range i : 0 <= i < n -> 0 <= p i <= 1073741823.
Proof. apply (at_Forall (fun x => 0 <= x <= 1073741823)); done. Qed.

Lemma trade_range a b x : 0 <= a -> b < n -> trade a b x -> -1073741823 <= x <= 1073741823.
Proof. intros ? ? (k & j & ? & ? & ->). pose proof (p_range k). pose proof (p_range j). lia. Qed.

Lemma trade_one i : 0 <= i < n -> is_max (trade i i) 0.
Proof.
  intros Hi. split; [exists i, i; lia|]. intros x (k & j & ? & ? & ->).
  replace j with i by lia. replace k with i by lia. lia.
Qed.

(** The best trade up to the next day: the best before, or from the lowest price. *)
Lemma trade_snoc a i x s :
  a <= i -> is_max (trade a i) x ->
  (exists k, a <= k <= i /\ s = p k) -> (forall k, a <= k <= i -> s <= p k) ->
  is_max (trade a (i + 1)) (Z.max x (p (i + 1) - s)).
Proof.
  intros Hai [(k & j & ? & ? & ->) Hm] (m & Hmi & ->) Hs. split.
  - destruct (Z.max_spec (p j - p k) (p (i + 1) - p m)) as [[_ ->]|[_ ->]];
      [exists m, (i + 1); lia|exists k, j; lia].
  - intros y (k' & j' & ? & ? & ->). destruct (decide (j' = i + 1)) as [->|].
    + destruct (decide (k' = i + 1)) as [->|]; [|pose proof (Hs k' ltac:(lia)); lia].
      pose proof (Hm 0 ltac:(exists a, a; lia)). lia.
    + pose proof (Hm (p j' - p k') ltac:(exists k', j'; lia)). lia.
Qed.

Lemma trade_cons i b x s :
  i < b -> is_max (trade (i + 1) b) x ->
  (exists j, i < j <= b /\ s = p j) -> (forall j, i < j <= b -> p j <= s) ->
  is_max (trade i b) (Z.max x (s - p i)).
Proof.
  intros Hib [(k & j & ? & ? & ->) Hm] (m & Hmi & ->) Hs. split.
  - destruct (Z.max_spec (p j - p k) (p m - p i)) as [[_ ->]|[_ ->]];
      [exists i, m; lia|exists k, j; lia].
  - intros y (k' & j' & ? & ? & ->). destruct (decide (k' = i)) as [->|].
    + destruct (decide (j' = i)) as [->|]; [|pose proof (Hs j' ltac:(lia)); lia].
      pose proof (Hm 0 ltac:(exists b, b; lia)). lia.
    + pose proof (Hm (p j' - p k') ltac:(exists k', j'; lia)). lia.
Qed.

(** [dp] holds the optima of [best k] for the days [k] of an interval. *)
Definition optima (best : Z -> Z -> Prop) (dp : list (option Z)) (a b : Z) : Prop :=
  size dp = n /\ forall k, a <= k < b -> exists v, vget dp k = Some v /\ is_max (best k) v.

Lemma optima_set best dp a b i v :
  0 <= a -> b <= n -> optima best dp a b -> 0 <= i < n -> is_max (best i) v ->
  exists dp', vset dp i v = Some dp' /\
    optima best dp' (if decide (i = a - 1) then i else a) (if decide (i = b) then i + 1 else b).
Proof.
  intros Ha Hb [Hs Hd] Hi Hv. rewrite vset_in by lia. eexists. split; [done|].
  split; [by rewrite length_insert|]. intros k Hk.
  assert (0 <= k) by (case_decide; lia). rewrite vget_insert by lia.
  destruct (Z.eqb_spec k i) as [->|]; [by eexists|]. apply Hd. repeat case_decide; lia.
Qed.

Lemma P0_optima : exists dp, P0 prices (vla n) = Some dp /\ optima (trade 0) dp 0 n.
Proof.
  unfold P0. rewrite vset_in by (rewrite length_replicate; lia). simpl mbind.
  rewrite arr_get_at by lia. simpl mbind.
  edestruct (for_upto (fun i '(dp, s) => optima (trade 0) dp 0 i /\
    (exists k, 0 <= k <= i - 1 /\ s = p k) /\ (forall k, 0 <= k <= i - 1 -> s <= p k)) 1 (n - 1))
    as ([dp s] & -> & H & _); [lia| | |exists dp; rewrite Z.sub_add in H; by split].
  - split_and!; [split|exists 0; lia|intros k Hk; replace k with 0 by lia; lia].
    + rewrite length_insert, length_replicate. lia.
    + intros k Hk. exists 0. rewrite vget_insert by (rewrite ?length_replicate; lia).
      replace k with 0 by lia. split; [done|]. by apply trade_one.
  - intros i [dp' s] Hi (Ho & Hs1 & Hs2). destruct (proj2 Ho (i - 1)) as (x & -> & Hx); [lia|].
    simpl mbind. rewrite arr_get_at by lia. simpl mbind.
    pose proof (trade_snoc 0 (i - 1) x s ltac:(lia) Hx Hs1 Hs2) as Ht. rewrite Z.sub_add in Ht.
    assert (0 <= s <= 1073741823) by (destruct Hs1 as (k & ? & ->); apply p_range; lia).
    pose proof (p_range i ltac:(lia)). rewrite chk32_ok by lia. simpl mbind.
    destruct (optima_set (trade 0) dp' 0 i i _ ltac:(lia) ltac:(lia) Ho ltac:(lia) Ht) as (dp2 & -> & H2).
    rewrite (decide_True (P:=(i = i))), decide_False in H2 by lia.
    eexists. split; [done|]. split; [done|]. split.
    + destruct Hs1 as (k & ? & ->). destruct (Z.min_spec (p k) (p i)) as [[_ ->]|[_ ->]];
        [exists k|exists i]; lia.
    + intros k Hk. destruct (decide (k = i)) as [->|]; [lia|]. pose proof (Hs2 k ltac:(lia)). lia.
Qed.

Lemma P1_optima : exists dp, P1 prices (vla n) = Some dp /\ optima (fun i => trade i (n - 1)) dp 0 n.
Proof.
  unfold P1. rewrite vset_in by (rewrite length_replicate; lia). simpl mbind.
  rewrite arr_get_at by lia. simpl mbind.
  edestruct (for_downto (fun i '(dp, s) => optima (fun i => trade i (n - 1)) dp (i + 1) n /\
    (exists j, i < j <= n - 1 /\ s = p j) /\ (forall j, i < j <= n - 1 -> p j <= s)) (n - 1 - 1) 0)
    as ([dp s] & -> & H & _); [lia| | |exists dp; by split].
  - split_and!; [split|exists (n - 1); lia|intros k Hk; replace k with (n - 1) by lia; lia].
    + rewrite length_insert, length_replicate. lia.
    + intros k Hk. exists 0. rewrite vget_insert by (rewrite ?length_replicate; lia).
      replace k with (n - 1) by lia. rewrite Z.eqb_refl. split; [done|]. apply trade_one. lia.
  - intros i [dp' s] Hi (Ho & Hs1 & Hs2). destruct (proj2 Ho (i + 1)) as (x & -> & Hx); [lia|].
    simpl mbind. rewrite arr_get_at by lia. simpl mbind.
    pose proof (trade_cons i (n - 1) x s ltac:(lia) Hx Hs1 Hs2) as Ht.
    assert (0 <= s <= 1073741823) by (destruct Hs1 as (k & ? & ->); apply p_range; lia).
    pose proof (p_range i ltac:(lia)). rewrite chk32_ok by lia. simpl mbind.
    destruct (optima_set (fun i => trade i (n - 1)) dp' (i + 1) n i _ ltac:(lia) ltac:(lia) Ho ltac:(lia) Ht)
      as (dp2 & -> & H2).
    rewrite (decide_True (P:=(i = i + 1 - 1))), decide_False in H2 by lia.
    eexists. split; [done|]. rewrite Z.sub_add. split; [done|]. split.
    + destruct Hs1 as (k & ? & ->). destruct (Z.max_spec (p k) (p i)) as [[_ ->]|[_ ->]];
        [exists i|exists k]; lia.
    + intros k Hk. destruct (decide (k = i)) as [->|]; [lia|]. pose proof (Hs2 k ltac:(lia)). lia.
Qed.

Lemma maxProfit_trade : exists m, maxProfit prices = Some m /\ is_max (trade 0 (n - 1)) m.
Proof.
  unfold maxProfit. zfalse (n =? 0). destruct P0_optima as (dp & -> & _ & H).
  destruct (H (n - 1) ltac:(lia)) as (m & E & Hm). by exists m.
Qed.

(** What round [i] of maxProfit3 looks at: the second trade starts on day [i] or
    later, the first one is over before. *)
Definition split_at (i x : Z) : Prop :=
  exists u v, (if decide (i = 0) then u = 0 else trade 0 (i - 1) u) /\ trade i (n - 1) v /\ x = u + v.

Lemma split_two x :
  two_trades x <-> x = 0 \/ exists i, 0 <= i < n /\ split_at i x.
Proof.
  split.
  - intros (k & j & k' & j' & ? & ? & ? & ->). right. unfold split_at.
    destruct (decide (j < k')).
    + exists k'. split; [lia|]. exists (p j - p k), (p j' - p k').
      rewrite decide_False by lia. split_and!; [exists k, j|exists k', j'|]; lia.
    + exists 0. split; [lia|]. exists 0, (p j' - p k). replace k' with j by lia.
      split_and!; [done|exists k, j'|]; lia.
  - intros [->|(i & Hi & u & v & Hu & (k' & j' & ? & ? & ->) & ->)]; [exists 0, 0, 0, 0; lia|].
    case_decide; subst; [exists 0, 0, k', j'; lia|]. destruct Hu as (k & j & ? & ? & ->).
    exists k, j, k', j'. lia.
Qed.

Lemma split_max i u v :
  0 <= i < n -> (if decide (i = 0) then u = 0 else is_max (trade 0 (i - 1)) u) ->
  is_max (trade i (n - 1)) v -> is_max (split_at i) (u + v).
Proof.
  intros Hi Hu [Hv Hvm]. split.
  - exists u, v. split_and!; [|done|done]. case_decide; [done|apply Hu].
  - intros x (u' & v' & Hu' & Hv'%Hvm & ->). case_decide; [lia|]. apply Hu in Hu'. lia.
Qed.

Lemma maxProfit3_two_trades : exists m, maxProfit3 prices = Some m /\ is_max two_trades m.
Proof.
  unfold maxProfit3. zfalse (n =? 0). destruct P0_optima as (dp0 & -> & _ & H0).
  destruct P1_optima as (dp1 & -> & _ & H1). simpl mbind.
  edestruct (for_upto (fun i m => is_max (fun x => x = 0 \/ exists i', 0 <= i' < i /\ split_at i' x) m)
    0 (n - 1)) as (m & E & Hm); [lia| | |exists m; split; [exact E|]].
  - split; [by left|]. intros x [->|(i' & ? & _)]; lia.
  - intros i m Hi Hm. destruct (H1 i ltac:(lia)) as (v & -> & Hv).
    assert (exists u, (if negb (i =? 0) then vget dp0 (i - 1) else Some 0) = Some u /\
      if decide (i = 0) then u = 0 else is_max (trade 0 (i - 1)) u) as (u & -> & Hu).
    { destruct (Z.eqb_spec i 0) as [->|]; simpl; [by exists 0|].
      destruct (H0 (i - 1) ltac:(lia)) as (u & ? & ?). exists u. by rewrite decide_False. }
    simpl mbind. assert (-1073741823 <= u <= 1073741823).
    { case_decide; [lia|]. apply (trade_range 0 (i - 1)); [lia|lia|apply Hu]. }
    pose proof (trade_range i (n - 1) v ltac:(lia) ltac:(lia) (proj1 Hv)).
    rewrite chk32_ok by lia. simpl mbind. eexists. split; [done|].
    apply (is_max_union _ _ _ _ _ (split_max i u v ltac:(lia) Hu Hv) Hm).
    intros x. split.
    + intros [->|(i' & Hi' & Hs)]; [by right; left|].
      destruct (decide (i' = i)) as [->|]; [by left|right; right; exists i'; split; [lia|done]].
    + intros [Hs|[->|(i' & ? & ?)]]; [right; exists i; split; [lia|done]|by left|right; exists i'; split; [lia|done]].
  - rewrite Z.sub_add in Hm. destruct Hm as [Hm1 Hm2].
    split; [by apply split_two|]. intros x Hx%split_two. by apply Hm2.
Qed.
End prices.

(** maxProfit of the first exercise is the greatest profit of one trade, that of
    the third one the greatest of at most two trades of which the second does
    not start before the first has ended, over all days to buy and sell on. *)
Theorem maxProfit_max prices :
  0 < size prices -> Forall (fun x => 0 <= x <= 1073741823) prices ->
  (exists m, maxProfit prices = Some m /\ is_max (trade prices 0 (size prices - 1)) m) /\
  (exists m, maxProfit3 prices = Some m /\ is_max (two_trades prices) m).
Proof. split; [by apply maxProfit_trade|by apply maxProfit3_two_trades]. Qed.

Lemma maxProfit_max_witness :
  let prices := [3; 3; 5; 0; 0; 3; 1; 4] in
  0 < size prices /\ Forall (fun x => 0 <= x <= 1073741823) prices /\
  maxProfit prices = Some 4 /\ maxProfit3 prices = Some 6 /\
  (exists m, maxProfit prices = Some m /\ is_max (trade prices 0 (size prices - 1)) m) /\
  (exists m, maxProfit3 prices = Some m /\ is_max (two_trades prices) m).
Proof.
  intros prices. assert (Forall (fun x => 0 <= x <= 1073741823) prices) as H
    by (repeat (constructor; [lia|]); constructor).
  split; [simpl; lia|]. split; [done|]. split; [done|]. split; [done|].
  apply (maxProfit_max prices); [simpl; lia|done].
Defined.

(** *** The second exercise adds nothing up *)

Lemma run_end k prices x :
  0 < x -> x + Z.of_nat k = size prices ->
  exists y, run k prices x = Some y /\ x <= y <= size prices /\
    (y < size prices -> at_ prices y <= at_ prices (y - 1)).
Proof.
  revert x. induction k as [|k IH]; intros x Hx Hk; [exists x; split_and!; [done|lia..]|].
  cbn [run]. rewrite !arr_get_at by lia. simpl mbind. case_bool.
  - exists x. zbool. split_and!; [done|lia..].
  - destruct (IH (x + 1)) as (y & -> & ? & ?); [lia|lia|]. exists y. split_and!; [done|lia..|done].
Qed.

Lemma runs_result fuel prices x result :
  0 <= x <= size prices ->
  size prices - x <= Z.of_nat fuel ->
  runs fuel prices x result = Some result.
Proof.
  revert x. induction fuel as [|fuel IH]; intros x Hx Hf.
  { simpl. zfalse (x <? size prices). done. }
  cbn [runs]. case_bool; [done|]. zbool. destruct (Z.eqb_spec x 0) as [->|Hn]; simpl mbind.
  { apply IH; lia. }
  rewrite !arr_get_at by lia. simpl mbind. destruct (Z.leb_spec (at_ prices x) (at_ prices (x - 1))).
  { apply IH; lia. }
  destruct (run_end (Z.to_nat (size prices - x)) prices x) as (y & -> & Hy & Hd); [lia|lia|].
  simpl mbind. assert (y <> x) by (intros ->; specialize (Hd ltac:(lia)); lia).
  rewrite arr_get_at by lia. simpl mbind. apply IH; lia.
Qed.

(** maxProfit of the second exercise ends and answers 0 for all prices: the
    profit of a run is never added to the result. *)
Lemma maxProfit2_zero prices : maxProfit2 prices = Some 0.
Proof.
  unfold maxProfit2. case_bool; [done|]. apply runs_result; lia.
Qed.

End Stock.

(** ** gas-station.cc *)
Module GasStation.

(** The loop, of [k] rounds at most: [id], [sv], [g] and [c].

    src/code/leetcode/gas-station.cc:24-36 [Solution::canCompleteCircuit] *)
Fixpoint circuit (k : nat) (gas cost : list Z) (id sv g c : Z) : option Z :=
  match k with
  | O => None
  | S k =>
      x ← arr_get gas id; g ← chk32 (g + x);
      y ← arr_get cost id; c ← chk32 (c + y);
      let id := Z.rem (id + 1) (size gas) in
      let '(g, c, sv) := if g <? c then (0, 0, id) else (g, c, sv) in
      if id =? 0 then Some sv else circuit k gas cost id sv g c
  end.

(** src/code/leetcode/gas-station.cc:6-38 [Solution::canCompleteCircuit] *)
Definition canCompleteCircuit (gas cost : list Z) : option Z :=
  let n := size gas in
  '(g, c) ← for_ (upto 0 (n - 1)) (fun i '(g, c) =>
    x ← arr_get gas i; g ← chk32 (g + x);
    y ← arr_get cost i; c ← chk32 (c + y);
    Some (g, c)) (0, 0);
  if g <? c then Some (-1) else circuit (length gas) gas cost 0 0 0 0.

Section stations.
Context (gas cost : list Z).
Notation n := (size gas).
Notation G := (sumf (at_ gas)).
Notation C := (sumf (at_ cost)).

(** What is left of the gas after [k] stations from [s] on, around the circle. *)
Definition left_over (s k : Z) : Z :=
  sumf (fun t => at_ gas ((s + t) mod n) - at_ cost ((s + t) mod n)) 0 k.
Definition tour (s : Z) : Prop := forall k, 0 <= k <= n -> 0 <= left_over s k.

Hypothesis Hn : 0 < n.
Hypothesis Hc : size cost = n.
Hypothesis Hgas : Forall (fun x => 0 <= x) gas.
Hypothesis Hcost : Forall (fun x => 0 <= x) cost.
Hypothesis HG : G 0 n <= 2147483647.
Hypothesis HC : C 0 n <= 2147483647.

(** The balance of the stations before [i]. *)
Definition P (i : Z) : Z := G 0 i - C 0 i.

Lemma gas_range a b : 0 <= a <= b -> b <= n -> 0 <= G a b <= 2147483647 /\ 0 <= C a b <= 2147483647.
Proof.
  intros Ha Hb. assert (forall f, (forall i, 0 <= i < n -> 0 <= f i) -> sumf f 0 n <= 2147483647 ->
    0 <= sumf f a b <= 2147483647) as H.
  { intros f Hf Hs. rewrite (sumf_app f 0 a n), (sumf_app f a b n) in Hs by lia.
    assert (forall u v, 0 <= u <= v -> v <= n -> 0 <= sumf f u v) as Hp.
    { intros u v ? ?. pose proof (sumf_le (fun _ => 0) f u v) as Hle. rewrite sumf_const in Hle by lia.
      specialize (Hle ltac:(intros; apply Hf; lia)). lia. }
    pose proof (Hp 0 a). pose proof (Hp a b). pose proof (Hp b n). lia. }
  split; apply H; try done; intros i Hi; apply (at_Forall (fun x => 0 <= x)); done || lia.
Qed.

Lemma P_succ i : 0 <= i -> P (i + 1) = P i + (at_ gas i - at_ cost i).
Proof. intros. unfold P. rewrite !sumf_snoc by lia. lia. Qed.

Lemma left_over_P s k :
  0 <= s < n -> 0 <= k <= n ->
  left_over s k = if s + k <=? n then P (s + k) - P s else P n - P s + P (s + k - n).
Proof.
  intros Hs Hk. rewrite <- (Z2Nat.id k) in Hk |- * by lia. induction (Z.to_nat k) as [|m IH].
  - unfold left_over. rewrite sumf_nil by lia. case_bool; [|zb]. rewrite Z.add_0_r. lia.
  - replace (Z.of_nat (S m)) with (Z.of_nat m + 1) in * by lia. unfold left_over in *.
    rewrite sumf_snoc, IH by lia. rewrite Z.add_assoc.
    destruct (Z.leb_spec (s + Z.of_nat m) n), (Z.leb_spec (s + Z.of_nat m + 1) n); try lia.
    + rewrite Z.mod_small by lia. rewrite P_succ by lia. lia.
    + replace (s + Z.of_nat m) with n by lia. rewrite Z_mod_same_full.
      replace (n + 1 - n) with (0 + 1) by lia. rewrite P_succ by lia. unfold P at 5. rewrite !sumf_nil by lia. lia.
    + replace (s + Z.of_nat m) with (s + Z.of_nat m - n + 1 * n) at 2 3 by lia.
      rewrite Z_mod_plus_full, Z.mod_small by lia.
      replace (s + Z.of_nat m + 1 - n) with (s + Z.of_nat m - n + 1) by lia. rewrite P_succ by lia. lia.
Qed.

(** The place of the lowest balance so far is where the loop would start. *)
Lemma circuit_spec k id sv :
  id + Z.of_nat k = n -> 0 <= sv <= id -> id < n -> 0 <= P n ->
  (forall j, 0 <= j <= id -> P sv <= P j) ->
  exists s, circuit k gas cost id sv (G sv id) (C sv id) = Some s /\ 0 <= s < n /\
    forall j, 0 <= j <= n -> P s <= P j.
Proof.
  revert id sv. induction k as [|k IH]; intros id sv Hk Hsv Hid HP Hmin; [lia|].
  cbn [circuit]. rewrite !arr_get_at by lia. simpl mbind.
  pose proof (gas_range sv (id + 1) ltac:(lia) ltac:(lia)) as [Hg1 Hc1].
  rewrite <- !sumf_snoc by lia. rewrite chk32_ok by lia. simpl mbind. rewrite chk32_ok by lia. simpl mbind.
  assert (forall j, 0 <= j <= id + 1 -> P (if G sv (id + 1) <? C sv (id + 1) then id + 1 else sv) <= P j) as Hm.
  { assert (P (id + 1) - P sv = G sv (id + 1) - C sv (id + 1)) as Hd.
    { unfold P. rewrite (sumf_app (at_ gas) 0 sv (id + 1)), (sumf_app (at_ cost) 0 sv (id + 1)) by lia. lia. }
    intros j Hj. destruct (decide (j = id + 1)) as [->|].
    - case_bool; zbool; lia.
    - specialize (Hmin j ltac:(lia)). case_bool; zbool; lia. }
  rewrite Z.rem_mod_nonneg by lia. destruct (decide (id + 1 = n)) as [He|He].
  - rewrite He, Z_mod_same_full in *. destruct (Z.ltb_spec (G sv n) (C sv n)).
    + exfalso. specialize (Hmin 0 ltac:(lia)). unfold P in Hmin at 2. rewrite !sumf_nil in Hmin by lia.
      assert (P n < P sv); [|lia]. unfold P.
      rewrite (sumf_app (at_ gas) 0 sv n), (sumf_app (at_ cost) 0 sv n) by lia. lia.
    + simpl. exists sv. split_and!; [done|lia|lia|done].
  - rewrite Z.mod_small by lia. destruct (Z.ltb_spec (G sv (id + 1)) (C sv (id + 1))).
    + zfalse (id + 1 =? 0). specialize (IH (id + 1) (id + 1)). rewrite !sumf_nil in IH by lia.
      apply IH; [lia|lia|lia|done|done].
    + zfalse (id + 1 =? 0). apply IH; [lia|lia|lia|done|done].
Qed.

Lemma canCompleteCircuit_spec :
  exists s, canCompleteCircuit gas cost = Some s /\
    ((s = -1 /\ forall s', 0 <= s' < n -> ~ tour s') \/ (0 <= s < n /\ tour s)).
Proof.
  unfold canCompleteCircuit.
  edestruct (for_upto (fun i gc => gc = (G 0 i, C 0 i)) 0 (n - 1)) as ([g c] & -> & [= -> ->]); [lia|done| |].
  { intros i [g c] Hi [= -> ->]. rewrite !arr_get_at by lia. simpl mbind.
    pose proof (gas_range 0 (i + 1) ltac:(lia) ltac:(lia)). rewrite <- !sumf_snoc by lia.
    rewrite chk32_ok by lia. simpl mbind. rewrite chk32_ok by lia. by eexists. }
  simpl mbind. rewrite Z.sub_add.
  destruct (Z.ltb_spec (G 0 n) (C 0 n)) as [Hlt|Hge].
  - exists (-1). split; [done|]. left. split; [done|]. intros s Hs Ht. specialize (Ht n ltac:(lia)).
    rewrite left_over_P in Ht by lia. unfold P in Ht.
    destruct (Z.leb_spec (s + n) n).
    + replace s with 0 in Ht by lia. rewrite (sumf_nil (at_ gas) 0 0), (sumf_nil (at_ cost) 0 0) in Ht by lia.
      rewrite Z.add_0_l in Ht. lia.
    + replace (s + n - n) with s in Ht by lia. lia.
  - destruct (circuit_spec (length gas) 0 0) as (s & E & Hs & Hm); [lia|lia|lia|unfold P; lia| |].
    { intros j Hj. by replace j with 0 by lia. }
    rewrite !sumf_nil in E by lia. exists s. split; [done|]. right. split; [done|].
    intros k Hk. rewrite left_over_P by lia. assert (0 <= P n) by (unfold P; lia).
    destruct (Z.leb_spec (s + k) n); [specialize (Hm (s + k) ltac:(lia))|specialize (Hm (s + k - n) ltac:(lia))]; lia.
Qed.
End stations.

(** canCompleteCircuit answers a station from which the gas never runs out on
    the way around, and -1 exactly when there is none. *)
Theorem canCompleteCircuit_tour gas cost :
  0 < size gas -> size cost = size gas ->
  Forall (fun x => 0 <= x) gas -> Forall (fun x => 0 <= x) cost ->
  sumf (at_ gas) 0 (size gas) <= 2147483647 -> sumf (at_ cost) 0 (size gas) <= 2147483647 ->
  exists s, canCompleteCircuit gas cost = Some s /\
    ((s = -1 /\ forall s', 0 <= s' < size gas -> ~ tour gas cost s') \/
     (0 <= s < size gas /\ tour gas cost s)).
Proof. apply canCompleteCircuit_spec. Qed.

Lemma canCompleteCircuit_tour_witness :
  let gas := [1; 2; 3; 4; 5] in let cost := [3; 4; 5; 1; 2] in
  0 < size gas /\ size cost = size gas /\ Forall (fun x => 0 <= x) gas /\ Forall (fun x => 0 <= x) cost /\
  canCompleteCircuit gas cost = Some 3 /\
  exists s, canCompleteCircuit gas cost = Some s /\
    ((s = -1 /\ forall s', 0 <= s' < size gas -> ~ tour gas cost s') \/
     (0 <= s < size gas /\ tour gas cost s)).
Proof.
  intros gas cost. assert (Forall (fun x => 0 <= x) gas) by (repeat (constructor; [lia|]); constructor).
  assert (Forall (fun x => 0 <= x) cost) by (repeat (constructor; [lia|]); constructor).
  split_and!; try done. apply (canCompleteCircuit_tour gas cost); try done; by vm_compute.
Defined.

(** Without a station the loop reads an element that is not there. *)
Example canCompleteCircuit_empty : canCompleteCircuit [] [] = None.
Proof. done. Qed.

End GasStation.

(** ** merge-sort-array.cc *)
Module MergeArray.

(** The first loop: [A], [y] and [p] when it ends.

    src/code/leetcode/merge-sort-array.cc:10-19 [Solution::merge] *)
Fixpoint both (fuel : nat) (A B : list Z) (x y p : Z) : option (list Z * Z * Z) :=
  if (0 <=? x) && (0 <=? y) then
    match fuel with
    | O => None
    | S fuel =>
        a ← arr_get A x; b ← arr_get B y;
        if b <=? a then A ← arr_set A p a; both fuel A B (x - 1) y (p - 1)
        else A ← arr_set A p b; both fuel A B x (y - 1) (p - 1)
    end
  else Some (A, y, p).

(** src/code/leetcode/merge-sort-array.cc:20-22 [Solution::merge] *)
Fixpoint rest (fuel : nat) (A B : list Z) (y p : Z) : option (list Z) :=
  if 0 <=? y then
    match fuel with
    | O => None
    | S fuel => b ← arr_get B y; A ← arr_set A p b; rest fuel A B (y - 1) (p - 1)
    end
  else Some A.

(** src/code/leetcode/merge-sort-array.cc:6-23 [Solution::merge] *)
Definition merge (A : list Z) (m : Z) (B : list Z) (n : Z) : option (list Z) :=
  '(A, y, p) ← both (Z.to_nat (m + n)) A B (m - 1) (n - 1) (m + n - 1);
  rest (Z.to_nat n) A B y p.

Notation sorted := (StronglySorted Z.le).

Lemma arr_set_mid (a b l : list Z) x y i :
  l = a ++ x :: b -> i = size a -> arr_set l i y = Some (a ++ y :: b).
Proof.
  intros -> ->. rewrite arr_set_nat by (rewrite length_app; simpl; lia).
  by rewrite insert_app_r_alt, Nat.sub_diag by lia.
Qed.

(** Room for [S k] elements: [k] and one at the end. *)
Lemma snoc_room {A} (l : list A) k : length l = S k -> exists l' x, l = l' ++ [x] /\ length l' = k.
Proof.
  intros Hl. destruct l as [|x l] using rev_ind; [done|].
  exists l, x. rewrite length_app in Hl. simpl in Hl. split; [done|lia].
Qed.

Lemma rest_copies fuel ys gap tl rb :
  length gap = length ys -> (length ys <= fuel)%nat ->
  rest fuel (gap ++ tl) (ys ++ rb) (size ys - 1) (size ys - 1) = Some (ys ++ tl).
Proof.
  revert ys gap tl rb. induction fuel as [|fuel IH]; intros ys gap tl rb Hg Hf.
  { destruct ys; [|simpl in *; lia]. by destruct gap. }
  destruct ys as [|y ys _] using rev_ind; [by destruct gap|].
  rewrite length_app in *. simpl in Hf. rewrite Nat.add_1_r in Hg.
  destruct (snoc_room gap _ Hg) as (gap' & g & -> & Hg'). cbn [rest].
  simpl length. case_bool; [|zb].
  rewrite <- !(assoc_L (++)). simpl app.
  rewrite (arr_get_mid ys rb _ y) by (done || lia). simpl mbind.
  rewrite (arr_set_mid gap' tl _ g) by (done || lia). simpl mbind.
  replace (Z.of_nat (length ys + 1) - 1 - 1) with (size ys - 1) by lia.
  rewrite IH by lia. done.
Qed.

Lemma sorted_snoc xs a : sorted (xs ++ [a]) <-> sorted xs /\ forall x, x ∈ xs -> x <= a.
Proof.
  rewrite StronglySorted_app. split.
  - intros (H & Hs & _). split; [done|]. intros x Hx. apply H; [done|by left].
  - intros [Hs H]. split_and!; [|done|repeat constructor].
    by intros x y Hx ->%list_elem_of_singleton; apply H.
Qed.

Lemma both_ends fuel A B x y p : x < 0 \/ y < 0 -> both fuel A B x y p = Some (A, y, p).
Proof. intros. destruct fuel; cbn [both]; (case_bool; [zb|done]). Qed.

Lemma merge_loops fuel fuel2 xs ys gap tl rb :
  (length xs + length ys <= fuel)%nat -> (length ys <= fuel2)%nat -> length gap = length ys ->
  sorted xs -> sorted ys ->
  exists c,
    ('(A, y, p) ← both fuel (xs ++ gap ++ tl) (ys ++ rb) (size xs - 1) (size ys - 1) (size xs + size ys - 1);
     rest fuel2 A (ys ++ rb) y p) = Some (c ++ tl) /\ c ≡ₚ xs ++ ys /\ sorted c.
Proof.
  revert xs ys gap tl rb. induction fuel as [|fuel IH]; intros xs ys gap tl rb Hf Hf2 Hg Hxs Hys;
    (destruct xs as [|a xs _] using rev_ind;
      [exists ys; rewrite both_ends by (simpl; lia); simpl mbind; by rewrite rest_copies|]);
    (destruct ys as [|b ys _] using rev_ind;
      [exists (xs ++ [a]); rewrite both_ends by (simpl; lia); destruct gap; [|done];
       rewrite app_nil_r; by destruct fuel2|]).
  { rewrite length_app in Hf. simpl in Hf. lia. }
  rewrite length_app in Hf, Hf2, Hg. simpl in Hf, Hf2, Hg. rewrite length_app in Hf. simpl in Hf.
  rewrite Nat.add_1_r in Hg. destruct (snoc_room gap _ Hg) as (gap' & g & -> & Hg').
  apply sorted_snoc in Hxs as Hxs2. destruct Hxs2 as [Sx Mx].
  apply sorted_snoc in Hys as Hys2. destruct Hys2 as [Sy My].
  rewrite !length_app. simpl length. cbn [both]. case_bool; [|zb].
  rewrite <- !(assoc_L (++)). simpl app.
  rewrite (arr_get_mid xs (gap' ++ g :: tl) (xs ++ _) a) by (done || lia). simpl mbind.
  rewrite (arr_get_mid ys rb (ys ++ _) b) by (done || lia). simpl mbind.
  destruct (Z.leb_spec b a).
  - rewrite (arr_set_mid (xs ++ a :: gap') tl _ g); simpl mbind.
    2: { by rewrite <- (assoc_L (++)). }
    2: { rewrite length_app. simpl. lia. }
    destruct (IH xs (ys ++ [b]) (a :: gap') (a :: tl) rb) as (c & Ec & Pc & Sc);
      [rewrite length_app; simpl; lia|rewrite length_app; simpl; lia|rewrite length_app; simpl; lia|done|done|].
    exists (c ++ [a]). split_and!.
    + rewrite <- (assoc_L (++) c). simpl. rewrite <- Ec. rewrite length_app. simpl.
      rewrite <- !(assoc_L (++)). do 2 f_equal; simpl; f_equal; lia.
    + rewrite Pc. solve_Permutation.
    + apply sorted_snoc. split; [done|]. intros x. rewrite Pc, !elem_of_app, list_elem_of_singleton.
      intros [Hx|[Hx| ->]]; [by apply Mx|specialize (My x Hx); lia|lia].
  - rewrite (arr_set_mid (xs ++ a :: gap') tl _ g); simpl mbind.
    2: { by rewrite <- (assoc_L (++)). }
    2: { rewrite length_app. simpl. lia. }
    destruct (IH (xs ++ [a]) ys gap' (b :: tl) ([b] ++ rb)) as (c & Ec & Pc & Sc);
      [rewrite length_app; simpl; lia|lia|lia|done|done|].
    exists (c ++ [b]). split_and!.
    + rewrite <- (assoc_L (++) c). simpl. rewrite <- Ec. rewrite length_app. simpl.
      rewrite <- !(assoc_L (++)). do 2 f_equal; simpl; f_equal; lia.
    + rewrite Pc. solve_Permutation.
    + apply sorted_snoc. split; [done|]. intros x. rewrite Pc, !elem_of_app, list_elem_of_singleton.
      intros [[Hx| ->]|Hx]; [specialize (Mx x Hx); lia|lia|by apply My].
Qed.

(** merge leaves in [A] a sorted permutation of its first m and of B's first n
    values, in place and whatever the room after the first m holds, and nothing
    after it is touched. *)
Theorem merge_sorted xs gap tl ys rb :
  sorted xs -> sorted ys -> length gap = length ys ->
  exists c, merge (xs ++ gap ++ tl) (size xs) (ys ++ rb) (size ys) = Some (c ++ tl) /\
    c ≡ₚ xs ++ ys /\ sorted c.
Proof. intros. unfold merge. apply merge_loops; done || lia. Qed.

Lemma merge_sorted_witness :
  sorted [1; 4; 6] /\ sorted [2; 4] /\ length [0; 0] = length [2; 4] /\
  merge [1; 4; 6; 0; 0; 9] 3 [2; 4; 7] 2 = Some [1; 2; 4; 4; 6; 9] /\
  exists c, merge ([1; 4; 6] ++ [0; 0] ++ [9]) (size [1; 4; 6]) ([2; 4] ++ [7]) (size [2; 4]) = Some (c ++ [9]) /\
    c ≡ₚ [1; 4; 6] ++ [2; 4] /\ sorted c.
Proof.
  assert (sorted [1; 4; 6]) by (repeat (constructor; [|repeat (constructor; [lia|]); constructor]); constructor).
  assert (sorted [2; 4]) by (repeat (constructor; [|repeat (constructor; [lia|]); constructor]); constructor).
  split_and!; try done. by apply (merge_sorted [1; 4; 6] [0; 0] [9] [2; 4] [7]).
Defined.

End MergeArray.

(** ** longest-consecutive-sequence.cc *)
Module LongestConsecutive.

(** [std::sort] on an [int] vector. *)
Definition sort (num : list Z) : list Z := merge_sort Z.le num.

(** src/code/leetcode/longest-consecutive-sequence.cc:8-37 [Solution::longestConsecutive] *)
Definition longestConsecutive (num : list Z) : option Z :=
  if (size num =? 0) || (size num =? 1) then Some (size num) else
  let num := sort num in
  '(length, code) ← for_ (upto 1 (size num - 1)) (fun i '(length, code) =>
    a ← arr_get num i; b ← arr_get num (i - 1);
    if a =? b then Some (length, code) else
    d ← chk32 (a - b);
    if d =? 1 then Some (length + 1, code)
    else Some (1, if code <? length then length else code)) (1, 1);
  Some (if code <? length then length else code).

(** [k] integers in a row are among [num]. *)
Definition consecutive (num : list Z) (k : Z) : Prop :=
  0 <= k /\ exists x, forall y, x <= y < x + k -> y ∈ num.

Section num.
Context (num s : list Z).
Hypothesis Hs : StronglySorted Z.le s.
Hypothesis Hp : s ≡ₚ num.
Notation S := (at_ s).

(** After the first [i]: the row that ends there cannot be longer, [code] is the
    length of a row, and no row that ends by there is longer than both. *)
Definition rows (i : Z) (st : Z * Z) : Prop :=
  let '(length, code) := st in
  1 <= length /\ (forall y, S (i - 1) - length < y <= S (i - 1) -> y ∈ num) /\
  S (i - 1) - length ∉ num /\ consecutive num code /\
  forall x k, 1 <= k -> (forall y, x <= y < x + k -> y ∈ num) -> x + k - 1 <= S (i - 1) ->
    k <= Z.max length code.

Lemma between i y : 1 <= i < size s -> y ∈ num -> y <= S (i - 1) \/ S i <= y.
Proof.
  intros Hi Hy. rewrite <- Hp in Hy. apply elem_of_at in Hy as (j & Hj & <-).
  destruct (decide (j <= i - 1)); [left|right]; apply sorted_at; done || lia.
Qed.

Lemma rows_start : 1 <= size s -> rows 1 (1, 1).
Proof.
  intros Hn. unfold rows. change (1 - 1) with 0.
  assert (forall y, y ∈ num -> S 0 <= y) as Hmin.
  { intros y Hy. rewrite <- Hp in Hy. apply elem_of_at in Hy as (j & Hj & <-). apply sorted_at; done || lia. }
  assert (S 0 ∈ num) by (rewrite <- Hp; apply elem_of_at; exists 0; lia).
  split_and!; [lia| | | |].
  - intros y Hy. by replace y with (S 0) by lia.
  - intros Hy%Hmin. lia.
  - split; [lia|]. exists (S 0). intros y Hy. by replace y with (S 0) by lia.
  - intros x k Hk Hx He. pose proof (Hmin x ltac:(apply Hx; lia)). lia.
Qed.

Lemma row_end i x k :
  1 <= i < size s -> 1 <= k -> (forall y, x <= y < x + k -> y ∈ num) ->
  x + k - 1 <= S i -> x + k - 1 <= S (i - 1) \/ x + k - 1 = S i.
Proof. intros Hi Hk Hx He. destruct (between i (x + k - 1) Hi); [apply Hx; lia|by left|right; lia]. Qed.

Lemma rows_step i length code :
  1 <= i < size s -> rows i (length, code) ->
  rows (i + 1)
    (if S i =? S (i - 1) then (length, code)
     else if S i - S (i - 1) =? 1 then (length + 1, code)
     else (1, if code <? length then length else code)).
Proof.
  intros Hi (Hl & Hr & Hm & Hc & Ha). pose proof (sorted_at s (i - 1) i Hs ltac:(lia) ltac:(lia)) as Hle.
  assert (S i ∈ num) as Hin by (rewrite <- Hp; apply elem_of_at; exists i; lia).
  unfold rows. rewrite Z.add_simpl_r.
  destruct (Z.eqb_spec (S i) (S (i - 1))) as [->|Hne]; [done|].
  destruct (Z.eqb_spec (S i - S (i - 1)) 1) as [He|He].
  - split_and!; [lia| | |done|].
    + intros y Hy. destruct (decide (y = S i)) as [->|]; [done|]. apply Hr. lia.
    + by replace (S i - (length + 1)) with (S (i - 1) - length) by lia.
    + intros x k Hk Hx Hend. destruct (row_end i x k Hi Hk Hx Hend) as [H|H].
      * specialize (Ha x k Hk Hx H). lia.
      * destruct (decide (k = 1)) as [->|]; [lia|].
        specialize (Ha x (k - 1) ltac:(lia)). assert (k - 1 <= length); [|lia].
        destruct (decide (x <= S (i - 1) - length)); [|lia]. destruct Hm. apply Hx. lia.
  - split_and!; [lia| | | |].
    + intros y Hy. by replace y with (S i) by lia.
    + intros Hy%(between i); lia.
    + case_bool; [|done]. split; [lia|]. exists (S (i - 1) - length + 1). intros y Hy. apply Hr. lia.
    + intros x k Hk Hx Hend. destruct (row_end i x k Hi Hk Hx Hend) as [H|H].
      * specialize (Ha x k Hk Hx H). case_bool; zbool; lia.
      * destruct (decide (k = 1)) as [->|]; [lia|].
        exfalso. destruct (between i (S i - 1) Hi); [apply Hx|..]; lia.
Qed.

End num.

(** longestConsecutive is the greatest number of integers in a row among the
    values, however often each occurs; the difference of two neighbours in the
    sorted vector must be an int. *)
Theorem longestConsecutive_max num :
  Forall (fun x => -1073741824 <= x <= 1073741823) num ->
  exists k, longestConsecutive num = Some k /\ is_max (consecutive num) k.
Proof.
  intros Hr. unfold longestConsecutive.
  destruct num as [|a [|b l]].
  { exists 0. split; [done|]. split; [split; [done|]; exists 0; intros; lia|].
    intros k (Hk & x & Hx). destruct (decide (k = 0)); [lia|].
    pose proof (Hx x ltac:(lia)) as H. by apply elem_of_nil in H. }
  { exists 1. split; [done|]. split.
    - split; [lia|]. exists a. intros y Hy. replace y with a by lia. by left.
    - intros k (Hk & x & Hx). destruct (decide (k <= 1)); [done|].
      pose proof (Hx x ltac:(lia)) as H1. pose proof (Hx (x + 1) ltac:(lia)) as H2.
      apply list_elem_of_singleton in H1, H2. lia. }
  assert (2 <= size (a :: b :: l)) as Hn by (simpl length; lia).
  set (num := a :: b :: l) in *. clearbody num. case_bool; [zb|]. clear E.
  pose proof (StronglySorted_merge_sort Z.le num) as Hs. pose proof (merge_sort_Permutation Z.le num) as Hp.
  fold (sort num) in *. set (s := sort num) in *.
  assert (2 <= size s) as Hn2 by (by rewrite Hp).
  assert (forall i, 0 <= i < size s -> -1073741824 <= at_ s i <= 1073741823) as Hi.
  { intros i Hi. rewrite <- Hp in Hr. by apply (at_Forall (fun x => -1073741824 <= x <= 1073741823)). }
  edestruct (for_upto (rows num s) 1 (size s - 1)) as ([len code] & -> & Hl & Hrow & Hm & Hc & Ha);
    [lia|apply (rows_start num s Hs Hp); lia| |].
  - intros i [len code] Hi' Hrows. rewrite !arr_get_at by lia. simpl mbind.
    pose proof (rows_step num s Hs Hp i len code ltac:(lia) Hrows) as Hst.
    pose proof (Hi i ltac:(lia)). pose proof (Hi (i - 1) ltac:(lia)).
    case_bool; [by eexists|]. rewrite chk32_ok by lia. simpl mbind. case_bool; by eexists.
  - rewrite Z.sub_add in *. eexists. split; [done|]. split.
    + case_bool; [|done]. split; [lia|]. exists (at_ s (size s - 1) - len + 1).
      intros y Hy. apply Hrow. lia.
    + intros k (Hk & x & Hx). destruct (decide (k = 0)); [case_bool; zbool; destruct Hc; lia|].
      assert (x + k - 1 ∈ s) as He by (rewrite Hp; apply Hx; lia).
      apply elem_of_at in He as (j & Hj & He).
      specialize (Ha x k ltac:(lia) Hx ltac:(rewrite <- He; apply sorted_at; done || lia)).
      case_bool; zbool; lia.
Qed.

Lemma longestConsecutive_max_witness :
  Forall (fun x => -1073741824 <= x <= 1073741823) [100; 4; 200; 1; 3; 2; 3] /\
  longestConsecutive [100; 4; 200; 1; 3; 2; 3] = Some 4 /\
  exists k, longestConsecutive [100; 4; 200; 1; 3; 2; 3] = Some k /\
    is_max (consecutive [100; 4; 200; 1; 3; 2; 3]) k.
Proof.
  assert (Forall (fun x => -1073741824 <= x <= 1073741823) [100; 4; 200; 1; 3; 2; 3]) as H
    by (repeat (constructor; [lia|]); constructor).
  split; [done|]. split; [by vm_compute|]. by apply (longestConsecutive_max [100; 4; 200; 1; 3; 2; 3]).
Defined.

(** The difference of the least and the greatest int overflows. *)
Example longestConsecutive_overflow : longestConsecutive [-2147483648; 2147483647] = None.
Proof. by vm_compute. Qed.

End LongestConsecutive.

(** ** remove-element.cc and remove-duplicates-from-sorted-array.cc *)
Module Removal.

(** src/code/leetcode/remove-element.cc:7-16 [Solution::removeElement]
    The new length, and the array. *)
Definition removeElement (A : list Z) (n elem : Z) : option (Z * list Z) :=
  for_ (upto 0 (n - 1)) (fun i '(x, A) =>
    a ← arr_get A i;
    if a =? elem then Some (x, A) else A ← arr_set A x a; Some (x + 1, A)) (0, A).

(** src/code/leetcode/remove-duplicates-from-sorted-array.cc:4-12 [Solution::removeDuplicates] *)
Definition removeDuplicates (A : list Z) (n : Z) : option (Z * list Z) :=
  if n =? 0 then Some (0, A) else
  '(c, A) ← for_ (upto 1 (n - 1)) (fun i '(c, A) =>
    a ← arr_get A i; b ← arr_get A c;
    if a =? b then Some (c, A) else A ← arr_set A (c + 1) a; Some (c + 1, A)) (0, A);
  Some (c + 1, A).

(** Both loops put the elements they keep to the front: [kept] of them so far,
    and from [i] on the array is as it was. *)
Definition compacted (A0 kept A : list Z) (i : Z) : Prop :=
  exists gap, A = kept ++ gap ++ drop (Z.to_nat i) A0 /\ size (kept ++ gap) = i.

Lemma compacted_get A0 kept A i :
  compacted A0 kept A i -> 0 <= i < size A0 -> arr_get A i = Some (at_ A0 i).
Proof.
  intros (gap & -> & Hs) Hi. rewrite app_assoc. destruct (lookup_lt_is_Some_2 A0 (Z.to_nat i)) as [x Hx]; [lia|].
  rewrite (drop_S _ _ _ Hx). rewrite <- Hs. rewrite arr_get_app. rewrite Hs. unfold at_.
  by rewrite (list_lookup_total_correct _ _ _ Hx).
Qed.

Lemma compacted_skip A0 kept A i :
  compacted A0 kept A i -> 0 <= i < size A0 -> compacted A0 kept A (i + 1).
Proof.
  intros (gap & -> & Hs) Hi. destruct (lookup_lt_is_Some_2 A0 (Z.to_nat i)) as [x Hx]; [lia|].
  exists (gap ++ [x]). rewrite (drop_S _ _ _ Hx). split; [|rewrite app_assoc, length_app; cbn [length]; lia].
  rewrite <- !app_assoc. cbn [app]. do 4 f_equal. lia.
Qed.

Lemma compacted_keep A0 kept A i x :
  compacted A0 kept A i -> 0 <= i < size A0 -> size kept <= i ->
  exists A', arr_set A (size kept) x = Some A' /\ compacted A0 (kept ++ [x]) A' (i + 1).
Proof.
  intros H Hi Hk. apply (compacted_skip _ _ _ _ H) in Hi as (gap & -> & Hs).
  destruct gap as [|g gap]; [rewrite app_nil_r in Hs; lia|].
  exists ((kept ++ [x]) ++ gap ++ drop (Z.to_nat (i + 1)) A0). split.
  - rewrite (MergeArray.arr_set_mid kept (gap ++ drop (Z.to_nat (i + 1)) A0) _ g x (size kept)) by done. by rewrite <- app_assoc.
  - exists gap. split; [done|]. rewrite <- Hs. rewrite !length_app. cbn [length]. lia.
Qed.

Lemma take_at (A : list Z) i : 0 <= i < size A -> take (Z.to_nat (i + 1)) A = take (Z.to_nat i) A ++ [at_ A i].
Proof.
  intros Hi. destruct (lookup_lt_is_Some_2 A (Z.to_nat i)) as [x Hx]; [lia|].
  replace (Z.to_nat (i + 1)) with (S (Z.to_nat i)) by lia. rewrite (take_S_r _ _ _ Hx). unfold at_.
  by rewrite (list_lookup_total_correct _ _ _ Hx).
Qed.

(** removeElement moves the other elements to the front, in their order, and
    leaves what is behind the first [n] alone. *)
Theorem removeElement_filter A n elem :
  0 <= n <= size A ->
  exists x A', removeElement A n elem = Some (x, A') /\ size A' = size A /\
    take (Z.to_nat x) A' = filter (fun y => y <> elem) (take (Z.to_nat n) A) /\ drop (Z.to_nat n) A' = drop (Z.to_nat n) A.
Proof.
  intros Hn. unfold removeElement.
  destruct (for_upto (fun i '(x, A') => x = size (filter (fun y => y <> elem) (take (Z.to_nat i) A)) /\
      compacted A (filter (fun y => y <> elem) (take (Z.to_nat i) A)) A' i) 0 (n - 1) (fun i '(x, A) =>
    a ← arr_get A i;
    if a =? elem then Some (x, A) else A ← arr_set A x a; Some (x + 1, A)) (0, A))
    as ([x A'] & -> & -> & gap & -> & Hs); [lia| | |].
  - split; [done|]. by exists [].
  - intros i [? A'] Hi (-> & Hc). rewrite (compacted_get _ _ _ _ Hc) by lia. cbn [mbind option_bind].
    rewrite take_at, filter_app by lia. destruct (Z.eqb_spec (at_ A i) elem) as [E|E].
    + rewrite (filter_cons_False _ (at_ A i)), filter_nil, app_nil_r by (intros H; by apply H). eexists. split; [done|].
      split; [done|]. apply compacted_skip; [done|lia].
    + rewrite (filter_cons_True _ (at_ A i)), filter_nil by done.
      assert (size (filter (fun y => y <> elem) (take (Z.to_nat i) A)) <= i) as Hle.
      { pose proof (length_filter (fun y => y <> elem) (take (Z.to_nat i) A)) as Hl. rewrite length_take in Hl. lia. }
      destruct (compacted_keep _ _ _ _ (at_ A i) Hc ltac:(lia) Hle) as (A2 & -> & Hc2). cbn [mbind option_bind].
      eexists. split; [done|]. split; [rewrite length_app; cbn [length]; lia|done].
  - rewrite Z.sub_add in *. eexists _, _. split; [done|]. rewrite Nat2Z.id. split; [|split].
    + rewrite app_assoc, length_app, length_drop. lia.
    + by rewrite take_app_length.
    + rewrite app_assoc. apply drop_app_length'. lia.
Qed.

Lemma removeElement_filter_witness :
  0 <= 4 <= size [3; 2; 2; 3; 9] /\ removeElement [3; 2; 2; 3; 9] 4 3 = Some (2, [2; 2; 2; 3; 9]) /\
  exists x A', removeElement [3; 2; 2; 3; 9] 4 3 = Some (x, A') /\ size A' = size [3; 2; 2; 3; 9] /\
    take (Z.to_nat x) A' = filter (fun y => y <> 3) (take (Z.to_nat 4) [3; 2; 2; 3; 9]) /\
    drop (Z.to_nat 4) A' = drop (Z.to_nat 4) [3; 2; 2; 3; 9].
Proof. split; [cbn; lia|]. split; [reflexivity|]. apply removeElement_filter. cbn. lia. Defined.

(** removeDuplicates moves one of each number of a sorted array to the front. *)
Theorem removeDuplicates_once A n :
  0 <= n <= size A -> StronglySorted Z.le (take (Z.to_nat n) A) ->
  exists c A', removeDuplicates A n = Some (c, A') /\ size A' = size A /\
    StronglySorted Z.lt (take (Z.to_nat c) A') /\ (forall y, y ∈ take (Z.to_nat c) A' <-> y ∈ take (Z.to_nat n) A) /\
    drop (Z.to_nat n) A' = drop (Z.to_nat n) A.
Proof.
  intros Hn Hso. unfold removeDuplicates. destruct (Z.eqb_spec n 0) as [->|H0].
  { exists 0, A. split_and!; try done. constructor. }
  assert (forall i j, 0 <= i <= j -> j < n -> at_ A i <= at_ A j) as Hle.
  { intros i j Hi Hj. apply (sorted_at _ i j) in Hso; [|done|rewrite length_take; lia]. unfold at_ in *.
    rewrite !lookup_total_take_lt in Hso by lia. done. }
  destruct (for_upto (fun i '(c, A') => exists front last, c = size front /\ size front < i /\ last = at_ A (i - 1) /\
      compacted A (front ++ [last]) A' i /\ StronglySorted Z.lt (front ++ [last]) /\
      forall y, y ∈ front ++ [last] <-> y ∈ take (Z.to_nat i) A) 1 (n - 1) (fun i '(c, A) =>
    a ← arr_get A i; b ← arr_get A c;
    if a =? b then Some (c, A) else A ← arr_set A (c + 1) a; Some (c + 1, A)) (0, A))
    as ([c A'] & -> & front & lst & -> & Hf & _ & (gap & -> & Hs) & Hlt & Hin); [lia| | |].
  - exists [], (at_ A 0). split; [done|]. split; [cbn; lia|]. split; [done|]. 
    assert (take (Z.to_nat 1) A = [at_ A 0]) as -> by (destruct A; [cbn in Hn; lia|done]). split; [|split].
    + exists []. split; [|done]. destruct A; [cbn in Hn; lia|done].
    + repeat constructor.
    + done.
  - intros i [? A'] Hi (front & lst & -> & Hf & El & Hc & Hlt & Hin). rewrite (compacted_get _ _ _ _ Hc) by lia. cbn [mbind option_bind].
    assert (arr_get A' (size front) = Some lst) as ->.
    { destruct Hc as (gap & -> & _). rewrite <- !app_assoc. apply arr_get_app. }
    cbn [mbind option_bind]. pose proof (Hle (i - 1) i ltac:(lia) ltac:(lia)).
    destruct (Z.eqb_spec (at_ A i) lst) as [E|E].
    + eexists. split; [done|]. exists front, lst. split; [done|]. split; [lia|]. rewrite Z.add_simpl_r. split; [done|].
      split; [apply compacted_skip; [done|lia]|]. split; [done|]. intros y. rewrite Hin, take_at, (elem_of_app (take _ A)) by lia.
      split; [by left|]. intros [|Hy%list_elem_of_singleton]; [done|]. apply Hin. subst y. rewrite E, elem_of_app. right. left.
    + assert (size (front ++ [lst]) = size front + 1) as Esz by (rewrite length_app; cbn [length]; lia).
      destruct (compacted_keep _ _ _ _ (at_ A i) Hc ltac:(lia) ltac:(lia)) as (A2 & E2 & Hc2). rewrite Esz in E2. rewrite E2.
      cbn [mbind option_bind]. eexists. split; [done|]. exists (front ++ [lst]), (at_ A i). split; [done|]. split; [lia|].
      rewrite Z.add_simpl_r. split; [done|]. split; [done|]. split.
      * apply StronglySorted_app. split; [|split; [done|repeat constructor]]. intros x y Hx ->%list_elem_of_singleton.
        assert (x <= lst) as Hxl; [|lia]. apply elem_of_app in Hx as [Hx|Hx%list_elem_of_singleton]; [|lia].
        apply StronglySorted_app in Hlt as (H1 & _). pose proof (H1 x lst Hx ltac:(by left)). lia.
      * intros y. rewrite (elem_of_app (front ++ [lst])), take_at, (elem_of_app (take _ A)), Hin by lia. done.
  - rewrite Z.sub_add in *. cbn [mbind option_bind]. eexists _, _. split; [done|].
    replace (Z.to_nat (size front + 1)) with (length (front ++ [lst])) by (rewrite length_app; cbn [length]; lia).
    rewrite take_app_length. split; [rewrite app_assoc, length_app, length_drop; lia|]. split; [done|]. split; [done|].
    rewrite app_assoc. apply drop_app_length'. lia.
Qed.

Lemma removeDuplicates_small : removeDuplicates [1; 1; 2; 2; 3] 5 = Some (3, [1; 2; 3; 2; 3]).
Proof. reflexivity. Qed.
End Removal.
