(* ===== verification/Numbers.v ===== *)
(** * Numbers: the exercises of src/code/leetcode on single integers and bits

    [int] and [long long] are integers whose operations are checked at 32 and
    64 bits; the bit operators work on the two's complement representation that
    [Z] extends to all widths. *)

From S2P Require Import Prelude Loops.

Lemma odd_split i : i = 2 * Z.shiftr i 1 + Z.b2z (Z.odd i).
Proof. rewrite <- Z.div2_spec. apply Z.div2_odd. Qed.

(** ** divide-two-integers.cc *)
Module Divide.

(** src/code/leetcode/divide-two-integers.cc:50-59 [Solution::msb] *)
Definition msb (divisior : Z) : option Z :=
  '(n, _) ← for_ (upto 0 62) (fun i '(n, divisior) =>
    Some (if Z.odd divisior then i else n, Z.shiftr divisior 1)) (0, divisior);
  Some n.

(** The body of the inner loop.

    src/code/leetcode/divide-two-integers.cc:34-37 [Solution::divide] *)
Definition shift1 (_ : Z) (s : Z * Z) : option (Z * Z) :=
  let '(saved, base) := s in
  saved ← chk64 (Z.shiftl saved 1);
  base ← chk64 (Z.shiftl base 1);
  Some (saved, base).

(** The result and [*clear].

    src/code/leetcode/divide-two-integers.cc:27-48 [Solution::divide] *)
Definition divide_ (dividend divisor : Z) : option (Z * bool) :=
  x ← msb divisor;
  '(dividend, res) ← for_ (downto (62 - x) 0) (fun i '(dividend, res) =>
    '(saved, base) ← for_ (upto 0 (i - 1)) shift1 (divisor, 1);
    if saved <=? dividend then
      dividend ← chk64 (dividend - saved); res ← chk64 (res + base); Some (dividend, res)
    else Some (dividend, res)) (dividend, 0);
  Some (res, dividend =? 0).

(** src/code/leetcode/divide-two-integers.cc:7-25 [Solution::divide] *)
Definition divide (dividend divisor : Z) : option Z :=
  let a := dividend in
  let b := divisor in
  let minus := false in
  let '(minus, a) := if a <? 0 then (negb minus, - a) else (minus, a) in
  let '(minus, b) := if b <? 0 then (negb minus, - b) else (minus, b) in
  '(c, clear) ← divide_ a b;
  let c := if minus : bool then - c else c in
  Some (s32 c).

Lemma mod_pow2_succ d i :
  0 <= i -> d mod 2 ^ (i + 1) = d mod 2 ^ i + (if Z.odd (Z.shiftr d i) then 2 ^ i else 0).
Proof.
  intros. rewrite Z.add_1_r, Z.pow_succ_r, (Z.mul_comm 2), Z.rem_mul_r by lia.
  f_equal. rewrite Z.shiftr_div_pow2, Zodd_mod by lia.
  pose proof (Z.mod_pos_bound (d / 2 ^ i) 2 ltac:(lia)).
  destruct (Zeq_bool _ 1) eqn:E; [apply Zeq_bool_eq in E; lia|apply Zeq_bool_neq in E; nia].
Qed.

Lemma msb_log2 d : 0 < d < 9223372036854775808 -> msb d = Some (Z.log2 d).
Proof.
  intros Hd. unfold msb.
  destruct (for_upto (fun i '(n, e) => e = Z.shiftr d i /\ n = Z.log2 (d mod 2 ^ i)) 0 62
    (fun i '(n, divisior) => Some (if Z.odd divisior then i else n, Z.shiftr divisior 1)) (0, d))
    as ([n e] & -> & _ & ->); [lia| | |].
  - by rewrite Z.shiftr_0_r, Z.mod_1_r.
  - intros i [n e] Hi [-> ->]. eexists. split; [done|]. split; [by rewrite Z.shiftr_shiftr by lia|].
    rewrite mod_pow2_succ by lia. case_bool; [|by rewrite Z.add_0_r].
    symmetry. apply Z.log2_unique; [lia|]. pose proof (Z.mod_pos_bound d (2 ^ i) ltac:(lia)).
    rewrite Z.pow_succ_r by lia. lia.
  - simpl. f_equal. f_equal. apply Z.mod_small. lia.
Qed.

(** The inner loop shifts both by [i]. *)
Lemma shift_loop divisor i :
  0 <= divisor -> 0 <= i -> divisor * 2 ^ i <= 9223372036854775807 -> i <= 62 ->
  for_ (upto 0 (i - 1)) shift1 (divisor, 1) = Some (divisor * 2 ^ i, 2 ^ i).
Proof.
  intros Hd Hi Hb H62.
  destruct (for_upto (fun j s => s = (divisor * 2 ^ j, 2 ^ j)) 0 (i - 1) shift1 (divisor, 1))
    as (s & -> & ->); [lia| | |by rewrite Z.sub_add].
  - by rewrite Z.mul_1_r.
  - intros j s Hj ->.
    assert (2 ^ (j + 1) = 2 * 2 ^ j) as Hp by (rewrite Z.add_1_r, Z.pow_succ_r; lia).
    assert (2 ^ (j + 1) <= 2 ^ i) by (apply Z.pow_le_mono_r; lia).
    assert (2 ^ i <= 2 ^ 62) by (apply Z.pow_le_mono_r; lia). change (2 ^ 62) with 4611686018427387904 in *.
    pose proof (Z.pow_pos_nonneg 2 j ltac:(lia) ltac:(lia)).
    unfold shift1. rewrite !Z.shiftl_mul_pow2, Z.pow_1_r by lia. rewrite chk64_ok by nia. simpl mbind.
    rewrite chk64_ok by nia. eexists. split; [done|]. f_equal; lia.
Qed.

Lemma divide_spec a b :
  0 <= a < 4294967296 -> 0 < b < 4294967296 -> divide_ a b = Some (a / b, a mod b =? 0).
Proof.
  intros Ha Hb. unfold divide_. rewrite msb_log2 by lia. simpl mbind.
  pose proof (Z.log2_spec b ltac:(lia)) as [Hl Hu]. set (x := Z.log2 b) in *.
  assert (0 <= x <= 31).
  { split; [apply Z.log2_nonneg|]. unfold x. apply Z.lt_succ_r, Z.log2_lt_pow2; [lia|]. change (2 ^ Z.succ 31) with 4294967296. lia. }
  assert (forall i, 0 <= i <= 62 - x -> b * 2 ^ i <= 9223372036854775807) as Hov.
  { intros i Hi. assert (2 ^ Z.succ x * 2 ^ i <= 2 ^ 63); [|change (2 ^ 63) with 9223372036854775808 in *; nia].
    rewrite <- Z.pow_add_r by lia. apply Z.pow_le_mono_r; lia. }
  edestruct (for_downto (fun i '(d, r) => a = r * b + d /\ 0 <= d < b * 2 ^ (i + 1) /\ 0 <= r <= a)
    (62 - x) 0) as ([d r] & -> & Hq & Hd & Hr); [lia| | |].
  - split; [lia|]. split; [|lia]. split; [lia|]. replace (62 - x + 1) with (63 - x) by lia.
    assert (2 ^ x * 2 ^ (63 - x) = 2 ^ 63) as E by (rewrite <- Z.pow_add_r by lia; f_equal; lia).
    change (2 ^ 63) with 9223372036854775808 in E. nia.
  - intros i [d r] Hi (Hq & Hd & Hr). cbv beta iota. rewrite shift_loop by (try apply Hov; lia). simpl mbind.
    assert (2 ^ (i + 1) = 2 * 2 ^ i) as Hp by (rewrite Z.add_1_r, Z.pow_succ_r; lia).
    rewrite Hp in Hd. pose proof (Z.pow_pos_nonneg 2 i ltac:(lia) ltac:(lia)).
    destruct (Z.leb_spec (b * 2 ^ i) d); [|eexists; split; [done|]; rewrite Z.sub_add; split_and!; lia].
    assert (d <= a) by nia. assert (r + 2 ^ i <= a) by nia. assert (0 < b * 2 ^ i) by nia.
    rewrite chk64_ok by lia. simpl mbind. rewrite chk64_ok by lia. simpl mbind.
    eexists. split; [done|]. rewrite Z.sub_add. split_and!; nia.
  - simpl mbind. change (0 - 1 + 1) with 0 in Hd. rewrite Z.mul_1_r in Hd.
    rewrite <- (Z.div_unique_pos a b r d), <- (Z.mod_unique_pos a b r d) by lia. done.
Qed.

(** divide is the quotient rounded towards zero, for every int and every divisor
    but zero: no intermediate shift overflows, and the one quotient an int does
    not hold is converted to the least int. *)
Theorem divide_quot a b :
  -2147483648 <= a <= 2147483647 -> -2147483648 <= b <= 2147483647 -> b <> 0 ->
  divide a b = Some (s32 (Z.quot a b)).
Proof.
  intros Ha Hb Hn. unfold divide.
  assert (exists m b', (if b <? 0 then (negb (a <? 0), - b) else (a <? 0, b)) = (m, b') /\
    0 < b' < 4294967296 /\ Z.quot a b = if m : bool then - (Z.abs a / b') else Z.abs a / b') as (m & b' & E & Hb' & Hq).
  { destruct (Z.ltb_spec b 0), (Z.ltb_spec a 0); eexists _, _; (split; [done|]); (split; [lia|]); simpl.
    - rewrite <- Z.quot_div_nonneg by lia. rewrite <- (Z.quot_opp_opp a b) by lia. f_equal; lia.
    - rewrite <- Z.quot_div_nonneg by lia. rewrite Z.quot_opp_r by lia. rewrite Z.opp_involutive. f_equal; lia.
    - rewrite <- Z.quot_div_nonneg by lia. replace (Z.abs a) with (- a) by lia. rewrite Z.quot_opp_l by lia. lia.
    - rewrite <- Z.quot_div_nonneg by lia. f_equal; lia. }
  assert ((if a <? 0 then (negb false, - a) else (false, a)) = (a <? 0, Z.abs a)) as ->.
  { destruct (Z.ltb_spec a 0); simpl; f_equal; lia. }
  cbv beta iota. rewrite E. cbv beta iota. rewrite divide_spec by lia. simpl mbind. by rewrite Hq.
Qed.

Lemma divide_quot_witness :
  -2147483648 <= -7 <= 2147483647 /\ -2147483648 <= 2 <= 2147483647 /\ 2 <> 0 /\
  Z.quot (-7) 2 = -3 /\ divide (-7) 2 = Some (s32 (Z.quot (-7) 2)).
Proof. split_and!; try lia; [done|]. apply (divide_quot (-7) 2); lia. Defined.

(** The two cases that have no int for an answer. *)
Example divide_corners : divide (-2147483648) (-1) = Some (-2147483648) /\ divide 7 0 = Some (-1).
Proof. by vm_compute. Qed.

End Divide.

(** ** gray-code.cc *)
Module GrayCode.

(** The trailing zeros of [idx]; the [while] of the code ends within the width of
    an int unless [idx] is 0.

    src/code/leetcode/gray-code.cc:15-18 [Solution::grayCode] *)
Fixpoint zeros (fuel : nat) (idx c : Z) : option Z :=
  match fuel with
  | O => None
  | S fuel => if negb (Z.odd idx) then zeros fuel (Z.shiftr idx 1) (c + 1) else Some c
  end.

(** src/code/leetcode/gray-code.cc:7-24 [Solution::grayCode] *)
Definition grayCode (n : Z) : option (list Z) :=
  if (n <? 0) || (31 <=? n) then None else
  '(rs, _) ← for_ (upto 1 (Z.shiftl 1 n - 1)) (fun i '(rs, v) =>
    c ← zeros 32 i 0;
    let v := Z.lxor v (Z.shiftl 1 c) in
    Some (rs ++ [v], v)) ([0], 0);
  Some rs.

Definition gray (i : Z) : Z := Z.lxor i (Z.shiftr i 1).

(** The bits an increment changes: the trailing zeros and the bit above them. *)
Lemma zeros_spec fuel i c :
  0 < i < 2 ^ Z.of_nat fuel -> 
  exists k, zeros fuel i c = Some (c + k) /\ 0 <= k /\ Z.lxor i (i - 1) = Z.ones (k + 1).
Proof.
  revert i c. induction fuel as [|fuel IH]; intros i c Hi; [simpl in Hi; lia|].
  rewrite Nat2Z.inj_succ, Z.pow_succ_r in Hi by lia. pose proof (odd_split i) as Ho.
  cbn [zeros]. destruct (Z.odd i) eqn:E; simpl negb; cbv iota; simpl Z.b2z in Ho.
  - exists 0. split_and!; [f_equal; lia|lia|]. change (Z.ones (0 + 1)) with 1.
    apply Z.bits_inj'. intros k Hk. rewrite Z.lxor_spec. rewrite Ho.
    replace (2 * Z.shiftr i 1 + 1 - 1) with (2 * Z.shiftr i 1) by lia.
    destruct (decide (k = 0)) as [->|]; [by rewrite Z.testbit_odd_0, Z.testbit_even_0|].
    replace k with (Z.succ (k - 1)) by lia.
    rewrite Z.testbit_odd_succ, Z.testbit_even_succ by lia. rewrite xorb_nilpotent.
    symmetry. apply Z.bits_above_log2; simpl; lia.
  - set (j := Z.shiftr i 1) in *. destruct (IH j (c + 1)) as (k & Ez & Hk & Ex); [lia|].
    exists (k + 1). split_and!; [rewrite Ez; f_equal; lia|lia|].
    apply Z.bits_inj'. intros m Hm. rewrite Z.lxor_spec.
    replace i with (2 * j) by lia. replace (2 * j - 1) with (2 * (j - 1) + 1) by lia.
    destruct (decide (m = 0)) as [->|].
    + rewrite Z.testbit_odd_0, Z.testbit_even_0. by rewrite Z.ones_spec_low by lia.
    + replace m with (Z.succ (m - 1)) by lia. rewrite Z.testbit_odd_succ, Z.testbit_even_succ by lia.
      rewrite <- Z.lxor_spec, Ex. rewrite !Z.testbit_ones_nonneg by lia.
      destruct (Z.ltb_spec (m - 1) (k + 1)), (Z.ltb_spec (Z.succ (m - 1)) (k + 1 + 1)); done || lia.
Qed.

Lemma gray_lxor i j : Z.lxor (gray i) (gray j) = gray (Z.lxor i j).
Proof.
  unfold gray. rewrite Z.shiftr_lxor. apply Z.bits_inj'. intros k Hk. rewrite !Z.lxor_spec.
  by destruct (Z.testbit i k), (Z.testbit j k), (Z.testbit (Z.shiftr i 1) k), (Z.testbit (Z.shiftr j 1) k).
Qed.

Lemma gray_ones k : 0 <= k -> gray (Z.ones (k + 1)) = 2 ^ k.
Proof.
  intros Hk. unfold gray. apply Z.bits_inj'. intros m Hm.
  rewrite Z.lxor_spec, Z.shiftr_spec, !Z.testbit_ones_nonneg, Z.pow2_bits_eqb by lia.
  destruct (Z.ltb_spec m (k + 1)), (Z.ltb_spec (m + 1) (k + 1)), (Z.eqb_spec k m); done || lia.
Qed.

Lemma gray_bits i k : 0 <= k -> Z.testbit (gray i) k = xorb (Z.testbit i k) (Z.testbit i (k + 1)).
Proof. intros. unfold gray. by rewrite Z.lxor_spec, Z.shiftr_spec by lia. Qed.

Lemma gray_range i n : 0 <= n -> 0 <= i < 2 ^ n -> 0 <= gray i < 2 ^ n.
Proof.
  intros Hn Hi. assert (0 <= gray i) as H0.
  { apply Z.lxor_nonneg. rewrite Z.shiftr_nonneg. lia. }
  split; [done|]. destruct (decide (gray i = 0)) as [->|]; [lia|].
  apply Z.log2_lt_pow2; [lia|]. destruct (decide (i = 0)) as [->|]; [done|].
  unfold gray. eapply Z.le_lt_trans; [apply Z.log2_lxor; rewrite ?Z.shiftr_nonneg; lia|].
  apply Z.max_lub_lt; [by apply Z.log2_lt_pow2; lia|].
  eapply Z.le_lt_trans; [|apply (Z.log2_lt_pow2 i n); lia].
  apply Z.log2_le_mono. rewrite <- Z.div2_spec, Z.div2_div. dlia.
Qed.

Lemma gray_zero x : 0 <= x -> gray x = 0 -> x = 0.
Proof.
  intros Hx H. apply Z.lxor_eq in H. pose proof (odd_split x) as Ho. rewrite <- H in Ho.
  destruct (Z.odd x); simpl in Ho; lia.
Qed.

Lemma gray_inj i j : 0 <= i -> 0 <= j -> gray i = gray j -> i = j.
Proof.
  intros Hi Hj E. apply Z.lxor_eq, gray_zero; [apply Z.lxor_nonneg; lia|].
  rewrite <- gray_lxor, E. apply Z.lxor_nilpotent.
Qed.

Lemma grayCode_gray n : 0 <= n <= 30 -> grayCode n = Some (gray <$> upto 0 (2 ^ n - 1)).
Proof.
  intros Hn. unfold grayCode. case_bool; [zb|]. clear E.
  rewrite Z.shiftl_mul_pow2, Z.mul_1_l by lia.
  assert (0 < 2 ^ n <= 2 ^ 30) as Hp by (split; [lia|apply Z.pow_le_mono_r; lia]).
  change (2 ^ 30) with 1073741824 in Hp.
  edestruct (for_upto (fun i '(rs, v) => rs = gray <$> upto 0 (i - 1) /\ v = gray (i - 1)) 1 (2 ^ n - 1))
    as ([rs v] & -> & -> & _); [lia|by vm_compute| |by rewrite Z.sub_add].
  intros i [rs v] Hi [-> ->].
  destruct (zeros_spec 32 i 0) as (k & -> & Hk & Ex); [simpl; lia|]. simpl mbind.
  eexists. split; [done|]. rewrite Z.add_0_l, Z.shiftl_mul_pow2, Z.mul_1_l by lia.
  assert (Z.lxor (gray (i - 1)) (2 ^ k) = gray i) as ->.
  { rewrite <- gray_ones, <- Ex, <- gray_lxor, (Z.lxor_comm (gray i)) by lia.
    by rewrite <- Z.lxor_assoc, Z.lxor_nilpotent, Z.lxor_0_l. }
  rewrite Z.add_simpl_r. split; [|done]. rewrite (upto_snoc 0 i), fmap_app by lia. done.
Qed.

(** grayCode lists every number of n bits exactly once, starts at 0, and two
    neighbours differ in exactly one bit. *)
Theorem grayCode_spec n :
  0 <= n <= 30 ->
  exists rs, grayCode n = Some rs /\ rs ≡ₚ upto 0 (2 ^ n - 1) /\ head rs = Some 0 /\
    forall i, 0 <= i < 2 ^ n - 1 -> exists k, 0 <= k /\ Z.lxor (at_ rs (i + 1)) (at_ rs i) = 2 ^ k.
Proof.
  intros Hn. exists (gray <$> upto 0 (2 ^ n - 1)). split; [by apply grayCode_gray|].
  assert (0 < 2 ^ n <= 2 ^ 30) as Hp by (split; [lia|apply Z.pow_le_mono_r; lia]).
  change (2 ^ 30) with 1073741824 in Hp.
  assert (forall i, 0 <= i < 2 ^ n -> at_ (gray <$> upto 0 (2 ^ n - 1)) i = gray i) as Hat.
  { intros i Hi. unfold at_. apply list_lookup_total_correct. rewrite list_lookup_fmap.
    unfold upto. rewrite lookup_seqZ_lt by lia. simpl. f_equal. f_equal. lia. }
  split_and!.
  - apply submseteq_length_Permutation; [|by rewrite length_fmap].
    apply NoDup_submseteq.
    + apply NoDup_fmap_2_strong; [|apply NoDup_upto].
      intros x y Hx%elem_of_upto Hy%elem_of_upto. apply gray_inj; lia.
    + intros x (y & -> & Hy%elem_of_upto)%list_elem_of_fmap. apply elem_of_upto.
      pose proof (gray_range y n). lia.
  - by rewrite upto_cons by lia.
  - intros i Hi. rewrite !Hat by lia.
    destruct (zeros_spec 32 (i + 1) 0) as (k & _ & Hk & Ex); [simpl; lia|].
    exists k. split; [done|]. by rewrite gray_lxor, <- gray_ones, <- Ex, Z.add_simpl_r.
Qed.

Lemma grayCode_spec_witness :
  0 <= 2 <= 30 /\ grayCode 2 = Some [0; 1; 3; 2] /\
  exists rs, grayCode 2 = Some rs /\ rs ≡ₚ upto 0 (2 ^ 2 - 1) /\ head rs = Some 0 /\
    forall i, 0 <= i < 2 ^ 2 - 1 -> exists k, 0 <= k /\ Z.lxor (at_ rs (i + 1)) (at_ rs i) = 2 ^ k.
Proof. split; [lia|]. split; [by vm_compute|]. apply (grayCode_spec 2). lia. Defined.

End GrayCode.

(** ** single-number.cc, single-number-2.cc *)
Module SingleNumber.

(** src/code/leetcode/single-number.cc:3-10 [Solution::singleNumber] *)
Definition singleNumber (A : list Z) (n : Z) : option Z :=
  for_ (upto 0 (n - 1)) (fun i x => a ← arr_get A i; Some (Z.lxor x a)) 0.

(** src/code/leetcode/single-number-2.cc:16-23 [Solution::R] *)
Definition R (a : Z) (mask : list Z) : option (list Z) :=
  '(mask, _) ← for_ (upto 0 31) (fun i '(mask, a) =>
    mask ← if Z.odd a then m ← arr_get mask i; arr_set mask i (Z.rem (m + 1) 3) else Some mask;
    Some (mask, Z.shiftr a 1)) (mask, a);
  Some mask.

(** [<<] drops the bits that leave the [int], as the compilers the code is built
    with do.

    src/code/leetcode/single-number-2.cc:24-30 [Solution::S] *)
Definition S_ (mask : list Z) : option Z :=
  for_ (downto 31 0) (fun i code =>
    m ← arr_get mask i; chk32 (s32 (Z.shiftl code 1) + m)) 0.

(** src/code/leetcode/single-number-2.cc:6-15 [Solution::singleNumber] *)
Definition singleNumber2 (A : list Z) (n : Z) : option Z :=
  mask ← for_ (upto 0 (n - 1)) (fun i mask => a ← arr_get A i; R a mask) (replicate 32 0);
  S_ mask.

(** *** Twice *)

#[global] Instance lxor_comm : Comm (=) Z.lxor := Z.lxor_comm.
#[global] Instance lxor_assoc : Assoc (=) Z.lxor.
Proof. intros x y z. symmetry. apply Z.lxor_assoc. Qed.

Definition xor_all (l : list Z) : Z := foldr Z.lxor 0 l.

#[global] Instance xor_all_perm : Proper (Permutation ==> eq) xor_all.
Proof. apply (foldr_permutation_proper' (=) Z.lxor 0). Qed.

Lemma xor_all_app l k : xor_all (l ++ k) = Z.lxor (xor_all l) (xor_all k).
Proof.
  induction l as [|x l IH]; simpl; [by rewrite Z.lxor_0_l|].
  unfold xor_all in *. simpl. by rewrite IH, Z.lxor_assoc.
Qed.

Lemma singleNumber_xor A : singleNumber A (size A) = Some (xor_all A).
Proof.
  unfold singleNumber. edestruct (for_array A (fun p x => x = xor_all p) (fun a x => Some (Z.lxor x a)) 0)
    as (x & E & ->); [done| |exact E].
  intros p a q s _ ->. eexists. split; [done|]. rewrite xor_all_app. unfold xor_all at 3. simpl.
  by rewrite Z.lxor_0_r.
Qed.

(** *** Three times *)

(** How many of [l] have bit [k]. *)
Definition ones (k : Z) (l : list Z) : Z := cnt (fun a => Z.b2z (Z.testbit a k)) l.

Definition masked (mask : list Z) (f : Z -> Z) : Prop :=
  size mask = 32 /\ forall k, 0 <= k < 32 -> arr_get mask k = Some (f k mod 3).

Lemma R_masked a mask f :
  masked mask f -> exists mask', R a mask = Some mask' /\ masked mask' (fun k => f k + Z.b2z (Z.testbit a k)).
Proof.
  intros Hm. unfold R.
  edestruct (for_upto (fun i '(mask, e) => e = Z.shiftr a i /\
    masked mask (fun k => f k + if k <? i then Z.b2z (Z.testbit a k) else 0)) 0 31)
    as ([mask' e] & -> & _ & H); [lia| | |].
  - split; [by rewrite Z.shiftr_0_r|]. destruct Hm as [Hs Hm]. split; [done|].
    intros k Hk. rewrite Hm by done. zfalse (k <? 0). by rewrite Z.add_0_r.
  - intros i [m e] Hi (-> & Hs & Hg). assert (Z.odd (Z.shiftr a i) = Z.testbit a i) as ->.
    { rewrite <- Z.bit0_odd, Z.shiftr_spec by lia. done. }
    destruct (Z.testbit a i) eqn:E; cbn [mbind option_bind]; eexists.
    + rewrite Hg by lia. simpl. rewrite arr_set_in by lia. simpl. split; [done|].
      split; [by rewrite Z.shiftr_shiftr by lia|]. split; [by rewrite length_insert|].
      intros k Hk. rewrite arr_get_insert by lia. zfalse (i <? i). destruct (Z.eqb_spec k i) as [->|].
      * ztrue (i <? i + 1). rewrite E. simpl. f_equal. rewrite Z.rem_mod_nonneg by dlia. dlia.
      * rewrite Hg by lia. do 3 f_equal. destruct (Z.ltb_spec k i), (Z.ltb_spec k (i + 1)); done || lia.
    + split; [done|]. split; [by rewrite Z.shiftr_shiftr by lia|]. split; [done|].
      intros k Hk. rewrite Hg by lia. do 3 f_equal.
      destruct (Z.ltb_spec k i), (Z.ltb_spec k (i + 1)); try done; try lia.
      replace k with i by lia. by rewrite E.
  - eexists. split; [done|]. destruct H as [Hs Hg]. split; [done|]. intros k Hk.
    rewrite Hg by lia. by ztrue (k <? 31 + 1).
Qed.

Lemma s32_double y b : 0 <= b <= 1 -> s32 (s32 y * 2) + b = s32 (2 * y + b).
Proof.
  intros Hb. unfold s32, wrapS. change (32 - 1) with 31.
  change (2 ^ 32) with 4294967296. change (2 ^ 31) with 2147483648. dlia.
Qed.

(** Reading the bits of an int back from the top. *)
Lemma S_spec mask x :
  -2147483648 <= x <= 2147483647 -> masked mask (fun k => Z.b2z (Z.testbit x k)) ->
  S_ mask = Some x.
Proof.
  intros Hx [Hs Hg]. unfold S_.
  edestruct (for_downto (fun i code => code = s32 (Z.shiftr (u32 x) (i + 1))) 31 0) as (c & -> & ->); [lia| | |].
  - rewrite Z.shiftr_div_pow2, Z.div_small by (lia || apply (u32_range x)). done.
  - intros i c Hi ->. rewrite Hg by lia. simpl mbind.
    assert (Z.b2z (Z.testbit x i) mod 3 = Z.b2z (Z.testbit x i)) as -> by by destruct (Z.testbit x i).
    assert (Z.testbit x i = Z.testbit (u32 x) i) as -> by (unfold u32, wrapU; by rewrite Z.mod_pow2_bits_low by lia).
    eexists. split; [|done]. rewrite Z.sub_add.
    pose proof (odd_split (Z.shiftr (u32 x) i)) as Ho. rewrite Z.shiftr_shiftr in Ho by lia.
    rewrite <- Z.bit0_odd, Z.shiftr_spec, Z.add_0_l in Ho by lia.
    set (y := Z.shiftr (u32 x) (i + 1)) in *. set (b := Z.testbit (u32 x) i) in *.
    rewrite Z.shiftl_mul_pow2, Z.pow_1_r by lia.
    rewrite s32_double, <- Ho by (destruct b; simpl; lia).
    apply chk32_ok. pose proof (s32_range (Z.shiftr (u32 x) i)). lia.
  - rewrite Z.sub_add, Z.shiftr_0_r. f_equal. unfold s32, u32. rewrite wrapS_wrapU by lia. apply (s32_id x). lia.
Qed.

Lemma singleNumber2_masked A :
  exists mask, for_ (upto 0 (size A - 1)) (fun i mask => a ← arr_get A i; R a mask) (replicate 32 0) =
    Some mask /\ masked mask (fun k => ones k A).
Proof.
  apply (for_array A (fun p mask => masked mask (fun k => ones k p)) R).
  - split; [done|]. intros k Hk. unfold arr_get. case_bool; [zb|].
    by rewrite lookup_replicate_2 by lia.
  - intros p a q mask _ Hm. destruct (R_masked a mask _ Hm) as (mask' & E & H).
    exists mask'. split; [done|]. destruct H as [Hs H]. split; [done|].
    intros k Hk. rewrite (H k Hk). unfold ones. rewrite cnt_app. cbn [cnt]. by rewrite Z.add_0_r.
Qed.

(** The one value that the others do not repeat, in any order: with all others
    twice it is the exclusive or, with all others three times its bits are those
    whose number is not a multiple of three. *)
Theorem singleNumber_spec A l x :
  -2147483648 <= x <= 2147483647 ->
  (A ≡ₚ x :: l ++ l -> singleNumber A (size A) = Some x) /\
  (A ≡ₚ x :: l ++ l ++ l -> singleNumber2 A (size A) = Some x).
Proof.
  intros Hx. split; intros Hp.
  - rewrite singleNumber_xor, Hp. f_equal. change (x :: l ++ l) with ([x] ++ (l ++ l)).
    rewrite !xor_all_app, Z.lxor_nilpotent. unfold xor_all. simpl. by rewrite !Z.lxor_0_r.
  - unfold singleNumber2. destruct (singleNumber2_masked A) as (mask & -> & Hs & Hm). simpl mbind.
    apply S_spec; [done|]. split; [done|]. intros k Hk. rewrite (Hm k Hk). f_equal. unfold ones.
    rewrite Hp. simpl. rewrite !cnt_app. dlia.
Qed.

Lemma singleNumber_spec_witness :
  -2147483648 <= -7 <= 2147483647 /\
  singleNumber [3; -7; 3] 3 = Some (-7) /\ singleNumber2 [3; -7; 3; 3] 4 = Some (-7) /\
  ([3; -7; 3] ≡ₚ -7 :: [3] ++ [3] -> singleNumber [3; -7; 3] (size [3; -7; 3]) = Some (-7)) /\
  ([3; -7; 3] ≡ₚ -7 :: [3] ++ [3] ++ [3] -> singleNumber2 [3; -7; 3] (size [3; -7; 3]) = Some (-7)).
Proof.
  split; [lia|]. split; [by vm_compute|]. split; [by vm_compute|].
  apply (singleNumber_spec [3; -7; 3] [3] (-7)). lia.
Defined.

End SingleNumber.
