(* ===== verification/Words.v ===== *)
(** * Words: the exercises of src/code/leetcode on strings

    A [std::string] is a list of characters; [substr], [find] and comparison are
    those of the standard library. The matchers and dynamic programs are compared
    with inductive definitions of the languages they decide. *)

From S2P Require Import Prelude Loops.
From Stdlib Require Import Ascii.

#[export] Instance ascii_eq_dec : EqDecision ascii := ascii_dec.
Definition chars : string -> list ascii := String.list_ascii_of_string.
Notation "a ≟ b" := (bool_decide (a = b)) (at level 70).

(** [s.find(xs, pos)]: the first place from [pos] on where [xs] occurs. *)
Definition find (s xs : list ascii) (pos : nat) : option nat :=
  List.find (fun i => take (length xs) (drop i s) ≟ xs) (seq pos (length s + 1 - pos)).

Lemma find_Some s xs pos i :
  find s xs pos = Some i ->
  (pos <= i)%nat /\ take (length xs) (drop i s) = xs /\
  forall j, (pos <= j < i)%nat -> take (length xs) (drop j s) <> xs.
Proof.
  unfold find. generalize (length s + 1 - pos)%nat as n. intros n. revert pos.
  induction n as [|n IH]; intros pos; simpl; [done|]. case_bool_decide as Hx.
  - intros [= ->]. split_and!; [lia|done|]. intros; lia.
  - intros (? & ? & Hj)%IH. split_and!; [lia|done|]. intros j Hj'.
    destruct (decide (j = pos)) as [->|]; [done|]. apply Hj. lia.
Qed.

Lemma find_None s xs pos j :
  find s xs pos = None -> (pos <= j <= length s)%nat -> take (length xs) (drop j s) <> xs.
Proof.
  intros Hf Hj Hx. pose proof (List.find_none _ _ Hf j ltac:(apply in_seq; lia)) as Hn.
  by apply bool_decide_eq_false in Hn.
Qed.

(** ** interleaving-string.cc *)
Module Interleave.

Definition cell (dp : list (list bool)) (i j : Z) : option bool := r ← arr_get dp i; arr_get r j.
Definition set_cell (dp : list (list bool)) (i j : Z) (b : bool) : option (list (list bool)) :=
  r ← arr_get dp i; r ← arr_set r j b; arr_set dp i r.

(** src/code/leetcode/interleaving-string.cc:7-30 [Solution::isInterleave] *)
Definition isInterleave (s1 s2 s3 : list ascii) : option bool :=
  let n := size s1 in
  let m := size s2 in
  if negb (n + m =? size s3) then Some false else
  let dp := replicate (Z.to_nat (n + 1)) (replicate (Z.to_nat (m + 1)) false) in
  dp ← set_cell dp 0 0 true;
  dp ← for_ (upto 1 n) (fun i dp =>
    set_cell dp i 0 (take (Z.to_nat i) s1 ≟ take (Z.to_nat i) s3)) dp;
  dp ← for_ (upto 1 m) (fun i dp =>
    set_cell dp 0 i (take (Z.to_nat i) s2 ≟ take (Z.to_nat i) s3)) dp;
  dp ← for_ (upto 1 n) (fun i dp =>
    for_ (upto 1 m) (fun j dp =>
      a ← arr_get s1 (i - 1); b ← arr_get s2 (j - 1); c ← arr_get s3 (i + j - 1);
      u ← cell dp (i - 1) j; l ← cell dp i (j - 1);
      if ((a ≟ c) && u) || ((b ≟ c) && l) then set_cell dp i j true else Some dp) dp) dp;
  cell dp n m.

(** [interleave a b c]: [c] is a shuffle of [a] and [b]. *)
Inductive interleave : list ascii -> list ascii -> list ascii -> Prop :=
| interleave_nil : interleave [] [] []
| interleave_l x a b c : interleave a b c -> interleave (x :: a) b (x :: c)
| interleave_r x a b c : interleave a b c -> interleave a (x :: b) (x :: c).

Lemma interleave_nil_inv a b : interleave a b [] -> a = [] /\ b = [].
Proof. by inversion 1. Qed.

Lemma interleave_left a : interleave a [] a.
Proof. induction a; by constructor. Qed.
Lemma interleave_right b : interleave [] b b.
Proof. induction b; by constructor. Qed.

Lemma interleave_left_inv a c : interleave a [] c <-> a = c.
Proof.
  split; [|intros ->; apply interleave_left]. remember [] as b eqn:Hb.
  induction 1; simplify_eq; [done|]. f_equal. auto.
Qed.
Lemma interleave_right_inv b c : interleave [] b c <-> b = c.
Proof.
  split; [|intros ->; apply interleave_right]. remember [] as a eqn:Ha.
  induction 1; simplify_eq; [done|]. f_equal. auto.
Qed.

(** The last character of a shuffle is the last of one of the two. *)
Lemma interleave_snoc a b c x :
  interleave a b (c ++ [x]) <->
  (exists a', a = a' ++ [x] /\ interleave a' b c) \/ (exists b', b = b' ++ [x] /\ interleave a b' c).
Proof.
  split.
  - remember (c ++ [x]) as d eqn:Hd. intros H. revert c Hd.
    induction H as [|y a b d H IH|y a b d H IH]; intros c Hd.
    + by destruct c.
    + destruct c as [|z c]; simpl in Hd; simplify_eq.
      * apply interleave_nil_inv in H as [-> ->]. left. exists []. by repeat constructor.
      * destruct (IH c eq_refl) as [(a' & -> & Hi)|(b' & -> & Hi)];
          [left; exists (z :: a')|right; exists b']; split; by try constructor.
    + destruct c as [|z c]; simpl in Hd; simplify_eq.
      * apply interleave_nil_inv in H as [-> ->]. right. exists []. by repeat constructor.
      * destruct (IH c eq_refl) as [(a' & -> & Hi)|(b' & -> & Hi)];
          [left; exists a'|right; exists (z :: b')]; split; by try constructor.
  - intros [(a' & -> & H)|(b' & -> & H)]; induction H; simpl; try (by constructor).
    + apply interleave_left.
    + apply interleave_right.
Qed.

Section dp.
Context (s1 s2 s3 : list ascii).
Notation n := (size s1).
Notation m := (size s2).
Hypothesis Hsize : n + m = size s3.

(** What cell [i], [j] stands for. *)
Definition D (i j : Z) : Prop :=
  interleave (take (Z.to_nat i) s1) (take (Z.to_nat j) s2) (take (Z.to_nat (i + j)) s3).

Definition shape (dp : list (list bool)) : Prop := size dp = n + 1 /\ Forall (fun r => size r = m + 1) dp.
Definition in_range (i j : Z) : Prop := 0 <= i <= n /\ 0 <= j <= m.

(** The cells that are [known] are right, the others [false]. *)
Definition filled (known : Z -> Z -> Prop) (dp : list (list bool)) : Prop :=
  shape dp /\ forall i j, in_range i j -> exists b, cell dp i j = Some b /\
    (known i j -> b = true <-> D i j) /\ (~ known i j -> b = false).

Lemma set_cell_in dp i j b :
  shape dp -> in_range i j ->
  exists dp', set_cell dp i j b = Some dp' /\ shape dp' /\
    forall i' j', in_range i' j' -> cell dp' i' j' = if decide (i' = i /\ j' = j) then Some b else cell dp i' j'.
Proof.
  intros [Hn Hm] [Hi Hj]. unfold set_cell. destruct (arr_get_in dp i ltac:(lia)) as [r Hr]. rewrite Hr.
  assert (size r = m + 1) as Hr2.
  { apply arr_get_Some in Hr as [_ Hr]. by apply (Forall_lookup_1 _ _ _ _ Hm Hr). }
  simpl. rewrite arr_set_in by lia. simpl. rewrite arr_set_in by lia. eexists. split; [done|].
  split; [split; [by rewrite length_insert|]|].
  { apply Forall_insert; [done|]. by rewrite length_insert. }
  intros i' j' [Hi' Hj']. unfold cell. rewrite arr_get_insert by lia.
  destruct (Z.eqb_spec i' i) as [->|]; simpl.
  - rewrite arr_get_insert by lia. destruct (Z.eqb_spec j' j) as [->|].
    + by rewrite decide_True.
    + rewrite decide_False by naive_solver. by rewrite Hr.
  - rewrite decide_False by naive_solver. done.
Qed.

Lemma table_filled_set (known known' : Z -> Z -> Prop) dp i j (b : bool) :
  filled known dp -> in_range i j -> (b = true <-> D i j) ->
  (forall i' j', in_range i' j' -> known' i' j' <-> known i' j' \/ (i' = i /\ j' = j)) ->
  exists dp', set_cell dp i j b = Some dp' /\ filled known' dp'.
Proof.
  intros [Hs Hf] Hij Hb Hk. destruct (set_cell_in dp i j b Hs Hij) as (dp' & E & Hs' & Hc).
  exists dp'. split; [done|]. split; [done|]. intros i' j' Hij'. rewrite Hc by done.
  destruct (Hf i' j' Hij') as (b' & Eb & H1 & H2). case_decide as Hd.
  - destruct Hd as [-> ->]. exists b. split; [done|]. split; [done|]. intros Hn. destruct Hn. apply Hk; auto.
  - exists b'. split; [done|]. rewrite (Hk i' j' Hij'). split; [intros [?|?]; [by apply H1|done]|].
    intros Hn. apply H2. intros ?. apply Hn. by left.
Qed.

Lemma D_zero_l j : 0 <= j <= m -> D 0 j <-> take (Z.to_nat j) s2 = take (Z.to_nat j) s3.
Proof. intros. unfold D. apply interleave_right_inv. Qed.
Lemma D_zero_r i : 0 <= i <= n -> D i 0 <-> take (Z.to_nat i) s1 = take (Z.to_nat i) s3.
Proof. intros. unfold D. rewrite Z.add_0_r. apply interleave_left_inv. Qed.

Lemma take_succ (l : list ascii) i a :
  arr_get l i = Some a -> take (Z.to_nat (i + 1)) l = take (Z.to_nat i) l ++ [a].
Proof.
  intros [Hi Ha]%arr_get_Some. replace (Z.to_nat (i + 1)) with (S (Z.to_nat i)) by lia.
  by apply take_S_r.
Qed.

Lemma D_succ i j a b c :
  0 <= i -> 0 <= j -> arr_get s1 i = Some a -> arr_get s2 j = Some b -> arr_get s3 (i + j + 1) = Some c ->
  D (i + 1) (j + 1) <-> (a = c /\ D i (j + 1)) \/ (b = c /\ D (i + 1) j).
Proof.
  intros Hi Hj Ha Hb Hc. unfold D.
  replace (i + 1 + (j + 1)) with (i + j + 1 + 1) by lia. rewrite (take_succ s3 _ c Hc), interleave_snoc.
  replace (i + (j + 1)) with (i + j + 1) by lia. replace (i + 1 + j) with (i + j + 1) by lia.
  rewrite (take_succ s1 i a Ha), (take_succ s2 j b Hb). split.
  - intros [(a' & E & H)|(b' & E & H)]; apply app_inj_tail in E as [-> ->]; auto.
  - intros [[-> H]|[-> H]]; eauto.
Qed.

(** A cell that stays [false] becomes known when that is right. *)
Lemma filled_keep (known known' : Z -> Z -> Prop) dp i j :
  filled known dp -> ~ D i j -> ~ known i j ->
  (forall i' j', in_range i' j' -> known' i' j' <-> known i' j' \/ (i' = i /\ j' = j)) -> filled known' dp.
Proof.
  intros [Hs Hf] HD Hn Hk. split; [done|]. intros i' j' Hij. destruct (Hf i' j' Hij) as (b & E & H1 & H2).
  exists b. split; [done|]. rewrite (Hk i' j' Hij). split.
  - intros [?|[-> ->]]; [by apply H1|]. by rewrite (H2 Hn).
  - intros ?. apply H2. auto.
Qed.

(** One round of the two nested loops. *)
Lemma round i j dp :
  1 <= i <= n -> 1 <= j <= m ->
  filled (fun i' j' => j' = 0 \/ i' < i \/ (i' = i /\ j' < j)) dp ->
  exists dp', (a ← arr_get s1 (i - 1); b ← arr_get s2 (j - 1); c ← arr_get s3 (i + j - 1);
      u ← cell dp (i - 1) j; l ← cell dp i (j - 1);
      if ((a ≟ c) && u) || ((b ≟ c) && l) then set_cell dp i j true else Some dp) = Some dp' /\
    filled (fun i' j' => j' = 0 \/ i' < i \/ (i' = i /\ j' < j + 1)) dp'.
Proof.
  intros Hi Hj H. destruct (arr_get_in s1 (i - 1) ltac:(lia)) as [a Ha].
  destruct (arr_get_in s2 (j - 1) ltac:(lia)) as [b Hb].
  destruct (arr_get_in s3 (i + j - 1) ltac:(lia)) as [c Hc]. rewrite Ha, Hb, Hc. simpl mbind.
  destruct H as [Hs Hf].
  destruct (Hf (i - 1) j) as (u & -> & Hu & _); [split; lia|].
  destruct (Hf i (j - 1)) as (l & -> & Hl & _); [split; lia|]. simpl mbind.
  pose proof (D_succ (i - 1) (j - 1) a b c ltac:(lia) ltac:(lia) Ha Hb) as HD.
  replace (i - 1 + (j - 1) + 1) with (i + j - 1) in HD by lia. specialize (HD Hc). rewrite !Z.sub_add in HD.
  rewrite <- Hu, <- Hl in HD by lia.
  destruct (((a ≟ c) && u) || ((b ≟ c) && l)) eqn:E.
  - apply (table_filled_set (fun i' j' => j' = 0 \/ i' < i \/ (i' = i /\ j' < j))); [by split|split; lia| |unfold in_range; lia].
    split; [intros _|done]. apply HD.
    apply orb_true_iff in E as [[?%bool_decide_eq_true ?]%andb_true_iff|[?%bool_decide_eq_true ?]%andb_true_iff]; auto.
  - exists dp. split; [done|].
    apply (filled_keep (fun i' j' => j' = 0 \/ i' < i \/ (i' = i /\ j' < j)) _ _ i j); [by split| |lia|unfold in_range; lia].
    intros [[-> ->]|[-> ->]]%HD; rewrite (bool_decide_eq_true_2 (c = c)) in E by done;
      simpl in E; by rewrite ?orb_true_r in E.
Qed.

Lemma isInterleave_spec : exists b, isInterleave s1 s2 s3 = Some b /\ (b = true <-> interleave s1 s2 s3).
Proof.
  unfold isInterleave. case_bool; [zb|]. clear E.
  set (dp0 := replicate _ _).
  assert (filled (fun _ _ => False) dp0) as H0.
  { split; [split; [by unfold dp0; rewrite length_replicate; lia|apply Forall_replicate; rewrite length_replicate; lia]|].
    intros i j [Hi Hj]. exists false. split; [|done]. unfold cell, dp0, arr_get.
    zfalse (i <? 0). rewrite lookup_replicate_2 by lia. simpl. zfalse (j <? 0). by rewrite lookup_replicate_2 by lia. }
  destruct (table_filled_set (fun _ _ => False) (fun i j => i < 1 /\ j = 0) dp0 0 0 true H0) as (dp1 & -> & H1);
    [split; lia|split; [by constructor|done]|unfold in_range; lia|]. simpl mbind.
  edestruct (for_upto (fun i => filled (fun i' j' => i' < i /\ j' = 0)) 1 n) as (dp2 & -> & H2);
    [lia|exact H1| |simpl mbind].
  { intros i dp Hi H. apply (table_filled_set _ _ dp i 0 _ H); [split; lia| |unfold in_range; lia].
    rewrite bool_decide_eq_true. by rewrite D_zero_r by lia. }
  edestruct (for_upto (fun j => filled (fun i' j' => j' = 0 \/ (i' = 0 /\ j' < j))) 1 m) as (dp3 & -> & H3);
    [lia| | |simpl mbind].
  { destruct H2 as [Hs H2]. split; [done|]. intros i j Hij. destruct (H2 i j Hij) as (b & E & Hk & Hn).
    exists b. split; [done|]. unfold in_range in Hij. split; [intros ?; apply Hk; lia|intros ?; apply Hn; lia]. }
  { intros j dp Hj H. apply (table_filled_set _ _ dp 0 j _ H); [split; lia| |unfold in_range; lia].
    rewrite bool_decide_eq_true. by rewrite D_zero_l by lia. }
  edestruct (for_upto (fun i => filled (fun i' j' => j' = 0 \/ i' < i)) 1 n) as (dp4 & -> & H4);
    [lia| | |simpl mbind].
  { destruct H3 as [Hs H3]. split; [done|]. intros i j Hij. destruct (H3 i j Hij) as (b & E & Hk & Hn).
    exists b. split; [done|]. unfold in_range in Hij. split; [intros ?; apply Hk; lia|intros ?; apply Hn; lia]. }
  { intros i dp Hi H.
    edestruct (for_upto (fun j => filled (fun i' j' => j' = 0 \/ i' < i \/ (i' = i /\ j' < j))) 1 m)
      as (dp' & -> & Hd); [lia| |intros j dp' Hj H'; by apply round|].
    - destruct H as [Hs H]. split; [done|]. intros i' j' Hij. destruct (H i' j' Hij) as (b & E & Hk & Hn).
      exists b. split; [done|]. unfold in_range in Hij. split; [intros ?; apply Hk; lia|intros ?; apply Hn; lia].
    - exists dp'. split; [done|]. destruct Hd as [Hs Hd]. split; [done|].
      intros i' j' Hij. destruct (Hd i' j' Hij) as (b & E & Hk & Hn).
      exists b. split; [done|]. unfold in_range in Hij. split; [intros ?; apply Hk; lia|intros ?; apply Hn; lia]. }
  destruct H4 as [_ H4]. destruct (H4 n m) as (b & E & Hk & _); [split; lia|].
  exists b. split; [done|]. rewrite Hk by lia. unfold D. by rewrite !take_ge by lia.
Qed.
End dp.

(** isInterleave answers whether the third string is a shuffle of the first two,
    for all strings and without an access outside the table. *)
Theorem isInterleave_interleave s1 s2 s3 :
  exists b, isInterleave s1 s2 s3 = Some b /\ (b = true <-> interleave s1 s2 s3).
Proof.
  destruct (decide (size s1 + size s2 = size s3)) as [H|H]; [by apply isInterleave_spec|].
  exists false. split; [unfold isInterleave; case_bool; [done|zb]|].
  split; [done|]. intros Hi. destruct H. induction Hi; simpl length; lia.
Qed.

Example isInterleave_runs :
  isInterleave (chars "aabcc") (chars "dbbca") (chars "aadbbcbcac") = Some true /\
  isInterleave (chars "aabcc") (chars "dbbca") (chars "aadbbbaccc") = Some false.
Proof. by vm_compute. Qed.

End Interleave.

(** ** wildcard-matching.cc *)
Module Wildcard.

Definition is_wild (c : ascii) : bool := (c ≟ "?"%char) || (c ≟ "*"%char).

(** The loop over [p], with [last].

    src/code/leetcode/wildcard-matching.cc:19-26 [Solution::simplify] *)
Fixpoint simplify_from (last : ascii) (p : list ascii) : list ascii :=
  match p with
  | [] => []
  | c :: p => if (last ≟ "*"%char) && (c ≟ "*"%char) then simplify_from last p else c :: simplify_from c p
  end.

(** src/code/leetcode/wildcard-matching.cc:16-28 [Solution::simplify] *)
Definition simplify (p : list ascii) : list ascii := simplify_from "000"%char p.

Fixpoint questions (p : list ascii) : nat :=
  match p with [] => 0 | c :: p => (if c ≟ "?"%char then 1 else 0) + questions p end%nat.

(** src/code/leetcode/wildcard-matching.cc:30-42 [Solution::baseMatch] *)
Definition baseMatch (s p : list ascii) : bool := (questions p <=? length s)%nat.

(** A [while] over the characters that satisfy [f]. *)
Fixpoint span (f : ascii -> bool) (s : list ascii) : nat :=
  match s with [] => O | c :: s => if f c then S (span f s) else O end.

(** The place and length of the first run of literal characters, [None] for -1.

    src/code/leetcode/wildcard-matching.cc:44-61 [Solution::findx] *)
Definition findx (s : list ascii) : option (nat * nat) :=
  let p := span is_wild s in
  if (p =? length s)%nat then None else Some (p, span (fun c => negb (is_wild c)) (drop p s)).

(** The loop over [pos]; [u] and [v] match the two sides.

    src/code/leetcode/wildcard-matching.cc:77-89 [Solution::isMatch] *)
Fixpoint attempts (fuel : nat) (u v : list ascii -> option bool) (s xs : list ascii) (pos : nat) : option bool :=
  match fuel with
  | O => None
  | S fuel =>
      match find s xs pos with
      | None => Some false
      | Some p =>
          bu ← u (take p s);
          b ← if bu : bool then v (drop (p + length xs) s) else Some false;
          if b : bool then Some true else attempts fuel u v s xs (pos + 1)
      end
  end.

(** [fuel] bounds the depth, at most the length of the pattern.

    src/code/leetcode/wildcard-matching.cc:63-91 [Solution::isMatch] *)
Fixpoint match_ (fuel : nat) (s p : list ascii) : option bool :=
  match p with
  | [] => Some (match s with [] => true | _ => false end)
  | _ =>
      match findx p with
      | None => Some (baseMatch s p)
      | Some (x, len) =>
          match fuel with
          | O => None
          | S fuel =>
              let xs := take len (drop x p) in
              let pu := take x p in
              let pv := drop (x + len) p in
              attempts (length s + 2) (fun u => match_ fuel u pu) (fun v => match_ fuel v pv) s xs 0
          end
      end
  end.

(** src/code/leetcode/wildcard-matching.cc:7-14 [Solution::isMatch] *)
Definition isMatch (s p : list ascii) : option bool :=
  let xp := simplify p in match_ (length xp) s xp.

(** *** What wildcards mean *)

Inductive wild : list ascii -> list ascii -> Prop :=
| wild_nil : wild [] []
| wild_any c p s : wild p s -> wild ("?"%char :: p) (c :: s)
| wild_none p s : wild p s -> wild ("*"%char :: p) s
| wild_more c p s : wild ("*"%char :: p) s -> wild ("*"%char :: p) (c :: s)
| wild_char c p s : is_wild c = false -> wild p s -> wild (c :: p) (c :: s).

(** The pattern with a star at the end of each run of wildcards. *)
Fixpoint add_stars (p : list ascii) : list ascii :=
  match p with
  | [] => []
  | c :: p =>
      if is_wild c then
        c :: match p with
             | d :: _ => if is_wild d then add_stars p else "*"%char :: add_stars p
             | [] => ["*"%char]
             end
      else c :: add_stars p
  end.

#[local] Hint Constructors wild : core.

Lemma wild_star p s : wild ("*"%char :: p) s <-> exists k, wild p (drop k s).
Proof.
  split.
  - remember ("*"%char :: p) as q eqn:Hq. induction 1; simplify_eq.
    + by exists 0%nat.
    + destruct IHwild as [k Hk]; [done|]. by exists (S k).
  - intros [k Hk]. revert s Hk. induction k as [|k IH]; intros s Hk; [by constructor|].
    destruct s as [|c s]; [by apply wild_none|]. apply wild_more. by apply IH.
Qed.

Lemma wild_app p q s : wild (p ++ q) s <-> exists u v, s = u ++ v /\ wild p u /\ wild q v.
Proof.
  split.
  - revert s. induction p as [|c p IH]; intros s; [by exists [], s|]. simpl.
    remember (c :: p ++ q) as r eqn:Hr. induction 1; simplify_eq.
    + destruct (IH s) as (u & v & -> & ? & ?); [done|]. exists (c0 :: u), v. auto.
    + destruct (IH s) as (u & v & -> & ? & ?); [done|]. exists u, v. auto.
    + destruct IHwild as (u & v & -> & ? & ?); [done|]. exists (c0 :: u), v. auto.
    + destruct (IH s) as (u & v & -> & ? & ?); [done|]. exists (c :: u), v. auto.
  - intros (u & v & -> & Hu & Hv). induction Hu; simpl; auto.
Qed.

Definition literal (xs : list ascii) : Prop := Forall (fun c => is_wild c = false) xs.
Definition wilds (xs : list ascii) : Prop := Forall (fun c => is_wild c = true) xs.

Lemma wild_literal xs s : literal xs -> wild xs s <-> s = xs.
Proof.
  intros Hl. split.
  - intros Hw. induction Hw; try done; apply Forall_cons in Hl as [Hc Hl]; try done.
    f_equal. by apply IHHw.
  - intros ->. induction Hl; auto.
Qed.

(** A run of wildcards with its star only counts. *)
Lemma wild_run p s : wilds p -> wild (p ++ ["*"%char]) s <-> (questions p <= length s)%nat.
Proof.
  intros Hp. revert s. induction Hp as [|c p Hc Hp IH]; intros s.
  - simpl. rewrite wild_star. split; [lia|]. intros _. exists (length s). rewrite drop_all. auto.
  - unfold is_wild in Hc. cbn [app questions]. case_bool_decide as Hq; [subst c|].
    + split.
      * inversion 1; subst; [|done]. simpl. rewrite IH in *. lia.
      * destruct s as [|d s]; simpl; [lia|]. intros. constructor. apply IH. lia.
    + simpl in Hc. apply bool_decide_eq_true in Hc as ->. rewrite wild_star.
      setoid_rewrite IH. setoid_rewrite length_drop. split; [intros [k Hk]; simpl in *; lia|].
      intros. exists 0%nat. simpl in *. lia.
Qed.

(** *** The split of a pattern at its first run of literals *)

Lemma splice_spec f s :
  Forall (fun c => f c = true) (take (span f s) s) /\
  (drop (span f s) s = [] \/ exists c r, drop (span f s) s = c :: r /\ f c = false).
Proof.
  induction s as [|c s [IH1 IH2]]; simpl; [by split; [constructor|left]|].
  destruct (f c) eqn:E; simpl; [by split; [constructor|]|]. split; [constructor|]. right. eauto.
Qed.

Lemma findx_None p : findx p = None -> wilds p.
Proof.
  unfold findx. destruct (Nat.eqb_spec (span is_wild p) (length p)) as [E|]; [|done]. intros _.
  destruct (splice_spec is_wild p) as [H _]. by rewrite E, take_ge in H by lia.
Qed.

Lemma findx_Some p x len :
  findx p = Some (x, len) ->
  let pu := take x p in let xs := take len (drop x p) in let pv := drop (x + len) p in
  p = pu ++ xs ++ pv /\ wilds pu /\ literal xs /\ xs <> [] /\
  (pv = [] \/ exists c r, pv = c :: r /\ is_wild c = true).
Proof.
  unfold findx. destruct (Nat.eqb_spec (span is_wild p) (length p)) as [|Hne]; [done|].
  intros [= <- <-]. destruct (splice_spec is_wild p) as [H1 H2].
  destruct (splice_spec (fun c => negb (is_wild c)) (drop (span is_wild p) p)) as [H3 H4].
  rewrite drop_drop in H4. split_and!.
  - by rewrite <- drop_drop, !take_drop.
  - done.
  - eapply Forall_impl; [exact H3|]. intros c. apply negb_true_iff.
  - destruct H2 as [E|(c & r & E & Hc)].
    + apply (f_equal length) in E. rewrite length_drop in E. simpl in E.
      assert (span is_wild p <= length p)%nat as Hle; [|lia].
      clear. induction p as [|c p IH]; simpl; [lia|]. destruct (is_wild c); lia.
    + rewrite E. simpl. by rewrite Hc.
  - destruct H4 as [|(c & r & E & Hc)]; [by left|]. right. exists c, r.
    split; [done|]. by apply negb_false_iff.
Qed.

Lemma add_stars_literal xs q : literal xs -> add_stars (xs ++ q) = xs ++ add_stars q.
Proof. induction 1 as [|c xs Hc Hl IH]; simpl; [done|]. by rewrite Hc, IH. Qed.

Definition ended (p : list ascii) : list ascii := match p with [] => [] | _ => p ++ ["*"%char] end.

Lemma add_stars_run p q :
  wilds p -> match q with c :: _ => is_wild c = false | [] => True end ->
  add_stars (p ++ q) = ended p ++ add_stars q.
Proof.
  intros Hp Hq. induction Hp as [|c p Hc Hp IH]; [done|]. cbn [app add_stars]. rewrite Hc.
  destruct p as [|d p].
  - simpl. destruct q as [|d q]; [done|]. by rewrite Hq.
  - simpl in IH |- *. apply Forall_cons in Hp as [Hd _]. rewrite Hd in *. f_equal. exact IH.
Qed.

Lemma add_stars_split p x len :
  findx p = Some (x, len) ->
  add_stars p = add_stars (take x p) ++ take len (drop x p) ++ add_stars (drop (x + len) p).
Proof.
  intros H%findx_Some. simpl in H. destruct H as (E & Hu & Hx & Hn & _).
  rewrite E at 1. rewrite add_stars_run; [|done|].
  - rewrite add_stars_literal by done. f_equal. symmetry.
    rewrite <- (app_nil_r (take x p)) at 1. rewrite add_stars_run by done. by rewrite app_nil_r.
  - destruct (take len (drop x p)) as [|c r]; [done|]. by apply Forall_cons in Hx as [? _].
Qed.

(** *** The search *)

Definition occurs_at (s xs : list ascii) (i : nat) : Prop := take (length xs) (drop i s) = xs.

Lemma attempts_spec (Pu Pv : list ascii -> Prop) u v s xs fuel pos :
  (forall t, exists b, u t = Some b /\ (b = true <-> Pu t)) ->
  (forall t, exists b, v t = Some b /\ (b = true <-> Pv t)) ->
  xs <> [] -> (length s + 1 - pos < fuel)%nat ->
  exists b, attempts fuel u v s xs pos = Some b /\
    (b = true <-> exists i, (pos <= i)%nat /\ occurs_at s xs i /\ Pu (take i s) /\ Pv (drop (i + length xs) s)).
Proof.
  intros Hu Hv Hx. revert pos. induction fuel as [|fuel IH]; intros pos Hf; [lia|]. cbn [attempts].
  destruct (find s xs pos) as [p|] eqn:E.
  - apply find_Some in E as (Hp & Ho & Hj).
    assert (forall i, (pos <= i)%nat -> occurs_at s xs i -> i = p \/ (pos + 1 <= i)%nat) as Hnext.
    { intros i Hi Hoi. destruct (decide (i = pos)) as [->|]; [|right; lia].
      destruct (decide (pos = p)); [by left|]. exfalso. by apply (Hj pos ltac:(lia)). }
    assert (p <= length s)%nat as Hps.
    { destruct (decide (p <= length s)%nat); [done|]. rewrite drop_ge in Ho by lia.
      rewrite take_nil in Ho. by destruct Hx. }
    destruct (Hu (take p s)) as (bu & -> & Hbu). simpl mbind.
    assert (exists b, (if bu then v (drop (p + length xs) s) else Some false) = Some b /\
      (b = true <-> Pu (take p s) /\ Pv (drop (p + length xs) s))) as (b & -> & Hb).
    { destruct bu; [|exists false; split; [done|]; naive_solver].
      destruct (Hv (drop (p + length xs) s)) as (b & -> & Hb). exists b. split; [done|]. naive_solver. }
    simpl mbind. destruct b.
    + exists true. split; [done|]. split; [intros _|done]. exists p. naive_solver.
    + destruct (IH (pos + 1)%nat) as (b & -> & Hb2); [lia|]. exists b. split; [done|]. rewrite Hb2. split.
      * intros (i & ? & ?). exists i. split; [lia|done].
      * intros (i & Hi & Hoi & HP). exists i. split; [|done].
        destruct (Hnext i Hi Hoi) as [->|]; [|done]. by apply Hb in HP.
  - exists false. split; [done|]. split; [done|]. intros (i & Hi & Ho & _). exfalso.
    destruct (decide (i <= length s)%nat); [by apply (find_None s xs pos i E)|].
    unfold occurs_at in Ho. rewrite drop_ge, take_nil in Ho by lia. by destruct Hx.
Qed.

Lemma wild_nil_iff s : match s with [] => true | _ => false end = true <-> wild [] s.
Proof. destruct s; split; auto; [done|]. by inversion 1. Qed.

Lemma match_spec fuel s p :
  (length p <= fuel)%nat ->
  exists b, match_ fuel s p = Some b /\ (b = true <-> wild (add_stars p) s).
Proof.
  revert s p. induction fuel as [|fuel IH]; intros s p Hf.
  { destruct p; [|simpl in Hf; lia]. eexists. split; [done|]. apply wild_nil_iff. }
  destruct (decide (p = [])) as [->|Hp].
  { eexists. split; [done|]. apply wild_nil_iff. }
  destruct (findx p) as [[x len]|] eqn:E.
  - pose proof (findx_Some _ _ _ E) as H. simpl in H. destruct H as (Hsp & Hu & Hl & Hn & _).
    pose proof (add_stars_split p x len E) as Has.
    set (pu := take x p) in *. set (xs := take len (drop x p)) in *. set (pv := drop (x + len) p) in *.
    assert (length p = length pu + length xs + length pv)%nat as Hlen.
    { rewrite Hsp at 1. rewrite !length_app. lia. }
    assert (0 < length xs)%nat by (destruct xs; [done|simpl; lia]).
    destruct (attempts_spec (wild (add_stars pu)) (wild (add_stars pv))
      (fun u => match_ fuel u pu) (fun v => match_ fuel v pv) s xs (length s + 2) 0) as (b & Eb & Hb);
      [intros; apply IH; lia|intros; apply IH; lia|done|lia|].
    exists b. split.
    { rewrite <- Eb. destruct p; [done|]. cbn [match_]. by rewrite E. }
    rewrite Hb, Has, wild_app. pose proof (fun t => wild_literal xs t Hl) as Hlit.
    setoid_rewrite wild_app. setoid_rewrite Hlit. split.
    + intros (i & _ & Ho & Hpu & Hpv). exists (take i s), (drop i s). split_and!; [by rewrite take_drop|done|].
      exists xs, (drop (i + length xs) s). split_and!; [|done|done].
      rewrite <- (take_drop (length xs) (drop i s)) at 1. by rewrite Ho, drop_drop.
    + intros (u & ? & -> & Hpu & ? & v & -> & -> & Hpv). exists (length u). unfold occurs_at.
      rewrite drop_app_length, take_app_length, take_app_length.
      rewrite <- drop_drop, drop_app_length, drop_app_length. split_and!; [lia|done..].
  - exists (baseMatch s p). split; [destruct p; [done|]; cbn [match_]; by rewrite E|].
    apply findx_None in E. rewrite <- (app_nil_r p) at 2. rewrite add_stars_run by done.
    rewrite app_nil_r. destruct p as [|c p]; [done|]. unfold ended. rewrite wild_run by done.
    unfold baseMatch. apply Nat.leb_le.
Qed.

(** *** Dropping repeated stars *)

(** Two patterns that match the same strings. *)
Definition same (p q : list ascii) : Prop := forall s, wild p s <-> wild q s.

#[global] Instance same_equiv : Equivalence same.
Proof.
  split; [by intros p s|by intros p q H s; symmetry|].
  intros p q r H1 H2 s. by rewrite (H1 s).
Qed.

#[global] Instance same_app p : Proper (same ==> same) (app p).
Proof. intros q r H s. rewrite !wild_app. by setoid_rewrite (H _). Qed.

#[global] Instance same_cons c : Proper (same ==> same) (cons c).
Proof. intros q r H. by apply (same_app [c]). Qed.

Lemma star_star p : same ("*"%char :: "*"%char :: p) ("*"%char :: p).
Proof.
  intros s. rewrite !wild_star. setoid_rewrite wild_star. split.
  - intros (k & j & H). exists (k + j)%nat. by rewrite <- drop_drop.
  - intros (k & H). exists 0%nat, k. by rewrite drop_0.
Qed.

Lemma add_stars_star p : same (add_stars ("*"%char :: p)) ("*"%char :: add_stars p).
Proof.
  cbn [add_stars]. change (is_wild "*"%char) with true. cbv iota.
  destruct p as [|d p]; [apply star_star|]. destruct (is_wild d); [done|apply star_star].
Qed.

(** The head of a simplified pattern is that of the pattern, unless it is dropped. *)
Lemma simplify_head last c p :
  (last = "*"%char -> c <> "*"%char) -> simplify_from last (c :: p) = c :: simplify_from c p.
Proof.
  intros H. simpl. destruct (last ≟ "*"%char) eqn:E; [|done].
  apply bool_decide_eq_true in E. by rewrite bool_decide_eq_false_2 by auto.
Qed.

Lemma simplify_same last p :
  (last <> "*"%char -> same (add_stars (simplify_from last p)) (add_stars p)) /\
  same ("*"%char :: add_stars (simplify_from "*"%char p)) ("*"%char :: add_stars p).
Proof.
  revert last. induction p as [|c p IH]; intros last; [done|].
  assert (forall last, (last = "*"%char -> c <> "*"%char) ->
    same (add_stars (simplify_from last (c :: p))) (add_stars (c :: p))) as Hkeep.
  { intros l Hl. rewrite simplify_head by done. destruct (decide (c = "*"%char)) as [->|Hc].
    - rewrite !add_stars_star. apply (IH "*"%char).
    - destruct (IH c) as [H _]. specialize (H Hc). cbn [add_stars]. destruct (is_wild c); [|by rewrite H].
      destruct p as [|d p]; [done|]. rewrite (simplify_head c d p) in * by done.
      destruct (is_wild d); by rewrite H. }
  split; [intros Hl; by apply Hkeep|]. destruct (decide (c = "*"%char)) as [->|Hc].
  - change (simplify_from "*"%char ("*"%char :: p)) with (simplify_from "*"%char p).
    rewrite add_stars_star, star_star. apply (IH "*"%char).
  - by rewrite (Hkeep "*"%char).
Qed.

(** Without a ['?'] every run has a star. *)
Lemma add_stars_exact p : "?"%char ∉ p -> same (add_stars p) p.
Proof.
  induction p as [|c p IH]; intros Hq; [done|]. apply not_elem_of_cons in Hq as [Hc Hq].
  specialize (IH Hq). destruct (decide (c = "*"%char)) as [->|Hn]; [by rewrite add_stars_star, IH|].
  cbn [add_stars]. unfold is_wild at 1. rewrite !bool_decide_eq_false_2 by done. simpl. by rewrite IH.
Qed.

(** C36: isMatch answers, for every string and pattern, whether the string matches
    the pattern with a star added to each run of wildcards: for a pattern
    without ['?'] that is the pattern itself, but a ['?'] not next to a star
    also matches more than one character. *)
Theorem isMatch_wild s p :
  exists b, isMatch s p = Some b /\ (b = true <-> wild (add_stars p) s) /\
    ("?"%char ∉ p -> b = true <-> wild p s).
Proof.
  unfold isMatch. destruct (match_spec (length (simplify p)) s (simplify p)) as (b & -> & Hb); [done|].
  exists b. assert (b = true <-> wild (add_stars p) s) as H.
  { rewrite Hb. by apply (simplify_same "000"%char p). }
  split_and!; [done|done|]. intros Hq. rewrite H. by apply add_stars_exact.
Qed.

(** "aa" is taken to match "?". *)
Example isMatch_question :
  isMatch (chars "aa") (chars "?") = Some true /\ ~ wild (chars "?") (chars "aa") /\
  isMatch (chars "b") (chars "*?*?") = Some false /\ isMatch (chars "aa") (chars "a") = Some false.
Proof.
  split; [by vm_compute|]. split; [|by vm_compute].
  inversion 1 as [|? ? ? H2| | |]. by inversion H2.
Qed.

End Wildcard.

(** ** word-break.cc *)
Module WordBreak.
Section dict.
Context (dict : list (list ascii)).

(** src/code/leetcode/word-break.cc:25-27 [Solution::getIndex] *)
Definition getIndex (N i j : Z) : Z := i * N + j.

(** [s.substr(f, e - f + 1)] *)
Definition sub (s : list ascii) (f e : Z) : list ascii := take (Z.to_nat (e - f + 1)) (drop (Z.to_nat f) s).

(** The loop over [i], with [rec] for the recursive call; the cache is passed on.

    src/code/leetcode/word-break.cc:39-47 [Solution::wb] *)
Fixpoint splits (rec : Z -> Z -> list Z -> option (bool * list Z)) (ks : list Z) (f e : Z) (dp : list Z)
    : option (bool * list Z) :=
  match ks with
  | [] => Some (false, dp)
  | i :: ks =>
      '(b1, dp) ← rec f (i - 1) dp;
      '(b2, dp) ← rec i e dp;
      if b1 && b2 then Some (true, dp) else splits rec ks f e dp
  end.

(** src/code/leetcode/word-break.cc:28-53 [Solution::wb] *)
Fixpoint wb (fuel : nat) (s : list ascii) (f e : Z) (dp : list Z) : option (bool * list Z) :=
  if e <? f then Some (true, dp) else
  match fuel with
  | O => None
  | S fuel =>
      let index := getIndex (size s) f e in
      v ← arr_get dp index;
      if negb (v =? -1) then Some (v =? 1, dp) else
      '(res, dp) ←
        if bool_decide (sub s f e ∈ dict) then Some (true, dp)
        else splits (wb fuel s) (upto (f + 1) e) f e dp;
      dp ← arr_set dp index (if res : bool then 1 else 0);
      Some (res, dp)
  end.

(** src/code/leetcode/word-break.cc:12-24 [Solution::wordBreak] *)
Definition wordBreak (s : list ascii) : option bool :=
  let n := size s in
  if n =? 0 then Some true else
  nn ← chk32 (n * n);
  '(x, _) ← wb (length s) s 0 (n - 1) (replicate (Z.to_nat nn) (-1));
  Some x.

(** [t] is a sequence of words. *)
Definition words (t : list ascii) : Prop := exists ws, Forall (fun w => w ∈ dict) ws /\ concat ws = t.

Lemma words_app u v : words u -> words v -> words (u ++ v).
Proof.
  intros (ws & Hw & <-) (xs & Hx & <-). exists (ws ++ xs).
  split; [by apply Forall_app|]. apply concat_app.
Qed.

Lemma words_split t :
  t <> [] ->
  words t <-> t ∈ dict \/ exists u v, u <> [] /\ v <> [] /\ t = u ++ v /\ words u /\ words v.
Proof.
  intros Ht. split.
  - intros (ws & Hw & <-). induction Hw as [|w ws Hw Hws IH]; [done|]. simpl in *.
    destruct (decide (w = [])) as [->|Hn]; [by apply IH|].
    destruct (decide (concat ws = [])) as [E|Hc]; [left; by rewrite E, app_nil_r|].
    right. exists w, (concat ws). split_and!; [done|done|done| |by exists ws].
    exists [w]. split; [by repeat constructor|]. simpl. by rewrite app_nil_r.
  - intros [Hd|(u & v & _ & _ & -> & Hu & Hv)]; [|by apply words_app].
    exists [t]. split; [by repeat constructor|]. simpl. by rewrite app_nil_r.
Qed.

Section string.
Context (s : list ascii).
Notation n := (size s).

Lemma length_sub f e : 0 <= f <= e + 1 -> e < n -> size (sub s f e) = e - f + 1.
Proof. intros. unfold sub. rewrite length_take, length_drop. lia. Qed.

Lemma sub_split f e i : 0 <= f < i -> i <= e -> e < n -> sub s f e = sub s f (i - 1) ++ sub s i e.
Proof.
  intros. unfold sub. replace (Z.to_nat (e - f + 1)) with (Z.to_nat (i - 1 - f + 1) + Z.to_nat (e - i + 1))%nat by lia.
  rewrite <- take_take_drop, drop_drop. do 3 f_equal. lia.
Qed.

Lemma sub_words f e :
  0 <= f <= e -> e < n ->
  words (sub s f e) <-> sub s f e ∈ dict \/ exists i, f < i <= e /\ words (sub s f (i - 1)) /\ words (sub s i e).
Proof.
  intros Hf He. pose proof (length_sub f e ltac:(lia) He) as Hl.
  rewrite words_split by (intros E; rewrite E in Hl; simpl in Hl; lia). split.
  - intros [Hd|(u & v & Hu & Hv & E & Wu & Wv)]; [by left|right].
    assert (size u + size v = e - f + 1) as Hs by (rewrite <- Hl, E, length_app; lia).
    assert (0 < size u /\ 0 < size v) as [H1 H2] by (destruct u, v; simpl; done || lia).
    exists (f + size u). rewrite (sub_split f e (f + size u)) in E by lia.
    apply app_inj_1 in E as [-> ->]; [split_and!; [lia|lia|done|done]|].
    pose proof (length_sub f (f + size u - 1)). lia.
  - intros [Hd|(i & Hi & Wu & Wv)]; [by left|right].
    exists (sub s f (i - 1)), (sub s i e). rewrite <- sub_split by lia.
    pose proof (length_sub f (i - 1) ltac:(lia) ltac:(lia)). pose proof (length_sub i e ltac:(lia) ltac:(lia)).
    split_and!; try done; intros E; rewrite E in *; simpl in *; lia.
Qed.

(** A cell of the cache is -1, or the answer for its interval. *)
Definition cached (dp : list Z) : Prop :=
  size dp = n * n /\
  forall f e, 0 <= f <= e -> e < n -> exists v, arr_get dp (getIndex n f e) = Some v /\
    (v = -1 \/ (v = 1 /\ words (sub s f e)) \/ (v = 0 /\ ~ words (sub s f e))).

Lemma cached_set dp f e (b : bool) :
  cached dp -> 0 <= f <= e -> e < n -> (b = true <-> words (sub s f e)) ->
  exists dp', arr_set dp (getIndex n f e) (if b then 1 else 0) = Some dp' /\ cached dp'.
Proof.
  intros [Hs Hc] Hf He Hb. assert (0 <= getIndex n f e < n * n) as Hi by (unfold getIndex; nia).
  rewrite arr_set_in by lia. eexists. split; [done|]. split; [by rewrite length_insert|].
  intros f' e' Hf' He'. assert (0 <= getIndex n f' e') by (unfold getIndex; nia).
  rewrite arr_get_insert by lia. destruct (Z.eqb_spec (getIndex n f' e') (getIndex n f e)) as [E|].
  - unfold getIndex in E. assert (f' = f) as -> by nia. assert (e' = e) as -> by lia.
    eexists. split; [done|]. destruct b; [right; left|right; right]; naive_solver.
  - by apply Hc.
Qed.

Definition answers (rec : Z -> Z -> list Z -> option (bool * list Z)) (k : Z) : Prop :=
  forall f e dp, cached dp -> 0 <= f <= e -> e < n -> e - f < k ->
  exists b dp', rec f e dp = Some (b, dp') /\ cached dp' /\ (b = true <-> words (sub s f e)).

Lemma splits_spec rec k f e i dp :
  answers rec k -> cached dp -> 0 <= f < i -> i <= e + 1 -> e < n -> e - f <= k ->
  exists b dp', splits rec (upto i e) f e dp = Some (b, dp') /\ cached dp' /\
    (b = true <-> exists j, i <= j <= e /\ words (sub s f (j - 1)) /\ words (sub s j e)).
Proof.
  intros Hrec. remember (Z.to_nat (e + 1 - i)) as m eqn:Hm. revert i dp Hm.
  induction m as [|m IH]; intros i dp Hm Hc Hf Hi He Hk.
  { rewrite upto_nil by lia. exists false, dp. split_and!; [done|done|]. split; [done|]. intros (j & ? & _). lia. }
  rewrite upto_cons by lia. cbn [splits].
  destruct (Hrec f (i - 1) dp) as (b1 & dp1 & -> & Hc1 & H1); [done|lia..|]. simpl mbind.
  destruct (Hrec i e dp1) as (b2 & dp2 & -> & Hc2 & H2); [done|lia..|]. simpl mbind.
  destruct (b1 && b2) eqn:E.
  - apply andb_true_iff in E as [-> ->]. exists true, dp2. split_and!; [done|done|].
    split; [intros _|done]. exists i. split_and!; [lia|lia|by apply H1|by apply H2].
  - destruct (IH (i + 1) dp2) as (b & dp' & Eb & Hc' & Hb); [lia|done|lia..|].
    exists b, dp'. split_and!; [done|done|]. rewrite Hb. split.
    + intros (j & ? & ?). exists j. split; [lia|done].
    + intros (j & Hj & W1 & W2). exists j. destruct (decide (j = i)) as [->|]; [|split_and!; [lia|lia|done|done]].
      apply H1 in W1. apply H2 in W2. by rewrite W1, W2 in E.
Qed.

Lemma wb_answers fuel : answers (wb fuel s) (Z.of_nat fuel).
Proof.
  induction fuel as [|fuel IH]; intros f e dp Hc Hf He Hk; [lia|]. cbn [wb].
  zfalse (e <? f). destruct Hc as [Hs Hc]. destruct (Hc f e Hf He) as (v & -> & Hv). simpl mbind.
  destruct (Z.eqb_spec v (-1)) as [->|Hn]; simpl negb; cbv iota.
  - assert (exists res dp', (if bool_decide (sub s f e ∈ dict) then Some (true, dp)
      else splits (wb fuel s) (upto (f + 1) e) f e dp) = Some (res, dp') /\ cached dp' /\
      (res = true <-> words (sub s f e))) as (res & dp' & -> & Hc' & Hr).
    { setoid_rewrite (sub_words f e Hf He). case_bool_decide as Hd.
      - exists true, dp. split_and!; [done|by split|]. split; [by left|done].
      - destruct (splits_spec _ _ f e (f + 1) dp IH ltac:(by split)) as (b & dp' & -> & ? & Hb); [lia..|].
        exists b, dp'. split; [done|]. split; [done|]. rewrite Hb. split.
        + intros (j & ? & ?). right. exists j. split; [lia|done].
        + intros [?|(j & ? & ?)]; [done|]. exists j. split; [lia|done]. }
    simpl mbind. destruct (cached_set dp' f e res Hc' Hf He Hr) as (dp2 & -> & H2).
    exists res, dp2. by split_and!.
  - exists (v =? 1), dp. split_and!; [done|by split|]. split; [intros ->%Z.eqb_eq|]; [naive_solver lia|].
    intros W. apply Z.eqb_eq. naive_solver.
Qed.
End string.

Lemma wordBreak_spec s :
  size s <= 46340 -> exists b, wordBreak s = Some b /\ (b = true <-> words s).
Proof.
  intros Hn. unfold wordBreak. destruct (Z.eqb_spec (size s) 0) as [E|E].
  { exists true. split; [done|]. destruct s; [|done]. split; [|done]. intros _. by exists []. }
  rewrite chk32_ok by nia. simpl mbind.
  destruct (wb_answers s (length s) 0 (size s - 1) (replicate (Z.to_nat (size s * size s)) (-1)))
    as (b & dp & -> & _ & Hb); [|lia..|].
  { split; [rewrite length_replicate; lia|]. intros f e Hf He. exists (-1). split; [|by left].
    unfold getIndex, arr_get. case_bool; [zb|]. apply lookup_replicate_2. nia. }
  exists b. split; [done|]. rewrite Hb. unfold sub. change (Z.to_nat 0) with 0%nat.
  by rewrite drop_0, take_ge by lia.
Qed.
End dict.

(** wordBreak answers whether the string is a sequence of words of the
    dictionary, whatever the cache was filled with on the way: a cell never holds
    a wrong answer. The table has an int of cells up to 46340 characters. *)
Theorem wordBreak_words dict s :
  size s <= 46340 -> exists b, wordBreak dict s = Some b /\ (b = true <-> words dict s).
Proof. apply wordBreak_spec. Qed.

Lemma wordBreak_words_witness :
  let dict := [chars "leet"; chars "code"] in
  size (chars "leetcode") <= 46340 /\ wordBreak dict (chars "leetcode") = Some true /\
  wordBreak dict (chars "leetcod") = Some false /\
  exists b, wordBreak dict (chars "leetcode") = Some b /\ (b = true <-> words dict (chars "leetcode")).
Proof.
  intros dict. split; [by vm_compute|]. split; [by vm_compute|]. split; [by vm_compute|].
  apply (wordBreak_words dict (chars "leetcode")). by vm_compute.
Defined.

End WordBreak.
