(* ===== verification/Texts.v ===== *)
(** * Texts: more exercises of src/code/leetcode on strings

    Brackets, palindromes, prefixes, windows and the letters of a telephone. A
    [std::string] is a list of characters, as in Words.v. *)

From S2P Require Import Prelude Loops Words.
From Stdlib Require Import Ascii.

Local Open Scope char_scope.
Local Open Scope Z_scope.

(** ** valid-parentheses.cc *)
Module Brackets.

Definition opens (ch : ascii) : bool :=
  (ch ≟ "("%char) || (ch ≟ "{"%char) || (ch ≟ "["%char).
Definition closes (ch : ascii) : bool :=
  (ch ≟ ")"%char) || (ch ≟ "}"%char) || (ch ≟ "]"%char).
Definition match_ (ch x : ascii) : bool :=
  ((ch ≟ ")"%char) && (x ≟ "("%char)) || ((ch ≟ "}"%char) && (x ≟ "{"%char)) ||
  ((ch ≟ "]"%char) && (x ≟ "["%char)).

(** src/code/leetcode/valid-parentheses.cc:10-27 [Solution::isValid (loop)]
    The characters from [i] on, with the stack. *)
Fixpoint scan (st s : list ascii) : bool :=
  match s with
  | [] => st ≟ []
  | ch :: s =>
      if opens ch then scan (ch :: st) s
      else if closes ch then
        match st with
        | [] => false
        | x :: st => if negb (match_ ch x) then false else scan st s
        end
      else scan st s
  end.

(** src/code/leetcode/valid-parentheses.cc:7-28 [Solution::isValid] *)
Definition isValid (s : list ascii) : bool := scan [] s.

(** Brackets that pair up; other characters may stand anywhere. *)
Inductive balanced : list ascii -> Prop :=
| balanced_nil : balanced []
| balanced_other ch s : opens ch = false -> closes ch = false -> balanced s -> balanced (ch :: s)
| balanced_pair o c s t :
    opens o = true -> closes c = true -> match_ c o = true ->
    balanced s -> balanced t -> balanced (o :: s ++ c :: t).

(** What closes the brackets of a stack. *)
Inductive closing : list ascii -> list ascii -> Prop :=
| closing_nil s : balanced s -> closing [] s
| closing_cons x st c s t :
    balanced s -> closes c = true -> match_ c x = true -> closing st t ->
    closing (x :: st) (s ++ c :: t).

Lemma closes_not_opens c : closes c = true -> opens c = false.
Proof.
  unfold closes, opens. intros [[H|H]%orb_prop|H]%orb_prop; apply bool_decide_eq_true in H;
    by subst.
Qed.

Lemma balanced_app s t : balanced s -> balanced t -> balanced (s ++ t).
Proof.
  intros Hs Ht. induction Hs as [|ch s Ho Hc Hs IH|o c s u Ho Hc Hm Hs _ Hu IH]; [done|..].
  - by constructor.
  - cbn [app]. rewrite <- app_assoc. cbn [app]. by constructor.
Qed.

Lemma closing_prepend p st t : balanced p -> closing st t -> closing st (p ++ t).
Proof.
  intros Hp. destruct 1 as [s Hs|x st c s t Hs Hc Hm Ht].
  - constructor. by apply balanced_app.
  - rewrite app_assoc. constructor; [by apply balanced_app|done..].
Qed.

Lemma scan_closing st s : scan st s = true -> closing st s.
Proof.
  revert st. induction s as [|ch s IH]; intros st; cbn [scan].
  - intros ->%bool_decide_eq_true. repeat constructor.
  - destruct (opens ch) eqn:Ho; [|destruct (closes ch) eqn:Hc].
    + intros H%IH. inversion H as [|x st' c b t Hb Hcl Hm Ht]; subst.
      rewrite app_comm_cons, cons_middle, app_assoc.
      apply (closing_prepend ((ch :: b) ++ [c])); [|done]. cbn [app].
      apply balanced_pair; [done..|constructor].
    + destruct st as [|x st]; [done|]. destruct (match_ ch x) eqn:Hm; [|done]. intros H%IH.
      by apply (closing_cons x st ch [] s balanced_nil).
    + intros H%IH. apply (closing_prepend [ch]); [|done]. by repeat constructor.
Qed.

Lemma scan_balanced b st t : balanced b -> scan st (b ++ t) = scan st t.
Proof.
  intros Hb. revert st t. induction Hb as [|ch s Ho Hc Hs IH|o c s u Ho Hc Hm Hs IHs Hu IHu];
    intros st t; [done|..]; cbn [app scan]; rewrite Ho.
  - rewrite Hc. apply IH.
  - rewrite <- app_assoc. cbn [app]. rewrite IHs. cbn [scan].
    rewrite (closes_not_opens c), Hc, Hm by done. apply IHu.
Qed.

Lemma closing_scan st s : closing st s -> scan st s = true.
Proof.
  induction 1 as [s Hs|x st c s t Hs Hc Hm _ IH].
  - pose proof (scan_balanced s [] [] Hs) as H. rewrite app_nil_r in H. by rewrite H.
  - rewrite scan_balanced by done. cbn [scan].
    by rewrite (closes_not_opens c), Hc, Hm by done.
Qed.

(** Every bracket on the stack takes a character. *)
Lemma scan_length st s : scan st s = true -> (length st <= length s)%nat.
Proof.
  revert st. induction s as [|ch s IH]; intros st; cbn [scan].
  - intros ->%bool_decide_eq_true. done.
  - destruct (opens ch); [intros H%IH; simpl in *; lia|].
    destruct (closes ch); [|intros H%IH; simpl; lia].
    destruct st as [|x st]; [done|]. destruct (match_ ch x); [|done]. intros H%IH. simpl. lia.
Qed.

(** A string is valid exactly if its brackets pair up. *)
Theorem isValid_balanced s : isValid s = true <-> balanced s.
Proof.
  split.
  - intros H%scan_closing. by inversion H.
  - intros H. apply closing_scan. by constructor.
Qed.
End Brackets.

(** ** generate-parentheses.cc *)
Module Generate.
Import Brackets.

(** [s.substr(0, s.size() - 1)] of a string that is not empty. *)
Definition drop_last (s : list ascii) : list ascii := take (length s - 1) s.

(** src/code/leetcode/generate-parentheses.cc:23-41 [Solution::R]
    The string and the vector, both passed by reference. *)
Fixpoint R (fuel : nat) (n l r : Z) (s : list ascii) (rs : list (list ascii))
  : option (list ascii * list (list ascii)) :=
  match fuel with
  | O => None
  | Datatypes.S fuel =>
      if (l =? n) && (r =? n) then Some (s, rs ++ [s]) else
      '(s, rs) ← (if l <? n then
                    let s := s ++ ["("] in
                    '(s, rs) ← R fuel n (l + 1) r s rs;
                    Some (drop_last s, rs)
                  else Some (s, rs));
      (if r <? l then
         let s := s ++ [")"] in
         '(s, rs) ← R fuel n l (r + 1) s rs;
         Some (drop_last s, rs)
       else Some (s, rs))
  end.

(** src/code/leetcode/generate-parentheses.cc:7-15 [Solution::generateParenthesis] *)
Definition generateParenthesis (fuel : nat) (n : Z) : option (list (list ascii)) :=
  '(_, rs) ← R fuel n 0 0 [] []; Some rs.

Lemma drop_last_snoc s c : drop_last (s ++ [c]) = s.
Proof.
  unfold drop_last. rewrite length_app. simpl length. rewrite Nat.add_sub. by rewrite take_app_length.
Qed.

(** All the ways to go on with [a] more opening and [b] more closing
    parentheses, in the order of the code. *)
Fixpoint words (fuel : nat) (a b : nat) : list (list ascii) :=
  match fuel with
  | O => [[]]
  | Datatypes.S fuel =>
      match a with O => [] | Datatypes.S a => cons "(" <$> words fuel a b end ++
      (if Nat.ltb a b then match b with O => [] | Datatypes.S b => cons ")" <$> words fuel a b end
       else [])
  end.

Lemma R_words fuel (n : nat) a b s rs :
  (a <= b)%nat -> (b <= n)%nat -> (a + b < fuel)%nat ->
  R fuel (Z.of_nat n) (Z.of_nat (n - a)) (Z.of_nat (n - b)) s rs =
  Some (s, rs ++ (app s <$> words (a + b) a b)).
Proof.
  revert a b s rs. induction fuel as [|fuel IH]; intros a b s rs Hab Hbn Hf; [lia|].
  cbn [R]. destruct (decide (b = 0)%nat) as [->|Hb].
  { assert (a = 0)%nat as -> by lia. rewrite Nat.sub_0_r, Z.eqb_refl. cbn. by rewrite app_nil_r. }
  zfalse ((Z.of_nat (n - a) =? Z.of_nat n) && (Z.of_nat (n - b) =? Z.of_nat n)).
  destruct (a + b)%nat as [|f] eqn:Ef; [lia|]. cbn [words].
  assert (forall s rs, (if Z.of_nat (n - b) <? Z.of_nat (n - a) then
         '(s, rs) ← R fuel (Z.of_nat n) (Z.of_nat (n - a)) (Z.of_nat (n - b) + 1) (s ++ [")"]) rs;
         Some (drop_last s, rs)
       else Some (s, rs)) =
    Some (s, rs ++ (app s <$> (if Nat.ltb a b then
      match b with O => [] | Datatypes.S b => cons ")" <$> words f a b end else [])))) as Hclose.
  { clear s rs. intros s rs. destruct (Nat.ltb_spec a b).
    - ztrue (Z.of_nat (n - b) <? Z.of_nat (n - a)). destruct b as [|b]; [lia|].
      replace (Z.of_nat (n - Datatypes.S b) + 1) with (Z.of_nat (n - b)) by lia.
      rewrite IH by lia. cbn [mbind option_bind]. rewrite drop_last_snoc.
      replace f with (a + b)%nat by lia. rewrite <- list_fmap_compose.
      do 3 f_equal. apply list_fmap_ext. intros _ w _. simpl. by rewrite <- app_assoc.
    - zfalse (Z.of_nat (n - b) <? Z.of_nat (n - a)). by rewrite fmap_nil, app_nil_r. }
  destruct a as [|a].
  - zfalse (Z.of_nat (n - 0) <? Z.of_nat n). cbn [mbind option_bind app]. apply Hclose.
  - ztrue (Z.of_nat (n - Datatypes.S a) <? Z.of_nat n).
    replace (Z.of_nat (n - Datatypes.S a) + 1) with (Z.of_nat (n - a)) by lia.
    rewrite (IH a b) by lia. cbn [mbind option_bind]. rewrite drop_last_snoc.
    rewrite Hclose. replace f with (a + b)%nat by lia.
    rewrite fmap_app, app_assoc, <- list_fmap_compose. do 4 f_equal.
    apply list_fmap_ext. intros _ w _. simpl. by rewrite <- app_assoc.
Qed.

(** Parentheses only. *)
Definition parens (s : list ascii) : Prop := Forall (fun c => c = "(" \/ c = ")") s.

(** What [words] lists: the continuations that close [b - a] parentheses and
    open [a] more. *)
Lemma elem_of_words f a b w :
  f = (a + b)%nat -> (a <= b)%nat ->
  w ∈ words f a b <->
  length w = f /\ parens w /\ scan (replicate (b - a) "(") w = true.
Proof.
  revert a b w. induction f as [|f IH]; intros a b w Hf Hab.
  { assert (a = 0 /\ b = 0)%nat as [-> ->] by lia. cbn [words]. rewrite list_elem_of_singleton.
    split; [intros ->; repeat constructor|]. intros [H _]. by destruct w. }
  cbn [words]. rewrite elem_of_app.
  assert (forall c w', length (c :: w') = Datatypes.S f /\ parens (c :: w') /\
    scan (replicate (b - a) "(") (c :: w') = true ->
    (c = "(" \/ c = ")") /\ length w' = f /\ parens w') as Hcons.
  { intros c w' (Hl & Hp & _). apply Forall_cons in Hp as [? ?]. simpl in Hl. split_and!; [done|lia|done]. }
  split.
  - intros [H|H].
    + destruct a as [|a]; [set_solver|]. apply list_elem_of_fmap in H as (v & -> & Hv).
      apply IH in Hv as (Hl & Hp & Hs); [|lia..].
      split_and!; [simpl; lia|constructor; [by left|done]|].
      change (scan (replicate (b - Datatypes.S a) "(") ("(" :: v)) with
        (scan (replicate (Datatypes.S (b - Datatypes.S a)) "(") v).
      by replace (Datatypes.S (b - Datatypes.S a)) with (b - a)%nat by lia.
    + destruct (Nat.ltb_spec a b); [|set_solver]. destruct b as [|b]; [lia|].
      apply list_elem_of_fmap in H as (v & -> & Hv). apply IH in Hv as (Hl & Hp & Hs); [|lia..].
      split_and!; [simpl; lia|constructor; [by right|done]|].
      replace (Datatypes.S b - a)%nat with (Datatypes.S (b - a)) by lia. done.
  - destruct w as [|c w]; [by intros (? & _)|]. intros H.
    pose proof (Hcons c w H) as ([->| ->] & Hl & Hp); destruct H as (_ & _ & Hs).
    + left. destruct a as [|a].
      * exfalso. change (scan (replicate (Datatypes.S (b - 0)) "(") w = true) in Hs.
        apply scan_length in Hs. rewrite length_replicate in Hs. lia.
      * apply list_elem_of_fmap. exists w. split; [done|]. apply IH; [lia..|]. split_and!; [done..|].
        change (scan (replicate (Datatypes.S (b - Datatypes.S a)) "(") w = true) in Hs.
        by replace (b - a)%nat with (Datatypes.S (b - Datatypes.S a)) by lia.
    + right. destruct (Nat.ltb_spec a b) as [Hlt|]; [|].
      * destruct b as [|b]; [lia|]. apply list_elem_of_fmap. exists w. split; [done|].
        apply IH; [lia..|]. split_and!; [done..|].
        replace (Datatypes.S b - a)%nat with (Datatypes.S (b - a)) in Hs by lia. done.
      * assert (b - a = 0)%nat as E by lia. rewrite E in Hs. done.
Qed.

Lemma NoDup_words f a b : f = (a + b)%nat -> NoDup (words f a b).
Proof.
  revert a b. induction f as [|f IH]; intros a b Hf; cbn [words]; [apply NoDup_singleton|].
  apply NoDup_app. split_and!.
  - destruct a as [|a]; [constructor|]. apply NoDup_fmap; [by intros ? ? [=]|]. apply IH. lia.
  - intros w Hw Hw'. destruct a as [|a]; [set_solver|].
    apply list_elem_of_fmap in Hw as (v & -> & _). destruct (Nat.ltb _ b); [|set_solver].
    destruct b as [|b]; [set_solver|]. apply list_elem_of_fmap in Hw' as (v' & [=] & _).
  - destruct (Nat.ltb a b); [|constructor]. destruct b as [|b]; [constructor|].
    apply NoDup_fmap; [by intros ? ? [=]|]. apply IH. lia.
Qed.

(** For [n] pairs the recursion ends and lists every string of [2 n]
    parentheses that [isValid] accepts, each once. *)
Theorem generateParenthesis_spec n fuel :
  0 <= n -> 2 * n < Z.of_nat fuel ->
  exists rs, generateParenthesis fuel n = Some rs /\ NoDup rs /\
    forall w, w ∈ rs <-> size w = 2 * n /\ parens w /\ isValid w = true.
Proof.
  intros Hn Hf. unfold generateParenthesis. set (k := Z.to_nat n).
  replace n with (Z.of_nat k) by lia.
  pose proof (R_words fuel k k k [] []) as H. rewrite Nat.sub_diag in H.
  change (Z.of_nat 0) with 0 in H. rewrite H by lia. cbn [mbind option_bind app].
  exists (app [] <$> words (k + k) k k). split; [done|].
  rewrite (list_fmap_ext _ id) by done. rewrite list_fmap_id.
  split; [by apply NoDup_words|]. intros w. rewrite elem_of_words by lia.
  rewrite Nat.sub_diag. unfold isValid. cbn [replicate]. split; intros (? & ? & ?); (split_and!; [lia|done..]).
Qed.

Example generateParenthesis_spec_witness :
  exists rs, generateParenthesis 7 3 = Some rs /\ NoDup rs /\
    forall w, w ∈ rs <-> size w = 2 * 3 /\ parens w /\ isValid w = true.
Proof. apply generateParenthesis_spec; simpl; lia. Defined.
End Generate.

(** Appends, to the right. *)
Ltac napp := cbn [app]; rewrite <- ?app_assoc; cbn [app]; rewrite <- ?app_assoc; cbn [app].

(** ** Palindromes *)

Definition pal (l : list ascii) : Prop := reverse l = l.
#[export] Instance pal_dec l : Decision (pal l) := decide (reverse l = l).

Lemma pal_nil : pal [].
Proof. done. Qed.
Lemma pal_single x : pal [x].
Proof. done. Qed.

Lemma pal_ends x m y : pal (x :: m ++ [y]) <-> x = y /\ pal m.
Proof.
  unfold pal. rewrite reverse_cons, reverse_app, reverse_singleton. cbn [app].
  split; [|intros [-> ->]; done]. intros [= -> H]. split; [done|]. by apply app_inj_tail in H as [].
Qed.

(** A list is empty, or one element, or has two ends. *)
Lemma ends_cases {A} (l : list A) : l = [] \/ (exists x, l = [x]) \/ exists x m y, l = x :: m ++ [y].
Proof.
  destruct l as [|x l]; [by left|right]. destruct l as [|y m _] using rev_ind; [left; by exists x|].
  right. by exists x, m, y.
Qed.

(** The middle of a palindrome. *)
Lemma pal_middle u m v : pal (u ++ m ++ v) -> length u = length v -> pal m.
Proof.
  revert v. induction u as [|x u IH]; intros v Hp Hl.
  - destruct v; [|done]. by rewrite app_nil_r in Hp.
  - destruct v as [|y v _] using rev_ind; [done|]. rewrite length_app in Hl. simpl in Hl.
    apply (IH v); [|lia].
    replace ((x :: u) ++ m ++ v ++ [y]) with (x :: (u ++ m ++ v) ++ [y]) in Hp
      by (cbn [app]; by rewrite <- !app_assoc).
    by apply pal_ends in Hp as [].
Qed.

(** ** valid-palindrome.cc *)
Module ValidPalindrome.

Definition code (c : ascii) : Z := Z.of_N (N_of_ascii c).
Definition between (a b : ascii) (c : ascii) : bool := (code a <=? code c) && (code c <=? code b).

(** isalnum of the C locale; a [char] from 128 on is negative and may not be
    given to it. *)
Definition isalnum (c : ascii) : option bool :=
  if code c <? 128 then
    Some (between "0" "9" c || between "A" "Z" c || between "a" "z" c)
  else None.
Definition tolower (c : ascii) : ascii :=
  if between "A" "Z" c then ascii_of_N (N_of_ascii c + 32) else c.

(** src/code/leetcode/valid-palindrome.cc:18-27 [Solution::isPalindrome (comparison)] *)
Fixpoint compare (fuel : nat) (vc : list ascii) (f t : Z) : option bool :=
  match fuel with
  | O => None
  | Datatypes.S fuel =>
      if f <? t then
        x ← arr_get vc f; y ← arr_get vc t;
        if negb (x ≟ y) then Some false else compare fuel vc (f + 1) (t - 1)
      else Some true
  end.

(** src/code/leetcode/valid-palindrome.cc:9-28 [Solution::isPalindrome] *)
Definition isPalindrome (fuel : nat) (s : list ascii) : option bool :=
  vc ← for_ (upto 0 (size s - 1)) (fun i vc =>
    c ← arr_get s i; b ← isalnum c; Some (if b : bool then vc ++ [tolower c] else vc)) [];
  compare fuel vc 0 (size vc - 1).

(** The letters and digits, in lower case. *)
Definition plain (s : list ascii) : list ascii :=
  tolower <$> filter (fun c => isalnum c = Some true) s.

Lemma compare_spec fuel a m b :
  length a = length b -> (length m < fuel)%nat ->
  compare fuel (a ++ m ++ b) (size a) (size a + size m - 1) = Some (bool_decide (pal m)).
Proof.
  revert a m b. induction fuel as [|fuel IH]; intros a m b Hab Hm; [lia|]. cbn [compare].
  destruct (ends_cases m) as [->|[[x ->]|(x & k & y & ->)]].
  - cbn [length]. zfalse (size a <? size a + Z.of_nat 0 - 1). by rewrite bool_decide_true.
  - cbn [length]. zfalse (size a <? size a + Z.of_nat 1 - 1). by rewrite bool_decide_true.
  - cbn [length] in *. rewrite length_app in *. simpl length in *.
    ztrue (size a <? size a + Z.of_nat (Datatypes.S (length k + 1)) - 1).
    rewrite (arr_get_mid a (k ++ [y] ++ b) _ x (size a)) by (by napp).
    cbn [mbind option_bind].
    rewrite (arr_get_mid (a ++ x :: k) b _ y) by
      (napp; rewrite ?length_app; cbn [length]; done || lia).
    cbn [mbind option_bind]. case_bool_decide as Hxy; cbn [negb].
    + subst y. replace (a ++ (x :: k ++ [x]) ++ b) with ((a ++ [x]) ++ k ++ ([x] ++ b)) by (by napp).
      replace (size a + 1) with (size (a ++ [x])) by (rewrite length_app; simpl; lia).
      replace (size a + Z.of_nat (Datatypes.S (length k + 1)) - 1 - 1) with
        (size (a ++ [x]) + size k - 1) by (rewrite length_app; simpl; lia).
      rewrite IH by (rewrite ?length_app; simpl; lia). f_equal.
      apply bool_decide_ext. rewrite pal_ends. tauto.
    + f_equal. symmetry. apply bool_decide_false. by rewrite pal_ends; intros [].
Qed.

(** For a text of ASCII characters the answer is whether its letters and digits,
    without regard to case, read the same backwards. *)
Theorem isPalindrome_spec fuel s :
  Forall (fun c => code c < 128) s -> (length s < fuel)%nat ->
  isPalindrome fuel s = Some (bool_decide (pal (plain s))).
Proof.
  intros Hs Hf. unfold isPalindrome.
  destruct (for_array s (fun p vc => vc = plain p) (fun c vc =>
    b ← isalnum c; Some (if b : bool then vc ++ [tolower c] else vc)) []) as (vc & E & ->); [done| |].
  { intros p c q vc Hp ->. rewrite Forall_forall in Hs.
    assert (code c < 128) by (apply Hs; subst; set_solver).
    assert (exists b, isalnum c = Some b) as [b Eb].
    { unfold isalnum. ztrue (code c <? 128). by eexists. }
    rewrite Eb. cbn [mbind option_bind]. eexists. split; [done|]. unfold plain.
    rewrite filter_app, fmap_app, filter_cons, filter_nil. destruct b.
    - by rewrite decide_True.
    - rewrite decide_False by (rewrite Eb; by intros [=]). by rewrite app_nil_r. }
  rewrite E. cbn [mbind option_bind].
  pose proof (compare_spec fuel [] (plain s) [] eq_refl) as H. rewrite app_nil_r in H.
  apply H. unfold plain. rewrite length_fmap. pose proof (length_filter (fun c => isalnum c = Some true) s).
  lia.
Qed.

Example isPalindrome_spec_witness :
  isPalindrome 40 (chars "A man, a plan, a canal: Panama") =
  Some (bool_decide (pal (plain (chars "A man, a plan, a canal: Panama")))).
Proof.
  apply isPalindrome_spec; [|simpl; lia].
  apply (bool_decide_unpack _). vm_compute. exact I.
Defined.
End ValidPalindrome.

(** ** longest-palindromic-substring.cc *)
Module LongestPalindrome.

(** [s.substr(pos, len)]; [None] is std::out_of_range. *)
Definition substr (s : list ascii) (pos len : Z) : option (list ascii) :=
  if (0 <=? pos) && (pos <=? size s) then Some (take (Z.to_nat len) (drop (Z.to_nat pos) s)) else None.

(** src/code/leetcode/longest-palindromic-substring.cc:48-55 [Solution::expand (loop)] *)
Fixpoint widen (fuel : nat) (s : list ascii) (f e : Z) : option (Z * Z) :=
  match fuel with
  | O => None
  | Datatypes.S fuel =>
      if (0 <=? f) && (e <? size s) then
        x ← arr_get s f; y ← arr_get s e;
        if x ≟ y then widen fuel s (f - 1) (e + 1) else Some (f, e)
      else Some (f, e)
  end.

(** src/code/leetcode/longest-palindromic-substring.cc:47-62 [Solution::expand] *)
Definition expand (fuel : nat) (s : list ascii) (f e : Z) : option (list ascii) :=
  '(f, e) ← widen fuel s f e;
  let f := f + 1 in
  let e := e - 1 in
  let e := if e <? f then f else e in
  substr s f (e - f + 1).

(** The longer of the two. *)
Definition longer (x ln : list ascii) : list ascii := if size ln <? size x then x else ln.

(** src/code/leetcode/longest-palindromic-substring.cc:64-79 [Solution::longestPalindrome]
    [s.size() - 1] is unsigned. *)
Definition longestPalindrome (fuel : nat) (s : list ascii) : option (list ascii) :=
  ln ← for_ (upto 0 (size s - 1)) (fun i ln => x ← expand fuel s i i; Some (longer x ln)) [];
  for_ (upto 0 (u64 (size s - 1) - 1)) (fun i ln =>
    x ← expand fuel s i (i + 1); Some (longer x ln)) ln.

(** [s] around a palindrome in its middle: what [widen] stops at cannot be
    widened. *)
Definition widest (a m b : list ascii) : Prop :=
  forall a' x y b', a = a' ++ [x] -> b = y :: b' -> x <> y.

Lemma widen_spec fuel a m b :
  pal m -> (length a < fuel)%nat ->
  exists a' m' b', a ++ m ++ b = a' ++ m' ++ b' /\ pal m' /\ widest a' m' b' /\
    (exists u v, m' = u ++ m ++ v /\ a = a' ++ u /\ length u = length v) /\
    widen fuel (a ++ m ++ b) (size a - 1) (size a + size m) =
      Some (size a' - 1, size a' + size m').
Proof.
  revert a m b. induction fuel as [|fuel IH]; intros a m b Hm Hf; [lia|]. cbn [widen].
  destruct a as [|x a _] using rev_ind.
  { exists [], m, b. split_and!; [done|done|by intros [|? ?] ? ? ? [=]| |].
    { exists [], []. by rewrite app_nil_r. }
    cbn [length]. zfalse ((0 <=? Z.of_nat 0 - 1)). done. }
  destruct b as [|y b].
  { exists (a ++ [x]), m, []. split_and!; [done|done|by intros ? ? ? ? _ [=]| |].
    - exists [], []. by rewrite !app_nil_r.
    - rewrite !length_app. cbn [length].
      zfalse (Z.of_nat (length a + 1) + size m <? Z.of_nat (length a + 1 + (length m + 0))).
      by rewrite andb_false_r. }
  rewrite !length_app. cbn [length].
  ztrue ((0 <=? Z.of_nat (length a + 1) - 1) &&
    (Z.of_nat (length a + 1) + size m <? Z.of_nat (length a + 1 + (length m + Datatypes.S (length b))))).
  rewrite (arr_get_mid a (m ++ y :: b) _ x (Z.of_nat (length a + 1) - 1)) by (napp; done || lia).
  cbn [mbind option_bind].
  rewrite (arr_get_mid (a ++ x :: m) b _ y (Z.of_nat (length a + 1) + size m)) by
    (napp; rewrite ?length_app; cbn [length]; done || lia).
  cbn [mbind option_bind]. case_bool_decide as Hxy.
  - subst y. destruct (IH a (x :: m ++ [x]) (b)) as (a' & m' & b' & E & Hp & Hw & (u & v & -> & -> & Hl) & Hr).
    { by apply pal_ends. } { rewrite length_app in Hf. simpl in Hf. lia. }
    exists a', (u ++ (x :: m ++ [x]) ++ v), b'. split_and!; [|done|done| |].
    + rewrite <- E. by napp.
    + exists (u ++ [x]), ([x] ++ v). split_and!; [by napp|by napp|rewrite !length_app; simpl; lia].
    + rewrite <- Hr. f_equal; [by napp|lia|]. cbn [length]. rewrite !length_app. cbn [length]. lia.
  - exists (a ++ [x]), m, (y :: b). split_and!; [done|done| | |].
    + intros a' x' y' b' [_ [= ->]]%app_inj_tail [= -> ->]. done.
    + exists [], []. by rewrite !app_nil_r.
    + rewrite length_app. cbn [length]. done.
Qed.

(** Nothing longer around the same middle is a palindrome. *)
Lemma widest_max a m b a1 m1 b1 :
  widest a m b -> a ++ m ++ b = a1 ++ m1 ++ b1 -> pal m1 ->
  2 * size a + size m = 2 * size a1 + size m1 -> size m1 <= size m.
Proof.
  intros Hw E Hp Hc. destruct (Z.le_gt_cases (size m1) (size m)) as [|Hlt]; [done|exfalso].
  assert (size a1 < size a) by lia.
  destruct (app_eq_inv _ _ _ _ E) as [(w & Ha & E1)|(w & Ha & _)];
    [|apply (f_equal length) in Ha; rewrite length_app in Ha; lia].
  rewrite app_assoc in E1. destruct (app_eq_inv _ _ _ _ E1) as [(z & Em & Eb)|(z & Em & _)].
  2: { apply (f_equal length) in Em. subst a. rewrite !length_app in *. lia. }
  subst a b m1. rewrite !length_app in *.
  destruct w as [|x w _] using rev_ind; [simpl in *; lia|].
  destruct z as [|y z]; [simpl in *; lia|].
  rewrite length_app in *. cbn [length] in *.
  apply (Hw (a1 ++ w) x y (z ++ b1)); [by rewrite app_assoc|done|].
  assert (pal (x :: m ++ [y])) as Hm.
  { apply (pal_middle w _ z); [|lia]. revert Hp. by napp. }
  by apply pal_ends in Hm as [].
Qed.

Definition infix_of (m s : list ascii) : Prop := exists a b, s = a ++ m ++ b.

(** What [expand] returns for the end of its loop. *)
Lemma expand_result fuel s f e a m b :
  s = a ++ m ++ b -> pal m -> (m <> [] \/ b <> []) ->
  widen fuel s f e = Some (size a - 1, size a + size m) ->
  exists r, expand fuel s f e = Some r /\ pal r /\ infix_of r s /\ size m <= size r.
Proof.
  intros Hs Hp Hne Hw. unfold expand. rewrite Hw. cbn [mbind option_bind].
  replace (size a - 1 + 1) with (size a) by lia.
  destruct m as [|x m].
  - destruct b as [|y b]; [by destruct Hne|]. cbn [length].
    ztrue (size a + Z.of_nat 0 - 1 <? size a). unfold substr.
    assert (size s = size a + size (y :: b)) as Hl by (subst; rewrite !length_app; simpl; lia).
    cbn [length] in Hl. ztrue ((0 <=? size a) && (size a <=? size s)).
    exists [y]. split_and!; [|done| |simpl; lia].
    + subst s. rewrite Nat2Z.id. cbn [app]. rewrite drop_app_length.
      replace (Z.to_nat (size a - size a + 1)) with 1%nat by lia. done.
    + exists a, b. by subst.
  - cbn [length]. zfalse (size a + Z.of_nat (Datatypes.S (length m)) - 1 <? size a). unfold substr.
    assert (size s = size a + size (x :: m) + size b) as Hl
      by (subst; rewrite !length_app; lia).
    cbn [length] in Hl. ztrue ((0 <=? size a) && (size a <=? size s)).
    exists (x :: m). split_and!; [|done|by exists a, b|done].
    subst s. rewrite Nat2Z.id, drop_app_length. f_equal.
    replace (Z.to_nat _) with (length (x :: m)) by (simpl; lia). by rewrite take_app_length.
Qed.

(** The palindromes with their middle at [c / 2] are not longer than [r]. *)
Definition covers (s : list ascii) (c : Z) (r : list ascii) : Prop :=
  forall a m b, s = a ++ m ++ b -> pal m -> 2 * size a + size m = c -> size m <= size r.

Lemma split_at {A} (s : list A) i :
  0 <= i < size s -> exists a x b, s = a ++ x :: b /\ size a = i.
Proof.
  intros Hi. destruct (arr_get_in s i Hi) as [x [_ Hx]%arr_get_Some].
  exists (take (Z.to_nat i) s), x, (drop (Datatypes.S (Z.to_nat i)) s).
  split; [by rewrite take_drop_middle|]. rewrite length_take. lia.
Qed.

Lemma expand_odd fuel s i :
  0 <= i < size s -> (length s < fuel)%nat ->
  exists r, expand fuel s i i = Some r /\ pal r /\ infix_of r s /\ 0 < size r /\
    covers s (2 * i + 1) r.
Proof.
  intros Hi Hf. destruct (split_at s i Hi) as (a & x & b & Hs & Ha).
  assert (length s = length a + Datatypes.S (length b))%nat as Hl by (subst s; by rewrite length_app).
  destruct fuel as [|fuel]; [lia|].
  destruct (widen_spec fuel a [x] b) as (a' & m' & b' & E & Hp & Hw & (u & v & Hm & Ha' & Huv) & Hr);
    [done|lia|].
  destruct (expand_result (Datatypes.S fuel) s i i a' m' b') as (r & Er & Hpr & Hin & Hsz);
    [by rewrite <- E; cbn [app]|done|left; rewrite Hm; by destruct u| |].
  { rewrite <- Hr. cbn [widen]. ztrue ((0 <=? i) && (i <? size s)).
    rewrite (arr_get_mid a b s x i) by done. cbn [mbind option_bind].
    rewrite bool_decide_true by done. rewrite Hs. f_equal; [lia|simpl; lia]. }
  exists r. split_and!; [done|done|done| |].
  - rewrite Hm, !length_app in Hsz. simpl in Hsz. lia.
  - intros a1 m1 b1 Es Hp1 Hc. etrans; [|exact Hsz].
    apply (widest_max a' m' b' a1 m1 b1); [done| |done|].
    + rewrite <- E, <- Es. by rewrite Hs.
    + rewrite Hc, <- Ha, Ha', Hm, !length_app. simpl. lia.
Qed.

Lemma expand_even fuel s i :
  0 <= i < size s - 1 -> (length s < fuel)%nat ->
  exists r, expand fuel s i (i + 1) = Some r /\ pal r /\ infix_of r s /\
    covers s (2 * (i + 1)) r.
Proof.
  intros Hi Hf. destruct (split_at s (i + 1)) as (a & x & b & Hs & Ha); [lia|].
  assert (length s = length a + Datatypes.S (length b))%nat as Hl by (subst s; by rewrite length_app).
  destruct (widen_spec fuel a [] (x :: b)) as (a' & m' & b' & E & Hp & Hw & (u & v & Hm & Ha' & Huv) & Hr);
    [done|lia|]. cbn [app] in *.
  destruct (expand_result fuel s i (i + 1) a' m' b') as (r & Er & Hpr & Hin & Hsz);
    [by rewrite <- E|done| |rewrite <- Hr, Hs; f_equal; simpl; lia|].
  { destruct u as [|c u]; [right|left; by rewrite Hm]. destruct v; [|done]. subst m' a.
    rewrite app_nil_r in E. cbn [app] in E. apply app_inv_head in E. by rewrite <- E. }
  exists r. split_and!; [done..|].
  intros a1 m1 b1 Es Hp1 Hc. etrans; [|exact Hsz].
  apply (widest_max a' m' b' a1 m1 b1); [done| |done|].
  - by rewrite <- E, <- Es, Hs.
  - rewrite Hc, <- Ha, Ha', Hm, !length_app. lia.
Qed.

(** What holds of the longest palindrome so far. *)
Definition found (s ln : list ascii) : Prop := pal ln /\ infix_of ln s.

Lemma longer_found s x ln : found s x -> found s ln -> found s (longer x ln).
Proof. intros. unfold longer. by destruct (_ <? _). Qed.

Lemma longer_covers s c x ln : covers s c x \/ covers s c ln -> covers s c (longer x ln).
Proof.
  intros H a m b Es Hp Hc. unfold longer. destruct (Z.ltb_spec (size ln) (size x));
    destruct H as [H|H]; specialize (H a m b Es Hp Hc); lia.
Qed.

(** For a text that is not empty, the answer is a palindrome in it, and none is
    longer. *)
Theorem longestPalindrome_spec fuel s :
  s <> [] -> (length s < fuel)%nat -> size s < 2 ^ 64 ->
  exists r, longestPalindrome fuel s = Some r /\ pal r /\ infix_of r s /\
    forall m, infix_of m s -> pal m -> size m <= size r.
Proof.
  intros Hne Hf H64. assert (0 < size s) by (destruct s; [done|simpl; lia]).
  unfold longestPalindrome.
  destruct (for_upto (fun i ln => found s ln /\ forall j, 0 <= j < i -> covers s (2 * j + 1) ln)
    0 (size s - 1) (fun i ln => x ← expand fuel s i i; Some (longer x ln)) []) as (l1 & E1 & Hl1 & Hc1).
  - lia.
  - split; [split; [done|by exists [], s]|]. intros; lia.
  - intros i ln Hi [Hln Hc]. destruct (expand_odd fuel s i) as (r & -> & Hp & Hin & _ & Hr); [lia|done|].
    cbn [mbind option_bind]. eexists. split; [done|]. split; [by apply longer_found|].
    intros j Hj. apply longer_covers. destruct (decide (j = i)) as [->|]; [by left|right; apply Hc; lia].
  - rewrite E1. cbn [mbind option_bind]. rewrite u64_id by lia.
    destruct (for_upto (fun i ln => found s ln /\ (forall j, 0 <= j < size s -> covers s (2 * j + 1) ln) /\
        forall j, 0 <= j < i -> covers s (2 * (j + 1)) ln)
      0 (size s - 1 - 1) (fun i ln => x ← expand fuel s i (i + 1); Some (longer x ln)) l1)
      as (r & E2 & Hr & Hodd & Heven).
    + lia.
    + split_and!; [done| |intros; lia]. intros j Hj. apply Hc1. lia.
    + intros i ln Hi (Hln & Ho & Hev).
      destruct (expand_even fuel s i) as (r & -> & Hp & Hin & Hr); [lia|done|].
      cbn [mbind option_bind]. eexists. split; [done|]. split_and!; [by apply longer_found| |].
      * intros j Hj. apply longer_covers. right. by apply Ho.
      * intros j Hj. apply longer_covers. destruct (decide (j = i)) as [->|]; [by left|right; apply Hev; lia].
    + exists r. destruct Hr as [Hp Hin]. split_and!; [done..|].
      intros m (a & b & Es) Hm. destruct (decide (m = [])) as [->|Hmne]; [simpl; lia|].
      assert (0 < size m) by (destruct m; [done|simpl; lia]).
      assert (size s = size a + size m + size b) by (rewrite Es, !length_app; lia).
      destruct (Z.Even_or_Odd (size m)) as [[k Hk]|[k Hk]].
      * apply (Heven (size a + k - 1) ltac:(lia) a m b); [done..|lia].
      * apply (Hodd (size a + k) ltac:(lia) a m b); [done..|lia].
Qed.

Example longestPalindrome_spec_witness :
  exists r, longestPalindrome 10 (chars "abaab") = Some r /\ pal r /\ infix_of r (chars "abaab") /\
    forall m, infix_of m (chars "abaab") -> pal m -> size m <= size r.
Proof. apply longestPalindrome_spec; [done|simpl; lia|done]. Defined.

(** On the empty text the bound of the second loop wraps around, and a substring
    that starts beyond the end is asked for. *)
Theorem longestPalindrome_empty fuel : longestPalindrome fuel [] = None.
Proof.
  unfold longestPalindrome. cbn [length].
  rewrite (upto_nil 0 (Z.of_nat 0 - 1)) by lia. cbn [for_ mbind option_bind].
  assert (0 <= u64 (Z.of_nat 0 - 1) - 1) as Hu by (vm_compute; by intros [=]).
  rewrite upto_cons by done. generalize (upto (0 + 1) (u64 (Z.of_nat 0 - 1) - 1)). intros l.
  cbn [for_]. by destruct fuel.
Qed.
End LongestPalindrome.

(** ** longest-common-prefix.cc *)
Module CommonPrefix.

(** src/code/leetcode/longest-common-prefix.cc:20-25 [Solution::longestCommonPrefix (inner loop)]
    Whether the strings have [ch] at place [i]; the loop ends with the first that
    has not. *)
Fixpoint same (i : Z) (ch : ascii) (strs : list (list ascii)) : option bool :=
  match strs with
  | [] => Some true
  | s :: strs => x ← arr_get s i; if negb (x ≟ ch) then Some false else same i ch strs
  end.

(** src/code/leetcode/longest-common-prefix.cc:17-28 [Solution::longestCommonPrefix (loop)]
    [is] are the places from [i] to [l]. *)
Fixpoint grow (ks : list Z) (first : list ascii) (rest : list (list ascii)) (res : Z) : option Z :=
  match ks with
  | [] => Some res
  | i :: ks =>
      ch ← arr_get first i;
      ok ← same i ch rest;
      if ok : bool then grow ks first rest (res + 1) else Some res
  end.

(** src/code/leetcode/longest-common-prefix.cc:8-30 [Solution::longestCommonPrefix] *)
Definition longestCommonPrefix (strs : list (list ascii)) : option (list ascii) :=
  match strs with
  | [] => Some []
  | first :: rest =>
      let l := foldl (fun l s => Z.min l (size s)) (size first) rest in
      res ← grow (upto 0 (l - 1)) first rest 0;
      Some (take (Z.to_nat res) first)
  end.

Lemma min_size_le (rest : list (list ascii)) l0 (s : list ascii) :
  let l := foldl (fun l s => Z.min l (size s)) l0 rest in
  0 <= l0 -> 0 <= l <= l0 /\ (s ∈ rest -> l <= size s) /\
  (l = l0 \/ exists t, t ∈ rest /\ l = size t).
Proof.
  cbv zeta. revert l0. induction rest as [|t rest IH]; intros l0 H0; cbn [foldl].
  { split_and!; [lia|lia|set_solver|by left]. }
  destruct (IH (Z.min l0 (size t)) ltac:(lia)) as (H1 & H2 & H3). split_and!; [lia|lia| |].
  - intros [->|Hs]%elem_of_cons; [lia|by apply H2].
  - destruct H3 as [H3|(u & Hu & H3)].
    + destruct (Z.min_spec l0 (size t)) as [[_ E]|[_ E]]; rewrite E in H3 at 2;
        [by left|right; exists t; split; [by left|done]].
    + right. exists u. split; [by right|done].
Qed.

Lemma same_spec i ch strs :
  0 <= i -> (forall s, s ∈ strs -> i < size s) ->
  exists b, same i ch strs = Some b /\ (b = true <-> forall s, s ∈ strs -> arr_get s i = Some ch).
Proof.
  intros Hi. induction strs as [|s strs IH]; intros Hs; cbn [same].
  { exists true. split; [done|]. split; [set_solver|done]. }
  destruct (arr_get_in s i) as [x Hx]; [split; [lia|apply Hs; by left]|]. rewrite Hx.
  cbn [mbind option_bind]. case_bool_decide as Hc; cbn [negb].
  - subst x. destruct IH as (b & -> & Hb); [intros; apply Hs; by right|].
    exists b. split; [done|]. rewrite Hb. split; [|intros H t Ht; apply H; by right].
    intros H t [->|Ht]%elem_of_cons; [done|by apply H].
  - exists false. split; [done|]. split; [done|]. intros H. rewrite (H s) in Hx by by left. congruence.
Qed.

(** A prefix of [n] characters common to two strings, by its places. *)
Definition agree_to (n : Z) (s t : list ascii) : Prop :=
  n <= size t /\ forall j, 0 <= j < n -> arr_get t j = arr_get s j.

Lemma agree_to_prefix n s t :
  0 <= n <= size s -> agree_to n s t <-> take (Z.to_nat n) s `prefix_of` t.
Proof.
  intros Hn. split.
  - intros [Hl Ha]. exists (drop (Z.to_nat n) t).
    rewrite <- (take_drop (Z.to_nat n) t) at 1. f_equal. apply list_eq. intros j.
    destruct (decide (j < Z.to_nat n)%nat) as [Hj|Hj].
    + rewrite !lookup_take_lt by done. specialize (Ha (Z.of_nat j) ltac:(lia)).
      by rewrite !arr_get_nat in Ha.
    + rewrite !lookup_take_ge by lia. done.
  - intros [u ->]. split; [rewrite length_app, length_take; lia|]. intros j Hj.
    replace j with (Z.of_nat (Z.to_nat j)) by lia. rewrite !arr_get_nat.
    rewrite lookup_app_l by (rewrite length_take; lia). by rewrite lookup_take_lt by lia.
Qed.

Lemma grow_spec k first rest l res :
  l = res + Z.of_nat k -> 0 <= res -> l <= size first -> (forall s, s ∈ rest -> l <= size s) ->
  (forall s, s ∈ rest -> agree_to res first s) ->
  exists r, grow (upto res (l - 1)) first rest res = Some r /\ res <= r <= l /\
    (forall s, s ∈ rest -> agree_to r first s) /\
    (r = l \/ exists s, s ∈ rest /\ arr_get s r <> arr_get first r).
Proof.
  revert res. induction k as [|k IH]; intros res Hl Hr Hf Hs Ha.
  { rewrite upto_nil by lia. exists res. split_and!; [done|lia|lia|done|left; lia]. }
  rewrite upto_cons by lia. cbn [grow].
  destruct (arr_get_in first res) as [ch Hch]; [lia|]. rewrite Hch. cbn [mbind option_bind].
  destruct (same_spec res ch rest) as (b & -> & Hb); [done|intros s Hin; specialize (Hs s Hin); lia|].
  cbn [mbind option_bind]. destruct b.
  - destruct (IH (res + 1)) as (r & -> & Hr1 & Hr2 & Hr3); [lia|lia|done|done| |].
    { intros s Hin. destruct (Ha s Hin) as [H1 H2]. specialize (Hs s Hin). split; [lia|].
      intros j Hj. destruct (decide (j = res)) as [->|]; [|apply H2; lia].
      rewrite Hch. by apply (proj1 Hb eq_refl). }
    exists r. split_and!; [done|lia|lia|done|done].
  - exists res. split_and!; [done|lia|lia|done|]. right.
    destruct (decide (Exists (fun s => arr_get s res <> arr_get first res) rest)) as [He|He].
    + apply Exists_exists in He as (s & ? & ?). by exists s.
    + exfalso. assert (false = true) as H; [|done]. apply Hb. intros s Hin.
      apply not_Exists_Forall in He; [|intros ?; apply _]. rewrite Forall_forall in He.
      specialize (He s Hin). simpl in He. rewrite <- Hch.
      destruct (decide (arr_get s res = arr_get first res)); [done|tauto].
Qed.

(** The answer is a prefix of all the strings, and every prefix of all of them is
    a prefix of the answer. *)
Theorem longestCommonPrefix_spec strs :
  exists p, longestCommonPrefix strs = Some p /\
    (forall s, s ∈ strs -> p `prefix_of` s) /\
    (strs <> [] -> forall q, (forall s, s ∈ strs -> q `prefix_of` s) -> q `prefix_of` p).
Proof.
  destruct strs as [|first rest]; [by exists []; split_and!; [done|set_solver|]|].
  unfold longestCommonPrefix. set (l := foldl _ _ rest).
  pose proof (fun s => min_size_le rest (size first) s ltac:(lia)) as Hm. cbv zeta in Hm. fold l in Hm.
  destruct (Hm []) as (Hl & _ & Hcase).
  destruct (grow_spec (Z.to_nat l) first rest l 0) as (r & E & Hr & Ha & Hstop);
    [lia|done|lia|intros s Hs; by apply (Hm s)| |].
  { intros s Hs. split; [lia|]. intros; lia. }
  rewrite E. cbn [mbind option_bind]. eexists. split; [done|]. split.
  - intros s [->|Hs]%elem_of_cons; [by apply prefix_take|].
    apply agree_to_prefix; [lia|by apply Ha].
  - intros _ q Hq. destruct (Hq first ltac:(by left)) as [u Hu].
    assert (size q <= r) as Hqr.
    { destruct (Z.le_gt_cases (size q) r) as [|Hlt]; [done|exfalso].
      destruct Hstop as [->|(s & Hs & Hne)].
      - destruct Hcase as [Hc|(t & Ht & Hc)].
        + rewrite Hc, Hu, length_app in Hlt. lia.
        + destruct (Hq t ltac:(by right)) as [v ->]. rewrite length_app in Hc. lia.
      - destruct (Hq s ltac:(by right)) as [v ->]. apply Hne. rewrite Hu.
        replace r with (Z.of_nat (Z.to_nat r)) by lia. rewrite !arr_get_nat.
        by rewrite !lookup_app_l by lia. }
    exists (take (Z.to_nat r - length q) u). rewrite Hu, take_app.
    rewrite (take_ge q) by lia. done.
Qed.

Example longestCommonPrefix_spec_witness :
  exists p, longestCommonPrefix [chars "flower"; chars "flow"; chars "flight"] = Some p /\
    chars "fl" `prefix_of` p.
Proof.
  destruct (longestCommonPrefix_spec [chars "flower"; chars "flow"; chars "flight"])
    as (p & E & _ & H).
  exists p. split; [exact E|]. apply H; [done|]. intros s Hs.
  repeat (apply elem_of_cons in Hs as [->|Hs]; [by eexists|]). set_solver.
Defined.
End CommonPrefix.

(** A character as a number, when [char] is signed. *)
Definition char_code (c : ascii) : Z :=
  let n := ValidPalindrome.code c in if n <? 128 then n else n - 256.

(** ** letter-combinations-of-a-phone-number.cc *)
Module Phone.

(** src/code/leetcode/letter-combinations-of-a-phone-number.cc:9-20 [Solution::letterCombinations (dict)] *)
Definition dict : list (list ascii) :=
  chars <$> [""; ""; "abc"; "def"; "ghi"; "jkl"; "mno"; "pqrs"; "tuv"; "wxyz"]%string.

(** src/code/leetcode/letter-combinations-of-a-phone-number.cc:26-39 [Solution::R]
    The string and the vector, both passed by reference. *)
Fixpoint R (fuel : nat) (ds s : list ascii) (rs : list (list ascii))
  : option (list ascii * list (list ascii)) :=
  match fuel with
  | O => None
  | Datatypes.S fuel =>
      if size s =? size ds then Some (s, rs ++ [s]) else
      c ← arr_get ds (size s);
      let d := char_code c - char_code "0" in
      letters ← arr_get dict d;
      for_ (upto 0 (size letters - 1)) (fun i '(s, rs) =>
        ch ← arr_get letters i;
        let s := s ++ [ch] in
        '(s, rs) ← R fuel ds s rs;
        Some (Generate.drop_last s, rs)) (s, rs)
  end.

(** src/code/leetcode/letter-combinations-of-a-phone-number.cc:7-25 [Solution::letterCombinations] *)
Definition letterCombinations (fuel : nat) (digits : list ascii) : option (list (list ascii)) :=
  '(_, rs) ← R fuel digits [] []; Some rs.

Definition is_digit (c : ascii) : Prop := 48 <= char_code c < 58.
Definition letters (c : ascii) : list ascii := default [] (arr_get dict (char_code c - char_code "0")).

(** One letter for each digit, in the order of the keys. *)
Fixpoint combos (ds : list ascii) : list (list ascii) :=
  match ds with
  | [] => [[]]
  | d :: ds => letters d ≫= fun c => cons c <$> combos ds
  end.

Lemma letters_digit c : is_digit c -> arr_get dict (char_code c - char_code "0") = Some (letters c).
Proof.
  unfold is_digit, letters. intros H. change (char_code "0") with 48.
  destruct (arr_get_in dict (char_code c - 48)) as [x E]; [|by rewrite E].
  change (size dict) with 10. lia.
Qed.

Lemma R_combos fuel s t rs :
  Forall is_digit t -> (length t < fuel)%nat -> forall ds, drop (length s) ds = t ->
  (length s <= length ds)%nat ->
  R fuel ds s rs = Some (s, rs ++ (app s <$> combos t)).
Proof.
  revert s t rs. induction fuel as [|fuel IH]; intros s t rs Ht Hf ds Hd Hs; [lia|]. cbn [R].
  assert (length ds = length s + length t)%nat as Hl by (subst t; rewrite length_drop; lia).
  destruct t as [|d t].
  { simpl in Hl. ztrue (size s =? size ds). cbn. by rewrite app_nil_r. }
  simpl in Hl, Hf. zfalse (size s =? size ds).
  rewrite arr_get_nat. assert (ds !! length s = Some d) as Hds.
  { rewrite <- (take_drop (length s) ds), Hd. rewrite list_lookup_middle; [done|].
    rewrite length_take. lia. }
  rewrite Hds. cbn [mbind option_bind]. apply Forall_cons in Ht as [Hdd Ht].
  rewrite letters_digit by done. cbn [mbind option_bind].
  destruct (for_array (letters d) (fun p '(s', rs') =>
      s' = s /\ rs' = rs ++ (app s <$> (p ≫= fun c => cons c <$> combos t)))
    (fun ch '(s, rs) => '(s, rs) ← R fuel ds (s ++ [ch]) rs; Some (Generate.drop_last s, rs))
    (s, rs)) as ([s' rs'] & E & -> & ->).
  - split; [done|]. cbn. by rewrite app_nil_r.
  - intros p c q [s' rs'] Hp [-> ->].
    rewrite (IH _ t) with (ds := ds); [|done|lia| |rewrite length_app; simpl; lia].
    + cbn [mbind option_bind]. rewrite Generate.drop_last_snoc. eexists. split; [done|].
      split; [done|]. rewrite bind_app, fmap_app, <- app_assoc. do 2 f_equal.
      cbn [mbind list_bind]. rewrite app_nil_r, <- list_fmap_compose.
      apply list_fmap_ext. intros _ w _. simpl. by rewrite <- app_assoc.
    + rewrite (drop_S ds d) in Hd by done. injection Hd as Hd.
      by rewrite length_app, Nat.add_1_r.
  - cbn [combos]. rewrite <- E. apply for_ext. by intros i [].
Qed.

Lemma elem_of_combos w ds : w ∈ combos ds <-> Forall2 (fun c d => c ∈ letters d) w ds.
Proof.
  revert w. induction ds as [|d ds IH]; intros w; cbn [combos].
  - rewrite list_elem_of_singleton. split; [by intros ->|]. by inversion 1.
  - rewrite list_elem_of_bind. split.
    + intros (c & (v & -> & Hv)%list_elem_of_fmap & Hc). constructor; [done|by apply IH].
    + inversion 1 as [|c d' v ds' Hc Hv]; subst. exists c. split; [|done].
      apply list_elem_of_fmap. exists v. split; [done|by apply IH].
Qed.

Lemma NoDup_letters d : NoDup (letters d).
Proof.
  unfold letters. destruct (arr_get dict _) as [l|] eqn:E; [|constructor].
  apply arr_get_Some in E as [_ E%list_elem_of_lookup_2].
  assert (Forall NoDup dict) as H by (apply (bool_decide_unpack _); vm_compute; exact I).
  rewrite Forall_forall in H. by apply H.
Qed.

Lemma NoDup_combos ds : NoDup (combos ds).
Proof.
  induction ds as [|d ds IH]; cbn [combos]; [apply NoDup_singleton|].
  pose proof (NoDup_letters d) as Hl. induction Hl as [|c l Hc _ IHl]; [constructor|].
  cbn [mbind list_bind]. apply NoDup_app. split_and!.
  - apply NoDup_fmap; [by intros ? ? [=]|done].
  - intros w (v & -> & _)%list_elem_of_fmap (c' & (v' & [= <- <-] & _)%list_elem_of_fmap & Hc')%list_elem_of_bind.
    done.
  - apply IHl.
Qed.

(** For a string of digits the recursion ends with every choice of one letter per
    key, each once. *)
Theorem letterCombinations_spec fuel ds :
  Forall is_digit ds -> (length ds < fuel)%nat ->
  exists rs, letterCombinations fuel ds = Some rs /\ NoDup rs /\
    forall w, w ∈ rs <-> Forall2 (fun c d => c ∈ letters d) w ds.
Proof.
  intros Hd Hf. unfold letterCombinations.
  rewrite (R_combos fuel [] ds) by (done || simpl; lia). cbn [mbind option_bind app].
  exists (app [] <$> combos ds). split; [done|].
  rewrite (list_fmap_ext _ id) by done. rewrite list_fmap_id.
  split; [apply NoDup_combos|]. intros w. apply elem_of_combos.
Qed.

Example letterCombinations_spec_witness :
  exists rs, letterCombinations 3 (chars "23") = Some rs /\ NoDup rs /\
    forall w, w ∈ rs <-> Forall2 (fun c d => c ∈ letters d) w (chars "23").
Proof.
  apply letterCombinations_spec; [|simpl; lia].
  repeat (constructor; [vm_compute; split; [intros [=]|reflexivity]|]). constructor.
Defined.
End Phone.

(** ** longest-substring-without-repeating-characters.cc *)
Module Window.

Definition bump (mask : list Z) (c : ascii) (d : Z) : option (list Z) :=
  v ← arr_get mask (char_code c); arr_set mask (char_code c) (v + d).

(** src/code/leetcode/longest-substring-without-repeating-characters.cc:18-24 [Solution::lengthOfLongestSubstring (inner loop)] *)
Fixpoint shrink (fuel : nat) (s : list ascii) (ch : ascii) (mask : list Z) (t : Z)
  : option (list Z * Z) :=
  match fuel with
  | O => None
  | Datatypes.S fuel =>
      es ← arr_get s t;
      let t := t + 1 in
      mask ← bump mask es (-1);
      v ← arr_get mask (char_code ch);
      if v =? 1 then Some (mask, t) else shrink fuel s ch mask t
  end.

(** src/code/leetcode/longest-substring-without-repeating-characters.cc:13-27 [Solution::lengthOfLongestSubstring (body)] *)
Definition body (fuel : nat) (s : list ascii) (i : Z) (st : list Z * Z * Z) : option (list Z * Z * Z) :=
  let '(mask, t, res) := st in
  ch ← arr_get s i;
  mask ← bump mask ch 1;
  v ← arr_get mask (char_code ch);
  '(mask, t) ← (if 1 <? v then shrink fuel s ch mask t else Some (mask, t));
  Some (mask, t, Z.max res (i - t + 1)).

(** src/code/leetcode/longest-substring-without-repeating-characters.cc:7-29 [Solution::lengthOfLongestSubstring] *)
Definition lengthOfLongestSubstring (fuel : nat) (s : list ascii) : option Z :=
  '(_, _, res) ← for_ (upto 0 (size s - 1)) (body fuel s) (replicate 256 0, 0, 0);
  Some res.

(** The table counts the characters of [w]. *)
Definition counts (w : list ascii) (mask : list Z) : Prop :=
  size mask = 256 /\ forall c, 0 <= char_code c -> arr_get mask (char_code c) = Some (occ c w).

Definition plain (s : list ascii) : Prop := Forall (fun c => 0 <= char_code c) s.

Lemma char_code_range c : char_code c < 128.
Proof.
  unfold char_code, ValidPalindrome.code. pose proof (N_ascii_bounded c). case_bool; zb.
Qed.

Lemma char_code_inj c d : char_code c = char_code d -> c = d.
Proof.
  unfold char_code, ValidPalindrome.code. pose proof (N_ascii_bounded c). pose proof (N_ascii_bounded d).
  intros E. rewrite <- (ascii_N_embedding c), <- (ascii_N_embedding d). f_equal.
  destruct (Z.ltb_spec (Z.of_N (N_of_ascii c)) 128), (Z.ltb_spec (Z.of_N (N_of_ascii d)) 128); lia.
Qed.

Lemma bump_counts mask w w' ch d :
  counts w mask -> 0 <= char_code ch ->
  (forall c, occ c w' = occ c w + if decide (c = ch) then d else 0) ->
  exists mask', bump mask ch d = Some mask' /\ counts w' mask'.
Proof.
  intros [Hs Hc] Hch Hw. unfold bump. rewrite Hc by done. cbn [mbind option_bind].
  pose proof (char_code_range ch).
  rewrite arr_set_in by lia. eexists. split; [done|]. split; [by rewrite length_insert|].
  intros c Hc0. rewrite arr_get_insert by lia. rewrite Hw. case_decide as Hcc.
  - subst. by rewrite Z.eqb_refl.
  - destruct (Z.eqb_spec (char_code c) (char_code ch)) as [E|]; [by apply char_code_inj in E|].
    rewrite Hc by done. f_equal. lia.
Qed.

Lemma occ_app_ (w v : list ascii) c : occ c (w ++ v) = occ c w + occ c v.
Proof. apply cnt_app. Qed.

Lemma occ_cons_ x (w : list ascii) c : occ c (x :: w) = (if decide (x = c) then 1 else 0) + occ c w.
Proof. done. Qed.

Lemma occ_absent c (w : list ascii) : c ∉ w -> occ c w = 0.
Proof. rewrite occ_pos. pose proof (occ_nonneg c w). lia. Qed.

Lemma shrink_spec fuel s p w1 ch w2 q mask :
  plain s -> s = p ++ (w1 ++ ch :: w2 ++ [ch]) ++ q -> ch ∉ w1 -> ch ∉ w2 ->
  counts (w1 ++ ch :: w2 ++ [ch]) mask -> (length w1 < fuel)%nat ->
  exists mask', shrink fuel s ch mask (size p) = Some (mask', size p + size w1 + 1) /\
    counts (w2 ++ [ch]) mask'.
Proof.
  intros Hpl. revert p w1 mask. induction fuel as [|fuel IH]; intros p w1 mask Hs H1 H2 Hc Hf; [lia|].
  assert (forall c, c ∈ s -> 0 <= char_code c) as Hcode by by apply Forall_forall.
  assert (0 <= char_code ch) as Hch by (apply Hcode; subst; set_solver).
  cbn [shrink]. destruct w1 as [|x w1]; cbn [app] in *.
  - rewrite (arr_get_mid p (w2 ++ [ch] ++ q) s ch (size p)) by (subst; by napp).
    cbn [mbind option_bind].
    destruct (bump_counts mask (ch :: w2 ++ [ch]) (w2 ++ [ch]) ch (-1) Hc Hch) as (mask' & -> & Hc').
    { intros c. rewrite occ_cons_. destruct (decide (ch = c)), (decide (c = ch)); congruence || lia. }
    cbn [mbind option_bind]. rewrite (proj2 Hc' ch Hch). cbn [mbind option_bind].
    rewrite occ_app_, (occ_absent ch w2), occ_cons_, decide_True by done. simpl.
    exists mask'. split; [do 3 f_equal; lia|done].
  - rewrite (arr_get_mid p ((w1 ++ ch :: w2 ++ [ch]) ++ q) s x (size p)) by (subst; by napp).
    cbn [mbind option_bind].
    assert (0 <= char_code x) as Hx by (apply Hcode; subst; set_solver).
    destruct (bump_counts mask (x :: w1 ++ ch :: w2 ++ [ch]) (w1 ++ ch :: w2 ++ [ch]) x (-1) Hc Hx)
      as (mask' & -> & Hc').
    { intros c. rewrite occ_cons_. destruct (decide (x = c)), (decide (c = x)); congruence || lia. }
    cbn [mbind option_bind]. rewrite (proj2 Hc' ch Hch). cbn [mbind option_bind].
    rewrite occ_app_, occ_cons_, decide_True, occ_app_ by done.
    rewrite (occ_absent ch w1), (occ_absent ch w2) by set_solver.
    rewrite occ_cons_, decide_True by done. simpl.
    destruct (IH (p ++ [x]) w1 mask') as (mask2 & E & Hc2); [rewrite Hs; by napp|set_solver|done|done|simpl in Hf; lia|].
    exists mask2. split; [|done].
    replace (size p + 1) with (size (p ++ [x])) by (rewrite length_app; simpl; lia).
    rewrite E. do 2 f_equal. rewrite length_app. simpl. lia.
Qed.

(** [w] is the longest ending of [p ++ w] without a repetition. *)
Definition longest_end (p w : list ascii) : Prop :=
  NoDup w /\ forall u v, p ++ w = u ++ v -> NoDup v -> size v <= size w.

Definition best (s : list ascii) (i res : Z) : Prop :=
  (exists a m b, s = a ++ m ++ b /\ NoDup m /\ size m = res) /\
  forall a m b, s = a ++ m ++ b -> NoDup m -> size a + size m <= i -> size m <= res.

Lemma best_step s i res p w q :
  best s i res -> s = p ++ w ++ q -> size p + size w = i + 1 -> longest_end p w ->
  best s (i + 1) (Z.max res (size w)).
Proof.
  intros [He Hb] Hs Hi [Hn Hw]. split.
  - destruct (Z.max_spec res (size w)) as [[_ ->]|[_ ->]]; [by exists p, w, q|done].
  - intros a m b Es Hm Hl. destruct (decide (size a + size m = i + 1)) as [El|].
    + assert (size m <= size w); [|lia]. apply (Hw a m); [|done].
      rewrite Hs in Es. rewrite !app_assoc in Es. apply app_inj_1 in Es as [-> _]; [done|].
      rewrite !length_app. lia.
    + specialize (Hb a m b Es Hm ltac:(lia)). lia.
Qed.

Lemma longest_end_fresh p w ch : longest_end p w -> ch ∉ w -> longest_end p (w ++ [ch]).
Proof.
  intros [Hn Hw] Hc. split.
  - apply NoDup_app. split_and!; [done|set_solver|apply NoDup_singleton].
  - intros u v E Hv. destruct v as [|x v _] using rev_ind; [rewrite length_app; simpl; lia|].
    rewrite !app_assoc in E. apply app_inj_tail in E as [E ->].
    apply NoDup_app in Hv as [Hv _]. specialize (Hw u v E Hv). rewrite !length_app. simpl. lia.
Qed.

Lemma longest_end_again (p w1 : list ascii) ch w2 :
  NoDup (w1 ++ ch :: w2) -> longest_end (p ++ w1 ++ [ch]) (w2 ++ [ch]).
Proof.
  intros Hn. apply NoDup_app in Hn as (_ & _ & [Hc Hn]%NoDup_cons). split.
  - apply NoDup_app. split_and!; [done|set_solver|apply NoDup_singleton].
  - intros u v E Hv. assert ((p ++ w1) ++ (ch :: w2 ++ [ch]) = u ++ v) as E' by (rewrite <- E; by napp).
    assert (forall k, v <> k ++ ch :: w2 ++ [ch]) as Hrep.
    { intros k ->. apply NoDup_app in Hv as (_ & _ & [Hv _]%NoDup_cons). set_solver. }
    destruct (app_eq_inv _ _ _ _ E') as [(k & _ & Ek)|(k & _ & Ek)]; [by destruct (Hrep k)|].
    destruct k as [|x k]; [by destruct (Hrep []); rewrite Ek|].
    injection Ek as _ Ek. rewrite Ek, length_app. lia.
Qed.

(** For a text of ASCII characters the answer is the length of the longest piece
    without a repeated character. *)
Theorem lengthOfLongestSubstring_spec fuel s :
  plain s -> (length s < fuel)%nat ->
  exists r, lengthOfLongestSubstring fuel s = Some r /\
    is_max (fun n => exists a m b, s = a ++ m ++ b /\ NoDup m /\ size m = n) r.
Proof.
  intros Hpl Hf. unfold lengthOfLongestSubstring.
  assert (forall c, c ∈ s -> 0 <= char_code c) as Hcode by by apply Forall_forall.
  destruct (for_upto (fun i '(mask, t, res) => exists p w q, s = p ++ w ++ q /\ size p = t /\
      size p + size w = i /\ longest_end p w /\ counts w mask /\ best s i res)
    0 (size s - 1) (body fuel s) (replicate 256 0, 0, 0)) as ([[mask t] res] & E & Hend).
  - lia.
  - exists [], [], s. split_and!; [done|done|done| | |split].
    + split; [constructor|]. by intros [|] [|] [=].
    + split; [done|]. intros c Hc. pose proof (char_code_range c). unfold arr_get.
      zfalse (char_code c <? 0). apply lookup_replicate. split; [done|lia].
    + exists [], [], s. by repeat constructor.
    + intros a m b _ _ H. lia.
  - intros i [[mask t] res] Hi (p & w & q & Hs & <- & Hpw & Hle & Hc & Hbest).
    assert (size s = size p + size w + size q) as Hl by (rewrite Hs, !length_app; lia).
    destruct q as [|ch q]; [simpl in Hl; lia|]. unfold body.
    rewrite (arr_get_mid (p ++ w) q s ch i) by (rewrite ?length_app, ?Hs, <- ?app_assoc; done || lia).
    cbn [mbind option_bind].
    assert (0 <= char_code ch) as Hch by (apply Hcode; subst; set_solver).
    destruct (bump_counts mask w (w ++ [ch]) ch 1 Hc Hch) as (mask' & -> & Hc').
    { intros c. rewrite occ_app_. change (occ c [ch]) with ((if decide (ch = c) then 1 else 0) + 0).
      destruct (decide (ch = c)), (decide (c = ch)); congruence || lia. }
    cbn [mbind option_bind]. rewrite (proj2 Hc' ch Hch). cbn [mbind option_bind].
    rewrite occ_app_, (occ_cons_ ch [] ch), decide_True by done. change (occ ch []) with 0.
    destruct (decide (ch ∈ w)) as [Hin|Hin].
    + apply list_elem_of_split in Hin as (w1 & w2 & ->).
      pose proof (proj1 Hle) as Hnd. apply NoDup_app in Hnd as (_ & Hd & [Hn2 _]%NoDup_cons).
      assert (0 < occ ch (w1 ++ ch :: w2)) by (apply occ_pos; set_solver).
      ztrue (1 <? occ ch (w1 ++ ch :: w2) + (1 + 0)).
      destruct (shrink_spec fuel s p w1 ch w2 q mask') as (mask2 & -> & Hc2);
        [done|rewrite Hs; by napp|set_solver|done|revert Hc'; by napp| |].
      { rewrite length_app in Hl. simpl in Hl. lia. }
      cbn [mbind option_bind]. eexists. split; [done|].
      exists (p ++ w1 ++ [ch]), (w2 ++ [ch]), q.
      assert (longest_end (p ++ w1 ++ [ch]) (w2 ++ [ch])) as Hle2 by by apply longest_end_again, (proj1 Hle).
      rewrite !length_app in Hpw. cbn [length] in Hpw.
      split_and!; [rewrite Hs; by napp|rewrite !length_app; simpl; lia|rewrite !length_app; simpl; lia|done|done|].
      replace (i - (size p + size w1 + 1) + 1) with (size (w2 ++ [ch])) by (rewrite length_app; simpl; lia).
      apply (best_step s i res (p ++ w1 ++ [ch]) (w2 ++ [ch]) q);
        [done|rewrite Hs; by napp|rewrite !length_app; simpl; lia|done].
    + rewrite (occ_absent ch w) by done. zfalse (1 <? 0 + (1 + 0)). cbn [mbind option_bind].
      eexists. split; [done|]. exists p, (w ++ [ch]), q.
      assert (longest_end p (w ++ [ch])) as Hle2 by by apply longest_end_fresh.
      split_and!; [rewrite Hs; by napp|done|rewrite length_app; simpl; lia|done|done|].
      replace (i - size p + 1) with (size (w ++ [ch])) by (rewrite length_app; simpl; lia).
      apply (best_step s i res p (w ++ [ch]) q); [done|rewrite Hs; by napp|rewrite length_app; simpl; lia|done].
  - rewrite E. cbn [mbind option_bind]. exists res. split; [done|].
    destruct Hend as (p & w & q & _ & _ & _ & _ & _ & He & Hb). split; [done|].
    intros x (a & m & b & Es & Hm & <-). apply (Hb a m b); [done|done|]. rewrite Es, !length_app. lia.
Qed.

Example lengthOfLongestSubstring_spec_witness :
  exists r, lengthOfLongestSubstring 9 (chars "abcabdbb") = Some r /\
    is_max (fun n => exists a m b, chars "abcabdbb" = a ++ m ++ b /\ NoDup m /\ size m = n) r.
Proof.
  apply lengthOfLongestSubstring_spec; [|simpl; lia].
  repeat (constructor; [vm_compute; by intros [=]|]). constructor.
Defined.

(** A character from 128 on is a negative index. *)
Theorem lengthOfLongestSubstring_high fuel c s :
  char_code c < 0 -> lengthOfLongestSubstring fuel (c :: s) = None.
Proof.
  intros Hc. unfold lengthOfLongestSubstring. rewrite upto_cons by (simpl; lia). cbn [for_].
  unfold body at 1. cbn [arr_get Z.ltb lookup]. unfold arr_get at 1. simpl.
  unfold bump. rewrite (arr_get_out _ (char_code c)) by by left. done.
Qed.

Example lengthOfLongestSubstring_high_witness :
  lengthOfLongestSubstring 2 [ascii_of_N 200] = None.
Proof. apply lengthOfLongestSubstring_high. vm_compute. done. Defined.
End Window.
