(* ===== verification/Cuts.v ===== *)
(** * Cuts: the exercises of src/code/leetcode that cut a string into pieces

    Palindromes, the bytes of an address, and the letters a string of digits
    stands for. The recursions and tables are compared with the set of all the
    ways to cut. *)

From S2P Require Import Prelude Loops Words Texts.
From Stdlib Require Import Ascii.

Local Open Scope char_scope.
Local Open Scope Z_scope.

(** The characters from [s] to [e], both included. *)
Definition sub (str : list ascii) (s e : Z) : list ascii :=
  take (Z.to_nat (e - s + 1)) (drop (Z.to_nat s) str).

Lemma sub_drop str s i :
  0 <= s <= i -> i <= size str -> sub str s (i - 1) ++ drop (Z.to_nat i) str = drop (Z.to_nat s) str.
Proof.
  intros Hs Hi. unfold sub. rewrite <- (take_drop (Z.to_nat (i - 1 - s + 1)) (drop (Z.to_nat s) str)) at 2.
  f_equal. rewrite drop_drop. f_equal. lia.
Qed.

Lemma size_sub str s e : 0 <= s -> s <= e + 1 -> e < size str -> size (sub str s e) = e - s + 1.
Proof. intros. unfold sub. rewrite length_take, length_drop. lia. Qed.

Lemma lookup_cases (str : list ascii) s : 0 <= s < size str -> exists x, arr_get str s = Some x /\
  drop (Z.to_nat s) str = x :: drop (Z.to_nat (s + 1)) str.
Proof.
  intros Hs. destruct (arr_get_in str s Hs) as [x Hx]. exists x. split; [done|].
  apply arr_get_Some in Hx as [_ Hx]. rewrite (drop_S _ _ _ Hx). do 2 f_equal. lia.
Qed.

(** The ends of a stretch and what is between. *)
Lemma sub_ends str s e :
  0 <= s < e -> e < size str ->
  exists x y, arr_get str s = Some x /\ arr_get str e = Some y /\
    sub str s e = x :: sub str (s + 1) (e - 1) ++ [y].
Proof.
  intros Hs He. destruct (lookup_cases str s) as (x & Hx & Dx); [lia|].
  destruct (arr_get_in str e) as [y Hy]; [lia|]. exists x, y. split_and!; [done..|].
  unfold sub. rewrite Dx. replace (Z.to_nat (e - s + 1)) with (Datatypes.S (Z.to_nat (e - s))) by lia.
  cbn [firstn take]. f_equal.
  replace (Z.to_nat (e - s)) with (Datatypes.S (Z.to_nat (e - 1 - (s + 1) + 1))) by lia.
  apply take_S_r. rewrite lookup_drop. apply arr_get_Some in Hy as [_ Hy].
  rewrite <- Hy. f_equal. lia.
Qed.

(** The rests of a word: the place they start at tells them apart. *)
Lemma drop_app_size (str p r : list ascii) o :
  0 <= o <= size str -> drop (Z.to_nat o) str = p ++ r ->
  o + size p <= size str /\ p = sub str o (o + size p - 1) /\ r = drop (Z.to_nat (o + size p)) str.
Proof.
  intros Ho E. assert (length (drop (Z.to_nat o) str) = length (p ++ r)) as L by by rewrite E.
  rewrite length_drop, length_app in L. split_and!; [lia| |].
  - unfold sub. rewrite E. replace (Z.to_nat (o + size p - 1 - o + 1)) with (length p) by lia.
    by rewrite take_app_length.
  - replace (Z.to_nat (o + size p)) with (Z.to_nat o + length p)%nat by lia.
    by rewrite <- drop_drop, E, drop_app_length.
Qed.

Lemma sub_cut str o i j :
  0 <= o <= i + 1 -> i <= j -> j < size str -> sub str o j = sub str o i ++ sub str (i + 1) j.
Proof.
  intros. unfold sub. rewrite <- (take_drop (Z.to_nat (i - o + 1)) (take (Z.to_nat (j - o + 1)) _)).
  rewrite take_take. f_equal; [f_equal; lia|].
  replace (Z.to_nat (j - o + 1)) with (Z.to_nat (i - o + 1) + Z.to_nat (j - (i + 1) + 1))%nat by lia.
  rewrite <- take_drop_commute, drop_drop. f_equal. f_equal. lia.
Qed.

Lemma sub_one str i x : arr_get str i = Some x -> sub str i i = [x].
Proof.
  intros Hx. unfold sub. apply arr_get_Some in Hx as [? Hx]. rewrite (drop_S _ _ _ Hx).
  by replace (Z.to_nat (i - i + 1)) with 1%nat by lia.
Qed.

(** ** palindrom-partitioning.cc *)
Module Partition.

(** src/code/leetcode/palindrom-partitioning.cc:57-72 [Solution::preCalculatePalindrome] *)
Fixpoint preCalculatePalindrome (fuel : nat) (str : list ascii) (s e : Z) (cache : list Z)
  : option (Z * list Z) :=
  match fuel with
  | O => None
  | Datatypes.S fuel =>
      let index := s * size str + e in
      c ← arr_get cache index;
      if negb (c =? -1) then Some (Z.b2z (c =? 1), cache) else
      '(v, cache) ← (if s <? e then
                       x ← arr_get str s; y ← arr_get str e;
                       if negb (x ≟ y) then Some (0, cache)
                       else preCalculatePalindrome fuel str (s + 1) (e - 1) cache
                     else Some (1, cache));
      cache ← arr_set cache index v;
      Some (v, cache)
  end.

(** src/code/leetcode/palindrom-partitioning.cc:52-55 [Solution::isPalindrome] *)
Definition isPalindrome (str : list ascii) (s e : Z) (pcache : list Z) : option bool :=
  let index := s * size str + e in
  v ← arr_get pcache index; Some (negb (v =? 0)).

(** src/code/leetcode/palindrom-partitioning.cc:13-21 [Solution::partition (table)] *)
Definition table (fuel : nat) (s : list ascii) : option (list Z) :=
  let pcache := replicate (Z.to_nat (size s * size s)) (-1) in
  for_ (upto 0 (size s - 1)) (fun i =>
    for_ (upto 0 (size s - 1)) (fun j pcache =>
      '(_, pcache) ← preCalculatePalindrome fuel s i j pcache; Some pcache)) pcache.

(** src/code/leetcode/palindrom-partitioning.cc:32-50 [Solution::partitionWithCache] *)
Fixpoint partitionWithCache (fuel : nat) (s : list ascii) (offset : Z) (pcache : list Z)
  : option (list (list (list ascii))) :=
  match fuel with
  | O => None
  | Datatypes.S fuel =>
      b ← isPalindrome s offset (size s - 1) pcache;
      let vvs := if b : bool then [[drop (Z.to_nat offset) s]] else [] in
      for_ (upto (offset + 1) (size s - 1)) (fun i vvs =>
        b ← isPalindrome s offset (i - 1) pcache;
        if b : bool then
          let piece := take (Z.to_nat (i - offset)) (drop (Z.to_nat offset) s) in
          sub_vvs ← partitionWithCache fuel s i pcache;
          Some (vvs ++ map (fun v => v ++ [piece]) sub_vvs)
        else Some vvs) vvs
  end.

(** src/code/leetcode/palindrom-partitioning.cc:10-30 [Solution::partition] *)
Definition partition (fuel : nat) (s : list ascii) : option (list (list (list ascii))) :=
  pcache ← table fuel s;
  vvs ← partitionWithCache fuel s 0 pcache;
  Some (map reverse vvs).

(** What the table says of a place: between [s] and [e] there is a palindrome, or
    nothing. *)
Definition palb (str : list ascii) (s e : Z) : bool :=
  if s <? e then bool_decide (pal (sub str s e)) else true.

Definition in_table (str : list ascii) (s e : Z) : Prop := 0 <= s < size str /\ 0 <= e < size str.

Definition cell (str : list ascii) (cache : list Z) (s e : Z) : option Z :=
  arr_get cache (s * size str + e).

(** The cells that are known are right. *)
Definition table_ok (str : list ascii) (cache : list Z) : Prop :=
  size cache = size str * size str /\
  forall s e, in_table str s e ->
    cell str cache s e = Some (-1) \/ cell str cache s e = Some (Z.b2z (palb str s e)).

Definition known (str : list ascii) (cache : list Z) (s e : Z) : Prop :=
  cell str cache s e = Some (Z.b2z (palb str s e)).

Lemma index_in str s e : in_table str s e -> 0 <= s * size str + e < size str * size str.
Proof. intros [? ?]. nia. Qed.

Lemma index_inj str s e s' e' :
  in_table str s e -> in_table str s' e' -> s * size str + e = s' * size str + e' -> s = s' /\ e = e'.
Proof. intros [? ?] [? ?] E. assert (s = s') by nia. subst. lia. Qed.

Lemma set_known str cache s e :
  table_ok str cache -> in_table str s e ->
  exists cache', arr_set cache (s * size str + e) (Z.b2z (palb str s e)) = Some cache' /\
    table_ok str cache' /\ known str cache' s e /\
    forall s' e', in_table str s' e' -> known str cache s' e' -> known str cache' s' e'.
Proof.
  intros [Hs Hok] Hin. pose proof (index_in str s e Hin).
  rewrite arr_set_in by lia. eexists. split; [done|].
  assert (forall s' e', in_table str s' e' ->
    cell str (<[Z.to_nat (s * size str + e) := Z.b2z (palb str s e)]> cache) s' e' =
    if decide (s' = s /\ e' = e) then Some (Z.b2z (palb str s e)) else cell str cache s' e') as Hcell.
  { intros s' e' Hin'. pose proof (index_in str s' e' Hin'). unfold cell.
    rewrite arr_get_insert by lia. destruct (Z.eqb_spec (s' * size str + e') (s * size str + e)) as [E|E].
    - apply index_inj in E as [-> ->]; [|done..]. by rewrite decide_True.
    - rewrite decide_False; [done|]. by intros [-> ->]. }
  split_and!.
  - split; [by rewrite length_insert|].
    intros s' e' Hin'. rewrite Hcell by done. case_decide as E; [destruct E as [-> ->]; by right|by apply Hok].
  - unfold known. rewrite Hcell, decide_True by done. done.
  - intros s' e' Hin' Hk. unfold known in *. rewrite Hcell by done. case_decide as E; [|done].
    by destruct E as [-> ->].
Qed.

Lemma palb_step str s e x y :
  0 <= s < e -> e < size str -> arr_get str s = Some x -> arr_get str e = Some y ->
  palb str s e = (x ≟ y) && palb str (s + 1) (e - 1).
Proof.
  intros Hs He Hx Hy. unfold palb at 1. ztrue (s <? e).
  destruct (sub_ends str s e Hs He) as (x' & y' & Ex & Ey & E).
  assert (x' = x) as -> by congruence. assert (y' = y) as -> by congruence. rewrite E.
  rewrite (bool_decide_ext _ _ (pal_ends x _ y)), bool_decide_and. f_equal.
  unfold palb. destruct (Z.ltb_spec (s + 1) (e - 1)); [done|].
  apply bool_decide_true. destruct (decide (s + 1 = e - 1)) as [He2|].
  - unfold sub. replace (Z.to_nat (e - 1 - (s + 1) + 1)) with 1%nat by lia.
    destruct (drop _ str) as [|z [|]]; done.
  - unfold sub. by replace (Z.to_nat (e - 1 - (s + 1) + 1)) with 0%nat by lia.
Qed.

Lemma pre_spec fuel str s e cache :
  table_ok str cache -> in_table str s e -> (Z.to_nat (e - s) < fuel)%nat ->
  exists cache', preCalculatePalindrome fuel str s e cache = Some (Z.b2z (palb str s e), cache') /\
    table_ok str cache' /\ known str cache' s e /\
    forall s' e', in_table str s' e' -> known str cache s' e' -> known str cache' s' e'.
Proof.
  revert s e cache. induction fuel as [|fuel IH]; intros s e cache Hok Hin Hf; [lia|].
  cbn [preCalculatePalindrome]. pose proof (proj2 Hok s e Hin) as Hc. unfold cell in Hc.
  destruct Hc as [Hc|Hc]; rewrite Hc; cbn [mbind option_bind].
  - cbn [Z.eqb negb]. assert (exists cache', (if s <? e then
                       x ← arr_get str s; y ← arr_get str e;
                       if negb (x ≟ y) then Some (0, cache)
                       else preCalculatePalindrome fuel str (s + 1) (e - 1) cache
                     else Some (1, cache)) = Some (Z.b2z (palb str s e), cache') /\
        table_ok str cache' /\
        forall s' e', in_table str s' e' -> known str cache s' e' -> known str cache' s' e')
      as (cache' & -> & Hok' & Hk').
    { destruct Hin as [Hs He]. destruct (Z.ltb_spec s e) as [Hse|Hse].
      - destruct (arr_get_in str s Hs) as [x Hx]. destruct (arr_get_in str e He) as [y Hy].
        rewrite Hx, Hy. cbn [mbind option_bind].
        rewrite (palb_step str s e x y) by (done || lia).
        case_bool_decide as Hxy; cbn [negb andb].
        + destruct (IH (s + 1) (e - 1) cache Hok) as (cache' & -> & ? & _ & ?);
            [split; lia|lia|]. by exists cache'.
        + by exists cache.
      - unfold palb. zfalse (s <? e). by exists cache. }
    cbn [mbind option_bind].
    destruct (set_known str cache' s e Hok' Hin) as (cache2 & -> & Hok2 & Hk & Hmono).
    cbn [mbind option_bind]. exists cache2. split_and!; [done..|]. intros; apply Hmono; auto.
  - exists cache. destruct (palb str s e) eqn:Ep; cbn; (split_and!; [done..| |done]);
      unfold known, cell; by rewrite Ep.
Qed.

(** A table whose cells are all known. *)
Definition full (str : list ascii) (cache : list Z) : Prop :=
  forall s e, in_table str s e -> known str cache s e.

Lemma table_full fuel s :
  (length s < fuel)%nat -> exists pcache, table fuel s = Some pcache /\ full s pcache.
Proof.
  intros Hf. unfold table.
  destruct (for_upto (fun i pcache => table_ok s pcache /\
      forall k e, in_table s k e -> k < i -> known s pcache k e) 0 (size s - 1)
    (fun i => for_ (upto 0 (size s - 1)) (fun j pcache =>
      '(_, pcache) ← preCalculatePalindrome fuel s i j pcache; Some pcache))
    (replicate (Z.to_nat (size s * size s)) (-1))) as (pcache & E & Hok & Hk); [lia| | |].
  - split; [|intros ? ? [? ?]; lia]. split; [rewrite length_replicate; lia|].
    intros k e Hin. left. unfold cell. pose proof (index_in s k e Hin). unfold arr_get.
    zfalse (k * size s + e <? 0). apply lookup_replicate. split; [done|lia].
  - intros i pc Hi [Hok Hk].
    destruct (for_upto (fun j pcache => table_ok s pcache /\
        forall k e, in_table s k e -> k < i \/ (k = i /\ e < j) -> known s pcache k e) 0 (size s - 1)
      (fun j pcache => '(_, pcache) ← preCalculatePalindrome fuel s i j pcache; Some pcache) pc)
      as (pc' & -> & Hok' & Hk'); [lia| | |].
    + split; [done|]. intros k e Hin [?|?]; [by apply Hk|destruct Hin; lia].
    + intros j pc2 Hj [Hok2 Hk2].
      destruct (pre_spec fuel s i j pc2 Hok2) as (pc3 & -> & Hok3 & Hkn & Hmono); [split; lia|lia|].
      cbn [mbind option_bind]. eexists. split; [done|]. split; [done|].
      intros k e Hin Hke. destruct (decide (k = i /\ e = j)) as [[-> ->]|]; [done|].
      apply Hmono; [done|]. apply Hk2; [done|lia].
    + exists pc'. split; [done|]. split; [done|]. intros k e Hin Hki. apply Hk'; [done|].
      destruct Hin. lia.
  - exists pcache. split; [done|]. intros k e Hin. apply Hk; [done|]. destruct Hin. lia.
Qed.

Lemma isPalindrome_full str pcache s e :
  full str pcache -> 0 <= s <= e -> e < size str ->
  isPalindrome str s e pcache = Some (bool_decide (pal (sub str s e))).
Proof.
  intros Hf Hs He. unfold isPalindrome. pose proof (Hf s e) as H. unfold known, cell in H.
  rewrite H by (split; lia). cbn [mbind option_bind]. f_equal.
  unfold palb. destruct (Z.ltb_spec s e).
  - by destruct (bool_decide _).
  - assert (s = e) as -> by lia. symmetry. apply bool_decide_true. unfold sub.
    replace (Z.to_nat (e - e + 1)) with 1%nat by lia. by destruct (drop _ str) as [|z [|]].
Qed.
(** The ways to cut a word into palindromes, none of them empty. *)
Definition cut_of (s : list ascii) (v : list (list ascii)) : Prop :=
  Forall (fun p => p <> [] /\ pal p) v /\ concat v = s.

Lemma cut_of_cons s p v : cut_of s (p :: v) <-> p <> [] /\ pal p /\ exists r, s = p ++ r /\ cut_of r v.
Proof.
  unfold cut_of. rewrite Forall_cons. cbn [concat]. split.
  - intros [[[? ?] ?] <-]. split_and!; [done..|]. by exists (concat v).
  - intros (? & ? & r & -> & ? & ->). done.
Qed.

Lemma cut_of_nil v : cut_of [] v <-> v = [].
Proof.
  split; [|intros ->; by split]. destruct v as [|p v]; [done|].
  intros (Hne & _ & r & E & _)%cut_of_cons. by symmetry in E; apply app_eq_nil in E as [-> _].
Qed.

(** The ways that start with a piece of fewer than [i - o] characters, or with
    all that is left. *)
Definition upto_piece (str : list ascii) (o i : Z) (v : list (list ascii)) : Prop :=
  exists p u, v = u ++ [p] /\ cut_of (drop (Z.to_nat o) str) (p :: reverse u) /\
    (size p < i - o \/ size p = size str - o).

Lemma upto_piece_next str o i v :
  0 <= o < i -> i < size str ->
  upto_piece str o (i + 1) v <->
  upto_piece str o i v \/ (pal (sub str o (i - 1)) /\
    exists u, v = u ++ [sub str o (i - 1)] /\ cut_of (drop (Z.to_nat i) str) (reverse u)).
Proof.
  intros Ho Hi. split.
  - intros (p & u & -> & Hc & Hl).
    destruct (decide (size p = i - o)) as [Hp|]; [right|left; exists p, u; split_and!; [done..|lia]].
    apply cut_of_cons in Hc as (_ & Hpal & r & E & Hr). apply drop_app_size in E as (_ & Ep & ->); [|lia].
    rewrite Hp in *. replace (o + (i - o)) with i in * by lia. subst p. split; [done|]. by exists u.
  - intros [(p & u & -> & Hc & Hl)|(Hpal & u & -> & Hc)].
    + exists p, u. split_and!; [done..|lia].
    + pose proof (size_sub str o (i - 1)) as Hl. exists (sub str o (i - 1)), u. split_and!; [done| |lia].
      apply cut_of_cons. split_and!; [|done|].
      * intros E. rewrite E in Hl. cbn [length] in Hl. lia.
      * exists (drop (Z.to_nat i) str). split; [|done]. symmetry. apply sub_drop; lia.
Qed.

Lemma partitionWithCache_spec str pcache fuel o :
  full str pcache -> 0 <= o < size str -> (Z.to_nat (size str - o) < fuel)%nat ->
  exists vvs, partitionWithCache fuel str o pcache = Some vvs /\ NoDup vvs /\
    forall v, v ∈ vvs <-> cut_of (drop (Z.to_nat o) str) (reverse v).
Proof.
  intros Hfull. revert o. induction fuel as [|fuel IH]; intros o Ho Hf; [lia|].
  cbn [partitionWithCache]. rewrite isPalindrome_full by (done || lia). cbn [mbind option_bind].
  assert (sub str o (size str - 1) = drop (Z.to_nat o) str) as Eo
    by (unfold sub; apply take_ge; rewrite length_drop; lia).
  match goal with |- context [for_ _ ?body ?v0] =>
    destruct (for_upto (fun i vvs => NoDup vvs /\ forall v, v ∈ vvs <-> upto_piece str o i v)
      (o + 1) (size str - 1) body v0) as (vvs & -> & Hnd & Hv); [lia| | |] end.
  - rewrite Eo. case_bool_decide as Hp.
    + split; [apply NoDup_singleton|]. intros v. rewrite list_elem_of_singleton. split.
      * intros ->. exists (drop (Z.to_nat o) str), []. split_and!; [done| |rewrite length_drop; lia].
        apply cut_of_cons. split_and!; [|done|].
        -- intros E%(f_equal length). rewrite length_drop in E. simpl in E. lia.
        -- exists []. by rewrite app_nil_r.
      * intros (p & u & -> & (Hne & _ & r & E & Hr)%cut_of_cons & Hl).
        apply drop_app_size in E as (_ & Ep & ->); [|lia].
        destruct p as [|x p]; [done|]. cbn [length] in *.
        destruct Hl as [|Hl]; [lia|]. replace (o + Z.of_nat (Datatypes.S (length p))) with (size str) in * by lia.
        rewrite drop_ge in Hr by lia. apply cut_of_nil in Hr.
        apply (f_equal reverse) in Hr. rewrite reverse_involutive in Hr. rewrite Hr.
        by rewrite Ep, <- Eo.
    + split; [apply NoDup_nil_2|]. intros v. split; [by intros ?%elem_of_nil|].
      intros (p & u & -> & (Hne & Hpal & r & E & Hr)%cut_of_cons & Hl). exfalso.
      apply drop_app_size in E as (_ & Ep & ->); [|lia].
      destruct p as [|x p]; [done|]. cbn [length] in *. destruct Hl as [|Hl]; [lia|].
      apply Hp. rewrite <- Eo. by replace (size str - 1) with (o + Z.of_nat (Datatypes.S (length p)) - 1) by lia;
        rewrite <- Ep.
  - intros i vvs Hi [Hnd Hv]. rewrite isPalindrome_full by (done || lia). cbn [mbind option_bind].
    destruct (IH i) as (sub_vvs & -> & Hnd' & Hs); [lia..|]. cbn [mbind option_bind].
    replace (take _ (drop _ str)) with (sub str o (i - 1)) by (unfold sub; do 2 f_equal; lia).
    case_bool_decide as Hp; (eexists; split; [done|]); (split; [|intros v; rewrite upto_piece_next by lia]).
    + apply NoDup_app. split_and!; [done| |].
      * intros v (p & u & -> & Hc & Hl)%Hv (w & [_ [= Ew]]%app_inj_tail & _)%list_elem_of_fmap.
        pose proof (size_sub str o (i - 1)). rewrite <- Ew in *. lia.
      * apply NoDup_fmap_2; [|done]. by intros w w' [-> _]%app_inj_tail.
    + rewrite elem_of_app, Hv, list_elem_of_fmap. apply or_iff_compat_l. split.
      * intros (w & -> & Hw). split; [done|]. exists w. split; [done|by apply Hs].
      * intros (_ & w & -> & Hw). exists w. split; [done|by apply Hs].
    + done.
    + rewrite Hv. naive_solver.
  - exists vvs. split; [done|]. split; [done|]. intros v. rewrite Hv. split.
    + intros (p & u & -> & Hc & _). by rewrite reverse_snoc.
    + intros Hc. destruct (reverse v) as [|p w] eqn:Ev.
      * destruct Hc as [_ E]. apply (f_equal length) in E. rewrite length_drop in E. simpl in E. lia.
      * apply (f_equal reverse) in Ev. rewrite reverse_involutive, reverse_cons in Ev.
        exists p, (reverse w). rewrite reverse_involutive. split_and!; [done..|].
        apply cut_of_cons in Hc as (_ & _ & r & E & _). apply drop_app_size in E; lia.
Qed.

(** All the ways to cut a word into palindromes, each of them once. *)
Lemma partition_spec (s : list ascii) fuel :
  s <> [] -> (length s < fuel)%nat ->
  exists vvs, partition fuel s = Some vvs /\ NoDup vvs /\ forall v, v ∈ vvs <-> cut_of s v.
Proof.
  intros Hs Hf. assert (0 < size s) by (destruct s; [done|simpl; lia]). unfold partition.
  destruct (table_full fuel s Hf) as (pcache & -> & Hfull). cbn [mbind option_bind].
  destruct (partitionWithCache_spec s pcache fuel 0 Hfull) as (vvs & -> & Hnd & Hv); [lia..|].
  cbn [mbind option_bind]. eexists. split; [done|]. split.
  - by apply (NoDup_fmap_2 reverse).
  - intros v. rewrite list_elem_of_fmap. split.
    + intros (w & -> & Hw). by apply Hv.
    + intros Hc. exists (reverse v). rewrite reverse_involutive. split; [done|]. apply Hv.
      by rewrite reverse_involutive.
Qed.

Lemma partition_witness :
  let s := chars "aab" in
  exists vvs, partition 4 s = Some vvs /\ NoDup vvs /\ forall v, v ∈ vvs <-> cut_of s v.
Proof. apply (partition_spec (chars "aab") 4); [done|simpl; lia]. Defined.

(** Of the empty word the cell before the table's first is read. *)
Lemma partition_empty fuel : partition fuel [] = None.
Proof. by destruct fuel. Qed.
End Partition.

(** ** palindrom-partitioning-2.cc: its table is the one above *)
Module Cut.

(** src/code/leetcode/palindrom-partitioning-2.cc:60-75 [Solution::preCalculatePalindrome] *)
Definition preCalculatePalindrome := Partition.preCalculatePalindrome.

(** src/code/leetcode/palindrom-partitioning-2.cc:55-58 [Solution::isPalindrome] *)
Definition isPalindrome := Partition.isPalindrome.

(** src/code/leetcode/palindrom-partitioning-2.cc:32-53 [Solution::minCutWithCache]
    [str.size() - 1] is unsigned: of an empty word it is the greatest number. *)
Fixpoint minCutWithCache (fuel : nat) (str : list ascii) (offset : Z) (cache pcache : list Z)
  : option (Z * list Z) :=
  match fuel with
  | O => None
  | Datatypes.S fuel =>
      if u64 (size str - 1) <=? offset then Some (0, cache) else
      c ← arr_get cache offset;
      if negb (c =? -1) then Some (c, cache) else
      b ← isPalindrome str offset (size str - 1) pcache;
      if b : bool then Some (0, cache) else
      '(minValue, cache) ← for_ (upto (offset + 1) (size str - 1)) (fun i '(minValue, cache) =>
        b ← isPalindrome str offset (i - 1) pcache;
        if b : bool then
          '(r, cache) ← minCutWithCache fuel str i cache pcache;
          let v := 1 + r in
          Some (if v <? minValue then v else minValue, cache)
        else Some (minValue, cache)) (size str, cache);
      cache ← arr_set cache offset minValue;
      Some (minValue, cache)
  end.

(** src/code/leetcode/palindrom-partitioning-2.cc:8-30 [Solution::minCut] *)
Definition minCut (fuel : nat) (s : list ascii) : option Z :=
  let size := size s in
  let pcache := replicate (Z.to_nat (size * size)) (-1) in
  pcache ← for_ (upto 0 (size - 1)) (fun i =>
    for_ (upto 0 (size - 1)) (fun j pcache =>
      '(_, pcache) ← preCalculatePalindrome fuel s i j pcache; Some pcache)) pcache;
  let cache := replicate (Z.to_nat size) (-1) in
  '(code, _) ← minCutWithCache fuel s 0 cache pcache;
  Some code.

(** [k] cuts are enough for what starts at [o]. *)
Definition cuts (str : list ascii) (o k : Z) : Prop :=
  exists v, Partition.cut_of (drop (Z.to_nat o) str) v /\ size v = k + 1.

Definition least (P : Z -> Prop) (m : Z) : Prop := P m /\ forall k, P k -> m <= k.

Definition cache_ok (str : list ascii) (cache : list Z) : Prop :=
  size cache = size str /\
  forall o, 0 <= o < size str -> exists c, arr_get cache o = Some c /\ (c = -1 \/ least (cuts str o) c).

Lemma cuts_pos str o k : 0 <= o < size str -> cuts str o k -> 0 <= k.
Proof.
  intros Ho ([|p v] & Hc & Hk); [|simpl in Hk; lia]. destruct Hc as [_ E].
  apply (f_equal length) in E. rewrite length_drop in E. simpl in E. lia.
Qed.

Lemma least_0 str o :
  0 <= o < size str -> pal (drop (Z.to_nat o) str) -> least (cuts str o) 0.
Proof.
  intros Ho Hp. split; [|intros k; by apply cuts_pos].
  exists [drop (Z.to_nat o) str]. split; [|done]. apply Partition.cut_of_cons. split_and!; [|done|].
  - intros E%(f_equal length). rewrite length_drop in E. simpl in E. lia.
  - exists []. by rewrite app_nil_r.
Qed.

(** Single characters are palindromes. *)
Lemma singles (s : list ascii) : Partition.cut_of s (map (fun c => [c]) s).
Proof.
  induction s as [|c s IH]; [by split|]. apply Partition.cut_of_cons.
  split_and!; [done|apply pal_single|by exists s].
Qed.

(** What the loop of [minCutWithCache] knows before round [i]. *)
Definition best (str : list ascii) (o i : Z) (minValue : Z) : Prop :=
  minValue <= size str /\ (minValue < size str -> cuts str o minValue) /\
  forall p v, Partition.cut_of (drop (Z.to_nat o) str) (p :: v) -> size p < i - o -> minValue <= size v.

Lemma best_skip str o i m :
  0 <= o < i -> i < size str -> best str o i m -> ~ pal (sub str o (i - 1)) -> best str o (i + 1) m.
Proof.
  intros Ho Hi (? & ? & Hb) Hp. split_and!; [done..|]. intros p v Hc Hl.
  destruct (decide (size p = i - o)) as [Hpl|]; [|apply (Hb p); [done|lia]].
  apply Partition.cut_of_cons in Hc as (_ & Hpal & r & E & Hr).
  apply drop_app_size in E as (_ & Ep & ->); [|lia].
  replace (o + size p - 1) with (i - 1) in Ep by lia. by rewrite <- Ep in Hp.
Qed.

Lemma best_take str o i m r :
  0 <= o < i -> i < size str -> best str o i m -> pal (sub str o (i - 1)) -> least (cuts str i) r ->
  best str o (i + 1) (if 1 + r <? m then 1 + r else m).
Proof.
  intros Ho Hi (? & Hm & Hb) Hp [(w & Hw & Hl) Hr].
  assert (cuts str o (1 + r)) as Hc1.
  { exists (sub str o (i - 1) :: w). split; [|simpl; lia]. apply Partition.cut_of_cons. split_and!; [|done|].
    - intros E%(f_equal length). pose proof (size_sub str o (i - 1)). simpl in E. lia.
    - exists (drop (Z.to_nat i) str). split; [|done]. symmetry. apply sub_drop; lia. }
  assert ((if 1 + r <? m then 1 + r else m) <= m /\ (if 1 + r <? m then 1 + r else m) <= 1 + r) as [Hm1 Hm2]
    by (destruct (Z.ltb_spec (1 + r) m); lia).
  split_and!; [lia|destruct (Z.ltb_spec (1 + r) m); auto|].
  intros p v Hc Hpl. destruct (decide (size p = i - o)) as [E1|].
  2: { etrans; [exact Hm1|]. apply (Hb p); [done|lia]. }
  apply Partition.cut_of_cons in Hc as (_ & Hpal & q & E & Hq).
  apply drop_app_size in E as (_ & Ep & ->); [|lia].
  rewrite E1 in *. replace (o + (i - o)) with i in * by lia.
  assert (r <= size v - 1); [|lia]. apply Hr. exists v. split; [done|lia].
Qed.

Lemma best_end str o m :
  0 <= o < size str -> ~ pal (drop (Z.to_nat o) str) -> best str o (size str) m -> least (cuts str o) m.
Proof.
  intros Ho Hp (Hle & Hm & Hb).
  assert (forall p v, Partition.cut_of (drop (Z.to_nat o) str) (p :: v) -> m <= size v) as Hall.
  { intros p v Hc. apply (Hb p); [done|]. apply Partition.cut_of_cons in Hc as (_ & Hpal & q & E & Hq).
    pose proof (drop_app_size _ _ _ _ (conj (proj1 Ho) (Z.lt_le_incl _ _ (proj2 Ho))) E) as (Hl & Ep & Eq).
    destruct (decide (size p = size str - o)) as [E1|]; [|lia]. exfalso. apply Hp.
    replace q with (@nil ascii) in E; [by rewrite E, app_nil_r|].
    rewrite Eq, drop_ge; [done|lia]. }
  pose proof (singles (drop (Z.to_nat o) str)) as Hs.
  assert (size (drop (Z.to_nat o) str) = size str - o) as Hd by (rewrite length_drop; lia).
  destruct (drop (Z.to_nat o) str) as [|c t] eqn:Et; [simpl in Hd; lia|].
  split.
  - apply Hm. cbn [map] in Hs. apply Hall in Hs. rewrite length_map in Hs. simpl in Hd. lia.
  - intros k (v & Hc & Hk). rewrite Et in Hc. destruct v as [|p v].
    + by destruct Hc as [_ [=]].
    + apply Hall in Hc. simpl in Hk. lia.
Qed.

Lemma cache_insert str cache o m :
  cache_ok str cache -> 0 <= o < size str -> least (cuts str o) m ->
  exists cache', arr_set cache o m = Some cache' /\ cache_ok str cache'.
Proof.
  intros [Hs Hc] Ho Hm. rewrite arr_set_in by lia. eexists. split; [done|].
  split; [by rewrite length_insert|]. intros k Hk. rewrite arr_get_insert by lia.
  destruct (Z.eqb_spec k o) as [->|]; [|by apply Hc]. exists m. split; [done|by right].
Qed.

Lemma minCutWithCache_spec str pcache fuel o cache :
  Partition.full str pcache -> size str < 2 ^ 31 -> 0 <= o < size str ->
  (Z.to_nat (size str - o) < fuel)%nat -> cache_ok str cache ->
  exists m cache', minCutWithCache fuel str o cache pcache = Some (m, cache') /\
    least (cuts str o) m /\ cache_ok str cache'.
Proof.
  intros Hfull Hsz. revert o cache. induction fuel as [|fuel IH]; intros o cache Ho Hf Hok; [lia|].
  cbn [minCutWithCache]. rewrite u64_id by lia.
  assert (sub str o (size str - 1) = drop (Z.to_nat o) str) as Eo
    by (unfold sub; apply take_ge; rewrite length_drop; lia).
  destruct (Z.leb_spec (size str - 1) o) as [Hlast|Hlast].
  { exists 0, cache. split_and!; [done| |done..]. apply least_0; [done|].
    destruct (lookup_cases str o Ho) as (x & _ & ->). rewrite drop_ge by lia. apply pal_single. }
  destruct (proj2 Hok o Ho) as (c & -> & Hc). cbn [mbind option_bind].
  destruct (Z.eqb_spec c (-1)) as [->|Hc1]; cbn [negb].
  2: { exists c, cache. destruct Hc; [lia|]. done. }
  unfold isPalindrome at 1. rewrite Partition.isPalindrome_full by (done || lia).
  cbn [mbind option_bind]. rewrite Eo. case_bool_decide as Hp.
  { exists 0, cache. split_and!; [done| |done..]. by apply least_0. }
  match goal with |- context [for_ _ ?body ?v0] =>
    destruct (for_upto (fun i '(m, cache) => best str o i m /\ cache_ok str cache)
      (o + 1) (size str - 1) body v0) as ([m cache'] & -> & Hb & Hok'); [lia| | |] end.
  - split; [|done]. split_and!; [lia|lia|]. intros p v (Hne & _)%Partition.cut_of_cons Hl.
    destruct p; [done|]. cbn [length] in Hl. lia.
  - intros i [m cache'] Hi [Hb Hok']. unfold isPalindrome.
    rewrite Partition.isPalindrome_full by (done || lia). cbn [mbind option_bind].
    case_bool_decide as Hpi.
    + destruct (IH i cache') as (r & cache2 & -> & Hr & Hok2); [lia..|done|]. cbn [mbind option_bind].
      eexists. split; [done|]. split; [|done]. apply best_take; [lia..|done|done|done].
    + eexists. split; [done|]. split; [|done]. apply best_skip; [lia..|done|done].
  - replace (size str - 1 + 1) with (size str) in Hb by lia. apply best_end in Hb; [|done..].
    cbn [mbind option_bind].
    destruct (cache_insert str cache' o m) as (cache2 & -> & Hok2); [done..|].
    exists m, cache2. done.
Qed.

(** The answer is the least number of cuts that leave only palindromes. *)
Lemma minCut_least (s : list ascii) fuel :
  s <> [] -> size s < 2 ^ 31 -> (length s < fuel)%nat ->
  exists m, minCut fuel s = Some m /\
    least (fun k => exists v, Partition.cut_of s v /\ size v = k + 1) m.
Proof.
  intros Hs Hsz Hf. assert (0 < size s) by (destruct s; [done|simpl; lia]). unfold minCut.
  destruct (Partition.table_full fuel s Hf) as (pcache & E & Hfull).
  unfold Partition.table in E. unfold preCalculatePalindrome. rewrite E. cbn [mbind option_bind].
  destruct (minCutWithCache_spec s pcache fuel 0 (replicate (Z.to_nat (size s)) (-1)) Hfull)
    as (m & cache & -> & Hm & _); [lia..| |].
  - split; [rewrite length_replicate; lia|]. intros o Ho. exists (-1). split; [|by left].
    unfold arr_get. zfalse (o <? 0). apply lookup_replicate. split; [done|lia].
  - by exists m.
Qed.

Lemma minCut_witness :
  let s := chars "aabccb" in
  s <> [] /\ exists m, minCut 7 s = Some m /\
    least (fun k => exists v, Partition.cut_of s v /\ size v = k + 1) m.
Proof. split; [done|]. apply (minCut_least (chars "aabccb") 7); [done|simpl; lia|simpl; lia]. Defined.

(** The examples of its main. *)
Example minCut_aab : minCut 4 (chars "aab") = Some 1.
Proof. by vm_compute. Qed.
Example minCut_aabbaa : minCut 7 (chars "aabbaa") = Some 0.
Proof. by vm_compute. Qed.
Example minCut_aabcc : minCut 6 (chars "aabcc") = Some 2.
Proof. by vm_compute. Qed.
End Cut.

(** ** restore-ip-addresses.cc *)
Module Address.

(** src/code/leetcode/restore-ip-addresses.cc:26-32 [Solution::R (loop)]
    [ks] are the turns that are left; [rec] is the call of [R]. *)
Fixpoint rounds (rec : Z -> list (list ascii) -> list (list ascii) -> option (list (list ascii)))
    (s : list ascii) (idx : Z) (vs : list (list ascii)) (ks : list Z) (val : Z)
    (res : list (list ascii)) : option (list (list ascii)) :=
  match ks with
  | [] => Some res
  | i :: ks =>
      x ← arr_get s i;
      let val := val * 10 + char_code x - char_code "0" in
      if 255 <? val then Some res else
      res ← rec (i + 1) (vs ++ [take (Z.to_nat (i - idx + 1)) (drop (Z.to_nat idx) s)]) res;
      rounds rec s idx vs ks val res
  end.

(** src/code/leetcode/restore-ip-addresses.cc:14-34 [Solution::R] *)
Fixpoint R (fuel : nat) (s : list ascii) (idx : Z) (vs : list (list ascii)) (res : list (list ascii))
  : option (list (list ascii)) :=
  match fuel with
  | O => None
  | Datatypes.S fuel =>
      if idx =? size s then
        match vs with
        | [v0; v1; v2; v3] =>
            Some (res ++ [v0 ++ chars "." ++ v1 ++ chars "." ++ v2 ++ chars "." ++ v3])
        | _ => Some res
        end
      else if size vs =? 4 then Some res else
      c ← arr_get s idx;
      let end_ := if c ≟ "0"%char then idx else size s - 1 in
      rounds (R fuel s) s idx vs (upto idx end_) 0 res
  end.

(** src/code/leetcode/restore-ip-addresses.cc:7-12 [Solution::restoreIpAddresses] *)
Definition restoreIpAddresses (fuel : nat) (s : list ascii) : option (list (list ascii)) :=
  R fuel s 0 [] [].

(** A byte in decimal, without leading zeros. *)
Definition digit (c : ascii) : Prop := 48 <= char_code c < 58.
Definition value (p : list ascii) : Z := foldl (fun v c => v * 10 + char_code c - char_code "0") 0 p.
Definition octet (p : list ascii) : Prop :=
  p <> [] /\ value p <= 255 /\ (arr_get p 0 = Some "0"%char -> size p = 1).

(** The ways to cut [s] into [k] bytes. *)
Definition ways (s : list ascii) (k : Z) (w : list (list ascii)) : Prop :=
  Forall octet w /\ concat w = s /\ size w = k.

Definition joined (w : list (list ascii)) : list ascii :=
  match w with
  | [v0; v1; v2; v3] => v0 ++ chars "." ++ v1 ++ chars "." ++ v2 ++ chars "." ++ v3
  | _ => []
  end.

Lemma value_snoc p c : value (p ++ [c]) = value p * 10 + char_code c - char_code "0".
Proof. unfold value. by rewrite foldl_app. Qed.

Lemma value_mono p q : Forall digit (p ++ q) -> 0 <= value p <= value (p ++ q).
Proof.
  intros H. assert (forall p, Forall digit p -> 0 <= value p) as Hnn.
  { clear. intros p. induction p as [|c p IH] using rev_ind; [done|].
    intros [Hp [Hc _]%Forall_cons]%Forall_app. rewrite value_snoc. change (char_code "0") with 48.
    specialize (IH Hp). unfold digit in Hc. lia. }
  split; [apply Hnn; by apply Forall_app in H as []|].
  induction q as [|c q IH] using rev_ind; [by rewrite app_nil_r|].
  rewrite app_assoc in *. apply Forall_app in H as [Hp [Hc _]%Forall_cons].
  rewrite value_snoc. change (char_code "0") with 48. specialize (IH Hp). pose proof (Hnn _ Hp).
  unfold digit in Hc. lia.
Qed.

Lemma ways_cons s k p w :
  ways s k (p :: w) <-> octet p /\ exists r, s = p ++ r /\ ways r (k - 1) w.
Proof.
  unfold ways. rewrite Forall_cons. cbn [concat length]. split.
  - intros ([? ?] & <- & ?). split; [done|]. exists (concat w). split_and!; [done..|lia].
  - intros (? & r & -> & ? & -> & ?). split_and!; [done..|lia].
Qed.

Section Digits.
Variable s : list ascii.
Hypothesis Hs : Forall digit s.

Lemma digits_sub o e : Forall digit (sub s o e).
Proof. apply Forall_take, Forall_drop, Hs. Qed.

(** What a call for the rest from [j] on adds to the results. *)
Definition adds (j : Z) (vs res : list (list ascii)) (r : option (list (list ascii))) : Prop :=
  exists ws, r = Some (res ++ map (fun w => joined (vs ++ w)) ws) /\ NoDup ws /\
    forall w, w ∈ ws <-> ways (drop (Z.to_nat j) s) (4 - size vs) w.

(** The ways whose first piece has at least so many characters. *)
Definition from_piece (idx i end_ k : Z) (w : list (list ascii)) : Prop :=
  exists p u, w = p :: u /\ ways (drop (Z.to_nat idx) s) k (p :: u) /\
    i - idx + 1 <= size p <= end_ - idx + 1.

Lemma from_piece_next idx i end_ k w :
  0 <= idx <= i -> i <= end_ -> end_ < size s ->
  from_piece idx i end_ k w <->
  (octet (sub s idx i) /\ exists u, w = sub s idx i :: u /\ ways (drop (Z.to_nat (i + 1)) s) (k - 1) u) \/
  from_piece idx (i + 1) end_ k w.
Proof.
  intros Hi He Hsz. pose proof (size_sub s idx i) as Hl. split.
  - intros (p & u & -> & Hw & Hp). destruct (decide (size p = i - idx + 1)) as [E|].
    2: { right. exists p, u. split_and!; [done..|lia|lia]. }
    left. apply ways_cons in Hw as (Ho & r & Er & Hr). apply drop_app_size in Er as (_ & Ep & ->); [|lia].
    rewrite E in *. replace (idx + (i - idx + 1)) with (i + 1) in * by lia.
    replace (i + 1 - 1) with i in Ep by lia. subst p. split; [done|]. by exists u.
  - intros [(Ho & u & -> & Hu)|(p & u & -> & Hw & Hp)].
    + exists (sub s idx i), u. split_and!; [done| |lia|lia]. apply ways_cons. split; [done|].
      exists (drop (Z.to_nat (i + 1)) s). split; [|done]. symmetry.
      rewrite <- (sub_drop s idx (i + 1)) by lia. do 2 f_equal. lia.
    + exists p, u. split_and!; [done..|lia|lia].
Qed.

Lemma octet_sub idx i end_ :
  0 <= idx <= i -> i <= end_ -> end_ < size s -> (arr_get s idx = Some "0"%char -> end_ = idx) ->
  octet (sub s idx i) <-> value (sub s idx i) <= 255.
Proof.
  intros Hi He Hsz Hz. pose proof (size_sub s idx i) as Hl. unfold octet. split; [tauto|].
  intros Hv. split_and!; [|done|].
  - intros E. rewrite E in Hl. cbn [length] in Hl. lia.
  - intros Hh. assert (end_ = idx); [|lia]. apply Hz. rewrite <- Hh. unfold sub, arr_get.
    zfalse (idx <? 0). cbn [Z.ltb Z.compare]. rewrite lookup_take_lt by lia. rewrite lookup_drop.
    f_equal. lia.
Qed.

Lemma octets_spec rec idx end_ vs i res :
  (forall j p res, idx < j <= size s -> adds j (vs ++ [p]) res (rec j (vs ++ [p]) res)) ->
  0 <= idx <= i -> i <= end_ + 1 -> end_ < size s ->
  (arr_get s idx = Some "0"%char -> end_ = idx) ->
  exists ws, rounds rec s idx vs (upto i end_) (value (sub s idx (i - 1))) res =
      Some (res ++ map (fun w => joined (vs ++ w)) ws) /\ NoDup ws /\
    forall w, w ∈ ws <-> from_piece idx i end_ (4 - size vs) w.
Proof.
  intros Hrec Hi He Hsz Hz. remember (Z.to_nat (end_ + 1 - i)) as n eqn:En.
  revert i res Hi He En. induction n as [|n IH]; intros i res Hi He En.
  - rewrite upto_nil by lia. exists []. cbn [rounds map]. rewrite app_nil_r. split; [done|].
    split; [apply NoDup_nil_2|]. intros w. split; [by intros ?%elem_of_nil|].
    intros (p & u & _ & _ & ?). lia.
  - rewrite upto_cons by lia. cbn [rounds]. destruct (arr_get_in s i) as [x Hx]; [lia|].
    rewrite Hx. cbn [mbind option_bind].
    assert (value (sub s idx (i - 1)) * 10 + char_code x - char_code "0" = value (sub s idx i)) as ->.
    { rewrite (sub_cut s idx (i - 1) i) by lia. replace (i - 1 + 1) with i by lia.
      by rewrite (sub_one s i x Hx), value_snoc. }
    replace (take _ (drop _ s)) with (sub s idx i) by done.
    destruct (Z.ltb_spec 255 (value (sub s idx i))) as [Hbig|Hbig].
    + exists []. cbn [map]. rewrite app_nil_r. split; [done|]. split; [apply NoDup_nil_2|].
      intros w. split; [by intros ?%elem_of_nil|]. intros (p & u & -> & Hw & Hp). exfalso.
      apply ways_cons in Hw as ((_ & Hv & _) & r & Er & _). apply drop_app_size in Er as (_ & Ep & _); [|lia].
      rewrite (sub_cut s idx i) in Ep by lia.
      pose proof (value_mono (sub s idx i) (sub s (i + 1) (idx + size p - 1))) as Hm.
      rewrite <- Ep in Hm. pose proof (Hm ltac:(rewrite Ep; apply Forall_app; split; apply digits_sub)).
      lia.
    + destruct (Hrec (i + 1) (sub s idx i) res) as (ws1 & -> & Hnd1 & Hw1); [lia|].
      cbn [mbind option_bind].
      replace (value (sub s idx i)) with (value (sub s idx (i + 1 - 1))) by (do 2 f_equal; lia).
      edestruct (IH (i + 1)) as (ws2 & -> & Hnd2 & Hw2); [lia..|].
      exists (map (cons (sub s idx i)) ws1 ++ ws2).
      rewrite map_app, map_map, <- app_assoc. split; [|split].
      * do 3 f_equal. apply map_ext. intros w. by rewrite <- app_assoc.
      * apply NoDup_app. split_and!; [by apply (NoDup_fmap_2 (cons (sub s idx i)))| |done].
        intros w (u & -> & _)%list_elem_of_fmap (p & u' & [= <- <-] & _ & Hp)%Hw2.
        pose proof (size_sub s idx i). lia.
      * intros w. rewrite elem_of_app, Hw2, (from_piece_next idx i) by lia. apply or_iff_compat_r.
        rewrite (octet_sub idx i end_) by (done || lia). rewrite list_elem_of_fmap.
        assert (size (vs ++ [sub s idx i]) = size vs + 1) as Hl1 by (rewrite length_app; simpl; lia).
        rewrite Hl1 in Hw1. replace (4 - (size vs + 1)) with (4 - size vs - 1) in Hw1 by lia.
        split.
        -- intros (u & -> & Hu%Hw1). split; [done|]. by exists u.
        -- intros (_ & u & -> & Hu%Hw1). by exists u.
Qed.

Lemma ways_nil k w : ways [] k w <-> w = [] /\ k = 0.
Proof.
  split; [|by intros [-> ->]]. destruct w as [|p w]; [by intros (_ & _ & <-)|].
  intros ((Hne & _) & r & E & _)%ways_cons. by symmetry in E; apply app_eq_nil in E as [-> _].
Qed.

Lemma R_spec fuel idx vs res :
  0 <= idx <= size s -> size vs <= 4 -> (Z.to_nat (size s - idx) < fuel)%nat ->
  adds idx vs res (R fuel s idx vs res).
Proof.
  revert idx vs res. induction fuel as [|fuel IH]; intros idx vs res Hi Hvs Hf; [lia|].
  cbn [R]. unfold adds. destruct (Z.eqb_spec idx (size s)) as [->|Hne].
  - rewrite drop_ge by lia. destruct (decide (size vs = 4)) as [E4|E4].
    + do 4 (destruct vs as [|? vs]; [simpl in E4; lia|]). destruct vs; [|simpl in E4; lia].
      exists [[]]. split; [done|]. split; [apply NoDup_singleton|]. intros w.
      rewrite list_elem_of_singleton, ways_nil. rewrite E4. naive_solver.
    + exists []. cbn [map]. rewrite app_nil_r. split; [|split; [apply NoDup_nil_2|]].
      * by do 5 (destruct vs as [|? vs]; try done).
      * intros w. rewrite ways_nil. split; [by intros ?%elem_of_nil|]. lia.
  - destruct (Z.eqb_spec (size vs) 4) as [E4|E4].
    + exists []. cbn [map]. rewrite app_nil_r. split; [done|]. split; [apply NoDup_nil_2|].
      intros w. split; [by intros ?%elem_of_nil|]. intros (_ & E & Hw). exfalso.
      destruct w; [|simpl in Hw; lia]. apply (f_equal length) in E. rewrite length_drop in E. simpl in E. lia.
    + destruct (arr_get_in s idx) as [c Hc]; [lia|]. rewrite Hc. cbn [mbind option_bind].
      set (end_ := if c ≟ "0"%char then idx else size s - 1).
      assert (idx <= end_ < size s) as He by (subst end_; case_match; lia).
      assert (c = "0"%char -> end_ = idx) as Hz by (intros ->; done).
      assert (c <> "0"%char -> end_ = size s - 1) as Hnz
        by (intros; subst end_; by rewrite bool_decide_false).
      clearbody end_.
      destruct (octets_spec (R fuel s) idx end_ vs idx res) as (ws & E & Hnd & Hw); [|lia..| |].
      * intros j p res' Hj. apply IH; [lia| |lia]. rewrite length_app. simpl. lia.
      * intros [= ->]%(eq_trans (eq_sym Hc)). by apply Hz.
      * replace (value (sub s idx (idx - 1))) with 0 in E.
        2: { unfold sub. by replace (Z.to_nat (idx - 1 - idx + 1)) with 0%nat by lia. }
        exists ws. rewrite E. split; [done|]. split; [done|]. intros w. rewrite Hw. split.
        -- by intros (p & u & -> & Hu & _).
        -- intros Hu. destruct w as [|p u].
           { destruct Hu as (_ & Eu & _). apply (f_equal length) in Eu. rewrite length_drop in Eu.
             simpl in Eu. lia. }
           exists p, u. split; [done|]. split; [done|].
           apply ways_cons in Hu as ((Hp & _ & Hlead) & r & Er & _).
           apply drop_app_size in Er as (Hle & Ep & _); [|lia].
           assert (0 < size p) by (destruct p; [done|simpl; lia]).
           destruct (decide (c = "0"%char)) as [->|Hcn]; [|rewrite (Hnz Hcn); lia].
           rewrite (Hz eq_refl), Hlead; [lia|]. rewrite Ep. unfold sub, arr_get. cbn [Z.ltb Z.compare].
           rewrite lookup_take_lt by lia. rewrite lookup_drop. apply arr_get_Some in Hc as [_ <-].
           f_equal. lia.
Qed.
End Digits.

Lemma dot_split (a a' x x' : list ascii) :
  Forall digit a -> Forall digit a' -> a ++ chars "." ++ x = a' ++ chars "." ++ x' -> a = a' /\ x = x'.
Proof.
  change (chars ".") with ["."%char]. cbn [app]. intros Ha. revert a'.
  induction Ha as [|c a Hc Ha IH]; intros [|c' a'] Ha'; cbn [app].
  - by intros [= ->].
  - intros [= <- _]. apply Forall_cons in Ha' as [H _]. by vm_compute in H; destruct H.
  - intros [= -> _]. by vm_compute in Hc; destruct Hc.
  - apply Forall_cons in Ha' as [_ Ha']. intros [= <- E]. by apply IH in E as [-> ->].
Qed.

Lemma joined_inj s w w' :
  Forall digit s -> ways s 4 w -> ways s 4 w' -> joined w = joined w' -> w = w'.
Proof.
  intros Hs (_ & Ew & Hw) (_ & Ew' & Hw').
  do 4 (destruct w as [|? w]; [simpl in Hw; lia|]). destruct w; [|simpl in Hw; lia].
  do 4 (destruct w' as [|? w']; [simpl in Hw'; lia|]). destruct w'; [|simpl in Hw'; lia].
  cbn [concat] in *. rewrite <- Ew in Hs. pose proof Hs as Hs'. rewrite Ew, <- Ew' in Hs'.
  repeat match goal with H : Forall digit (_ ++ _) |- _ => apply Forall_app in H as [? ?] end.
  unfold joined. intros E.
  do 3 (apply dot_split in E as [-> E]; [|done..]). by subst.
Qed.

(** For a string of digits: all the addresses it can be, each of them once. *)
Lemma restoreIpAddresses_spec s fuel :
  Forall digit s -> (length s < fuel)%nat ->
  exists res, restoreIpAddresses fuel s = Some res /\ NoDup res /\
    forall v, v ∈ res <-> exists w, ways s 4 w /\ v = joined w.
Proof.
  intros Hs Hf. destruct (R_spec s Hs fuel 0 [] []) as (ws & E & Hnd & Hw); [lia|simpl; lia|lia|].
  cbn [app] in E. change (drop _ s) with s in Hw. change (4 - size []) with 4 in Hw.
  exists (map joined ws). split; [exact E|]. split.
  - apply NoDup_fmap_2_strong; [|done]. intros w w' H%Hw H'%Hw. by apply (joined_inj s).
  - intros v. rewrite list_elem_of_fmap. split; [intros (w & -> & H%Hw)|intros (w & H%Hw & ->)]; by exists w.
Qed.

Lemma restoreIpAddresses_witness :
  let s := chars "25525511135" in
  exists res, restoreIpAddresses 12 s = Some res /\ NoDup res /\
    forall v, v ∈ res <-> exists w, ways s 4 w /\ v = joined w.
Proof.
  apply (restoreIpAddresses_spec (chars "25525511135") 12); [|simpl; lia].
  repeat (apply Forall_cons; split; [split; vm_compute; congruence|]). apply Forall_nil_2.
Defined.

Example restoreIpAddresses_two :
  restoreIpAddresses 12 (chars "25525511135") =
  Some [chars "255.255.11.135"; chars "255.255.111.35"].
Proof. by vm_compute. Qed.
End Address.

(** ** decode-ways.cc *)
Module Decode.

(** src/code/leetcode/decode-ways.cc:12-20 [Solution::numDecodings (round)] *)
Definition round (s : list ascii) (i : Z) (dp : list (option Z)) : option (list (option Z)) :=
  dp ← vset dp i 0;
  c ← arr_get s i;
  dp ← (if negb (c ≟ "0"%char) then
          d ← vget dp i;
          p ← (if 0 <? i then vget dp (i - 1) else Some 1);
          v ← chk32 (d + p); vset dp i v
        else Some dp);
  b ← (if 0 <? i then b ← arr_get s (i - 1); Some (negb (b ≟ "0"%char)) else Some false);
  if b : bool then
    p ← arr_get s (i - 1);
    let val := (char_code p - char_code "0") * 10 + char_code c - char_code "0" in
    if val <=? 26 then
      d ← vget dp i;
      q ← (if 1 <? i then vget dp (i - 2) else Some 1);
      v ← chk32 (d + q); vset dp i v
    else Some dp
  else Some dp.

(** src/code/leetcode/decode-ways.cc:7-22 [Solution::numDecodings] *)
Definition numDecodings (s : list ascii) : option Z :=
  let n := size s in
  if n =? 0 then Some 0 else
  dp ← for_ (upto 0 (n - 1)) (round s) (vla n);
  vget dp (n - 1).

(** A letter: a number from 1 to 26 without leading zeros. *)
Definition code (p : list ascii) : Prop :=
  match p with
  | [c] => c <> "0"%char
  | [b; c] => b <> "0"%char /\
      (char_code b - char_code "0") * 10 + char_code c - char_code "0" <= 26
  | _ => False
  end.

Definition decodes (s : list ascii) (w : list (list ascii)) : Prop := Forall code w /\ concat w = s.

(** How many there are. *)
Definition number_of {A} (P : A -> Prop) (n : Z) : Prop :=
  exists l, NoDup l /\ (forall x, x ∈ l <-> P x) /\ size l = n.

Lemma number_empty {A} (P : A -> Prop) : (forall x, ~ P x) -> number_of P 0.
Proof.
  intros H. exists []. split; [apply NoDup_nil_2|]. split; [|done]. intros x.
  split; [by intros ?%elem_of_nil|by intros ?%H].
Qed.

Lemma number_image {A B} (f : A -> B) `{!Inj (=) (=) f} (P : A -> Prop) n :
  number_of P n -> number_of (fun y => exists x, y = f x /\ P x) n.
Proof.
  intros (l & Hnd & Hl & <-). exists (map f l). split; [by apply (NoDup_fmap_2 f)|].
  split; [|by rewrite length_map]. intros y. rewrite list_elem_of_fmap.
  split; intros (x & -> & Hx); exists x; by rewrite Hl in *.
Qed.

Lemma number_or {A} (P Q : A -> Prop) n m :
  (forall x, P x -> ~ Q x) -> number_of P n -> number_of Q m -> number_of (fun x => P x \/ Q x) (n + m).
Proof.
  intros Hd (l & Hnd & Hl & <-) (k & Hnd' & Hk & <-). exists (l ++ k).
  split; [apply NoDup_app; split_and!; [done| |done]; intros x ?%Hl ?%Hk; by eapply Hd|].
  split; [intros x; by rewrite elem_of_app, Hl, Hk|rewrite length_app; lia].
Qed.

Lemma number_iff {A} (P Q : A -> Prop) n : (forall x, P x <-> Q x) -> number_of P n -> number_of Q n.
Proof.
  intros H (l & Hnd & Hl & <-). exists l. split_and!; [done| |done]. intros x. by rewrite Hl.
Qed.

Lemma decodes_snoc s c w :
  decodes (s ++ [c]) w <->
  (exists u, w = u ++ [[c]] /\ c <> "0"%char /\ decodes s u) \/
  (exists b t, s = t ++ [b] /\ code [b; c] /\ exists u, w = u ++ [[b; c]] /\ decodes t u).
Proof.
  unfold decodes. split.
  - intros [Hc E]. destruct w as [|p u _] using rev_ind; [by destruct s|].
    apply Forall_app in Hc as [Hu [Hp _]%Forall_cons]. rewrite concat_app in E. cbn [concat] in E.
    rewrite app_nil_r in E. destruct p as [|x [|y [|]]]; try done.
    + apply app_inj_tail in E as [<- ->]. left. by exists u.
    + right. replace (concat u ++ [x; y]) with ((concat u ++ [x]) ++ [y]) in E by by rewrite <- app_assoc.
      apply app_inj_tail in E as [<- ->]. exists x, (concat u). split; [done|]. split; [done|]. by exists u.
  - intros [(u & -> & Hc & Hu & <-)|(b & t & -> & Hc & u & -> & Hu & <-)];
      rewrite Forall_app, concat_app; cbn [concat]; rewrite app_nil_r; (split; [split; [done|]|]);
      rewrite ?Forall_singleton; [done|done|done|by rewrite <- app_assoc].
Qed.

Lemma number_single s c p :
  number_of (decodes s) p ->
  number_of (fun w => exists u, w = u ++ [[c]] /\ c <> "0"%char /\ decodes s u)
    (if negb (c ≟ "0"%char) then p else 0).
Proof.
  intros Hp. case_bool_decide as Hc; cbn [negb]; [apply number_empty; by intros w (u & _ & ? & _)|].
  eapply number_iff; [|apply (number_image (fun u => u ++ [[c]])), Hp]. naive_solver.
Qed.

Definition pair_ok (b c : ascii) : bool :=
  negb (b ≟ "0"%char) &&
  ((char_code b - char_code "0") * 10 + char_code c - char_code "0" <=? 26).

Lemma number_pair s c b t q :
  s = t ++ [b] -> number_of (decodes t) q ->
  number_of (fun w => exists b t, s = t ++ [b] /\ code [b; c] /\ exists u, w = u ++ [[b; c]] /\ decodes t u)
    (if pair_ok b c then q else 0).
Proof.
  intros -> Hq. assert (pair_ok b c = true <-> code [b; c]) as Hok.
  { unfold pair_ok, code. rewrite andb_true_iff, negb_true_iff, bool_decide_eq_false, Z.leb_le. done. }
  destruct (pair_ok b c).
  - eapply number_iff; [|apply (number_image (fun u => u ++ [[b; c]])), Hq]. intros w. split.
    + intros (u & -> & Hu). exists b, t. split; [done|]. split; [by apply Hok|]. by exists u.
    + intros (b' & t' & [-> [= ->]]%app_inj_tail & _ & u & -> & Hu). by exists u.
  - apply number_empty. intros w (b' & t' & [_ [= ->]]%app_inj_tail & Hc & _). by apply Hok in Hc.
Qed.

(** The n-th Fibonacci number and the next one. *)
Fixpoint fibs (n : nat) : Z * Z :=
  match n with O => (0, 1) | Datatypes.S n => let '(a, b) := fibs n in (b, a + b) end.
Definition fib (n : nat) : Z := fst (fibs n).

Lemma fib_step n : fib (Datatypes.S (Datatypes.S n)) = fib n + fib (Datatypes.S n).
Proof. unfold fib. cbn [fibs]. destruct (fibs n). done. Qed.

Lemma fib_mono n m : (n <= m)%nat -> 0 <= fib n <= fib m.
Proof.
  assert (forall n, 0 <= fib n <= fib (Datatypes.S n)) as H.
  { clear. intros n. induction n as [|n IH]; [done|]. rewrite fib_step. lia. }
  induction 1 as [|m Hm IH]; [split; [apply H|done]|]. pose proof (H m). lia.
Qed.

(** The cells before [i] hold the numbers of the prefixes that end there. *)
Definition right (s : list ascii) (i : Z) (dp : list (option Z)) : Prop :=
  size dp = size s /\ forall k, 0 <= k < i -> exists v, vget dp k = Some v /\
    number_of (decodes (take (Z.to_nat (k + 1)) s)) v /\ v <= fib (Z.to_nat (k + 2)).

Lemma number_nil : number_of (decodes []) 1.
Proof.
  exists [[]]. split; [apply NoDup_singleton|]. split; [|done]. intros w.
  rewrite list_elem_of_singleton. split; [by intros ->|]. intros [Hc E].
  destruct w as [|p w]; [done|]. apply Forall_cons in Hc as [Hp _].
  apply app_eq_nil in E as [-> _]. done.
Qed.

(** What a round reads for the prefix of [m] characters. *)
Lemma read_back s i dp m :
  right s i dp -> 0 <= m <= i ->
  exists v, (if 0 <? m then vget dp (m - 1) else Some 1) = Some v /\
    number_of (decodes (take (Z.to_nat m) s)) v /\ 0 <= v <= fib (Z.to_nat (m + 1)).
Proof.
  intros [_ Hr] Hm. destruct (Z.ltb_spec 0 m).
  - destruct (Hr (m - 1)) as (v & -> & Hn & Hv); [lia|]. exists v. split; [done|].
    replace (m - 1 + 1) with m in Hn by lia. replace (m - 1 + 2) with (m + 1) in Hv by lia.
    split; [done|]. destruct Hn as (l & _ & _ & <-). lia.
  - assert (m = 0) as -> by lia. exists 1. split; [done|]. split; [apply number_nil|done].
Qed.

Lemma put_cell s i dp v :
  0 <= i < size s -> right s i dp ->
  exists dp', vset dp i v = Some dp' /\ right s i dp' /\ vget dp' i = Some v.
Proof.
  intros Hi [Hsz Hr]. rewrite vset_in by lia. eexists. split; [done|]. split.
  - split; [by rewrite length_insert|]. intros k Hk. rewrite vget_insert by lia. zfalse (k =? i). auto.
  - rewrite vget_insert by lia. by rewrite Z.eqb_refl.
Qed.

Lemma right_next s i dp v :
  0 <= i -> right s i dp -> vget dp i = Some v ->
  number_of (decodes (take (Z.to_nat (i + 1)) s)) v -> v <= fib (Z.to_nat (i + 2)) -> right s (i + 1) dp.
Proof.
  intros Hi [Hsz Hr] Hg Hn Hv. split; [done|]. intros k Hk.
  destruct (decide (k = i)) as [->|]; [by exists v|apply Hr; lia].
Qed.

Lemma take_next (s : list ascii) i c :
  0 <= i -> arr_get s i = Some c -> take (Z.to_nat (i + 1)) s = take (Z.to_nat i) s ++ [c].
Proof.
  intros Hi [_ Hc]%arr_get_Some.
  replace (Z.to_nat (i + 1)) with (Datatypes.S (Z.to_nat i)) by lia. by apply take_S_r.
Qed.

Lemma fib_fits i : 0 <= i < 45 -> 0 <= fib (Z.to_nat (i + 1)) + fib (Z.to_nat i) <= 2147483647 /\
  fib (Z.to_nat (i + 2)) = fib (Z.to_nat (i + 1)) + fib (Z.to_nat i) /\
  0 <= fib (Z.to_nat (i + 1)) /\ 0 <= fib (Z.to_nat i).
Proof.
  intros Hi. replace (Z.to_nat (i + 1)) with (Datatypes.S (Z.to_nat i)) by lia.
  replace (Z.to_nat (i + 2)) with (Datatypes.S (Datatypes.S (Z.to_nat i))) by lia.
  pose proof (fib_mono (Datatypes.S (Datatypes.S (Z.to_nat i))) 46) as H.
  change (fib 46) with 1836311903 in H. rewrite fib_step in *.
  pose proof (fib_mono (Z.to_nat i) 46). pose proof (fib_mono (Datatypes.S (Z.to_nat i)) 46). lia.
Qed.

Lemma round_spec s i dp :
  size s <= 45 -> 0 <= i < size s -> right s i dp ->
  exists dp', round s i dp = Some dp' /\ right s (i + 1) dp'.
Proof.
  intros Hn Hi Hr. pose proof (fib_fits i) as Hfib. unfold round.
  destruct (arr_get_in s i Hi) as [c Hc].
  destruct (put_cell s i dp 0 Hi Hr) as (dp0 & -> & Hr0 & Hg0). rewrite Hc. cbn [mbind option_bind].
  destruct (read_back s i dp0 i Hr0) as (p & Ep & Hp & Hpv); [lia|].
  pose proof (number_single (take (Z.to_nat i) s) c p Hp) as H1.
  assert (exists dp1, (if negb (c ≟ "0"%char) then
      d ← vget dp0 i; p ← (if 0 <? i then vget dp0 (i - 1) else Some 1); v ← chk32 (d + p); vset dp0 i v
      else Some dp0) = Some dp1 /\ right s i dp1 /\
      vget dp1 i = Some (if negb (c ≟ "0"%char) then p else 0)) as (dp1 & -> & Hr1 & Hg1).
  { rewrite Hg0, Ep. case_bool_decide; cbn [negb mbind option_bind]; [by exists dp0|].
    rewrite chk32_ok by lia. cbn [mbind option_bind].
    destruct (put_cell s i dp0 (0 + p) Hi Hr0) as (dp1 & -> & ? & ?). by exists dp1. }
  cbn [mbind option_bind]. set (n1 := if negb _ then p else 0) in *.
  assert (0 <= n1 <= fib (Z.to_nat (i + 1))) as Hn1 by (subst n1; case_match; lia). clearbody n1.
  destruct (Z.ltb_spec 0 i) as [Hi0|Hi0]; cbn [mbind option_bind].
  - destruct (arr_get_in s (i - 1)) as [b Hb]; [lia|]. rewrite Hb. cbn [mbind option_bind].
    destruct (read_back s i dp1 (i - 1) Hr1) as (q & Eq & Hq & Hqv); [lia|].
    replace (0 <? i - 1) with (1 <? i) in Eq by zb. replace (i - 1 - 1) with (i - 2) in Eq by lia.
    replace (i - 1 + 1) with i in Hqv by lia.
    pose proof (take_next s (i - 1) b ltac:(lia) Hb) as Et. replace (i - 1 + 1) with i in Et by lia.
    pose proof (number_pair (take (Z.to_nat i) s) c b _ q Et Hq) as H2.
    assert (exists dp2, (if negb (b ≟ "0"%char) then
        if (char_code b - char_code "0") * 10 + char_code c - char_code "0" <=? 26 then
          d ← vget dp1 i; q ← (if 1 <? i then vget dp1 (i - 2) else Some 1);
          v ← chk32 (d + q); vset dp1 i v else Some dp1 else Some dp1) = Some dp2 /\
        right s i dp2 /\ vget dp2 i = Some (n1 + if pair_ok b c then q else 0)) as (dp2 & E2 & Hr2 & Hg2).
    { unfold pair_ok. rewrite Hg1, Eq. destruct (negb _); cbn [andb]; [destruct (_ <=? 26)|].
      2-3: exists dp1; by rewrite Z.add_0_r. cbn [mbind option_bind].
      rewrite chk32_ok by lia. cbn [mbind option_bind]. by apply put_cell. }
    exists dp2. split; [exact E2|]. eapply right_next; [lia|done|exact Hg2| |case_match; lia].
    rewrite (take_next s i c) by (done || lia). eapply number_iff; [intros w; symmetry; apply decodes_snoc|].
    apply number_or; [|exact H1|exact H2].
    intros w (u & -> & _) (b' & t & _ & _ & u' & [_ [=]]%app_inj_tail & _).
  - assert (i = 0) as -> by lia. exists dp1. split; [done|].
    eapply right_next; [lia|done|exact Hg1| |lia].
    rewrite (take_next s 0 c) by (done || lia). eapply number_iff; [intros w; symmetry; apply decodes_snoc|].
    replace n1 with (n1 + 0) by lia. apply number_or; [|exact H1|].
    + intros w (u & -> & _) (b' & t & _ & _ & u' & [_ [=]]%app_inj_tail & _).
    + apply number_empty. intros w (b' & t & E & _). by destruct t.
Qed.

(** For up to 45 characters: the number of ways to read the message. *)
Lemma numDecodings_count s :
  s <> [] -> size s <= 45 -> exists n, numDecodings s = Some n /\ number_of (decodes s) n.
Proof.
  intros Hs Hn. assert (0 < size s) by (destruct s; [done|simpl; lia]). unfold numDecodings.
  zfalse (size s =? 0).
  destruct (for_upto (right s) 0 (size s - 1) (round s) (vla (size s))) as (dp & -> & Hr); [lia| | |].
  - split; [rewrite length_replicate; lia|lia].
  - intros i dp Hi Hr. apply round_spec; [done|lia|done].
  - destruct Hr as [_ Hr]. destruct (Hr (size s - 1)) as (v & E & Hv & _); [lia|].
    exists v. split; [exact E|]. rewrite take_ge in Hv by lia. done.
Qed.

Lemma numDecodings_witness :
  let s := chars "2212" in
  (s <> [] /\ size s <= 45) /\ exists n, numDecodings s = Some n /\ number_of (decodes s) n.
Proof. split; [by split|]. by apply (numDecodings_count (chars "2212")). Defined.

(** One character more and the sum can overflow; an empty message has no reading. *)
Lemma numDecodings_bounds :
  numDecodings (replicate 45 "1"%char) = Some 1836311903 /\
  numDecodings (replicate 46 "1"%char) = None /\ numDecodings [] = Some 0.
Proof. by vm_compute. Qed.
End Decode.
