(* ===== verification/Parsing.v ===== *)
(** * Parsing: the exercises of src/code/leetcode that read and write numbers

    atoi, the grammar of numbers, and the digits of an [int] turned around. *)

From S2P Require Import Prelude Loops Words Texts Cuts.
From Stdlib Require Import Ascii.

Local Open Scope char_scope.
Local Open Scope Z_scope.

(** ** Spaces around a text

    string-to-integer-atoi.cc and valid-number.cc have the same [trim]. *)

(** src/code/leetcode/string-to-integer-atoi.cc:53-59 [Solution::trim (front)] *)
Fixpoint front (fuel : nat) (s : list ascii) (f t : Z) : option Z :=
  match fuel with
  | O => None
  | S fuel =>
      if f <=? t then
        c ← arr_get s f;
        if c ≟ " "%char then front fuel s (f + 1) t else Some f
      else Some f
  end.

(** src/code/leetcode/string-to-integer-atoi.cc:60-66 [Solution::trim (back)] *)
Fixpoint back (fuel : nat) (s : list ascii) (f t : Z) : option Z :=
  match fuel with
  | O => None
  | S fuel =>
      if f <=? t then
        c ← arr_get s t;
        if c ≟ " "%char then back fuel s f (t - 1) else Some t
      else Some t
  end.

(** src/code/leetcode/string-to-integer-atoi.cc:50-72 [Solution::trim]
    [s] is what stands before the zero; each loop has a round for every character,
    and the last test. *)
Definition trim (s : list ascii) : option (list ascii) :=
  let fuel := S (length s) in
  f ← front fuel s 0 (size s - 1);
  t ← back fuel s f (size s - 1);
  for_ (upto f t) (fun i x => c ← arr_get s i; Some (x ++ [c])) [].

Definition isdigit (c : ascii) : bool := (48 <=? char_code c) && (char_code c <? 58).

(** ** string-to-integer-atoi.cc *)
Module Atoi.

Definition INT_MAX : Z := 2147483647.
Definition INT_MIN : Z := -2147483648.

(** A [long long] that overflows is undefined. *)
Definition add_digit (res : Z) (c : ascii) : option Z :=
  r ← chk64 (res * 10); chk64 (r + (char_code c - char_code "0")).

(** src/code/leetcode/string-to-integer-atoi.cc:29-38 [Solution::atol (loop)]
    [s] is what is left of the text. *)
Fixpoint digits (s : list ascii) (minus : bool) (res : Z) : option Z :=
  match s with
  | [] => Some res
  | c :: s =>
      if isdigit c then
        res ← add_digit res c;
        let t := if minus then - res else res in
        if (INT_MAX <=? t) || (t <=? INT_MIN) then Some res else digits s minus res
      else Some res
  end.

(** src/code/leetcode/string-to-integer-atoi.cc:16-49 [Solution::atol] *)
Definition atol (s : list ascii) : option Z :=
  match s with
  | [] => Some 0
  | c :: _ =>
      let minus := c ≟ "-"%char in
      let f := if minus || (c ≟ "+"%char) then 1%nat else 0%nat in
      res ← digits (drop f s) minus 0;
      let res := if minus then - res else res in
      Some (if INT_MAX <=? res then INT_MAX else if res <=? INT_MIN then INT_MIN else res)
  end.

(** src/code/leetcode/string-to-integer-atoi.cc:11-15 [Solution::atoi] *)
Definition atoi (str : list ascii) : option Z :=
  s ← trim str; r ← atol s; Some (s32 r).
End Atoi.

(** ** valid-number.cc *)
Module ValidNumber.

(** src/code/leetcode/valid-number.cc:55-77 [Solution::trim] *)
Definition trim : list ascii -> option (list ascii) := trim.

(** src/code/leetcode/valid-number.cc:78-95 [Solution::withSignNumber] *)
Definition withSignNumber (s : list ascii) (empty : bool) : bool :=
  match s with
  | [] => empty
  | c :: t =>
      let s := if (c ≟ "-"%char) || (c ≟ "+"%char) then t else s in
      match s with [] => empty | _ => forallb isdigit s end
  end.

(** src/code/leetcode/valid-number.cc:97-107 [Solution::withoutSignNumber] *)
Definition withoutSignNumber (s : list ascii) (empty : bool) : bool :=
  match s with [] => empty | _ => forallb isdigit s end.

(** src/code/leetcode/valid-number.cc:29-31 [Solution::isInt] *)
Definition isInt (s : list ascii) : bool := withSignNumber s false.

(** [s.find_first_of(c)] for one character. *)
Fixpoint find_first_of (s : list ascii) (c : ascii) : option nat :=
  match s with
  | [] => None
  | x :: s => if x ≟ c then Some 0%nat else S <$> find_first_of s c
  end.

(** src/code/leetcode/valid-number.cc:40-45 [blk] *)
Definition blk : list (list ascii) :=
  map chars ["."; ".-"; ".+"; "-."; "-.-"; "-.+"; "+."; "+.-"; "+."]%string.

(** src/code/leetcode/valid-number.cc:32-54 [Solution::isFloat] *)
Definition isFloat (s : list ascii) : bool :=
  match find_first_of s "."%char with
  | None => isInt s
  | Some sep =>
      let s1 := take sep s in
      let s2 := drop (S sep) s in
      if existsb (fun b => s ≟ b) blk then false
      else withSignNumber s1 true && withoutSignNumber s2 true
  end.

(** src/code/leetcode/valid-number.cc:11-28 [Solution::isNumber] *)
Definition isNumber (s : list ascii) : option bool :=
  x ← trim s;
  Some match x with
       | [] => false
       | _ =>
           match find_first_of x "e"%char with
           | None => isFloat x
           | Some sep => isFloat (take sep x) && isInt (drop (S sep) x)
           end
       end.
End ValidNumber.

(** ** reverse-integer.cc and palindrome-number.cc *)
Module Digits.

(** src/code/leetcode/reverse-integer.cc:15-18 [Solution::reverse (digits)]
    The digits, the last one first; an [int] has at most ten. *)
Fixpoint digits (fuel : nat) (x : Z) (s : list Z) : option (list Z) :=
  match fuel with
  | O => None
  | S fuel => if x =? 0 then Some s else digits fuel (Z.quot x 10) (s ++ [Z.rem x 10])
  end.

(** src/code/leetcode/reverse-integer.cc:20-22 [Solution::reverse (value)] *)
Fixpoint value (s : list Z) (v : Z) : option Z :=
  match s with
  | [] => Some v
  | d :: s => v ← chk32 (v * 10); v ← chk32 (v + d); value s v
  end.

(** src/code/leetcode/reverse-integer.cc:7-27 [Solution::reverse] *)
Definition reverse (x : Z) : option Z :=
  let flip := x <? 0 in
  x ← (if flip then chk32 (- x) else Some x);
  s ← digits 11 x [];
  v ← value s 0;
  Some (if flip then - v else v).

(** src/code/leetcode/palindrome-number.cc:14-21 [Solution::isPalindrome (loop)]
    [None] is no answer yet: the number is turned around. *)
Fixpoint turn (fuel : nat) (x v : Z) : option (option Z) :=
  match fuel with
  | O => None
  | S fuel =>
      if x =? 0 then Some (Some v) else
      let b := Z.rem x 10 in
      if Z.quot (2147483647 - b) 10 <? v then Some None else
      v ← chk32 (v * 10); v ← chk32 (v + b);
      turn fuel (Z.quot x 10) v
  end.

(** src/code/leetcode/palindrome-number.cc:7-23 [Solution::isPalindrome] *)
Definition isPalindrome (x : Z) : option bool :=
  if x <? 0 then Some false else
  r ← turn 11 x 0;
  Some match r with None => false | Some v => v =? x end.
End Digits.

(** ** Trimming: theorems *)

Notation space := " "%char.

(** The text without the spaces around it. *)
Fixpoint ltrim (s : list ascii) : list ascii :=
  match s with c :: t => if c ≟ space then ltrim t else s | [] => [] end.
Definition trimmed (s : list ascii) : list ascii := reverse (ltrim (reverse (ltrim s))).

Lemma ltrim_split s : exists n, s = replicate n space ++ ltrim s.
Proof.
  induction s as [|c s [n IH]]; [by exists 0%nat|]. cbn [ltrim]. case_bool_decide as E.
  - subst c. exists (S n). cbn. by rewrite <- IH.
  - by exists 0%nat.
Qed.

Lemma ltrim_head s c t : ltrim s = c :: t -> c <> space.
Proof. induction s as [|x s IH]; cbn [ltrim]; [done|]. case_bool_decide; [done|]. by intros [= ->]. Qed.

Lemma rtrim_split s :
  exists n, s = reverse (ltrim (reverse s)) ++ replicate n space.
Proof.
  destruct (ltrim_split (reverse s)) as [n E]. exists n.
  apply (f_equal reverse) in E. rewrite reverse_involutive, reverse_app, reverse_replicate in E. done.
Qed.

Lemma get_space n y i : 0 <= i < Z.of_nat n -> arr_get (replicate n space ++ y) i = Some space.
Proof.
  intros Hi. apply arr_get_Some. split; [lia|]. rewrite lookup_app_l by (rewrite length_replicate; lia).
  apply lookup_replicate. split; [done|lia].
Qed.

Lemma front_spec n y fuel f :
  0 <= f <= Z.of_nat n -> (Z.to_nat (Z.of_nat n - f) < fuel)%nat ->
  (forall c t, y = c :: t -> c <> space) ->
  front fuel (replicate n space ++ y) f (size (replicate n space ++ y) - 1) = Some (Z.of_nat n).
Proof.
  intros Hf Hfuel Hy. revert f Hf Hfuel. induction fuel as [|fuel IH]; intros f Hf Hfuel; [lia|].
  cbn [front]. destruct (Z.eq_dec f (Z.of_nat n)) as [->|Hne].
  - destruct y as [|c y].
    + rewrite app_nil_r, length_replicate. zfalse (Z.of_nat n <=? Z.of_nat n - 1). done.
    + rewrite length_app, length_replicate. cbn [length]. ztrue (Z.of_nat n <=? Z.of_nat (n + S (length y)) - 1).
      rewrite (arr_get_mid (replicate n space) y _ c) by (by rewrite ?length_replicate).
      cbn [mbind option_bind]. rewrite bool_decide_false by by apply (Hy c y). done.
  - rewrite length_app, length_replicate. ztrue (f <=? Z.of_nat (n + length y) - 1).
    rewrite get_space by lia. cbn [mbind option_bind]. rewrite bool_decide_true by done.
    rewrite <- (IH (f + 1)) by lia. by rewrite length_app, length_replicate.
Qed.

Lemma back_spec y n fuel f t :
  0 <= f <= size y -> f <= t + 1 -> size y - 1 <= t < size y + Z.of_nat n -> (Z.to_nat (t - f + 1) < fuel)%nat ->
  (forall k c, y = k ++ [c] -> c <> space) -> (f = size y -> n = 0%nat) ->
  back fuel (y ++ replicate n space) f t = Some (size y - 1).
Proof.
  intros Hf Hft Ht Hfuel Hy Hn. revert t Ht Hft Hfuel. induction fuel as [|fuel IH]; intros t Ht Hft Hfuel; [lia|].
  cbn [back]. destruct (Z.leb_spec f t) as [Hle|Hle]; [|f_equal; lia].
  destruct (Z.eq_dec t (size y - 1)) as [->|Hne].
  - destruct y as [|c y _] using rev_ind; [cbn [length] in *; lia|].
    rewrite (arr_get_mid y (replicate n space) _ c) by first [by rewrite <- app_assoc|rewrite length_app; cbn [length]; lia].
    cbn [mbind option_bind]. rewrite bool_decide_false by by apply (Hy y c). done.
  - assert (arr_get (y ++ replicate n space) t = Some space) as ->.
    { apply arr_get_Some. split; [lia|]. rewrite lookup_app_r by lia. apply lookup_replicate. split; [done|lia]. }
    cbn [mbind option_bind]. rewrite bool_decide_true by done. apply IH; lia.
Qed.

Lemma copy_sub s f t :
  0 <= f <= t + 1 -> t < size s ->
  for_ (upto f t) (fun i x => c ← arr_get s i; Some (x ++ [c])) [] = Some (sub s f t).
Proof.
  intros Hf Ht.
  destruct (for_upto (fun i x => x = sub s f (i - 1)) f t
    (fun i x => c ← arr_get s i; Some (x ++ [c])) []) as (x & -> & Hx); [lia| | |].
  - unfold sub. by replace (Z.to_nat (f - 1 - f + 1)) with 0%nat by lia.
  - intros i x Hi ->. destruct (arr_get_in s i) as [c Hc]; [lia|]. rewrite Hc. cbn [mbind option_bind].
    eexists. split; [done|]. replace (i + 1 - 1) with i by lia.
    rewrite (sub_cut s f (i - 1) i) by lia. replace (i - 1 + 1) with i by lia. by rewrite (sub_one s i c Hc).
  - rewrite Hx. by replace (t + 1 - 1) with t by lia.
Qed.

(** [trim] removes the spaces before and behind. *)
Lemma trim_spec s : trim s = Some (trimmed s).
Proof.
  destruct (ltrim_split s) as [n En]. destruct (rtrim_split (ltrim s)) as [m Em].
  fold (trimmed s) in Em. unfold trim.
  assert (front (S (length s)) s 0 (size s - 1) = Some (Z.of_nat n)) as ->.
  { rewrite En at 2 3. apply front_spec; [lia| |].
    - apply (f_equal length) in En. rewrite length_app, length_replicate in En. lia.
    - intros c t. apply ltrim_head. }
  cbn [mbind option_bind].
  assert (length s = n + length (ltrim s))%nat as Hl.
  { apply (f_equal length) in En. by rewrite length_app, length_replicate in En. }
  destruct (decide (ltrim s = [])) as [E0|E0].
  { rewrite E0 in *. cbn [length] in Hl. cbn [back]. zfalse (Z.of_nat n <=? size s - 1). cbn [mbind option_bind].
    rewrite upto_nil by lia. unfold trimmed. by rewrite E0. }
  set (y := replicate n space ++ trimmed s).
  assert (s = y ++ replicate m space) as Es by (unfold y; by rewrite <- app_assoc, <- Em).
  assert (trimmed s <> []) as Ht.
  { intros Ht. rewrite Ht in Em. cbn [app] in Em. destruct m; [done|]. cbn in Em.
    by apply ltrim_head in Em. }
  assert (size y = Z.of_nat n + size (trimmed s)) as Hy by (unfold y; rewrite length_app, length_replicate; lia).
  assert (0 < size (trimmed s)) by (destruct (trimmed s); [done|cbn [length]; lia]).
  assert (length s = length y + m)%nat as Hly.
  { apply (f_equal length) in Es. by rewrite length_app, length_replicate in Es. }
  assert (back (S (length s)) s (Z.of_nat n) (size s - 1) = Some (size y - 1)) as ->.
  { rewrite Es at 2. apply back_spec; try lia.
    intros k c Ek. unfold y in Ek. unfold trimmed in Ek.
    destruct (ltrim (reverse (ltrim s))) as [|x l] eqn:El; [unfold trimmed in Ht; by rewrite El in Ht|].
    rewrite reverse_cons, app_assoc in Ek. apply app_inj_tail in Ek as [_ <-]. by apply ltrim_head in El. }
  cbn [mbind option_bind]. rewrite copy_sub by lia. f_equal. unfold sub. rewrite Es at 1. unfold y at 2.
  rewrite <- app_assoc, drop_app_length' by (rewrite length_replicate; lia).
  apply take_app_length'. lia.
Qed.

(** ** atoi: theorems *)
Module AtoiProps.
Import Atoi.

(** The digits a text starts with. *)
Fixpoint leading (s : list ascii) : list ascii :=
  match s with c :: s => if isdigit c then c :: leading s else [] | [] => [] end.

Definition clamp (z : Z) : Z := Z.max INT_MIN (Z.min INT_MAX z).

(** The number a text starts with: a sign and digits. *)
Definition number (s : list ascii) : Z :=
  match s with
  | c :: t => if c ≟ "-"%char then - Address.value (leading t)
              else if c ≟ "+"%char then Address.value (leading t) else Address.value (leading s)
  | [] => 0
  end.

Lemma leading_digits s : Forall Address.digit (leading s).
Proof.
  induction s as [|c s IH]; cbn [leading]; [apply Forall_nil_2|]. destruct (isdigit c) eqn:E; [|apply Forall_nil_2].
  apply Forall_cons. split; [|done]. unfold isdigit in E. unfold Address.digit. lia.
Qed.

(** The value so far, and the rest. *)
Definition more (res : Z) (ds : list ascii) : Z := foldl (fun v c => v * 10 + char_code c - char_code "0") res ds.

Lemma more_le res ds : 0 <= res -> Forall Address.digit ds -> res <= more res ds.
Proof.
  intros Hr Hds. revert res Hr. induction Hds as [|c ds Hc Hds IH]; intros res Hr; cbn [more foldl]; [lia|].
  change (foldl _ ?r ds) with (more r ds). change (char_code "0") with 48. unfold Address.digit in Hc.
  etrans; [|apply IH; lia]. lia.
Qed.

Definition signed (minus : bool) (z : Z) : Z := if minus then - z else z.

Lemma digits_value s minus res :
  0 <= res -> INT_MIN < signed minus res < INT_MAX ->
  exists r, digits s minus res = Some r /\ clamp (signed minus r) = clamp (signed minus (more res (leading s))).
Proof.
  revert res. induction s as [|c s IH]; intros res Hr Hb; cbn [digits leading]; [by exists res|].
  destruct (isdigit c) eqn:Ec; [|by exists res]. unfold isdigit in Ec.
  cbn [more foldl]. change (foldl _ ?r (leading s)) with (more r (leading s)). change (char_code "0") with 48.
  unfold INT_MIN, INT_MAX in *.
  assert (0 <= res <= 2147483648) as Hres by (unfold signed in Hb; destruct minus; lia).
  unfold add_digit. rewrite chk64_ok by lia. cbn [mbind option_bind]. change (char_code "0") with 48.
  rewrite chk64_ok by lia. cbn [mbind option_bind].
  replace (res * 10 + (char_code c - 48)) with (res * 10 + char_code c - 48) by lia.
  set (r := res * 10 + char_code c - 48) in *. assert (0 <= r) as Hr0 by lia. clearbody r.
  pose proof (more_le r (leading s) Hr0 (leading_digits s)) as Hm.
  change (if minus then - r else r) with (signed minus r).
  destruct ((2147483647 <=? signed minus r) || (signed minus r <=? -2147483648)) eqn:Eb.
  - exists r. split; [done|]. unfold clamp, signed, INT_MIN, INT_MAX in *. destruct minus; lia.
  - apply IH; [done|]. lia.
Qed.

Lemma clamp_spec z : (if INT_MAX <=? z then INT_MAX else if z <=? INT_MIN then INT_MIN else z) = clamp z.
Proof. unfold clamp, INT_MAX, INT_MIN. destruct (Z.leb_spec 2147483647 z), (Z.leb_spec z (-2147483648)); lia. Qed.

Lemma atol_number s : atol s = Some (clamp (number s)).
Proof.
  destruct s as [|c t]; [done|]. unfold atol, number.
  assert (forall body minus, exists r, digits body minus 0 = Some r /\
    clamp (signed minus r) = clamp (signed minus (Address.value (leading body)))) as Hd.
  { intros body minus. apply digits_value; [lia|]. by destruct minus. }
  destruct (bool_decide_reflect (c = "-"%char)) as [->|Hm].
  - cbn [orb]; rewrite ?skipn_cons, ?drop_0. destruct (Hd t true) as (r & -> & Hr). cbn [mbind option_bind].
    rewrite clamp_spec. by f_equal.
  - cbn [orb]. destruct (bool_decide_reflect (c = "+"%char)) as [->|Hp].
    + rewrite skipn_cons, drop_0. destruct (Hd t false) as (r & -> & Hr). cbn [mbind option_bind]. rewrite clamp_spec. by f_equal.
    + destruct (Hd (c :: t) false) as (r & E & Hr). rewrite drop_0, E. cbn [mbind option_bind].
      rewrite clamp_spec. by f_equal.
Qed.

(** For every text: the number that stands behind the spaces, or the nearest int;
    nothing overflows. *)
Theorem atoi_clamp str : atoi str = Some (clamp (number (trimmed str))).
Proof.
  unfold atoi. rewrite trim_spec. cbn [mbind option_bind]. rewrite atol_number. cbn [mbind option_bind].
  f_equal. apply s32_id. unfold clamp, INT_MIN, INT_MAX. lia.
Qed.

Example atoi_large : atoi (chars "  -99999999999x") = Some (-2147483648).
Proof. by vm_compute. Qed.
End AtoiProps.

(** ** Numbers: theorems *)
Module NumberProps.
Import ValidNumber.

Definition all_digits (s : list ascii) : Prop := Forall (fun c => isdigit c = true) s.

(** [s] is [body], perhaps with a sign before it. *)
Definition with_sign (s body : list ascii) : Prop :=
  s = body \/ s = "-"%char :: body \/ s = "+"%char :: body.

Definition int_text (s : list ascii) : Prop :=
  exists body, with_sign s body /\ body <> [] /\ all_digits body.

Definition float_text (s : list ascii) : Prop :=
  int_text s \/
  exists a b, with_sign s (a ++ "."%char :: b) /\ all_digits a /\ all_digits b /\ (a <> [] \/ b <> []).

Definition number_text (s : list ascii) : Prop :=
  float_text s \/ exists m x, s = m ++ "e"%char :: x /\ float_text m /\ int_text x.

Lemma forallb_digits s : forallb isdigit s = true <-> all_digits s.
Proof. unfold all_digits. rewrite forallb_forall, Forall_forall. by setoid_rewrite list_elem_of_In. Qed.

Lemma find_first_Some s c n :
  find_first_of s c = Some n <-> s = take n s ++ c :: drop (S n) s /\ c ∉ take n s /\ (n < length s)%nat.
Proof.
  revert n. induction s as [|x s IH]; intros n; cbn [find_first_of length].
  - split; [done|]. lia.
  - case_bool_decide as E.
    + subst x. split; [intros [= <-]; cbn; split_and!; [done|by intros ?%elem_of_nil|lia]|].
      destruct n as [|n]; [done|]. cbn [take]. intros (_ & Hn & _). rewrite not_elem_of_cons in Hn. by destruct Hn.
    + destruct n as [|n].
      * split; [by destruct (find_first_of s c)|]. intros ([= ->] & _). done.
      * transitivity (find_first_of s c = Some n).
        { destruct (find_first_of s c); cbn; split; intros [= ->]; done. }
        rewrite IH. cbn [take drop app]. rewrite not_elem_of_cons. split.
        -- intros (E1 & ? & ?). split_and!; [by f_equal|done|done|lia].
        -- intros ([= E1] & [_ ?] & ?). split_and!; [done|done|lia].
Qed.

Lemma find_first_None s c : find_first_of s c = None <-> c ∉ s.
Proof.
  induction s as [|x s IH]; cbn [find_first_of]; [split; [by intros _ ?%elem_of_nil|done]|].
  rewrite not_elem_of_cons. case_bool_decide as E; [split; [done|by intros [? _]]|].
  rewrite <- IH. destruct (find_first_of s c); cbn; naive_solver.
Qed.

(** The first occurrence of [c] in [a ++ c :: b]. *)
Lemma find_first_app a c b : c ∉ a -> find_first_of (a ++ c :: b) c = Some (length a).
Proof.
  intros Ha. apply find_first_Some. rewrite take_app_length.
  replace (S (length a)) with (length a + 1)%nat by lia. rewrite drop_app_add. rewrite length_app. cbn.
  split_and!; [done|done|lia].
Qed.

Lemma digits_without c s : all_digits s -> isdigit c = false -> c ∉ s.
Proof. intros Hs Hc Hin. by eapply Forall_forall in Hs; [|exact Hin]; rewrite Hs in Hc. Qed.

Lemma withSign_spec s e :
  withSignNumber s e = true <->
  (exists body, with_sign s body /\ body <> [] /\ all_digits body) \/ (e = true /\ with_sign s []).
Proof.
  assert (forall body, body <> [] -> match body with [] => e | _ => forallb isdigit body end = true <-> all_digits body) as Hb
    by (intros [|x b] ?; [done|apply forallb_digits]).
  unfold withSignNumber. destruct s as [|c t].
  { split; [intros ->; right; split; [done|by left]|].
    intros [(body & [<-|[[=]|[=]]] & ? & _)|[-> _]]; done. }
  destruct (decide (c = "-"%char \/ c = "+"%char)) as [Hc|Hc].
  - assert ((c ≟ "-"%char) || (c ≟ "+"%char) = true) as ->.
    { by destruct Hc as [->| ->]. }
    assert (isdigit c = false) as Hnd by (by destruct Hc as [->| ->]).
    destruct (decide (t = [])) as [->|Ht].
    + split; [intros ->; right; split; [done|destruct Hc as [->| ->]; unfold with_sign; tauto]|].
      intros [(body & [<-|[[= _ <-]|[= _ <-]]] & Hne & Hd)|[-> _]]; [|done..].
      apply Forall_cons in Hd as [Hd _]. congruence.
    + rewrite (Hb t Ht). split.
      * intros Hd. left. exists t. split; [destruct Hc as [->| ->]; unfold with_sign; tauto|done].
      * intros [(body & [<-|[[= _ <-]|[= _ <-]]] & Hne & Hd)|[_ [[=]|[[= _ ?]|[= _ ?]]]]]; [|done..].
        apply Forall_cons in Hd as [Hd _]. congruence.
  - assert ((c ≟ "-"%char) || (c ≟ "+"%char) = false) as ->.
    { rewrite !bool_decide_false; [done|tauto..]. }
    rewrite (Hb (c :: t)) by done. split.
    + intros Hd. left. exists (c :: t). split; [by left|done].
    + intros [(body & [<-|[[= -> <-]|[= -> <-]]] & Hne & Hd)|[_ [[=]|[[= -> ?]|[= -> ?]]]]]; [done|tauto..].
Qed.

Lemma isInt_spec s : isInt s = true <-> int_text s.
Proof. unfold isInt, int_text. rewrite withSign_spec. split; [intros [?|[? _]]; done|by left]. Qed.

Lemma withoutSign_spec s : withoutSignNumber s true = true <-> all_digits s.
Proof. destruct s as [|c s]; [by split; [intros _; apply Forall_nil_2|]|]. apply forallb_digits. Qed.

(** The texts of the list have no digit. *)
Lemma blk_no_digit s : existsb (fun b => s ≟ b) blk = true -> Forall (fun c => isdigit c = false) s.
Proof.
  intros (b & Hb & ->%bool_decide_eq_true)%existsb_exists.
  assert (forallb (forallb (fun c => negb (isdigit c))) blk = true) as H by by vm_compute.
  rewrite forallb_forall in H. specialize (H b Hb). rewrite forallb_forall in H.
  apply Forall_forall. intros c Hc%list_elem_of_In. specialize (H c Hc). by apply negb_true_iff.
Qed.

Lemma blk_point s : with_sign s ["."%char] -> existsb (fun b => s ≟ b) blk = true.
Proof. by intros [->|[->| ->]]; vm_compute. Qed.

Lemma with_sign_app s a b : with_sign s (a ++ b) <-> exists t, s = t ++ b /\ with_sign t a.
Proof.
  unfold with_sign. split.
  - intros [->|[->| ->]]; [exists a|exists ("-"%char :: a)|exists ("+"%char :: a)]; tauto.
  - intros (t & -> & [->|[->| ->]]); eauto.
Qed.

Lemma with_sign_digits t a : with_sign t a -> all_digits a -> "."%char ∉ t /\ "e"%char ∉ t.
Proof.
  intros Ht Ha. assert ("."%char ∉ a /\ "e"%char ∉ a) as [? ?] by (split; by apply digits_without).
  destruct Ht as [->|[->| ->]]; [done|..]; rewrite !not_elem_of_cons; done.
Qed.

Lemma int_no_point s : int_text s -> "."%char ∉ s /\ "e"%char ∉ s.
Proof. intros (body & Hs & _ & Hd). by apply (with_sign_digits s body). Qed.

Lemma isFloat_spec s : isFloat s = true <-> float_text s.
Proof.
  unfold isFloat. destruct (find_first_of s "."%char) as [n|] eqn:En.
  - apply find_first_Some in En as (Es & Hn & Hl). set (s1 := take n s) in *. set (s2 := drop (S n) s) in *.
    assert (float_text s <-> exists a b, with_sign s (a ++ "."%char :: b) /\ all_digits a /\ all_digits b /\ (a <> [] \/ b <> [])) as ->.
    { split; [|by right]. intros [Hi|]; [|done]. exfalso. apply (proj1 (int_no_point s Hi)). rewrite Es. set_solver. }
    destruct (existsb (fun b => s ≟ b) blk) eqn:Eb.
    + split; [done|]. intros (a & b & Hs & Ha & Hb & Hne). apply blk_no_digit in Eb. exfalso.
      assert (forall x, x ∈ a ++ "."%char :: b -> x ∈ s) as Hin.
      { intros x Hx. destruct Hs as [->|[->| ->]]; [done|by right..]. }
      rewrite Forall_forall in Eb. unfold all_digits in Ha, Hb. rewrite Forall_forall in Ha, Hb.
      destruct Hne as [Hne|Hne].
      * destruct a as [|x a]; [done|]. specialize (Ha x ltac:(left)). specialize (Eb x ltac:(apply Hin; left)). congruence.
      * destruct b as [|x b]; [done|]. specialize (Hb x ltac:(left)).
        specialize (Eb x ltac:(apply Hin, elem_of_app; right; right; left)). congruence.
    + rewrite andb_true_iff, withSign_spec, withoutSign_spec. split.
      * intros [Hs1 Hs2].
        assert (exists a, with_sign s1 a /\ all_digits a) as (a & Ha & Hda).
        { destruct Hs1 as [(a & ? & _ & ?)|[_ ?]]; [by exists a|exists []; split; [done|apply Forall_nil_2]]. }
        exists a, s2. split; [apply with_sign_app; by exists s1|]. split; [done|]. split; [done|].
        destruct a as [|x a]; [|by left]. destruct s2 as [|y s3] eqn:E2; [|by right].
        rewrite blk_point in Eb; [done|]. apply (with_sign_app s [] ["."%char]). by exists s1.
      * intros (a & b & Hs & Hda & Hdb & _). apply with_sign_app in Hs as (t & Et & Ht).
        pose proof (with_sign_digits t a Ht Hda) as [Hpt _].
        assert (s1 = t /\ s2 = b) as [-> ->].
        { pose proof (find_first_app t "."%char b Hpt) as Hf. rewrite <- Et in Hf.
          assert (find_first_of s "."%char = Some n) as Hf2 by (by apply find_first_Some).
          rewrite Hf2 in Hf. injection Hf as ->. unfold s1, s2. rewrite Et, take_app_length.
          replace (S (length t)) with (length t + 1)%nat by lia. by rewrite drop_app_add. }
        split; [|done]. destruct a as [|x a]; [by right|]. left. by exists (x :: a).
  - apply find_first_None in En. rewrite isInt_spec. split; [by left|]. intros [?|(a & b & Hs & _)]; [done|].
    exfalso. apply En. destruct Hs as [->|[->| ->]]; set_solver.
Qed.

Lemma float_no_e s : float_text s -> "e"%char ∉ s.
Proof.
  intros [Hi|(a & b & Hs & Ha & Hb & _)]; [by apply int_no_point|].
  apply with_sign_app in Hs as (t & -> & Ht). pose proof (with_sign_digits t a Ht Ha) as [_ He].
  rewrite not_elem_of_app, not_elem_of_cons. split_and!; [done|done|]. by apply digits_without.
Qed.

(** For every text: isNumber decides whether it is a number with spaces around. *)
Theorem isNumber_spec s :
  exists b, isNumber s = Some b /\ (b = true <-> number_text (trimmed s)).
Proof.
  unfold isNumber, trim. rewrite trim_spec. cbn [mbind option_bind]. eexists. split; [done|].
  set (x := trimmed s). clearbody x.
  assert (~ number_text []) as Hnil.
  { assert (~ float_text []) as Hf.
    { intros [(body & [<-|[[=]|[=]]] & ? & _)|(a & b & [E|[[=]|[=]]] & _)]; [done|by destruct a]. }
    intros [?|(m & y & E & _)]; [done|by destruct m]. }
  transitivity ((match find_first_of x "e"%char with
    | None => isFloat x | Some sep => isFloat (take sep x) && isInt (drop (S sep) x) end) = true).
  { destruct x; [|done]. split; [done|]. by vm_compute. }
  destruct (find_first_of x "e"%char) as [n|] eqn:En.
  - pose proof En as (Ex & Hn & _)%find_first_Some. rewrite andb_true_iff, isFloat_spec, isInt_spec. split.
    + intros [? ?]. right. exists (take n x), (drop (S n) x). done.
    + intros [Hf|(m & y & -> & Hf & Hi)].
      * exfalso. apply (float_no_e x Hf). rewrite Ex. set_solver.
      * rewrite find_first_app in En by by apply float_no_e. injection En as <-.
        rewrite take_app_length. replace (S (length m)) with (length m + 1)%nat by lia. by rewrite drop_app_add.
  - apply find_first_None in En. rewrite isFloat_spec. split; [by left|]. intros [?|(m & y & -> & _)]; [done|].
    exfalso. apply En. set_solver.
Qed.
End NumberProps.

(** ** Digits: theorems *)
Module DigitsProps.
Import Digits.

(** The value of digits, the greatest first. *)
Definition num_from (v : Z) (ds : list Z) : Z := foldl (fun v d => v * 10 + d) v ds.
Definition num (ds : list Z) : Z := num_from 0 ds.
Definition digit (d : Z) : Prop := 0 <= d < 10.

(** [ds] are the digits of [x], the least first and no zero in front. *)
Definition decimal (x : Z) (ds : list Z) : Prop :=
  Forall digit ds /\ x = num (list.reverse ds) /\ last ds <> Some 0.

Lemma num_of_snoc ds d : num (ds ++ [d]) = num ds * 10 + d.
Proof. unfold num, num_from. by rewrite foldl_app. Qed.

Lemma num_from_le v ds : 0 <= v -> Forall digit ds -> v <= num_from v ds.
Proof.
  intros Hv Hds. revert v Hv. induction Hds as [|d ds Hd Hds IH]; intros v Hv; cbn; [lia|].
  fold (num_from (v * 10 + d) ds). unfold digit in Hd. etrans; [|apply IH; lia]. lia.
Qed.

Lemma decimal_0 : decimal 0 [].
Proof. split_and!; [apply Forall_nil_2|done|done]. Qed.

Lemma decimal_cons x d ds :
  digit d -> decimal x ds -> d + 10 * x <> 0 -> decimal (10 * x + d) (d :: ds).
Proof.
  intros Hd (Hds & -> & Hl) Hne. unfold decimal. rewrite list.reverse_cons, num_of_snoc. split_and!.
  - by apply Forall_cons.
  - lia.
  - destruct ds as [|y ds]; [|done]. intros [= ->]. cbn in Hne. lia.
Qed.

Lemma digits_decimal fuel x s :
  0 <= x < 10 ^ Z.of_nat fuel ->
  exists ds, digits (S fuel) x s = Some (s ++ ds) /\ decimal x ds /\ (length ds <= fuel)%nat.
Proof.
  revert x s. induction fuel as [|fuel IH]; intros x s Hx.
  - assert (x = 0) as -> by (cbn in Hx; lia). exists []. rewrite app_nil_r. split; [done|].
    split; [apply decimal_0|done].
  - rewrite Nat2Z.inj_succ, Z.pow_succ_r in Hx by lia. cbn [digits]. destruct (Z.eqb_spec x 0) as [->|Hne].
    { exists []. rewrite app_nil_r. split; [done|]. split; [apply decimal_0|cbn; lia]. }
    rewrite Z.quot_div_nonneg, Z.rem_mod_nonneg by lia.
    pose proof (Z.div_mod x 10 ltac:(lia)) as Hdm. pose proof (Z.mod_pos_bound x 10 ltac:(lia)) as Hm.
    destruct (IH (x / 10) (s ++ [x mod 10])) as (ds & E & Hds & Hlen).
    { split; [apply Z.div_pos; lia|apply Z.div_lt_upper_bound; lia]. }
    exists ((x mod 10) :: ds). split.
    + change (digits (S fuel) (x / 10) (s ++ [x mod 10]) = Some (s ++ (x mod 10) :: ds)).
      rewrite E. by rewrite <- app_assoc.
    + split; [rewrite Hdm at 1; apply decimal_cons; [done|done|lia]|cbn [length]; lia].
Qed.

Lemma value_spec v ds :
  0 <= v <= 2147483647 -> Forall digit ds ->
  value ds v = if num_from v ds <=? 2147483647 then Some (num_from v ds) else None.
Proof.
  intros Hv Hds. revert v Hv. induction Hds as [|d ds Hd Hds IH]; intros v Hv; cbn [value].
  - cbn. by ztrue (v <=? 2147483647).
  - cbn [num_from foldl]. fold (num_from (v * 10 + d) ds). unfold digit in Hd.
    pose proof (num_from_le (v * 10 + d) ds ltac:(lia) Hds) as Hle.
    destruct (Z.leb_spec (v * 10 + d) 2147483647) as [Hf|Hf].
    + rewrite !chk32_ok by lia. cbn [mbind option_bind]. rewrite chk32_ok by lia. cbn [mbind option_bind].
      apply IH. lia.
    + zfalse (num_from (v * 10 + d) ds <=? 2147483647). 
      destruct (chk32 (v * 10)) as [y|] eqn:E1; [|done]. apply chk32_inv in E1 as [-> _]. cbn [mbind option_bind].
      destruct (chk32 (v * 10 + d)) as [y|] eqn:E2; [|done]. apply chk32_inv in E2. lia.
Qed.

(** The number with its digits turned around, when an int holds it: otherwise
    the multiplication overflows, as the negation of the least int does. *)
Theorem reverse_spec x :
  -2147483648 <= x <= 2147483647 ->
  (x = -2147483648 /\ reverse x = None) \/
  exists ds, decimal (Z.abs x) ds /\
    reverse x = if num ds <=? 2147483647 then Some (Z.sgn x * num ds) else None.
Proof.
  intros Hx. unfold reverse. destruct (Z.eq_dec x (-2147483648)) as [->|Hne]; [by left|]. right.
  destruct (digits_decimal 10 (Z.abs x) []) as (ds & E & Hds & _); [change (10 ^ Z.of_nat 10) with 10000000000; lia|].
  exists ds. split; [done|]. cbn [app] in E.
  assert ((if x <? 0 then chk32 (- x) else Some x) = Some (Z.abs x)) as ->.
  { destruct (Z.ltb_spec x 0); [rewrite chk32_ok by lia|]; f_equal; lia. }
  cbn [mbind option_bind]. rewrite E. cbn [mbind option_bind].
  destruct Hds as (Hdig & Hv & _). rewrite value_spec by (done || lia). fold (num ds).
  destruct (Z.leb_spec (num ds) 2147483647); cbn [mbind option_bind]; [|done]. f_equal.
  destruct (Z.ltb_spec x 0); [rewrite Z.sgn_neg by lia; lia|].
  destruct (Z.eq_dec x 0) as [->|]; [|rewrite Z.sgn_pos by lia; lia].
  cbn in E. by injection E as <-.
Qed.

Lemma reverse_spec_witness :
  -2147483648 <= -120 <= 2147483647 /\
  ((-120 = -2147483648 /\ reverse (-120) = None) \/
   exists ds, decimal (Z.abs (-120)) ds /\
     reverse (-120) = if num ds <=? 2147483647 then Some (Z.sgn (-120) * num ds) else None).
Proof. split; [lia|]. apply (reverse_spec (-120)). lia. Defined.

Example reverse_120 : reverse (-120) = Some (-21) /\ reverse 1534236469 = None.
Proof. by vm_compute. Qed.

Lemma num_length_inj a b :
  length a = length b -> Forall digit a -> Forall digit b -> num a = num b -> a = b.
Proof.
  revert b. induction a as [|x a IH] using rev_ind; intros b Hl Ha Hb E.
  - by destruct b.
  - destruct b as [|y b _] using rev_ind; [rewrite length_app in Hl; cbn in Hl; lia|].
    rewrite !length_app in Hl. cbn in Hl. apply Forall_app in Ha as [Ha [Hx _]%Forall_cons].
    apply Forall_app in Hb as [Hb [Hy _]%Forall_cons]. rewrite !num_of_snoc in E. unfold digit in *.
    assert (num a = num b /\ x = y) as [En ->] by lia. f_equal. apply IH; [lia|done..].
Qed.

Lemma turn_spec fuel x v ds :
  decimal x ds -> (length ds < fuel)%nat -> 0 <= v <= 2147483647 ->
  turn fuel x v = Some (if num_from v ds <=? 2147483647 then Some (num_from v ds) else None).
Proof.
  revert x v ds. induction fuel as [|fuel IH]; intros x v ds Hds Hf Hv; [lia|]. cbn [turn].
  destruct Hds as (Hdig & -> & Hl). destruct ds as [|d ds].
  - cbn. by ztrue (v <=? 2147483647).
  - rewrite list.reverse_cons, num_of_snoc in *. apply Forall_cons in Hdig as [Hd Hdig]. unfold digit in Hd.
    pose proof (num_from_le 0 (list.reverse ds) ltac:(lia)) as Hnn. fold (num (list.reverse ds)) in Hnn.
    assert (0 <= num (list.reverse ds)) as Hn0 by (apply Hnn, Forall_reverse, Hdig).
    assert (num (list.reverse ds) * 10 + d <> 0) as Hne.
    { intros E0. assert (d = 0 /\ num (list.reverse ds) = 0) as [-> En] by lia.
      destruct ds as [|y ds _] using rev_ind; [done|]. rewrite last_cons, last_snoc in Hl.
      apply Forall_app in Hdig as [Hdig [Hy _]%Forall_cons]. unfold digit in Hy.
      rewrite list.reverse_app in En. change (num_from (0 * 10 + y) (list.reverse ds) = 0) in En.
      change (0 * 10 + y) with y in En.
      pose proof (num_from_le y (list.reverse ds) ltac:(lia) ltac:(by apply Forall_reverse)).
      assert (y = 0) by lia. by subst y. }
    zfalse (num (list.reverse ds) * 10 + d =? 0).
    rewrite Z.rem_mod_nonneg by lia.
    assert ((num (list.reverse ds) * 10 + d) mod 10 = d) as -> by (rewrite Z.add_comm, Z.mod_add, Z.mod_small; lia).
    assert (Z.quot (num (list.reverse ds) * 10 + d) 10 = num (list.reverse ds)) as Hq.
    { rewrite Z.quot_div_nonneg by lia. rewrite Z.add_comm, Z.div_add, Z.div_small by lia. lia. }
    rewrite Hq, (Z.quot_div_nonneg (2147483647 - d)) by lia.
    cbn [num_from foldl]. fold (num_from (v * 10 + d) ds).
    pose proof (num_from_le (v * 10 + d) ds ltac:(lia) Hdig) as Hle.
    destruct (Z.ltb_spec ((2147483647 - d) / 10) v) as [Hg|Hg].
    + assert (2147483647 < v * 10 + d) as Hbig.
      { pose proof (Z.mul_succ_div_gt (2147483647 - d) 10 ltac:(lia)). lia. }
      by zfalse (num_from (v * 10 + d) ds <=? 2147483647).
    + assert (v * 10 + d <= 2147483647) as Hsmall.
      { pose proof (Z.mul_div_le (2147483647 - d) 10 ltac:(lia)). lia. }
      rewrite chk32_ok by lia. cbn [mbind option_bind]. rewrite chk32_ok by lia. cbn [mbind option_bind].
      apply IH; [|cbn [length] in Hf; lia|lia].
      split_and!; [done|done|]. destruct ds as [|y ds]; [done|]. by rewrite last_cons_cons in Hl.
Qed.

(** A number is a palindrome when its digits are: a number turned around that
    no int holds is another one. *)
Theorem isPalindrome_digits x :
  -2147483648 <= x <= 2147483647 ->
  exists ds, decimal (Z.abs x) ds /\
    isPalindrome x = Some ((0 <=? x) && bool_decide (list.reverse ds = ds)).
Proof.
  intros Hx. destruct (digits_decimal 10 (Z.abs x) []) as (ds & E & Hds & Hlen);
    [change (10 ^ Z.of_nat 10) with 10000000000; lia|].
  exists ds. split; [done|]. unfold isPalindrome. destruct (Z.ltb_spec x 0) as [Hneg|Hpos].
  { by zfalse (0 <=? x). }
  ztrue (0 <=? x). cbn [andb]. rewrite Z.abs_eq in Hds, E by lia.
  rewrite (turn_spec 11 x 0 ds) by (done || lia). cbn [mbind option_bind]. f_equal. fold (num ds).
  destruct Hds as (Hdig & Hv & _).
  assert ((num ds =? x) = bool_decide (list.reverse ds = ds)) as <-.
  { destruct (Z.eqb_spec (num ds) x) as [En|En]; symmetry.
    - apply bool_decide_true. apply num_length_inj; [apply length_reverse|by apply Forall_reverse|done|lia].
    - apply bool_decide_false. intros Er. apply En. by rewrite Hv, Er. }
  destruct (Z.leb_spec (num ds) 2147483647); [done|]. by zfalse (num ds =? x).
Qed.
End DigitsProps.
