(* ===== verification/Sums.v ===== *)
(** * Sums: the exercises of src/code/leetcode on numbers that add up

    Triples and quadruples with a given sum, the closest sum, the paths and the
    rows of triangles, and the sets one can choose. *)

From S2P Require Import Prelude Loops Arrays.

Notation sort := LongestConsecutive.sort.
Notation sorted := (StronglySorted Z.le).

(** ** Looking up a number in a part of a sorted vector

    three-sum.cc and four-sum.cc have the same [isOK], three-sum-closest.cc the
    same loop in [B]. *)

(** src/code/leetcode/three-sum-closest.cc:49-57 [Solution::B (loop)]
    The place of [x], or where [u] ends. *)
Fixpoint bisect (fuel : nat) (num : list Z) (s x u v : Z) : option (Z + Z) :=
  match fuel with
  | O => None
  | Datatypes.S fuel =>
      if u <=? v then
        let m := Z.quot (u + v) 2 in
        y ← arr_get num (m + s);
        if y =? x then Some (inl (m + s)) else
        if x <? y then bisect fuel num s x u (m - 1) else bisect fuel num s x (m + 1) v
      else Some (inr u)
  end.

(** The length of the vector is enough for its halves. *)
Definition bisect_all (num : list Z) (s e x : Z) : option (Z + Z) :=
  bisect (Datatypes.S (length num)) num s x 0 (e - s).

(** ** The last of the numbers, from the greatest down

    The loop three-sum.cc and four-sum.cc share: [ks] are the places that are
    left, [m] the place of the number before the last two, [stop] and [skip] its
    tests, [rest] what the third number must be and [row] the result. *)
Section Scan.
Variable num : list Z.
Variables (n m : Z).
Variable stop : Z -> bool.
Variable rest : Z -> option Z.
Variable skip : Z -> bool.
Variable row : Z -> Z -> list Z.

Fixpoint scan (ks : list Z) (res : list (list Z)) : option (list (list Z)) :=
  match ks with
  | [] => Some res
  | j :: ks =>
      xj ← arr_get num j;
      same ← (if j =? n - 1 then Some false else y ← arr_get num (j + 1); Some (xj =? y));
      if same : bool then scan ks res else
      if stop xj then Some res else
      xz ← rest xj;
      if xj <? xz then Some res else
      if skip xz then scan ks res else
      r ← bisect_all num (m + 1) (j - 1) xz;
      scan ks (match r with inl _ => res ++ [row xz xj] | inr _ => res end)
  end.
End Scan.

(** ** two-sum.cc *)
Module TwoSum.

(** src/code/leetcode/two-sum.cc:11-18 [Solution::twoSum (inner loop)] *)
Fixpoint partner (numbers : list Z) (target i : Z) (js : list Z) : option (option (list Z)) :=
  match js with
  | [] => Some None
  | j :: js =>
      x ← arr_get numbers i; y ← arr_get numbers j; s ← chk32 (x + y);
      if s =? target then Some (Some [i + 1; j + 1]) else partner numbers target i js
  end.

(** src/code/leetcode/two-sum.cc:10-19 [Solution::twoSum (outer loop)]
    There is no [return] after the loops. *)
Fixpoint pairs_from (numbers : list Z) (target : Z) (is_ : list Z) : option (list Z) :=
  match is_ with
  | [] => None
  | i :: is_ =>
      r ← partner numbers target i (upto (i + 1) (size numbers - 1));
      match r with Some res => Some res | None => pairs_from numbers target is_ end
  end.

(** src/code/leetcode/two-sum.cc:8-20 [Solution::twoSum] *)
Definition twoSum (numbers : list Z) (target : Z) : option (list Z) :=
  pairs_from numbers target (upto 0 (size numbers - 1)).
End TwoSum.

(** ** three-sum.cc *)
Module ThreeSum.

(** src/code/leetcode/three-sum.cc:46-59 [Solution::isOK] *)
Definition isOK (num : list Z) (s e x : Z) : option bool :=
  r ← bisect_all num s e x; Some (match r with inl _ => true | inr _ => false end).

(** src/code/leetcode/three-sum.cc:16-30 [Solution::threeSum (inner loop)] *)
Definition inner (num : list Z) (n i xi : Z) (res : list (list Z)) : option (list (list Z)) :=
  scan num n i (fun xj => xj <? xi) (fun xj => s ← chk32 (xi + xj); chk32 (- s)) (fun xz => xz <? xi)
    (fun xz xj => [xi; xz; xj]) (downto (n - 1) (i + 2)) res.

(** src/code/leetcode/three-sum.cc:8-34 [Solution::threeSum] *)
Definition threeSum (num : list Z) : option (list (list Z)) :=
  let num := sort num in
  let n := size num in
  for_ (upto 0 (n - 3)) (fun i res =>
    xi ← arr_get num i;
    same ← (if i =? 0 then Some false else y ← arr_get num (i - 1); Some (xi =? y));
    if same : bool then Some res else inner num n i xi res) [].
End ThreeSum.

(** ** four-sum.cc *)
Module FourSum.

(** src/code/leetcode/four-sum.cc:51-64 [Solution::isOK] *)
Definition isOK := ThreeSum.isOK.

(** src/code/leetcode/four-sum.cc:20-34 [Solution::fourSum (inner loop)] *)
Definition inner (num : list Z) (n target k xi xk : Z) (res : list (list Z)) : option (list (list Z)) :=
  scan num n k (fun _ => false)
    (fun xj => s ← chk32 (xi + xj); s ← chk32 (s + xk); chk32 (target - s))
    (fun xz => (xz <? xi) || (xz <? xk)) (fun xz xj => [xi; xk; xz; xj]) (downto (n - 1) (k + 2)) res.

(** src/code/leetcode/four-sum.cc:17-35 [Solution::fourSum (middle loop)] *)
Definition middle (num : list Z) (n target i xi : Z) (res : list (list Z)) : option (list (list Z)) :=
  for_ (upto (i + 1) (n - 3)) (fun k res =>
    xk ← arr_get num k;
    same ← (if k =? i + 1 then Some false else y ← arr_get num (k - 1); Some (xk =? y));
    if same : bool then Some res else inner num n target k xi xk res) res.

(** src/code/leetcode/four-sum.cc:9-39 [Solution::fourSum] *)
Definition fourSum (num : list Z) (target : Z) : option (list (list Z)) :=
  let num := sort num in
  let n := size num in
  for_ (upto 0 (n - 4)) (fun i res =>
    xi ← arr_get num i;
    same ← (if i =? 0 then Some false else y ← arr_get num (i - 1); Some (xi =? y));
    if same : bool then Some res else middle num n target i xi res) [].
End FourSum.

(** ** three-sum-closest.cc *)
Module Closest.

(** src/code/leetcode/three-sum-closest.cc:46-59 [Solution::B] *)
Definition B (number : list Z) (s e x : Z) : option Z :=
  r ← bisect_all number s e x;
  Some (match r with inl k => k | inr u => u - 1 + s end).

(** src/code/leetcode/three-sum-closest.cc:36-39 [Solution::C (one side)]
    [None] is a result that is not set yet. *)
Definition side (number : list Z) (x p : Z) (inside : bool) (res : option Z) : option (option Z) :=
  if inside then
    y ← arr_get number p; d ← chk32 (y - x);
    better ← (match res with
              | None => Some true
              | Some r => b ← chk32 (Z.abs r); a ← chk32 (Z.abs d); Some (a <? b)
              end);
    Some (if better : bool then Some d else res)
  else Some res.

(** src/code/leetcode/three-sum-closest.cc:31-45 [Solution::C] *)
Definition C (number : list Z) (s e x : Z) : option Z :=
  xp ← B number s e x;
  res ← side number x xp (s <=? xp) None;
  res ← side number x (xp + 1) (xp + 1 <=? e) res;
  Some (default (-1) res).

(** src/code/leetcode/three-sum-closest.cc:16-27 [Solution::threeSumClosest (inner loop)] *)
Fixpoint inner (number : list Z) (target i xi : Z) (ks : list Z) (res : option Z) : option (option Z) :=
  match ks with
  | [] => Some res
  | j :: ks =>
      xj ← arr_get number j;
      xz ← chk32 (target - xi); xz ← chk32 (xz - xj);
      c ← C number (i + 1) (j - 1) xz;
      better ← (match res with
                | None => Some true
                | Some r => a ← chk32 (Z.abs r); b ← chk32 (Z.abs c); Some (b <? a)
                end);
      let res := if better : bool then Some c else res in
      if c =? 0 then Some res else inner number target i xi ks res
  end.

(** src/code/leetcode/three-sum-closest.cc:8-30 [Solution::threeSumClosest] *)
Definition threeSumClosest (number : list Z) (target : Z) : option Z :=
  let number := sort number in
  let n := size number in
  res ← for_ (upto 0 (n - 3)) (fun i res =>
    xi ← arr_get number i; inner number target i xi (downto (n - 1) (i + 2)) res) None;
  chk32 (default (-1) res + target).
End Closest.

(** ** subsets-2.cc *)
Module Subsets2.

(** src/code/leetcode/subsets-2.cc:21-22 [Solution::R (duplicates)] *)
Fixpoint run_end (fuel : nat) (S : list Z) (x e : Z) : option Z :=
  match fuel with
  | O => None
  | Datatypes.S fuel =>
      if e <? size S then y ← arr_get S e; if y =? x then run_end fuel S x (e + 1) else Some e
      else Some e
  end.

(** src/code/leetcode/subsets-2.cc:15-32 [Solution::R]
    [vi] is as before when it returns. *)
Fixpoint R (fuel : nat) (S : list Z) (idx : Z) (vi : list Z) (res : list (list Z))
  : option (list (list Z)) :=
  match fuel with
  | O => None
  | Datatypes.S fuel =>
      if idx =? size S then Some (res ++ [vi]) else
      x ← arr_get S idx;
      e ← run_end (Datatypes.S (length S)) S x idx;
      res ← R fuel S e vi res;
      '(_, res) ← for_ (upto 0 (e - idx - 1)) (fun _ '(vi, res) =>
        let vi := vi ++ [x] in
        res ← R fuel S e vi res; Some (vi, res)) (vi, res);
      Some res
  end.

(** src/code/leetcode/subsets-2.cc:7-14 [Solution::subsetsWithDup] *)
Definition subsetsWithDup (S : list Z) : option (list (list Z)) :=
  let S := sort S in R (Datatypes.S (length S)) S 0 [] [].
End Subsets2.

(** ** triangle.cc and the triangles of Pascal: two rows that take turns *)

(** src/code/leetcode/triangle.cc:15-34 [dp[id], dp[1 - id]] *)
Record rows := mk_rows { now : list (option Z); next : list (option Z) }.

Module Triangle.

(** src/code/leetcode/triangle.cc:19-28 [Solution::minimumTotal (row)] *)
Definition cell (row : list Z) (i j : Z) (dp : rows) : option rows :=
  v ← (if j =? 0 then vget (now dp) j
       else if j =? i then vget (now dp) (j - 1)
       else a ← vget (now dp) j; b ← vget (now dp) (j - 1); Some (Z.min a b));
  t ← arr_get row j;
  v ← chk32 (v + t);
  nx ← vset (next dp) j v;
  Some (mk_rows (now dp) nx).

(** src/code/leetcode/triangle.cc:8-36 [Solution::minimumTotal] *)
Definition minimumTotal (triangle : list (list Z)) : option Z :=
  let n := size triangle in
  if n =? 0 then Some 0 else
  top ← arr_get triangle 0; t ← arr_get top 0;
  d ← vset (vla n) 0 t;
  dp ← for_ (upto 1 (n - 1)) (fun i dp =>
    row ← arr_get triangle i;
    dp ← for_ (upto 0 i) (cell row i) dp;
    Some (mk_rows (next dp) (now dp))) (mk_rows d (vla n));
  result ← vget (now dp) 0;
  for_ (upto 1 (n - 1)) (fun i result => v ← vget (now dp) i; Some (Z.min result v)) result.
End Triangle.

Module Pascal.

(** src/code/leetcode/pascal-triangle.cc:25-31 [Solution::generate (cell)]
    The same is in pascal-triangle-2.cc. *)
Definition cell (i j : Z) (dp : rows) : option (Z * rows) :=
  v ← (if j =? 0 then vget (now dp) j
       else if j =? i then vget (now dp) (j - 1)
       else a ← vget (now dp) j; b ← vget (now dp) (j - 1); chk32 (a + b));
  nx ← vset (next dp) j v;
  Some (v, mk_rows (now dp) nx).

(** src/code/leetcode/pascal-triangle.cc:23-36 [Solution::generate (row)] *)
Definition row (i : Z) (dp : rows) : option (list Z * rows) :=
  for_ (upto 0 i) (fun j '(vi, dp) => '(v, dp) ← cell i j dp; Some (vi ++ [v], dp)) ([], dp).

(** src/code/leetcode/pascal-triangle.cc:6-38 [Solution::generate]
    An array of a negative length is undefined. *)
Definition generate (numRows : Z) : option (list (list Z)) :=
  if numRows =? 0 then Some [] else
  if numRows <? 0 then None else
  d ← vset (vla numRows) 0 1;
  '(res, _) ← for_ (upto 1 (numRows - 1)) (fun i '(res, dp) =>
    '(vi, dp) ← row i dp;
    Some (res ++ [vi], mk_rows (next dp) (now dp))) ([[1]], mk_rows d (vla numRows));
  Some res.

(** src/code/leetcode/pascal-triangle-2.cc:6-34 [Solution::getRow] *)
Definition getRow (rowIndex : Z) : option (list Z) :=
  if rowIndex =? 0 then Some [1] else
  if rowIndex <? 0 then None else
  d ← vset (vla rowIndex) 0 1;
  dp ← for_ (upto 1 rowIndex) (fun i dp =>
    dp ← for_ (upto 0 i) (fun j dp => '(_, dp) ← cell i j dp; Some dp) dp;
    Some (mk_rows (next dp) (now dp))) (mk_rows d (vla rowIndex));
  for_ (upto 0 rowIndex) (fun i res => v ← vget (now dp) i; Some (res ++ [v])) [].
End Pascal.

(** ** Searching: theorems *)

Section Sorted.
Variable l : list Z.
Hypothesis Hl : sorted l.
Notation n := (size l).

Lemma bisect_spec fuel s e x u v :
  0 <= s -> e < n -> 0 <= u -> v <= e - s -> u <= v + 1 -> (Z.to_nat (v - u + 1) < fuel)%nat ->
  (forall k, s <= k < u + s -> at_ l k < x) -> (forall k, v + s < k <= e -> x < at_ l k) ->
  (exists k, bisect fuel l s x u v = Some (inl k) /\ s <= k <= e /\ at_ l k = x) \/
  (exists w, bisect fuel l s x u v = Some (inr w) /\ 0 <= w <= e - s + 1 /\
     (forall k, s <= k < w + s -> at_ l k < x) /\ (forall k, w + s <= k <= e -> x < at_ l k)).
Proof.
  revert u v. induction fuel as [|fuel IH]; intros u v Hs He Hu Hv Huv Hf Hlo Hhi; [lia|]. cbn [bisect].
  destruct (Z.leb_spec u v) as [Hle|Hgt].
  - rewrite Z.quot_div_nonneg by lia. set (m := (u + v) / 2).
    assert (u <= m <= v) as Hm.
    { unfold m. pose proof (Z.div_mod (u + v) 2 ltac:(lia)). pose proof (Z.mod_pos_bound (u + v) 2 ltac:(lia)). lia. }
    clearbody m. rewrite arr_get_at by lia. cbn [mbind option_bind].
    destruct (Z.eqb_spec (at_ l (m + s)) x) as [Ex|Ex].
    { left. exists (m + s). split_and!; [done|lia|lia|done]. }
    destruct (Z.ltb_spec x (at_ l (m + s))) as [Hlt|Hge]; apply IH; try lia; try done.
    + intros k Hk. destruct (decide (k <= v + s)) as [|]; [|apply Hhi; lia].
      pose proof (sorted_at l (m + s) k Hl ltac:(lia) ltac:(lia)). lia.
    + intros k Hk. pose proof (sorted_at l k (m + s) Hl ltac:(lia) ltac:(lia)). lia.
  - right. exists u. split; [done|]. split; [lia|]. split; [done|]. intros k Hk. apply Hhi. lia.
Qed.

Lemma bisect_all_spec s e x :
  0 <= s -> s <= e + 1 -> e < n ->
  (exists k, bisect_all l s e x = Some (inl k) /\ s <= k <= e /\ at_ l k = x) \/
  (exists w, bisect_all l s e x = Some (inr w) /\ 0 <= w <= e - s + 1 /\
     (forall k, s <= k < w + s -> at_ l k < x) /\ (forall k, w + s <= k <= e -> x < at_ l k)).
Proof. intros. apply (bisect_spec _ s e); lia. Qed.

(** The first and the last place of a number. *)
Definition first_from (f i : Z) : Prop := i = f \/ at_ l i <> at_ l (i - 1).
Definition last_of (j : Z) : Prop := j = n - 1 \/ at_ l j <> at_ l (j + 1).

Lemma first_exists f i : f <= i -> exists i', f <= i' <= i /\ at_ l i' = at_ l i /\ first_from f i'.
Proof.
  intros Hi. remember (Z.to_nat (i - f)) as k eqn:Ek. revert i Hi Ek. induction k as [|k IH]; intros i Hi Ek.
  - exists i. split_and!; [lia|lia|done|left; lia].
  - destruct (decide (at_ l i = at_ l (i - 1))) as [E|E].
    + destruct (IH (i - 1)) as (i' & ? & ? & ?); [lia..|]. exists i'. split_and!; [lia|lia|congruence|done].
    + exists i. split_and!; [lia|lia|done|by right].
Qed.

Lemma last_exists j : j < n -> exists j', j <= j' < n /\ at_ l j' = at_ l j /\ last_of j'.
Proof.
  intros Hj. remember (Z.to_nat (n - 1 - j)) as k eqn:Ek. revert j Hj Ek. induction k as [|k IH]; intros j Hj Ek.
  - exists j. split_and!; [lia|lia|done|left; lia].
  - destruct (decide (at_ l j = at_ l (j + 1))) as [E|E].
    + destruct (IH (j + 1)) as (j' & ? & ? & ?); [lia..|]. exists j'. split_and!; [lia|lia|congruence|done].
    + exists j. split_and!; [lia|lia|done|by right].
Qed.

(** Different first places, and different last ones, hold different numbers. *)
Lemma first_less f i i' : 0 <= f -> f <= i < i' -> i' < n -> first_from f i' -> at_ l i < at_ l i'.
Proof.
  intros Hf Hi Hi' [->|Hne]; [lia|].
  pose proof (sorted_at l i (i' - 1) Hl ltac:(lia) ltac:(lia)).
  pose proof (sorted_at l (i' - 1) i' Hl ltac:(lia) ltac:(lia)). lia.
Qed.

Lemma last_less j j' : 0 <= j < j' -> j' < n -> last_of j -> at_ l j < at_ l j'.
Proof.
  intros Hj Hj' [->|Hne]; [lia|].
  pose proof (sorted_at l j (j + 1) Hl ltac:(lia) ltac:(lia)).
  pose proof (sorted_at l (j + 1) j' Hl ltac:(lia) ltac:(lia)). lia.
Qed.

(** What [scan] is to find at the place [j], and up to [b]. *)
Definition hit (m c : Z) (row : Z -> Z -> list Z) (j : Z) (v : list Z) : Prop :=
  last_of j /\ v = row (c - at_ l j) (at_ l j) /\ exists k, m < k < j /\ at_ l k = c - at_ l j.
Definition found (m c : Z) (row : Z -> Z -> list Z) (b : Z) (v : list Z) : Prop :=
  exists j, m + 2 <= j <= b /\ hit m c row j v.

Lemma found_step m c row b v :
  m + 2 <= b -> found m c row b v <-> hit m c row b v \/ found m c row (b - 1) v.
Proof.
  intros Hb. split.
  - intros (j & Hj & Hh). destruct (decide (j = b)) as [->|]; [by left|]. right. exists j. split; [lia|done].
  - intros [Hh|(j & Hj & Hh)]; [exists b|exists j]; (split; [lia|done]).
Qed.

Lemma scan_spec m c stop rest skip row b res :
  0 <= m -> b < n ->
  (forall j, m < j < n -> stop (at_ l j) = false) ->
  (forall j, 0 <= j < n -> rest (at_ l j) = Some (c - at_ l j)) ->
  (forall z, z < at_ l m -> skip z = true) -> (forall z, at_ l m <= z -> skip z = false) ->
  (forall a d a' d', row a d = row a' d' -> d = d') ->
  exists new, scan l n m stop rest skip row (downto b (m + 2)) res = Some (res ++ new) /\ NoDup new /\
    forall v, v ∈ new <-> found m c row b v.
Proof.
  intros Hm Hb Hstop Hrest Hskip Hkeep Hrow.
  remember (Z.to_nat (b - (m + 2) + 1)) as k eqn:Ek. revert b res Hb Ek. induction k as [|k IH]; intros b res Hb Ek.
  { rewrite downto_nil by lia. exists []. cbn [scan]. rewrite app_nil_r. split; [done|]. split; [apply NoDup_nil_2|].
    intros v. split; [by intros ?%elem_of_nil|]. intros (j & ? & _). lia. }
  rewrite downto_cons by lia. cbn [scan]. rewrite (arr_get_at l b) by lia. cbn [mbind option_bind].
  assert (exists same : bool, (if b =? n - 1 then Some false else y ← arr_get l (b + 1); Some (at_ l b =? y)) = Some same /\
    (same = false <-> last_of b)) as (same & -> & Hsame).
  { unfold last_of. destruct (Z.eqb_spec b (n - 1)) as [->|Hne]; [exists false; split; [done|tauto]|].
    rewrite arr_get_at by lia. cbn [mbind option_bind]. eexists. split; [done|].
    destruct (Z.eqb_spec (at_ l b) (at_ l (b + 1))); split; try done; [intros [|]; lia|by right]. }
  cbn [mbind option_bind].
  (* nothing at [b] itself *)
  assert (forall r, (forall v, ~ hit m c row b v) ->
    r = scan l n m stop rest skip row (downto (b - 1) (m + 2)) res ->
    exists new, r = Some (res ++ new) /\ NoDup new /\ forall v, v ∈ new <-> found m c row b v) as Hnone.
  { intros r Hno ->. destruct (IH (b - 1) res) as (new & -> & Hnd & Hv); [lia..|]. exists new. split; [done|].
    split; [done|]. intros v. rewrite Hv, (found_step m c row b v) by lia. pose proof (Hno v). tauto. }
  destruct same; [apply Hnone; [intros v [Hlast _]; by apply Hsame in Hlast|done]|].
  rewrite Hstop, Hrest by lia. cbn [mbind option_bind].
  destruct (Z.ltb_spec (at_ l b) (c - at_ l b)) as [Hbig|Hfits].
  { (* from here down the third number is greater than the last *)
    exists []. rewrite app_nil_r. split; [done|]. split; [apply NoDup_nil_2|]. intros v.
    split; [by intros ?%elem_of_nil|]. intros (j & Hj & _ & _ & k' & Hk & Ek').
    pose proof (sorted_at l j b Hl ltac:(lia) ltac:(lia)). pose proof (sorted_at l k' j Hl ltac:(lia) ltac:(lia)). lia. }
  destruct (skip (c - at_ l b)) eqn:Esk.
  { apply Hnone; [|done]. intros v (_ & _ & k' & Hk & Ek').
    pose proof (sorted_at l m k' Hl ltac:(lia) ltac:(lia)). by rewrite Hkeep in Esk by lia. }
  destruct (bisect_all_spec (m + 1) (b - 1) (c - at_ l b)) as [(k' & -> & Hk & Ek')|(w & -> & Hw & Hlo & Hhi)]; [lia..| |].
  - cbn [mbind option_bind].
    destruct (IH (b - 1) (res ++ [row (c - at_ l b) (at_ l b)])) as (new & -> & Hnd & Hv); [lia..|].
    exists (row (c - at_ l b) (at_ l b) :: new). rewrite <- app_assoc. split; [done|]. split.
    + apply NoDup_cons. split; [|done]. intros (j & Hj & Hlast & Er & _)%Hv. apply Hrow in Er.
      pose proof (last_less j b ltac:(lia) ltac:(lia) Hlast). lia.
    + intros v. rewrite elem_of_cons, Hv, (found_step m c row b v) by lia. apply or_iff_compat_r. split.
      * intros ->. split; [by apply Hsame|]. split; [done|]. exists k'. split; [lia|done].
      * by intros (_ & -> & _).
  - cbn [mbind option_bind]. apply Hnone; [|done]. intros v (_ & _ & k' & Hk & Ek').
    destruct (decide (k' < w + (m + 1))); [pose proof (Hlo k' ltac:(lia))|pose proof (Hhi k' ltac:(lia))]; lia.
Qed.

(** The loop over the first places: one round for each different number. *)
Lemma lead_spec f b (Q : Z -> list Z -> Prop) (body : Z -> Z -> list (list Z) -> option (list (list Z))) res :
  0 <= f -> b < n ->
  (forall i res, f <= i <= b -> exists new, body i (at_ l i) res = Some (res ++ new) /\ NoDup new /\
     forall v, v ∈ new <-> Q i v) ->
  (forall i i' v, Q i v -> Q i' v -> at_ l i = at_ l i') ->
  exists new, for_ (upto f b) (fun i res =>
      xi ← arr_get l i;
      same ← (if i =? f then Some false else y ← arr_get l (i - 1); Some (xi =? y));
      if same : bool then Some res else body i xi res) res = Some (res ++ new) /\ NoDup new /\
    forall v, v ∈ new <-> exists i, f <= i <= b /\ first_from f i /\ Q i v.
Proof.
  intros Hf Hb Hbody HQ. destruct (decide (b < f)) as [Hbf|Hbf].
  { rewrite upto_nil by done. exists []. rewrite app_nil_r. split; [done|]. split; [apply NoDup_nil_2|].
    intros v. split; [by intros ?%elem_of_nil|]. intros (i & ? & _). lia. }
  destruct (for_upto (fun i r => exists new, r = res ++ new /\ NoDup new /\
      forall v, v ∈ new <-> exists i', f <= i' < i /\ first_from f i' /\ Q i' v) f b
    (fun i res =>
      xi ← arr_get l i;
      same ← (if i =? f then Some false else y ← arr_get l (i - 1); Some (xi =? y));
      if same : bool then Some res else body i xi res) res) as (r & E & new & -> & Hnd & Hv); [lia| | |].
  - exists []. rewrite app_nil_r. split; [done|]. split; [apply NoDup_nil_2|].
    intros v. split; [by intros ?%elem_of_nil|]. intros (i & ? & _). lia.
  - intros i ? Hi (new & -> & Hnd & Hv). rewrite (arr_get_at l i) by lia. cbn [mbind option_bind].
    assert (exists same : bool, (if i =? f then Some false else y ← arr_get l (i - 1); Some (at_ l i =? y)) = Some same /\
      (same = false <-> first_from f i)) as (same & -> & Hsame).
    { unfold first_from. destruct (Z.eqb_spec i f) as [->|Hne]; [exists false; split; [done|tauto]|].
      rewrite arr_get_at by lia. cbn [mbind option_bind]. eexists. split; [done|].
      destruct (Z.eqb_spec (at_ l i) (at_ l (i - 1))); split; try done; [intros [|]; lia|by right]. }
    cbn [mbind option_bind]. destruct same.
    + eexists. split; [done|]. exists new. split; [done|]. split; [done|]. intros v. rewrite Hv. split.
      * intros (i' & ? & ?). exists i'. split; [lia|done].
      * intros (i' & Hi' & Hfi & Hq). exists i'. split; [|done].
        destruct (decide (i' = i)) as [->|]; [by apply Hsame in Hfi|lia].
    + destruct (Hbody i (res ++ new) Hi) as (new2 & -> & Hnd2 & Hv2). eexists. split; [done|].
      exists (new ++ new2). rewrite <- app_assoc. split; [done|]. split.
      * apply NoDup_app. split; [done|]. split; [|done]. intros v (i' & Hi' & _ & Hq)%Hv Hq2%Hv2.
        pose proof (first_less f i' i Hf ltac:(lia) ltac:(lia) (proj1 Hsame eq_refl)).
        pose proof (HQ i' i v Hq Hq2). lia.
      * intros v. rewrite elem_of_app, Hv, Hv2. split.
        -- intros [(i' & ? & ?)|Hq]; [exists i'; split; [lia|done]|]. exists i. split; [lia|]. by rewrite <- Hsame.
        -- intros (i' & Hi' & Hfi & Hq). destruct (decide (i' = i)) as [->|]; [by right|].
           left. exists i'. split; [lia|done].
  - exists new. split; [done|]. split; [done|]. intros v. rewrite Hv. split; intros (i & ? & ?); exists i; (split; [lia|done]).
Qed.

(** The places of a sublist. *)
Lemma sublist_at x v f :
  0 <= f -> (x :: v) `sublist_of` drop (Z.to_nat f) l <->
  exists i, f <= i < n /\ at_ l i = x /\ v `sublist_of` drop (Z.to_nat (i + 1)) l.
Proof.
  intros Hf. rewrite sublist_cons_l. split.
  - intros (k1 & k2 & E & Hv). set (i := f + size k1).
    assert (l !! Z.to_nat i = Some x) as Hx.
    { replace (Z.to_nat i) with (Z.to_nat f + length k1)%nat by (unfold i; lia).
      rewrite <- lookup_drop, E, lookup_app_r, Nat.sub_diag by lia. done. }
    pose proof (lookup_lt_Some _ _ _ Hx). exists i. split; [lia|]. split.
    { unfold at_. by rewrite list_lookup_total_alt, Hx. }
    replace (drop (Z.to_nat (i + 1)) l) with k2; [done|].
    replace (Z.to_nat (i + 1)) with (Z.to_nat f + (length k1 + 1))%nat by (unfold i; lia).
    rewrite <- drop_drop, E, drop_app_add. done.
  - intros (i & Hi & <- & Hv). exists (take (Z.to_nat (i - f)) (drop (Z.to_nat f) l)), (drop (Z.to_nat (i + 1)) l).
    split; [|done]. rewrite <- (take_drop (Z.to_nat (i - f)) (drop (Z.to_nat f) l)) at 1. f_equal.
    rewrite drop_drop. replace (Z.to_nat f + Z.to_nat (i - f))%nat with (Z.to_nat i) by lia.
    pose proof (arr_get_at l i ltac:(lia)) as E. rewrite (arr_get_Some l) in E.
    rewrite (drop_S _ (at_ l i) (Z.to_nat i)) by (by destruct E). f_equal. f_equal. lia.
Qed.
End Sorted.

(** In a sorted list the sorted submultisets are the sublists. *)
Lemma sorted_sublist v l : sorted l -> sorted v -> v ⊆+ l <-> v `sublist_of` l.
Proof.
  intros Hl Hv. split; [|apply sublist_submseteq].
  revert v Hv. induction Hl as [|a l Hl IH Ha]; intros v Hv Hs.
  { apply submseteq_nil_r in Hs as ->. constructor. }
  destruct Hv as [|b v Hv Hb]; [apply sublist_nil_l|].
  destruct (decide (a = b)) as [->|Hne].
  { apply sublist_skip, IH; [done|]. apply submseteq_cons_l in Hs as (k & E & Hk).
    apply Permutation.Permutation_cons_inv in E. by rewrite E. }
  apply sublist_cons, IH; [by constructor|].
  assert (b ∈ a :: l) as Hin by (eapply elem_of_submseteq; [|done]; constructor).
  apply elem_of_cons in Hin as [->|Hin]; [done|]. pose proof (proj1 (Forall_forall _ _) Ha b Hin) as Hab. cbn in Hab.
  apply submseteq_cons_r in Hs as [Hs|(k & E & _)]; [done|].
  assert (a ∈ b :: v) as [->|Hina]%elem_of_cons by (rewrite E; constructor); [done|].
  pose proof (proj1 (Forall_forall _ _) Hb a Hina) as Hba. cbn in Hba. lia.
Qed.


(** ** two-sum.cc: theorems *)
Module TwoSumProps.
Import TwoSum.

Section Proof.
Variable num : list Z.
Variable target : Z.
Hypothesis Hnum : Forall (fun x => Z.abs x <= 1073741823) num.
Notation sum_at i j := (at_ num i + at_ num j).

Lemma partner_spec i k :
  0 <= i < size num -> i < k ->
  exists r, partner num target i (upto k (size num - 1)) = Some r /\
    match r with
    | Some v => exists j, k <= j < size num /\ v = [i + 1; j + 1] /\ sum_at i j = target
    | None => forall j, k <= j < size num -> sum_at i j <> target
    end.
Proof.
  intros Hi Hk. remember (Z.to_nat (size num - k)) as f eqn:Ef. revert k Hk Ef.
  induction f as [|f IH]; intros k Hk Ef.
  { rewrite upto_nil by lia. exists None. split; [done|]. intros j ?. lia. }
  rewrite upto_cons by lia. cbn [partner]. rewrite !arr_get_at by lia. cbn [mbind option_bind].
  pose proof (at_Forall _ num i Hnum ltac:(lia)) as H1. pose proof (at_Forall _ num k Hnum ltac:(lia)) as H2. cbv beta in H1, H2.
  rewrite chk32_ok by lia. cbn [mbind option_bind]. destruct (Z.eqb_spec (sum_at i k) target) as [E|E].
  - eexists. split; [done|]. exists k. split_and!; [lia..|done|done].
  - destruct (IH (k + 1)) as (r & -> & Hr); [lia..|]. exists r. split; [done|]. destruct r as [v|].
    + destruct Hr as (j & ? & ?). exists j. split; [lia|done].
    + intros j Hj. destruct (decide (j = k)) as [->|]; [done|apply Hr; lia].
Qed.

(** twoSum gives the places, counted from 1, of two numbers with the sum; if there
    are none it ends without a value. *)
Theorem twoSum_spec :
  match twoSum num target with
  | Some v => exists i j, 0 <= i < j /\ j < size num /\ v = [i + 1; j + 1] /\ sum_at i j = target
  | None => forall i j, 0 <= i < j -> j < size num -> sum_at i j <> target
  end.
Proof.
  unfold twoSum.
  assert (forall k, 0 <= k -> match pairs_from num target (upto k (size num - 1)) with
    | Some v => exists i j, k <= i < j /\ j < size num /\ v = [i + 1; j + 1] /\ sum_at i j = target
    | None => forall i j, k <= i < j -> j < size num -> sum_at i j <> target end) as H; [|by apply (H 0)].
  intros k Hk. remember (Z.to_nat (size num - k)) as f eqn:Ef. revert k Hk Ef.
  induction f as [|f IH]; intros k Hk Ef.
  { rewrite upto_nil by lia. intros i j ? ?. lia. }
  rewrite upto_cons by lia. cbn [pairs_from].
  destruct (partner_spec k (k + 1)) as (r & -> & Hr); [lia..|]. cbn [mbind option_bind]. destruct r as [v|].
  - destruct Hr as (j & ? & -> & ?). exists k, j. split_and!; [lia..|done|done].
  - specialize (IH (k + 1) ltac:(lia) ltac:(lia)). destruct (pairs_from _ _ _) as [v|].
    + destruct IH as (i & j & ? & ?). exists i, j. split; [lia|done].
    + intros i j Hij Hj. destruct (decide (i = k)) as [->|]; [apply Hr; lia|apply IH; lia].
Qed.
End Proof.

Lemma twoSum_small : twoSum [2; 7; 11; 15] 9 = Some [1; 2] /\ twoSum [2; 7] 10 = None.
Proof. split; reflexivity. Qed.
End TwoSumProps.

Notation total := (foldr Z.add 0).

(** ** three-sum.cc and four-sum.cc: theorems *)

Lemma sort_sorted num : sorted (sort num).
Proof. apply (StronglySorted_merge_sort Z.le). Qed.

Lemma sort_perm num : sort num ≡ₚ num.
Proof. apply merge_sort_Permutation. Qed.

Lemma total_perm l l' : l ≡ₚ l' -> total l = total l'.
Proof. induction 1; cbn; lia. Qed.

Lemma size_sort num : size (sort num) = size num.
Proof. by rewrite sort_perm. Qed.

Lemma sorted2 (a b : Z) v : sorted (a :: b :: v) <-> a <= b /\ sorted (b :: v).
Proof.
  split.
  - intros H. inversion H as [|? ? Hs Hf]; subst. by inversion Hf.
  - intros [Hab Hs]. constructor; [done|]. constructor; [done|]. inversion Hs as [|? ? _ Hf]; subst.
    eapply Forall_impl; [done|]. cbn. lia.
Qed.

(** The last number of a row: at the last of its places. *)
Lemma found_at l m c row v :
  sorted l -> 0 <= m -> found l m c row (size l - 1) v <->
  exists k j, m < k < j /\ j < size l /\ at_ l k + at_ l j = c /\ v = row (at_ l k) (at_ l j).
Proof.
  intros Hl Hm. split.
  - intros (j & Hj & _ & -> & k & Hk & Ek). exists k, j. rewrite Ek. split_and!; [lia..|done].
  - intros (k & j & Hk & Hj & Hc & ->).
    destruct (last_exists l j) as (j' & ? & Ej & Hlast); [done..|]. exists j'. split; [lia|]. split; [done|].
    rewrite Ej. replace (c - at_ l j) with (at_ l k) by lia. split; [done|]. exists k. split; [lia|done].
Qed.

Lemma sort_in (P : Z -> Prop) num : Forall P num -> forall i, 0 <= i < size num -> P (at_ (sort num) i).
Proof. intros HP i Hi. apply at_Forall; [by rewrite sort_perm|by rewrite size_sort]. Qed.

(** [v] at places of [l] that go up, from [f] on. *)
Fixpoint placed (l : list Z) (f : Z) (v : list Z) : Prop :=
  match v with
  | [] => True
  | x :: v => exists i, f <= i < size l /\ at_ l i = x /\ placed l (i + 1) v
  end.

Lemma placed_sublist l f v : 0 <= f -> placed l f v <-> v `sublist_of` drop (Z.to_nat f) l.
Proof.
  revert f. induction v as [|x v IH]; intros f Hf; cbn [placed]; [split; [intros _; apply sublist_nil_l|done]|].
  rewrite sublist_at by lia. split; intros (i & Hi & Ex & Hv); exists i; (split; [done|split; [done|]]); apply IH; (done || lia).
Qed.

(** What one can choose of a vector, in order. *)
Lemma placed_sort num v : sorted v /\ v ⊆+ num <-> placed (sort num) 0 v.
Proof.
  assert (v ⊆+ num <-> v ⊆+ sort num) as -> by (by rewrite (sort_perm num)).
  rewrite placed_sublist by lia. cbn [Z.to_nat]. rewrite drop_0.
  pose proof (sort_sorted num) as Hl. set (l := sort num) in *. clearbody l. split.
  - intros [Hs Hv]. by apply sorted_sublist.
  - intros Hv. split; [|by apply sublist_submseteq]. revert v Hv.
    induction Hl as [|a l Hl IH Ha]; intros v Hv; [apply sublist_nil_r in Hv as ->; constructor|].
    apply sublist_cons_r in Hv as [Hv|(v' & -> & Hv)]; [by apply IH|]. constructor; [by apply IH|].
    apply Forall_forall. intros x Hx. apply (proj1 (Forall_forall _ _) Ha). by eapply elem_of_sublist.
Qed.

Module ThreeSumProps.
Import ThreeSum.

(** threeSum gives each sorted triple one can choose of the vector with the sum 0,
    once; the sums of two must be ints. *)
Theorem threeSum_spec num :
  Forall (fun x => Z.abs x <= 1073741823) num ->
  exists res, threeSum num = Some res /\ NoDup res /\
    forall v, v ∈ res <-> (sorted v /\ v ⊆+ num) /\ length v = 3%nat /\ total v = 0.
Proof.
  intros HP. unfold threeSum. pose proof (sort_in _ num HP) as Hin. rewrite <- size_sort in Hin.
  pose proof (sort_sorted num) as Hl. pose proof (placed_sort num) as Hplaces. set (l := sort num) in *. cbn zeta.
  destruct (lead_spec l Hl 0 (size l - 3) (fun i v => found l i (- at_ l i) (fun a b => [at_ l i; a; b]) (size l - 1) v)
    (fun i xi res => inner l (size l) i xi res) []) as (res & -> & Hnd & Hv); [lia..| | |].
  - intros i res Hi. unfold inner. apply scan_spec; try done; try lia; try (intros; lia).
    + intros j Hj. apply Z.ltb_ge, sorted_at; [done|lia..].
    + intros j Hj. pose proof (Hin i ltac:(lia)). pose proof (Hin j ltac:(lia)). cbn in *.
      rewrite chk32_ok by lia. cbn [mbind option_bind]. rewrite chk32_ok by lia. f_equal. lia.
    + intros a d a' d'. by intros [= -> ->].
  - intros i i' v (? & _ & _ & -> & _) (? & _ & _ & E & _). by inversion E.
  - exists res. split; [done|]. split; [done|]. intros v. rewrite Hv, Hplaces. split.
    + intros (i & Hi & _ & (k & j & Hk & Hj & Hc & ->)%found_at); [|done|lia].
      split; [|cbn; split; [done|lia]]. exists i. split; [lia|]. split; [done|]. exists k. split; [lia|].
      split; [done|]. exists j. split; [lia|done].
    + intros (Hsub & Hlen & Ht). destruct v as [|a [|b [|c [|]]]]; try done.
      destruct Hsub as (i & Hi & <- & k & Hk & <- & j & Hj & <- & _).
      destruct (first_exists l 0 i) as (i' & Hi' & Ei & Hf); [lia|]. exists i'. split; [lia|]. split; [done|].
      apply found_at; [done|lia|]. rewrite Ei. exists k, j. split_and!; [lia..|cbn in Ht; lia|done].
Qed.

Lemma threeSum_witness :
  Forall (fun x => Z.abs x <= 1073741823) [-1; 0; 1; 2; -1; -4] /\
  threeSum [-1; 0; 1; 2; -1; -4] = Some [[-1; -1; 2]; [-1; 0; 1]] /\
  exists res, threeSum [-1; 0; 1; 2; -1; -4] = Some res /\ NoDup res /\
    forall v, v ∈ res <-> (sorted v /\ v ⊆+ [-1; 0; 1; 2; -1; -4]) /\ length v = 3%nat /\ total v = 0.
Proof.
  assert (Forall (fun x => Z.abs x <= 1073741823) [-1; 0; 1; 2; -1; -4]) as H by (repeat constructor; lia).
  split; [done|]. split; [by vm_compute|]. by apply threeSum_spec.
Defined.
End ThreeSumProps.

Module FourSumProps.
Import FourSum.

Section Proof.
Variable l : list Z.
Hypothesis Hl : sorted l.
Hypothesis Hin : forall i, 0 <= i < size l -> Z.abs (at_ l i) <= 500000000.
Variable target : Z.
Hypothesis Ht : Z.abs target <= 600000000.

Definition pairs (i k : Z) (v : list Z) : Prop :=
  found l k (target - at_ l i - at_ l k) (fun a b => [at_ l i; at_ l k; a; b]) (size l - 1) v.

Lemma last_two_spec i k res :
  0 <= i < k -> k < size l ->
  exists new, inner l (size l) target k (at_ l i) (at_ l k) res = Some (res ++ new) /\ NoDup new /\
    forall v, v ∈ new <-> pairs i k v.
Proof.
  intros Hi Hk. pose proof (sorted_at l i k Hl ltac:(lia) Hk). unfold inner, pairs.
  apply scan_spec; try done; try lia.
  - intros j Hj. pose proof (Hin i ltac:(lia)). pose proof (Hin j ltac:(lia)). pose proof (Hin k ltac:(lia)).
    rewrite chk32_ok by lia. cbn [mbind option_bind]. rewrite chk32_ok by lia. cbn [mbind option_bind].
    rewrite chk32_ok by lia. f_equal. lia.
  - intros a d a' d'. by intros [= -> ->].
Qed.

Lemma middle_spec i res :
  0 <= i < size l ->
  exists new, middle l (size l) target i (at_ l i) res = Some (res ++ new) /\ NoDup new /\
    forall v, v ∈ new <-> exists k, i + 1 <= k <= size l - 3 /\ first_from l (i + 1) k /\ pairs i k v.
Proof.
  intros Hi. apply (lead_spec l Hl (i + 1) (size l - 3) (pairs i)
    (fun k xk res => inner l (size l) target k (at_ l i) xk res)); [lia..| |].
  - intros k r Hk. apply last_two_spec; lia.
  - intros k k' v (? & _ & _ & -> & _) (? & _ & _ & E & _). by inversion E.
Qed.
End Proof.

(** fourSum gives each sorted quadruple one can choose of the vector with the sum
    [target], once; the sums on the way must be ints. *)
Theorem fourSum_spec num target :
  Forall (fun x => Z.abs x <= 500000000) num -> Z.abs target <= 600000000 ->
  exists res, fourSum num target = Some res /\ NoDup res /\
    forall v, v ∈ res <-> (sorted v /\ v ⊆+ num) /\ length v = 4%nat /\ total v = target.
Proof.
  intros HP Ht. unfold fourSum. pose proof (sort_in _ num HP) as Hin. rewrite <- size_sort in Hin.
  pose proof (sort_sorted num) as Hl. pose proof (placed_sort num) as Hplaces. set (l := sort num) in *. cbn zeta.
  destruct (lead_spec l Hl 0 (size l - 4)
    (fun i v => exists k, i + 1 <= k <= size l - 3 /\ first_from l (i + 1) k /\ pairs l target i k v)
    (fun i xi res => middle l (size l) target i xi res) []) as (res & -> & Hnd & Hv); [lia..| | |].
  - intros i res Hi. apply middle_spec; (done || lia).
  - intros i i' v (? & _ & _ & ? & _ & _ & -> & _) (? & _ & _ & ? & _ & _ & E & _). by inversion E.
  - exists res. split; [done|]. split; [done|]. intros v. rewrite Hv, Hplaces. split.
    + intros (i & Hi & _ & h & Hh & _ & (k & j & Hk & Hj & Hc & ->)%found_at); [|done|lia].
      split; [|cbn; split; [done|lia]]. exists i. split; [lia|]. split; [done|]. exists h. split; [lia|].
      split; [done|]. exists k. split; [lia|]. split; [done|]. exists j. split; [lia|done].
    + intros (Hsub & Hlen & Hs). destruct v as [|a [|b [|c [|d [|]]]]]; try done.
      destruct Hsub as (i & Hi & <- & h & Hh & <- & k & Hk & <- & j & Hj & <- & _).
      destruct (first_exists l 0 i) as (i' & Hi' & Ei & Hf); [lia|]. exists i'. split; [lia|]. split; [done|].
      destruct (first_exists l (i' + 1) h) as (h' & Hh' & Eh & Hfh); [lia|]. exists h'. split; [lia|]. split; [done|].
      unfold pairs. apply found_at; [done|lia|]. rewrite Ei, Eh. exists k, j.
      split_and!; [lia..|cbn in Hs; lia|done].
Qed.

Lemma fourSum_witness :
  Forall (fun x => Z.abs x <= 500000000) [1; 0; -1; 0; -2; 2] /\ Z.abs 0 <= 600000000 /\
  fourSum [1; 0; -1; 0; -2; 2] 0 = Some [[-2; -1; 1; 2]; [-2; 0; 0; 2]; [-1; 0; 0; 1]] /\
  exists res, fourSum [1; 0; -1; 0; -2; 2] 0 = Some res /\ NoDup res /\
    forall v, v ∈ res <-> (sorted v /\ v ⊆+ [1; 0; -1; 0; -2; 2]) /\ length v = 4%nat /\ total v = 0.
Proof.
  assert (Forall (fun x => Z.abs x <= 500000000) [1; 0; -1; 0; -2; 2]) as H by (repeat constructor; lia).
  split; [done|]. split; [lia|]. split; [by vm_compute|]. apply fourSum_spec; [done|lia].
Defined.
End FourSumProps.

(** ** three-sum-closest.cc: theorems *)
Module ClosestProps.
Import Closest.

(** The offset nearest to 0 among those with [P]. *)
Definition best (P : Z -> Prop) (res : option Z) : Prop :=
  match res with
  | None => forall c, ~ P c
  | Some r => P r /\ Z.abs r <= 2147483647 /\ forall c, P c -> Z.abs r <= Z.abs c
  end.

Lemma best_iff P Q res : (forall c, P c <-> Q c) -> best P res -> best Q res.
Proof.
  intros H. destruct res as [r|]; cbn; [intros (? & ? & Hm)|intros Hn c]; [|rewrite <- H; apply Hn].
  split_and!; [by apply H|done|]. intros c Hc. by apply Hm, H.
Qed.

(** The step both loops take with an offset [d]: the first [e] tells whether it is
    nearer. *)
Lemma nearer_step P res d (e : option bool) :
  best P res -> Z.abs d <= 2147483647 ->
  match res with None => e = Some true | Some r => e = Some (Z.abs d <? Z.abs r) end ->
  exists b : bool, e = Some b /\ best (fun c => P c \/ c = d) (if b then Some d else res).
Proof.
  destruct res as [r|]; cbn; intros H Hd ->; eexists; (split; [done|]).
  - destruct H as (Hr & Hi & Hm). destruct (Z.ltb_spec (Z.abs d) (Z.abs r)); cbn.
    + split; [by right|]. split; [done|]. intros c [Hc| ->]; [pose proof (Hm c Hc)|]; lia.
    + split; [by left|]. split; [done|]. intros c [Hc| ->]; [by apply Hm|lia].
  - split; [by right|]. split; [done|]. intros c [Hc| ->]; [by apply H in Hc|done].
Qed.

Section Proof.
Variable l : list Z.
Hypothesis Hl : sorted l.

Lemma offset_side P x p (inside : bool) res :
  best P res -> (inside = true -> 0 <= p < size l /\ Z.abs (at_ l p - x) <= 2147483647) ->
  exists res', side l x p inside res = Some res' /\
    best (fun c => P c \/ (inside = true /\ c = at_ l p - x)) res'.
Proof.
  intros HP Hin. unfold side. destruct inside; [|exists res; split; [done|]].
  - destruct (Hin eq_refl) as [Hp Hd]. rewrite arr_get_at by done. cbn [mbind option_bind].
    rewrite chk32_ok by lia. cbn [mbind option_bind].
    destruct (nearer_step P res (at_ l p - x) (match res with
              | None => Some true
              | Some r => b ← chk32 (Z.abs r); a ← chk32 (Z.abs (at_ l p - x)); Some (a <? b)
              end) HP Hd) as (b & -> & Hb).
    { destruct res as [r|]; [|done]. destruct HP as (_ & Hr & _).
      rewrite chk32_ok by lia. cbn [mbind option_bind]. by rewrite chk32_ok by lia. }
    eexists. split; [done|]. eapply best_iff; [|exact Hb]. intros c. cbn. tauto.
  - eapply best_iff; [|exact HP]. intros c. cbn. intuition done.
Qed.

(** C gives the offset of a number of the part that is nearest to [x]. *)
Lemma C_spec s e x :
  0 <= s <= e -> e < size l -> (forall k, s <= k <= e -> Z.abs (at_ l k - x) <= 2147483647) ->
  exists c, C l s e x = Some c /\ best (fun c => exists k, s <= k <= e /\ c = at_ l k - x) (Some c).
Proof.
  intros Hs He Hd. unfold C, B.
  assert (exists xp, (r ← bisect_all l s e x; Some (match r with inl k => k | inr u => u - 1 + s end)) = Some xp /\
    s - 1 <= xp <= e /\ forall k, s <= k <= e -> (k <= xp /\ at_ l xp <= x) \/ (xp + 1 <= k /\ x <= at_ l (xp + 1)) \/ at_ l xp = x /\ s <= xp)
    as (xp & -> & Hxp & Hk).
  { destruct (bisect_all_spec l Hl s e x) as [(k & -> & Hk & Ex)|(w & -> & Hw & Hlo & Hhi)]; [lia..| |];
      (eexists; split; [done|]; split; [lia|]; intros k' Hk').
    - right. right. split; [done|lia].
    - destruct (decide (k' <= w - 1 + s)).
      + left. split; [done|]. pose proof (Hlo (w - 1 + s) ltac:(lia)). lia.
      + right. left. split; [lia|]. pose proof (Hhi (w - 1 + s + 1) ltac:(lia)). lia. }
  cbn [mbind option_bind].
  destruct (offset_side (fun _ => False) x xp (s <=? xp) None) as (r1 & -> & H1); [by intros c []|intros E; split; [lia|apply Hd; lia]|].
  cbn [mbind option_bind].
  destruct (offset_side _ x (xp + 1) (xp + 1 <=? e) r1 H1) as (r2 & -> & H2); [intros E; split; [lia|apply Hd; lia]|].
  cbn [mbind option_bind].
  assert (forall k, s <= k <= e -> exists c, (((False \/ ((s <=? xp) = true /\ c = at_ l xp - x)) \/
    ((xp + 1 <=? e) = true /\ c = at_ l (xp + 1) - x)) /\ Z.abs c <= Z.abs (at_ l k - x))) as Hnear.
  { intros k Hke. destruct (Hk k Hke) as [[? ?]|[[? ?]|[? ?]]].
    - exists (at_ l xp - x). split; [left; right; split; [lia|done]|].
      pose proof (sorted_at l k xp Hl ltac:(lia) ltac:(lia)). lia.
    - exists (at_ l (xp + 1) - x). split; [right; split; [lia|done]|].
      pose proof (sorted_at l (xp + 1) k Hl ltac:(lia) ltac:(lia)). lia.
    - exists (at_ l xp - x). split; [left; right; split; [lia|done]|]. lia. }
  destruct r2 as [r|].
  - exists r. split; [done|]. destruct H2 as (Hr & Hi & Hm). cbn. split; [|split; [done|]].
    + destruct Hr as [[[]|[? ->]]|[? ->]]; [exists xp|exists (xp + 1)]; (split; [lia|done]).
    + intros c (k & Hke & ->). destruct (Hnear k Hke) as (c & Hc & Hle). pose proof (Hm c Hc). lia.
  - destruct (Hnear s ltac:(lia)) as (c & Hc & _). by apply H2 in Hc.
Qed.

Variable target : Z.
Hypothesis Hin : forall i, 0 <= i < size l -> Z.abs (at_ l i) <= 500000000.
Hypothesis Ht : Z.abs target <= 600000000.

Definition offset (i j c : Z) : Prop := exists k, i < k < j /\ c = at_ l i + at_ l k + at_ l j - target.

Lemma closest_inner_spec i P ks res :
  0 <= i -> (forall j, j ∈ ks -> i + 2 <= j < size l) -> best P res ->
  exists res', inner l target i (at_ l i) ks res = Some res' /\
    best (fun c => P c \/ exists j, j ∈ ks /\ offset i j c) res'.
Proof.
  intros Hi. revert P res. induction ks as [|j ks IH]; intros P res Hks HP; cbn [inner].
  { exists res. split; [done|]. eapply best_iff; [|exact HP]. intros c. split; [by left|].
    by intros [|(j & ?%elem_of_nil & _)]. }
  assert (i + 2 <= j < size l) as Hj by (apply Hks; constructor).
  pose proof (Hin i ltac:(lia)). pose proof (Hin j ltac:(lia)).
  rewrite (arr_get_at l j) by lia. cbn [mbind option_bind]. rewrite chk32_ok by lia. cbn [mbind option_bind].
  rewrite chk32_ok by lia. cbn [mbind option_bind].
  destruct (C_spec (i + 1) (j - 1) (target - at_ l i - at_ l j)) as (c & -> & (k & Hk & Ec) & Hci & Hcm); [lia..| |].
  { intros k Hk. pose proof (Hin k ltac:(lia)). lia. }
  cbn [mbind option_bind].
  destruct (nearer_step P res c (match res with
                | None => Some true
                | Some r => a ← chk32 (Z.abs r); b ← chk32 (Z.abs c); Some (b <? a)
                end) HP Hci) as (b & -> & Hb).
  { destruct res as [r|]; [|done]. destruct HP as (_ & Hr & _).
    rewrite chk32_ok by lia. cbn [mbind option_bind]. by rewrite chk32_ok by lia. }
  cbn [mbind option_bind].
  assert (best (fun c => P c \/ offset i j c) (if b then Some c else res)) as Hb2.
  { destruct (if b then Some c else res) as [r|]; [|by destruct (Hb c); right]. destruct Hb as (Hr & Hri & Hrm).
    split; [|split; [done|]].
    - destruct Hr as [|Hr]; [by left|]. right. exists k. split; [lia|]. rewrite Hr. lia.
    - intros c' [Hc'|(k' & Hk' & ->)]; [by apply Hrm; left|].
      pose proof (Hrm c (or_intror eq_refl)).
      assert (Z.abs c <= Z.abs (at_ l k' - (target - at_ l i - at_ l j))) by (apply Hcm; exists k'; split; [lia|done]).
      lia. }
  destruct (Z.eqb_spec c 0) as [E0|_].
  - eexists. split; [done|]. destruct (if b then Some c else res) as [r|]; [|by destruct (Hb c); right].
    destruct Hb2 as (Hr & Hri & Hrm). split; [|split; [done|]].
    + destruct Hr as [|]; [by left|]. right. exists j. split; [constructor|done].
    + intros c' _. destruct Hb as (_ & _ & Hz). pose proof (Hz c (or_intror eq_refl)). lia.
  - destruct (IH _ _ (fun j' Hj' => Hks j' (list_elem_of_further _ _ _ Hj')) Hb2) as (res' & -> & Hres).
    exists res'. split; [done|]. eapply best_iff; [|exact Hres]. intros c'. cbn. split.
    + intros [[|]|(j' & ? & ?)]; [by left|right; exists j|right; exists j']; (split; [|done]); by constructor.
    + intros [|(j' & [->|Hj']%elem_of_cons & Ho)]; [by left; left|by left; right|]. right. by exists j'.
Qed.
End Proof.

(** threeSumClosest gives the sum of three numbers of the vector, and no three
    have a sum that is nearer to [target]; the sums must be ints. *)
Theorem threeSumClosest_spec num target :
  3 <= size num -> Forall (fun x => Z.abs x <= 500000000) num -> Z.abs target <= 600000000 ->
  exists res, threeSumClosest num target = Some res /\
    (exists v, v ⊆+ num /\ length v = 3%nat /\ total v = res) /\
    forall v, v ⊆+ num -> length v = 3%nat -> Z.abs (res - target) <= Z.abs (total v - target).
Proof.
  intros Hn HP Ht. unfold threeSumClosest. pose proof (sort_in _ num HP) as Hin. rewrite <- size_sort in Hin.
  pose proof (sort_sorted num) as Hl. pose proof (placed_sort num) as Hplaces. rewrite <- size_sort in Hn.
  set (l := sort num) in *. cbn zeta.
  destruct (for_upto (fun i => best (fun c => exists i', 0 <= i' < i /\ exists j, i' + 2 <= j < size l /\ offset l target i' j c))
    0 (size l - 3) (fun i res => xi ← arr_get l i; inner l target i xi (downto (size l - 1) (i + 2)) res) None)
    as (res & -> & Hres); [lia|intros c (i & ? & _); lia| |].
  { intros i res Hi HPi. rewrite (arr_get_at l i) by lia. cbn [mbind option_bind].
    assert (forall j, j ∈ downto (size l - 1) (i + 2) <-> i + 2 <= j < size l) as Hdown.
    { intros j. unfold downto. rewrite list_elem_of_In, <- in_rev, <- list_elem_of_In, elem_of_seqZ. lia. }
    destruct (closest_inner_spec l Hl target Hin Ht i _ (downto (size l - 1) (i + 2)) res ltac:(lia)
      (fun j Hj => proj1 (Hdown j) Hj) HPi) as (res' & -> & Hr).
    exists res'. split; [done|]. eapply best_iff; [|exact Hr]. intros c. cbn. split.
    - intros [(i' & ? & ?)|(j & ?%Hdown & ?)]; [exists i'; split; [lia|done]|]. exists i. split; [lia|]. by exists j.
    - intros (i' & Hi' & j & Hj & Ho). destruct (decide (i' = i)) as [->|]; [right; exists j; by rewrite Hdown|].
      left. exists i'. split; [lia|]. by exists j. }
  cbn [mbind option_bind]. destruct res as [r|].
  - destruct Hres as ((i & Hi & j & Hj & k & Hk & ->) & _ & Hm). cbn [default].
    pose proof (Hin i ltac:(lia)). pose proof (Hin j ltac:(lia)). pose proof (Hin k ltac:(lia)). cbn in *.
    rewrite chk32_ok by lia. eexists. split; [done|]. split.
    + exists [at_ l i; at_ l k; at_ l j]. split; [|split; [done|cbn; lia]].
      apply Hplaces. exists i. split; [lia|]. split; [done|]. exists k. split; [lia|]. split; [done|].
      exists j. split; [lia|done].
    + intros v Hv Hlen.
      assert (sorted (sort v) /\ sort v ⊆+ num) as Hs%Hplaces by (split; [apply sort_sorted|by rewrite (sort_perm v)]).
      assert (total v = total (sort v)) as -> by (by apply total_perm; rewrite sort_perm).
      rewrite <- (sort_perm v) in Hlen.
      destruct (sort v) as [|a [|b [|c [|]]]]; try done. destruct Hs as (i' & Hi' & <- & k' & Hk' & <- & j' & Hj' & <- & _).
      assert (Z.abs (at_ l i + at_ l k + at_ l j - target) <= Z.abs (at_ l i' + at_ l k' + at_ l j' - target))
        by (apply Hm; exists i'; split; [lia|]; exists j'; split; [lia|]; exists k'; split; [lia|done]).
      cbn. lia.
  - destruct (Hres (at_ l 0 + at_ l 1 + at_ l 2 - target)). exists 0. split; [lia|]. exists 2. split; [lia|].
    exists 1. split; [lia|done].
Qed.

Lemma threeSumClosest_witness :
  3 <= size [-1; 2; 1; -4] /\ Forall (fun x => Z.abs x <= 500000000) [-1; 2; 1; -4] /\ Z.abs 1 <= 600000000 /\
  threeSumClosest [-1; 2; 1; -4] 1 = Some 2 /\
  exists res, threeSumClosest [-1; 2; 1; -4] 1 = Some res /\
    (exists v, v ⊆+ [-1; 2; 1; -4] /\ length v = 3%nat /\ total v = res) /\
    forall v, v ⊆+ [-1; 2; 1; -4] -> length v = 3%nat -> Z.abs (res - 1) <= Z.abs (total v - 1).
Proof.
  assert (Forall (fun x => Z.abs x <= 500000000) [-1; 2; 1; -4]) as H by (repeat constructor; lia).
  split; [cbn; lia|]. split; [done|]. split; [lia|]. split; [by vm_compute|].
  apply threeSumClosest_spec; [cbn; lia|done|lia].
Defined.

(** With fewer than three numbers it gives a sum that no choice has: the value
    -1 a result starts with, added to [target]. *)
Lemma threeSumClosest_few num target :
  size num < 3 -> -2147483647 <= target <= 2147483647 -> threeSumClosest num target = Some (target - 1).
Proof.
  intros Hn Ht. unfold threeSumClosest. rewrite size_sort, upto_nil by lia. cbn [for_ mbind option_bind default].
  rewrite chk32_ok by lia. f_equal. lia.
Qed.
End ClosestProps.

(** ** subsets-2.cc: theorems *)
Module Subsets2Props.
Import Subsets2.

Section Proof.
Variable l : list Z.
Hypothesis Hl : sorted l.

Lemma run_end_spec fuel x e :
  0 <= e <= size l -> (Z.to_nat (size l - e) < fuel)%nat ->
  exists e', run_end fuel l x e = Some e' /\ e <= e' <= size l /\
    (forall k, e <= k < e' -> at_ l k = x) /\ (e' = size l \/ at_ l e' <> x).
Proof.
  revert e. induction fuel as [|fuel IH]; intros e He Hf; [lia|]. cbn [run_end].
  destruct (Z.ltb_spec e (size l)) as [Hlt|Hge].
  - rewrite arr_get_at by lia. cbn [mbind option_bind]. destruct (Z.eqb_spec (at_ l e) x) as [Ex|Ex].
    + destruct (IH (e + 1)) as (e' & -> & Hr & Hk & Hend); [lia..|]. exists e'. split; [done|]. split; [lia|].
      split; [|done]. intros k ?. destruct (decide (k = e)) as [->|]; [done|apply Hk; lia].
    + exists e. split_and!; [done|lia..|by right].
  - exists e. split_and!; [done|lia..|left; lia].
Qed.

Lemma drop_run idx e x :
  0 <= idx <= e -> e <= size l -> (forall k, idx <= k < e -> at_ l k = x) ->
  drop (Z.to_nat idx) l = replicate (Z.to_nat (e - idx)) x ++ drop (Z.to_nat e) l.
Proof.
  intros Hi He. remember (Z.to_nat (e - idx)) as k eqn:Ek. revert idx Hi Ek.
  induction k as [|k IH]; intros idx Hi Ek Hx; [by replace e with idx by lia|].
  pose proof (arr_get_at l idx ltac:(lia)) as E. rewrite (arr_get_Some l) in E.
  rewrite (drop_S _ (at_ l idx) (Z.to_nat idx)) by (by destruct E). rewrite Hx by lia. cbn. f_equal.
  rewrite <- (IH (idx + 1)); [f_equal; lia|lia|lia|]. intros j ?. apply Hx. lia.
Qed.

(** A sublist of a run and of what follows, where the number does not occur. *)
Lemma sublist_run c x (v r : list Z) :
  x ∉ r -> v `sublist_of` replicate c x ++ r <->
  exists i w, (i <= c)%nat /\ v = replicate i x ++ w /\ w `sublist_of` r.
Proof.
  intros Hx. rewrite sublist_app_r. split.
  - intros (k1 & k2 & -> & H1 & H2). exists (length k1), k2. split; [|split; [|done]].
    + apply sublist_length in H1. by rewrite length_replicate in H1.
    + f_equal. symmetry. apply replicate_as_elem_of. split; [done|]. intros y Hy. eapply elem_of_sublist in Hy; [|done].
      by apply elem_of_replicate in Hy as [-> _].
  - intros (i & w & Hi & -> & Hw). exists (replicate i x), w. split; [done|]. split; [|done].
    replace c with (i + (c - i))%nat by lia. rewrite replicate_add. by apply sublist_inserts_r.
Qed.

Lemma run_unique i j x (w w' : list Z) :
  x ∉ w -> x ∉ w' -> replicate i x ++ w = replicate j x ++ w' -> i = j.
Proof.
  intros Hw Hw'. revert j. induction i as [|i IH]; intros [|j]; cbn; [done|..].
  - intros ->. destruct Hw. constructor.
  - intros <-. destruct Hw'. constructor.
  - intros [= E]. f_equal. by apply IH.
Qed.

(** What [R] adds from the place [idx] on: [vi] and a choice of the numbers left. *)
Lemma choices_spec fuel idx vi res :
  0 <= idx <= size l -> (Z.to_nat (size l - idx) < fuel)%nat ->
  exists new, R fuel l idx vi res = Some (res ++ new) /\ NoDup new /\
    forall v, v ∈ new <-> exists w, v = vi ++ w /\ w `sublist_of` drop (Z.to_nat idx) l.
Proof.
  revert idx vi res. induction fuel as [|fuel IH]; intros idx vi res Hi Hf; [lia|]. cbn [R].
  destruct (Z.eqb_spec idx (size l)) as [->|Hne].
  { exists [vi]. split; [done|]. split; [apply NoDup_singleton|]. intros v.
    rewrite list_elem_of_singleton, Nat2Z.id, drop_all. split.
    - intros ->. exists []. by rewrite app_nil_r.
    - intros (w & -> & ->%sublist_nil_r). by rewrite app_nil_r. }
  rewrite (arr_get_at l idx) by lia. cbn [mbind option_bind]. set (x := at_ l idx).
  destruct (run_end_spec (Datatypes.S (length l)) x idx) as (e & -> & He & Hrun & Hend); [lia..|].
  cbn [mbind option_bind].
  assert (idx < e) as Hlt. { destruct (decide (e = idx)) as [->|]; [destruct Hend; [lia|by subst x]|lia]. }
  assert (x ∉ drop (Z.to_nat e) l) as Hx.
  { intros (k & Hk)%list_elem_of_lookup_1. rewrite lookup_drop in Hk. pose proof (lookup_lt_Some _ _ _ Hk).
    assert (at_ l (e + Z.of_nat k) = x) as Ek.
    { unfold at_. rewrite list_lookup_total_alt. replace (Z.to_nat (e + Z.of_nat k)) with (Z.to_nat e + k)%nat by lia. by rewrite Hk. }
    destruct Hend as [|Hd]; [lia|]. pose proof (sorted_at l idx e Hl ltac:(lia) ltac:(lia)).
    pose proof (sorted_at l e (e + Z.of_nat k) Hl ltac:(lia) ltac:(lia)). lia. }
  set (adds i v := exists j w, (j <= i)%nat /\ v = vi ++ replicate j x ++ w /\ w `sublist_of` drop (Z.to_nat e) l).
  destruct (IH e vi res) as (new & -> & Hnd & Hv); [lia..|]. cbn [mbind option_bind].
  destruct (for_upto (fun i '(v, r) => v = vi ++ replicate (Z.to_nat i) x /\
      exists new, r = res ++ new /\ NoDup new /\ forall v, v ∈ new <-> adds (Z.to_nat i) v) 0 (e - idx - 1)
    (fun _ '(vi, res) => res ← R fuel l e (vi ++ [x]) res; Some (vi ++ [x], res)) (vi, res ++ new))
    as ([vi' r'] & E & -> & new' & -> & Hnd' & Hv'); [lia| | |].
  { split; [by rewrite app_nil_r|]. exists new. split; [done|]. split; [done|]. intros v. rewrite Hv. split.
    - intros (w & -> & Hw). by exists 0%nat, w.
    - intros (j & w & Hj & -> & Hw). exists w. replace j with 0%nat by lia. done. }
  { intros i [? ?] Hi' (-> & new1 & -> & Hnd1 & Hv1).
    destruct (IH e ((vi ++ replicate (Z.to_nat i) x) ++ [x]) (res ++ new1)) as (new2 & -> & Hnd2 & Hv2); [lia..|].
    cbn [mbind option_bind]. eexists. split; [done|].
    replace (Z.to_nat (i + 1)) with (Datatypes.S (Z.to_nat i)) by lia.
    assert (forall w, ((vi ++ replicate (Z.to_nat i) x) ++ [x]) ++ w = vi ++ replicate (Datatypes.S (Z.to_nat i)) x ++ w) as Ew.
    { intros w. by rewrite <- (app_nil_r (replicate (Datatypes.S _) x)), replicate_S_end, <- !app_assoc. }
    split; [specialize (Ew []); by rewrite !app_nil_r in Ew|]. exists (new1 ++ new2). rewrite <- app_assoc. split; [done|]. split.
    - apply NoDup_app. split; [done|]. split; [|done]. intros v (j & w & Hj & -> & Hw)%Hv1 (w' & Eq & Hw')%Hv2.
      rewrite Ew in Eq. apply app_inv_head, run_unique in Eq; [lia|..]; (intros Hin; eapply elem_of_sublist in Hin; done).
    - intros v. rewrite elem_of_app, Hv1, Hv2. split.
      + intros [(j & w & Hj & Hjw)|(w & -> & Hw)]; [exists j, w; split; [lia|done]|]. by exists (Datatypes.S (Z.to_nat i)), w.
      + intros (j & w & Hj & -> & Hw). destruct (decide (j = Datatypes.S (Z.to_nat i))) as [->|].
        * right. by exists w.
        * left. exists j, w. split; [lia|done]. }
  rewrite E. cbn [mbind option_bind]. exists new'. split; [done|]. split; [done|]. intros v. rewrite Hv'. unfold adds.
  rewrite (drop_run idx e x) by (done || lia).
  split.
  - intros (j & w & Hj & -> & Hw). exists (replicate j x ++ w). split; [done|]. apply sublist_run; [done|].
    exists j, w. split; [lia|done].
  - intros (u & -> & (j & w & Hj & -> & Hw)%sublist_run); [|done]. exists j, w. split; [lia|done].
Qed.
End Proof.

(** subsetsWithDup gives each sorted choice of the vector's numbers once. *)
Theorem subsetsWithDup_spec S :
  exists res, subsetsWithDup S = Some res /\ NoDup res /\ forall v, v ∈ res <-> sorted v /\ v ⊆+ S.
Proof.
  unfold subsetsWithDup. cbn zeta.
  destruct (choices_spec (sort S) (sort_sorted S) (Datatypes.S (length (sort S))) 0 [] []) as (res & -> & Hnd & Hv); [lia..|].
  exists res. split; [done|]. split; [done|]. intros v. rewrite Hv, placed_sort, placed_sublist by lia. split.
  - by intros (w & -> & Hw).
  - intros Hw. by exists v.
Qed.

Lemma subsetsWithDup_122 : subsetsWithDup [2; 1; 2] = Some [[]; [2]; [2; 2]; [1]; [1; 2]; [1; 2; 2]].
Proof. reflexivity. Qed.
End Subsets2Props.

(** ** triangle.cc: theorems *)
Module TriangleProps.
Import Triangle.

(** [m] is the least of the values [P] holds of. *)
Definition is_min (P : Z -> Prop) (m : Z) : Prop := P m /\ forall x, P x -> m <= x.

Section Proof.
Variable T : list (list Z).

Definition entry (i j x : Z) : Prop := exists row, arr_get T i = Some row /\ arr_get row j = Some x.

(** The sums of the paths from the top to the place [j] of the row [i]. *)
Inductive path : Z -> Z -> Z -> Prop :=
| path_top x : entry 0 0 x -> path 0 0 x
| path_down i j j' s x :
    path i j s -> j' = j \/ j' = j + 1 -> entry (i + 1) j' x -> path (i + 1) j' (s + x).

Lemma path_bounds i j s : path i j s -> 0 <= j <= i.
Proof. induction 1; lia. Qed.

Lemma path_succ i j s :
  0 <= i -> path (i + 1) j s <->
  exists j' s' x, path i j' s' /\ (j = j' \/ j = j' + 1) /\ entry (i + 1) j x /\ s = s' + x.
Proof.
  intros Hi. split.
  - inversion 1 as [|i0 j0 ? s0 x Hp Hj He]; subst; [lia|]. replace i0 with i in * by lia. by exists j0, s0, x.
  - intros (j' & s' & x & Hp & Hj & He & ->). by eapply path_down.
Qed.

Variable B : Z.
Hypothesis HB : 0 <= B /\ size T * B <= 2147483647.
Hypothesis HT : forall i, 0 <= i < size T -> exists row, arr_get T i = Some row /\ i < size row /\ Forall (fun x => Z.abs x <= B) row.

(** [now] holds the least sums of the row [i]. *)
Definition least (i : Z) (d : list (option Z)) : Prop :=
  forall j, 0 <= j <= i -> exists v, vget d j = Some v /\ is_min (path i j) v /\ Z.abs v <= (i + 1) * B.

Lemma least_cell i row dp j :
  0 <= i -> i + 1 < size T -> least i (now dp) -> arr_get T (i + 1) = Some row -> i + 1 < size row ->
  Forall (fun x => Z.abs x <= B) row -> 0 <= j <= i + 1 -> j < size (next dp) ->
  exists v, cell row (i + 1) j dp = Some (mk_rows (now dp) (<[Z.to_nat j := Some v]> (next dp))) /\
    is_min (path (i + 1) j) v /\ Z.abs v <= (i + 1 + 1) * B.
Proof.
  intros Hi Hn Hleast Hrow Hsize HF Hj Hnext. unfold cell.
  pose proof (at_Forall _ row j HF ltac:(lia)) as Hx. cbn in Hx. set (x := at_ row j) in *.
  assert (entry (i + 1) j x) as He by (exists row; split; [done|]; apply arr_get_at; lia).
  assert (forall y, entry (i + 1) j y -> y = x) as Hey.
  { intros y (r & Er & Ey). destruct He as (r' & Er' & Ex). congruence. }
  assert (exists v, (if j =? 0 then vget (now dp) j else if j =? i + 1 then vget (now dp) (j - 1)
       else a ← vget (now dp) j; b ← vget (now dp) (j - 1); Some (Z.min a b)) = Some v /\ Z.abs v <= (i + 1) * B /\
       is_min (fun s => exists j', path i j' s /\ (j = j' \/ j = j' + 1)) v) as (v & -> & Hv & (j' & Hp & Hj') & Hm).
  { destruct (Z.eqb_spec j 0) as [->|H0]; [|destruct (Z.eqb_spec j (i + 1)) as [->|H1]].
    - destruct (Hleast 0) as (v & -> & (Hp & Hm) & Hv); [lia|]. exists v. split; [done|]. split; [done|]. split.
      + exists 0. split; [done|by left].
      + intros s (j' & Hs & Hj'). pose proof (path_bounds _ _ _ Hs). apply Hm. by replace 0 with j' by lia.
    - destruct (Hleast i) as (v & E & (Hp & Hm) & Hv); [lia|]. replace (i + 1 - 1) with i by lia. rewrite E.
      exists v. split; [done|]. split; [done|]. split.
      + exists i. split; [done|by right].
      + intros s (j' & Hs & Hj'). pose proof (path_bounds _ _ _ Hs). apply Hm. by replace i with j' at 2 by lia.
    - destruct (Hleast j) as (a & -> & (Ha & Hma) & Hva); [lia|].
      destruct (Hleast (j - 1)) as (b & -> & (Hb & Hmb) & Hvb); [lia|]. exists (Z.min a b). split; [done|].
      split; [lia|]. split.
      + destruct (Z.min_spec a b) as [[_ ->]|[_ ->]]; [exists j|exists (j - 1)]; (split; [done|lia]).
      + intros s (j' & Hs & [->| ->]); [pose proof (Hma s Hs); lia|].
        replace (j' + 1 - 1) with j' in Hmb by lia. pose proof (Hmb s Hs). lia. }
  cbn [mbind option_bind]. rewrite (arr_get_at row j) by lia. cbn [mbind option_bind]. fold x.
  assert (Z.abs (v + x) <= (i + 1 + 1) * B) as Hb by lia.
  assert ((i + 1 + 1) * B <= size T * B) by nia.
  rewrite chk32_ok by lia. cbn [mbind option_bind]. rewrite vset_in by lia. cbn [mbind option_bind].
  exists (v + x). split; [done|]. split; [|done]. split.
  - apply path_succ; [done|]. by exists j', v, x.
  - intros s (j2 & s2 & y & Hs2 & Hj2 & ->%Hey & ->)%path_succ; [|done].
    pose proof (Hm s2 (ex_intro _ j2 (conj Hs2 Hj2))). lia.
Qed.

Lemma least_row i dp row :
  0 <= i -> i + 1 < size T -> least i (now dp) -> arr_get T (i + 1) = Some row -> i + 1 < size row ->
  Forall (fun x => Z.abs x <= B) row -> i + 1 < size (next dp) ->
  exists d, for_ (upto 0 (i + 1)) (cell row (i + 1)) dp = Some (mk_rows (now dp) d) /\
    size d = size (next dp) /\ least (i + 1) d.
Proof.
  intros Hi Hn Hleast Hrow Hsize HF Hnext.
  destruct (for_upto (fun j dp' => now dp' = now dp /\ size (next dp') = size (next dp) /\
      forall k, 0 <= k < j -> exists v, vget (next dp') k = Some v /\ is_min (path (i + 1) k) v /\ Z.abs v <= (i + 1 + 1) * B)
    0 (i + 1) (cell row (i + 1)) dp) as ([nw d] & -> & Hnow & Hd & Hall); [lia| | |].
  - split; [done|]. split; [done|]. intros k ?. lia.
  - intros j dp' Hj (Hnow & Hd & Hall).
    destruct (least_cell i row dp' j) as (v & -> & Hv); try done; [by rewrite Hnow|lia|].
    eexists. split; [done|]. cbn. split; [done|]. rewrite length_insert. split; [done|]. intros k Hk.
    rewrite vget_insert by lia. destruct (Z.eqb_spec k j) as [->|]; [by exists v|]. apply Hall. lia.
  - cbn in *. subst nw. exists d. split; [done|]. split; [done|]. intros k Hk. apply Hall. lia.
Qed.

(** The rows one after the other. *)
Lemma rows_spec x :
  0 < size T -> entry 0 0 x ->
  exists dp, for_ (upto 1 (size T - 1)) (fun i dp =>
    row ← arr_get T i;
    dp ← for_ (upto 0 i) (cell row i) dp;
    Some (mk_rows (next dp) (now dp)))
    (mk_rows (<[0%nat := Some x]> (vla (size T))) (vla (size T))) = Some dp /\ least (size T - 1) (now dp).
Proof.
  intros Hn He. assert (Z.abs x <= B) as Hx.
  { destruct He as (r & Er & Ex). destruct (HT 0) as (r' & Er' & _ & HF); [lia|]. simplify_eq.
    apply arr_get_Some in Ex as [_ Ex]. by eapply Forall_lookup_1 in HF. }
  destruct (for_upto (fun i dp => size (now dp) = size T /\ size (next dp) = size T /\ least (i - 1) (now dp))
    1 (size T - 1) (fun i dp =>
    row ← arr_get T i;
    dp ← for_ (upto 0 i) (cell row i) dp;
    Some (mk_rows (next dp) (now dp))) (mk_rows (<[0%nat := Some x]> (vla (size T))) (vla (size T))))
    as (dp & E & _ & _ & Hl); [lia| | |].
  - cbn [now next]. rewrite length_insert, length_replicate. split; [lia|]. split; [lia|]. intros j Hj.
    replace j with 0 by lia. exists x. split.
    + rewrite (vget_insert _ 0) by (rewrite ?length_replicate; lia). done.
    + split; [|lia]. split; [by apply path_top|]. intros y Hy. inversion Hy as [? Hey|i' j' j'' s' y' Hp']; subst.
      * destruct He as (? & ? & ?), Hey as (? & ? & ?). simplify_eq. done.
      * apply path_bounds in Hp'. lia.
  - intros i dp Hi (Hnow & Hnext & Hl). destruct (HT i) as (row & Er & Hs & HF); [lia|]. rewrite Er.
    cbn [mbind option_bind].
    destruct (least_row (i - 1) dp row) as (d & Ed & Hd & Hld); rewrite ?Z.sub_add in *; try done; try lia.
    rewrite Ed. cbn [mbind option_bind now next]. eexists. split; [done|]. cbn [now next].
    replace (i + 1 - 1) with i by lia. split; [lia|]. split; [lia|done].
  - exists dp. split; [done|]. by replace (size T - 1 + 1 - 1) with (size T - 1) in Hl by lia.
Qed.
End Proof.

(** minimumTotal gives the least sum of a path from the top to the last row; the
    sums must be ints. *)
Theorem minimumTotal_least T B :
  0 < size T -> 0 <= B /\ size T * B <= 2147483647 ->
  (forall i, 0 <= i < size T -> exists row, arr_get T i = Some row /\ i < size row /\ Forall (fun x => Z.abs x <= B) row) ->
  exists v, minimumTotal T = Some v /\ is_min (fun s => exists j, path T (size T - 1) j s) v.
Proof.
  intros Hn HB HT. unfold minimumTotal. cbn zeta. zfalse (size T =? 0).
  destruct (HT 0) as (top & Et & Hs & HF); [lia|]. rewrite Et. cbn [mbind option_bind].
  rewrite (arr_get_at top 0) by lia. cbn [mbind option_bind]. rewrite vset_in by (rewrite length_replicate; lia).
  cbn [mbind option_bind]. change (Z.to_nat 0) with 0%nat.
  destruct (rows_spec T B HB HT (at_ top 0) Hn) as (dp & -> & Hl).
  { exists top. split; [done|]. apply arr_get_at. lia. }
  cbn [mbind option_bind]. destruct (Hl 0) as (r & -> & (Hp & Hm) & _); [lia|]. cbn [mbind option_bind].
  destruct (for_upto (fun i r => is_min (fun s => exists j, 0 <= j < i /\ path T (size T - 1) j s) r) 1 (size T - 1)
    (fun i result => v ← vget (now dp) i; Some (Z.min result v)) r) as (v & -> & (j & Hj & Hv) & Hmin); [lia| | |].
  - split; [exists 0; split; [lia|done]|]. intros s (j & Hj & Hs'). apply Hm. by replace 0 with j by lia.
  - intros i r' Hi ((j & Hj & Hr) & Hmr). destruct (Hl i) as (v & -> & (Hpv & Hmv) & _); [lia|].
    cbn [mbind option_bind]. eexists. split; [done|]. split.
    + destruct (Z.min_spec r' v) as [[_ ->]|[_ ->]]; [exists j|exists i]; (split; [lia|done]).
    + intros s (j' & Hj' & Hs'). destruct (decide (j' = i)) as [->|]; [pose proof (Hmv s Hs'); lia|].
      assert (r' <= s) by (apply Hmr; exists j'; split; [lia|done]). lia.
  - exists v. split; [done|]. split; [by exists j|]. intros s (j' & Hs'). apply Hmin. exists j'. split; [|done].
    pose proof (path_bounds _ _ _ _ Hs'). lia.
Qed.

Lemma minimumTotal_witness :
  minimumTotal [[2]; [3; 4]; [6; 5; 7]; [4; 1; 8; 3]] = Some 11 /\
  exists v, minimumTotal [[2]; [3; 4]; [6; 5; 7]; [4; 1; 8; 3]] = Some v /\
    is_min (fun s => exists j, path [[2]; [3; 4]; [6; 5; 7]; [4; 1; 8; 3]] 3 j s) v.
Proof.
  split; [reflexivity|]. apply (minimumTotal_least [[2]; [3; 4]; [6; 5; 7]; [4; 1; 8; 3]] 8); [cbn; lia|cbn; lia|]. intros i Hi. cbn in Hi.
  assert (i = 0 \/ i = 1 \/ i = 2 \/ i = 3) as [->|[->|[->| ->]]] by lia;
    (eexists; split; [reflexivity|]; split; [cbn; lia|repeat constructor; lia]).
Defined.
End TriangleProps.

(** ** The triangle of Pascal: theorems *)
Module PascalProps.
Import Pascal.

(** The binomial coefficients. *)
Fixpoint binom (n k : nat) : Z :=
  match n, k with
  | _, O => 1
  | O, Datatypes.S _ => 0
  | Datatypes.S n, Datatypes.S k => binom n (Datatypes.S k) + binom n k
  end.
Notation C i j := (binom (Z.to_nat i) (Z.to_nat j)).
Notation line i := (map (fun j => C i j) (upto 0 i)).

Lemma binom_small n k : (n < k)%nat -> binom n k = 0.
Proof. revert k. induction n as [|n IH]; intros [|k] H; cbn; try lia. rewrite !IH by lia. done. Qed.

Lemma binom_succ i j : 0 <= i -> 1 <= j -> C (i + 1) j = C i j + C i (j - 1).
Proof.
  intros Hi Hj. replace (Z.to_nat (i + 1)) with (Datatypes.S (Z.to_nat i)) by lia.
  replace (Z.to_nat j) with (Datatypes.S (Z.to_nat (j - 1))) by lia. done.
Qed.

Lemma binom_0 i : C i 0 = 1.
Proof. by destruct (Z.to_nat i). Qed.

(** A row computed from the one before, to evaluate the coefficients. *)
Fixpoint below (a : Z) (r : list Z) : list Z :=
  match r with [] => [a] | b :: r => (a + b) :: below b r end.

Lemma nth_below a r k : nth (Datatypes.S k) (below a r) 0 = nth k r 0 + nth (Datatypes.S k) r 0.
Proof.
  revert a k. induction r as [|b r IH]; intros a k.
  - destruct k as [|[|k]]; reflexivity.
  - destruct k as [|k]; [|exact (IH b k)]. destruct r; cbn; lia.
Qed.

Fixpoint nth_row (n : nat) : list Z := match n with O => [1] | Datatypes.S n => below 0 (nth_row n) end.

Lemma binom_nth n k : binom n k = nth k (nth_row n) 0.
Proof.
  revert k. induction n as [|n IH]; intros [|k]; try (cbn [binom nth_row]); try done.
  - by destruct k.
  - pose proof (IH 0%nat) as H0. replace (binom n 0) with 1 in H0 by (by destruct n). rewrite H0. by destruct (nth_row n).
  - rewrite nth_below, !IH. lia.
Qed.

Lemma binom_int i j : 0 <= i <= 33 -> 0 <= j -> -2147483648 <= C i j <= 2147483647.
Proof.
  intros Hi Hj. rewrite binom_nth.
  assert (forallb (fun i => forallb (fun c => (-2147483648 <=? c) && (c <=? 2147483647)) (nth_row i)) (seq 0 34) = true)
    as H by (vm_compute; reflexivity).
  pose proof (forallb_seq _ _ H (Z.to_nat i) ltac:(lia)) as Hr. cbv beta in Hr. rewrite forallb_forall in Hr.
  set (r := nth_row _) in *. destruct (decide (Z.to_nat j < length r)%nat) as [Hlt|Hge].
  - pose proof (Hr _ (nth_In r 0 Hlt)). lia.
  - rewrite nth_overflow by lia. lia.
Qed.

Lemma map_upto {A} (f : Z -> A) i : 0 <= i -> map f (upto 0 i) = map f (upto 0 (i - 1)) ++ [f i].
Proof. intros. by rewrite (upto_snoc 0 i), map_app by lia. Qed.

(** [d] holds the row [i]. *)
Definition binoms (i : Z) (d : list (option Z)) : Prop := forall j, 0 <= j <= i -> vget d j = Some (C i j).

Lemma binom_cell i j dp :
  0 <= i < 33 -> binoms i (now dp) -> 0 <= j <= i + 1 -> j < size (next dp) ->
  cell (i + 1) j dp = Some (C (i + 1) j, mk_rows (now dp) (<[Z.to_nat j := Some (C (i + 1) j)]> (next dp))).
Proof.
  intros Hi Hb Hj Hn. unfold cell.
  assert ((if j =? 0 then vget (now dp) j else if j =? i + 1 then vget (now dp) (j - 1)
       else a ← vget (now dp) j; b ← vget (now dp) (j - 1); chk32 (a + b)) = Some (C (i + 1) j)) as ->.
  { destruct (Z.eqb_spec j 0) as [->|H0]; [by rewrite Hb, !binom_0 by lia|].
    rewrite binom_succ by lia. destruct (Z.eqb_spec j (i + 1)) as [->|H1].
    - rewrite Hb by lia. rewrite (binom_small _ (Z.to_nat (i + 1))) by lia. done.
    - rewrite !Hb by lia. cbn [mbind option_bind]. rewrite <- binom_succ by lia. apply chk32_ok, binom_int; lia. }
  cbn [mbind option_bind]. by rewrite vset_in by lia.
Qed.

Lemma binom_row i dp :
  0 <= i < 33 -> binoms i (now dp) -> i + 1 < size (next dp) ->
  exists d, row (i + 1) dp = Some (line (i + 1), mk_rows (now dp) d) /\ size d = size (next dp) /\ binoms (i + 1) d.
Proof.
  intros Hi Hb Hn. unfold row.
  destruct (for_upto (fun j '(vi, dp') => vi = map (fun j => C (i + 1) j) (upto 0 (j - 1)) /\ now dp' = now dp /\
      size (next dp') = size (next dp) /\ forall k, 0 <= k < j -> vget (next dp') k = Some (C (i + 1) k))
    0 (i + 1) (fun j '(vi, dp) => '(v, dp) ← cell (i + 1) j dp; Some (vi ++ [v], dp)) ([], dp))
    as ([vi [nw d]] & -> & -> & Hnow & Hd & Hall); [lia| | |].
  - split; [by rewrite upto_nil by lia|]. split; [done|]. split; [done|]. intros k ?. lia.
  - intros j [vi dp'] Hj (-> & Hnow & Hd & Hall). rewrite binom_cell by (rewrite ?Hnow; (done || lia)).
    cbn [mbind option_bind]. eexists. split; [done|]. cbn [now next]. rewrite length_insert.
    split; [rewrite Z.add_simpl_r; symmetry; apply (map_upto (fun j => C (i + 1) j)); lia|]. split; [done|]. split; [done|].
    intros k Hk. rewrite vget_insert by lia. destruct (Z.eqb_spec k j) as [->|]; [done|]. apply Hall. lia.
  - cbn in *. subst nw. exists d. rewrite Z.add_simpl_r. split; [done|]. split; [done|]. intros k Hk. apply Hall. lia.
Qed.

(** generate gives the rows of the triangle, up to the 34 that fit into ints. *)
Theorem generate_binom n :
  0 <= n <= 34 -> generate n = Some (map (fun i => line i) (upto 0 (n - 1))).
Proof.
  intros Hn. unfold generate. destruct (Z.eqb_spec n 0) as [->|H0]; [done|]. zfalse (n <? 0).
  rewrite vset_in by (rewrite length_replicate; lia). cbn [mbind option_bind].
  destruct (for_upto (fun i '(res, dp) => res = map (fun i => line i) (upto 0 (i - 1)) /\
      size (now dp) = n /\ size (next dp) = n /\ binoms (i - 1) (now dp)) 1 (n - 1)
    (fun i '(res, dp) => '(vi, dp) ← row i dp; Some (res ++ [vi], mk_rows (next dp) (now dp)))
    ([[1]], mk_rows (<[Z.to_nat 0 := Some 1]> (vla n)) (vla n))) as ([res dp] & -> & -> & _); [lia| | |].
  - cbn [now next]. rewrite length_insert, length_replicate. split; [done|]. split; [lia|]. split; [lia|].
    intros j Hj. replace j with 0 by lia. rewrite vget_insert by (rewrite ?length_replicate; lia). done.
  - intros i [res dp] Hi (-> & Hnow & Hnext & Hb).
    destruct (binom_row (i - 1) dp) as (d & Ed & Hd & Hbd); rewrite ?Z.sub_add in *; try done; try lia.
    rewrite Ed. cbn [mbind option_bind now next]. eexists. split; [done|]. cbn [now next].
    rewrite Z.add_simpl_r. split; [symmetry; apply (map_upto (fun i => line i)); lia|]. split; [lia|]. split; [lia|done].
  - cbn [mbind option_bind]. by rewrite Z.add_simpl_r.
Qed.

(** The row after them does not fit. *)
Lemma generate_35 : generate 35 = None.
Proof. vm_compute. reflexivity. Qed.

Lemma generate_5 : generate 5 = Some [[1]; [1; 1]; [1; 2; 1]; [1; 3; 3; 1]; [1; 4; 6; 4; 1]].
Proof. reflexivity. Qed.

Definition sized (n : Z) (dp : rows) : Prop := size (now dp) = n /\ size (next dp) = n.

Lemma cell_sized n i j dp v dp' : sized n dp -> cell i j dp = Some (v, dp') -> sized n dp'.
Proof.
  unfold cell. intros [H1 H2].
  destruct (if j =? 0 then _ else _) as [w|]; [|done]. cbn [mbind option_bind]. unfold vset, arr_set.
  case_bool; [|done]. cbn [mbind option_bind]. intros [= <- <-]. split; cbn [now next]; [done|by rewrite length_insert].
Qed.

Lemma cell_out n i dp : sized n dp -> 0 <= n -> cell i n dp = None.
Proof.
  unfold cell. intros [H1 H2] Hn. destruct (if n =? 0 then _ else _) as [w|]; [|done]. cbn [mbind option_bind].
  unfold vset, arr_set. by zfalse ((0 <=? n) && (n <? size (next dp))).
Qed.

(** getRow has arrays of [rowIndex] places for rows of one more: for every index
    but 0 it writes past the end. *)
Theorem getRow_undefined k : getRow k = if k =? 0 then Some [1] else None.
Proof.
  unfold getRow. destruct (Z.eqb_spec k 0) as [->|H0]; [done|]. case_bool; [done|]. apply Z.ltb_ge in E.
  rewrite vset_in by (rewrite length_replicate; lia). cbn [mbind option_bind].
  rewrite (upto_snoc 1 k), for_app by lia.
  destruct (for_ (upto 1 (k - 1)) _ _) as [dp|] eqn:Ed; [|done].
  assert (sized k dp) as Hdp.
  { eapply for_keeps; [| |exact Ed].
    - split; cbn [now next]; rewrite ?length_insert, length_replicate; lia.
    - intros i s s' _ Hs. cbv beta. destruct (for_ (upto 0 i) _ s) as [s1|] eqn:E1; [|done]. intros [= <-].
      enough (sized k s1) as [? ?] by done. eapply for_keeps; [exact Hs| |exact E1]. intros j t t' _ Ht. cbv beta.
      destruct (cell i j t) as [[v t2]|] eqn:Ec; [|done]. intros [= <-]. by eapply cell_sized. }
  cbn [mbind option_bind for_]. rewrite (upto_snoc 0 k), for_app by lia.
  destruct (for_ (upto 0 (k - 1)) _ dp) as [dp1|] eqn:E1; [|done]. cbn [mbind option_bind for_].
  rewrite cell_out; [done| |lia]. eapply for_keeps; [exact Hdp| |exact E1]. intros j t t' _ Ht. cbv beta.
  destruct (cell k j t) as [[v t2]|] eqn:Ec; [|done]. intros [= <-]. by eapply cell_sized.
Qed.
End PascalProps.
