(* ===== verification/Segments.v ===== *)
(** * Segments: exercises of src/code/leetcode on strings made of given words

    All the ways to split a string into words, the places where all the words of
    a list stand one after the other, and a count of subsequences. *)

From S2P Require Import Prelude Loops Words Texts Cuts.
From Stdlib Require Import Ascii.

Local Open Scope char_scope.
Local Open Scope Z_scope.

Local Notation str := (list ascii).

(** ** word-break-2.cc *)
Module WordBreak2.

(** [Solution1] has the text of word-break.cc. *)
(** src/code/leetcode/word-break-2.cc:25-27 [Solution1::getIndex] *)
Definition getIndex := WordBreak.getIndex.
(** src/code/leetcode/word-break-2.cc:28-53 [Solution1::wb] *)
Definition wb := WordBreak.wb.
(** src/code/leetcode/word-break-2.cc:12-24 [Solution1::wordBreak] *)
Definition wordBreak1 := WordBreak.wordBreak.

(** src/code/leetcode/word-break-2.cc:56-62 [Trie]
    Every node has one parent, so that a trie is a value. A null pointer in the
    map is read as no entry everywhere; [ch] is only printed. *)
Inductive trie := Trie (eof : bool) (subs : list (ascii * trie)).

Definition eof (p : trie) : bool := match p with Trie e _ => e end.
Definition subs (p : trie) : list (ascii * trie) := match p with Trie _ m => m end.

(** [p->sub[ch]], read and written. *)
Fixpoint assoc (m : list (ascii * trie)) (ch : ascii) : option trie :=
  match m with [] => None | (c, t) :: m => if (c =? ch)%char then Some t else assoc m ch end.
Fixpoint assign (m : list (ascii * trie)) (ch : ascii) (t : trie) : list (ascii * trie) :=
  match m with
  | [] => [(ch, t)]
  | (c, u) :: m => if (c =? ch)%char then (c, t) :: m else (c, u) :: assign m ch t
  end.

(** src/code/leetcode/word-break-2.cc:66-79 [Solution::buildTrie (string)]
    [s] is what is left of the string at [f]. *)
Fixpoint insert_word (p : trie) (s : str) : trie :=
  match s with
  | [] => Trie true (subs p)
  | ch :: s => Trie (eof p) (assign (subs p) ch (insert_word (default (Trie false []) (assoc (subs p) ch)) s))
  end.

(** src/code/leetcode/word-break-2.cc:80-84 [Solution::buildTrie (set)] *)
Definition buildTrie (p : trie) (dict : list str) : trie := foldl insert_word p dict.

(** src/code/leetcode/word-break-2.cc:103-112 [Solution::matchTrie (sentence)] *)
Fixpoint sentence (s : str) (x : Z) (idx : list Z) : str :=
  match idx with
  | [] => []
  | y :: idx => (if x =? 0 then [] else [" "%char]) ++ sub s x (y - 1) ++ sentence s y idx
  end.

(** src/code/leetcode/word-break-2.cc:116-129 [Solution::matchTrie (loop)]
    [rec] is the call with [saved]; [idx] is as before when it returns. *)
Fixpoint follow (rec : Z -> list Z -> list str -> option (list str)) (s : str) (p : trie) (ks : list Z) (idx : list Z)
    (vs : list str) : option (list str) :=
  match ks with
  | [] => Some vs
  | i :: ks =>
      ch ← arr_get s i;
      match assoc (subs p) ch with
      | None => Some vs
      | Some t =>
          vs ← (if eof t then rec (i + 1) (idx ++ [i + 1]) vs else Some vs);
          follow rec s t ks idx vs
      end
  end.

(** src/code/leetcode/word-break-2.cc:101-130 [Solution::matchTrie] *)
Fixpoint matchTrie (fuel : nat) (p : trie) (s : str) (f : Z) (idx : list Z) (vs : list str) : option (list str) :=
  match fuel with
  | O => None
  | S fuel =>
      let vs := if f =? size s then vs ++ [sentence s 0 idx] else vs in
      follow (matchTrie fuel p s) s p (upto f (size s - 1)) idx vs
  end.

(** src/code/leetcode/word-break-2.cc:138-152 [Solution::wordBreak] *)
Definition wordBreak (dict : list str) (s : str) : option (list str) :=
  x ← wordBreak1 dict s;
  if negb x then Some [] else
  matchTrie (S (length s)) (buildTrie (Trie false []) dict) s 0 [] [].
End WordBreak2.

(** ** word-break-2.cc: theorems *)
Module WordBreak2Props.
Import WordBreak2.

(** The words of a trie. *)
Fixpoint has (p : trie) (w : str) : bool :=
  match w with
  | [] => eof p
  | ch :: w => match assoc (subs p) ch with Some t => has t w | None => false end
  end.

Lemma assoc_assign m ch t c : assoc (assign m ch t) c = if (ch =? c)%char then Some t else assoc m c.
Proof.
  induction m as [|[c' u] m IH]; cbn [assign assoc]; [done|].
  destruct (Ascii.eqb_spec c' ch) as [->|Hne]; cbn [assoc]; [by destruct (ch =? c)%char|]. rewrite IH.
  destruct (Ascii.eqb_spec c' c) as [->|]; [|done]. by destruct (Ascii.eqb_spec ch c) as [->|].
Qed.

Lemma has_insert p s w : has (insert_word p s) w = bool_decide (w = s) || has p w.
Proof.
  revert p w. induction s as [|ch s IH]; intros p [|c w]; cbn [insert_word has eof subs]; [done|..].
  - by rewrite bool_decide_eq_false_2.
  - by rewrite bool_decide_eq_false_2.
  - rewrite assoc_assign. destruct (Ascii.eqb_spec ch c) as [->|Hne].
    + rewrite IH. rewrite (bool_decide_ext (c :: w = c :: s) (w = s)) by (split; [by intros [= ->]|by intros ->]).
      destruct (assoc (subs p) c); [done|]. cbn. f_equal. by destruct w.
    + rewrite bool_decide_eq_false_2 by congruence. done.
Qed.

Lemma has_build dict p w : has (buildTrie p dict) w = true <-> w ∈ dict \/ has p w = true.
Proof.
  unfold buildTrie. revert p. induction dict as [|s dict IH]; intros p; cbn [foldl].
  - split; [by right|]. by intros [?%elem_of_nil|].
  - rewrite IH, has_insert, orb_true_iff, bool_decide_eq_true, elem_of_cons. tauto.
Qed.

Lemma has_empty w : has (Trie false []) w = false.
Proof. by destruct w. Qed.

(** The words of a sentence, with spaces between them. *)
Definition join (ws : list str) : str :=
  match ws with [] => [] | w :: ws => w ++ concat (map (cons " "%char) ws) end.

(** Where the words end that start at [x]. *)
Fixpoint ends (x : Z) (ws : list str) : list Z :=
  match ws with [] => [] | w :: ws => (x + size w) :: ends (x + size w) ws end.

Lemma word_ends_app x us vs : ends x (us ++ vs) = ends x us ++ ends (x + size (concat us)) vs.
Proof.
  revert x. induction us as [|u us IH]; intros x; cbn [ends concat]; [cbn; by rewrite Z.add_0_r|].
  cbn [app ends]. rewrite IH, length_app. do 3 f_equal. lia.
Qed.

Lemma sentence_words s x ws :
  0 <= x -> drop (Z.to_nat x) s = concat ws -> Forall (fun w => w <> []) ws ->
  sentence s x (ends x ws) = if x =? 0 then join ws else concat (map (cons " "%char) ws).
Proof.
  intros Hx Hs Hw. revert x Hx Hs. induction Hw as [|w ws Hne Hw IH]; intros x Hx Hs; cbn [sentence ends]; [by case_bool|].
  cbn [concat] in Hs. assert (0 < size w) by (destruct w; [done|cbn; lia]).
  rewrite IH; [|lia|].
  - zfalse (x + size w =? 0).
    assert (sub s x (x + size w - 1) = w) as ->.
    { unfold sub. rewrite Hs. replace (Z.to_nat (x + size w - 1 - x + 1)) with (length w) by lia. by rewrite take_app_length. }
    case_bool; [done|]. cbn [map concat]. done.
  - replace (Z.to_nat (x + size w)) with (Z.to_nat x + length w)%nat by lia. rewrite <- drop_drop, Hs. by rewrite drop_app_length.
Qed.

Section Proof.
Variable dict : list str.
Variable s : str.
Notation root := (buildTrie (Trie false []) dict).

Lemma root_words w : has root w = true <-> w ∈ dict.
Proof. rewrite has_build, has_empty. split; [by intros [|]|by left]. Qed.

(** The ways to split what is left at [f]. *)
Definition splitting (f : Z) (ws : list str) : Prop :=
  Forall (fun w => w <> [] /\ w ∈ dict) ws /\ concat ws = drop (Z.to_nat f) s.

(** What a call adds: the sentences that begin with the words [before]. *)
Definition adds (f : Z) (call : list Z -> list str -> option (list str)) : Prop :=
  forall before vs, Forall (fun w => w <> []) before -> s = concat before ++ drop (Z.to_nat f) s -> f = size (concat before) ->
  exists wss, call (ends 0 before) vs = Some (vs ++ map (fun ws => join (before ++ ws)) wss) /\ NoDup wss /\
    forall ws, ws ∈ wss <-> splitting f ws.

Lemma follow_adds rec f i p u before vs :
  (forall i, f < i <= size s -> adds i (rec i)) ->
  0 <= f <= i -> i <= size s -> drop (Z.to_nat f) s = u ++ drop (Z.to_nat i) s -> size u = i - f ->
  (forall w, has root (u ++ w) = has p w) ->
  Forall (fun w => w <> []) before -> s = concat before ++ drop (Z.to_nat f) s -> f = size (concat before) ->
  exists wss, follow rec s p (upto i (size s - 1)) (ends 0 before) vs = Some (vs ++ map (fun ws => join (before ++ ws)) wss) /\
    NoDup wss /\ forall ws, ws ∈ wss <-> splitting f ws /\ exists w ws', ws = w :: ws' /\ i - f < size w.
Proof.
  intros Hrec Hf Hi Hu Hsz Hp Hb Hsb Hfb.
  remember (Z.to_nat (size s - i)) as k eqn:Ek. revert i p u vs Hf Hi Hu Hsz Hp Ek.
  induction k as [|k IH]; intros i p u vs Hf Hi Hu Hsz Hp Ek.
  { rewrite upto_nil by lia. exists []. cbn [follow map]. rewrite app_nil_r. split; [done|]. split; [apply NoDup_nil_2|].
    intros ws. split; [by intros ?%elem_of_nil|]. intros ([_ Hc] & w & ws' & -> & Hw). cbn [concat] in Hc.
    apply (f_equal length) in Hc. rewrite length_app, length_drop in Hc. lia. }
  rewrite upto_cons by lia. cbn [follow]. destruct (lookup_cases s i) as (ch & -> & Ed); [lia|]. cbn [mbind option_bind].
  rewrite Ed in Hu.
  (* a longer first word begins with [u] and [ch] *)
  assert (forall w ws', splitting f (w :: ws') -> i - f < size w -> exists v, w = u ++ ch :: v) as Hlong.
  { intros w ws' [_ Hc] Hw. cbn [concat] in Hc. rewrite Hu in Hc.
    exists (drop (length u + 1) w). rewrite <- (take_drop (length u + 1) w) at 1.
    assert (take (length u + 1) w = u ++ [ch]) as ->; [|by rewrite <- app_assoc].
    apply (f_equal (take (length u + 1))) in Hc. rewrite take_app_le in Hc by lia. rewrite Hc.
    replace (u ++ ch :: drop (Z.to_nat (i + 1)) s) with ((u ++ [ch]) ++ drop (Z.to_nat (i + 1)) s) by (by rewrite <- app_assoc).
    replace (length u + 1)%nat with (length (u ++ [ch])) by (by rewrite length_app). by rewrite take_app_length. }
  destruct (assoc (subs p) ch) as [t|] eqn:Et.
  2:{ exists []. cbn [map]. rewrite app_nil_r. split; [done|]. split; [apply NoDup_nil_2|].
      intros ws. split; [by intros ?%elem_of_nil|]. intros (Hws & w & ws' & -> & Hw). exfalso.
      destruct (Hlong w ws' Hws Hw) as [v ->]. destruct Hws as [Hws _]. inversion Hws as [|? ? [_ Hd] _]; subst.
      apply root_words in Hd. rewrite Hp in Hd. cbn [has] in Hd. by rewrite Et in Hd. }
  assert (forall w, has root ((u ++ [ch]) ++ w) = has t w) as Ht.
  { intros w. rewrite <- app_assoc, Hp. cbn [app has]. by rewrite Et. }
  assert (drop (Z.to_nat f) s = (u ++ [ch]) ++ drop (Z.to_nat (i + 1)) s) as Hu' by (by rewrite <- app_assoc).
  assert (size (u ++ [ch]) = i + 1 - f) as Hsz' by (rewrite length_app; cbn; lia).
  (* the sentences whose next word is [u] and [ch] *)
  assert (exists wss, (if eof t then rec (i + 1) (ends 0 before ++ [i + 1]) vs else Some vs) =
      Some (vs ++ map (fun ws => join (before ++ ws)) wss) /\ NoDup wss /\
      forall ws, ws ∈ wss <-> splitting f ws /\ exists ws', ws = (u ++ [ch]) :: ws') as (wss1 & -> & Hn1 & H1).
  { pose proof (Ht []) as Hend. rewrite app_nil_r in Hend. cbn [has] in Hend. destruct (eof t).
    - apply root_words in Hend. assert (u ++ [ch] <> []) as Hne by (by destruct u).
      destruct (Hrec (i + 1) ltac:(lia) (before ++ [u ++ [ch]]) vs) as (wss & E & Hn & H).
      + apply Forall_app. split; [done|]. by apply Forall_singleton.
      + rewrite Hu' in Hsb. rewrite concat_app. cbn [concat]. by rewrite app_nil_r, <- app_assoc.
      + rewrite concat_app, length_app. cbn [concat]. rewrite app_nil_r. lia.
      + rewrite word_ends_app in E. cbn [ends] in E. replace (0 + size (concat before) + size (u ++ [ch])) with (i + 1) in E by lia.
        rewrite E. exists (map (cons (u ++ [ch])) wss). split; [|split].
        * rewrite map_map. do 2 f_equal. apply map_ext. intros ws. by rewrite <- app_assoc.
        * apply NoDup_fmap_2; [by intros ? ? [= ->]|done].
        * intros ws. rewrite list_elem_of_fmap. split.
          -- intros (ws' & -> & [Hw Hc]%H). split; [|by exists ws']. split; [by constructor|]. cbn [concat]. by rewrite Hc, Hu'.
          -- intros ([Hw Hc] & ws' & ->). exists ws'. split; [done|]. apply H. inversion Hw; subst. split; [done|].
             cbn [concat] in Hc. rewrite Hu' in Hc. by apply app_inv_head in Hc.
    - exists []. cbn [map]. rewrite app_nil_r. split; [done|]. split; [apply NoDup_nil_2|]. intros ws.
      split; [by intros ?%elem_of_nil|]. intros ([Hw _] & ws' & ->). inversion Hw as [|? ? [_ Hd] _]; subst.
      apply root_words in Hd. by rewrite Hend in Hd. }
  cbn [mbind option_bind].
  destruct (IH (i + 1) t (u ++ [ch]) (vs ++ map (fun ws => join (before ++ ws)) wss1)) as (wss2 & -> & Hn2 & H2); try done; try lia.
  exists (wss1 ++ wss2). rewrite map_app, <- app_assoc. split; [done|]. split.
  - apply NoDup_app. split; [done|]. split; [|done]. intros ws (_ & ws' & ->)%H1 (_ & w & ws2 & [= <- _] & Hw)%H2. lia.
  - intros ws. rewrite elem_of_app, H1, H2. split.
    + intros [(Hws & ws' & ->)|(Hws & w & ws' & -> & Hw)]; (split; [done|]); eexists _, _; (split; [done|]); lia.
    + intros (Hws & w & ws' & -> & Hw). destruct (decide (size w = i + 1 - f)) as [E|E]; [left|right].
      * split; [done|]. exists ws'. f_equal. destruct (Hlong w ws' Hws Hw) as [v ->]. rewrite length_app in E. cbn in E.
        destruct v; [done|cbn in E; lia].
      * split; [done|]. exists w, ws'. split; [done|lia].
Qed.

Lemma matchTrie_adds fuel f :
  0 <= f <= size s -> (Z.to_nat (size s - f) < fuel)%nat -> adds f (matchTrie fuel root s f).
Proof.
  revert f. induction fuel as [|fuel IH]; intros f Hf Hfu; [lia|]. intros before vs Hb Hsb Hfb. cbn [matchTrie]. cbv zeta.
  destruct (follow_adds (matchTrie fuel root s) f f root [] before (if f =? size s then vs ++ [sentence s 0 (ends 0 before)] else vs))
    as (wss & -> & Hn & H); try done; try lia.
  { intros i Hi. apply IH; lia. }
  { cbn. lia. }
  destruct (Z.eqb_spec f (size s)) as [E|E].
  - rewrite (sentence_words s 0 before); [|done| |done].
    2:{ change (Z.to_nat 0) with 0%nat. rewrite drop_0. rewrite Hsb at 1. rewrite drop_ge by lia. by rewrite app_nil_r. }
    exists ([] :: wss). cbn [map Z.eqb]. rewrite app_nil_r, <- app_assoc. split; [done|].
    assert (forall ws, splitting f ws -> ws = []) as Hnil.
    { intros ws [Hw Hc]. rewrite drop_ge in Hc by lia. destruct Hw as [|w ws [Hne _] _]; [done|].
      cbn [concat] in Hc. by apply app_nil in Hc as [? _]. }
    split.
    + apply NoDup_cons. split; [|done]. intros (_ & w & ws' & ? & _)%H. done.
    + intros ws. rewrite elem_of_cons, H. split.
      * intros [->|[? _]]; [|done]. split; [done|]. by rewrite drop_ge by lia.
      * intros Hws. left. by apply Hnil.
  - exists wss. split; [done|]. split; [done|]. intros ws. rewrite H. split; [by intros [? _]|]. intros Hws. split; [done|].
    destruct ws as [|w ws']; [|exists w, ws'; split; [done|]].
    + destruct Hws as [_ Hc]. cbn in Hc. apply (f_equal length) in Hc. rewrite length_drop in Hc. cbn in Hc. lia.
    + destruct Hws as [Hw _]. inversion Hw as [|? ? [? _] _]; subst. destruct w; [done|cbn; lia].
Qed.
End Proof.

(** wordBreak gives each way to split the string into words of the dictionary
    once, with a space between two words. *)
Theorem wordBreak_all dict s :
  size s <= 46340 ->
  exists wss, wordBreak dict s = Some (map join wss) /\ NoDup wss /\
    forall ws, ws ∈ wss <-> Forall (fun w => w <> [] /\ w ∈ dict) ws /\ concat ws = s.
Proof.
  intros Hn. unfold wordBreak, wordBreak1.
  destruct (WordBreak.wordBreak_spec dict s Hn) as (b & -> & Hb). cbn [mbind option_bind]. destruct b; cbn [negb].
  - destruct (matchTrie_adds dict s (S (length s)) 0 ltac:(lia) ltac:(lia) [] []) as (wss & E & Hnd & H); [done|done|done|].
    cbn [ends app] in E. rewrite E. exists wss. split; [done|]. split; [done|]. intros ws. rewrite H. unfold splitting.
    change (Z.to_nat 0) with 0%nat. by rewrite drop_0.
  - exists []. split; [done|]. split; [apply NoDup_nil_2|]. intros ws. split; [by intros ?%elem_of_nil|].
    intros [Hw Hc]. destruct Hb as [_ Hb]. discriminate Hb. exists ws. split; [|done].
    eapply Forall_impl; [done|]. by intros w [_ ?].
Qed.

Definition small_dict : list str := map chars ["cat"; "cats"; "and"; "sand"; "dog"]%string.

Lemma wordBreak_all_witness :
  size (chars "catsanddog") <= 46340 /\
  wordBreak small_dict (chars "catsanddog") = Some (map chars ["cat sand dog"; "cats and dog"]%string) /\
  exists wss, wordBreak small_dict (chars "catsanddog") = Some (map join wss) /\ NoDup wss /\
    forall ws, ws ∈ wss <-> Forall (fun w => w <> [] /\ w ∈ small_dict) ws /\ concat ws = chars "catsanddog".
Proof.
  split; [by vm_compute|]. split; [by vm_compute|]. apply wordBreak_all. by vm_compute.
Defined.
End WordBreak2Props.

(** ** substring-with-concatenation-of-all-words.cc *)
Module Concatenation.

(** [S.substr(p, m)] for a place in the string. *)
Definition substr (S : str) (p m : Z) : str := take (Z.to_nat m) (drop (Z.to_nat p) S).

(** src/code/leetcode/substring-with-concatenation-of-all-words.cc:49-51 [Solution::add_s] *)
Definition add_s (s : gmap Z Z) (idx : Z) : gmap Z Z := <[idx := default 0 (s !! idx) + 1]> s.

(** src/code/leetcode/substring-with-concatenation-of-all-words.cc:52-57 [Solution::del_s] *)
Definition del_s (s : gmap Z Z) (idx : Z) : gmap Z Z :=
  let v := default 0 (s !! idx) - 1 in
  if v =? 0 then delete idx s else <[idx := v]> s.

(** src/code/leetcode/substring-with-concatenation-of-all-words.cc:61-63 [Solution::ok_s] *)
Definition ok_s (s e : gmap Z Z) : bool := bool_decide (s = e).

(** src/code/leetcode/substring-with-concatenation-of-all-words.cc:64-70 [Solution::getIndex] *)
Definition getIndex (dict : gmap str Z) (s : str) : Z := default (-1) (dict !! s).

(** src/code/leetcode/substring-with-concatenation-of-all-words.cc:14-17 [Solution::findSubstring (dict)] *)
Definition index_words (L : list str) : option (gmap str Z) :=
  for_ (upto 0 (size L - 1)) (fun i dict => w ← arr_get L i; Some (<[w := i]> dict)) ∅.

(** src/code/leetcode/substring-with-concatenation-of-all-words.cc:18-21 [Solution::findSubstring (base_st)] *)
Definition count_words (L : list str) (dict : gmap str Z) : option (gmap Z Z) :=
  for_ (upto 0 (size L - 1)) (fun i base_st => w ← arr_get L i; Some (add_s base_st (default 0 (dict !! w)))) ∅.

(** src/code/leetcode/substring-with-concatenation-of-all-words.cc:25-45 [Solution::findSubstring (inner loop)] *)
Fixpoint slide (fuel : nat) (S : str) (dict : gmap str Z) (base_st : gmap Z Z) (n m j : Z) (st : gmap Z Z)
    (res : list Z) : option (list Z) :=
  match fuel with
  | O => None
  | Datatypes.S fuel =>
      if j <? size S then
        nm ← chk32 (n * m); ev ← chk32 (j - nm);
        let st := if 0 <=? ev then
            let ev_idx := getIndex dict (substr S ev m) in if negb (ev_idx =? -1) then del_s st ev_idx else st
          else st in
        let j_idx := getIndex dict (substr S j m) in
        let st := if negb (j_idx =? -1) then add_s st j_idx else st in
        res ← (if ok_s st base_st then w ← chk32 ((n - 1) * m); sv ← chk32 (j - w); Some (res ++ [sv]) else Some res);
        j ← chk32 (j + m);
        slide fuel S dict base_st n m j st res
      else Some res
  end.

(** src/code/leetcode/substring-with-concatenation-of-all-words.cc:10-48 [Solution::findSubstring] *)
Definition findSubstring (S : str) (L : list str) : option (list Z) :=
  let n := size L in
  w ← arr_get L 0;
  let m := size w in
  dict ← index_words L;
  base_st ← count_words L dict;
  for_ (upto 0 (m - 1)) (fun i res => slide (Datatypes.S (length S)) S dict base_st n m i ∅ res) [].
End Concatenation.

(** ** substring-with-concatenation-of-all-words.cc: theorems *)
Module ConcatenationProps.
Import Concatenation.

(** *** The maps are counts *)

Notation count k l := (Z.of_nat (count_occ Z.eq_dec l k)).
Definition tally (st : gmap Z Z) (l : list Z) : Prop :=
  forall k, st !! k = if count k l =? 0 then None else Some (count k l).

Lemma tally_nil : tally ∅ [].
Proof. intros k. by rewrite lookup_empty. Qed.

Lemma tally_default st l k : tally st l -> default 0 (st !! k) = count k l.
Proof. intros H. rewrite H. case_bool; cbn; lia. Qed.

Lemma tally_add st l x : tally st l -> tally (add_s st x) (l ++ [x]).
Proof.
  intros H k. unfold add_s. rewrite (tally_default st l) by done. rewrite count_occ_app. cbn [count_occ].
  destruct (decide (k = x)) as [->|Hne].
  - rewrite lookup_insert_eq. destruct (Z.eq_dec x x); [|done]. case_bool; [zb|]. f_equal. lia.
  - rewrite lookup_insert_ne by done. rewrite H. destruct (Z.eq_dec x k); [done|]. by rewrite Nat.add_0_r.
Qed.

Lemma tally_del st l x : tally st (x :: l) -> tally (del_s st x) l.
Proof.
  intros H k. unfold del_s. rewrite (tally_default st _ x H). cbn [count_occ]. destruct (Z.eq_dec x x); [|done].
  specialize (H k). cbn [count_occ] in H.
  destruct (decide (k = x)) as [->|Hne].
  - destruct (Z.eqb_spec (count x l) 0) as [E|E]; case_bool; zbool; try lia.
    + by rewrite lookup_delete_eq.
    + rewrite lookup_insert_eq. f_equal. lia.
  - destruct (Z.eq_dec x k); [congruence|]. case_bool; [rewrite lookup_delete_ne by done|rewrite lookup_insert_ne by done]; done.
Qed.

Lemma tally_perm st st' l l' : tally st l -> tally st' l' -> st = st' <-> l ≡ₚ l'.
Proof.
  intros H H'. rewrite (Permutation_count_occ Z.eq_dec). split.
  - intros <- k. pose proof (H k) as E. rewrite H' in E.
    destruct (Z.eqb_spec (count k l) 0), (Z.eqb_spec (count k l') 0); try done; try lia. injection E. lia.
  - intros Hc. apply map_eq. intros k. by rewrite H, H', Hc.
Qed.

(** *** The window *)
Section Proof.
Variable S : str.
Variable L : list str.
Variable m : Z.
Hypothesis Hm : 0 < m.
Hypothesis HL : Forall (fun w => size w = m) L.
Hypothesis HL0 : L <> [].
Hypothesis HnS : size S + m <= 2147483647.
Hypothesis Hnm : size L * m <= 2147483647.
Notation n := (size L).

Lemma index_words_ok :
  exists dict, index_words L = Some dict /\
    (forall w i, dict !! w = Some i -> arr_get L i = Some w) /\ forall w, w ∈ L -> exists i, dict !! w = Some i.
Proof.
  unfold index_words.
  destruct (for_upto (fun k (dict : gmap str Z) => (forall w i, dict !! w = Some i -> arr_get L i = Some w) /\
      forall j w, 0 <= j < k -> arr_get L j = Some w -> exists i, dict !! w = Some i)
    0 (n - 1) (fun i dict => w ← arr_get L i; Some (<[w := i]> dict)) ∅) as (dict & -> & H1 & H2); [lia| | |].
  - split; [intros w i; by rewrite lookup_empty|]. intros j w ?. lia.
  - intros k dict Hk [H1 H2]. destruct (arr_get_in L k) as [w Ew]; [lia|]. rewrite Ew. cbn [mbind option_bind].
    eexists. split; [done|]. split.
    + intros w' i. destruct (decide (w = w')) as [->|]; [rewrite lookup_insert_eq; by intros [= <-]|].
      rewrite lookup_insert_ne by done. apply H1.
    + intros j w' Hj Ej. destruct (decide (w = w')) as [->|]; [rewrite lookup_insert_eq; by eexists|].
      rewrite lookup_insert_ne by done. apply (H2 j); [|done]. destruct (decide (j = k)) as [->|]; [congruence|lia].
  - exists dict. split; [done|]. split; [done|]. intros w (k & Hk)%list_elem_of_lookup_1.
    pose proof (lookup_lt_Some _ _ _ Hk). apply (H2 (Z.of_nat k)); [lia|]. by rewrite arr_get_nat.
Qed.

Section Slide.
Variable dict : gmap str Z.
Hypothesis Hdict : forall w i, dict !! w = Some i -> arr_get L i = Some w.
Hypothesis Hin : forall w, w ∈ L -> exists i, dict !! w = Some i.

Definition keys (ws : list str) : list Z := omap (fun w => dict !! w) ws.

Lemma count_words_ok : exists base, count_words L dict = Some base /\ tally base (keys L).
Proof.
  unfold count_words.
  destruct (for_upto (fun k base => tally base (keys (take (Z.to_nat k) L))) 0 (n - 1)
    (fun i base_st => w ← arr_get L i; Some (add_s base_st (default 0 (dict !! w)))) ∅) as (base & -> & H); [lia| | |].
  - apply tally_nil.
  - intros k base Hk H. destruct (arr_get_in L k) as [w Ew]; [lia|]. rewrite Ew. cbn [mbind option_bind].
    eexists. split; [done|]. apply arr_get_Some in Ew as [_ Ew].
    replace (Z.to_nat (k + 1)) with (Datatypes.S (Z.to_nat k)) by lia. rewrite (take_S_r _ _ w) by done.
    destruct (Hin w) as [i Ei]; [by eapply list_elem_of_lookup_2|]. unfold keys. rewrite omap_app. cbn [omap list_omap].
    rewrite Ei. cbn [default]. by apply tally_add.
  - exists base. split; [done|]. by rewrite take_ge in H by lia.
Qed.

(** No more words than there are in [L]: the keys agree only if the words do. *)
Lemma keys_perm ws : size ws <= n -> keys ws ≡ₚ keys L <-> ws ≡ₚ L.
Proof.
  intros Hws.
  assert (forall l, (length (keys l) <= length l)%nat) as Hle.
  { intros l. induction l as [|w l IH]; [done|]. unfold keys in *. cbn [omap list_omap]. destruct (dict !! w); cbn [length]; lia. }
  assert (forall l, length (keys l) = length l -> map (fun i => default [] (arr_get L i)) (keys l) = l) as Hback.
  { intros l. induction l as [|w l IH]; [done|]. pose proof (Hle l). unfold keys in *. cbn [omap list_omap].
    destruct (dict !! w) as [i|] eqn:E; cbn [length map]; [|lia]. intros [= Hl]. rewrite IH by done.
    by rewrite (Hdict w i E). }
  assert (length (keys L) = length L) as HkL.
  { clear -Hin. assert (forall l, (forall w, w ∈ l -> w ∈ L) -> length (keys l) = length l) as H.
    { induction l as [|w l IH]; intros Hl; [done|]. unfold keys in *. cbn [omap list_omap].
      destruct (Hin w) as [i Ei]; [apply Hl; left|]. rewrite Ei. cbn [length]. f_equal. apply IH. intros v Hv. apply Hl. by right. }
    by apply H. }
  split; [|intros E; unfold keys; by rewrite E].
  intros E. pose proof (Permutation_length E) as Hlen. pose proof (Hle ws).
  rewrite <- (Hback L HkL), <- (Hback ws) by lia. by rewrite E.
Qed.

(** The words from the block [lo] on that [i] begins, before the block [q]. *)
Definition window (i lo q : Z) : list str := map (fun r => substr S (i + r * m) m) (seqZ lo (q - lo)).

Lemma window_snoc i lo q : lo <= q -> window i lo (q + 1) = window i lo q ++ [substr S (i + q * m) m].
Proof.
  intros Hq. unfold window. replace (q + 1 - lo) with ((q - lo) + 1) by lia. rewrite seqZ_app by lia.
  rewrite map_app. f_equal. replace (lo + (q - lo)) with q by lia. done.
Qed.

Lemma window_cons i lo q : lo < q -> window i lo q = substr S (i + lo * m) m :: window i (lo + 1) q.
Proof. intros Hq. unfold window. rewrite seqZ_cons by lia. cbn [map]. do 3 f_equal; lia. Qed.

Lemma size_window i lo q : lo <= q -> size (window i lo q) = q - lo.
Proof. intros. unfold window. rewrite length_map, length_seqZ. lia. Qed.

(** Adding and removing a word's key, if it has one. *)
Lemma keys_add st ws w :
  tally st (keys ws) -> tally (if negb (getIndex dict w =? -1) then add_s st (getIndex dict w) else st) (keys (ws ++ [w])).
Proof.
  intros H. unfold getIndex, keys. rewrite omap_app. cbn [omap list_omap]. destruct (dict !! w) as [i|] eqn:E; [change (default (-1) (Some i)) with i|change (default (-1) None) with (-1)].
  - assert (0 <= i) by (by apply Hdict, arr_get_Some in E as [? _]). ztrue (negb (i =? -1)). by apply tally_add.
  - cbn. by rewrite app_nil_r.
Qed.

Lemma keys_del st ws w :
  tally st (keys (w :: ws)) -> tally (if negb (getIndex dict w =? -1) then del_s st (getIndex dict w) else st) (keys ws).
Proof.
  unfold getIndex, keys. cbn [omap list_omap]. intros H. destruct (dict !! w) as [i|] eqn:E; [change (default (-1) (Some i)) with i|change (default (-1) None) with (-1)].
  - assert (0 <= i) by (by apply Hdict, arr_get_Some in E as [? _]). ztrue (negb (i =? -1)). by apply tally_del.
  - done.
Qed.

(** The blocks of a place of the string. *)
Definition blocks (p : Z) : list str := window p 0 n.
Definition stands (p : Z) : Prop := 0 <= p /\ p + n * m <= size S /\ blocks p ≡ₚ L.

Lemma window_blocks i lo : window i lo (lo + n) = blocks (i + lo * m).
Proof.
  unfold blocks, window. replace (lo + n - lo) with (n - 0) by lia. rewrite <- (Z.add_0_r lo) at 1.
  rewrite <- fmap_add_seqZ. unfold fmap. rewrite map_map. apply map_ext. intros r. f_equal. lia.
Qed.

Lemma stands_end p : 0 <= p -> p + (n - 1) * m < size S -> blocks p ≡ₚ L -> stands p.
Proof.
  intros Hp Hlt HB. split; [done|]. split; [|done].
  assert (substr S (p + (n - 1) * m) m ∈ blocks p) as Hl.
  { unfold blocks, window. apply list_elem_of_fmap. exists (n - 1). split; [done|]. apply elem_of_seqZ.
    destruct L; [done|cbn; lia]. }
  rewrite HB in Hl. rewrite Forall_forall in HL. apply HL in Hl. unfold substr in Hl. rewrite length_take, length_drop in Hl. nia.
Qed.

Variable base : gmap Z Z.
Hypothesis Hbase : tally base (keys L).

Lemma slide_ok fuel i q st res :
  0 <= i < m -> 0 <= q -> (Z.to_nat (size S - q) < fuel)%nat ->
  tally st (keys (window i (Z.max 0 (q - n)) q)) ->
  exists new, slide fuel S dict base n m (i + q * m) st res = Some (res ++ new) /\ NoDup new /\
    forall p, p ∈ new <-> stands p /\ exists r, q <= r + n - 1 /\ 0 <= r /\ p = i + r * m.
Proof.
  assert (1 <= n) as Hn by (destruct L; [done|cbn; lia]).
  intros Hi. revert q st res. induction fuel as [|fuel IH]; intros q st res Hq Hf Hst; [lia|]. cbn [slide].
  destruct (Z.ltb_spec (i + q * m) (size S)) as [Hlt|Hge].
  2:{ exists []. rewrite app_nil_r. split; [done|]. split; [apply NoDup_nil_2|]. intros p. split; [by intros ?%elem_of_nil|].
      intros ((_ & Hp & _) & r & Hr & _ & ->). nia. }
  rewrite (chk32_ok (n * m)) by nia. cbn [mbind option_bind]. rewrite (chk32_ok (i + q * m - n * m)) by nia. cbn [mbind option_bind].
  set (ev := i + q * m - n * m). set (lo := Z.max 0 (q + 1 - n)).
  assert (tally (if 0 <=? ev then
      if negb (getIndex dict (substr S ev m) =? -1) then del_s st (getIndex dict (substr S ev m)) else st
    else st) (keys (window i lo q))) as H1.
  { destruct (Z.leb_spec 0 ev) as [Hev|Hev].
    - assert (n <= q) by nia. apply keys_del. replace ev with (i + (q - n) * m) by (unfold ev; lia).
      replace lo with (q - n + 1) by lia. rewrite <- window_cons by lia. by replace (Z.max 0 (q - n)) with (q - n) in Hst by lia.
    - assert (q < n) by nia. by replace (Z.max 0 (q - n)) with lo in Hst by lia. }
  cbv zeta. apply (keys_add _ _ (substr S (i + q * m) m)) in H1. rewrite <- window_snoc in H1 by lia.
  match type of H1 with tally ?x _ => set (st' := x) in * end.
  assert (exists new, (if ok_s st' base then w ← chk32 ((n - 1) * m); sv ← chk32 (i + q * m - w); Some (res ++ [sv]) else Some res) =
      Some (res ++ new) /\ NoDup new /\ forall p, p ∈ new <-> stands p /\ p = i + (q + 1 - n) * m /\ 0 <= q + 1 - n) as (new & -> & Hnd & Hnew).
  { unfold ok_s. pose proof (tally_perm _ _ _ _ H1 Hbase) as Heq.
    assert (size (window i lo (q + 1)) <= n) as Hsz by (rewrite size_window by lia; lia). rewrite keys_perm in Heq by done.
    case_bool_decide as Hok.
    - apply Heq in Hok. pose proof (Permutation_length Hok) as Hlen. apply (f_equal Z.of_nat) in Hlen. rewrite size_window in Hlen by lia.
      assert (lo = q + 1 - n) as Elo by lia. rewrite chk32_ok by nia. cbn [mbind option_bind]. rewrite chk32_ok by nia. cbn [mbind option_bind].
      exists [i + (q + 1 - n) * m]. split; [do 3 f_equal; lia|]. split; [apply NoDup_singleton|]. intros p. rewrite list_elem_of_singleton.
      split; [intros ->|by intros (_ & -> & _)]. split; [|split; [done|lia]]. apply stands_end; [nia|nia|].
      rewrite <- window_blocks. rewrite Elo in Hok. by replace (q + 1 - n + n) with (q + 1) by lia.
    - exists []. rewrite app_nil_r. split; [done|]. split; [apply NoDup_nil_2|]. intros p. split; [by intros ?%elem_of_nil|].
      intros ((_ & _ & HB) & -> & H0). destruct Hok. apply Heq. rewrite <- window_blocks in HB.
      replace lo with (q + 1 - n) by lia. by replace (q + 1 - n + n) with (q + 1) in HB by lia. }
  cbn [mbind option_bind]. rewrite chk32_ok by nia. cbn [mbind option_bind].
  replace (i + q * m + m) with (i + (q + 1) * m) by lia.
  assert (q < size S) by nia.
  destruct (IH (q + 1) st' (res ++ new)) as (new2 & -> & Hnd2 & Hnew2); [lia|lia|done|].
  exists (new ++ new2). rewrite <- app_assoc. split; [done|]. split.
  - apply NoDup_app. split; [done|]. split; [|done]. intros p (_ & -> & _)%Hnew (_ & r & Hr & _ & E)%Hnew2. nia.
  - intros p. rewrite elem_of_app, Hnew, Hnew2. split.
    + intros [(Hp & -> & H0)|(Hp & r & Hr & H0 & ->)]; (split; [done|]); [exists (q + 1 - n)|exists r]; (split; [lia|]); (split; [lia|done]).
    + intros (Hp & r & Hr & H0 & ->). destruct (decide (r = q + 1 - n)) as [->|]; [by left|].
      right. split; [done|]. exists r. split; [lia|done].
Qed.
End Slide.

(** findSubstring gives the places where the words of [L], in some order, stand
    one after the other, each place once. *)
Theorem findSubstring_places :
  exists res, findSubstring S L = Some res /\ NoDup res /\ forall p, p ∈ res <-> stands p.
Proof.
  unfold findSubstring. destruct (arr_get_in L 0) as [w0 E0]; [destruct L; [done|cbn; lia]|]. rewrite E0. cbn [mbind option_bind].
  apply arr_get_Some in E0 as [_ E0]. apply (Forall_lookup_1 _ _ _ _ HL) in E0 as Ew. cbv beta in Ew. rewrite Ew.
  destruct index_words_ok as (dict & -> & Hd & Hin). cbn [mbind option_bind].
  destruct (count_words_ok dict Hin) as (base & -> & Hbase). cbn [mbind option_bind].
  destruct (for_upto (fun i res => NoDup res /\ forall p, p ∈ res <-> stands p /\ p mod m < i) 0 (m - 1)
    (fun i res => slide (Datatypes.S (length S)) S dict base n m i ∅ res) []) as (res & -> & Hnd & Hres); [lia| | |].
  - split; [apply NoDup_nil_2|]. intros p. split; [by intros ?%elem_of_nil|]. intros [_ H].
    pose proof (Z.mod_pos_bound p m Hm). lia.
  - intros i res Hi [Hnd Hres].
    destruct (slide_ok dict Hd Hin base Hbase (Datatypes.S (length S)) i 0 ∅ res) as (new & E & Hnd2 & Hnew); [lia..| |].
    { replace (Z.max 0 (0 - n)) with 0 by lia. apply tally_nil. }
    rewrite Z.mul_0_l, Z.add_0_r in E. rewrite E. eexists. split; [done|].
    assert (forall p, p ∈ new <-> stands p /\ p mod m = i) as Hnew'.
    { intros p. rewrite Hnew. split.
      - intros (Hp & r & _ & _ & ->). split; [done|]. rewrite Z.mod_add by lia. apply Z.mod_small. lia.
      - intros (Hp & <-). split; [done|]. exists (p / m). pose proof (Z.div_mod p m ltac:(lia)). destruct Hp as [Hp0 _].
        pose proof (Z.div_pos p m Hp0 Hm). assert (1 <= n) by (destruct L; [done|cbn; lia]). split; [lia|]. split; [done|lia]. }
    split.
    + apply NoDup_app. split; [done|]. split; [|done]. intros p [_ H1]%Hres [_ H2]%Hnew'. lia.
    + intros p. rewrite elem_of_app, Hres, Hnew'. split; [intros [[? ?]|[? ?]]; (split; [done|lia])|]. intros [Hp Hlt].
      destruct (decide (p mod m = i)); [by right|left]. split; [done|lia].
  - exists res. split; [done|]. split; [done|]. intros p. rewrite Hres. split; [by intros [? _]|]. intros Hp. split; [done|].
    pose proof (Z.mod_pos_bound p m Hm). lia.
Qed.
End Proof.

Lemma findSubstring_places_witness :
  0 < 3 /\ Forall (fun w => size w = 3) (map chars ["foo"; "bar"]%string) /\ map chars ["foo"; "bar"]%string <> [] /\
  size (chars "barfoothefoobarman") + 3 <= 2147483647 /\ size (map chars ["foo"; "bar"]%string) * 3 <= 2147483647 /\
  findSubstring (chars "barfoothefoobarman") (map chars ["foo"; "bar"]%string) = Some [0; 9] /\
  exists res, findSubstring (chars "barfoothefoobarman") (map chars ["foo"; "bar"]%string) = Some res /\ NoDup res /\
    forall p, p ∈ res <-> stands (chars "barfoothefoobarman") (map chars ["foo"; "bar"]%string) 3 p.
Proof.
  assert (Forall (fun w => size w = 3) (map chars ["foo"; "bar"]%string)) as H by (repeat constructor).
  split; [done|]. split; [exact H|]. split; [done|]. split; [vm_compute; discriminate|]. split; [vm_compute; discriminate|].
  split; [vm_compute; reflexivity|].
  apply findSubstring_places; [done|exact H|done|vm_compute; discriminate|vm_compute; discriminate].
Defined.

(** Without words the first of them is read all the same. *)
Lemma findSubstring_none S : findSubstring S [] = None.
Proof. reflexivity. Qed.
End ConcatenationProps.

(** ** distinct-subsequences.cc *)
Module Distinct.

(** src/code/leetcode/distinct-subsequences.cc:20-32 [Solution::numDistinct (cell)]
    [t] may be read at its end. *)
Definition cell (s t : str) (i j : Z) (dp : list Z * list Z) : option (list Z * list Z) :=
  let '(now, next) := dp in
  next ← arr_set next j 0;
  a ← (if negb (i =? j) then v ← arr_get now j; Some v else Some 0);
  cs ← arr_get s i;
  ct ← (if j =? size t then Some zero else arr_get t j);
  v ← (if (cs =? ct)%char then
         if j =? 0 then chk32 (a + 1) else b ← arr_get now (j - 1); chk32 (a + b)
       else Some a);
  next ← arr_set next j v;
  Some (now, next).

(** src/code/leetcode/distinct-subsequences.cc:8-37 [Solution::numDistinct]
    The bound [(i, m)] is [m]. *)
Definition numDistinct (s t : str) : option Z :=
  let n := size s in
  let m := size t in
  if n <? m then Some 0 else
  '(now, _) ← for_ (upto 0 (n - 1)) (fun i dp =>
    '(now, next) ← for_ (upto 0 m) (cell s t i) dp; Some (next, now))
    (replicate (length t) 0, replicate (length t) 0);
  arr_get now (m - 1).
End Distinct.

Module DistinctProps.
Import Distinct.

Lemma arr_set_length {A} (l l' : list A) i x : arr_set l i x = Some l' -> length l' = length l.
Proof. unfold arr_set. case_bool; [|done]. intros [= <-]. apply length_insert. Qed.

Lemma cell_width s t i j dp dp' : cell s t i j dp = Some dp' -> length dp'.2 = length dp.2.
Proof.
  destruct dp as [now next]. unfold cell. destruct (arr_set next j 0) as [n1|] eqn:E1; [|done]. apply arr_set_length in E1.
  repeat (cbn [mbind option_bind]; match goal with |- (?o ≫= _) = _ -> _ => destruct o eqn:? end; [|done]).
  cbn. intros [= <-]. cbn. rewrite <- E1. by eapply arr_set_length.
Qed.

Lemma cell_end s t i now next : length next = length t -> cell s t i (size t) (now, next) = None.
Proof. intros H. unfold cell, arr_set. by zfalse ((0 <=? size t) && (size t <? size next)). Qed.

(** The comma in the bound of the inner loop lets it write at [m], after the end
    of the row: whenever [t] is not longer than [s] the result is undefined. *)
Theorem numDistinct_undefined s t : numDistinct s t = if size s <? size t then Some 0 else None.
Proof.
  unfold numDistinct. cbn zeta. case_bool; [done|]. apply Z.ltb_ge in E.
  destruct (decide (size s = 0)) as [E0|E0].
  { assert (size t = 0) as -> by lia. rewrite upto_nil by lia. cbn. done. }
  rewrite upto_cons by lia. cbn [for_]. rewrite (upto_snoc 0 (size t)), for_app by lia.
  destruct (for_ (upto 0 (size t - 1)) (cell s t 0) _) as [[now next]|] eqn:Ef; [|done]. cbn [mbind option_bind for_].
  assert (length next = length t) as Hn.
  { eapply (for_keeps (fun dp : list Z * list Z => length dp.2 = length t)) in Ef; [exact Ef|apply length_replicate|].
    intros j dp dp' _ H Hc. apply cell_width in Hc. congruence. }
  rewrite cell_end by done. done.
Qed.
End DistinctProps.
