(* ===== verification/Search.v ===== *)
(** * Search: the exercises of src/code/leetcode that search a graph

    Regions of a board that reach its border, and ladders of words. *)

From S2P Require Import Prelude Loops Words Texts.
From Stdlib Require Import Ascii.

Local Open Scope char_scope.
Local Open Scope Z_scope.

(** ** surrounded-regions.cc *)
Module Regions.

Definition get2 (board : list (list ascii)) (i j : Z) : option ascii := row ← arr_get board i; arr_get row j.
Definition set2 (board : list (list ascii)) (i j : Z) (c : ascii) : option (list (list ascii)) :=
  row ← arr_get board i; row ← arr_set row j c; arr_set board i row.

(** src/code/leetcode/surrounded-regions.cc:44-44 [Solution::UNVISITED] *)
Definition UNVISITED := 0.
(** src/code/leetcode/surrounded-regions.cc:45-45 [Solution::NOT_SUR] *)
Definition NOT_SUR := 1.

Section Board.
Variables N M : Z.

(** src/code/leetcode/surrounded-regions.cc:40-42 [Solution::getIndex] *)
Definition getIndex (i j : Z) : option Z := a ← chk32 (i * N); chk32 (a + j).

(** src/code/leetcode/surrounded-regions.cc:47-63 [Solution::solveWithMark] *)
Fixpoint solveWithMark (fuel : nat) (board : list (list ascii)) (i j : Z) (mark : list Z) : option (list Z) :=
  match fuel with
  | O => None
  | S fuel =>
      if (i <? 0) || (N <=? i) then Some mark else
      if (j <? 0) || (M <=? j) then Some mark else
      index ← getIndex i j;
      m ← arr_get mark index;
      skip ← (if negb (m =? UNVISITED) then Some true else c ← get2 board i j; Some (c =? "X")%char);
      if skip : bool then Some mark else
      mark ← arr_set mark index NOT_SUR;
      mark ← solveWithMark fuel board (i - 1) j mark;
      mark ← solveWithMark fuel board (i + 1) j mark;
      mark ← solveWithMark fuel board i (j - 1) mark;
      solveWithMark fuel board i (j + 1) mark
  end.

(** src/code/leetcode/surrounded-regions.cc:65-74 [Solution::flipWithMark] *)
Definition flipWithMark (board : list (list ascii)) (mark : list Z) : option (list (list ascii)) :=
  for_ (upto 0 (N - 1)) (fun i board => for_ (upto 0 (M - 1)) (fun j board =>
    index ← getIndex i j;
    c ← get2 board i j;
    flip ← (if (c =? "O")%char then m ← arr_get mark index; Some (negb (m =? NOT_SUR)) else Some false);
    if flip : bool then set2 board i j "X" else Some board) board) board.

(** src/code/leetcode/surrounded-regions.cc:27-35 [Solution::solve (border)] *)
Definition border (board : list (list ascii)) (mark : list Z) : option (list Z) :=
  for_ (upto 0 (N - 1)) (fun i mark => for_ (upto 0 (M - 1)) (fun j mark =>
    if (i =? 0) || (j =? 0) || (i =? N - 1) || (j =? M - 1) then
      c ← get2 board i j;
      if (c =? "O")%char then solveWithMark (S (Z.to_nat (N * M))) board i j mark else Some mark
    else Some mark) mark) mark.
End Board.

(** src/code/leetcode/surrounded-regions.cc:14-38 [Solution::solve] *)
Definition solve (board : list (list ascii)) : option (list (list ascii)) :=
  let N := size board in
  if N =? 0 then Some board else
  row ← arr_get board 0;
  let M := size row in
  if M =? 0 then Some board else
  nm ← chk32 (N * M);
  mark ← border N M board (replicate (Z.to_nat nm) UNVISITED);
  flipWithMark N M board mark.
End Regions.

(** ** surrounded-regions.cc: theorems *)
Module RegionsProps.
Import Regions.

(** The places that are not visited yet. *)
Definition free (m : list Z) : nat := length (filter (fun x => x = 0) m).

Lemma free_mono m m' :
  length m = length m' -> (forall k, m' !! k = Some 0 -> m !! k = Some 0) -> (free m' <= free m)%nat.
Proof.
  revert m'. induction m as [|x m IH]; intros [|y m'] Hlen H; try done. cbn in Hlen.
  assert (free m' <= free m)%nat as Hle.
  { apply IH; [lia|]. intros k Hk. apply (H (S k)). exact Hk. }
  unfold free in *. rewrite !filter_cons. pose proof (H 0%nat) as H0. cbn in H0.
  destruct (decide (y = 0)) as [->|]; destruct (decide (x = 0)) as [->|]; cbn; try lia.
  specialize (H0 eq_refl). congruence.
Qed.

Lemma free_insert m k : m !! k = Some 0 -> (free (<[k := 1%Z]> m) < free m)%nat.
Proof.
  intros Hk. pose proof (lookup_lt_Some _ _ _ Hk). unfold free.
  rewrite <- (take_drop_middle m k 0 Hk) at 2. rewrite insert_take_drop by done.
  rewrite !filter_app, !length_app, (filter_cons_True _ 0), (filter_cons_False _ 1) by done. cbn. lia.
Qed.

(** Square boards, and their places. *)
Definition shape (n : Z) (b : list (list ascii)) : Prop := size b = n /\ Forall (fun row => size row = n) b.
Definition inside (n i j : Z) : Prop := 0 <= i < n /\ 0 <= j < n.

Lemma get2_shape n b i j : shape n b -> inside n i j -> exists c, get2 b i j = Some c.
Proof.
  intros [Hn Hrows] [Hi Hj]. unfold get2. destruct (arr_get_in b i) as [row Er]; [lia|]. rewrite Er. cbn [mbind option_bind].
  apply arr_get_Some in Er as [_ Er]. apply (Forall_lookup_1 _ _ _ _ Hrows) in Er. apply arr_get_in. lia.
Qed.

Lemma set2_shape n b i j c :
  shape n b -> inside n i j ->
  exists b', set2 b i j c = Some b' /\ shape n b' /\
    forall i' j', inside n i' j' -> get2 b' i' j' = if (i' =? i) && (j' =? j) then Some c else get2 b i' j'.
Proof.
  intros [Hn Hrows] [Hi Hj]. unfold set2, get2. destruct (arr_get_in b i) as [row Er]; [lia|]. rewrite Er. cbn [mbind option_bind].
  pose proof Er as El. apply arr_get_Some in El as [_ El]. apply (Forall_lookup_1 _ _ _ _ Hrows) in El. cbv beta in El.
  rewrite (arr_set_in row) by lia. cbn [mbind option_bind]. rewrite arr_set_in by lia. eexists. split; [done|]. split.
  - split; [by rewrite length_insert|]. apply Forall_insert; [done|]. by rewrite length_insert.
  - intros i' j' [Hi' Hj']. rewrite arr_get_insert by lia. destruct (Z.eqb_spec i' i) as [->|]; cbn [andb]; [|done].
    rewrite Er. cbn [mbind option_bind]. apply arr_get_insert; lia.
Qed.

Section Proof.
Variable board : list (list ascii).
Variable n : Z.
Hypothesis Hb : shape n board.
Hypothesis Hnn : n * n <= 2147483647.

Notation inside := (inside n).
Definition land (i j : Z) : Prop := inside i j /\ get2 board i j <> Some "X".
Definition near (i j i' j' : Z) : Prop :=
  (i' = i - 1 /\ j' = j) \/ (i' = i + 1 /\ j' = j) \/ (i' = i /\ j' = j - 1) \/ (i' = i /\ j' = j + 1).

(** The places a border place with an O leads to. *)
Inductive safe : Z -> Z -> Prop :=
| safe_border i j : inside i j -> i = 0 \/ j = 0 \/ i = n - 1 \/ j = n - 1 -> get2 board i j = Some "O" -> safe i j
| safe_near i j i' j' : safe i j -> near i j i' j' -> land i' j' -> safe i' j'.

Lemma index_range i j : inside i j -> 0 <= i * n + j < n * n /\ i * n <= n * n /\ 0 <= i * n.
Proof. intros [Hi Hj]. nia. Qed.

Lemma place_inj i j i' j' : inside i j -> inside i' j' -> i * n + j = i' * n + j' -> i = i' /\ j = j'.
Proof. intros [Hi Hj] [Hi' Hj'] E. assert (i = i') by nia. subst. lia. Qed.

Lemma getIndex_inside i j : inside i j -> getIndex n i j = Some (i * n + j).
Proof.
  intros H. pose proof (index_range i j H). unfold getIndex. rewrite chk32_ok by lia. cbn [mbind option_bind].
  by rewrite chk32_ok by lia.
Qed.

Definition valid (m : list Z) : Prop := size m = n * n /\ Forall (fun x => x = 0 \/ x = 1) m.
Definition marked (m : list Z) (i j : Z) : Prop := at_ m (i * n + j) = 1.
Definition closed (m : list Z) (i j : Z) : Prop := forall i' j', near i j i' j' -> land i' j' -> marked m i' j'.

(** The marks go on: what is new is safe, and so are all its neighbours. *)
Definition grows (m m' : list Z) : Prop :=
  valid m' /\ (forall k, 0 <= k < n * n -> at_ m k = 1 -> at_ m' k = 1) /\
  forall i j, inside i j -> marked m' i j -> marked m i j \/ (safe i j /\ closed m' i j).

Lemma marked_mono m m' i j : grows m m' -> inside i j -> marked m i j -> marked m' i j.
Proof. intros (_ & H & _) Hin. apply H. by apply index_range. Qed.

Lemma closed_mono m m' i j : grows m m' -> closed m i j -> closed m' i j.
Proof. intros Hg Hc i' j' Hne Hl. eapply marked_mono; [done|apply Hl|by apply Hc]. Qed.

Lemma grows_refl m : valid m -> grows m m.
Proof. intros. split; [done|]. split; [done|]. by left. Qed.

Lemma grows_trans m1 m2 m3 : grows m1 m2 -> grows m2 m3 -> grows m1 m3.
Proof.
  intros H12 H23. pose proof (closed_mono m2 m3) as Hc. destruct H12 as (V2 & K2 & S2). pose proof H23 as (V3 & K3 & S3).
  split; [done|]. split; [auto|]. intros i j Hin [H|H]%S3; [|by right|done].
  destruct (S2 i j Hin H) as [|[? ?]]; [by left|]. right. auto.
Qed.

Lemma free_grows m m' : valid m -> grows m m' -> (free m' <= free m)%nat.
Proof.
  intros [Hs Hv] ([Hs' Hv'] & Hk & _). apply free_mono; [lia|]. intros k E.
  pose proof (lookup_lt_Some _ _ _ E). destruct (lookup_lt_is_Some_2 m k) as [x Ex]; [lia|]. rewrite Ex.
  destruct (proj1 (Forall_lookup _ _) Hv k x Ex) as [->| ->]; [done|].
  assert (at_ m' (Z.of_nat k) = 1) as E1.
  { apply Hk; [lia|]. unfold at_. rewrite Nat2Z.id. by apply list_lookup_total_correct. }
  unfold at_ in E1. rewrite Nat2Z.id, (list_lookup_total_correct _ _ _ E) in E1. done.
Qed.

Lemma at_set (m : list Z) k x i : 0 <= k < size m -> 0 <= i < size m -> at_ (<[Z.to_nat k := x]> m) i = if i =? k then x else at_ m i.
Proof.
  intros Hk Hi. unfold at_. destruct (Z.eqb_spec i k) as [->|].
  - rewrite list_lookup_total_insert_eq by lia. done.
  - rewrite list_lookup_total_insert_ne by lia. done.
Qed.

(** A call marks what its place leads to. *)
Lemma solveWithMark_grows fuel i j m :
  valid m -> (land i j -> safe i j) -> (free m < fuel)%nat ->
  exists m', solveWithMark n n fuel board i j m = Some m' /\ grows m m' /\ (land i j -> marked m' i j).
Proof.
  revert i j m. induction fuel as [|fuel IH]; intros i j m Hv Hs Hf; [lia|]. cbn [solveWithMark].
  destruct ((i <? 0) || (n <=? i)) eqn:Ei.
  { exists m. split; [done|]. split; [by apply grows_refl|]. intros [[? ?] _]. lia. }
  destruct ((j <? 0) || (n <=? j)) eqn:Ej.
  { exists m. split; [done|]. split; [by apply grows_refl|]. intros [[? ?] _]. lia. }
  assert (inside i j) as Hin by (split; lia). pose proof (index_range i j Hin) as Hr. pose proof Hv as [Hsz H01].
  rewrite getIndex_inside by done. cbn [mbind option_bind]. set (k := i * n + j) in *.
  rewrite (arr_get_at m k) by lia. cbn [mbind option_bind]. destruct (get2_shape n board i j Hb Hin) as [c Ec]. rewrite Ec.
  pose proof (at_Forall _ m k H01 ltac:(lia)) as Hk. cbv beta in Hk. unfold UNVISITED.
  destruct (Z.eqb_spec (at_ m k) 0) as [E0|E0]; cbn [negb mbind option_bind].
  2:{ exists m. split; [done|]. split; [by apply grows_refl|]. intros _. unfold marked. fold k. lia. }
  destruct (Ascii.eqb_spec c "X") as [->|Hc].
  { exists m. split; [done|]. split; [by apply grows_refl|]. by intros [_ ?]. }
  assert (land i j) as Hl by (split; [done|congruence]). specialize (Hs Hl).
  unfold arr_set. ztrue ((0 <=? k) && (k <? size m)). cbn [mbind option_bind]. unfold NOT_SUR.
  set (m0 := <[Z.to_nat k := 1]> m).
  assert (m !! Z.to_nat k = Some 0) as Ek.
  { rewrite <- E0. pose proof (arr_get_at m k ltac:(lia)) as E. by apply arr_get_Some in E as [_ E]. }
  pose proof (free_insert m _ Ek) as Hf0. fold m0 in Hf0.
  assert (valid m0) as Hv0.
  { split; [unfold m0; rewrite length_insert; lia|]. apply Forall_insert; [done|by right]. }
  assert (forall i' j', near i j i' j' -> land i' j' -> safe i' j') as Hnear by (intros; by eapply safe_near).
  assert (forall i' j' m1, near i j i' j' -> grows m0 m1 -> exists m2, solveWithMark n n fuel board i' j' m1 = Some m2 /\
    grows m0 m2 /\ grows m1 m2 /\ (land i' j' -> marked m2 i' j')) as Hcall.
  { intros i' j' m1 Hne Hg. pose proof (free_grows m0 m1 Hv0 Hg).
    destruct (IH i' j' m1) as (m2 & E & Hg2 & Hm2); [apply Hg|auto|lia|]. exists m2. split; [done|].
    split; [by eapply grows_trans|done]. }
  destruct (Hcall (i - 1) j m0) as (m1 & -> & G1 & _ & M1); [red; lia|by apply grows_refl|]. cbn [mbind option_bind].
  destruct (Hcall (i + 1) j m1) as (m2 & -> & G2 & G12 & M2); [red; lia|done|]. cbn [mbind option_bind].
  destruct (Hcall i (j - 1) m2) as (m3 & -> & G3 & G23 & M3); [red; lia|done|]. cbn [mbind option_bind].
  destruct (Hcall i (j + 1) m3) as (m4 & -> & G4 & G34 & M4); [red; lia|done|]. exists m4. split; [done|].
  assert (closed m4 i j) as Hcl.
  { pose proof (grows_trans _ _ _ G23 G34) as G24. pose proof (grows_trans _ _ _ G12 G24) as G14.
    intros i' j' [[-> ->]|[[-> ->]|[[-> ->]|[-> ->]]]] Hl'.
    - by eapply marked_mono; [exact G14|apply Hl'|apply M1].
    - by eapply marked_mono; [exact G24|apply Hl'|apply M2].
    - by eapply marked_mono; [exact G34|apply Hl'|apply M3].
    - by apply M4. }
  assert (at_ m4 k = 1) as Hk4.
  { apply (proj1 (proj2 G4)); [lia|]. unfold m0. rewrite at_set by lia. by rewrite Z.eqb_refl. }
  split; [|by intros _]. split; [apply G4|]. split.
  - intros k' Hk' E. apply (proj1 (proj2 G4)); [lia|]. unfold m0. rewrite at_set by lia. by case_bool.
  - intros i' j' Hin' [H|H]%(proj2 (proj2 G4)); [|by right|done]. unfold marked, m0 in H.
    rewrite at_set in H by (try (apply index_range in Hin'); lia).
    destruct (Z.eqb_spec (i' * n + j') k) as [E|]; [|by left].
    apply place_inj in E as [-> ->]; [|done..]. right. done.
Qed.

Lemma free_length m : (free m <= length m)%nat.
Proof. apply length_filter. Qed.

Notation start := (replicate (Z.to_nat (n * n)) 0).
Definition on_border (i j : Z) : Prop := i = 0 \/ j = 0 \/ i = n - 1 \/ j = n - 1.

(** What the border loop has marked when it comes to the place [i], [j]. *)
Definition visited (i j : Z) (m : list Z) : Prop :=
  grows start m /\ forall i' j', inside i' j' -> on_border i' j' -> get2 board i' j' = Some "O" ->
    i' < i \/ (i' = i /\ j' < j) -> marked m i' j'.

Lemma border_step i j m :
  inside i j -> visited i j m ->
  exists m', (if (i =? 0) || (j =? 0) || (i =? n - 1) || (j =? n - 1) then
      c ← get2 board i j;
      if (c =? "O")%char then solveWithMark n n (S (Z.to_nat (n * n))) board i j m else Some m
    else Some m) = Some m' /\ visited i (j + 1) m'.
Proof.
  intros Hin [Hg Hv].
  assert (forall m', grows m m' -> (on_border i j -> get2 board i j = Some "O" -> marked m' i j) -> visited i (j + 1) m') as Hdone.
  { intros m' Hg' Hm'. split; [by eapply grows_trans|]. intros i' j' Hin' Hbo HO Hlt.
    destruct (decide (i' = i /\ j' = j)) as [[-> ->]|]; [by apply Hm'|]. eapply marked_mono; [done..|]. apply Hv; [done..|lia]. }
  destruct ((i =? 0) || (j =? 0) || (i =? n - 1) || (j =? n - 1)) eqn:Eb.
  2:{ exists m. split; [done|]. apply Hdone; [apply grows_refl, Hg|]. unfold on_border. lia. }
  destruct (get2_shape n board i j Hb Hin) as [c Ec]. rewrite Ec. cbn [mbind option_bind].
  destruct (Ascii.eqb_spec c "O") as [->|Hc].
  - destruct (solveWithMark_grows (S (Z.to_nat (n * n))) i j m) as (m' & -> & Hg' & Hm').
    + apply Hg.
    + intros _. apply safe_border; [done|lia|done].
    + pose proof (free_length m). destruct Hg as ([? ?] & _). lia.
    + exists m'. split; [done|]. apply Hdone; [done|]. intros _ _. apply Hm'. split; [done|]. by rewrite Ec.
  - exists m. split; [done|]. apply Hdone; [apply grows_refl, Hg|]. rewrite Ec. congruence.
Qed.

Lemma border_marks :
  exists m, border n n board start = Some m /\ valid m /\ forall i j, inside i j -> marked m i j <-> safe i j.
Proof.
  destruct Hb as [Hn _].
  destruct (for_upto (fun i m => visited i 0 m) 0 (n - 1) (fun i mark => for_ (upto 0 (n - 1)) (fun j mark =>
    if (i =? 0) || (j =? 0) || (i =? n - 1) || (j =? n - 1) then
      c ← get2 board i j;
      if (c =? "O")%char then solveWithMark n n (S (Z.to_nat (n * n))) board i j mark else Some mark
    else Some mark) mark) start) as (m & Em & Hg & Hv); [lia| | |].
  - split; [|intros i' j' [? ?]; lia]. apply grows_refl. split; [rewrite length_replicate; nia|].
    apply Forall_replicate. by left.
  - intros i m Hi Hm. destruct (for_upto (fun j m => visited i j m) 0 (n - 1) (fun j mark =>
    if (i =? 0) || (j =? 0) || (i =? n - 1) || (j =? n - 1) then
      c ← get2 board i j;
      if (c =? "O")%char then solveWithMark n n (S (Z.to_nat (n * n))) board i j mark else Some mark
    else Some mark) m) as (m' & -> & Hg & Hv); [lia|done| |].
    + intros j m1 Hj. apply border_step. split; lia.
    + exists m'. split; [done|]. split; [done|]. intros i' j' Hin Hbo HO Hlt. apply Hv; try done. destruct Hin. lia.
  - exists m. split; [done|]. split; [apply Hg|]. intros i j Hin. split.
    + intros [H|[? _]]%Hg; [|done|done]. exfalso. unfold marked, at_ in H. apply index_range in Hin.
      rewrite lookup_total_replicate_2 in H by lia. done.
    + intros Hs. clear Hin. induction Hs as [i j Hin Hbo HO|i j i' j' Hs IH Hne Hl].
      * apply Hv; try done. destruct Hin. lia.
      * assert (inside i j) as Hin by (inversion Hs as [|? ? ? ? _ _ [? _]]; subst; done).
        pose proof (proj2 (proj2 Hg) i j Hin IH) as [H|[_ Hc]]; [|by apply Hc].
        exfalso. unfold marked, at_ in H. apply index_range in Hin. rewrite lookup_total_replicate_2 in H by lia. done.
Qed.

(** What [flipWithMark] makes of a place. *)
Definition flipped (m : list Z) (i j : Z) : option ascii :=
  c ← get2 board i j; if (c =? "O")%char then (if at_ m (i * n + j) =? 1 then Some c else Some "X"%char) else Some c.

Definition done_upto (m : list Z) (i j : Z) (b : list (list ascii)) : Prop :=
  shape n b /\ forall i' j', inside i' j' ->
    get2 b i' j' = if (i' <? i) || ((i' =? i) && (j' <? j)) then flipped m i' j' else get2 board i' j'.

Lemma flip_step m i j b :
  valid m -> inside i j -> done_upto m i j b ->
  exists b', (index ← getIndex n i j;
    c ← get2 b i j;
    flip ← (if (c =? "O")%char then m ← arr_get m index; Some (negb (m =? NOT_SUR)) else Some false);
    if flip : bool then set2 b i j "X" else Some b) = Some b' /\ done_upto m i (j + 1) b'.
Proof.
  intros [Hm _] Hin [Hsh Hd]. rewrite getIndex_inside by done. cbn [mbind option_bind].
  rewrite Hd by done. zfalse ((i <? i) || ((i =? i) && (j <? j))).
  destruct (get2_shape n board i j Hb Hin) as [c Ec]. rewrite Ec. cbn [mbind option_bind].
  assert (forall b', shape n b' -> (forall i' j', inside i' j' -> get2 b' i' j' = if (i' =? i) && (j' =? j) then flipped m i j else get2 b i' j') ->
    done_upto m i (j + 1) b') as Hdone.
  { intros b' Hsh' Hd'. split; [done|]. intros i' j' Hin'. rewrite Hd', Hd by done.
    destruct (Z.eqb_spec i' i) as [->|]; destruct (Z.eqb_spec j' j) as [->|]; cbn [andb].
    - by ztrue ((i <? i) || (j <? j + 1)).
    - replace (j' <? j + 1) with (j' <? j) by (apply eq_true_iff_eq; lia). done.
    - done.
    - done. }
  assert (flipped m i j = get2 b i j -> forall i' j', inside i' j' ->
    get2 b i' j' = if (i' =? i) && (j' =? j) then flipped m i j else get2 b i' j') as Hsame.
  { intros -> i' j' _. destruct (Z.eqb_spec i' i) as [->|]; [|done]. by destruct (Z.eqb_spec j' j) as [->|]. }
  assert (get2 b i j = Some c) as Eb by (rewrite Hd, Ec by done; by zfalse ((i <? i) || ((i =? i) && (j <? j)))).
  rewrite Eb in Hsame. unfold flipped in Hsame, Hdone. rewrite Ec in Hsame, Hdone. cbn [mbind option_bind] in Hsame, Hdone.
  destruct (c =? "O")%char eqn:EO; cbn [mbind option_bind].
  - pose proof (index_range i j Hin). rewrite arr_get_at by lia. cbn [mbind option_bind]. unfold NOT_SUR.
    destruct (at_ m (i * n + j) =? 1) eqn:E1; cbn [negb].
    + exists b. split; [done|]. apply Hdone; [done|]. by apply Hsame.
    + destruct (set2_shape n b i j "X" Hsh Hin) as (b' & -> & Hsh' & Hb'). exists b'. split; [done|]. by apply Hdone.
  - exists b. split; [done|]. apply Hdone; [done|]. by apply Hsame.
Qed.

Lemma flip_spec m :
  valid m -> exists b, flipWithMark n n board m = Some b /\ shape n b /\
    forall i j, inside i j -> get2 b i j = flipped m i j.
Proof.
  intros Hm. destruct Hb as [Hn _]. unfold flipWithMark.
  destruct (for_upto (fun i b => done_upto m i 0 b) 0 (n - 1) (fun i board => for_ (upto 0 (n - 1)) (fun j board =>
    index ← getIndex n i j;
    c ← get2 board i j;
    flip ← (if (c =? "O")%char then m ← arr_get m index; Some (negb (m =? NOT_SUR)) else Some false);
    if flip : bool then set2 board i j "X" else Some board) board) board) as (b & -> & Hsh & Hd); [lia| | |].
  - split; [done|]. intros i' j' [? ?]. by zfalse ((i' <? 0) || ((i' =? 0) && (j' <? 0))).
  - intros i b Hi Hdi. destruct (for_upto (fun j b => done_upto m i j b) 0 (n - 1) (fun j board =>
    index ← getIndex n i j;
    c ← get2 board i j;
    flip ← (if (c =? "O")%char then m ← arr_get m index; Some (negb (m =? NOT_SUR)) else Some false);
    if flip : bool then set2 board i j "X" else Some board) b) as (b' & -> & Hsh & Hd); [lia|done| |].
    + intros j b1 Hj Hd1. apply flip_step; [done|split; lia|done].
    + exists b'. split; [done|]. split; [done|]. intros i' j' Hin. rewrite Hd by done. destruct Hin.
      replace ((i' <? i) || ((i' =? i) && (j' <? n - 1 + 1))) with ((i' <? i + 1) || ((i' =? i + 1) && (j' <? 0))); [done|].
      apply eq_true_iff_eq. lia.
  - exists b. split; [done|]. split; [done|]. intros i j Hin. rewrite Hd by done. destruct Hin.
    by ztrue ((i <? n - 1 + 1) || ((i =? n - 1 + 1) && (j <? 0))).
Qed.
End Proof.

(** On a square board solve turns into X exactly the places with an O that no
    path leads to from an O on the border. *)
Theorem solve_safe n board :
  shape n board -> n * n <= 2147483647 ->
  exists b, solve board = Some b /\ shape n b /\ forall i j, inside n i j ->
    (get2 board i j = Some "O" /\ ~ safe board n i j -> get2 b i j = Some "X") /\
    (get2 board i j <> Some "O" \/ safe board n i j -> get2 b i j = get2 board i j).
Proof.
  intros Hb Hnn. pose proof Hb as [Hn Hrows]. unfold solve. cbn zeta. rewrite Hn.
  destruct (Z.eqb_spec n 0) as [->|H0].
  { exists board. split; [done|]. split; [done|]. intros i j [? ?]. lia. }
  destruct (arr_get_in board 0) as [row Er]; [lia|]. rewrite Er. cbn [mbind option_bind].
  apply arr_get_Some in Er as [_ Er]. apply (Forall_lookup_1 _ _ _ _ Hrows) in Er. rewrite Er. zfalse (n =? 0).
  rewrite chk32_ok by nia. cbn [mbind option_bind]. unfold UNVISITED.
  destruct (border_marks board n Hb Hnn) as (m & -> & Hm & Hmark). cbn [mbind option_bind].
  destruct (flip_spec board n Hb Hnn m Hm) as (b & -> & Hsh & Hflip). exists b. split; [done|]. split; [done|].
  intros i j Hin. rewrite Hflip, <- Hmark by done. unfold flipped, marked.
  destruct (get2_shape n board i j Hb Hin) as [c Ec]. rewrite Ec. cbn [mbind option_bind].
  destruct (Ascii.eqb_spec c "O") as [->|Hc].
  - destruct (Z.eqb_spec (at_ m (i * n + j)) 1); (split; [by intros [? ?]|by intros [?|?]]).
  - split; [intros [? _]; congruence|done].
Qed.

Lemma solve_safe_witness :
  let board := [["X"; "X"; "X"]; ["X"; "O"; "X"]; ["O"; "X"; "O"]] in
  shape 3 board /\ 3 * 3 <= 2147483647 /\
  solve board = Some [["X"; "X"; "X"]; ["X"; "X"; "X"]; ["O"; "X"; "O"]] /\
  exists b, solve board = Some b /\ shape 3 b /\ forall i j, inside 3 i j ->
    (get2 board i j = Some "O" /\ ~ safe board 3 i j -> get2 b i j = Some "X") /\
    (get2 board i j <> Some "O" \/ safe board 3 i j -> get2 b i j = get2 board i j).
Proof.
  cbv zeta. assert (shape 3 [["X"; "X"; "X"]; ["X"; "O"; "X"]; ["O"; "X"; "O"]]) as H by (split; [done|by repeat constructor]).
  split; [done|]. split; [lia|]. split; [by vm_compute|]. apply solve_safe; [done|lia].
Defined.

(** The index is [i * N + j] where [N] counts the rows. On a board with more
    columns a place shares its mark with another: the one in the middle has the
    mark of the last in the first row. *)
Lemma solve_wide :
  solve [["X"; "X"; "X"; "X"; "O"]; ["X"; "O"; "X"; "X"; "X"]; ["X"; "X"; "X"; "X"; "X"]] =
  Some [["X"; "X"; "X"; "X"; "O"]; ["X"; "O"; "X"; "X"; "X"]; ["X"; "X"; "X"; "X"; "X"]].
Proof. reflexivity. Qed.

(** On a board with more rows the index is outside of the array. *)
Lemma solve_tall : solve [["X"]; ["X"]; ["O"]] = None.
Proof. reflexivity. Qed.
End RegionsProps.
