(* ===== verification/Ladders.v ===== *)
(** * Ladders: word-ladder.cc and word-ladder-2.cc of src/code/leetcode

    The words are the vertices of a graph. The first program searches it in
    breadth, the second computes all distances and lists the shortest ladders. *)

From S2P Require Import Prelude Loops Words Texts.
From Stdlib Require Import Ascii.

Local Open Scope char_scope.
Local Open Scope Z_scope.

Local Notation str := (list ascii).

(** A [std::string] may be read at its end, where the value is 0. *)
Definition str_get (s : str) (x : Z) : option ascii :=
  if x =? size s then Some zero else arr_get s x.

(** ** word-ladder.cc *)
Module Ladder.
Section Words.
Variable res : list str.
Notation N := (size res).

(** src/code/leetcode/word-ladder.cc:43-49 [Solution::isAdjacent (loop)] *)
Fixpoint differ (xs : list Z) (a b : str) (diff : Z) : option bool :=
  match xs with
  | [] => Some true
  | x :: xs =>
      ca ← str_get a x; cb ← str_get b x;
      if (ca =? cb)%char then differ xs a b diff else
      if 2 <=? diff + 1 then Some false else differ xs a b (diff + 1)
  end.

(** src/code/leetcode/word-ladder.cc:41-52 [Solution::isAdjacent] *)
Definition isAdjacent (i j : Z) : option bool :=
  a ← arr_get res i; b ← arr_get res j; differ (upto 0 (size a - 1)) a b 0.

(** [graph[i].push_back(j)] *)
Definition push (graph : list (list Z)) (i j : Z) : option (list (list Z)) :=
  g ← arr_get graph i; arr_set graph i (g ++ [j]).

(** src/code/leetcode/word-ladder.cc:54-63 [Solution::makeGraph] *)
Definition makeGraph (graph : list (list Z)) : option (list (list Z)) :=
  for_ (upto 0 (N - 1)) (fun i graph => for_ (upto (i + 1) (N - 1)) (fun j graph =>
    adj ← isAdjacent i j;
    if adj : bool then graph ← push graph j i; push graph i j else Some graph) graph) graph.

(** src/code/leetcode/word-ladder.cc:83-90 [Solution::getMinDist (neighbours)] *)
Fixpoint visit (vs : list Z) (d : Z) (mask : list (option Z)) (Q1 Q2 : list Z)
  : option (list (option Z) * list Z * list Z) :=
  match vs with
  | [] => Some (mask, Q1, Q2)
  | v :: vs =>
      m ← vget mask v;
      if m =? 0 then mask ← vset mask v 1; visit vs d mask (Q1 ++ [v]) (Q2 ++ [d + 1])
      else visit vs d mask Q1 Q2
  end.

(** src/code/leetcode/word-ladder.cc:73-91 [Solution::getMinDist (loop)]
    There is no [return] after the loop. *)
Fixpoint search (fuel : nat) (graph : list (list Z)) (mask : list (option Z)) (Q1 Q2 : list Z) : option Z :=
  match fuel with
  | O => None
  | S fuel =>
      match Q1, Q2 with
      | n :: Q1, d :: Q2 =>
          if n =? N - 1 then Some (d + 1) else
          vs ← arr_get graph n;
          '(mask, Q1, Q2) ← visit vs d mask Q1 Q2;
          search fuel graph mask Q1 Q2
      | _, _ => None
      end
  end.

(** src/code/leetcode/word-ladder.cc:66-92 [Solution::getMinDist]
    [new char[N]] leaves the cells uninitialised. *)
Definition getMinDist (graph : list (list Z)) : option Z :=
  mask ← vset (vla N) 0 1; search (S (length res)) graph mask [0] [0].
End Words.

(** src/code/leetcode/word-ladder.cc:19-39 [Solution::ladderLength]
    [dict] is the set in the order of its iterator. *)
Definition ladderLength (start end_ : str) (dict : list str) : option Z :=
  let res := start :: dict ++ [end_] in
  graph ← makeGraph res (replicate (length res) []);
  getMinDist res graph.
End Ladder.

(** ** word-ladder-2.cc *)
Module Ladders.

(** The value an [int] has once it is stored in a [char]. *)
Definition wrap8 (d : Z) : Z := (d + 128) mod 256 - 128.

Section Words.
Variable res : list str.
Notation N := (size res).

(** src/code/leetcode/word-ladder-2.cc:46-48 [Solution::getIndex] *)
Definition getIndex (i j : Z) : option Z := a ← chk32 (i * N); chk32 (a + j).

(** src/code/leetcode/word-ladder-2.cc:50-58 [Solution::isAdjacent] *)
Definition isAdjacent (i j : Z) : option bool :=
  a ← arr_get res i; b ← arr_get res j;
  diff ← for_ (upto 0 (size a - 1)) (fun x diff =>
    ca ← str_get a x; cb ← str_get b x; Some (if (ca =? cb)%char then diff else diff + 1)) 0;
  Some (diff <=? 1).

(** Reading and writing the table. *)
Definition dget (dist : list Z) (i j : Z) : option Z := k ← getIndex i j; arr_get dist k.
Definition dset (dist : list Z) (i j d : Z) : option (list Z) := k ← getIndex i j; arr_set dist k d.

(** src/code/leetcode/word-ladder-2.cc:70-84 [Solution::calcDist] *)
Definition calcDist (dist : list Z) : option (list Z) :=
  for_ (upto 0 (N - 1)) (fun i dist => for_ (upto i (N - 1)) (fun j dist =>
    if i =? j then dset dist i j 0 else
    adj ← isAdjacent i j;
    let d := if adj : bool then 1 else -1 in
    dist ← dset dist i j d; dset dist j i d) dist) dist.

(** src/code/leetcode/word-ladder-2.cc:97-109 [Solution::calcFloyd (columns)]
    The loop counts [kj] and [ij] up along with [j]. *)
Definition columns (dist : list Z) (i ik kj ij : Z) : option (list Z) :=
  '(dist, _, _) ← for_ (upto (i + 1) (N - 1)) (fun j '(dist, kj, ij) =>
    b ← arr_get dist kj;
    if b =? -1 then Some (dist, kj + 1, ij + 1) else
    a ← arr_get dist ik;
    let d := a + b in
    c ← arr_get dist ij;
    dist ← (if (c =? -1) || (d <? c) then arr_set dist ij (wrap8 d) else Some dist);
    c ← arr_get dist ij;
    dist ← dset dist j i c;
    Some (dist, kj + 1, ij + 1)) (dist, kj, ij);
  Some dist.

(** src/code/leetcode/word-ladder-2.cc:91-110 [Solution::calcFloyd (rows)] *)
Definition rows (dist : list Z) (k : Z) : option (list Z) :=
  '(dist, _) ← for_ (upto 0 (N - 1)) (fun i '(dist, ik) =>
    a ← arr_get dist ik;
    if a =? -1 then Some (dist, ik + N) else
    kj ← getIndex k (i + 1); ij ← getIndex i (i + 1);
    dist ← columns dist i ik kj ij;
    Some (dist, ik + N)) (dist, k);
  Some dist.

(** src/code/leetcode/word-ladder-2.cc:89-112 [Solution::calcFloyd] *)
Definition calcFloyd (dist : list Z) : option (list Z) :=
  for_ (upto 0 (N - 1)) (fun k dist => rows dist k) dist.

(** src/code/leetcode/word-ladder-2.cc:114-138 [Solution::getDescription]
    A distance is a [char] and each call has one that is less by one. *)
Fixpoint getDescription (fuel : nat) (dist : list Z) (f : Z) : option (list (list str)) :=
  match fuel with
  | O => None
  | S fuel =>
      if f =? N - 1 then w ← arr_get res f; Some [[w]] else
      for_ (upto 0 (N - 1)) (fun i vvs =>
        a ← dget dist f i;
        next ← (if a =? 1 then b ← dget dist i (N - 1); c ← dget dist f (N - 1); Some (b =? c - 1) else Some false);
        if next : bool then
          vvs2 ← getDescription fuel dist i; w ← arr_get res f; Some (vvs ++ map (cons w) vvs2)
        else Some vvs) []
  end.

(** src/code/leetcode/word-ladder-2.cc:156-162 [Solution::getMinDist (neighbours)] *)
Definition neighbours (dist : list Z) (n d : Z) (s : gset Z * list (Z * Z)) : option (gset Z * list (Z * Z)) :=
  for_ (upto 0 (N - 1)) (fun i '(mask, Q) =>
    if bool_decide (i ∈ mask) then Some (mask, Q) else
    a ← dget dist n i;
    Some (if a =? 1 then ({[i]} ∪ mask, Q ++ [(i, d + 1)]) else (mask, Q))) s.

(** src/code/leetcode/word-ladder-2.cc:148-164 [Solution::getMinDist (loop)]
    The two queues hold the vertices and their distances. There is no [return]
    after the loop. *)
Fixpoint search (fuel : nat) (dist : list Z) (mask : gset Z) (Q : list (Z * Z)) : option Z :=
  match fuel with
  | O => None
  | S fuel =>
      match Q with
      | [] => None
      | (n, d) :: Q =>
          if n =? N - 1 then Some d else
          '(mask, Q) ← neighbours dist n d (mask, Q); search fuel dist mask Q
      end
  end.

(** src/code/leetcode/word-ladder-2.cc:141-165 [Solution::getMinDist] *)
Definition getMinDist (dist : list Z) : option Z := search (S (length res)) dist {[0]} [(0, 0)].
End Words.

(** src/code/leetcode/word-ladder-2.cc:20-44 [Solution::findLadders]
    The number it prints and the ladders. *)
Definition findLadders (start end_ : str) (dict : list str) : option (Z * list (list str)) :=
  let res := start :: dict ++ [end_] in
  let N := size res in
  nn ← chk32 (N * N);
  dist ← calcDist res (replicate (Z.to_nat nn) 0);
  d ← getMinDist res dist;
  dist ← calcFloyd res dist;
  vvs ← getDescription res 256 dist 0;
  Some (d, vvs).
End Ladders.

Module LadderProps.
Import Ladder.

Definition away (g : list (list Z)) : Prop := forall vs, g !! 0%nat = Some vs -> Forall (fun v => v <> 0) vs.

Lemma push_away g g' i j : (i = 0 -> j <> 0) -> away g -> push g i j = Some g' -> away g'.
Proof.
  unfold push. intros Hij Hg. destruct (arr_get g i) as [vs|] eqn:E; [|done]. cbn. unfold arr_set. case_bool; [|done].
  intros [= <-] ws Hw. apply arr_get_Some in E as [Hi E]. destruct (decide (i = 0)) as [->|].
  - rewrite list_lookup_insert_eq in Hw by lia. injection Hw as <-. apply Forall_app. split; [by apply Hg|].
    apply Forall_singleton. by apply Hij.
  - rewrite list_lookup_insert_ne in Hw by lia. by apply Hg.
Qed.

(** Whatever the words are: as soon as the first has a neighbour the mark of that
    is read, which nothing has written; without one the queue runs empty and the
    function ends without a value. *)
Theorem ladderLength_undefined start end_ dict : ladderLength start end_ dict = None.
Proof.
  unfold ladderLength. cbn zeta. set (res := start :: dict ++ [end_]).
  assert (2 <= size res) as Hn by (unfold res; cbn; rewrite length_app; cbn; lia).
  destruct (makeGraph res _) as [g|] eqn:Eg; [|done]. cbn [mbind option_bind].
  assert (away g) as Hg.
  { eapply for_keeps; [| |exact Eg].
    - intros vs Hv. apply lookup_replicate in Hv as [-> _]. constructor.
    - intros i g1 g2 Hi%elem_of_upto Hg1. apply for_keeps; [done|]. intros j g3 g4 Hj%elem_of_upto Hg3.
      destruct (isAdjacent res i j) as [[]|]; cbn; [|by intros [= <-]|done].
      destruct (push g3 j i) as [g5|] eqn:E5; [|done]. cbn. intros E6.
      eapply push_away; [|eapply push_away; [|exact Hg3|exact E5]|exact E6]; lia. }
  unfold getMinDist. rewrite vset_in by (rewrite length_replicate; lia). cbn [mbind option_bind search].
  zfalse (0 =? size res - 1). destruct (arr_get g 0) as [vs|] eqn:E0; [|done]. cbn [mbind option_bind].
  apply arr_get_Some in E0 as [_ E0]. specialize (Hg vs E0). destruct Hg as [|v vs Hv Hvs].
  - cbn. by destruct (length res).
  - cbn [visit]. destruct (vget _ v) as [m|] eqn:Em; [|done]. exfalso. unfold vget in Em.
    destruct (arr_get _ v) as [c|] eqn:Ec; [|done]. cbn in Em. subst c. apply arr_get_Some in Ec as [H0 Ec].
    rewrite list_lookup_insert_ne in Ec by lia. by apply lookup_replicate in Ec as [? _].
Qed.
End LadderProps.

(** ** word-ladder-2.cc: theorems *)
Module LaddersProps.
Import Ladders.

(** *** Walks in a graph, and their restriction to the first vertices *)

Section Graph.
Variable N : Z.
Variable E : Z -> Z -> Prop.
Hypothesis E_inside : forall i j, E i j -> (0 <= i < N /\ 0 <= j < N) /\ i <> j.

(** The walks of [n] steps whose vertices between the ends are below [k]. *)
Inductive walk (k : Z) : Z -> Z -> Z -> Prop :=
| walk_nil i : 0 <= i < N -> walk k i i 0
| walk_edge i j : E i j -> walk k i j 1
| walk_cons i m j n : E i m -> 0 <= m < k -> walk k m j n -> walk k i j (n + 1).

Lemma walk_bounds k i j n : walk k i j n -> 0 <= i < N /\ 0 <= j < N /\ 0 <= n.
Proof. induction 1 as [|i j He%E_inside|i m j n He%E_inside]; lia. Qed.

Lemma walk_mono k k' i j n : k <= k' -> walk k i j n -> walk k' i j n.
Proof. induction 2; [by apply walk_nil|by apply walk_edge|]. eapply walk_cons; [done|lia|done]. Qed.

Lemma walk_app k m i j n n' : 0 <= m < k -> walk k i m n -> walk k m j n' -> walk k i j (n + n').
Proof.
  intros Hm Hw. revert Hm. induction Hw as [i|i m He|i x m n He Hx Hw IH]; intros Hm Hw'.
  - done.
  - replace (1 + n') with (n' + 1) by lia. by eapply walk_cons.
  - replace (n + 1 + n') with (n + n' + 1) by lia. eapply walk_cons; [done..|]. by apply IH.
Qed.

(** A walk below [k + 1] avoids [k], or passes through it. *)
Lemma walk_split k i j n :
  0 <= k -> walk (k + 1) i j n -> walk k i j n \/ exists a b, walk k i k a /\ walk k k j b /\ a + b <= n.
Proof.
  intros Hk Hw. induction Hw as [i Hi|i j He|i m j n He Hm Hw IH].
  - left. by apply walk_nil.
  - left. by apply walk_edge.
  - destruct (decide (m = k)) as [->|Hne].
    + right. destruct IH as [IH|(a & b & Ha & Hb & Hab)].
      * exists 1, n. split; [by apply walk_edge|]. split; [done|lia].
      * apply walk_bounds in Ha. exists 1, b. split; [by apply walk_edge|]. split; [done|lia].
    + destruct IH as [IH|(a & b & Ha & Hb & Hab)].
      * left. eapply walk_cons; [done|lia|done].
      * right. exists (a + 1), b. split; [eapply walk_cons; [done|lia|done]|]. split; [done|lia].
Qed.

(** What the table holds: the least number of steps, or -1. *)
Definition dist_ok (k i j d : Z) : Prop :=
  (d = -1 /\ forall n, ~ walk k i j n) \/ (walk k i j d /\ forall n, walk k i j n -> d <= n).

Lemma dist_fun k i j d d' : dist_ok k i j d -> dist_ok k i j d' -> d = d'.
Proof.
  intros [[-> H]|[H Hm]] [[-> H']|[H' Hm']]; [done|by apply H in H'|by apply H' in H|].
  apply Hm in H' as ?. apply Hm' in H as ?. lia.
Qed.

Lemma dist_self k i d : dist_ok k i i d -> 0 <= i < N -> d = 0.
Proof.
  intros H Hi. eapply dist_fun; [done|]. right. split; [by apply walk_nil|]. intros n Hw. apply walk_bounds in Hw. lia.
Qed.

(** What Floyd's round makes of an entry. *)
Definition relax (c a b : Z) : Z :=
  if (a =? -1) || (b =? -1) then c else if (c =? -1) || (a + b <? c) then a + b else c.

Lemma dist_relax k i j c a b :
  0 <= k -> dist_ok k i j c -> dist_ok k i k a -> dist_ok k k j b -> dist_ok (k + 1) i j (relax c a b).
Proof.
  intros Hk Hc Ha Hb. unfold relax.
  assert (forall n, walk k i j n -> walk (k + 1) i j n) as Hup by (intros n; apply walk_mono; lia).
  assert (forall n, walk (k + 1) i j n -> walk k i j n \/ exists a b, walk k i k a /\ walk k k j b /\ a + b <= n) as Hsp
    by (intros; by apply walk_split).
  destruct Ha as [[-> Ha]|[Ha Hma]].
  { cbn. destruct Hc as [[-> Hc]|[Hc Hmc]]; [left|right]; (split; [by auto|]);
      intros n [Hw|(x & y & Hx%Ha & _)]%Hsp; [by apply Hc in Hw|done|by apply Hmc|done]. }
  destruct Hb as [[-> Hb]|[Hb Hmb]].
  { rewrite orb_true_r. destruct Hc as [[-> Hc]|[Hc Hmc]]; [left|right]; (split; [by auto|]);
      intros n [Hw|(x & y & _ & Hy%Hb & _)]%Hsp; [by apply Hc in Hw|done|by apply Hmc|done]. }
  pose proof (walk_bounds _ _ _ _ Ha). pose proof (walk_bounds _ _ _ _ Hb). zfalse ((a =? -1) || (b =? -1)). cbv iota.
  assert (walk (k + 1) i j (a + b)) as Hab by (apply (walk_app (k + 1) k); [lia|by (eapply walk_mono; [|done]; lia)..]).
  assert (forall n x y, walk k i k x -> walk k k j y -> x + y <= n -> a + b <= n) as Hle.
  { intros n x y Hx%Hma Hy%Hmb. lia. }
  destruct Hc as [[-> Hc]|[Hc Hmc]].
  - cbn. right. split; [done|]. intros n [Hw|(x & y & Hx & Hy & Hxy)]%Hsp; [by apply Hc in Hw|by eapply Hle].
  - pose proof (walk_bounds _ _ _ _ Hc). zfalse (c =? -1). cbn [orb]. destruct (Z.ltb_spec (a + b) c) as [Hlt|Hge].
    + right. split; [done|]. intros n [Hw%Hmc|(x & y & Hx & Hy & Hxy)]%Hsp; [lia|by eapply Hle].
    + right. split; [auto|]. intros n [Hw%Hmc|(x & y & Hx & Hy & Hxy)]%Hsp; [done|].
      assert (a + b <= n) by (by eapply Hle). lia.
Qed.

(** *** A shortest walk does not come back *)

Fixpoint links (i : Z) (p : list Z) (j : Z) : Prop :=
  match p with [] => E i j | m :: p => E i m /\ links m p j end.

Lemma links_app i p x q j : links i (p ++ x :: q) j <-> links i p x /\ links x q j.
Proof. revert i. induction p as [|m p IH]; intros i; cbn; [done|]. rewrite IH. tauto. Qed.

Lemma walk_links k i j n :
  walk k i j n -> (i = j /\ n = 0) \/ exists p, links i p j /\ Forall (fun m => 0 <= m < k) p /\ n = size p + 1.
Proof.
  induction 1 as [i|i j He|i m j n He Hm Hw IH]; [by left|right; by exists []|right].
  destruct IH as [[-> ->]|(p & Hl & Hp & ->)].
  - exists []. done.
  - exists (m :: p). split; [done|]. split; [by constructor|]. cbn [length]. lia.
Qed.

Lemma links_walk k i p j : links i p j -> Forall (fun m => 0 <= m < k) p -> walk k i j (size p + 1).
Proof.
  revert i. induction p as [|m p IH]; intros i Hl Hp; [by apply walk_edge|]. destruct Hl as [He Hl].
  inversion Hp; subst. replace (size (m :: p) + 1) with (size p + 1 + 1) by (cbn [length]; lia).
  eapply walk_cons; [done..|]. by apply IH.
Qed.

Lemma repeated (p : list Z) : ~ NoDup p -> exists p1 x p2 p3, p = p1 ++ x :: p2 ++ x :: p3.
Proof.
  induction p as [|x p IH]; intros H; [destruct H; apply NoDup_nil_2|].
  destruct (decide (x ∈ p)) as [(p2 & p3 & ->)%list_elem_of_split|Hx].
  - by exists [], x, p2, p3.
  - destruct IH as (p1 & y & p2 & p3 & ->); [intros Hp; apply H; by constructor|]. by exists (x :: p1), y, p2, p3.
Qed.

Lemma pigeons (p : list Z) k : 0 <= k -> NoDup p -> Forall (fun m => 0 <= m < k) p -> size p <= k.
Proof.
  intros Hk Hd Hp. assert (p ⊆+ seqZ 0 k) as Hs.
  { apply NoDup_submseteq; [done|]. intros x Hx. apply elem_of_seqZ. rewrite Forall_forall in Hp. specialize (Hp x Hx). cbn in Hp. lia. }
  apply submseteq_length in Hs. rewrite length_seqZ in Hs. lia.
Qed.

Lemma dist_bound k i j d : 0 <= k -> dist_ok k i j d -> -1 <= d <= k + 1.
Proof.
  intros Hk [[-> _]|[Hw Hm]]; [lia|]. destruct (walk_links _ _ _ _ Hw) as [[_ ->]|(p & Hl & Hp & ->)]; [lia|].
  destruct (decide (NoDup p)) as [Hd|(p1 & x & p2 & p3 & ->)%repeated]; [pose proof (pigeons p k Hk Hd Hp); lia|].
  exfalso. rewrite links_app in Hl. destruct Hl as [Hl1 Hl]. rewrite links_app in Hl. destruct Hl as [_ Hl3].
  rewrite !Forall_app, !Forall_cons, !Forall_app, !Forall_cons in Hp.
  assert (walk k i j (size (p1 ++ x :: p3) + 1)) as Hs%Hm.
  { apply links_walk; [by apply links_app|]. rewrite Forall_app, Forall_cons. tauto. }
  rewrite !length_app in Hs. cbn [length] in Hs. rewrite length_app in Hs. cbn [length] in Hs. lia.
Qed.
End Graph.

(** *** The words and the table of their distances *)

(** In how many places two words differ. *)
Definition ham (a b : str) : Z :=
  sumf (fun x => if decide (a !! Z.to_nat x = b !! Z.to_nat x) then 0 else 1) 0 (size a).

Lemma wrap8_small d : -128 <= d <= 127 -> wrap8 d = d.
Proof. intros. unfold wrap8. rewrite Z.mod_small by lia. lia. Qed.

Section Words.
Variable res : list str.
Notation N := (size res).
Variable L : Z.
Hypothesis HL : Forall (fun w => size w = L) res.
Hypothesis HN : N <= 126.

(** Two words that differ in one place at most, at different places of the list. *)
Definition adjacent (i j : Z) : Prop :=
  i <> j /\ exists a b, arr_get res i = Some a /\ arr_get res j = Some b /\ ham a b <= 1.
Notation inside i j := (0 <= i < N /\ 0 <= j < N).
Notation dist_ok := (dist_ok N adjacent).

Lemma arr_get_lt {A} (l : list A) i x : arr_get l i = Some x -> 0 <= i < size l.
Proof. intros [Hi Hx]%arr_get_Some. apply lookup_lt_Some in Hx. lia. Qed.

Lemma adjacent_inside i j : adjacent i j -> inside i j /\ i <> j.
Proof. intros (Hne & a & b & Ha%arr_get_lt & Hb%arr_get_lt & _). done. Qed.

Lemma word_at i : 0 <= i < N -> exists w, arr_get res i = Some w /\ size w = L.
Proof.
  intros Hi. destruct (arr_get_in res i Hi) as [w Ew]. exists w. split; [done|].
  apply arr_get_Some in Ew as [_ Ew]. by apply (Forall_lookup_1 _ _ _ _ HL) in Ew.
Qed.

Lemma ham_sym a b : size a = size b -> ham a b = ham b a.
Proof.
  intros E. unfold ham. rewrite E. apply Z.le_antisymm; apply sumf_le; intros i _;
    destruct (decide (a !! Z.to_nat i = b !! Z.to_nat i)), (decide (b !! Z.to_nat i = a !! Z.to_nat i)); try lia; congruence.
Qed.

Lemma adjacent_sym i j : adjacent i j -> adjacent j i.
Proof.
  intros H. pose proof (adjacent_inside i j H) as [[Hi Hj] _]. destruct H as (Hne & a & b & Ha & Hb & Hh).
  split; [done|]. exists b, a. split; [done|]. split; [done|]. destruct (word_at i Hi) as (? & ? & ?), (word_at j Hj) as (? & ? & ?).
  rewrite ham_sym; [done|congruence].
Qed.

Lemma isAdjacent_spec i j :
  inside i j -> i <> j -> exists b : bool, isAdjacent res i j = Some b /\ (b = true <-> adjacent i j).
Proof.
  intros [Hi Hj] Hne. unfold isAdjacent.
  destruct (word_at i Hi) as (a & Ea & La), (word_at j Hj) as (b & Eb & Lb). rewrite Ea, Eb. cbn [mbind option_bind].
  destruct (for_upto (fun x diff => diff = sumf (fun x => if decide (a !! Z.to_nat x = b !! Z.to_nat x) then 0 else 1) 0 x)
    0 (size a - 1) (fun x diff =>
    ca ← str_get a x; cb ← str_get b x; Some (if (ca =? cb)%char then diff else diff + 1)) 0) as (d & -> & ->); [lia|done| |].
  - intros x ? Hx ->. unfold str_get. zfalse (x =? size a). zfalse (x =? size b).
    destruct (arr_get_in a x) as [ca Eca]; [lia|]. destruct (arr_get_in b x) as [cb Ecb]; [lia|].
    rewrite Eca, Ecb. cbn [mbind option_bind]. eexists. split; [done|]. rewrite sumf_snoc by lia.
    apply arr_get_Some in Eca as [_ Eca], Ecb as [_ Ecb]. rewrite Eca, Ecb.
    destruct (Ascii.eqb_spec ca cb) as [->|Hc]; destruct (decide _); try congruence; lia.
  - cbn [mbind option_bind]. eexists. split; [done|]. rewrite Z.sub_add. fold (ham a b). rewrite Z.leb_le. split.
    + intros Hh. split; [done|]. by exists a, b.
    + intros (_ & a' & b' & Ea' & Eb' & Hh). congruence.
Qed.

(** The entries. *)
Definition cell (d : list Z) (i j : Z) : Z := at_ d (i * N + j).

Lemma index_bounds i j : inside i j -> 0 <= i * N + j < N * N.
Proof. nia. Qed.

Lemma squares : N * N <= 15876.
Proof. nia. Qed.

Lemma getIndex_ok i j : 0 <= i < N -> 0 <= j <= N -> getIndex res i j = Some (i * N + j).
Proof.
  intros. pose proof squares. assert (0 <= i * N /\ i * N + j <= N * N) by nia. unfold getIndex.
  rewrite chk32_ok by lia. cbn [mbind option_bind]. by rewrite chk32_ok by lia.
Qed.

Lemma get_cell d i j : size d = N * N -> inside i j -> arr_get d (i * N + j) = Some (cell d i j).
Proof. intros Hd Hin. pose proof (index_bounds i j Hin). apply arr_get_at. lia. Qed.

Lemma set_cell d i j v :
  size d = N * N -> inside i j ->
  exists d', arr_set d (i * N + j) v = Some d' /\ size d' = N * N /\
    forall a b, inside a b -> cell d' a b = if (a =? i) && (b =? j) then v else cell d a b.
Proof.
  intros Hd Hin. pose proof (index_bounds i j Hin). rewrite arr_set_in by lia. eexists. split; [done|].
  rewrite length_insert. split; [done|]. intros a b Hab. pose proof (index_bounds a b Hab). unfold cell, at_.
  destruct (Z.eqb_spec a i) as [->|Ha]; [destruct (Z.eqb_spec b j) as [->|Hb]|]; cbn [andb].
  - by rewrite list_lookup_total_insert_eq by lia.
  - by rewrite list_lookup_total_insert_ne by lia.
  - rewrite list_lookup_total_insert_ne; [done|]. intros E. apply Ha. assert (a * N + b = i * N + j) by lia. nia.
Qed.

Lemma dget_ok d i j : size d = N * N -> inside i j -> dget res d i j = Some (cell d i j).
Proof. intros Hd [Hi Hj]. unfold dget. rewrite getIndex_ok by lia. by apply get_cell. Qed.

Lemma dset_ok d i j v :
  size d = N * N -> inside i j ->
  exists d', dset res d i j v = Some d' /\ size d' = N * N /\
    forall a b, inside a b -> cell d' a b = if (a =? i) && (b =? j) then v else cell d a b.
Proof. intros Hd Hin. unfold dset. rewrite getIndex_ok by lia. by apply set_cell. Qed.

(** The pairs a loop over [i] and [j] with [i <= j] is done with. *)
Definition past (i j a b : Z) : bool := (Z.min a b <? i) || ((Z.min a b =? i) && (Z.max a b <? j)).

(** What [calcDist] puts into an entry. *)
Definition initial (i j d : Z) : Prop :=
  (i = j /\ d = 0) \/ (adjacent i j /\ d = 1) \/ (i <> j /\ ~ adjacent i j /\ d = -1).

Lemma calcDist_step i j d :
  0 <= i <= j -> j < N -> size d = N * N -> (forall a b, inside a b -> past i j a b = true -> initial a b (cell d a b)) ->
  exists d', (if i =? j then dset res d i j 0 else
    adj ← isAdjacent res i j;
    let d1 := if adj : bool then 1 else -1 in
    dist ← dset res d i j d1; dset res dist j i d1) = Some d' /\ size d' = N * N /\
    forall a b, inside a b -> past i (j + 1) a b = true -> initial a b (cell d' a b).
Proof.
  intros Hi Hj Hd Hp. assert (inside i j /\ inside j i) as [Hij Hji] by lia.
  assert (forall a b, past i (j + 1) a b = true -> past i j a b = true \/ (a = i /\ b = j) \/ (a = j /\ b = i)) as Hpast
    by (unfold past; lia).
  destruct (Z.eqb_spec i j) as [->|Hne].
  - destruct (dset_ok d j j 0 Hd Hij) as (d' & -> & Hs & Hc). exists d'. split; [done|]. split; [done|].
    intros a b Hab HP. rewrite Hc by done. destruct (Z.eqb_spec a j) as [->|]; [destruct (Z.eqb_spec b j) as [->|]|]; cbn [andb];
      [by left|apply Hp; [done|]|apply Hp; [done|]]; apply Hpast in HP as [|[[? ?]|[? ?]]]; (done || lia).
  - destruct (isAdjacent_spec i j Hij Hne) as (e & -> & He). cbn [mbind option_bind]. cbv zeta. set (v := if e then 1 else -1).
    destruct (dset_ok d i j v Hd Hij) as (d1 & -> & Hs1 & Hc1). cbn [mbind option_bind].
    destruct (dset_ok d1 j i v Hs1 Hji) as (d2 & -> & Hs2 & Hc2). exists d2. split; [done|]. split; [done|].
    assert (initial i j v /\ initial j i v) as [Hv Hv'].
    { pose proof (adjacent_sym i j). pose proof (adjacent_sym j i). unfold initial, v. destruct e.
      - split; right; left; (split; [|done]); [by apply He|]. by apply H, He.
      - assert (~ adjacent i j) by (intros ?%He; done). split; right; right; split_and!; try done. tauto. }
    intros a b Hab HP. rewrite Hc2, Hc1 by done. apply Hpast in HP as [HP|[[-> ->]|[-> ->]]].
    + pose proof (Hp a b Hab HP). destruct ((a =? j) && (b =? i)) eqn:E1; [|destruct ((a =? i) && (b =? j)) eqn:E2]; [..|done];
        exfalso; unfold past in HP; lia.
    + destruct ((i =? j) && (j =? i)); [done|]. by rewrite !Z.eqb_refl.
    + by rewrite !Z.eqb_refl.
Qed.

Lemma calcDist_ok d0 :
  size d0 = N * N ->
  exists d, calcDist res d0 = Some d /\ size d = N * N /\ forall i j, inside i j -> initial i j (cell d i j).
Proof.
  intros Hd0. unfold calcDist.
  destruct (for_upto (fun i d => size d = N * N /\ forall a b, inside a b -> past i 0 a b = true -> initial a b (cell d a b))
    0 (N - 1) (fun i dist => for_ (upto i (N - 1)) (fun j dist =>
    if i =? j then dset res dist i j 0 else
    adj ← isAdjacent res i j;
    dist ← dset res dist i j (if adj : bool then 1 else -1); dset res dist j i (if adj : bool then 1 else -1)) dist) d0) as (d & -> & Hs & Hd); [lia| | |].
  - split; [done|]. unfold past. intros a b ? ?. lia.
  - intros i d Hi [Hs Hd].
    destruct (for_upto (fun j d => size d = N * N /\ forall a b, inside a b -> past i j a b = true -> initial a b (cell d a b))
      i (N - 1) (fun j dist =>
      if i =? j then dset res dist i j 0 else
      adj ← isAdjacent res i j;
      dist ← dset res dist i j (if adj : bool then 1 else -1); dset res dist j i (if adj : bool then 1 else -1)) d) as (d' & -> & Hs' & Hd'); [lia| | |].
    + split; [done|]. intros a b Hab HP. apply Hd; [done|]. unfold past in *. lia.
    + intros j d1 Hj [Hs1 Hd1]. apply calcDist_step; (done || lia).
    + exists d'. split; [done|]. split; [done|]. intros a b Hab HP. apply Hd'; [done|]. unfold past in *. lia.
  - exists d. split; [done|]. split; [done|]. intros i j Hij. apply Hd; [done|]. unfold past. lia.
Qed.

Lemma initial_dist i j d : inside i j -> initial i j d -> dist_ok 0 i j d.
Proof.
  intros Hij [[-> ->]|[[Ha ->]|(Hne & Hn & ->)]]; [right|right|left].
  - split; [apply walk_nil; lia|]. intros n Hw. apply (walk_bounds _ _ adjacent_inside) in Hw. lia.
  - split; [by apply walk_edge|]. intros n Hw. inversion Hw as [? ? E1|? ? He|? ? ? ? He Hm]; subst; [|lia..].
    by apply adjacent_inside in Ha as [_ ?].
  - split; [done|]. intros n Hw. inversion Hw; subst; done || lia.
Qed.

(** *** One round of Floyd's algorithm, in place *)

Section Round.
Variable d0 : list Z.
Variable k : Z.
Hypothesis Hk : 0 <= k < N.
Hypothesis Hd0 : size d0 = N * N.
Hypothesis Hdist : forall i j, inside i j -> dist_ok k i j (cell d0 i j).
Hypothesis Hsym : forall i j, inside i j -> cell d0 i j = cell d0 j i.
Notation D := (cell d0).

Definition target (i j : Z) : Z := relax (D i j) (D i k) (D k j).

Lemma D_self i : 0 <= i < N -> D i i = 0.
Proof. intros Hi. by eapply (dist_self _ _ adjacent_inside); [apply Hdist|]. Qed.

Lemma D_range i j : inside i j -> -1 <= D i j <= k + 1.
Proof. intros Hij. by eapply (dist_bound _ _); [|apply Hdist]; [lia|]. Qed.

Lemma target_self i : 0 <= i < N -> target i i = D i i.
Proof.
  intros Hi. unfold target, relax. pose proof (D_range i k ltac:(lia)). pose proof (D_range k i ltac:(lia)).
  rewrite D_self by done. destruct ((D i k =? -1) || (D k i =? -1)) eqn:E; [done|].
  by zfalse ((0 =? -1) || (D i k + D k i <? 0)).
Qed.

Lemma target_l j : 0 <= j < N -> target k j = D k j.
Proof.
  intros Hj. unfold target, relax. rewrite D_self by done. pose proof (D_range k j ltac:(lia)). cbn [orb Z.eqb].
  destruct (Z.eqb_spec (D k j) (-1)) as [E|E]; [done|]. by zfalse (false || (0 + D k j <? D k j)).
Qed.

Lemma target_sym i j : inside i j -> target i j = target j i.
Proof.
  intros Hij. unfold target. rewrite (Hsym i j), (Hsym i k), (Hsym k j) by lia. unfold relax.
  rewrite (orb_comm (D k i =? -1)), (Z.add_comm (D k i)). done.
Qed.

Lemma target_r i : 0 <= i < N -> target i k = D i k.
Proof. intros Hi. rewrite target_sym, target_l, Hsym by lia. done. Qed.

Lemma target_dist i j : inside i j -> dist_ok (k + 1) i j (target i j).
Proof. intros Hij. apply (dist_relax _ _ adjacent_inside); [lia|apply Hdist; lia..]. Qed.

(** The table when the loops are at [i] and [j]. *)
Definition state (i j : Z) (d : list Z) : Prop :=
  size d = N * N /\ forall a b, inside a b -> cell d a b = if past i j a b then target a b else D a b.

Lemma state_k i j d a : state i j d -> 0 <= a < N -> cell d a k = D a k /\ cell d k a = D k a.
Proof.
  intros [_ Hc] Ha. rewrite !Hc by lia. rewrite target_r, target_l by done. by split; destruct (past _ _ _ _).
Qed.

Lemma column_step i j d :
  0 <= i < j -> j < N -> state i j d -> D i k <> -1 ->
  exists d', (b ← arr_get d (k * N + j);
    if b =? -1 then Some (d, k * N + j + 1, i * N + j + 1) else
    a ← arr_get d (k + i * N);
    c ← arr_get d (i * N + j);
    dist ← (if (c =? -1) || (a + b <? c) then arr_set d (i * N + j) (wrap8 (a + b)) else Some d);
    c ← arr_get dist (i * N + j);
    dist ← dset res dist j i c;
    Some (dist, k * N + j + 1, i * N + j + 1)) = Some (d', k * N + j + 1, i * N + j + 1) /\ state i (j + 1) d'.
Proof.
  intros Hi Hj Hst Ha. assert (inside i j /\ inside j i /\ inside k j /\ inside i k) as (Hij & Hji & Hkj & Hik) by lia.
  pose proof Hst as [Hs Hc]. rewrite (get_cell d k j) by done. cbn [mbind option_bind].
  rewrite (proj2 (state_k i j d j Hst ltac:(lia))).
  assert (forall d', size d' = N * N -> (forall a b, inside a b -> cell d' a b =
      if ((a =? i) && (b =? j)) || ((a =? j) && (b =? i)) then target i j else cell d a b) -> state i (j + 1) d') as Hdone.
  { intros d' Hs' Hc'. split; [done|]. intros a b Hab. rewrite Hc', Hc by done.
    destruct (((a =? i) && (b =? j)) || ((a =? j) && (b =? i))) eqn:E.
    - assert (past i (j + 1) a b = true) as -> by (unfold past; lia).
      assert ((a = i /\ b = j) \/ (a = j /\ b = i)) as [[-> ->]|[-> ->]] by lia; [done|by apply target_sym].
    - destruct (past i j a b) eqn:E1.
      + by assert (past i (j + 1) a b = true) as -> by (unfold past in *; lia).
      + destruct (past i (j + 1) a b) eqn:E2; [|done]. exfalso. unfold past in *. lia. }
  assert (cell d i j = D i j) as Ecij.
  { rewrite Hc by done. assert (past i j i j = false) as -> by (unfold past; lia). done. }
  assert (cell d j i = D i j) as Ecji.
  { rewrite Hc by done. assert (past i j j i = false) as -> by (unfold past; lia). by rewrite Hsym. }
  destruct (Z.eqb_spec (D k j) (-1)) as [Eb|Eb].
  { exists d. split; [done|]. apply Hdone; [done|]. intros a b Hab.
    assert (target i j = D i j) as -> by (unfold target, relax; rewrite Eb; by rewrite orb_true_r).
    destruct (((a =? i) && (b =? j)) || ((a =? j) && (b =? i))) eqn:E; [|done].
    assert ((a = i /\ b = j) \/ (a = j /\ b = i)) as [[-> ->]|[-> ->]] by lia; done. }
  replace (k + i * N) with (i * N + k) by lia. rewrite (get_cell d i k), (get_cell d i j) by done. cbn [mbind option_bind].
  rewrite (proj1 (state_k i j d i Hst ltac:(lia))), Ecij.
  pose proof (D_range i k Hik). pose proof (D_range k j Hkj).
  assert (exists d1, (if (D i j =? -1) || (D i k + D k j <? D i j) then arr_set d (i * N + j) (wrap8 (D i k + D k j)) else Some d) = Some d1 /\
    size d1 = N * N /\ forall a b, inside a b -> cell d1 a b = if (a =? i) && (b =? j) then target i j else cell d a b) as (d1 & -> & Hs1 & Hc1).
  { pose proof (target_dist i j Hij) as Ht. unfold target, relax in *. zfalse ((D i k =? -1) || (D k j =? -1)).
    replace ((D i k =? -1) || (D k j =? -1)) with false in Ht by lia. cbv iota in Ht.
    destruct ((D i j =? -1) || (D i k + D k j <? D i j)).
    - apply dist_bound in Ht; [|lia]. rewrite wrap8_small by lia. by apply set_cell.
    - exists d. split; [done|]. split; [done|]. intros a b _. destruct ((a =? i) && (b =? j)) eqn:E; [|done].
      assert (a = i /\ b = j) as [-> ->] by lia. done. }
  cbn [mbind option_bind]. rewrite (get_cell d1 i j), (Hc1 i j), !Z.eqb_refl by done. cbn [mbind option_bind andb].
  destruct (dset_ok d1 j i (target i j) Hs1 Hji) as (d2 & -> & Hs2 & Hc2). cbn [mbind option_bind].
  exists d2. split; [done|]. apply Hdone; [done|]. intros a b Hab. rewrite Hc2, Hc1 by done.
  destruct ((a =? j) && (b =? i)); [by rewrite orb_true_r|]. by rewrite orb_false_r.
Qed.

Lemma columns_ok i d :
  0 <= i < N -> state i 0 d -> D i k <> -1 ->
  exists d', columns res d i (k + i * N) (k * N + (i + 1)) (i * N + (i + 1)) = Some d' /\ state (i + 1) 0 d'.
Proof.
  intros Hi Hst Ha. unfold columns.
  destruct (for_upto (fun j '(d, kj, ij) => kj = k * N + j /\ ij = i * N + j /\ state i j d) (i + 1) (N - 1)
    (fun j '(dist, kj, ij) =>
    b ← arr_get dist kj;
    if b =? -1 then Some (dist, kj + 1, ij + 1) else
    a ← arr_get dist (k + i * N);
    c ← arr_get dist ij;
    dist ← (if (c =? -1) || (a + b <? c) then arr_set dist ij (wrap8 (a + b)) else Some dist);
    c ← arr_get dist ij;
    dist ← dset res dist j i c;
    Some (dist, kj + 1, ij + 1)) (d, k * N + (i + 1), i * N + (i + 1))) as ([[d' kj] ij] & -> & _ & _ & [Hs' Hc']); [lia| | |].
  - split; [done|]. split; [done|]. destruct Hst as [Hs Hc]. split; [done|]. intros a b Hab. rewrite Hc by done.
    destruct (past i 0 a b) eqn:E1; destruct (past i (i + 1) a b) eqn:E2; try done; unfold past in *; [lia|].
    assert (a = i /\ b = i) as [-> ->] by lia. by rewrite target_self.
  - intros j [[d1 ?] ?] Hj (-> & -> & Hst1). destruct (column_step i j d1) as (d2 & -> & Hst2); try done; try lia.
    eexists. split; [done|]. split; [lia|]. split; [lia|done].
  - cbn [mbind option_bind]. exists d'. split; [done|]. split; [done|]. intros a b Hab. rewrite Hc' by done.
    replace (past (i + 1) 0 a b) with (past i (N - 1 + 1) a b); [done|]. unfold past. apply eq_true_iff_eq. lia.
Qed.

(** A round is done in place: the row and the column of [k] do not change. *)
Lemma rows_ok :
  exists d, rows res d0 k = Some d /\ size d = N * N /\ forall i j, inside i j -> cell d i j = target i j.
Proof.
  unfold rows.
  destruct (for_upto (fun i '(d, ik) => ik = k + i * N /\ state i 0 d) 0 (N - 1) (fun i '(dist, ik) =>
    a ← arr_get dist ik;
    if a =? -1 then Some (dist, ik + N) else
    kj ← getIndex res k (i + 1); ij ← getIndex res i (i + 1);
    dist ← columns res dist i ik kj ij;
    Some (dist, ik + N)) (d0, k)) as ([d ik] & -> & _ & Hs & Hc); [lia| | |].
  - split; [lia|]. split; [done|]. intros a b Hab. by assert (past 0 0 a b = false) as -> by (unfold past; lia).
  - intros i [d ?] Hi (-> & Hst). replace (k + i * N) with (i * N + k) by lia. rewrite (get_cell d i k) by (apply Hst || lia).
    cbn [mbind option_bind]. rewrite (proj1 (state_k i 0 d i Hst ltac:(lia))). destruct (Z.eqb_spec (D i k) (-1)) as [E|E].
    + eexists. split; [done|]. split; [lia|]. destruct Hst as [Hs Hc]. split; [done|]. intros a b Hab. rewrite Hc by done.
      destruct (past i 0 a b) eqn:E1; destruct (past (i + 1) 0 a b) eqn:E2; try done; [unfold past in *; lia|].
      assert (a = i \/ b = i) as [-> | ->] by (unfold past in *; lia); unfold target, relax; [by rewrite E|].
      by rewrite (Hsym k i), E, orb_true_r by lia.
    + rewrite !getIndex_ok by lia. cbn [mbind option_bind]. replace (i * N + k) with (k + i * N) by lia.
      destruct (columns_ok i d) as (d' & -> & Hst'); [lia|done..|]. cbn [mbind option_bind]. eexists. split; [done|].
      split; [lia|done].
  - cbn [mbind option_bind]. exists d. split; [done|]. split; [done|]. intros i j Hij. rewrite Hc by done.
    by assert (past (N - 1 + 1) 0 i j = true) as -> by (unfold past; lia).
Qed.
End Round.

(** After the rounds the table holds the distances. *)
Lemma calcFloyd_ok d0 :
  size d0 = N * N -> (forall i j, inside i j -> initial i j (cell d0 i j)) ->
  exists d, calcFloyd res d0 = Some d /\ size d = N * N /\ forall i j, inside i j -> dist_ok N i j (cell d i j).
Proof.
  intros Hd0 Hinit. unfold calcFloyd.
  destruct (for_upto (fun k d => size d = N * N /\ (forall i j, inside i j -> dist_ok k i j (cell d i j)) /\
      forall i j, inside i j -> cell d i j = cell d j i) 0 (N - 1) (fun k dist => rows res dist k) d0)
    as (d & -> & Hs & Hd & _); [lia| | |].
  - split; [done|]. split; [intros i j Hij; by apply initial_dist; [|apply Hinit]|].
    intros i j Hij. pose proof (Hinit i j Hij) as H1. pose proof (Hinit j i ltac:(lia)) as H2.
    pose proof (adjacent_sym i j). pose proof (adjacent_sym j i). unfold initial in *. intuition congruence.
  - intros k d Hk (Hs & Hd & Hsym). destruct (rows_ok d k) as (d' & -> & Hs' & Hc'); [lia|done..|].
    exists d'. split; [done|]. split; [done|]. split.
    + intros i j Hij. rewrite Hc' by done. by apply target_dist; [lia|..].
    + intros i j Hij. rewrite !Hc' by lia. by apply target_sym; [lia|..].
  - exists d. split; [done|]. split; [done|]. by rewrite Z.sub_add in Hd.
Qed.

(** *** The search in breadth *)

Notation walk := (walk N adjacent).

Lemma walk_0 k i j : walk k i j 0 -> i = j.
Proof.
  intros Hw. inversion Hw as [| |? ? ? n He Hm Hw']; subst; [done|].
  apply (walk_bounds _ _ adjacent_inside) in Hw'. lia.
Qed.

Lemma walk_1 k i j : walk k i j 1 -> adjacent i j.
Proof.
  intros Hw. inversion Hw as [| |? m ? n He Hm Hw']; subst; [done|].
  replace n with 0 in Hw' by lia. by apply walk_0 in Hw' as ->.
Qed.

(** A walk that leaves a set has a last vertex in it. *)
Lemma walk_leaves (mask : gset Z) i j n :
  walk N i j n -> i ∈ mask -> j ∉ mask ->
  exists u m w, walk N i u m /\ u ∈ mask /\ adjacent u w /\ w ∉ mask /\ m + 1 <= n.
Proof.
  induction 1 as [i Hi|i j He|i x j n He Hx Hw IH]; intros Hin Hout; [done|..].
  - exists i, 0, j. split; [apply walk_nil; by apply adjacent_inside in He as [[? ?] _]|]. split_and!; done || lia.
  - destruct (decide (x ∈ mask)) as [Hxm|Hxm].
    + destruct (IH Hxm Hout) as (u & m & w & Hu & Hm & Ha & Hout' & Hle). exists u, (m + 1), w.
      split; [by eapply walk_cons|]. split_and!; done || lia.
    + exists i, 0, x. pose proof (walk_bounds _ _ adjacent_inside _ _ _ _ Hw).
      split; [apply walk_nil; by apply adjacent_inside in He as [[? ?] _]|]. split_and!; done || lia.
Qed.

Section Search.
Variable dist : list Z.
Hypothesis Hs : size dist = N * N.
Hypothesis Hinit : forall i j, inside i j -> initial i j (cell dist i j).

Lemma cell_1 i j : inside i j -> cell dist i j = 1 <-> adjacent i j.
Proof.
  intros Hij. destruct (Hinit i j Hij) as [[-> ->]|[[Ha ->]|(? & ? & ->)]]; [|done|done].
  split; [done|]. by intros [_ ?]%adjacent_inside.
Qed.

Lemma neighbours_ok n d mask Q :
  0 <= n < N ->
  exists new, neighbours res dist n d (mask, Q) = Some (list_to_set new ∪ mask, Q ++ map (fun i => (i, d + 1)) new) /\
    NoDup new /\ (forall i, i ∈ new -> i ∉ mask /\ adjacent n i) /\
    forall i, adjacent n i -> i ∈ new \/ i ∈ mask.
Proof.
  intros Hn. unfold neighbours.
  destruct (for_upto (fun j '(mask', Q') => exists new, mask' = list_to_set new ∪ mask /\ Q' = Q ++ map (fun i => (i, d + 1)) new /\
    NoDup new /\ (forall i, i ∈ new -> i ∉ mask /\ adjacent n i) /\ forall i, 0 <= i < j -> adjacent n i -> i ∈ new \/ i ∈ mask)
    0 (N - 1) (fun i '(mask, Q) =>
    if bool_decide (i ∈ mask) then Some (mask, Q) else
    a ← dget res dist n i;
    Some (if a =? 1 then ({[i]} ∪ mask, Q ++ [(i, d + 1)]) else (mask, Q))) (mask, Q))
    as ([mask' Q'] & E & new & -> & -> & Hnd & Hnew & Hall); [lia| | |].
  - exists []. cbn. rewrite app_nil_r, union_empty_l_L. split; [done|]. split; [done|].
    split; [apply NoDup_nil_2|]. split; [by intros i ?%elem_of_nil|]. lia.
  - intros i [? ?] Hi (new & -> & -> & Hnd & Hnew & Hall). case_bool_decide as Hm.
    { eexists. split; [done|]. exists new. split_and!; try done. intros j Hj Ha.
      destruct (decide (j = i)) as [->|]; [set_solver|]. apply Hall; [lia|done]. }
    rewrite dget_ok by (done || lia). cbn [mbind option_bind].
    destruct (Z.eqb_spec (cell dist n i) 1) as [E1|E1]; (eexists; split; [done|]).
    + apply cell_1 in E1; [|lia]. exists (new ++ [i]). rewrite list_to_set_app_L, map_app, app_assoc. cbn [map].
      assert (i ∉ new /\ i ∉ mask) as [Hi1 Hi2] by set_solver.
      split; [set_solver|]. split; [done|]. split; [|split].
      * apply NoDup_app. split; [done|]. split; [|apply NoDup_singleton]. intros j Hj ->%list_elem_of_singleton. done.
      * intros j [Hj| ->%list_elem_of_singleton]%elem_of_app; [by apply Hnew|done].
      * intros j Hj Ha. destruct (decide (j = i)) as [->|]; [left; set_solver|].
        destruct (Hall j) as [|]; [lia|done|left; set_solver|by right].
    + exists new. split_and!; try done. intros j Hj Ha. destruct (decide (j = i)) as [->|]; [|apply Hall; [lia|done]].
      exfalso. apply E1, cell_1; [lia|done].
  - exists new. split; [done|]. split; [done|]. split; [done|]. intros i Ha. apply Hall; [|done].
    apply adjacent_inside in Ha. lia.
Qed.

(** The queue is in order of the distances; a marked vertex that has left the
    queue is not the last and has all its neighbours marked. *)
Definition least (v d : Z) : Prop := walk N 0 v d /\ forall n, walk N 0 v n -> d <= n.
Definition searching (mask : gset Z) (Q : list (Z * Z)) : Prop :=
  0 ∈ mask /\ (forall v, v ∈ mask -> 0 <= v < N) /\
  (forall v d, (v, d) ∈ Q -> v ∈ mask /\ least v d) /\
  StronglySorted (fun a b : Z * Z => a.2 <= b.2 <= a.2 + 1) Q /\
  forall v, v ∈ mask -> v ∈ map fst Q \/ (v <> N - 1 /\ forall w, adjacent v w -> w ∈ mask).

(** A vertex without a mark is farther than the front of the queue. *)
Lemma searching_far mask Q v n :
  searching mask Q -> v ∉ mask -> walk N 0 v n ->
  exists u x, (u, x) ∈ Q /\ x + 1 <= n /\ forall p, head Q = Some p -> p.2 <= x.
Proof.
  intros (H0 & Hin & HQ & Hso & Hcl) Hv Hw.
  destruct (walk_leaves mask 0 v n Hw H0 Hv) as (u & m & w & Hu & Hum & Ha & Hwm & Hle).
  destruct (Hcl u Hum) as [Huq|[_ Hn]]; [|by apply Hn in Ha].
  apply list_elem_of_fmap in Huq as ([u' x] & -> & Hq). exists u', x. split; [done|].
  destruct (HQ u' x Hq) as [_ [_ Hmin]]. cbn in Hu. apply Hmin in Hu. split; [lia|].
  intros p Hp. destruct Q as [|q Q]; [done|]. injection Hp as ->. inversion Hso as [|? ? _ Hf]; subst.
  apply elem_of_cons in Hq as [<-|Hq]; [done|]. rewrite Forall_forall in Hf. by apply (Hf (u', x)).
Qed.

Lemma searching_next n d Q mask new :
  searching mask ((n, d) :: Q) -> n <> N - 1 -> NoDup new -> (forall i, i ∈ new -> i ∉ mask /\ adjacent n i) ->
  (forall i, adjacent n i -> i ∈ new \/ i ∈ mask) ->
  searching (list_to_set new ∪ mask) (Q ++ map (fun i => (i, d + 1)) new).
Proof.
  intros Hse Hn Hnd Hnew Hall. pose proof Hse as (H0 & Hin & HQ & Hso & Hcl). inversion Hso as [|? ? Hso' Hf]; subst.
  destruct (HQ n d) as [Hnm [Hdn Hdm]]; [by left|]. rewrite Forall_forall in Hf.
  split; [set_solver|]. split; [|split; [|split]].
  - intros v [Hv%elem_of_list_to_set|Hv]%elem_of_union; [|by apply Hin]. apply Hnew in Hv as [_ Ha%adjacent_inside]. lia.
  - intros v x [Hv|Hv]%elem_of_app; [destruct (HQ v x) as [? ?]; [by right|]; split; [set_solver|done]|].
    apply list_elem_of_fmap in Hv as (i & [= -> ->] & Hi). split; [set_solver|]. apply Hnew in Hi as [Him Ha]. split.
    + apply (walk_app _ _ N n); [by apply Hin|done|by apply walk_edge].
    + intros m Hm. destruct (searching_far _ _ _ _ Hse Him Hm) as (u & x & _ & Hle & Hx).
      pose proof (Hx _ eq_refl). cbn in *. lia.
  - apply StronglySorted_app. split_and!; [|done|].
    + intros [v x] p Hv (i & -> & Hi)%list_elem_of_fmap. cbn. pose proof (Hf _ Hv). cbn in *. lia.
    + clear -new. induction new as [|i new IH]; cbn; constructor; [done|]. apply Forall_forall.
      intros p (j & -> & _)%list_elem_of_fmap. cbn. lia.
  - intros v [Hv%elem_of_list_to_set|Hv]%elem_of_union.
    + left. rewrite map_app, elem_of_app. right. apply list_elem_of_fmap. exists (v, d + 1). split; [done|].
      apply list_elem_of_fmap. by exists v.
    + destruct (Hcl v Hv) as [Hq|[Hvn Hw]]; [|right; split; [done|set_solver]].
      cbn in Hq. apply elem_of_cons in Hq as [->|Hq]; [right|left; rewrite map_app, elem_of_app; by left].
      split; [done|]. intros w Hw%Hall. set_solver.
Qed.

Notation card X := (length (elements (X : gset Z))).

Lemma searching_card mask Q : searching mask Q -> Z.of_nat (card mask) <= N.
Proof.
  intros (_ & Hin & _). apply pigeons; [lia|apply NoDup_elements|]. apply Forall_forall. intros v Hv%elem_of_elements.
  by apply Hin.
Qed.

(** The search gives the distance of the last vertex; it ends without a value
    exactly if no walk leads there. *)
Lemma search_ok fuel mask Q :
  searching mask Q -> (Z.to_nat (N - Z.of_nat (card mask)) + length Q < fuel)%nat ->
  match search res fuel dist mask Q with
  | Some d => least (N - 1) d
  | None => forall n, ~ walk N 0 (N - 1) n
  end.
Proof.
  revert mask Q. induction fuel as [|fuel IH]; intros mask Q Hse Hf; [lia|]. cbn [search].
  destruct Q as [|[n d] Q].
  { intros m Hw. destruct (decide (N - 1 ∈ mask)) as [Hin|Hout].
    - destruct Hse as (_ & _ & _ & _ & Hcl). by destruct (Hcl _ Hin) as [?%elem_of_nil|[? _]].
    - by destruct (searching_far _ _ _ _ Hse Hout Hw) as (? & ? & ?%elem_of_nil & _). }
  pose proof Hse as (_ & Hin & HQ & _). destruct (HQ n d) as [Hnm Hd]; [by left|].
  destruct (Z.eqb_spec n (N - 1)) as [->|Hn]; [done|].
  destruct (neighbours_ok n d mask Q (Hin n Hnm)) as (new & -> & Hnd & Hnew & Hall). cbn [mbind option_bind].
  pose proof (searching_next _ _ _ _ _ Hse Hn Hnd Hnew Hall) as Hse'. apply IH; [done|].
  pose proof (searching_card _ _ Hse') as Hc. revert Hc.
  assert (card (list_to_set new ∪ mask) = length new + card mask)%nat as ->.
  { rewrite elements_disj_union by set_solver. rewrite length_app. by rewrite (elements_list_to_set new Hnd). }
  rewrite length_app, length_map. cbn [length] in Hf. lia.
Qed.

Lemma searching_start : 0 < N -> searching {[0]} [(0, 0)].
Proof.
  intros Hn. split; [set_solver|]. split; [intros v ->%elem_of_singleton; lia|]. split; [|split].
  - intros v d [= -> ->]%list_elem_of_singleton. split; [set_solver|]. split; [by apply walk_nil|].
    intros n Hw. apply (walk_bounds _ _ adjacent_inside) in Hw. lia.
  - repeat constructor.
  - intros v ->%elem_of_singleton. left. by left.
Qed.

Lemma getMinDist_ok :
  0 < N ->
  match getMinDist res dist with
  | Some d => least (N - 1) d
  | None => forall n, ~ walk N 0 (N - 1) n
  end.
Proof.
  intros Hn. apply search_ok; [by apply searching_start|]. rewrite elements_singleton. cbn [length]. lia.
Qed.
End Search.

(** *** The ladders *)

(** [p] leads from [f] to the last word. *)
Fixpoint ladder (f : Z) (p : list Z) : Prop :=
  match p with [] => f = N - 1 | g :: p => adjacent f g /\ ladder g p end.

Lemma ladder_walk f p : 0 <= f < N -> ladder f p -> walk N f (N - 1) (size p).
Proof.
  revert f. induction p as [|g p IH]; intros f Hf Hp; cbn [ladder] in Hp.
  - subst f. by apply walk_nil.
  - destruct Hp as [Ha Hp]. apply adjacent_inside in Ha as Hin. replace (size (g :: p)) with (size p + 1) by (cbn [length]; lia).
    eapply walk_cons; [done|lia|]. apply IH; [lia|done].
Qed.

Lemma walk_ladder f n : walk N f (N - 1) n -> exists p, ladder f p /\ size p = n.
Proof.
  intros Hw. remember (N - 1) as j eqn:Ej. induction Hw as [i Hi|i j Ha|i m j n Ha Hm Hw IH].
  - by exists [].
  - exists [j]. by split; [split|].
  - destruct (IH Ej) as (p & Hp & <-). exists (m :: p). split; [done|]. cbn [length]. lia.
Qed.

Definition word (i : Z) : str := default [] (arr_get res i).

Section Description.
Variable dist : list Z.
Hypothesis Hs : size dist = N * N.
Hypothesis Hdist : forall i j, inside i j -> dist_ok N i j (cell dist i j).

Lemma cell_adjacent i j : inside i j -> cell dist i j = 1 <-> adjacent i j.
Proof.
  intros Hij. split.
  - intros E. destruct (Hdist i j Hij) as [[E' _]|[Hw _]]; [lia|]. rewrite E in Hw. by apply walk_1 in Hw.
  - intros Ha. pose proof (walk_edge N adjacent N i j Ha) as Hw. destruct (Hdist i j Hij) as [[_ Hno]|[Hw' Hm]]; [by apply Hno in Hw|].
    apply Hm in Hw. pose proof (walk_bounds _ _ adjacent_inside _ _ _ _ Hw'). destruct (decide (cell dist i j = 0)) as [E|]; [|lia].
    rewrite E in Hw'. apply walk_0 in Hw'. by apply adjacent_inside in Ha as [_ ?].
Qed.

(** From [f] getDescription gives each shortest ladder once. *)
Lemma getDescription_ok fuel f :
  0 <= f < N -> 0 <= cell dist f (N - 1) -> (Z.to_nat (cell dist f (N - 1)) < fuel)%nat ->
  exists ps, getDescription res fuel dist f = Some (map (fun p => map word (f :: p)) ps) /\ NoDup ps /\
    forall p, p ∈ ps <-> ladder f p /\ size p = cell dist f (N - 1).
Proof.
  revert f. induction fuel as [|fuel IH]; intros f Hf Hd Hfu; [lia|]. cbn [getDescription].
  destruct (word_at f Hf) as (w & Ew & _). assert (word f = w) as Hw by (unfold word; by rewrite Ew).
  set (d := cell dist f (N - 1)) in *. pose proof (Hdist f (N - 1) ltac:(lia)) as Hdf. fold d in Hdf.
  destruct (Z.eqb_spec f (N - 1)) as [Ef|Ef].
  { rewrite Ew. cbn [mbind option_bind]. exists [[]]. cbn [map]. rewrite Hw. split; [done|]. split; [apply NoDup_singleton|].
    assert (d = 0) as -> by (eapply (dist_self _ _ adjacent_inside); [by rewrite <- Ef in Hdf|done]).
    intros p. rewrite list_elem_of_singleton. split; [by intros ->|]. intros [_ Hp]. destruct p; [done|cbn in Hp; lia]. }
  destruct Hdf as [[? _]|[Hwk Hmin]]; [lia|].
  assert (d <> 0) as Hd0. { intros E. rewrite E in Hwk. by apply walk_0 in Hwk. }
  destruct (for_upto (fun i vvs => exists ps, vvs = map (fun p => map word (f :: p)) ps /\ NoDup ps /\
      forall p, p ∈ ps <-> exists g q, p = g :: q /\ 0 <= g < i /\ adjacent f g /\ ladder g q /\ size q = d - 1)
    0 (N - 1) (fun i vvs =>
        a ← dget res dist f i;
        next ← (if a =? 1 then b ← dget res dist i (N - 1); c ← dget res dist f (N - 1); Some (b =? c - 1) else Some false);
        if next : bool then
          vvs2 ← getDescription res fuel dist i; w ← arr_get res f; Some (vvs ++ map (cons w) vvs2)
        else Some vvs) []) as (vvs & -> & ps & -> & Hnd & Hps); [lia| | |].
  - exists []. split; [done|]. split; [apply NoDup_nil_2|]. intros p. split; [by intros ?%elem_of_nil|].
    intros (g & q & _ & ? & _). lia.
  - intros i ? Hi (ps & -> & Hnd & Hps). rewrite !dget_ok by (done || lia). cbn [mbind option_bind].
    assert ((forall q, ~ (adjacent f i /\ ladder i q /\ size q = d - 1)) ->
      forall p, p ∈ ps <-> exists g q, p = g :: q /\ 0 <= g < i + 1 /\ adjacent f g /\ ladder g q /\ size q = d - 1) as Hnone.
    { intros Hno p. rewrite Hps. split; intros (g & q & -> & Hg & H); exists g, q; (split; [done|]); (split; [|done]); [lia|].
      destruct (decide (g = i)) as [->|]; [by apply Hno in H|lia]. }
    destruct (Z.eqb_spec (cell dist f i) 1) as [E1|E1]; cbn [mbind option_bind].
    2:{ eexists. split; [done|]. exists ps. split; [done|]. split; [done|]. apply Hnone. intros q [Ha _].
        apply E1, cell_adjacent; [lia|done]. }
    apply cell_adjacent in E1 as Ha; [|lia]. fold d. destruct (Z.eqb_spec (cell dist i (N - 1)) (d - 1)) as [E2|E2].
    + destruct (IH i) as (ps2 & -> & Hnd2 & Hps2); [lia|lia|lia|]. cbn [mbind option_bind]. rewrite Ew. cbn [mbind option_bind].
      eexists. split; [done|]. exists (ps ++ map (cons i) ps2). split; [|split].
      * rewrite map_app, !map_map. f_equal. apply map_ext. intros p. cbn [map]. by rewrite Hw.
      * apply NoDup_app. split; [done|]. split; [|apply NoDup_fmap_2; [intros ? ? [= ->]; done|done]].
        intros p (g & q & -> & Hg & _)%Hps (q' & [= -> _] & _)%list_elem_of_fmap. lia.
      * intros p. rewrite elem_of_app, Hps, list_elem_of_fmap. split.
        -- intros [(g & q & -> & Hg & H)|(q & -> & Hq)]; [exists g, q; split; [done|]; split; [lia|done]|].
           apply Hps2 in Hq as [Hq Hsz]. exists i, q. split; [done|]. split; [lia|]. rewrite E2 in Hsz. done.
        -- intros (g & q & -> & Hg & Hag & Hq & Hsz). destruct (decide (g = i)) as [->|]; [right|left].
           ++ exists q. split; [done|]. apply Hps2. by rewrite E2.
           ++ exists g, q. split; [done|]. split; [lia|done].
    + eexists. split; [done|]. exists ps. split; [done|]. split; [done|]. apply Hnone. intros q (_ & Hq & Hsz).
      apply ladder_walk in Hq; [|lia]. rewrite Hsz in Hq. destruct (Hdist i (N - 1) ltac:(lia)) as [[_ Hno]|[Hwi Hmi]]; [by apply Hno in Hq|].
      apply Hmi in Hq. assert (walk N f (N - 1) (cell dist i (N - 1) + 1)) as Hwf%Hmin by (eapply walk_cons; [done|lia|done]). lia.
  - exists ps. split; [done|]. split; [done|]. intros p. rewrite Hps. split.
    + intros (g & q & -> & _ & Ha & Hq & Hsz). split; [done|]. cbn [length]. lia.
    + intros [Hp Hsz]. destruct p as [|g q]; [done|]. destruct Hp as [Ha Hq]. exists g, q. split; [done|].
      apply adjacent_inside in Ha as Hin. split; [lia|]. split; [done|]. split; [done|]. cbn [length] in Hsz. lia.
Qed.
End Description.
End Words.

(** The vertices: the two ends around the dictionary. *)
Definition vertices (start end_ : str) (dict : list str) : list str := start :: dict ++ [end_].

Lemma vertices_size start end_ dict : 2 <= size (vertices start end_ dict).
Proof. unfold vertices. cbn [length]. rewrite length_app. cbn [length]. lia. Qed.

(** C39: findLadders gives the length of the shortest ladders and each of them once:
    words of one length, at most 124 of them in the dictionary. *)
Theorem findLadders_shortest L start end_ dict p0 :
  Forall (fun w => size w = L) (vertices start end_ dict) -> size (vertices start end_ dict) <= 126 ->
  ladder (vertices start end_ dict) 0 p0 ->
  exists d ps, findLadders start end_ dict = Some (d, map (fun p => map (word (vertices start end_ dict)) (0 :: p)) ps) /\
    NoDup ps /\ (forall p, p ∈ ps <-> ladder (vertices start end_ dict) 0 p /\ size p = d) /\
    forall p, ladder (vertices start end_ dict) 0 p -> d <= size p.
Proof.
  intros HL HN Hp0. pose proof (vertices_size start end_ dict) as Hn.
  unfold findLadders. fold (vertices start end_ dict). set (res := vertices start end_ dict) in *. pose proof (squares res HN). cbv zeta. rewrite chk32_ok by lia. cbn [mbind option_bind].
  destruct (calcDist_ok res L HL HN (replicate (Z.to_nat (size res * size res)) 0)) as (d1 & -> & Hs1 & Hd1);
    [rewrite length_replicate; lia|]. cbn [mbind option_bind].
  pose proof (getMinDist_ok res L HL HN d1 Hs1 Hd1 ltac:(lia)) as Hg.
  destruct (getMinDist res d1) as [d|]; [|exfalso; eapply Hg, ladder_walk; [|done]; lia]. cbn [mbind option_bind].
  destruct (calcFloyd_ok res L HL HN d1 Hs1 Hd1) as (d2 & -> & Hs2 & Hd2). cbn [mbind option_bind].
  assert (cell res d2 0 (size res - 1) = d) as Ed.
  { eapply (dist_fun _ _ (size res) 0 (size res - 1)); [apply Hd2; lia|]. right. exact Hg. }
  destruct (dist_bound _ _ (size res) _ _ _ ltac:(lia) (Hd2 0 (size res - 1) ltac:(lia))) as [_ Hub].
  pose proof (walk_bounds _ _ (adjacent_inside res) _ _ _ _ (proj1 Hg)).
  destruct (getDescription_ok res L HL HN d2 Hs2 Hd2 256 0) as (ps & -> & Hnd & Hps); [lia..|]. cbn [mbind option_bind].
  exists d, ps. split; [done|]. split; [done|]. rewrite Ed in Hps. split; [done|].
  intros p Hp. apply (proj2 Hg), ladder_walk; [lia|done].
Qed.

(** Without a ladder the search runs off its end. *)
Theorem findLadders_apart L start end_ dict :
  Forall (fun w => size w = L) (vertices start end_ dict) -> size (vertices start end_ dict) <= 126 ->
  (forall p, ~ ladder (vertices start end_ dict) 0 p) -> findLadders start end_ dict = None.
Proof.
  intros HL HN Hno. pose proof (vertices_size start end_ dict) as Hn.
  unfold findLadders. fold (vertices start end_ dict). set (res := vertices start end_ dict) in *. pose proof (squares res HN). cbv zeta. rewrite chk32_ok by lia. cbn [mbind option_bind].
  destruct (calcDist_ok res L HL HN (replicate (Z.to_nat (size res * size res)) 0)) as (d1 & -> & Hs1 & Hd1);
    [rewrite length_replicate; lia|]. cbn [mbind option_bind].
  pose proof (getMinDist_ok res L HL HN d1 Hs1 Hd1 ltac:(lia)) as Hg.
  destruct (getMinDist res d1) as [d|]; [|done]. destruct (walk_ladder res 0 d (proj1 Hg)) as (p & Hp & _). by apply Hno in Hp.
Qed.

Definition small_dict : list str := map chars ["dog"; "dot"; "hot"; "log"; "lot"]%string.
Definition small : list str := vertices (chars "hit") (chars "cog") small_dict.

Lemma findLadders_shortest_witness :
  Forall (fun w => size w = 3) small /\ size small <= 126 /\ ladder small 0 [3; 2; 1; 6] /\
  findLadders (chars "hit") (chars "cog") small_dict =
    Some (4, map (map chars) [["hit"; "hot"; "dot"; "dog"; "cog"]; ["hit"; "hot"; "lot"; "log"; "cog"]]%string) /\
  exists d ps, findLadders (chars "hit") (chars "cog") small_dict = Some (d, map (fun p => map (word small) (0 :: p)) ps) /\
    NoDup ps /\ (forall p, p ∈ ps <-> ladder small 0 p /\ size p = d) /\ forall p, ladder small 0 p -> d <= size p.
Proof.
  assert (Forall (fun w => size w = 3) small) as H1 by (repeat constructor).
  assert (size small <= 126) as H2 by (vm_compute; discriminate).
  assert (ladder small 0 [3; 2; 1; 6]) as H3.
  { cbn [ladder]. repeat split; try lia; eexists _, _; (split; [reflexivity|]); (split; [reflexivity|]); vm_compute; discriminate. }
  split; [exact H1|]. split; [exact H2|]. split; [exact H3|]. split; [vm_compute; reflexivity|].
  exact (findLadders_shortest 3 (chars "hit") (chars "cog") small_dict [3; 2; 1; 6] H1 H2 H3).
Defined.

(** Without a ladder: the number it would print is not returned. *)
Lemma findLadders_apart_small : findLadders (chars "hit") (chars "cog") [] = None.
Proof. vm_compute. reflexivity. Qed.
End LaddersProps.
