(* ===== verification/Vmtouch.v ===== *)
(** * Vmtouch: vmtouch/vmtouch.c, the tool that shows and changes what the page
    cache holds

    Options and sizes, the chart of resident pages, the treatment of one file and
    the walk through directories. What the kernel answers is the class [Kernel]: a
    file system that stays as it is during the walk. Paths are lists of bytes
    without zeros. *)

From S2P Require Import Prelude Platform Loops.

(** ** Sizes *)

(** src/code/cc/vmtouch/vmtouch.c:207-227 [pretty_print_size] *)
Definition pretty_print_size (inp : Z) : list byte :=
  if inp <? 1024 then snprintf_zd 100 inp else
  let inp := Z.quot inp 1024 in
  if inp <? 1024 then snprintf_zd 100 inp ++ [x4b] else
  let inp := Z.quot inp 1024 in
  if inp <? 1024 then snprintf_zd 100 inp ++ [x4d] else
  let inp := Z.quot inp 1024 in
  snprintf_zd 100 inp ++ [x47].

(** A double: [m * 2 ^ e], or what is not finite. *)
Inductive double := Fin (m e : Z) | Infinite (neg : bool) | NaN.

(** What strtod makes of a text: a value and the place it stopped at. *)
Class Strtod := strtod : list byte -> double * nat.

(** [(int64_t) (mult * val)] with [mult] the [k]-th power of two, for a positive
    value: the product is exact; outside of int64_t the conversion is undefined. *)
Definition to_int64 (k : Z) (val : double) : option Z :=
  match val with
  | Fin m e => let z := Z.shiftl m (e + k) in
               if z <=? 9223372036854775807 then Some z else None
  | _ => None
  end.

(** [val <= 0] is false of what is not a number. *)
Definition not_positive (val : double) : bool :=
  match val with Fin m _ => m <=? 0 | Infinite neg => neg | NaN => false end.

Definition tolower (c : byte) : byte :=
  let z := byte_to_Z c in if (65 <=? z) && (z <=? 90) then byte_of_Z (z + 32) else c.
Definition isalpha (c : byte) : bool :=
  let z := byte_to_Z (tolower c) in (97 <=? z) && (z <=? 122).

Inductive size_error := BadSize | UnknownMultiplier (c : byte).

(** src/code/cc/vmtouch/vmtouch.c:234-261 [parse_size]
    A size, an error that is fatal, or undefined. *)
Definition parse_size `{Strtod} (inp : list byte) : option (size_error + Z) :=
  match last inp with
  | None => Some (inl BadSize)
  | Some c =>
      let mult_char := tolower c in
      let number inp mult :=
        let '(val, tp) := strtod inp in
        if not_positive val || negb (Nat.eqb tp (length inp)) then Some (inl BadSize)
        else z ← to_int64 mult val; Some (inr z) in
      if isalpha mult_char then
        match mult_char with
        | x6b => number (removelast inp) 10
        | x6d => number (removelast inp) 20
        | x67 => number (removelast inp) 30
        | _ => Some (inl (UnknownMultiplier mult_char))
        end
      else number inp 0
  end.

(** ** Pages *)

(** src/code/cc/vmtouch/vmtouch.c:264-266 [bytes2pages] *)
Definition bytes2pages (pagesize bytes : Z) : option Z :=
  n ← chk64 (bytes + pagesize); n ← chk64 (n - 1);
  if pagesize =? 0 then None else Some (Z.quot n pagesize).

(** src/code/cc/vmtouch/vmtouch.c:268-270 [aligned_p] *)
Definition aligned_p (pagesize p : Z) : bool := 0 =? Z.land p (pagesize - 1).

(** src/code/cc/vmtouch/vmtouch.c:272-274 [is_mincore_page_resident] *)
Definition is_mincore_page_resident (p : Z) : bool := negb (Z.land p 1 =? 0).

(** ** The chart *)
Module Chart.

Definition width : Z := 60.

(** src/code/cc/vmtouch/vmtouch.c:323-325 [print_page_residency_chart (one character)] *)
Definition symbol (curr n : Z) : byte :=
  if curr =? n then x4f else if curr =? 0 then x20 else x6f.

(** src/code/cc/vmtouch/vmtouch.c:316-329 [print_page_residency_chart (loop)] *)
Definition round (pages_per_char : Z) (mincore_array : list Z) (i : Z)
    (s : Z * Z * Z * list byte) : option (Z * Z * Z * list byte) :=
  let '(pages_in_core, j, curr, out) := s in
  p ← arr_get mincore_array i;
  let '(curr, pages_in_core) := if is_mincore_page_resident p
                                then (curr + 1, pages_in_core + 1) else (curr, pages_in_core) in
  let j := j + 1 in
  if j =? pages_per_char
  then Some (pages_in_core, 0, 0, out ++ [symbol curr pages_per_char])
  else Some (pages_in_core, j, curr, out).

(** src/code/cc/vmtouch/vmtouch.c:306-340 [print_page_residency_chart] *)
Definition print_page_residency_chart (mincore_array : list Z) (pages_in_file : Z)
  : option (list byte) :=
  let pages_per_char := if pages_in_file <=? width then 1
                        else Z.quot pages_in_file width + 1 in
  '(pages_in_core, j, curr, out) ←
    for_ (upto 0 (pages_in_file - 1)) (round pages_per_char mincore_array) (0, 0, 0, [x0d; x5b]);
  let out := if j =? 0 then out else out ++ [symbol curr j] in
  Some (out ++ [x5d; x20] ++ snprintf_zd 21 pages_in_core ++ [x2f] ++ snprintf_zd 21 pages_in_file).
End Chart.

(** ** Options *)

(** What ends the program with a message, by [fatal]. *)
Inductive fatal_error :=
| BadSizeOption (e : size_error) | SizeTooBig
| TouchEvict | EvictLock | LockLockall | DaemonWithoutLock | WaitWithoutDaemon | QuietVerbose
| PipeFailed | ForkFailed | SetsidFailed | SelectFailed | DaemonDied | ReadFailed | FreopenFailed
| GetrlimitFailed | LimitReached | LimitNeedsRoot | SetrlimitFailed
| NotAligned (path : list byte) | NoMemory | MincoreFailed (path : list byte)
| MlockFailed (path : list byte) | MlockallFailed | DepthReached (path : list byte).

Module Options.

(** src/code/cc/vmtouch/vmtouch.c:92-101 [o_touch, ..., o_wait] *)
Record opts := mk {
  o_touch : bool; o_evict : bool; o_quiet : bool; o_verbose : Z;
  o_lock : bool; o_lockall : bool; o_daemon : bool; o_followsymlinks : bool;
  o_max_file_size : Z; o_wait : bool }.

Definition initial : opts :=
  mk false false false 0 false false false false (500 * 1024 * 1024) false.

(** How the program ends before it has done anything. *)
Inductive stop := Fatal (e : fatal_error) | Usage | Deprecated.

(** src/code/cc/vmtouch/vmtouch.c:577-603 [main (one option)]
    [ch] and [optarg] are what getopt returns. *)
Definition option_ `{Strtod} (o : opts) (ch : byte) (optarg : list byte) : option (stop + opts) :=
  let '(mk t e q v l la d f m w) := o in
  match ch with
  | x3f => Some (inl Usage)
  | x74 => Some (inr (mk true e q v l la d f m w))
  | x65 => Some (inr (mk t true q v l la d f m w))
  | x71 => Some (inr (mk t e true v l la d f m w))
  | x76 => v ← chk32 (v + 1); Some (inr (mk t e q v l la d f m w))
  | x6c => Some (inr (mk true e q v true la d f m w))
  | x4c => Some (inr (mk true e q v l true d f m w))
  | x64 => Some (inr (mk t e q v l la true f m w))
  | x66 => Some (inr (mk t e q v l la d true m w))
  | x70 => Some (inl Deprecated)
  | x6d =>
      r ← parse_size optarg;
      match r with
      | inl err => Some (inl (Fatal (BadSizeOption err)))
      | inr val =>
          let m := u64 val in
          if negb (val =? s64 m) then Some (inl (Fatal SizeTooBig))
          else Some (inr (mk t e q v l la d f m w))
      end
  | x77 => Some (inr (mk t e q v l la d f m true))
  | _ => Some (inr o)
  end.

(** src/code/cc/vmtouch/vmtouch.c:576-604 [main (options)] *)
Fixpoint options `{Strtod} (o : opts) (args : list (byte * list byte)) : option (stop * opts + opts) :=
  match args with
  | [] => Some (inr o)
  | (ch, optarg) :: args =>
      r ← option_ o ch optarg;
      match r with inl s => Some (inl (s, o)) | inr o => options o args end
  end.

(** src/code/cc/vmtouch/vmtouch.c:609-634 [main (checks)] *)
Definition checks (o : opts) (argc : nat) : stop + opts :=
  if o_touch o && o_evict o then inl (Fatal TouchEvict) else
  if o_evict o && o_lock o then inl (Fatal EvictLock) else
  if o_lock o && o_lockall o then inl (Fatal LockLockall) else
  if o_daemon o && negb (o_lock o || o_lockall o) then inl (Fatal DaemonWithoutLock) else
  let o := if o_daemon o && negb (o_wait o)
           then mk (o_touch o) (o_evict o) true 0 (o_lock o) (o_lockall o) (o_daemon o)
                   (o_followsymlinks o) (o_max_file_size o) (o_wait o)
           else o in
  if o_wait o && negb (o_daemon o) then inl (Fatal WaitWithoutDaemon) else
  if o_quiet o && negb (o_verbose o =? 0) then inl (Fatal QuietVerbose) else
  if Nat.eqb argc 0 then inl Usage else inr o.
End Options.

(** ** The kernel *)

Inductive kind := Regular | Directory | Link | Other.

Record stat_buf := mk_stat { st_kind : kind; st_size : Z; st_ino : Z }.

(** What setrlimit answers, and whether the process belongs to root. *)
Inductive set_answer := SetOk | SetPerm (root : bool) | SetFailed.

(** The answers of open or opendir, call after call: a descriptor; a failure; or no
    descriptors left, with the greatest limit getrlimit then tells and what
    setrlimit makes of a greater one, before the next call. A kernel that raises
    the limit for ever and still has no descriptor is left out. *)
Inductive answer :=
| Opened
| Refused
| TooMany (rlim_max : option Z) (set : Z -> Z -> set_answer) (next : answer).

Class Kernel := {
  pagesize : Z;
  stat : list byte -> option stat_buf;
  lstat : list byte -> option stat_buf;
  open_ : list byte -> answer;
  opendir : list byte -> answer;
  readdir : list byte -> list (list byte);
  closedir : list byte -> bool;
  mmap : list byte -> option Z;
  malloc : Z -> bool;
  mincore : list byte -> option (list Z);
  fadvise : list byte -> bool;
  mlock : list byte -> bool;
  munmap : list byte -> bool;
  (* has a tenth of a second passed since the last chart, at this page? *)
  chart_due : list byte -> Z -> bool;
}.

(** src/code/cc/vmtouch/vmtouch.c:277-293 [increment_nofile_rlimit]
    rlim_t is unsigned. *)
Definition increment_nofile_rlimit (rlim_max : option Z) (set : Z -> Z -> set_answer)
  : fatal_error + Z * Z :=
  match rlim_max with
  | None => inl GetrlimitFailed
  | Some m =>
      let rlim_cur := u64 (m + 1) in
      let rlim_max := u64 (m + 1) in
      match set rlim_cur rlim_max with
      | SetOk => inr (rlim_cur, rlim_max)
      | SetPerm root => inl (if root then LimitReached else LimitNeedsRoot)
      | SetFailed => inl SetrlimitFailed
      end
  end.

(** ** The state of the program *)

(** What [warning] prints, and what goes to stdout. *)
Inductive warning_ :=
| CannotStat (path : list byte) | NotFollowing (path : list byte) | TooLarge (path : list byte)
| CannotOpen (path : list byte) | CannotMmap (path : list byte) | CannotEvict (path : list byte)
| CannotUnmap (path : list byte) | LinkLoop (path : list byte) | CannotOpendir (path : list byte)
| PathTooLong (path : list byte) | CannotClosedir (path : list byte) | NotRegular (path : list byte).

Inductive line :=
| PathLine (path : list byte) | Evicting (path : list byte) | ChartLine (text : list byte) | EmptyLine
| Files (n : Z) | Directories (n : Z) | Touched (pages : Z) (size : list byte)
| Evicted (pages : Z) (size : list byte)
| Resident (pages total : Z) (size total_size : list byte) | Locked (pages : Z) (size : list byte).

(** src/code/cc/vmtouch/vmtouch.c:79-89 [total_pages, ..., crawl_inodes]
    With it: the descriptors and mappings that are in use, what was printed, the
    bytes that were read to touch a page, and the pages that are mapped and those
    that are locked in memory. *)
Record world := mk_world {
  total_pages : Z; total_pages_in_core : Z; total_files : Z; total_dirs : Z;
  curr_crawl_depth : Z; crawl_inodes : list Z;
  descriptors : Z; mappings : Z;
  out : list line; err : list warning_; touched : list (list byte * Z);
  mapped_pages : Z; locked_pages : Z }.

(** Undefined behaviour: of signed arithmetic, or of an access outside of an array. *)
Inductive undefined := Arithmetic | OutOfArray.

Inductive outcome (A : Type) :=
| Ret (a : A) (w : world)
| Die (e : fatal_error) (w : world)
| Undefined (u : undefined)
| NoFuel.
Arguments Ret {A}.
Arguments Die {A}.
Arguments Undefined {A}.
Arguments NoFuel {A}.

Definition M (A : Type) : Type := world -> outcome A.
Definition ret {A} (a : A) : M A := Ret a.
Definition bind {A B} (m : M A) (k : A -> M B) : M B := fun w =>
  match m w with
  | Ret a w => k a w
  | Die e w => Die e w
  | Undefined u => Undefined u
  | NoFuel => NoFuel
  end.
Notation "x <~ m ;; k" := (bind m (fun x => k)) (at level 100, m at next level, right associativity).
Notation "m ;;; k" := (bind m (fun _ => k)) (at level 100, right associativity).

Definition fatal {A} (e : fatal_error) : M A := Die e.
Definition lift {A} (u : undefined) (r : option A) : M A := fun w =>
  match r with Some a => Ret a w | None => Undefined u end.
Definition when (b : bool) (m : M unit) : M unit := if b then m else ret tt.

(** The counters are [int64_t]. *)
Definition add_pages (n : Z) : M unit := fun w =>
  match chk64 (total_pages w + n) with
  | Some t => Ret tt (mk_world t (total_pages_in_core w) (total_files w) (total_dirs w)
      (curr_crawl_depth w) (crawl_inodes w) (descriptors w) (mappings w) (out w) (err w) (touched w) (mapped_pages w) (locked_pages w))
  | None => Undefined Arithmetic
  end.
Definition add_in_core : M unit := fun w =>
  match chk64 (total_pages_in_core w + 1) with
  | Some t => Ret tt (mk_world (total_pages w) t (total_files w) (total_dirs w)
      (curr_crawl_depth w) (crawl_inodes w) (descriptors w) (mappings w) (out w) (err w) (touched w) (mapped_pages w) (locked_pages w))
  | None => Undefined Arithmetic
  end.
Definition add_file : M unit := fun w =>
  match chk64 (total_files w + 1) with
  | Some t => Ret tt (mk_world (total_pages w) (total_pages_in_core w) t (total_dirs w)
      (curr_crawl_depth w) (crawl_inodes w) (descriptors w) (mappings w) (out w) (err w) (touched w) (mapped_pages w) (locked_pages w))
  | None => Undefined Arithmetic
  end.
Definition add_dir : M unit := fun w =>
  match chk64 (total_dirs w + 1) with
  | Some t => Ret tt (mk_world (total_pages w) (total_pages_in_core w) (total_files w) t
      (curr_crawl_depth w) (crawl_inodes w) (descriptors w) (mappings w) (out w) (err w) (touched w) (mapped_pages w) (locked_pages w))
  | None => Undefined Arithmetic
  end.
Definition add_depth (d : Z) : M unit := fun w =>
  match chk32 (curr_crawl_depth w + d) with
  | Some t => Ret tt (mk_world (total_pages w) (total_pages_in_core w) (total_files w) (total_dirs w)
      t (crawl_inodes w) (descriptors w) (mappings w) (out w) (err w) (touched w) (mapped_pages w) (locked_pages w))
  | None => Undefined Arithmetic
  end.
Definition store_inode (ino : Z) : M unit := fun w =>
  match arr_set (crawl_inodes w) (curr_crawl_depth w) ino with
  | Some t => Ret tt (mk_world (total_pages w) (total_pages_in_core w) (total_files w) (total_dirs w)
      (curr_crawl_depth w) t (descriptors w) (mappings w) (out w) (err w) (touched w) (mapped_pages w) (locked_pages w))
  | None => Undefined OutOfArray
  end.
Definition held (fds maps : Z) : M unit := fun w =>
  Ret tt (mk_world (total_pages w) (total_pages_in_core w) (total_files w) (total_dirs w)
    (curr_crawl_depth w) (crawl_inodes w) (descriptors w + fds) (mappings w + maps)
    (out w) (err w) (touched w) (mapped_pages w) (locked_pages w)).
Definition print (l : line) : M unit := fun w =>
  Ret tt (mk_world (total_pages w) (total_pages_in_core w) (total_files w) (total_dirs w)
    (curr_crawl_depth w) (crawl_inodes w) (descriptors w) (mappings w)
    (out w ++ [l]) (err w) (touched w) (mapped_pages w) (locked_pages w)).
Definition touch (path : list byte) (i : Z) : M unit := fun w =>
  Ret tt (mk_world (total_pages w) (total_pages_in_core w) (total_files w) (total_dirs w)
    (curr_crawl_depth w) (crawl_inodes w) (descriptors w) (mappings w)
    (out w) (err w) (touched w ++ [(path, i)]) (mapped_pages w) (locked_pages w)).

(** What mmap, mlock and munmap do to the pages of one file, and what mlockall
    does to all that are mapped. *)
Definition map_pages (mapped locked : Z) : M unit := fun w =>
  Ret tt (mk_world (total_pages w) (total_pages_in_core w) (total_files w) (total_dirs w)
    (curr_crawl_depth w) (crawl_inodes w) (descriptors w) (mappings w)
    (out w) (err w) (touched w) (mapped_pages w + mapped) (locked_pages w + locked)).
Definition lock_mapped : M unit := fun w =>
  Ret tt (mk_world (total_pages w) (total_pages_in_core w) (total_files w) (total_dirs w)
    (curr_crawl_depth w) (crawl_inodes w) (descriptors w) (mappings w)
    (out w) (err w) (touched w) (mapped_pages w) (mapped_pages w)).

Section Program.
Context `{Kernel} (o : Options.opts).
Import Options.

(** src/code/cc/vmtouch/vmtouch.c:145-154 [warning] *)
Definition warning (x : warning_) : M unit := fun w =>
  if o_quiet o then Ret tt w else
  Ret tt (mk_world (total_pages w) (total_pages_in_core w) (total_files w) (total_dirs w)
    (curr_crawl_depth w) (crawl_inodes w) (descriptors w) (mappings w)
    (out w) (err w ++ [x]) (touched w) (mapped_pages w) (locked_pages w)).

(** src/code/cc/vmtouch/vmtouch.c:376-384 [vmtouch_file (retry_open)]
    The same loop is at retry_opendir. It ends because the answers do: that the
    kernel at last opens, refuses, or does not raise the limit any more is an
    assumption of the model. *)
Fixpoint retry_open (a : answer) : M bool :=
  match a with
  | Opened => ret true
  | Refused => ret false
  | TooMany rlim_max set next =>
      match increment_nofile_rlimit rlim_max set with
      | inl e => fatal e
      | inr _ => retry_open next
      end
  end.

Definition verbose : bool := negb (o_verbose o =? 0).

Fixpoint for_m {A} (ks : list Z) (body : Z -> A -> M A) (a : A) : M A :=
  match ks with
  | [] => ret a
  | i :: ks => a <~ body i a;; for_m ks body a
  end.

(** src/code/cc/vmtouch/vmtouch.c:306-340 [print_page_residency_chart (call)] *)
Definition print_chart (mincore_array : list Z) (pages : Z) : M unit :=
  text <~ lift OutOfArray (Chart.print_page_residency_chart mincore_array pages);; print (ChartLine text).

(** src/code/cc/vmtouch/vmtouch.c:424-429 [vmtouch_file (counting)] *)
Definition count_round (mincore_array : list Z) (i : Z) (_ : unit) : M unit :=
  p <~ lift OutOfArray (arr_get mincore_array i);; when (is_mincore_page_resident p) add_in_core.

(** src/code/cc/vmtouch/vmtouch.c:438-450 [vmtouch_file (touching)] *)
Definition touch_round (path : list byte) (pages : Z) (i : Z) (mincore_array : list Z) : M (list Z) :=
  touch path (i * pagesize);;;
  mincore_array <~ lift OutOfArray (arr_set mincore_array i 1);;
  when (verbose && chart_due path i) (print_chart mincore_array pages);;;
  ret mincore_array.

(** src/code/cc/vmtouch/vmtouch.c:417-458 [vmtouch_file (residency)]
    The counter [i] is an int: with more pages it overflows. *)
Definition residency (path : list byte) (pages_in_file : Z) : M unit :=
  if negb (malloc pages_in_file) then fatal NoMemory else
  match mincore path with
  | None => fatal (MincoreFailed path)
  | Some mincore_array =>
      _ <~ lift Arithmetic (chk32 pages_in_file);;
      for_m (upto 0 (pages_in_file - 1)) (count_round mincore_array) tt;;;
      when verbose (print (PathLine path);;; print_chart mincore_array pages_in_file);;;
      mincore_array <~ (if o_touch o
        then for_m (upto 0 (pages_in_file - 1)) (touch_round path pages_in_file) mincore_array
        else ret mincore_array);;
      when verbose (print_chart mincore_array pages_in_file;;; print EmptyLine)
  end.

(** src/code/cc/vmtouch/vmtouch.c:404-415 [vmtouch_file (eviction)] *)
Definition evict (path : list byte) : M unit :=
  when verbose (print (Evicting path));;;
  when (negb (fadvise path)) (warning (CannotEvict path)).

(** src/code/cc/vmtouch/vmtouch.c:346-470 [vmtouch_file] *)
Definition vmtouch_file (path : list byte) : M unit :=
  match (if o_followsymlinks o then stat path else lstat path) with
  | None => warning (CannotStat path)
  | Some sb =>
      match st_kind sb with
      | Link => warning (NotFollowing path)
      | _ =>
          if st_size sb =? 0 then ret tt else
          if o_max_file_size o <? u64 (st_size sb) then warning (TooLarge path) else
          fd <~ retry_open (open_ path);;
          if negb fd then warning (CannotOpen path) else
          held 1 0;;;
          match mmap path with
          | None => warning (CannotMmap path);;; held (-1) 0
          | Some mem =>
              held 0 1;;;
              if negb (aligned_p pagesize mem) then fatal (NotAligned path) else
              pages_in_file <~ lift Arithmetic (bytes2pages pagesize (st_size sb));;
              add_pages pages_in_file;;;
              map_pages pages_in_file 0;;;
              (if o_evict o then evict path else residency path pages_in_file);;;
              when (o_lock o)
                (if mlock path then map_pages 0 pages_in_file else fatal (MlockFailed path));;;
              when (negb (o_lock o) && negb (o_lockall o))
                ((if munmap path
                  then held 0 (-1);;;
                       map_pages (- pages_in_file) (if o_lock o then - pages_in_file else 0)
                  else warning (CannotUnmap path));;; held (-1) 0)
          end
      end
  end.

(** ** The walk *)

Definition MAX_CRAWL_DEPTH : Z := 1024.
Definition PATH_MAX : Z := 4096.

Definition dot (name : list byte) : bool :=
  bool_decide (name = [x2e]) || bool_decide (name = [x2e; x2e]).

(** src/code/cc/vmtouch/vmtouch.c:529-542 [vmtouch_crawl (entries)]
    [crawl] is the recursive call. *)
Fixpoint entries (crawl : list byte -> M unit) (path : list byte) (names : list (list byte)) : M unit :=
  match names with
  | [] => ret tt
  | d_name :: names =>
      if dot d_name then entries crawl path names else
      let npath := path ++ [x2f] ++ d_name in
      if PATH_MAX <=? size npath then warning (PathTooLong path) else
      add_depth 1;;;
      crawl npath;;;
      add_depth (-1);;;
      entries crawl path names
  end.

(** src/code/cc/vmtouch/vmtouch.c:500-547 [vmtouch_crawl (directory)] *)
Definition directory (crawl : list byte -> M unit) (path : list byte) (sb : stat_buf) : M unit := fun w =>
  let seen := take (Z.to_nat (curr_crawl_depth w)) (crawl_inodes w) in
  if existsb (Z.eqb (st_ino sb)) seen then warning (LinkLoop path) w else
  if curr_crawl_depth w =? MAX_CRAWL_DEPTH then fatal (DepthReached path) w else
  (add_dir;;;
   store_inode (st_ino sb);;;
   dirp <~ retry_open (opendir path);;
   if negb dirp then warning (CannotOpendir path) else
   held 1 0;;;
   entries crawl path (readdir path);;;
   if closedir path then held (-1) 0 else warning (CannotClosedir path)) w.

(** src/code/cc/vmtouch/vmtouch.c:484-487 [vmtouch_crawl (final slash)]
    An empty path is indexed at -1. *)
Definition strip_slash (path : list byte) : option (list byte) :=
  c ← last path; Some (if bool_decide (c = x2f) then removelast path else path).

(** src/code/cc/vmtouch/vmtouch.c:478-555 [vmtouch_crawl] *)
Fixpoint vmtouch_crawl (fuel : nat) (path : list byte) : M unit :=
  match fuel with
  | O => fun _ => NoFuel
  | S fuel =>
      path <~ lift OutOfArray (strip_slash path);;
      match (if o_followsymlinks o then stat path else lstat path) with
      | None => warning (CannotStat path)
      | Some sb =>
          match st_kind sb with
          | Link => warning (NotFollowing path)
          | Directory => directory (vmtouch_crawl fuel) path sb
          | Regular => add_file;;; vmtouch_file path
          | Other => warning (NotRegular path)
          end
      end
  end.
End Program.

(** ** The program and its daemon *)
Module Main.
Import Options.

(** What the calls of the program answer: three freopen, mlockall. *)
Record calls := mk_calls { freopen : bool * bool * bool; mlockall : bool }.

(** src/code/cc/vmtouch/vmtouch.c:156-161 [reopen_all]
    The second and the third are both of stdout. *)
Definition reopen_all (c : calls) : fatal_error + unit :=
  let '(a, b, d) := freopen c in if negb a || negb b || negb d then inl FreopenFailed else inr tt.

(** src/code/cc/vmtouch/vmtouch.c:107-112 [send_exit_signal]
    The bytes it puts into the pipe. *)
Definition send_exit_signal (o : opts) (daemon_pid code : Z) : list Z :=
  if (daemon_pid =? 0) && o_wait o then [code] else [].

(** A round of the wait: did select succeed, is the child gone, is there a byte? *)
Record poll := mk_poll { select_ok : bool; child_gone : bool; readable : bool }.

(** src/code/cc/vmtouch/vmtouch.c:163-188 [wait_for_child]
    [None] while the rounds do not end it; [read] is the byte, no byte, or -1. *)
Fixpoint wait_for_child (polls : list poll) (read : option (option Z)) : option (fatal_error + Z) :=
  match polls with
  | [] => None
  | p :: polls =>
      if negb (select_ok p) then Some (inl SelectFailed) else
      if child_gone p then Some (inl DaemonDied) else
      if readable p then
        Some (match read with
              | None => inl ReadFailed
              | Some None => inr 0
              | Some (Some v) => inr v
              end)
      else wait_for_child polls read
  end.

(** How a process ends: with a status; asleep in select for ever; or not yet. *)
Inductive ending := Exits (status : Z) | Sleeps | Waiting.

(** What a process has done: its end, the bytes in the pipe, its message. *)
Record process := mk_process { ends : ending; pipe : list Z; message : option fatal_error }.

(** src/code/cc/vmtouch/vmtouch.c:132-143 [fatal] *)
Definition fatal_end (o : opts) (daemon_pid : Z) (e : fatal_error) : process :=
  mk_process (Exits 1) (send_exit_signal o daemon_pid 1) (Some e).

(** src/code/cc/vmtouch/vmtouch.c:190-204 [go_daemon]
    [fork] is what fork returns; the process goes on, or ends here. *)
Definition go_daemon (o : opts) (c : calls) (fork : Z) (setsid : bool) (polls : list poll)
    (read : option (option Z)) : process + unit :=
  let daemon_pid := fork in
  if daemon_pid =? -1 then inl (fatal_end o daemon_pid ForkFailed) else
  if negb (daemon_pid =? 0) then
    inl (if o_wait o then
           match wait_for_child polls read with
           | None => mk_process Waiting [] None
           | Some (inl e) => fatal_end o daemon_pid e
           | Some (inr code) => mk_process (Exits (Z.land code 255)) [] None
           end
         else mk_process (Exits 0) [] None)
  else if negb setsid then inl (fatal_end o daemon_pid SetsidFailed) else
  if negb (o_wait o) then
    match reopen_all c with inl e => inl (fatal_end o daemon_pid e) | inr _ => inr tt end
  else inr tt.

Section Work.
Context `{Kernel} (o : opts).

(** src/code/cc/vmtouch/vmtouch.c:641-641 [main (walks)] *)
Fixpoint crawl_all (fuel : nat) (args : list (list byte)) : M unit :=
  match args with
  | [] => ret tt
  | a :: args => vmtouch_crawl o fuel a;;; crawl_all fuel args
  end.

(** [pretty_print_size(n*pagesize)] *)
Definition bytes_of (n : Z) : M (list byte) :=
  b <~ lift Arithmetic (chk64 (n * pagesize));; ret (pretty_print_size b).

(** src/code/cc/vmtouch/vmtouch.c:660-675 [main (report)]
    Without the percentage and the elapsed time. *)
Definition report : M unit := fun w =>
  (when (negb (o_quiet o))
    (when (verbose o) (print EmptyLine);;;
     print (Files (total_files w));;;
     print (Directories (total_dirs w));;;
     (if o_touch o then s <~ bytes_of (total_pages w);; print (Touched (total_pages w) s)
      else if o_evict o then s <~ bytes_of (total_pages w);; print (Evicted (total_pages w) s)
      else a <~ bytes_of (total_pages_in_core w);; b <~ bytes_of (total_pages w);;
           print (Resident (total_pages_in_core w) (total_pages w) a b)))) w.

(** src/code/cc/vmtouch/vmtouch.c:645-655 [main (locked)] *)
Definition locked (c : calls) : M unit := fun w =>
  (when (o_lockall o) (if mlockall c then lock_mapped else fatal MlockallFailed);;;
   when (negb (o_quiet o)) (s <~ bytes_of (total_pages w);; print (Locked (total_pages w) s));;;
   (if o_wait o then match reopen_all c with inl e => fatal e | inr _ => ret tt end else ret tt)) w.

(** src/code/cc/vmtouch/vmtouch.c:641-677 [main (work)]
    After the options and the fork; a process that locked sends 0 and sleeps. *)
Definition work (fuel : nat) (c : calls) (daemon_pid : Z) (args : list (list byte)) (w : world)
  : option (process * option world) :=
  let locks := o_lock o || o_lockall o in
  match (crawl_all fuel args;;; if locks then locked c else report) w with
  | Ret _ w => Some (if locks then mk_process Sleeps (send_exit_signal o daemon_pid 0) None
                     else mk_process (Exits 0) [] None, Some w)
  | Die e w => Some (fatal_end o daemon_pid e, Some w)
  | Undefined _ | NoFuel => None
  end.
End Work.

Definition start : world :=
  mk_world 0 0 0 0 0 (replicate 1024 0) 0 0 [] [] [] 0 0.

(** src/code/cc/vmtouch/vmtouch.c:565-678 [main]
    [getopt] is what getopt returns, [args] what is left of the command line. *)
Definition main `{Strtod, Kernel} (fuel : nat) (pipe_ok : bool) (getopt : list (byte * list byte))
    (args : list (list byte)) (c : calls) (fork : Z) (setsid : bool) (polls : list poll)
    (read : option (option Z)) : option (process * option world) :=
  if negb pipe_ok then Some (fatal_end initial 0 PipeFailed, None) else
  r ← options initial getopt;
  match r with
  | inl (s, o) => Some (match s with
                   | Fatal e => fatal_end o 0 e
                   | Usage => mk_process (Exits 1) [] None
                   | Deprecated => mk_process (Exits 0) [] None
                   end, None)
  | inr o =>
      match checks o (length args) with
      | inl (Fatal e) => Some (fatal_end o 0 e, None)
      | inl Usage => Some (mk_process (Exits 1) [] None, None)
      | inl Deprecated => Some (mk_process (Exits 0) [] None, None)
      | inr o =>
          if o_daemon o then
            match go_daemon o c fork setsid polls read with
            | inl p => Some (p, None)
            | inr _ => work o fuel c 0 args start
            end
          else work o fuel c 0 args start
      end
  end.
End Main.

(** ** Sizes: theorems *)

Definition suffix (k : nat) : list byte :=
  match k with O => [] | 1%nat => [x4b] | 2%nat => [x4d] | _ => [x47] end.

(** A size is shown in the unit that leaves at most three or four digits, rounded
    down. *)
Theorem pretty_print_size_unit inp :
  0 <= inp ->
  exists k, (k <= 3)%nat /\
    pretty_print_size inp = snprintf_zd 100 (inp / 1024 ^ Z.of_nat k) ++ suffix k /\
    (k <> 0%nat -> 1 <= inp / 1024 ^ Z.of_nat k) /\ ((k < 3)%nat -> inp / 1024 ^ Z.of_nat k < 1024).
Proof.
  intros Hi. unfold pretty_print_size.
  assert (forall n, 0 <= n -> Z.quot n 1024 = n / 1024) as Hq by (intros; apply Z.quot_div_nonneg; lia).
  assert (0 <= inp / 1024) by (apply Z.div_pos; lia).
  assert (0 <= inp / 1024 / 1024) by (apply Z.div_pos; lia).
  assert (inp / 1024 / 1024 = inp / 1024 ^ 2) as E2 by (rewrite Z.div_div by lia; done).
  assert (inp / 1024 ^ 2 / 1024 = inp / 1024 ^ 3) as E3 by (rewrite Z.div_div by lia; done).
  rewrite (Hq inp), (Hq (inp / 1024)), (Hq (inp / 1024 / 1024)) by lia. rewrite E2, E3.
  destruct (Z.ltb_spec inp 1024).
  { exists 0%nat. rewrite Z.div_1_r, app_nil_r. split_and!; [lia|done|done|done]. }
  assert (1 <= inp / 1024) by (apply Z.div_le_lower_bound; lia).
  destruct (Z.ltb_spec (inp / 1024) 1024).
  { exists 1%nat. change (1024 ^ Z.of_nat 1) with 1024. split_and!; [lia|done|done|done]. }
  assert (1 <= inp / 1024 ^ 2) by (rewrite <- E2; apply Z.div_le_lower_bound; lia).
  destruct (Z.ltb_spec (inp / 1024 ^ 2) 1024).
  { exists 2%nat. split_and!; [lia|done|done|done]. }
  exists 3%nat. split_and!; [lia|done| |lia].
  intros _. change (Z.of_nat 3) with 3. rewrite <- E3. apply Z.div_le_lower_bound; lia.
Qed.

Example pretty_print_size_unit_witness :
  0 <= 1536 /\ exists k, (k <= 3)%nat /\
    pretty_print_size 1536 = snprintf_zd 100 (1536 / 1024 ^ Z.of_nat k) ++ suffix k /\
    (k <> 0%nat -> 1 <= 1536 / 1024 ^ Z.of_nat k) /\ ((k < 3)%nat -> 1536 / 1024 ^ Z.of_nat k < 1024).
Proof. split; [done|]. by apply (pretty_print_size_unit 1536). Defined.

(** As many pages as the bytes need. *)
Lemma bytes2pages_spec ps bytes :
  0 < ps -> 0 < bytes -> bytes + ps <= 9223372036854775807 ->
  exists n, bytes2pages ps bytes = Some n /\ 0 < n /\ (n - 1) * ps < bytes <= n * ps.
Proof.
  intros Hp Hb Hm. unfold bytes2pages. rewrite chk64_ok by lia. cbn [mbind option_bind].
  rewrite chk64_ok by lia. cbn [mbind option_bind]. zfalse (ps =? 0).
  rewrite Z.quot_div_nonneg by lia. exists ((bytes + ps - 1) / ps). split; [done|].
  pose proof (Z.div_mod (bytes + ps - 1) ps) as Hd. pose proof (Z.mod_pos_bound (bytes + ps - 1) ps Hp).
  set (q := (bytes + ps - 1) / ps) in *. clearbody q. split; nia.
Qed.

(** What [-m] accepts is not negative. *)
Lemma parse_size_range `{Strtod} inp z :
  parse_size inp = Some (inr z) -> 0 <= z <= 9223372036854775807.
Proof.
  assert (forall l k, (let '(val, tp) := strtod l in
      if not_positive val || negb (Nat.eqb tp (length l)) then Some (inl BadSize)
      else z ← to_int64 k val; Some (inr z)) = Some (inr z : size_error + Z) ->
      0 <= z <= 9223372036854775807) as Hn.
  { intros l k. destruct (strtod l) as [val tp].
    destruct (not_positive val) eqn:Ep; [done|]. cbn [orb]. destruct (negb _); [done|].
    destruct val as [m e| |]; cbn; [|done..]. case_match eqn:E; [|done]. intros [= <-].
    cbn in Ep. split; [|lia]. apply Z.shiftl_nonneg. lia. }
  unfold parse_size. destruct (last inp) as [c|]; [|done].
  destruct (isalpha _); [|apply Hn]. destruct (tolower c); try done; apply Hn.
Qed.

(** ** The chart: theorems *)

Definition residents (l : list Z) : Z := cnt (fun p => Z.b2z (is_mincore_page_resident p)) l.

Lemma residents_range l : 0 <= residents l <= size l.
Proof.
  unfold residents. induction l as [|p l IH]; cbn [cnt length]; [lia|].
  destruct (is_mincore_page_resident p); cbn [Z.b2z]; lia.
Qed.

Lemma residents_snoc l p : residents (l ++ [p]) = residents l + Z.b2z (is_mincore_page_resident p).
Proof. unfold residents. rewrite cnt_app. cbn [cnt]. lia. Qed.

Module ChartProps.
Import Chart.

(** The pages of one character, and the character. *)
Definition block (n : Z) (l : list Z) (q : nat) : list Z :=
  take (Z.to_nat n) (drop (q * Z.to_nat n) l).
Definition shown (b : list Z) : byte := symbol (residents b) (size b).

Lemma symbol_all l : shown l = x4f <-> Forall (fun p => is_mincore_page_resident p = true) l.
Proof.
  unfold shown, symbol. transitivity (residents l = size l).
  - destruct (Z.eqb_spec (residents l) (size l)); [done|]. by destruct (_ =? 0).
  - unfold residents. induction l as [|p l IH]; cbn [cnt length]; [by split|]. rewrite Forall_cons, <- IH.
    pose proof (residents_range l) as Hr. unfold residents in Hr.
    destruct (is_mincore_page_resident p); cbn [Z.b2z]; split; intros; destruct_and?; try done; lia.
Qed.

Lemma symbol_none l :
  l <> [] -> shown l = x20 <-> Forall (fun p => is_mincore_page_resident p = false) l.
Proof.
  intros Hl. unfold shown, symbol. transitivity (residents l = 0).
  - assert (0 < size l) by (destruct l; [done|simpl; lia]).
    destruct (Z.eqb_spec (residents l) (size l)); [split; [done|lia]|].
    by destruct (Z.eqb_spec (residents l) 0).
  - clear Hl. unfold residents. induction l as [|p l IH]; cbn [cnt]; [by split|]. rewrite Forall_cons, <- IH.
    pose proof (residents_range l) as Hr. unfold residents in Hr.
    destruct (is_mincore_page_resident p); cbn [Z.b2z]; split; intros; destruct_and?; try done; lia.
Qed.

Definition loop_at (n : Z) (l : list Z) (i : Z) (s : Z * Z * Z * list byte) : Prop :=
  let '(core, j, curr, out) := s in
  exists q : nat, i = Z.of_nat q * n + j /\ 0 <= j < n /\
    curr = residents (take (Z.to_nat j) (drop (q * Z.to_nat n) l)) /\
    core = residents (take (Z.to_nat i) l) /\
    out = [x0d; x5b] ++ map (fun q => shown (block n l q)) (seq 0 q).

Lemma round_at n l i s :
  0 < n -> 0 <= i < size l -> loop_at n l i s ->
  exists s', round n l i s = Some s' /\ loop_at n l (i + 1) s'.
Proof.
  intros Hn Hi. destruct s as [[[core j] curr] out]. intros (q & Ei & Hj & -> & -> & ->).
  destruct (arr_get_in l i Hi) as [p Hp]. unfold round. rewrite Hp. cbn [mbind option_bind].
  apply arr_get_Some in Hp as [_ Hp].
  assert (take (Z.to_nat (i + 1)) l = take (Z.to_nat i) l ++ [p]) as Et.
  { replace (Z.to_nat (i + 1)) with (Datatypes.S (Z.to_nat i)) by lia. by apply take_S_r. }
  assert (take (Z.to_nat (j + 1)) (drop (q * Z.to_nat n) l) =
          take (Z.to_nat j) (drop (q * Z.to_nat n) l) ++ [p]) as Eb.
  { replace (Z.to_nat (j + 1)) with (Datatypes.S (Z.to_nat j)) by lia. apply take_S_r.
    rewrite lookup_drop. rewrite <- Hp. f_equal. nia. }
  set (b := is_mincore_page_resident p).
  replace (if b then (residents (take (Z.to_nat j) (drop (q * Z.to_nat n) l)) + 1,
              residents (take (Z.to_nat i) l) + 1) else
              (residents (take (Z.to_nat j) (drop (q * Z.to_nat n) l)), residents (take (Z.to_nat i) l)))
    with (residents (take (Z.to_nat (j + 1)) (drop (q * Z.to_nat n) l)),
          residents (take (Z.to_nat (i + 1)) l)).
  2: { rewrite Et, Eb, !residents_snoc. fold b. destruct b; cbn [Z.b2z]; f_equal; lia. }
  destruct (Z.eqb_spec (j + 1) n) as [En|En]; (eexists; split; [done|]).
  - exists (Datatypes.S q). split_and!; [nia|lia|lia|done|done|].
    rewrite seq_S, map_app, app_assoc. cbn [map]. do 2 f_equal. unfold shown, block. rewrite En. f_equal.
    cbn [Nat.add]. rewrite length_take, length_drop.
    assert (Z.to_nat i < length l)%nat by lia. nia.
  - exists q. split_and!; [lia|lia|lia|done|done|done].
Qed.

(** The chart has at most 60 characters; each stands for a run of as many pages,
    the last one for what is left: O when all of them are resident, a space when
    none is, o otherwise. *)
Theorem chart_blocks l :
  exists n q : Z, print_page_residency_chart l (size l) =
      Some ([x0d; x5b] ++ map (fun k => shown (block n l k)) (seq 0 (Z.to_nat q)) ++
            [x5d; x20] ++ snprintf_zd 21 (residents l) ++ [x2f] ++ snprintf_zd 21 (size l)) /\
    0 <= q <= width /\ 0 < n /\ (q - 1) * n < size l + 1 /\ size l <= q * n.
Proof.
  unfold print_page_residency_chart.
  set (n := if size l <=? width then 1 else Z.quot (size l) width + 1).
  assert (0 < n /\ size l <= width * n) as [Hn Hw].
  { subst n. unfold width. destruct (Z.leb_spec (size l) 60); [lia|].
    rewrite Z.quot_div_nonneg by lia. pose proof (Z.div_mod (size l) 60).
    pose proof (Z.mod_pos_bound (size l) 60). pose proof (Z.div_pos (size l) 60). lia. }
  clearbody n.
  destruct (for_upto (loop_at n l) 0 (size l - 1) (round n l) (0, 0, 0, [x0d; x5b])) as (s & -> & Hs);
    [lia| | |].
  - exists 0%nat. rewrite take_0. split_and!; [lia|lia|lia|done|done|done].
  - intros i s Hi Hs. apply round_at; [done|lia|done].
  - destruct s as [[[core j] curr] out]. cbn [mbind option_bind].
    destruct Hs as (q & Ei & Hj & -> & -> & ->). replace (size l - 1 + 1) with (size l) in * by lia.
    rewrite (take_ge l) by lia.
    destruct (Z.eqb_spec j 0) as [Ej|Ej].
    + exists n, (Z.of_nat q). rewrite Nat2Z.id, <- app_assoc. split; [done|]. unfold width in *.
      assert (Z.of_nat q <= 60) by (apply (Z.mul_le_mono_pos_r _ _ n); lia). lia.
    + exists n, (Z.of_nat q + 1). split.
      * replace (Z.to_nat (Z.of_nat q + 1)) with (Datatypes.S q) by lia.
        rewrite seq_S, map_app, <- !app_assoc. do 4 f_equal. cbn [map]. f_equal. unfold shown, block.
        assert (length (drop (q * Z.to_nat n) l) = Z.to_nat j) as Hl.
        { rewrite length_drop. nia. }
        cbn [Nat.add]. rewrite !take_ge, Hl by lia. f_equal. lia.
      * unfold width in *. assert (Z.of_nat q < 60) by (apply (Z.mul_lt_mono_pos_r n); lia). lia.
Qed.
End ChartProps.

(** ** Reasoning about runs

    [sat Q F U]: a normal end satisfies [Q], a fatal one [F], [U] is said of
    undefined behaviour, and the fuel is enough. *)
Definition sat {A} (Q : A -> world -> Prop) (F : fatal_error -> world -> Prop) (U : undefined -> Prop)
    (r : outcome A) : Prop :=
  match r with
  | Ret a w => Q a w
  | Die e w => F e w
  | Undefined u => U u
  | NoFuel => False
  end.

Lemma sat_bind {A B} (m : M A) (k : A -> M B) Q F U w :
  sat (fun a w => sat Q F U (k a w)) F U (m w) -> sat Q F U (bind m k w).
Proof. unfold bind. by destruct (m w). Qed.

Lemma sat_mono {A} (Q Q' : A -> world -> Prop) (F F' : fatal_error -> world -> Prop) (U : undefined -> Prop) r :
  sat Q F U r -> (forall a w, Q a w -> Q' a w) -> (forall e w, F e w -> F' e w) -> sat Q' F' U r.
Proof. destruct r; cbn; auto. Qed.

Lemma sat_then {A B} (m : M A) (k : A -> M B) (Q1 : A -> world -> Prop) Q F U w :
  sat Q1 F U (m w) -> (forall a w, Q1 a w -> sat Q F U (k a w)) -> sat Q F U (bind m k w).
Proof. intros H1 H2. apply sat_bind. eapply sat_mono; [exact H1|exact H2|done]. Qed.

(** What most steps leave alone: the walk, and what is in use. *)
Definition quiet (w w' : world) : Prop :=
  curr_crawl_depth w' = curr_crawl_depth w /\ crawl_inodes w' = crawl_inodes w /\
  descriptors w' = descriptors w /\ mappings w' = mappings w.

#[export] Instance quiet_preorder : PreOrder quiet.
Proof.
  split; [by repeat split|]. intros w1 w2 w3 (E1 & E2 & E3 & E4) (F1 & F2 & F3 & F4).
  unfold quiet. by rewrite F1, F2, F3, F4.
Qed.

(** Fatal errors but the one of the walk. *)
Definition other_error (e : fatal_error) (_ : world) : Prop :=
  match e with DepthReached _ => False | _ => True end.

(** Undefined behaviour but that of an array. *)
Definition arithmetic (u : undefined) : Prop := u = Arithmetic.

Definition Quiet {A} (m : M A) : Prop := forall w, sat (fun _ w' => quiet w w') other_error arithmetic (m w).

Create HintDb quiet.

Lemma quiet_ret {A} (a : A) : Quiet (ret a).
Proof. intros w. cbn. reflexivity. Qed.
Lemma quiet_bind {A B} (m : M A) (k : A -> M B) : Quiet m -> (forall a, Quiet (k a)) -> Quiet (bind m k).
Proof.
  intros Hm Hk w. eapply sat_then; [apply Hm|]. intros a w1 H1. eapply sat_mono; [apply Hk| |done].
  intros b w2 H2. by transitivity w1.
Qed.
Lemma quiet_lift {A} (r : option A) : Quiet (lift Arithmetic r).
Proof. intros w. destruct r; cbn; reflexivity. Qed.
Lemma quiet_when b m : Quiet m -> Quiet (when b m).
Proof. intros H. destruct b; [done|apply quiet_ret]. Qed.
Lemma quiet_print l : Quiet (print l).
Proof. intros w. by repeat split. Qed.
Lemma quiet_touch p i : Quiet (touch p i).
Proof. intros w. by repeat split. Qed.
Lemma quiet_map_pages m l : Quiet (map_pages m l).
Proof. intros w. by repeat split. Qed.
Lemma quiet_lift_Some {A} u (r : option A) a : r = Some a -> Quiet (lift u r).
Proof. intros -> w. cbn. reflexivity. Qed.
Lemma quiet_add_pages n : Quiet (add_pages n).
Proof. intros w. unfold add_pages. destruct (chk64 _); [by repeat split|done]. Qed.
Lemma quiet_add_in_core : Quiet add_in_core.
Proof. intros w. unfold add_in_core. destruct (chk64 _); [by repeat split|done]. Qed.
Lemma quiet_add_file : Quiet add_file.
Proof. intros w. unfold add_file. destruct (chk64 _); [by repeat split|done]. Qed.
Lemma quiet_add_dir : Quiet add_dir.
Proof. intros w. unfold add_dir. destruct (chk64 _); [by repeat split|done]. Qed.
Lemma quiet_fatal {A} e : other_error e (mk_world 0 0 0 0 0 [] 0 0 [] [] [] 0 0) -> Quiet (@fatal A e).
Proof. intros H w. exact H. Qed.
Lemma quiet_if {A} (b : bool) (m n : M A) : Quiet m -> Quiet n -> Quiet (if b then m else n).
Proof. by destruct b. Qed.

#[export] Hint Resolve @quiet_ret @quiet_bind @quiet_lift quiet_when quiet_print quiet_touch quiet_map_pages
  quiet_add_pages quiet_add_in_core quiet_add_file quiet_add_dir @quiet_if : quiet.
#[export] Hint Extern 1 (Quiet (fatal _)) => (apply quiet_fatal; exact I) : quiet.

Section Walk.
Context `{Kernel} (o : Options.opts).
Import Options.

Lemma quiet_warning x : Quiet (warning o x).
Proof. intros w. unfold warning. destruct (o_quiet o); by repeat split. Qed.

(** A loop whose rounds keep [P] of what they hand on. *)
Lemma for_m_quiet {A} (P : A -> Prop) ks (body : Z -> A -> M A) a :
  P a -> (forall i a, i ∈ ks -> P a -> forall w,
    sat (fun a' w' => P a' /\ quiet w w') other_error arithmetic (body i a w)) ->
  forall w, sat (fun a' w' => P a' /\ quiet w w') other_error arithmetic (for_m ks body a w).
Proof.
  intros Ha Hb. revert a Ha. induction ks as [|i ks IH]; intros a Ha w; cbn [for_m].
  { by split. }
  eapply sat_then; [apply Hb; [set_solver|done]|]. intros a1 w1 [Ha1 H1].
  eapply sat_mono; [apply IH; [|done]| |done].
  - intros j a2 Hj. apply Hb. set_solver.
  - intros a2 w2 [? H2]. split; [done|]. by transitivity w1.
Qed.

Lemma quiet_then {A B} (m : M A) (k : A -> M B) (P : A -> Prop) :
  (forall w, sat (fun a w' => P a /\ quiet w w') other_error arithmetic (m w)) ->
  (forall a, P a -> Quiet (k a)) -> Quiet (bind m k).
Proof.
  intros Hm Hk w. eapply sat_then; [apply Hm|]. intros a w1 [Ha H1]. eapply sat_mono; [by apply Hk| |done].
  intros b w2 H2. by transitivity w1.
Qed.

Lemma quiet_sat {A} (m : M A) (P : A -> Prop) w :
  Quiet m -> (forall a w', m w = Ret a w' -> P a) ->
  sat (fun a w' => P a /\ quiet w w') other_error arithmetic (m w).
Proof. intros Hm Hp. specialize (Hm w). destruct (m w) as [a w'| | |]; cbn in *; eauto. Qed.

Lemma quiet_retry_open a : Quiet (retry_open a).
Proof.
  induction a as [| |m set next IH]; cbn [retry_open]; [apply quiet_ret..|].
  destruct (increment_nofile_rlimit m set) as [e|] eqn:E; [|exact IH].
  apply quiet_fatal. unfold increment_nofile_rlimit in E.
  destruct m; [destruct (set _ _) as [|[]|]|]; by simplify_eq.
Qed.

#[local] Hint Resolve quiet_warning quiet_retry_open : quiet.

Lemma quiet_print_chart l : Quiet (print_chart l (size l)).
Proof.
  unfold print_chart. destruct (ChartProps.chart_blocks l) as (m & q & E & _).
  apply quiet_bind; [by eapply quiet_lift_Some|auto with quiet].
Qed.
#[local] Hint Resolve quiet_print_chart : quiet.

Lemma quiet_count_round l i : 0 <= i < size l -> Quiet (count_round l i tt).
Proof.
  intros Hi. unfold count_round. destruct (arr_get_in l i Hi) as [p Hp].
  apply quiet_bind; [by eapply quiet_lift_Some|auto with quiet].
Qed.

Lemma touch_round_size path pages i l w l' w' :
  touch_round o path pages i l w = Ret l' w' -> size l' = size l.
Proof.
  unfold touch_round, bind, touch, lift. destruct (arr_set l i 1) as [l1|] eqn:E; [|done].
  assert (size l1 = size l) as Hl.
  { unfold arr_set in E. destruct (_ && _); [|done]. injection E as <-. by rewrite length_insert. }
  destruct (when _ _ _); [|done..]. by intros [= <- _].
Qed.

Lemma quiet_touch_round path l i : 0 <= i < size l -> Quiet (touch_round o path (size l) i l).
Proof.
  intros Hi. unfold touch_round. apply quiet_bind; [auto with quiet|]. intros [].
  rewrite arr_set_in by lia. intros w. unfold bind at 1, lift at 1. revert w.
  apply (quiet_bind (when _ (print_chart _ _))); [|auto with quiet]. apply quiet_when.
  rewrite <- (length_insert l (Z.to_nat i) 1). apply quiet_print_chart.
Qed.

(** No entry of the array but its own is looked at, when mincore filled it. *)
Lemma quiet_residency path p :
  (forall l, mincore path = Some l -> size l = p) -> Quiet (residency o path p).
Proof.
  intros Hfill. unfold residency. apply quiet_if; [auto with quiet|].
  destruct (mincore path) as [l|]; [|auto with quiet]. specialize (Hfill l eq_refl). subst p.
  apply quiet_bind; [auto with quiet|intros _].
  apply (quiet_then _ _ (fun _ => True)).
  { apply for_m_quiet; [done|]. intros i [] Hi%elem_of_upto _ w. apply quiet_sat; [|done].
    apply quiet_count_round. lia. }
  intros _ _. apply quiet_bind; [auto with quiet|intros _].
  apply (quiet_then _ _ (fun l' => size l' = size l)).
  - destruct (o_touch o); [|by intros w; cbn; split].
    apply for_m_quiet; [done|]. intros i l1 Hi%elem_of_upto Hl1 w. rewrite <- Hl1. apply quiet_sat.
    + apply quiet_touch_round. lia.
    + intros l2 w2 E. by apply touch_round_size in E.
  - intros l1 <-. auto with quiet.
Qed.

Lemma quiet_evict path : Quiet (evict o path).
Proof. unfold evict. auto with quiet. Qed.
#[local] Hint Resolve quiet_evict : quiet.

Definition look (path : list byte) : option stat_buf := if o_followsymlinks o then stat path else lstat path.

(** mincore fills an entry for each page of the file. *)
Context (mincore_fills : forall path sb n l, look path = Some sb ->
  bytes2pages pagesize (st_size sb) = Some n -> mincore path = Some l -> size l = n).

(** Nothing is locked, and what is given back is taken. *)
Definition clean : Prop :=
  o_lock o = false /\ o_lockall o = false /\ (forall p, closedir p = true) /\ (forall p, munmap p = true).

(** A step that takes so many descriptors and mappings, once [clean] is known. *)
Definition Moves {A} (d g : Z) (m : M A) : Prop := forall w,
  sat (fun _ w' => curr_crawl_depth w' = curr_crawl_depth w /\ crawl_inodes w' = crawl_inodes w /\
    (clean -> descriptors w' = descriptors w + d /\ mappings w' = mappings w + g)) other_error arithmetic (m w).

Lemma moves_quiet {A} (m : M A) : Quiet m -> Moves 0 0 m.
Proof.
  intros Hm w. eapply sat_mono; [apply Hm| |done]. intros a w' (-> & -> & -> & ->).
  split_and!; [done..|]. lia.
Qed.

Lemma moves_bind {A B} (m : M A) (k : A -> M B) d g :
  Quiet m -> (forall a, Moves d g (k a)) -> Moves d g (bind m k).
Proof.
  intros Hm Hk w. eapply sat_then; [apply Hm|]. intros a w1 (E1 & E2 & E3 & E4).
  eapply sat_mono; [apply Hk| |done]. intros b w2 (-> & -> & Hc). by rewrite E1, E2, <- E3, <- E4.
Qed.

Lemma moves_held (k : M unit) d g a b : Moves (d - a) (g - b) k -> Moves d g (held a b;;; k).
Proof.
  intros Hk w. eapply sat_mono; [apply (Hk (mk_world _ _ _ _ _ _ _ _ _ _ _ _ _))| |done].
  cbn. intros _ w' (-> & -> & Hc). split_and!; [done..|]. intros [-> ->]%Hc. lia.
Qed.

Lemma moves_held_only d g : Moves d g (held d g).
Proof. intros w. cbn. done. Qed.

Lemma moves_if {A} (b : bool) (m n : M A) d g :
  (b = true -> Moves d g m) -> (b = false -> Moves d g n) -> Moves d g (if b then m else n).
Proof. destruct b; auto. Qed.

Lemma moves_fatal {A} e d g : Quiet (@fatal A e) -> Moves d g (@fatal A e).
Proof. intros Hq w. apply (Hq w). Qed.

(** When [clean] does not hold nothing is said of what is in use. *)
Lemma moves_unclean {A} (m : M A) d g d' g' : ~ clean -> Moves d' g' m -> Moves d g m.
Proof.
  intros Hc Hm w. eapply sat_mono; [apply Hm| |done]. intros a w' (-> & -> & _). split_and!; [done..|].
  by intros ?%Hc.
Qed.

Lemma moves_lift {A B} (r : option A) (k : A -> M B) d g :
  (forall a, r = Some a -> Moves d g (k a)) -> Moves d g (bind (lift Arithmetic r) k).
Proof. intros Hk. destruct r as [a|]; [by apply Hk|done]. Qed.

Lemma moves_seq {A} (m : M unit) (k : M A) d g d' g' :
  Moves d g m -> Moves d' g' k -> Moves (d + d') (g + g') (m;;; k).
Proof.
  intros Hm Hk w. eapply sat_then; [apply Hm|]. intros [] w1 (E1 & E2 & E3).
  eapply sat_mono; [apply Hk| |done]. intros b w2 (-> & -> & Hc). rewrite E1, E2.
  split_and!; [done..|]. intros HC. destruct (Hc HC), (E3 HC). lia.
Qed.

(** The mapping and the descriptor are given back. *)
Lemma unmap_moves path n :
  Moves (-1) (-1) (when (negb (o_lock o) && negb (o_lockall o))
    ((if munmap path
      then held 0 (-1);;; map_pages (- n) (if o_lock o then - n else 0)
      else warning o (CannotUnmap path));;; held (-1) 0)).
Proof.
  assert (forall A (m : M A), Quiet m -> ~ clean -> Moves (-1) (-1) m) as Hun.
  { intros A m Hm Hc. by apply (moves_unclean _ _ _ 0 0), moves_quiet. }
  destruct (o_lock o) eqn:E1; cbn [negb andb when];
    [apply Hun; [auto with quiet|]; unfold clean; rewrite E1; by intros [? _]|].
  destruct (o_lockall o) eqn:E2; cbn [negb andb when];
    [apply Hun; [auto with quiet|]; unfold clean; rewrite E2; by intros (_ & ? & _)|].
  destruct (munmap path) eqn:E3.
  - apply (moves_seq _ _ 0 (-1) (-1) 0); [|apply moves_held_only].
    apply moves_held, moves_quiet. auto with quiet.
  - apply (moves_unclean _ _ _ (-1) 0); [unfold clean; intros (_ & _ & _ & Hm); by rewrite Hm in E3|].
    apply (moves_seq _ _ 0 0 (-1) 0); [apply moves_quiet; auto with quiet|apply moves_held_only].
Qed.

Lemma vmtouch_file_moves path : Moves 0 0 (vmtouch_file o path).
Proof.
  unfold vmtouch_file. change (if o_followsymlinks o then _ else _) with (look path).
  destruct (look path) as [sb|] eqn:El; [|apply moves_quiet; auto with quiet].
  destruct (st_kind sb); try (apply moves_quiet; auto with quiet; fail).
  all: apply moves_if; intros _; [apply moves_quiet; auto with quiet|].
  all: apply moves_if; intros _; [apply moves_quiet; auto with quiet|].
  all: apply moves_bind; [auto with quiet|]; intros fd.
  all: apply moves_if; intros _; [apply moves_quiet; auto with quiet|].
  all: apply moves_held; destruct (mmap path) as [mem|];
    [|apply moves_bind; [auto with quiet|intros _; apply moves_held_only]].
  all: apply moves_held; apply moves_if; intros _; [apply moves_fatal; auto with quiet|].
  all: apply moves_lift; intros n En.
  all: do 2 (apply moves_bind; [auto with quiet|intros _]).
  all: apply moves_bind; [apply quiet_if; [auto with quiet|];
    apply quiet_residency; intros l; by apply (mincore_fills path sb)|intros _].
  all: apply moves_bind; [auto with quiet|intros _]; apply unmap_moves.
Qed.

(** What a step leaves of the walk: its depth and the first [n] inodes; and what
    is in use, once [clean] is known. *)
Definition keeps (n : Z) (w w' : world) : Prop :=
  curr_crawl_depth w' = curr_crawl_depth w /\ length (crawl_inodes w') = length (crawl_inodes w) /\
  take (Z.to_nat n) (crawl_inodes w') = take (Z.to_nat n) (crawl_inodes w) /\
  (clean -> descriptors w' = descriptors w /\ mappings w' = mappings w).

Lemma keeps_trans n w1 w2 w3 : keeps n w1 w2 -> keeps n w2 w3 -> keeps n w1 w3.
Proof.
  intros (E1 & E2 & E3 & Hc) (F1 & F2 & F3 & Hc'). unfold keeps. rewrite F1, F2, F3.
  split_and!; [done..|]. intros HC. destruct (Hc HC) as [<- <-]. by apply Hc'.
Qed.

Lemma keeps_quiet n w w' : quiet w w' -> keeps n w w'.
Proof. intros (E1 & E2 & E3 & E4). unfold keeps. by rewrite E1, E2, E3, E4. Qed.

Lemma keeps_less n m w w' : n <= m -> keeps m w w' -> keeps n w w'.
Proof.
  intros Hn (E1 & E2 & E3 & Hc). unfold keeps. split_and!; [done..| |done].
  apply (f_equal (take (Z.to_nat n))) in E3. rewrite !take_take in E3.
  by replace (Z.to_nat n `min` Z.to_nat m)%nat with (Z.to_nat n) in E3 by lia.
Qed.

Definition is_directory_inode (ino : Z) : Prop :=
  exists path sb, look path = Some sb /\ st_kind sb = Directory /\ st_ino sb = ino.

(** The walk: the inodes above are those of different directories. *)
Definition walking (n : Z) (w : world) : Prop :=
  size (crawl_inodes w) = MAX_CRAWL_DEPTH /\ 0 <= n <= MAX_CRAWL_DEPTH /\
  NoDup (take (Z.to_nat n) (crawl_inodes w)) /\
  Forall is_directory_inode (take (Z.to_nat n) (crawl_inodes w)).

Lemma walking_keeps n w w' : walking n w -> keeps n w w' -> walking n w'.
Proof. intros (? & ? & ? & ?) (_ & E2 & E3 & _). unfold walking. by rewrite E2, E3. Qed.

(** The fatal error of the walk comes with more directories than it can hold. *)
Definition deep_error (e : fatal_error) (_ : world) : Prop :=
  match e with
  | DepthReached _ => exists chain, NoDup chain /\ size chain = MAX_CRAWL_DEPTH + 1 /\ Forall is_directory_inode chain
  | _ => True
  end.

Lemma other_deep e w : other_error e w -> deep_error e w.
Proof. by destruct e. Qed.

Lemma quiet_keeps {A} (m : M A) n w : Quiet m -> sat (fun _ w' => keeps n w w') deep_error arithmetic (m w).
Proof.
  intros Hm. eapply sat_mono; [apply Hm| |apply other_deep]. intros ? w' Hq. by apply keeps_quiet.
Qed.

(** [add_depth] changes the depth only. *)
Definition at_depth (d : Z) (w : world) : world :=
  mk_world (total_pages w) (total_pages_in_core w) (total_files w) (total_dirs w)
    d (crawl_inodes w) (descriptors w) (mappings w) (out w) (err w) (touched w) (mapped_pages w) (locked_pages w).

Lemma sat_add_depth d F U w :
  -2147483648 <= curr_crawl_depth w + d <= 2147483647 ->
  sat (fun _ w' => w' = at_depth (curr_crawl_depth w + d) w) F U (add_depth d w).
Proof.
  intros Hd. unfold add_depth. by rewrite chk32_ok.
Qed.

(** [held] changes what is in use. *)
Definition in_use (d g : Z) (w : world) : world :=
  mk_world (total_pages w) (total_pages_in_core w) (total_files w) (total_dirs w)
    (curr_crawl_depth w) (crawl_inodes w) (descriptors w + d) (mappings w + g) (out w) (err w) (touched w) (mapped_pages w) (locked_pages w).

Lemma sat_held d g F U w : sat (fun _ w' => w' = in_use d g w) F U (held d g w).
Proof. done. Qed.

Definition Walks (n : Z) (crawl : list byte -> M unit) : Prop := forall path w, path <> [] ->
  curr_crawl_depth w = n -> walking n w -> sat (fun _ w' => keeps n w w') deep_error arithmetic (crawl path w).

Lemma entries_walk crawl path names d w :
  Walks (d + 1) crawl -> curr_crawl_depth w = d -> walking (d + 1) w -> 0 <= d ->
  sat (fun _ w' => keeps (d + 1) w w') deep_error arithmetic (entries o crawl path names w).
Proof.
  intros Hc. revert w. induction names as [|x names IH]; intros w Hw Hwalk Hd; cbn [entries].
  { cbn. apply keeps_quiet. reflexivity. }
  destruct (dot x); [by apply IH|]. destruct (PATH_MAX <=? _); [apply quiet_keeps, quiet_warning|].
  assert (0 <= d + 1 <= 1024) as Hmax by apply Hwalk.
  eapply sat_then; [apply sat_add_depth; lia|]. intros [] w1 ->.
  eapply sat_then; [apply Hc; cbn; [by destruct path|lia|done]|]. intros [] w2 Hk.
  eapply sat_then; [apply sat_add_depth; destruct Hk as [-> _]; cbn; lia|]. intros [] ? ->.
  set (w3 := at_depth _ w2).
  assert (keeps (d + 1) w w3) as Hk3.
  { destruct Hk as (E1 & E2 & E3 & E4). cbn in E1, E2, E3, E4. subst w3. unfold keeps. cbn.
    split_and!; [lia|done..]. }
  clearbody w3. eapply sat_mono; [apply IH| |done].
  - by destruct Hk3 as (-> & _).
  - by apply (walking_keeps _ w).
  - done.
  - intros ? w4 Hk4. by eapply keeps_trans.
Qed.

Lemma directory_walk crawl path sb d :
  Walks (d + 1) crawl -> look path = Some sb -> st_kind sb = Directory ->
  forall w, curr_crawl_depth w = d -> walking d w ->
  sat (fun _ w' => keeps d w w') deep_error arithmetic (directory o crawl path sb w).
Proof.
  intros Hc Hl Hk w Hd Hwalk. unfold directory. rewrite Hd.
  destruct (existsb _ _) eqn:Eseen; [apply quiet_keeps, quiet_warning|].
  destruct Hwalk as (Hsz & Hn & Hnd & Hdirs).
  assert (st_ino sb ∉ take (Z.to_nat d) (crawl_inodes w)) as Hnew.
  { intros Hin%list_elem_of_In. assert (existsb (Z.eqb (st_ino sb)) (take (Z.to_nat d) (crawl_inodes w)) = true);
      [|congruence]. apply existsb_exists. exists (st_ino sb). split; [done|apply Z.eqb_refl]. }
  assert (is_directory_inode (st_ino sb)) as Hino by by exists path, sb.
  destruct (Z.eqb_spec d MAX_CRAWL_DEPTH) as [Emax|Emax].
  { exists (st_ino sb :: take (Z.to_nat d) (crawl_inodes w)). split_and!.
    - by apply NoDup_cons.
    - cbn [length]. rewrite length_take. unfold MAX_CRAWL_DEPTH in *. lia.
    - by apply Forall_cons. }
  eapply sat_then; [apply (quiet_keeps _ d), quiet_add_dir|]. intros [] w1 Hk1.
  pose proof Hk1 as (E1 & E2 & E3 & E4).
  apply sat_bind. unfold store_inode. rewrite E1, Hd. rewrite arr_set_in by lia. cbn [sat].
  set (w2 := mk_world _ _ _ _ _ _ _ _ _ _ _ _ _).
  assert (walking (d + 1) w2) as Hw2.
  { unfold walking. subst w2. cbn. rewrite length_insert, E2.
    replace (Z.to_nat (d + 1)) with (Datatypes.S (Z.to_nat d)) by lia.
    rewrite (take_S_r _ _ (st_ino sb)) by (apply list_lookup_insert_eq; lia).
    rewrite take_insert_ge, E3 by lia. split_and!; [done|lia|unfold MAX_CRAWL_DEPTH in *; lia| |].
    - apply NoDup_app. split_and!; [done| |apply NoDup_singleton]. by intros x Hx ->%list_elem_of_singleton.
    - by rewrite Forall_app, Forall_singleton. }
  assert (keeps d w w2) as Hk2.
  { unfold keeps. subst w2. cbn. rewrite length_insert, take_insert_ge by lia. split_and!; [lia|done..]. }
  assert (curr_crawl_depth w2 = d) as Hd2 by (subst w2; cbn; lia). clearbody w2.
  eapply sat_then; [apply (quiet_keeps _ (d + 1)), quiet_retry_open|]. intros dirp w3 Hk3.
  assert (keeps d w w3) as Hk3' by (eapply keeps_trans; [exact Hk2|apply (keeps_less d (d + 1)); [lia|exact Hk3]]).
  destruct dirp; cbn [negb].
  2: { eapply sat_mono; [apply (quiet_keeps _ d), quiet_warning| |done]. intros ? w4 H4. by eapply keeps_trans. }
  eapply sat_then; [apply sat_held|]. intros [] ? ->. set (w4 := in_use 1 0 w3).
  eapply sat_then; [apply (entries_walk crawl path (readdir path) d w4 Hc)|].
  - subst w4. cbn. by destruct Hk3 as (-> & _).
  - subst w4. by apply (walking_keeps _ _ w3) in Hw2.
  - lia.
  - intros [] w5 Hk5. apply (keeps_less d) in Hk5; [|lia].
    assert (forall w6, keeps d w5 w6 -> ~ clean -> keeps d w w6) as Hunclean.
    { intros w6 Hk6 HC. destruct Hk3' as (A1 & A2 & A3 & _), Hk5 as (B1 & B2 & B3 & _), Hk6 as (C1 & C2 & C3 & _).
      subst w4. cbn in *. unfold keeps. rewrite C1, C2, C3, B1, B2, B3. split_and!; [done..|]. by intros ?%HC. }
    destruct (closedir path) eqn:Ecl.
    + cbn. destruct Hk3' as (A1 & A2 & A3 & A4), Hk5 as (B1 & B2 & B3 & B4). subst w4. cbn in *.
      unfold keeps. cbn. rewrite B1, B2, B3. split_and!; [done..|]. intros HC.
      destruct (A4 HC), (B4 HC). lia.
    + eapply sat_mono; [apply (quiet_keeps _ d), quiet_warning| |done]. intros ? w6 H6.
      apply Hunclean; [done|]. intros (_ & _ & Hcl & _). by rewrite Hcl in Ecl.
Qed.

(** With more fuel than there are levels left the walk comes to an end. *)
Lemma crawl_walk fuel d : MAX_CRAWL_DEPTH - d < Z.of_nat fuel -> Walks d (vmtouch_crawl o fuel).
Proof.
  revert d. induction fuel as [|fuel IH]; intros d Hf path w Hne Hd Hwalk.
  { destruct Hwalk as (_ & ? & _). lia. }
  cbn [vmtouch_crawl]. apply sat_bind. unfold lift, strip_slash.
  destruct (last path) as [c|] eqn:Ec; [|by apply last_None in Ec]. cbn [mbind option_bind sat].
  set (p := if bool_decide _ then _ else _).
  destruct (look p) as [sb|] eqn:El; unfold look in El; rewrite El; [|apply quiet_keeps, quiet_warning].
  assert (forall w', curr_crawl_depth w' = curr_crawl_depth w -> crawl_inodes w' = crawl_inodes w ->
    (clean -> descriptors w' = descriptors w + 0 /\ mappings w' = mappings w + 0) -> keeps d w w') as Hmv.
  { intros w' E1 E2 Hc. unfold keeps. rewrite E2. split_and!; [done..|]. intros [-> ->]%Hc. lia. }
  destruct (st_kind sb) eqn:Ek.
  - eapply sat_mono; [apply moves_bind; [apply quiet_add_file|intros _; apply vmtouch_file_moves]| |apply other_deep].
    intros ? w' (? & ? & ?). by apply Hmv.
  - apply directory_walk; [apply IH; lia|done..].
  - apply quiet_keeps, quiet_warning.
  - apply quiet_keeps, quiet_warning.
Qed.

(** C30: The walk from any path that is not empty ends, whatever links lead round in
    circles - on every file system whose mincore fills an entry for each page, and
    whose open and opendir do not answer for ever that descriptors are missing
    while the limit is raised again and again. It descends 1024 levels at most and
    never writes or reads outside of the array of inodes or that of a file's
    pages; the only undefined behaviour left is a signed overflow: of a 64-bit
    total, or of the int that counts the pages of one file. It ends with the
    depth it began with and, when nothing is locked and every closedir and munmap
    succeeds, with no descriptor and no mapping in use that was not before; it
    only complains of the depth when there are more than 1024 directories with
    different inodes. *)
Theorem crawl_ends fuel path w :
  (1025 <= fuel)%nat -> path <> [] -> curr_crawl_depth w = 0 ->
  length (crawl_inodes w) = 1024%nat ->
  match vmtouch_crawl o fuel path w with
  | Ret _ w' => curr_crawl_depth w' = 0 /\ length (crawl_inodes w') = 1024%nat /\
                (clean -> descriptors w' = descriptors w /\ mappings w' = mappings w)
  | Die (DepthReached _) _ =>
      exists chain, NoDup chain /\ length chain = 1025%nat /\ Forall is_directory_inode chain
  | Die _ _ => True
  | Undefined u => u = Arithmetic
  | NoFuel => False
  end.
Proof.
  intros Hf Hne Hd Hl. pose proof (crawl_walk fuel 0) as Hw. unfold MAX_CRAWL_DEPTH in Hw.
  assert (walking 0 w) as Hwalk.
  { unfold walking, MAX_CRAWL_DEPTH. rewrite take_0.
    split_and!; [lia|lia|lia|apply NoDup_nil_2|apply Forall_nil_2]. }
  specialize (Hw ltac:(lia) path w Hne Hd Hwalk).
  destruct (vmtouch_crawl o fuel path w) as [[] w'|e w'|u|]; cbn in Hw.
  - destruct Hw as (-> & -> & _ & Hc). done.
  - destruct e; try done. destruct Hw as (chain & ? & Hs & ?).
    exists chain. split_and!; [done| |done]. unfold MAX_CRAWL_DEPTH in Hs. lia.
  - done.
  - done.
Qed.
End Walk.

(** ** What a walk counts

    A part of the file system as a tree, and what a walk through it is to count. *)
Inductive tree :=
| File (bytes : Z)
| Dir (ino : Z) (es : list (list byte * tree))
| Skipped.   (* a link, a socket, ..., or nothing that stat finds *)

(** Pages, resident pages, files, directories, and the bytes that are read. *)
Record tally := mk_tally {
  t_pages : Z; t_core : Z; t_files : Z; t_dirs : Z; t_touched : list (list byte * Z) }.

Definition tally_0 : tally := mk_tally 0 0 0 0 [].
Definition tally_add (a b : tally) : tally :=
  mk_tally (t_pages a + t_pages b) (t_core a + t_core b) (t_files a + t_files b) (t_dirs a + t_dirs b)
    (t_touched a ++ t_touched b).

Definition below (path name : list byte) : list byte := path ++ [x2f] ++ name.

Section Counting.
Context `{Kernel} (o : Options.opts).
Import Options.

(** The pages of a file are looked at when it is neither empty nor too large. *)
Definition counted (bytes : Z) : bool := negb (bytes =? 0) && (bytes <=? o_max_file_size o).
Definition pages_of (bytes : Z) : Z := default 0 (bytes2pages pagesize bytes).

Definition file_tally (path : list byte) (bytes : Z) : tally :=
  if counted bytes then
    mk_tally (pages_of bytes)
      (if o_evict o then 0 else residents (default [] (mincore path))) 0 0
      (if negb (o_evict o) && o_touch o
       then map (fun i => (path, i * pagesize)) (upto 0 (pages_of bytes - 1)) else [])
  else tally_0.

Fixpoint total (path : list byte) (t : tree) : tally :=
  match t with
  | File bytes => tally_add (mk_tally 0 0 1 0 []) (file_tally path bytes)
  | Skipped => tally_0
  | Dir _ es =>
      tally_add (mk_tally 0 0 0 1 [])
        ((fix go es := match es with
                       | [] => tally_0
                       | (name, t) :: es => tally_add (total (below path name) t) (go es)
                       end) es)
  end.

(** The file can be mapped and its pages be looked at. *)
Definition readable (path : list byte) (bytes : Z) : Prop :=
  open_ path = Opened /\
  (exists mem, mmap path = Some mem /\ aligned_p pagesize mem = true) /\
  bytes2pages pagesize bytes = Some (pages_of bytes) /\ 0 <= pages_of bytes /\
  (o_evict o = false -> malloc (pages_of bytes) = true /\ pages_of bytes <= 2147483647 /\
     exists l, mincore path = Some l /\ size l = pages_of bytes) /\
  (o_lock o = true -> mlock path = true).

(** [path] leads to [t] in the file system, and every directory below can be read. *)
Fixpoint holds (path : list byte) (t : tree) : Prop :=
  match t with
  | File bytes =>
      (exists ino, look o path = Some (mk_stat Regular bytes ino)) /\ 0 <= bytes < 2 ^ 63 /\
      (counted bytes = true -> readable path bytes)
  | Skipped =>
      match look o path with Some sb => st_kind sb = Link \/ st_kind sb = Other | None => True end
  | Dir ino es =>
      (exists sz, look o path = Some (mk_stat Directory sz ino)) /\ opendir path = Opened /\
      List.filter (fun name => negb (dot name)) (readdir path) = map fst es /\
      (fix go es := match es with
                    | [] => True
                    | (name, t) :: es =>
                        name <> [] /\ last name <> Some x2f /\ size (below path name) < PATH_MAX /\
                        holds (below path name) t /\ go es
                    end) es
  end.

(** No directory is one of those above it, and the last one is not too deep. *)
Fixpoint acyclic (chain : list Z) (t : tree) : Prop :=
  match t with
  | File _ | Skipped => True
  | Dir ino es =>
      ino ∉ chain /\ size chain < MAX_CRAWL_DEPTH /\
      (fix go es := match es with [] => True | (_, t) :: es => acyclic (chain ++ [ino]) t /\ go es end) es
  end.

Fixpoint height (t : tree) : nat :=
  match t with
  | File _ | Skipped => 0
  | Dir _ es => Datatypes.S ((fix go es := match es with [] => O | (_, t) :: es => Nat.max (height t) (go es) end) es)
  end.

(** The same over the entries of a directory. *)
Fixpoint entries_total (path : list byte) (es : list (list byte * tree)) : tally :=
  match es with
  | [] => tally_0
  | (name, t) :: es => tally_add (total (below path name) t) (entries_total path es)
  end.
Fixpoint entries_hold (path : list byte) (es : list (list byte * tree)) : Prop :=
  match es with
  | [] => True
  | (name, t) :: es =>
      name <> [] /\ last name <> Some x2f /\ size (below path name) < PATH_MAX /\
      holds (below path name) t /\ entries_hold path es
  end.
Fixpoint entries_acyclic (chain : list Z) (es : list (list byte * tree)) : Prop :=
  match es with [] => True | (_, t) :: es => acyclic chain t /\ entries_acyclic chain es end.
Fixpoint entries_height (es : list (list byte * tree)) : nat :=
  match es with [] => O | (_, t) :: es => Nat.max (height t) (entries_height es) end.

(** The counters stay within 64 bits. *)
Definition fits (a : tally) (w : world) : Prop :=
  0 <= total_pages w /\ total_pages w + t_pages a <= 9223372036854775807 /\
  0 <= total_pages_in_core w /\ total_pages_in_core w + t_core a <= 9223372036854775807 /\
  0 <= total_files w /\ total_files w + t_files a <= 9223372036854775807 /\
  0 <= total_dirs w /\ total_dirs w + t_dirs a <= 9223372036854775807.

Definition positive (a : tally) : Prop := 0 <= t_pages a /\ 0 <= t_core a /\ 0 <= t_files a /\ 0 <= t_dirs a.

(** What a run adds; [n] inodes of the walk stay. *)
Definition adds (n : Z) (a : tally) (w w' : world) : Prop :=
  total_pages w' = total_pages w + t_pages a /\ total_pages_in_core w' = total_pages_in_core w + t_core a /\
  total_files w' = total_files w + t_files a /\ total_dirs w' = total_dirs w + t_dirs a /\
  touched w' = touched w ++ t_touched a /\
  curr_crawl_depth w' = curr_crawl_depth w /\ length (crawl_inodes w') = length (crawl_inodes w) /\
  take (Z.to_nat n) (crawl_inodes w') = take (Z.to_nat n) (crawl_inodes w).

Lemma adds_trans n a b w1 w2 w3 : adds n a w1 w2 -> adds n b w2 w3 -> adds n (tally_add a b) w1 w3.
Proof.
  intros (E1 & E2 & E3 & E4 & E5 & E6 & E7 & E8) (F1 & F2 & F3 & F4 & F5 & F6 & F7 & F8).
  unfold adds, tally_add. cbn [t_pages t_core t_files t_dirs t_touched].
  rewrite F5, F6, F7, F8, E5, app_assoc. split_and!; [lia..|done|done|done|done].
Qed.

Lemma adds_less n m a w w' : n <= m -> adds m a w w' -> adds n a w w'.
Proof.
  intros Hn (E1 & E2 & E3 & E4 & E5 & E6 & E7 & E8). unfold adds. split_and!; [done..|].
  apply (f_equal (take (Z.to_nat n))) in E8. rewrite !take_take in E8.
  by replace (Z.to_nat n `min` Z.to_nat m)%nat with (Z.to_nat n) in E8 by lia.
Qed.

Lemma tally_0_l a : tally_add tally_0 a = a.
Proof. by destruct a. Qed.
Lemma tally_0_r a : tally_add a tally_0 = a.
Proof. destruct a. unfold tally_add. cbn. by rewrite !Z.add_0_r, app_nil_r. Qed.

(** A run that ends well. *)
Definition total_run {A} (Q : A -> world -> Prop) (r : outcome A) : Prop :=
  sat Q (fun _ _ => False) (fun _ => False) r.

(** [m] adds [a] to every state it fits in. *)
Definition Adds (n : Z) (a : tally) (m : M unit) : Prop := forall w,
  fits a w -> total_run (fun _ w' => adds n a w w') (m w).

Lemma fits_next n a b w w' : positive b -> fits (tally_add a b) w -> adds n a w w' -> positive a -> fits b w'.
Proof.
  intros (B1 & B2 & B3 & B4) Hf (E1 & E2 & E3 & E4 & _) (A1 & A2 & A3 & A4). unfold fits, tally_add in *. cbn in Hf.
  rewrite E1, E2, E3, E4. lia.
Qed.

Lemma fits_first a b w : positive b -> fits (tally_add a b) w -> fits a w.
Proof. intros (B1 & B2 & B3 & B4) Hf. unfold fits, tally_add in *. cbn in Hf. lia. Qed.

Lemma adds_seq n a b m k :
  positive a -> positive b -> Adds n a m -> Adds n b k -> Adds n (tally_add a b) (m;;; k).
Proof.
  intros Ha Hb Hm Hk w Hf. eapply sat_then; [apply Hm; by apply (fits_first a b)|]. intros ? w1 H1.
  eapply sat_mono; [apply Hk; by apply (fits_next n a b w w1)| |done]. intros ? w2 H2. exact (adds_trans n a b w w1 w2 H1 H2).
Qed.

Lemma adds_silent n m :
  (forall w, exists w', m w = Ret tt w' /\ adds n tally_0 w w') -> Adds n tally_0 m.
Proof. intros Hm w _. destruct (Hm w) as (w' & -> & ?). done. Qed.

Lemma run_then {A B} (m : M A) (k : A -> M B) (Q1 : A -> world -> Prop) Q w :
  total_run Q1 (m w) -> (forall a w', Q1 a w' -> total_run Q (k a w')) -> total_run Q (bind m k w).
Proof. intros H1 H2. by apply (sat_then m k Q1). Qed.

(** A state that is written out adds what it shows. *)
Ltac tallies :=
  unfold total_run, sat, adds; cbn; rewrite ?app_nil_r; split_and!; first [done | lia].

Lemma adds_0 n w : adds n tally_0 w w.
Proof. tallies. Qed.

Lemma silent_ret n : Adds n tally_0 (ret tt).
Proof. intros w _. apply adds_0. Qed.

Lemma silent_seq n m k a : positive a -> Adds n tally_0 m -> Adds n a k -> Adds n a (m;;; k).
Proof. intros. rewrite <- (tally_0_l a). by apply adds_seq. Qed.

Lemma seq_silent n m k a : positive a -> Adds n a m -> Adds n tally_0 k -> Adds n a (m;;; k).
Proof. intros. rewrite <- (tally_0_r a). by apply adds_seq. Qed.

Lemma silent_print n l : Adds n tally_0 (print l).
Proof. intros w _. tallies. Qed.

Lemma silent_map_pages n m l : Adds n tally_0 (map_pages m l).
Proof. intros w _. tallies. Qed.

Lemma silent_held n d g : Adds n tally_0 (held d g).
Proof. intros w _. tallies. Qed.

Lemma silent_warning n x : Adds n tally_0 (warning o x).
Proof. intros w _. unfold warning. destruct (o_quiet o); tallies. Qed.

Lemma silent_when n b m : (b = true -> Adds n tally_0 m) -> Adds n tally_0 (when b m).
Proof. destruct b; [auto|intros _; apply silent_ret]. Qed.

Lemma adds_lift {A} n a u (r : option A) (x : A) k :
  r = Some x -> Adds n a (k x) -> Adds n a (bind (lift u r) k).
Proof. intros -> Hk w Hf. exact (Hk w Hf). Qed.

Lemma adds_ret {A} n a (x : A) k : Adds n a (k x) -> Adds n a (bind (ret x) k).
Proof. intros Hk w Hf. exact (Hk w Hf). Qed.

Lemma silent_chart n l : Adds n tally_0 (print_chart l (size l)).
Proof.
  unfold print_chart. destruct (ChartProps.chart_blocks l) as (m & q & E & _).
  eapply adds_lift; [exact E|apply silent_print].
Qed.

Lemma adds_pages n p : 0 <= p -> Adds n (mk_tally p 0 0 0 []) (add_pages p).
Proof.
  intros Hp w Hf. unfold fits in Hf. cbn in Hf. unfold add_pages. rewrite chk64_ok by lia.
  tallies.
Qed.

Lemma adds_in_core n : Adds n (mk_tally 0 1 0 0 []) add_in_core.
Proof.
  intros w Hf. unfold fits in Hf. cbn in Hf. unfold add_in_core. rewrite chk64_ok by lia.
  tallies.
Qed.

Lemma adds_file n : Adds n (mk_tally 0 0 1 0 []) add_file.
Proof.
  intros w Hf. unfold fits in Hf. cbn in Hf. unfold add_file. rewrite chk64_ok by lia.
  tallies.
Qed.

Lemma adds_dir n : Adds n (mk_tally 0 0 0 1 []) add_dir.
Proof.
  intros w Hf. unfold fits in Hf. cbn in Hf. unfold add_dir. rewrite chk64_ok by lia.
  tallies.
Qed.

Lemma adds_touch n path i : Adds n (mk_tally 0 0 0 0 [(path, i)]) (touch path i).
Proof. intros w _. tallies. Qed.

(** The loop that counts the resident pages. *)
Lemma adds_count n l i :
  0 <= i <= size l ->
  Adds n (mk_tally 0 (residents (drop (Z.to_nat i) l)) 0 0 []) (for_m (upto i (size l - 1)) (count_round l) tt).
Proof.
  remember (Z.to_nat (size l - i)) as m eqn:Em. revert i Em. induction m as [|m IH]; intros i Em Hi.
  - rewrite upto_nil, drop_ge by lia. apply silent_ret.
  - rewrite upto_cons by lia. cbn [for_m]. destruct (arr_get_in l i) as [p Hp]; [lia|].
    pose proof Hp as [_ Hd]%arr_get_Some. rewrite (drop_S _ _ _ Hd).
    replace (Datatypes.S (Z.to_nat i)) with (Z.to_nat (i + 1)) by lia.
    pose proof (residents_range (drop (Z.to_nat (i + 1)) l)) as Hr.
    change (residents (p :: drop (Z.to_nat (i + 1)) l)) with
      (Z.b2z (is_mincore_page_resident p) + residents (drop (Z.to_nat (i + 1)) l)).
    replace (mk_tally 0 (Z.b2z (is_mincore_page_resident p) + residents (drop (Z.to_nat (i + 1)) l)) 0 0 [])
      with (tally_add (mk_tally 0 (Z.b2z (is_mincore_page_resident p)) 0 0 [])
                      (mk_tally 0 (residents (drop (Z.to_nat (i + 1)) l)) 0 0 [])) by done.
    assert (Adds n (mk_tally 0 (Z.b2z (is_mincore_page_resident p)) 0 0 []) (count_round l i tt)) as H1.
    { unfold count_round. eapply adds_lift; [exact Hp|]. destruct (is_mincore_page_resident p);
        [apply adds_in_core|apply silent_ret]. }
    intros w Hf. assert (positive (mk_tally 0 (Z.b2z (is_mincore_page_resident p)) 0 0 [])) as Hp1
      by (unfold positive; cbn; destruct (is_mincore_page_resident p); cbn; lia).
    assert (positive (mk_tally 0 (residents (drop (Z.to_nat (i + 1)) l)) 0 0 [])) as Hp2
      by (unfold positive; cbn; lia).
    eapply run_then; [apply H1; by apply (fits_first _ _ w Hp2)|].
    intros [] w1 Hw1. eapply sat_mono; [apply (IH (i + 1)); [lia|lia|]| |done].
    + by apply (fits_next n _ _ w w1 Hp2 Hf).
    + intros ? w2 Hw2. exact (adds_trans _ _ _ _ _ _ Hw1 Hw2).
Qed.

Lemma fits_touched n x w w' : fits tally_0 w -> adds n (mk_tally 0 0 0 0 x) w w' -> fits tally_0 w'.
Proof. intros Hf (E1 & E2 & E3 & E4 & _). unfold fits in *. cbn in *. lia. Qed.

(** The loop that reads a byte of each page. *)
Lemma adds_touches n path l i m :
  0 <= i -> size l = m -> i <= m -> forall w, fits tally_0 w ->
  total_run (fun l' w' => size l' = m /\
      adds n (mk_tally 0 0 0 0 (map (fun i => (path, i * pagesize)) (upto i (m - 1)))) w w')
    (for_m (upto i (m - 1)) (touch_round o path m) l w).
Proof.
  remember (Z.to_nat (m - i)) as k eqn:Ek. revert i l Ek.
  induction k as [|k IH]; intros i l Ek Hi Hl Him w Hw.
  - rewrite upto_nil by lia. cbn. split; [done|apply adds_0].
  - rewrite upto_cons by lia. cbn [for_m map]. unfold touch_round at 1.
    eapply (run_then _ _ (fun l1 w1 => size l1 = m /\ adds n (mk_tally 0 0 0 0 [(path, i * pagesize)]) w w1)).
    + eapply run_then; [apply (adds_touch n path (i * pagesize) w Hw)|].
      intros ? w1 Hw1. rewrite arr_set_in by lia. unfold lift at 1. unfold bind at 1.
      assert (size (<[Z.to_nat i := 1]> l) = m) as Hl' by by rewrite length_insert.
      eapply run_then; [apply (silent_when n); [intros _; rewrite <- Hl'; apply silent_chart|]|].
      { by apply (fits_touched n [(path, i * pagesize)] w). }
      intros ? w2 Hw2. cbn. split; [done|].
      rewrite <- (tally_0_r (mk_tally _ _ _ _ _)). exact (adds_trans _ _ _ _ _ _ Hw1 Hw2).
    + intros l1 w1 [Hl1 Hw1]. eapply sat_mono; [apply (IH (i + 1)); [lia|lia|done|lia|]| |done].
      * by apply (fits_touched n [(path, i * pagesize)] w).
      * intros l2 w2 [Hl2 Hw2]. split; [done|]. exact (adds_trans _ _ _ _ _ _ Hw1 Hw2).
Qed.

Lemma adds_residency n path p l :
  malloc p = true -> 0 <= p <= 2147483647 -> mincore path = Some l -> size l = p ->
  Adds n (mk_tally 0 (residents l) 0 0
            (if o_touch o then map (fun i => (path, i * pagesize)) (upto 0 (p - 1)) else []))
    (residency o path p).
Proof.
  intros Hm Hp Hc <-. unfold residency. rewrite Hm, Hc. cbn [negb].
  eapply adds_lift; [apply chk32_ok; lia|]. pose proof (residents_range l) as Hr.
  set (ts := if o_touch o then _ else []).
  replace (mk_tally 0 (residents l) 0 0 ts) with
    (tally_add (mk_tally 0 (residents l) 0 0 []) (mk_tally 0 0 0 0 ts)) by (unfold tally_add; cbn; f_equal; lia).
  assert (forall x, positive (mk_tally 0 0 0 0 x)) as H0 by (intros; unfold positive; cbn; lia).
  apply adds_seq; [unfold positive; cbn; lia|done|apply (adds_count n l 0); lia|].
  apply silent_seq; [done|apply silent_when; intros _; apply silent_seq; [apply (H0 [])|apply silent_print|apply silent_chart]|].
  intros w Hw. eapply (run_then _ _ (fun l1 w1 => size l1 = size l /\ adds n (mk_tally 0 0 0 0 ts) w w1)).
  - subst ts. destruct (o_touch o); [by apply adds_touches; [lia|done|lia|]|]. cbn. split; [done|apply adds_0].
  - intros l1 w1 [Hl1 Hw1]. rewrite <- Hl1.
    eapply sat_mono; [apply (silent_when n (verbose o)); [intros _; apply silent_seq|]| |done].
    + apply (H0 []).
    + apply silent_chart.
    + apply silent_print.
    + by apply (fits_touched n ts w).
    + intros ? w2 Hw2. rewrite <- (tally_0_r (mk_tally _ _ _ _ _)). exact (adds_trans _ _ _ _ _ _ Hw1 Hw2).
Qed.

Lemma silent_evict n path : Adds n tally_0 (evict o path).
Proof.
  unfold evict. apply silent_seq; [by unfold positive|apply silent_when; intros; apply silent_print|].
  apply silent_when; intros; apply silent_warning.
Qed.

Lemma positive_file path bytes : (counted bytes = true -> 0 <= pages_of bytes) -> positive (file_tally path bytes).
Proof.
  unfold file_tally. destruct (counted bytes); [|by unfold positive]. intros Hp.
  pose proof (residents_range (default [] (mincore path))). specialize (Hp eq_refl).
  unfold positive. cbn. split_and!; [lia|destruct (o_evict o); lia|lia|lia].
Qed.

(** What [vmtouch_file] does of a file that can be read. *)
Lemma adds_vmtouch_file n path bytes ino :
  look o path = Some (mk_stat Regular bytes ino) -> 0 <= bytes < 2 ^ 63 ->
  (counted bytes = true -> readable path bytes) ->
  Adds n (file_tally path bytes) (vmtouch_file o path).
Proof.
  intros Hl Hb Hr. pose proof (positive_file path bytes) as Hpos.
  unfold vmtouch_file. unfold look in Hl. rewrite Hl. cbn [st_kind st_size].
  rewrite u64_id by lia. unfold file_tally in *. unfold counted in *.
  destruct (Z.eqb_spec bytes 0) as [->|Hne]; cbn [negb andb] in *; [apply silent_ret|].
  destruct (Z.ltb_spec (o_max_file_size o) bytes) as [Hbig|Hbig].
  { zfalse (bytes <=? o_max_file_size o). apply silent_warning. }
  assert ((bytes <=? o_max_file_size o) = true) as Ebig by zb. rewrite Ebig in *.
  destruct (Hr eq_refl) as (-> & (mem & -> & ->) & -> & Hp0 & Hev & Hlock).
  cbn [retry_open negb]. specialize (Hpos ltac:(done)).
  apply adds_ret. cbn [negb].
  apply silent_seq; [done|apply silent_held|].
  apply silent_seq; [done|apply silent_held|].
  eapply adds_lift; [done|].
  set (core := if o_evict o then 0 else _). set (ts := if negb (o_evict o) && o_touch o then _ else _).
  assert (0 <= core) as Hcore by (subst core; destruct (o_evict o); [done|apply residents_range]).
  replace (mk_tally (pages_of bytes) core 0 0 ts) with
    (tally_add (mk_tally (pages_of bytes) 0 0 0 []) (mk_tally 0 core 0 0 ts)) by (unfold tally_add; cbn; f_equal; lia).
  assert (positive (mk_tally 0 core 0 0 ts)) as Hp1 by (unfold positive; cbn; lia).
  apply adds_seq; [unfold positive; cbn; lia|done|by apply adds_pages|].
  apply silent_seq; [done|apply silent_map_pages|].
  apply seq_silent; [done| |].
  - subst core ts. destruct (o_evict o); cbn [negb andb]; [apply silent_evict|].
    destruct (Hev eq_refl) as (Hm & Hmax & l & Hc & Hs). rewrite Hc. cbn [default from_option].
    by apply adds_residency.
  - apply silent_seq; [by unfold positive| |].
    + apply silent_when. intros E1. rewrite (Hlock E1). apply silent_map_pages.
    + apply silent_when. intros _. apply silent_seq; [by unfold positive| |apply silent_held].
      destruct (munmap path); [|apply silent_warning].
      apply silent_seq; [by unfold positive|apply silent_held|apply silent_map_pages].
Qed.

(** The recursive functions over the entries. *)
Lemma total_Dir path ino es :
  total path (Dir ino es) = tally_add (mk_tally 0 0 0 1 []) (entries_total path es).
Proof. cbn [total]. f_equal. induction es as [|[name t] es IH]; [done|]. cbn. by rewrite IH. Qed.

Lemma holds_Dir path ino es :
  holds path (Dir ino es) ->
  (exists sz, look o path = Some (mk_stat Directory sz ino)) /\ opendir path = Opened /\
  List.filter (fun name => negb (dot name)) (readdir path) = map fst es /\ entries_hold path es.
Proof.
  cbn [holds]. intros (? & ? & ? & Hes). split_and!; [done..|]. clear -Hes.
  induction es as [|[name t] es IH]; [done|]. cbn. destruct Hes as (? & ? & ? & ? & Hes).
  split_and!; [done..|by apply IH].
Qed.

Lemma acyclic_Dir chain ino es :
  acyclic chain (Dir ino es) ->
  ino ∉ chain /\ size chain < MAX_CRAWL_DEPTH /\ entries_acyclic (chain ++ [ino]) es.
Proof.
  cbn [acyclic]. intros (? & ? & Hes). split_and!; [done..|]. clear -Hes.
  induction es as [|[name t] es IH]; [done|]. cbn. destruct Hes. split; [done|by apply IH].
Qed.

Lemma height_Dir ino es : height (Dir ino es) = Datatypes.S (entries_height es).
Proof. done. Qed.

Lemma positive_add a b : positive a -> positive b -> positive (tally_add a b).
Proof. unfold positive. destruct a, b. cbn. lia. Qed.

Lemma positive_total h : forall path t, (height t < h)%nat -> holds path t -> positive (total path t).
Proof.
  induction h as [|h IH]; intros path [bytes|ino es|] Hh Ht; [lia|lia|lia| | |by unfold positive].
  - cbn [total]. apply positive_add; [by unfold positive|]. apply positive_file. intros Hc.
    by destruct Ht as (_ & _ & Hr); destruct (Hr Hc) as (_ & _ & _ & ? & _).
  - rewrite total_Dir. apply positive_add; [by unfold positive|].
    apply holds_Dir in Ht as (_ & _ & _ & Hes). rewrite height_Dir in Hh.
    assert (entries_height es < h)%nat as Hh' by lia. clear Hh.
    induction es as [|[name t] es IHes]; [by unfold positive|]. cbn [entries_total entries_height] in *.
    destruct Hes as (_ & _ & _ & Ht & Hes). apply positive_add; [apply IH; [lia|done]|]. apply IHes; [done|lia].
Qed.

Lemma positive_entries h path es :
  (entries_height es < h)%nat -> entries_hold path es -> positive (entries_total path es).
Proof.
  induction es as [|[name t] es IH]; [by unfold positive|]. cbn [entries_total entries_hold entries_height].
  intros Hh (_ & _ & _ & Ht & Hes). apply positive_add; [apply (positive_total h); [lia|done]|apply IH; [lia|done]].
Qed.

Lemma strip_below path name : name <> [] -> last name <> Some x2f -> strip_slash (below path name) = Some (below path name).
Proof.
  intros Hn Hl. unfold strip_slash, below. rewrite app_assoc, last_app.
  destruct (last name) as [c|] eqn:E; [|by apply last_None in E].
  cbn [mbind option_bind]. rewrite bool_decide_false; [done|]. by intros ->.
Qed.

Lemma filter_dots names es d :
  List.filter (fun name => negb (dot name)) (d :: names) = es ->
  (dot d = true /\ List.filter (fun name => negb (dot name)) names = es) \/
  (dot d = false /\ exists es', es = d :: es' /\ List.filter (fun name => negb (dot name)) names = es').
Proof. cbn. destruct (dot d); [by left|]. intros <-. right. split; [done|]. by eexists. Qed.

(** Where the walk is: below the directories of [chain]. *)
Definition standing (chain : list Z) (w : world) : Prop :=
  curr_crawl_depth w = size chain /\ size (crawl_inodes w) = MAX_CRAWL_DEPTH /\
  size chain <= MAX_CRAWL_DEPTH /\ take (Z.to_nat (size chain)) (crawl_inodes w) = chain.

Lemma standing_adds chain a w w' : standing chain w -> adds (size chain) a w w' -> standing chain w'.
Proof.
  intros (? & ? & ? & ?) (_ & _ & _ & _ & _ & E6 & E7 & E8). unfold standing. rewrite E6, E7, E8. done.
Qed.

(** A crawl counts a tree from where it stands. *)
Definition Counts (h : nat) (crawl : list byte -> M unit) : Prop := forall t path chain w,
  (height t < h)%nat -> strip_slash path = Some path -> holds path t -> acyclic chain t ->
  standing chain w -> fits (total path t) w ->
  total_run (fun _ w' => adds (size chain) (total path t) w w') (crawl path w).

Lemma entries_count h crawl path chain names es w :
  Counts h crawl -> (entries_height es < h)%nat ->
  List.filter (fun name => negb (dot name)) names = map fst es -> entries_hold path es ->
  chain <> [] -> entries_acyclic chain es -> standing chain (at_depth (size chain) w) ->
  curr_crawl_depth w = size chain - 1 -> fits (entries_total path es) w ->
  total_run (fun _ w' => adds (size chain) (entries_total path es) w w') (entries o crawl path names w).
Proof.
  intros Hc Hh. revert es Hh w. induction names as [|d names IH]; intros es Hh w Hes Hhold Hne Hac Hst Hd Hf.
  { destruct es; [|done]. cbn. apply adds_0. }
  cbn [entries]. apply filter_dots in Hes as [[-> Hes]|(-> & es' & Ees & Hes)]; [by apply IH|].
  destruct es as [|[name t] es]; [done|]. cbn in Ees. injection Ees as -> <-.
  cbn [entries_hold entries_acyclic entries_total entries_height] in *.
  destruct Hhold as (Hn & Hl & Hmax & Ht & Hhold), Hac as [Hat Hac]. fold (below path d).
  zfalse (PATH_MAX <=? size (below path d)).
  assert (0 < size chain <= 1024) as Hsz
    by (destruct Hst as (_ & _ & ? & _); unfold MAX_CRAWL_DEPTH in *; destruct chain; [done|cbn [length] in *; lia]).
  assert (positive (total (below path d) t)) as Hpt by (apply (positive_total h); [lia|done]).
  assert (positive (entries_total path es)) as Hpe by (apply (positive_entries h); [lia|done]).
  eapply (run_then _ _ (fun _ w1 => w1 = at_depth (size chain) w)).
  { unfold add_depth. rewrite chk32_ok by lia. cbn. unfold at_depth. by replace (curr_crawl_depth w + 1) with (size chain) by lia. }
  intros ? w1 ->.
  eapply run_then; [apply (Hc t (below path d) chain); [lia|by apply strip_below|done|done|done|]|].
  { by apply (fits_first _ _ w Hpe). }
  intros ? w2 Hw2.
  assert (curr_crawl_depth w2 = size chain) as Hd2 by by destruct Hw2 as (_ & _ & _ & _ & _ & -> & _).
  eapply (run_then _ _ (fun _ w3 => w3 = at_depth (size chain - 1) w2)).
  { unfold add_depth. rewrite chk32_ok by lia. cbn. unfold at_depth. by replace (curr_crawl_depth w2 + -1) with (size chain - 1) by lia. }
  intros ? w3 ->.
  assert (adds (size chain) (total (below path d) t) w (at_depth (size chain - 1) w2)) as Hw3.
  { destruct Hw2 as (E1 & E2 & E3 & E4 & E5 & E6 & E7 & E8). cbn in *. unfold adds. cbn.
    split_and!; [done..|lia|done|done]. }
  eapply sat_mono; [apply (IH es); [lia|done|done|done|done| |done|]| |done].
  - pose proof (standing_adds chain _ _ _ Hst Hw2) as (? & ? & ? & ?). unfold standing. cbn. done.
  - by apply (fits_next (size chain) _ _ w _ Hpe Hf Hw3).
  - intros ? w4 Hw4. exact (adds_trans _ _ _ _ _ _ Hw3 Hw4).
Qed.

Lemma directory_count h crawl path chain ino es sz w :
  Counts h crawl -> (entries_height es < h)%nat -> holds path (Dir ino es) -> acyclic chain (Dir ino es) ->
  standing chain w -> fits (total path (Dir ino es)) w ->
  total_run (fun _ w' => adds (size chain) (total path (Dir ino es)) w w')
    (directory o crawl path (mk_stat Directory sz ino) w).
Proof.
  intros Hc Hh Hhold Hac Hst Hf.
  assert (positive (total path (Dir ino es))) as Hp
    by (apply (positive_total (Datatypes.S h)); [rewrite height_Dir; lia|done]).
  rewrite total_Dir in *. apply holds_Dir in Hhold as (_ & Hopen & Hnames & Hes).
  apply acyclic_Dir in Hac as (Hnew & Hdeep & Hac). unfold directory. cbn [st_ino].
  pose proof Hst as (Hd & Hsz & _ & Htake). rewrite Hd, Htake.
  destruct (existsb (Z.eqb ino) chain) eqn:Eseen.
  { apply existsb_exists in Eseen as (x & Hx%list_elem_of_In & ->%Z.eqb_eq). done. }
  unfold MAX_CRAWL_DEPTH in *. zfalse (size chain =? 1024).
  assert (positive (entries_total path es)) as Hpe by (by apply (positive_entries h)).
  assert (positive (mk_tally 0 0 0 1 [])) as Hp1 by (by unfold positive).
  eapply run_then; [apply (adds_dir (size chain)); by apply (fits_first _ _ w Hpe)|]. intros ? w1 Hw1.
  pose proof (fits_next (size chain) _ _ w w1 Hpe Hf Hw1 Hp1) as Hf1.
  pose proof (standing_adds chain _ _ _ Hst Hw1) as (Hd1 & Hsz1 & _ & Htake1). unfold MAX_CRAWL_DEPTH in *.
  set (w2 := mk_world (total_pages w1) (total_pages_in_core w1) (total_files w1) (total_dirs w1)
      (curr_crawl_depth w1) (<[Z.to_nat (size chain) := ino]> (crawl_inodes w1))
      (descriptors w1) (mappings w1) (out w1) (err w1) (touched w1) (mapped_pages w1) (locked_pages w1)).
  eapply (run_then _ _ (fun _ w' => w' = w2)).
  { unfold store_inode, total_run, w2. rewrite Hd1, arr_set_in by lia. by cbn. }
  intros ? ? ->. rewrite Hopen. cbn [retry_open]. unfold bind at 1, ret at 1. cbn [negb].
  assert (fits tally_0 w2) as Hf0
    by (clear -Hf1 Hpe; unfold fits, positive, w2 in *; cbn [total_pages total_pages_in_core total_files
          total_dirs t_pages t_core t_files t_dirs tally_0]; lia).
  eapply run_then; [by apply (silent_held (size chain + 1))|]. intros ? w3 Hw3.
  assert (fits (entries_total path es) w2) as Hf2 by done.
  assert (take (Z.to_nat (size chain + 1)) (crawl_inodes w2) = chain ++ [ino]) as Htake2.
  { cbn. replace (Z.to_nat (size chain + 1)) with (Datatypes.S (Z.to_nat (size chain))) by lia.
    rewrite (take_S_r _ _ ino) by (apply list_lookup_insert_eq; lia). by rewrite take_insert_ge, Htake1 by lia. }
  pose proof Hw3 as (F1 & F2 & F3 & F4 & F5 & F6 & F7 & F8).
  assert (size (chain ++ [ino]) = size chain + 1) as Hs1 by (rewrite length_app; cbn [length]; lia).
  eapply run_then; [apply (entries_count h crawl path (chain ++ [ino]) (readdir path) es w3 Hc Hh Hnames Hes)|].
  - by destruct chain.
  - done.
  - unfold standing, at_depth. cbn [curr_crawl_depth crawl_inodes]. rewrite Hs1, F7, F8, Htake2.
    cbn [crawl_inodes w2]. rewrite length_insert. unfold MAX_CRAWL_DEPTH. split_and!; [done..|lia|done].
  - rewrite F6, Hs1. cbn. lia.
  - by apply (fits_next (size chain + 1) tally_0 _ w2 w3 Hpe).
  - intros ? w4 Hw4. rewrite Hs1 in Hw4.
    assert (adds (size chain) (mk_tally 0 0 0 1 []) w w2) as Hw2.
    { destruct Hw1 as (E1 & E2 & E3 & E4 & E5 & E6 & E7 & E8). unfold adds. cbn in *.
      rewrite length_insert, take_insert_ge by lia. done. }
    assert (adds (size chain) (entries_total path es) w2 w4) as Hw24.
    { rewrite <- (tally_0_l (entries_total path es)). apply (adds_less _ (size chain + 1)); [lia|].
      exact (adds_trans _ _ _ _ _ _ Hw3 Hw4). }
    pose proof (adds_trans _ _ _ _ _ _ Hw2 Hw24) as Hw04.
    assert (forall m, Adds (size chain) tally_0 m -> total_run
      (fun _ w' => adds (size chain) (tally_add (mk_tally 0 0 0 1 []) (entries_total path es)) w w') (m w4)) as Hend.
    { intros m Hm. eapply sat_mono; [apply Hm| |done].
      - apply (fits_next (size chain) (tally_add (mk_tally 0 0 0 1 []) (entries_total path es)) tally_0 w w4);
          [by unfold positive|by rewrite tally_0_r|done|done].
      - intros ? w5 Hw5. rewrite <- (tally_0_r (tally_add _ _)). exact (adds_trans _ _ _ _ _ _ Hw04 Hw5). }
    destruct (closedir path); apply Hend; [apply silent_held|apply silent_warning].
Qed.

Lemma crawl_counts h : Counts h (vmtouch_crawl o h).
Proof.
  induction h as [|h IH]; intros t path chain w Hh Hp Ht Hac Hst Hf; [lia|].
  cbn [vmtouch_crawl]. rewrite Hp. unfold bind at 1, lift at 1.
  destruct t as [bytes|ino es|].
  3: { cbn [holds] in Ht. unfold look in Ht. cbn [total] in *. destruct (if o_followsymlinks o then _ else _) as [sb|];
         [|by apply silent_warning]. destruct Ht as [-> | ->]; by apply silent_warning. }
  - destruct Ht as ([ino Hl] & Hb & Hr). pose proof Hl as Hl'. unfold look in Hl'. rewrite Hl'.
    cbn [st_kind total] in *.
    assert (positive (file_tally path bytes)) as Hpos.
    { apply positive_file. intros Hc. by destruct (Hr Hc) as (_ & _ & _ & ? & _). }
    apply adds_seq; [by unfold positive|done|apply adds_file|by apply (adds_vmtouch_file _ _ _ ino)|done].
  - pose proof (holds_Dir _ _ _ Ht) as ([sz Hl] & _). pose proof Hl as Hl'. unfold look in Hl'. rewrite Hl'.
    cbn [st_kind]. rewrite height_Dir in Hh. apply (directory_count h); try done. lia.
Qed.

(** C31: A walk through a tree of directories without circles, none deeper than the
    limit, counts each of its files and directories, the pages of the files that
    are not too large and those of them that were resident, and reads one byte of
    each page when it is to touch them; and it does return. *)
Theorem crawl_counts_tree path t w :
  strip_slash path = Some path -> holds path t -> acyclic [] t -> (height t <= 1024)%nat ->
  curr_crawl_depth w = 0 -> length (crawl_inodes w) = 1024%nat -> fits (total path t) w ->
  exists w', vmtouch_crawl o 1025 path w = Ret tt w' /\
    total_pages w' = total_pages w + t_pages (total path t) /\
    total_pages_in_core w' = total_pages_in_core w + t_core (total path t) /\
    total_files w' = total_files w + t_files (total path t) /\
    total_dirs w' = total_dirs w + t_dirs (total path t) /\
    touched w' = touched w ++ t_touched (total path t).
Proof.
  intros Hp Ht Hac Hh Hd Hl Hf.
  assert (standing [] w) as Hst by (unfold standing, MAX_CRAWL_DEPTH; split_and!; [done|lia|done|done]).
  pose proof (crawl_counts 1025 t path [] w ltac:(lia) Hp Ht Hac Hst Hf) as Hc.
  destruct (vmtouch_crawl o 1025 path w) as [[] w'|e w'| |]; [|by destruct Hc..].
  exists w'. split; [done|]. destruct Hc as (? & ? & ? & ? & ? & _). done.
Qed.
End Counting.

(** ** What is touched *)

(** C40: With -t, [vmtouch_file] on a file that can be read returns, and the bytes it
    has read all lie in the file and in the middle of none but its own page:
    every byte of the file has, in its page, one that was read. *)
Theorem touches_cover `{Kernel} (o : Options.opts) path bytes ino w :
  look o path = Some (mk_stat Regular bytes ino) -> readable o path bytes ->
  0 < pagesize -> 0 < bytes -> bytes + pagesize <= 9223372036854775807 ->
  bytes <= Options.o_max_file_size o -> Options.o_evict o = false -> Options.o_touch o = true ->
  fits (file_tally o path bytes) w ->
  exists w' ts, vmtouch_file o path w = Ret tt w' /\ touched w' = touched w ++ ts /\
    (forall p i, (p, i) ∈ ts -> p = path /\ 0 <= i < bytes) /\
    (forall b, 0 <= b < bytes -> exists i, (path, i) ∈ ts /\ i / pagesize = b / pagesize).
Proof.
  intros Hl Hr Hps Hb Hm Hmax He Ht Hf.
  assert (counted o bytes = true) as Hc by (unfold counted; zb).
  pose proof (adds_vmtouch_file o 0 path bytes ino Hl ltac:(lia) (fun _ => Hr) w Hf) as Hrun.
  destruct (vmtouch_file o path w) as [[] w'| | |]; [|by destruct Hrun..].
  destruct Hrun as (_ & _ & _ & _ & Htouch & _). exists w', (t_touched (file_tally o path bytes)).
  split; [done|]. split; [done|]. clear Htouch Hf w w'.
  destruct (bytes2pages_spec pagesize bytes Hps Hb Hm) as (n & E & Hn & Hlo & Hhi).
  unfold file_tally. rewrite Hc, He, Ht. cbn [negb andb t_touched].
  unfold pages_of. rewrite E. change (default 0 (Some n)) with n. split.
  - intros p i (k & [= -> ->] & Hk%elem_of_upto)%list_elem_of_fmap. split; [done|].
    assert (k * pagesize <= (n - 1) * pagesize) by (apply Z.mul_le_mono_nonneg_r; lia).
    assert (0 <= k * pagesize) by (apply Z.mul_nonneg_nonneg; lia). lia.
  - intros b Hbb. exists (b / pagesize * pagesize). rewrite Z.div_mul by lia. split; [|done].
    apply list_elem_of_fmap. exists (b / pagesize). split; [done|]. apply elem_of_upto.
    assert (0 <= b / pagesize) by (apply Z.div_pos; lia).
    assert (b / pagesize < n) by (apply Z.div_lt_upper_bound; lia). lia.
Qed.

(** ** The options: theorems *)
Module OptionProps.
Import Options.

(** Locking always touches, so that the first check of main precedes the second. *)
Lemma option_lock_touches `{Strtod} o ch a o' :
  option_ o ch a = Some (inr o') -> (o_lock o = true -> o_touch o = true) -> (o_lock o' = true -> o_touch o' = true).
Proof.
  destruct o as [t e q v l la d f m w]. unfold option_. cbn. intros E Hl.
  destruct ch; try (injection E as <-; done); try done.
  - destruct (parse_size a) as [[err|val]|]; cbn in E; try done. destruct (negb _); [done|]. by injection E as <-.
  - destruct (chk32 (v + 1)); cbn in E; [|done]. by injection E as <-.
Qed.

(** The combination of -e with -l is reported as one of -t and -e. *)
Theorem evict_lock_unreachable `{Strtod} args o argc :
  options initial args = Some (inr o) -> checks o argc <> inl (Fatal EvictLock).
Proof.
  intros E. assert (o_lock o = true -> o_touch o = true) as Hl.
  { assert (o_lock initial = true -> o_touch initial = true) as H0 by done. revert E H0. generalize initial.
    induction args as [|[ch a] args IH]; intros o0; cbn [options]; [by intros [= <-]|].
    destruct (option_ o0 ch a) as [[s|o1]|] eqn:E1; cbn; [done| |done].
    intros E H0. apply (IH o1 E). by eapply option_lock_touches. }
  unfold checks. destruct (o_touch o && o_evict o) eqn:E1; [done|].
  destruct (o_evict o && o_lock o) eqn:E2; [|repeat (case_match; try done)].
  apply andb_prop in E2 as [He Hlk]. by rewrite (Hl Hlk), He in E1.
Qed.

(** What the checks let through. *)
Theorem checks_accept o argc o' :
  checks o argc = inr o' ->
  (o_touch o && o_evict o = false /\ o_lock o && o_lockall o = false /\
   (o_daemon o = true -> o_lock o || o_lockall o = true) /\ (o_wait o = true -> o_daemon o = true) /\
   argc <> 0%nat) /\
  (o_quiet o' = true -> o_verbose o' = 0) /\
  (o' = o \/ o_daemon o = true /\ o_wait o = false /\ o_quiet o' = true) /\
  o_lock o' = o_lock o /\ o_lockall o' = o_lockall o /\ o_wait o' = o_wait o /\ o_daemon o' = o_daemon o.
Proof.
  destruct o as [t e q v l la d f m w]. unfold checks. cbn.
  destruct t, e, l, la, d, w; cbn; try done; destruct q; cbn; try done.
  all: destruct (Z.eqb_spec v 0); cbn; try done.
  all: destruct argc; cbn; try done; intros [= <-]; cbn; naive_solver.
Qed.

(** A size never is too big for size_t. *)
Lemma size_never_too_big `{Strtod} o ch a : option_ o ch a <> Some (inl (Fatal SizeTooBig)).
Proof.
  destruct o as [t e q v l la d f m w]. unfold option_. destruct ch; try done.
  - destruct (parse_size a) as [[err|val]|] eqn:E; cbn; [done| |done].
    apply parse_size_range in E. rewrite u64_id, s64_id by lia. by rewrite Z.eqb_refl.
  - by destruct (chk32 (v + 1)).
Qed.
End OptionProps.

(** ** The daemon: theorems *)
Module DaemonProps.
Import Options Main.

(** The pages that are counted are mapped, and locked as the options say. *)
Section Locks.
Context `{Kernel} (o : opts).

(** What a step leaves alone. *)
Definition idle_pages (w w' : world) : Prop :=
  total_pages w' = total_pages w /\ mapped_pages w' = mapped_pages w /\ locked_pages w' = locked_pages w.

(** With a lock, whatever is counted stays mapped; with -l it is locked as well. *)
Definition locking_pages (w w' : world) : Prop :=
  mapped_pages w' - mapped_pages w = total_pages w' - total_pages w /\
  (o_lock o = true -> locked_pages w' - locked_pages w = total_pages w' - total_pages w).

#[export] Instance idle_pages_preorder : PreOrder idle_pages.
Proof. split; [done|]. unfold idle_pages. intros w1 w2 w3 H1 H2. lia. Qed.
#[export] Instance locking_pages_preorder : PreOrder locking_pages.
Proof.
  split; [intros w; unfold locking_pages; lia|].
  intros w1 w2 w3 [H1 H2] [H3 H4]. split; [lia|]. intros Hl. specialize (H2 Hl). specialize (H4 Hl). lia.
Qed.

Lemma idle_locking w w' : idle_pages w w' -> locking_pages w w'.
Proof. unfold idle_pages, locking_pages. lia. Qed.

(** [R] holds of a run that ends well. *)
Definition Runs {A} (R : world -> world -> Prop) (m : M A) : Prop := forall w a w', m w = Ret a w' -> R w w'.

Lemma runs_bind {A B} R `{!PreOrder R} (m : M A) (k : A -> M B) :
  Runs R m -> (forall a, Runs R (k a)) -> Runs R (bind m k).
Proof.
  intros Hm Hk w b w'. unfold bind. destruct (m w) as [a w1| | |] eqn:E; try done. intros E'.
  transitivity w1; [by eapply Hm|by eapply Hk].
Qed.
Lemma runs_ret {A} R `{!PreOrder R} (a : A) : Runs R (ret a).
Proof. intros w a' w' [= _ <-]. reflexivity. Qed.
Lemma runs_fatal {A} R e : Runs R (@fatal A e).
Proof. by intros w a w'. Qed.
Lemma runs_lift {A} R `{!PreOrder R} u (r : option A) : Runs R (lift u r).
Proof. intros w a w'. unfold lift. destruct r; [|done]. intros [= _ <-]. reflexivity. Qed.
Lemma runs_when R `{!PreOrder R} b m : Runs R m -> Runs R (when b m).
Proof. intros Hm. destruct b; [done|by apply runs_ret]. Qed.
Lemma runs_if {A} R (b : bool) (m n : M A) : Runs R m -> Runs R n -> Runs R (if b then m else n).
Proof. by destruct b. Qed.
Lemma runs_for_m {A} R `{!PreOrder R} ks (body : Z -> A -> M A) a :
  (forall i a, Runs R (body i a)) -> Runs R (for_m ks body a).
Proof.
  intros Hb. revert a. induction ks as [|i ks IH]; intros a; cbn [for_m]; [by apply runs_ret|].
  by apply runs_bind.
Qed.

(** The steps that touch no pages, in the relation at hand. *)
Ltac idle := intros w a w'; cbv beta delta [print touch add_in_core add_file add_dir add_depth store_inode
    held warning]; repeat case_match; intros E; simplify_eq; try done; first [exact I | by apply idle_locking | done].

Lemma runs_print l : Runs locking_pages (print l). Proof. idle. Qed.
Lemma runs_touch p i : Runs locking_pages (touch p i). Proof. idle. Qed.
Lemma runs_add_in_core : Runs locking_pages add_in_core. Proof. idle. Qed.
Lemma runs_add_file : Runs locking_pages add_file. Proof. idle. Qed.
Lemma runs_add_dir : Runs locking_pages add_dir. Proof. idle. Qed.
Lemma runs_add_depth d : Runs locking_pages (add_depth d). Proof. idle. Qed.
Lemma runs_store_inode ino : Runs locking_pages (store_inode ino). Proof. idle. Qed.
Lemma runs_held d g : Runs locking_pages (held d g). Proof. idle. Qed.
Lemma runs_warning x : Runs locking_pages (warning o x). Proof. idle. Qed.
#[local] Hint Resolve runs_print runs_touch runs_add_in_core runs_add_file runs_add_dir runs_add_depth
  runs_store_inode runs_held runs_warning : runs.
#[local] Hint Resolve @runs_bind @runs_ret @runs_fatal @runs_lift @runs_when @runs_if @runs_for_m : runs.
#[local] Hint Extern 1 (PreOrder _) => apply _ : runs.

Lemma runs_retry_open a : Runs locking_pages (retry_open a).
Proof. induction a as [| |m set next IH]; cbn; [auto with runs..|]. destruct (increment_nofile_rlimit _ _); auto with runs. Qed.
#[local] Hint Resolve runs_retry_open : runs.

Lemma runs_residency path n : Runs locking_pages (residency o path n).
Proof.
  unfold residency. apply runs_if; [auto with runs|]. destruct (mincore path); [|auto with runs].
  unfold count_round, touch_round, print_chart. auto 14 with runs.
Qed.

Lemma runs_evict path : Runs locking_pages (evict o path).
Proof. unfold evict. auto with runs. Qed.
#[local] Hint Resolve runs_residency runs_evict : runs.
Lemma bind_Ret {A B} (m : M A) (k : A -> M B) w b w' :
  bind m k w = Ret b w' -> exists a w1, m w = Ret a w1 /\ k a w1 = Ret b w'.
Proof. unfold bind. destruct (m w) as [a w1| | |]; try done. by exists a, w1. Qed.

Context (locks : o_lock o || o_lockall o = true).

(** The pages of a file: counted, mapped, locked, and not unmapped. *)
Lemma runs_pages {A} n path (x : M unit) (y : M A) :
  Runs locking_pages x ->
  Runs locking_pages (add_pages n;;; map_pages n 0;;; x;;;
    when (o_lock o) (if mlock path then map_pages 0 n else fatal (MlockFailed path));;;
    when (negb (o_lock o) && negb (o_lockall o)) (y;;; held (-1) 0)).
Proof.
  intros Hx w [] w' ([] & w1 & E1 & ([] & w2 & E2 & ([] & w3 & E3 & ([] & w4 & E4 & E5)%bind_Ret)%bind_Ret)%bind_Ret)%bind_Ret.
  unfold add_pages in E1. destruct (chk64 _) as [t|] eqn:Et; [|done].
  apply chk64_inv in Et as [-> _]. injection E1 as <-. injection E2 as <-.
  rewrite <- negb_orb, locks in E5. injection E5 as <-. apply Hx in E3 as [Hm Hk]. cbn in Hm, Hk.
  unfold locking_pages. destruct (o_lock o); cbn in E4.
  - destruct (mlock path); [|done]. injection E4 as <-. specialize (Hk eq_refl). cbn. lia.
  - injection E4 as <-. lia.
Qed.

Lemma runs_vmtouch_file path : Runs locking_pages (vmtouch_file o path).
Proof.
  unfold vmtouch_file. destruct (if o_followsymlinks o then _ else _) as [sb|]; [|auto with runs].
  destruct (st_kind sb); try (auto with runs; fail).
  all: do 2 (apply runs_if; [auto with runs|]); apply runs_bind; [apply _|auto with runs|]; intros fd.
  all: apply runs_if; [auto with runs|]; apply runs_bind; [apply _|auto with runs|]; intros _.
  all: destruct (mmap path); [|auto with runs]; apply runs_bind; [apply _|auto with runs|]; intros _.
  all: apply runs_if; [auto with runs|]; apply runs_bind; [apply _|auto with runs|]; intros n.
  all: apply runs_pages; auto with runs.
Qed.

Lemma runs_crawl fuel path : Runs locking_pages (vmtouch_crawl o fuel path).
Proof.
  revert path. induction fuel as [|fuel IH]; intros path; [by intros w a w'|]. cbn [vmtouch_crawl].
  apply runs_bind; [apply _|auto with runs|]. intros p.
  destruct (if o_followsymlinks o then _ else _) as [sb|]; [|auto with runs].
  destruct (st_kind sb); try (auto with runs; fail).
  - apply runs_bind; [apply _|auto with runs|]. intros _. apply runs_vmtouch_file.
  - assert (forall names, Runs locking_pages (entries o (vmtouch_crawl o fuel) p names)) as Hes.
    { induction names as [|x names IHn]; cbn [entries]; [auto with runs|]. auto 8 with runs. }
    intros w a w'. unfold directory. destruct (existsb _ _); [apply runs_warning|].
    destruct (_ =? _); [done|]. revert w a w'.
    do 3 (apply runs_bind; [apply _|auto with runs|]; intros ?). auto 8 with runs.
Qed.

Lemma runs_crawl_all fuel args : Runs locking_pages (crawl_all o fuel args).
Proof.
  induction args as [|a args IH]; cbn [crawl_all]; [auto with runs|].
  apply runs_bind; [apply _|apply runs_crawl|done].
Qed.

(** When all that was to be locked is, the pages in the total are. *)
Lemma locked_all fuel c args w' :
  (crawl_all o fuel args;;; locked o c) start = Ret tt w' -> locked_pages w' = total_pages w'.
Proof.
  intros ([] & w1 & E1 & E2)%bind_Ret. apply runs_crawl_all in E1 as [Hm Hl]. cbn in Hm, Hl.
  unfold locked in E2. apply bind_Ret in E2 as ([] & w2 & E2 & E3).
  assert (forall A (m : M A), Runs idle_pages m -> forall a, m w2 = Ret a w' ->
    locked_pages w' = locked_pages w2 /\ total_pages w' = total_pages w2) as Hidle.
  { intros A m Hr a E. apply Hr in E as (? & _ & ?). done. }
  apply Hidle in E3 as [-> ->].
  - destruct (o_lockall o); cbn in E2.
    + destruct (mlockall c); [|done]. injection E2 as <-. cbn. lia.
    + injection E2 as <-. rewrite orb_false_r in locks. specialize (Hl locks). lia.
  - clear. assert (forall b, Runs idle_pages (if b : bool then match reopen_all c with inl e => fatal e | inr _ => ret tt end else ret tt)) as Hr.
    { intros []; [destruct (reopen_all c)|]; intros w a w'; cbn; try done; by intros [= _ <-]. }
    apply runs_bind; [apply _| |done]. apply runs_when; [apply _|]. intros w a w'.
    unfold bytes_of, bind, lift. cbn. destruct (chk64 _); [|done]. cbn. by intros [= _ <-].
Qed.
End Locks.

(** C32: A process that waits for its daemon reports success only when the daemon
    sleeps and holds its locks: every page it has counted is mapped and locked,
    because each mlock, or the mlockall, succeeded. The daemon sends one byte: 0
    in that case, and 1 when it ends with an error. *)
Theorem daemon_status `{Kernel} o fuel c args p w pid setsid polls parent :
  o_wait o = true -> o_lock o || o_lockall o = true -> 0 < pid ->
  work o fuel c 0 args start = Some (p, w) ->
  go_daemon o c pid setsid polls (Some (head (pipe p))) = inl parent ->
  (ends p = Sleeps /\ pipe p = [0] \/ ends p = Exits 1 /\ pipe p = [1]) /\
  (ends p = Sleeps -> exists w', w = Some w' /\ locked_pages w' = total_pages w') /\
  (ends parent = Exits 0 -> ends p = Sleeps).
Proof.
  intros Hw Hl Hpid Hwork Hgo.
  assert ((ends p = Sleeps /\ pipe p = [0] \/ ends p = Exits 1 /\ pipe p = [1]) /\
    (ends p = Sleeps -> exists w', w = Some w' /\ locked_pages w' = total_pages w')) as [Hp Hlock].
  { unfold work in Hwork. rewrite Hl in Hwork. unfold fatal_end, send_exit_signal in Hwork.
    rewrite Hw in Hwork. cbn [Z.eqb andb] in Hwork.
    destruct ((crawl_all o fuel args;;; locked o c) start) as [[] w1| | |] eqn:E; try done;
      injection Hwork as <- <-; cbn; [|by split; [right|]].
    split; [by left|]. intros _. exists w1. split; [done|]. by apply (locked_all o Hl) in E. }
  split; [done|]. split; [done|]. intros Hpar. unfold go_daemon in Hgo.
  replace (pid =? -1) with false in Hgo by zb. replace (pid =? 0) with false in Hgo by zb. cbn [negb] in Hgo.
  rewrite Hw in Hgo. injection Hgo as Hgo. destruct Hp as [[? _]|[_ Hpipe]]; [done|]. exfalso.
  rewrite Hpipe in Hgo. cbn [head] in Hgo.
  assert (forall polls e, wait_for_child polls (Some (Some 1)) = Some e -> e = inr 1 \/ exists x, e = inl x) as Hwait.
  { clear. intros polls. induction polls as [|x polls IH]; intros e; cbn; [done|].
    destruct (select_ok x), (child_gone x), (readable x); cbn; intros E; try (injection E as <-); eauto. }
  destruct (wait_for_child polls (Some (Some 1))) as [r|] eqn:Er; [|by subst parent].
  destruct (Hwait _ _ Er) as [-> | [x ->]]; by subst parent.
Qed.
End DaemonProps.

(** ** The whole program on a tree *)

(** Without options the program returns 0, and the last lines it prints tell the
    files, the directories and the resident and all pages of the tree it is given. *)
Theorem main_reports `{Strtod, Kernel} path t c fork setsid polls read :
  strip_slash path = Some path -> holds Options.initial path t -> acyclic [] t -> (height t <= 1024)%nat ->
  let a := total Options.initial path t in
  t_core a <= 9223372036854775807 -> t_files a <= 9223372036854775807 -> t_dirs a <= 9223372036854775807 ->
  t_core a * pagesize <= 9223372036854775807 -> t_pages a * pagesize <= 9223372036854775807 -> 0 < pagesize ->
  exists w l, Main.main 1025 true [] [path] c fork setsid polls read =
      Some (Main.mk_process (Main.Exits 0) [] None, Some w) /\
    out w = l ++ [Files (t_files a); Directories (t_dirs a);
                  Resident (t_core a) (t_pages a) (pretty_print_size (t_core a * pagesize))
                    (pretty_print_size (t_pages a * pagesize))].
Proof.
  intros Hp Ht Hac Hh a Hc Hf Hd Hcb Hpb Hps.
  assert (positive a) as Hpos by (apply (positive_total Options.initial (Datatypes.S (height t))); [lia|done]).
  unfold positive in Hpos.
  assert (t_pages a <= t_pages a * pagesize) by nia.
  pose proof (crawl_counts Options.initial 1025 t path [] Main.start ltac:(lia) Hp Ht Hac) as Hrun.
  assert (standing [] Main.start) as Hst by (unfold standing, MAX_CRAWL_DEPTH; split_and!; done).
  assert (fits a Main.start) as Hfit by (unfold fits; cbn [total_pages total_pages_in_core total_files total_dirs Main.start]; lia).
  specialize (Hrun Hst Hfit). clear Hst Hfit. fold a in Hrun. unfold Main.main, Main.work. cbn [negb Options.options mbind option_bind].
  change (Options.checks Options.initial (length [path])) with (inr Options.initial : Options.stop + Options.opts).
  cbn [Options.o_daemon Options.initial Options.o_lock Options.o_lockall orb Main.crawl_all].
  unfold bind at 1 2.
  destruct (vmtouch_crawl Options.initial 1025 path Main.start) as [[] w'|e w'| |]; [|by destruct Hrun..].
  destruct Hrun as (E1 & E2 & E3 & E4 & _). cbn in E1, E2, E3, E4.
  unfold ret at 1, Main.report, Main.bytes_of. cbn [Options.o_quiet negb when verbose].
  unfold bind, print, ret, lift. cbn. rewrite E2, E1, E3, E4.
  rewrite !Z.add_0_l. rewrite !chk64_ok by nia. cbn.
  clearbody a. eexists _, (out w'). split; [reflexivity|]. cbn [out]. rewrite <- !app_assoc. reflexivity.
Qed.

(** ** What goes wrong *)
Module Faults.

(** The slash that is the whole path goes as well: nothing is walked. *)
Lemma root_not_walked `{Kernel} o fuel w :
  stat [] = None -> lstat [] = None ->
  vmtouch_crawl o (Datatypes.S fuel) [x2f] w = warning o (CannotStat []) w.
Proof.
  intros E1 E2. cbn [vmtouch_crawl]. unfold bind, lift. change (strip_slash [x2f]) with (Some (@nil byte)).
  by destruct (Options.o_followsymlinks o); rewrite ?E1, ?E2.
Qed.

(** An empty argument is indexed at -1. *)
Lemma empty_argument `{Kernel} o fuel w : vmtouch_crawl o (Datatypes.S fuel) [] w = Undefined OutOfArray.
Proof. done. Qed.

(** From the greatest limit the next is 0. *)
Lemma rlimit_infinity set :
  set 0 0 = SetOk -> increment_nofile_rlimit (Some 18446744073709551615) set = inr (0, 0).
Proof.
  unfold increment_nofile_rlimit. change (u64 (18446744073709551615 + 1)) with 0. by intros ->.
Qed.

(** More pages than an int can count. *)
Lemma many_pages `{Kernel} o path p a w :
  malloc p = true -> mincore path = Some a -> 2147483647 < p -> residency o path p w = Undefined Arithmetic.
Proof.
  intros Hm Hc Hp. unfold residency. rewrite Hm, Hc. cbn. unfold bind, lift, chk32, int_range.
  by zfalse ((-2147483648 <=? p) && (p <=? 2147483647)).
Qed.
End Faults.

(** ** A small file system: /d with the file f of two pages, one of them resident,
    and the link l *)
Module Small.
Import Options.

Definition d : list byte := [x2f; x64].
Definition f : list byte := below d [x66].
Definition l : list byte := below d [x6c].

Definition stat_ (p : list byte) : option stat_buf :=
  if bool_decide (p = d) then Some (mk_stat Directory 4096 7) else
  if bool_decide (p = f) then Some (mk_stat Regular 5000 8) else
  if bool_decide (p = l) then Some (mk_stat Link 1 9) else None.

#[local] Instance kernel : Kernel := {|
  pagesize := 4096; stat := stat_; lstat := stat_;
  open_ _ := Opened; opendir _ := Opened;
  readdir p := if bool_decide (p = d) then [[x2e]; [x2e; x2e]; [x66]; [x6c]] else [];
  closedir _ := true; mmap _ := Some 65536; malloc _ := true;
  mincore p := if bool_decide (p = f) then Some [1; 0] else None;
  fadvise _ := true; mlock _ := true; munmap _ := true; chart_due _ _ := false |}.

#[local] Instance strtod_ : Strtod := fun _ => (NaN, 0%nat).

Definition t : tree := Dir 7 [([x66], File 5000); ([x6c], Skipped)].

Lemma t_holds (o : opts) : o_max_file_size o = 524288000 -> o_evict o = false -> holds o d t.
Proof.
  intros Hm He. assert (forall p, look o p = stat_ p) as Hl by (intros; unfold look; by destruct (o_followsymlinks o)).
  assert (readable o f 5000) as Hf.
  { unfold readable. split; [done|]. split; [by exists 65536|]. split; [done|]. split; [by vm_compute|].
    split; [|done]. intros _. split; [done|]. split; [by vm_compute|]. by exists [1; 0]. }
  cbn [holds t]. rewrite !Hl. split; [by exists 4096|]. split; [done|]. split; [reflexivity|].
  split; [done|]. split; [done|]. split; [by vm_compute|]. split; [|split; [done|split; [done|]]].
  - split; [by exists 8|]. split; [lia|]. by intros _.
  - split; [by vm_compute|]. split; [by left|done].
Qed.

Lemma t_acyclic : acyclic [] t.
Proof. cbn. split_and!; [by intros ?%elem_of_nil|done..]. Qed.

Lemma crawl_counts_tree_witness :
  exists w', vmtouch_crawl initial 1025 d Main.start = Ret tt w' /\
    total_pages w' = 0 + t_pages (total initial d t) /\
    total_pages_in_core w' = 0 + t_core (total initial d t) /\
    total_files w' = 0 + t_files (total initial d t) /\
    total_dirs w' = 0 + t_dirs (total initial d t) /\
    touched w' = [] ++ t_touched (total initial d t).
Proof.
  apply (crawl_counts_tree initial d t Main.start);
    [done|by apply t_holds|apply t_acyclic|cbn; lia|done|done|by vm_compute].
Defined.

Example tree_total : total initial d t = mk_tally 2 1 1 1 [].
Proof. by vm_compute. Qed.

Lemma crawl_ends_witness :
  match vmtouch_crawl initial 1025 d Main.start with
  | Ret _ w' => curr_crawl_depth w' = 0 /\ length (crawl_inodes w') = 1024%nat /\
                (clean initial -> descriptors w' = 0 /\ mappings w' = 0)
  | Die (DepthReached _) _ =>
      exists chain, NoDup chain /\ length chain = 1025%nat /\ Forall (is_directory_inode initial) chain
  | Die _ _ => True
  | Undefined u => u = Arithmetic
  | NoFuel => False
  end.
Proof.
  apply (crawl_ends initial) with (path := d) (w := Main.start); [|lia|done..].
  intros path sb n xs Hl Hn Hc. change (stat_ path = Some sb) in Hl. cbn in Hc.
  case_bool_decide as Hf; [|done]. subst path. injection Hc as <-. vm_compute in Hl.
  injection Hl as <-. vm_compute in Hn. by injection Hn as <-.
Defined.

Definition touching : opts := mk true false false 0 false false false false 524288000 false.

Lemma touches_cover_witness :
  exists w' ts, vmtouch_file touching f Main.start = Ret tt w' /\ touched w' = [] ++ ts /\
    (forall p i, (p, i) ∈ ts -> p = f /\ 0 <= i < 5000) /\
    (forall b, 0 <= b < 5000 -> exists i, (f, i) ∈ ts /\ i / pagesize = b / pagesize).
Proof.
  apply (touches_cover touching f 5000 8 Main.start); [done| |done|done|by vm_compute|by vm_compute|done|done|].
  - unfold readable. split; [done|]. split; [by exists 65536|]. split; [done|]. split; [by vm_compute|].
    split; [|done]. intros _. split; [done|]. split; [by vm_compute|]. by exists [1; 0].
  - unfold fits. vm_compute. split_and!; done.
Defined.

Definition locking : opts := mk true false false 0 true false true false 524288000 true.
Definition calls : Main.calls := Main.mk_calls (true, true, true) true.

Lemma evict_lock_unreachable_witness :
  options initial [(x65, []); (x6c, [])] = Some (inr (mk true true false 0 true false false false 524288000 false)) /\
  checks (mk true true false 0 true false false false 524288000 false) 1 <> inl (Fatal EvictLock).
Proof.
  assert (options initial [(x65, []); (x6c, [])] =
    Some (inr (mk true true false 0 true false false false 524288000 false))) as E by done.
  split; [exact E|]. apply (OptionProps.evict_lock_unreachable _ _ 1 E).
Defined.

Lemma checks_accept_witness :
  let o := mk true false false 2 true false true false 524288000 false in
  let o' := mk true false true 0 true false true false 524288000 false in
  checks o 1 = inr o' /\ (o_quiet o' = true -> o_verbose o' = 0).
Proof.
  split; [done|]. apply (OptionProps.checks_accept (mk true false false 2 true false true false 524288000 false) 1). done.
Defined.

Lemma daemon_status_witness :
  exists p w parent, Main.work locking 1025 calls 0 [d] Main.start = Some (p, w) /\
    Main.go_daemon locking calls 42 true [Main.mk_poll true false false; Main.mk_poll true false true]
      (Some (head (Main.pipe p))) = inl parent /\
    (Main.ends p = Main.Sleeps /\ Main.pipe p = [0] \/ Main.ends p = Main.Exits 1 /\ Main.pipe p = [1]) /\
    (Main.ends p = Main.Sleeps -> exists w', w = Some w' /\ locked_pages w' = total_pages w') /\
    (Main.ends parent = Main.Exits 0 -> Main.ends p = Main.Sleeps).
Proof.
  eexists _, _, _. split; [vm_compute; reflexivity|]. split; [vm_compute; reflexivity|].
  eapply (DaemonProps.daemon_status locking 1025 calls [d] _ _ 42 true
    [Main.mk_poll true false false; Main.mk_poll true false true]);
    [done|done|lia|vm_compute; reflexivity|vm_compute; reflexivity].
Defined.

Lemma main_reports_witness :
  let a := total initial d t in
  exists w ls, Main.main 1025 true [] [d] calls 0 true [] None =
      Some (Main.mk_process (Main.Exits 0) [] None, Some w) /\
    out w = ls ++ [Files (t_files a); Directories (t_dirs a);
                   Resident (t_core a) (t_pages a) (pretty_print_size (t_core a * pagesize))
                     (pretty_print_size (t_pages a * pagesize))].
Proof.
  apply (main_reports d t calls 0 true [] None); [done|by apply t_holds|apply t_acyclic|cbn; lia|by vm_compute..].
Defined.

(** A directory of another file system whose inode has the number of one above it
    is taken for a loop. *)
Definition mounted : Kernel := {|
  pagesize := 4096;
  stat p := Some (mk_stat Directory 4096 (if bool_decide (p = below d [x6d]) then 2 else if bool_decide (p = d) then 2 else 5));
  lstat p := Some (mk_stat Directory 4096 (if bool_decide (p = below d [x6d]) then 2 else if bool_decide (p = d) then 2 else 5));
  open_ _ := Opened; opendir _ := Opened;
  readdir p := if bool_decide (p = d) then [[x6d]] else [];
  closedir _ := true; mmap _ := None; malloc _ := true; mincore _ := None;
  fadvise _ := true; mlock _ := true; munmap _ := true; chart_due _ _ := false |}.

Lemma mounted_taken_for_loop :
  match @vmtouch_crawl mounted initial 1025 d Main.start with
  | Ret _ w => err w = [LinkLoop (below d [x6d])] /\ total_dirs w = 1
  | _ => False
  end.
Proof. by vm_compute. Qed.

End Small.
