(* ===== verification/Nodes.v ===== *)
(** * Nodes: the exercises of src/code/leetcode on singly linked lists

    The nodes live in a heap from addresses to [ListNode]; a pointer is [None]
    for NULL, and the access through NULL or to an address without a node is
    undefined ([None] as a result). [seg h p xs e] says that from [p] the nodes
    [xs], pairs of an address and a value, lead to [e]; a [chain] leads to NULL.
    Each operation is shown to turn the chain it is given into the chain a
    function on lists gives, and to leave every other node alone ([agree]). A
    loop has as many rounds as there are nodes, and one. *)

From S2P Require Import Prelude Loops.

Notation ptr := (option positive) (only parsing).

(** src/code/leetcode/reverse-linked-list-2.cc:11-15 [ListNode] *)
Record ListNode := mk_ListNode { val : Z; next : ptr }.

Notation heap := (gmap positive ListNode) (only parsing).

Definition load (h : heap) (p : ptr) : option ListNode := l ← p; h !! l.
Definition set_next (h : heap) (p v : ptr) : option heap :=
  l ← p; n ← h !! l; Some (<[l := mk_ListNode (val n) v]> h).
Definition rounds (h : heap) : nat := S (S (base.size (dom h))).

Lemma set_next_ok h l v n q :
  h !! l = Some (mk_ListNode v n) -> set_next h (Some l) q = Some (<[l := mk_ListNode v q]> h).
Proof. intros Hl. simpl. by rewrite Hl. Qed.
#[global] Arguments set_next : simpl never.

Lemma loop_S {S : Type} fuel (body : S -> option (S + S)) s :
  loop (Datatypes.S fuel) body s =
  r ← body s; match r with inl s => loop fuel body s | inr s => Some s end.
Proof. done. Qed.
#[global] Arguments loop : simpl never.

(** [new ListNode(x)]: an address that holds no node. *)
Definition new (h : heap) (x : Z) : heap * ptr :=
  let l := fresh (dom h) in (<[l := mk_ListNode x None]> h, Some l).

(** ** Segments *)

Fixpoint seg (h : heap) (p : ptr) (xs : list (positive * Z)) (e : ptr) : Prop :=
  match xs with
  | [] => p = e
  | (l, v) :: xs => p = Some l /\ exists n, h !! l = Some (mk_ListNode v n) /\ seg h n xs e
  end.
Notation chain h p xs := (seg h p xs None).

Definition agree {A} (ls : list positive) (h h' : gmap positive A) : Prop := forall l, l ∉ ls -> h' !! l = h !! l.

Lemma agree_trans {A} ls (h1 h2 h3 : gmap positive A) : agree ls h1 h2 -> agree ls h2 h3 -> agree ls h1 h3.
Proof. intros H1 H2 l Hl. by rewrite H2, H1. Qed.

Lemma agree_mono {A} ls ls' (h h' : gmap positive A) : ls ⊆ ls' -> agree ls h h' -> agree ls' h h'.
Proof. intros Hs Ha l Hl. apply Ha. set_solver. Qed.

#[export] Instance agree_Permutation {A} : Proper ((≡ₚ) ==> (=) ==> (=) ==> iff) (@agree A).
Proof. intros ls ls' Hp h _ <- h' _ <-. unfold agree. by setoid_rewrite Hp. Qed.

Lemma agree_insert {A} ls (h : gmap positive A) l n : l ∈ ls -> agree ls h (<[l := n]> h).
Proof. intros Hl l' Hl'. apply lookup_insert_ne. by intros ->. Qed.

Lemma list_seg_app h p xs ys e : seg h p (xs ++ ys) e <-> exists q, seg h p xs q /\ seg h q ys e.
Proof.
  revert p. induction xs as [|[l v] xs IH]; intros p; simpl.
  - split; [by eauto|]. by intros (q & -> & ?).
  - setoid_rewrite IH. naive_solver.
Qed.

Lemma list_seg_frame h h' p xs e : (forall l, l ∈ xs.*1 -> h' !! l = h !! l) -> seg h p xs e -> seg h' p xs e.
Proof.
  revert p. induction xs as [|[l v] xs IH]; intros p Hh; simpl; [done|].
  intros (-> & n & Hl & Hs). split; [done|]. exists n. rewrite Hh by (simpl; left). split; [done|].
  apply IH; [|done]. intros. apply Hh. simpl. by right.
Qed.

Lemma seg_insert h p xs e l n : l ∉ xs.*1 -> seg h p xs e -> seg (<[l := n]> h) p xs e.
Proof. intros Hl. apply list_seg_frame. intros l' Hl'. apply lookup_insert_ne. by intros ->. Qed.

Lemma seg_dom h p xs e l : seg h p xs e -> l ∈ xs.*1 -> is_Some (h !! l).
Proof.
  revert p. induction xs as [|[l' v] xs IH]; intros p Hs; [by intros ?%not_elem_of_nil|].
  destruct Hs as (-> & n & Hl & Hs). simpl. intros [->|?]%elem_of_cons; [by rewrite Hl|by apply (IH n)].
Qed.

Lemma chain_fun h p xs ys : chain h p xs -> chain h p ys -> xs = ys.
Proof.
  revert p ys. induction xs as [|[l v] xs IH]; intros p ys; simpl.
  - intros ->. by destruct ys as [|[? ?] ?]; [|intros [? _]].
  - intros (-> & n & Hl & Hs). destruct ys as [|[l' v'] ys]; simpl; [done|].
    intros ([= <-] & n' & Hl' & Hs'). rewrite Hl in Hl'. injection Hl' as <- <-. f_equal. by apply (IH n).
Qed.

(** The nodes of a chain are distinct: one that came twice would lead to two
    chains of different lengths. *)
Lemma chain_NoDup h p xs : chain h p xs -> NoDup xs.*1.
Proof.
  revert p. induction xs as [|[l v] xs IH]; intros p Hs; [constructor|]. simpl. pose proof Hs as Hs0.
  destruct Hs as (-> & n & Hl & Hs). constructor; [|by apply (IH n)].
  intros ([l' v'] & -> & Hin)%list_elem_of_fmap. simpl in *.
  apply list_elem_of_split in Hin as (a & b & ->). pose proof Hs as (q & _ & Hq)%list_seg_app.
  assert (q = Some l') as -> by (by destruct Hq). pose proof (chain_fun h (Some l') ((l', v) :: a ++ (l', v') :: b) _ Hs0 Hq) as E%(f_equal length).
  simpl in E. rewrite length_app in E. simpl in E. lia.
Qed.

Lemma nodes_rounds (h : heap) ls :
  NoDup ls -> (forall l, l ∈ ls -> is_Some (h !! l)) -> (length ls + 2 <= rounds h)%nat.
Proof.
  intros Hn Hd. unfold rounds. assert (base.size (list_to_set ls : gset positive) <= base.size (dom h))%nat as H.
  { apply subseteq_size. intros l Hl%elem_of_list_to_set. apply elem_of_dom. auto. }
  rewrite size_list_to_set in H by done. lia.
Qed.

Lemma chain_rounds h p xs : chain h p xs -> (length xs + 2 <= rounds h)%nat.
Proof.
  intros Hs. rewrite <- (length_fmap fst xs). apply nodes_rounds; [by apply (chain_NoDup h p)|].
  intros l. by apply (seg_dom h p xs None).
Qed.

(** The last node of a segment, whose own [next] is about to be written: [tip h
    p xs l v] says that [xs] and then the node [l] with value [v] are chained
    from [p], wherever [l] leads. *)
Definition tip (h : heap) (p : ptr) (xs : list (positive * Z)) (l : positive) (v : Z) : Prop :=
  seg h p xs (Some l) /\ (exists n, h !! l = Some (mk_ListNode v n)) /\ l ∉ xs.*1.

Lemma tip_link h p xs l v q :
  tip h p xs l v -> exists h', set_next h (Some l) q = Some h' /\ seg h' p (xs ++ [(l, v)]) q /\ agree [l] h h'.
Proof.
  intros (Hs & (n & Hl) & Hn). exists (<[l := mk_ListNode v q]> h). split_and!.
  - by apply set_next_ok with n.
  - apply list_seg_app. exists (Some l). split; [by apply seg_insert|]. simpl. split; [done|].
    exists q. by rewrite lookup_insert_eq.
  - apply agree_insert. by left.
Qed.

Lemma seg_tip h p xs l v q : seg h p (xs ++ [(l, v)]) q -> l ∉ xs.*1 -> tip h p xs l v.
Proof. intros (q' & Hs & -> & n & Hl & _)%list_seg_app Hn. split_and!; [done|by exists n|done]. Qed.

Lemma tip_frame ls h h' p xs l v :
  agree ls h h' -> (forall l', l' ∈ ls -> l' ≠ l /\ l' ∉ xs.*1) -> tip h p xs l v -> tip h' p xs l v.
Proof.
  intros Ha Hd (Hs & (n & Hl) & Hn). split_and!; [|exists n|done].
  - apply (list_seg_frame h); [|done]. intros l' Hl'. apply Ha. intros [_ ?]%Hd. done.
  - rewrite Ha; [done|]. by intros [? _]%Hd.
Qed.

(** The list a loop has built so far, with [prev] its last node, and the code
    that appends the node [q] to it. *)
Definition built (h : heap) (res prev : ptr) (ys : list (positive * Z)) : Prop :=
  match prev with
  | None => res = None /\ ys = []
  | Some l => exists zs v, ys = zs ++ [(l, v)] /\ tip h res zs l v
  end.

Definition link (h : heap) (res prev q : ptr) : option (heap * ptr) :=
  match prev with
  | None => Some (h, q)
  | Some _ => h ← set_next h prev q; Some (h, res)
  end.

Lemma built_link h res prev ys l v n :
  built h res prev ys -> h !! l = Some (mk_ListNode v n) -> l ∉ ys.*1 ->
  exists h' res', link h res prev (Some l) = Some (h', res') /\
    built h' res' (Some l) (ys ++ [(l, v)]) /\ agree ys.*1 h h'.
Proof.
  intros Hb Hl Hn. destruct prev as [k|]; simpl in Hb.
  - destruct Hb as (zs & w & -> & Ht). destruct (tip_link _ _ _ _ _ (Some l) Ht) as (h' & E & Hs & Ha).
    rewrite fmap_app in Hn. assert (l ≠ k) by set_solver.
    exists h', res. unfold link. rewrite E. split; [done|]. split.
    + exists (zs ++ [(k, w)]), v. split; [done|]. split_and!; [done| |].
      * exists n. rewrite Ha; [done|]. set_solver.
      * rewrite fmap_app. set_solver.
    + apply (agree_mono [k]); [|done]. rewrite fmap_app. set_solver.
  - destruct Hb as [-> ->]. exists h, (Some l). split; [done|]. split; [|done].
    exists [], v. split; [done|]. split_and!; [done|by exists n|set_solver].
Qed.

Lemma built_frame ls h h' res prev ys :
  agree ls h h' -> (forall l, l ∈ ls -> l ∉ ys.*1) -> built h res prev ys -> built h' res prev ys.
Proof.
  intros Ha Hd. destruct prev as [k|]; [|done]. intros (zs & v & -> & Ht). exists zs, v. split; [done|].
  apply (tip_frame ls h); [done| |done]. intros l Hl. specialize (Hd l Hl). rewrite fmap_app in Hd. set_solver.
Qed.

(** The last node already leads to the next one. *)
Lemma built_step h res k w l v n ys :
  built h res (Some k) ys -> h !! k = Some (mk_ListNode w (Some l)) ->
  h !! l = Some (mk_ListNode v n) -> l ∉ ys.*1 -> built h res (Some l) (ys ++ [(l, v)]).
Proof.
  intros (zs & w' & -> & Hs & (n' & Hk') & Hn') Hk Hl Hn. rewrite Hk in Hk'. injection Hk' as <- <-.
  exists (zs ++ [(k, w)]), v. split; [done|]. split_and!; [|by exists n|done].
  apply list_seg_app. exists (Some k). split; [done|]. split; [done|]. by exists (Some l).
Qed.

Lemma built_dom h res prev ys l : built h res prev ys -> l ∈ ys.*1 -> is_Some (h !! l).
Proof.
  destruct prev as [k|]; [|by intros [_ ->] ?%not_elem_of_nil].
  intros (zs & v & -> & Hs & (n & Hk) & _). rewrite fmap_app. intros [Hl|Hl]%elem_of_app.
  - by apply (seg_dom h res zs (Some k)).
  - apply list_elem_of_singleton in Hl as ->. simpl. by rewrite Hk.
Qed.

(** [if (prev) prev->next = NULL;] *)
Definition finish (h : heap) (prev : ptr) : option heap :=
  match prev with None => Some h | Some _ => set_next h prev None end.

Lemma built_finish h res prev ys :
  built h res prev ys -> exists h', finish h prev = Some h' /\ chain h' res ys /\ agree ys.*1 h h'.
Proof.
  destruct prev as [k|]; simpl.
  - intros (zs & v & -> & Ht). destruct (tip_link _ _ _ _ _ None Ht) as (h' & E & Hs & Ha).
    exists h'. split_and!; [done|done|]. apply (agree_mono [k]); [rewrite fmap_app; set_solver|done].
  - intros [-> ->]. by exists h.
Qed.

(** The pointer to the node at a place of a chain. *)
Definition pos (xs : list (positive * Z)) (i : nat) : ptr := fst <$> xs !! i.

Lemma chain_pos h p xs : chain h p xs -> p = pos xs 0.
Proof. destruct xs as [|[l v] xs]; [done|]. by intros [-> _]. Qed.

Lemma chain_load h p xs i l v :
  chain h p xs -> xs !! i = Some (l, v) -> h !! l = Some (mk_ListNode v (pos xs (S i))).
Proof.
  revert p i. induction xs as [|[l' v'] xs IH]; intros p [|i]; [done..| |]; intros (-> & n & Hl & Hc) Hi; simpl in Hi.
  - injection Hi as -> ->. rewrite Hl. by rewrite (chain_pos h n xs).
  - rewrite (IH n i) by done. done.
Qed.

Lemma load_pos h p xs i :
  chain h p xs -> (i < length xs)%nat -> exists v, load h (pos xs i) = Some (mk_ListNode v (pos xs (S i))).
Proof.
  intros Hc [[l v] Hl]%lookup_lt_is_Some. exists v. unfold pos at 1. rewrite Hl. simpl.
  by apply (chain_load _ p).
Qed.

Definition before (xs : list (positive * Z)) (i : nat) : ptr := match i with O => None | S i => pos xs i end.

(** Three nodes to try the operations on. *)
Definition sample : heap :=
  {[ 1%positive := mk_ListNode 7 (Some 2%positive); 2%positive := mk_ListNode 8 (Some 3%positive);
     3%positive := mk_ListNode 9 None ]}.

Lemma sample_chain : chain sample (Some 1%positive) [(1%positive, 7); (2%positive, 8); (3%positive, 9)].
Proof. repeat (split; [done|eexists; split; [by vm_compute|]]). done. Qed.

(** [turns f xs ys]: given a chain of the nodes [xs], [f] ends with a chain of
    the nodes [ys], and no node outside of [xs] has changed. *)
Definition turns (f : heap -> ptr -> option (heap * ptr)) (xs ys : list (positive * Z)) : Prop :=
  forall h p, chain h p xs ->
  exists h' p', f h p = Some (h', p') /\ chain h' p' ys /\ agree xs.*1 h h'.

Definition sorted (xs : list (positive * Z)) : Prop := StronglySorted Z.le xs.*2.

(** ** remove-duplicates-from-sorted-list.cc *)
Module Dedup.

(** src/code/leetcode/remove-duplicates-from-sorted-list.cc:26-34 [Solution::deleteDuplicates] *)
Definition round '((h, prev, q) : heap * ptr * ptr) : option (heap * ptr * ptr + heap * ptr * ptr) :=
  match q with
  | None => Some (inr (h, prev, q))
  | Some _ =>
      nq ← load h q; np ← load h prev;
      '(h, prev) ← if val nq =? val np then Some (h, prev) else h ← set_next h prev q; Some (h, q);
      nq ← load h q;
      Some (inl (h, prev, next nq))
  end.

(** src/code/leetcode/remove-duplicates-from-sorted-list.cc:20-37 [Solution::deleteDuplicates] *)
Definition deleteDuplicates (h : heap) (head : ptr) : option (heap * ptr) :=
  match head with
  | None => Some (h, None)
  | Some _ =>
      let p := head in
      np ← load h p;
      '(h, prev, _) ← loop (rounds h) round (h, head, next np);
      h ← set_next h prev None;
      Some (h, p)
  end.

(** The first node of every run of equal values. *)
Fixpoint firsts (v : Z) (xs : list (positive * Z)) : list (positive * Z) :=
  match xs with
  | [] => []
  | (l, w) :: xs => if w =? v then firsts v xs else (l, w) :: firsts w xs
  end.
Definition dedup (xs : list (positive * Z)) : list (positive * Z) :=
  match xs with [] => [] | (l, v) :: xs => (l, v) :: firsts v xs end.

Lemma dedup_round_spec rest : forall fuel h p ys l v q,
  (length rest < fuel)%nat -> tip h p ys l v -> chain h q rest -> l ∉ rest.*1 ->
  (forall x, x ∈ ys.*1 -> x ∉ rest.*1) ->
  exists h' ys' l' v', loop fuel round (h, Some l, q) = Some (h', Some l', None) /\
    tip h' p ys' l' v' /\ ys ++ (l, v) :: firsts v rest = ys' ++ [(l', v')] /\
    agree (l :: rest.*1) h h' /\ l' ∈ l :: rest.*1.
Proof.
  induction rest as [|[m w] rest IH]; intros fuel h p ys l v q Hf Ht Hq Hl Hys;
    (destruct fuel as [|fuel]; [simpl in Hf; lia|]).
  - simpl in Hq. subst q. rewrite loop_S. exists h, ys, l, v. split_and!; [done|apply Ht..|done|done|left].
  - pose proof (chain_NoDup _ _ _ Hq) as Hnd. simpl in Hnd. apply NoDup_cons in Hnd as [Hm Hnd].
    simpl in Hl. apply not_elem_of_cons in Hl as [Hlm Hl].
    destruct Hq as (-> & n & Em & Hq). pose proof Ht as (Hs & (nl & El) & Hn). rewrite loop_S. simpl.
    rewrite Em. simpl. rewrite El. simpl. destruct (Z.eqb_spec w v) as [->|Hw].
    + simpl. rewrite Em. simpl.
      destruct (IH fuel h p ys l v n) as (h' & ys' & l' & v' & E & ? & ? & ? & ?); [simpl in Hf; lia|done..| |].
      { intros x Hx. specialize (Hys x Hx). simpl in Hys. by apply not_elem_of_cons in Hys as [_ ?]. }
      exists h', ys', l', v'. split_and!; [done..| |]; [by apply (agree_mono (l :: rest.*1)); [set_solver|]|set_solver].
    + destruct (tip_link _ _ _ _ _ (Some m) Ht) as (h1 & E1 & Hs1 & Ha1).
      rewrite E1. simpl. simpl in Hys.
      assert (forall x, x ∈ m :: rest.*1 -> h1 !! x = h !! x) as Hx.
      { intros x ?. apply Ha1. set_solver. }
      rewrite Hx, Em by set_solver. simpl.
      destruct (IH fuel h1 p (ys ++ [(l, v)]) m w n)
        as (h' & ys' & l' & v' & E & ? & Ey & Ha & ?); [simpl in Hf; lia| | |done| |].
      { split_and!; [done|exists n; rewrite Hx; [done|left]|]. rewrite fmap_app. set_solver. }
      { apply (list_seg_frame h); [|done]. intros. apply Hx. by right. }
      { rewrite fmap_app. set_solver. }
      exists h', ys', l', v'. split_and!; [done|done|by rewrite <- Ey, <- (assoc_L (++))| |set_solver].
      apply (agree_trans _ _ h1); [apply (agree_mono [l]); [set_solver|done]|].
      by apply (agree_mono (m :: rest.*1)); [set_solver|].
Qed.

(** deleteDuplicates keeps the first node of every run, in place. *)
Lemma deleteDuplicates_turns xs : turns deleteDuplicates xs (dedup xs).
Proof.
  intros h p Hc. pose proof (chain_NoDup _ _ _ Hc) as Hnd. pose proof (chain_rounds _ _ _ Hc) as Hr.
  destruct xs as [|[l v] xs]; [simpl in Hc; subst p; by exists h, None|].
  destruct Hc as (-> & n & El & Hc). simpl in *. apply NoDup_cons in Hnd as [Hl Hnd].
  rewrite El. simpl.
  destruct (dedup_round_spec xs (rounds h) h (Some l) [] l v n) as (h' & ys & l' & v' & E & Ht & Ey & Ha & Hin);
    [lia|by split_and!; [..|exists n|set_solver]|done|done|set_solver|].
  rewrite E. simpl mbind.
  destruct (tip_link _ _ _ _ _ None Ht) as (h2 & E2 & Hs2 & Ha2). rewrite E2. simpl mbind.
  exists h2, (Some l). split; [done|]. split.
  { change (chain h2 (Some l) ([] ++ (l, v) :: firsts v xs)). by rewrite Ey. }
  eapply agree_trans; [done|]. apply (agree_mono [l']); [set_solver|done].
Qed.

Lemma firsts_sorted v xs :
  StronglySorted Z.le (v :: xs.*2) ->
  StronglySorted Z.lt (v :: (firsts v xs).*2) /\
  (forall w, w ∈ v :: (firsts v xs).*2 <-> w ∈ v :: xs.*2) /\ firsts v xs `sublist_of` xs.
Proof.
  revert v. induction xs as [|[l w] xs IH]; intros v Hs; [split_and!; [by repeat constructor|done|done]|].
  simpl in *.
  apply StronglySorted_inv in Hs as [Hs [Hv Hf]%Forall_cons].
  destruct (Z.eqb_spec w v) as [->|Hn].
  - destruct (IH v Hs) as (H1 & H2 & H3). split; [done|]. split; [|by apply sublist_cons].
    intros w. rewrite H2, !elem_of_cons. tauto.
  - destruct (IH w Hs) as (H1 & H2 & H3). simpl. split; [|split].
    + constructor; [done|]. apply Forall_forall. intros x Hx. simpl in H2. apply H2 in Hx.
      apply elem_of_cons in Hx as [->|Hx]; [lia|]. apply StronglySorted_inv in Hs as [_ Hw].
      rewrite Forall_forall in Hw. specialize (Hw x Hx). lia.
    + intros x. rewrite !(elem_of_cons _ x v). by rewrite H2.
    + by apply sublist_skip.
Qed.

(** Of a sorted list it leaves each value once, at the node that had it first. *)
Lemma deleteDuplicates_sorted h p xs :
  chain h p xs -> sorted xs ->
  exists h' p' ys, deleteDuplicates h p = Some (h', p') /\ chain h' p' ys /\
    StronglySorted Z.lt ys.*2 /\ (forall v, v ∈ ys.*2 <-> v ∈ xs.*2) /\ ys `sublist_of` xs.
Proof.
  intros Hc Hs. destruct (deleteDuplicates_turns xs h p Hc) as (h' & p' & E & Hc' & _).
  exists h', p', (dedup xs). split; [done|]. split; [done|].
  destruct xs as [|[l v] xs]; [split_and!; [constructor|done|done]|].
  destruct (firsts_sorted v xs Hs) as (H1 & H2 & H3). split; [done|]. split; [done|]. by apply sublist_skip.
Qed.

End Dedup.

(** ** swap-nodes-in-paris.cc *)
Module SwapPairs.

(** src/code/leetcode/swap-nodes-in-paris.cc:23-44 [Solution::swapPairs] *)
Definition round '((h, prev, res, head) : heap * ptr * ptr * ptr) :
    option (heap * ptr * ptr * ptr + heap * ptr * ptr * ptr) :=
  match head with
  | None => Some (inr (h, prev, res, head))
  | Some _ =>
      nh ← load h head;
      match next nh with
      | Some _ =>
          let p := head in
          let q := next nh in
          nq ← load h q;
          let head := next nq in
          h ← set_next h q p;
          '(h, res) ← link h res prev q;
          Some (inl (h, p, res, head))
      | None =>
          '(h, res) ← link h res prev head;
          Some (inr (h, head, res, head))
      end
  end.

(** src/code/leetcode/swap-nodes-in-paris.cc:19-49 [Solution::swapPairs] *)
Definition swapPairs (h : heap) (head : ptr) : option (heap * ptr) :=
  '(h, prev, res, _) ← loop (rounds h) round (h, None, None, head);
  h ← finish h prev;
  Some (h, res).

Fixpoint swap_pairs {A} (xs : list A) : list A :=
  match xs with
  | x :: y :: xs => y :: x :: swap_pairs xs
  | xs => xs
  end.

Lemma swap_pairs_Permutation {A} (xs : list A) : swap_pairs xs ≡ₚ xs.
Proof.
  remember (length xs) as k eqn:Hk. assert (length xs <= k)%nat as H by lia. clear Hk. revert xs H.
  induction k as [|k IH]; intros [|x [|y xs]] H; simpl in *; try done; try lia.
  rewrite IH by lia. apply perm_swap.
Qed.

Lemma swap_round_spec k : forall xs fuel h res prev ys head,
  (length xs <= k)%nat -> (length xs < fuel)%nat ->
  built h res prev ys -> chain h head xs -> (forall l, l ∈ ys.*1 -> l ∉ xs.*1) ->
  exists h' prev' res' head', loop fuel round (h, prev, res, head) = Some (h', prev', res', head') /\
    built h' res' prev' (ys ++ swap_pairs xs) /\ agree (ys ++ xs).*1 h h'.
Proof.
  induction k as [|k IH]; intros xs fuel h res prev ys head Hk Hf Hb Hc Hd;
    (destruct fuel as [|fuel]; [lia|]); rewrite loop_S; pose proof (chain_NoDup _ _ _ Hc) as Hnd;
    destruct xs as [|[l v] [|[m w] xs]]; try (simpl in Hk; lia).
  1, 2: simpl in Hc; subst head; exists h, prev, res, None; simpl; rewrite app_nil_r; by split_and!.
  - destruct Hc as (-> & n & El & Hn). simpl in Hn. subst n. simpl. rewrite El. simpl.
    destruct (built_link _ _ _ _ _ _ _ Hb El) as (h' & res' & E & Hb' & Ha); [set_solver|].
    rewrite E. simpl. exists h', (Some l), res', (Some l). split_and!; [done|done|].
    apply (agree_mono ys.*1); [rewrite fmap_app; set_solver|done].
  - destruct Hc as (-> & n & El & -> & n' & Em & Hc). simpl. rewrite El. simpl. rewrite Em. simpl.
    simpl in Hnd. apply NoDup_cons in Hnd as [Hl [Hm Hnd]%NoDup_cons]. simpl in Hd.
    rewrite (set_next_ok _ _ _ _ _ Em). simpl.
    set (h1 := <[m := mk_ListNode w (Some l)]> h).
    assert (agree [m] h h1) as Ha1 by (apply agree_insert; left).
    destruct (built_link h1 res prev ys m w (Some l)) as (h2 & res2 & E2 & Hb2 & Ha2);
      [apply (built_frame [m] h); [done|set_solver|done]|by apply lookup_insert_eq|set_solver|].
    rewrite E2. simpl.
    destruct (IH xs fuel h2 res2 (Some l) (ys ++ [(m, w)] ++ [(l, v)]) n') as (h' & prev' & res' & head' & E & Hb' & Ha).
    + simpl in Hk. lia.
    + simpl in Hf. lia.
    + rewrite (assoc_L (++)). apply (built_step _ _ m w _ _ (Some m)); [done|..].
      * rewrite Ha2 by set_solver. apply lookup_insert_eq.
      * rewrite Ha2, Ha1 by set_solver. exact El.
      * rewrite fmap_app. set_solver.
    + apply (list_seg_frame h); [|done]. intros x Hx. rewrite Ha2, Ha1; [done|set_solver|set_solver].
    + intros x. rewrite !fmap_app. simpl. set_solver.
    + exists h', prev', res', head'. split_and!; [done|by rewrite <- !(assoc_L (++)) in Hb'|].
      apply (agree_trans _ _ h1); [by apply (agree_mono [m]); [rewrite fmap_app; set_solver|]|].
      apply (agree_trans _ _ h2); [by apply (agree_mono ys.*1); [rewrite fmap_app; set_solver|]|].
      revert Ha. apply agree_mono. rewrite !fmap_app. set_solver.
Qed.

(** swapPairs exchanges the nodes, not their values, two by two. *)
Lemma swapPairs_turns xs : turns swapPairs xs (swap_pairs xs).
Proof.
  intros h p Hc. pose proof (chain_rounds _ _ _ Hc). unfold swapPairs.
  destruct (swap_round_spec (length xs) xs (rounds h) h None None [] p) as (h' & prev & res & head & -> & Hb & Ha);
    [lia|lia|done|done|set_solver|].
  simpl mbind. destruct (built_finish _ _ _ _ Hb) as (h2 & -> & Hc2 & Ha2). simpl mbind.
  exists h2, res. split_and!; [done|done|]. eapply agree_trans; [exact Ha|].
  apply (agree_mono (swap_pairs xs).*1); [|done]. by rewrite (swap_pairs_Permutation xs).
Qed.
End SwapPairs.

(** ** remove-nth-node-from-end-of-list.cc *)
Module RemoveNth.

(** src/code/leetcode/remove-nth-node-from-end-of-list.cc:27-31 [Solution::removeNthFromEnd] *)
Definition round (h : heap) '((prev, x, y) : ptr * ptr * ptr) :
    option (ptr * ptr * ptr + ptr * ptr * ptr) :=
  ny ← load h y;
  match next ny with
  | None => Some (inr (prev, x, y))
  | Some _ => nx ← load h x; Some (inl (x, next nx, next ny))
  end.

(** src/code/leetcode/remove-nth-node-from-end-of-list.cc:19-38 [Solution::removeNthFromEnd] *)
Definition removeNthFromEnd (n : Z) (h : heap) (head : ptr) : option (heap * ptr) :=
  y ← for_ (upto 0 (n - 2)) (fun _ y => ny ← load h y; Some (next ny)) head;
  '(prev, x, y) ← loop (rounds h) (round h) (None, head, y);
  match prev with
  | None => nh ← load h head; Some (h, next nh)
  | Some _ => nx ← load h x; h ← set_next h prev (next nx); Some (h, head)
  end.

Section list.
Context (h : heap) (p : ptr) (xs : list (positive * Z)) (Hc : chain h p xs).

Lemma advance n : 1 <= n <= size xs ->
  for_ (upto 0 (n - 2)) (fun _ y => ny ← load h y; Some (next ny)) p = Some (pos xs (Z.to_nat (n - 1))).
Proof.
  intros Hn.
  destruct (for_upto (fun i y => y = pos xs (Z.to_nat i)) 0 (n - 2)
    (fun _ y => ny ← load h y; Some (next ny)) p) as (y & E & ->).
  - lia.
  - by apply (chain_pos h).
  - intros i y Hi ->. destruct (load_pos h p xs (Z.to_nat i)) as (v & ->); [done|lia|]. simpl. eexists. split; [done|].
    f_equal. lia.
  - rewrite E. do 2 f_equal. lia.
Qed.

(** The two pointers keep their distance until the second is at the last node. *)
Lemma rounds_spec d k i fuel :
  (length xs = i + d + S k)%nat -> (k < fuel)%nat ->
  loop fuel (round h) (before xs i, pos xs i, pos xs (i + d)) =
    Some (before xs (i + k), pos xs (i + k), pos xs (i + k + d)).
Proof.
  revert i fuel. induction k as [|k IH]; intros i fuel Hx Hf; (destruct fuel as [|fuel]; [lia|]); rewrite loop_S; simpl.
  - destruct (load_pos h p xs (i + d)) as (v & ->); [done|lia|]. simpl.
    unfold pos at 1. rewrite (lookup_ge_None_2 xs (S (i + d))) by lia. simpl. by rewrite !Nat.add_0_r.
  - destruct (load_pos h p xs (i + d)) as (v & ->); [done|lia|]. simpl.
    destruct (lookup_lt_is_Some_2 xs (S (i + d))) as [[l w] El]; [lia|]. unfold pos at 1. rewrite El. simpl.
    destruct (load_pos h p xs i) as (v' & ->); [done|lia|]. simpl.
    specialize (IH (S i) fuel ltac:(lia) ltac:(lia)). simpl in IH. rewrite IH.
    by replace (i + S k)%nat with (S (i + k)) by lia.
Qed.
End list.

(** removeNthFromEnd unlinks exactly the n-th node from the end. *)
Lemma removeNthFromEnd_turns n a x b :
  n = size b + 1 -> turns (removeNthFromEnd n) (a ++ x :: b) (a ++ b).
Proof.
  intros Hn h p Hc. unfold removeNthFromEnd. pose proof (chain_rounds _ _ _ Hc) as Hr.
  pose proof (chain_NoDup _ _ _ Hc) as Hnd. rewrite length_app in Hr. simpl in Hr.
  rewrite (advance h p _ Hc n) by (rewrite length_app; simpl; lia). simpl mbind.
  pose proof (rounds_spec h p _ Hc (length b) (length a) 0 (rounds h)) as E.
  replace (Z.to_nat (n - 1)) with (length b) by lia.
  simpl in E. rewrite <- (chain_pos _ _ _ Hc) in E. rewrite E by (rewrite ?length_app; simpl; lia). simpl mbind.
  destruct x as [l v]. assert (h !! l = Some (mk_ListNode v (pos b 0))) as El.
  { rewrite (chain_load h p (a ++ (l, v) :: b) (length a) l v Hc) by (by rewrite list_lookup_middle).
    unfold pos. rewrite lookup_app_r by lia. by replace (S (length a) - length a)%nat with 1%nat by lia. }
  destruct a as [|y a _] using rev_ind.
  - simpl in *. destruct Hc as (-> & n' & El' & Hc). simpl. rewrite El. simpl.
    rewrite El in El'. injection El' as <-. by exists h, (pos b 0).
  - destruct y as [k w]. pose proof Hc as (q & Ha & -> & n' & El' & Hb)%list_seg_app.
    rewrite El in El'. injection El' as <-.
    rewrite !fmap_app in Hnd. simpl in Hnd. apply NoDup_app in Hnd as ((_ & Hk & _)%NoDup_app & Hd & Hlb).
    apply NoDup_cons in Hlb as [Hl _].
    destruct (tip_link _ _ _ _ _ (pos b 0) (seg_tip _ _ _ _ _ _ Ha ltac:(set_solver))) as (h' & E' & Hs' & Hag).
    rewrite length_app, Nat.add_1_r. simpl before. simpl.
    replace (pos _ (length a)) with (Some k).
    2: { unfold pos. rewrite <- (assoc_L (++)). simpl. by rewrite list_lookup_middle. }
    replace (pos _ (S (length a))) with (Some l).
    2: { unfold pos. by rewrite list_lookup_middle by (rewrite length_app; simpl; lia). }
    simpl. rewrite El. simpl. rewrite E'. simpl.
    exists h', p. split; [done|]. split.
    + apply list_seg_app. exists (pos b 0). split; [done|]. apply (list_seg_frame h); [|done].
      intros x Hx. apply Hag. assert (k ∉ l :: b.*1) by (apply Hd; set_solver). set_solver.
    + apply (agree_mono [k]); [|done]. rewrite !fmap_app. set_solver.
Qed.
End RemoveNth.

(** ** reverse-linked-list-2.cc *)
Module ReverseBetween.

(** The locals of the loop. *)
Record locals := mk {
  mem : heap; xhead : ptr; xprev : ptr; ytail : ptr; yprev : ptr; cnt : Z; head : ptr }.

(** src/code/leetcode/reverse-linked-list-2.cc:27-41 [Solution::reverseBetween] *)
Definition round (m n : Z) (s : locals) : option (locals + locals) :=
  let '(mk h xhead xprev ytail yprev cnt head) := s in
  match head with
  | None => Some (inr s)
  | Some _ =>
      let cnt := cnt + 1 in
      nh ← load h head;
      if (m <=? cnt) && (cnt <=? n) then
        let ytail := match ytail with None => head | Some _ => ytail end in
        h ← set_next h head yprev;
        Some (inl (mk h xhead xprev ytail head cnt (next nh)))
      else if cnt <? m then
        let xhead := match xhead with None => head | Some _ => xhead end in
        Some (inl (mk h xhead head ytail yprev cnt (next nh)))
      else Some (inr (mk h xhead xprev ytail yprev cnt head))
  end.

(** src/code/leetcode/reverse-linked-list-2.cc:19-51 [Solution::reverseBetween] *)
Definition reverseBetween (m n : Z) (h : heap) (head : ptr) : option (heap * ptr) :=
  '(mk h xhead xprev ytail yprev _ head) ← loop (rounds h) (round m n) (mk h None None None None 0 head);
  '(h, res) ←
    if m =? 1 then Some (h, yprev)
    else h ← set_next h xprev yprev; Some (h, xhead);
  h ← set_next h ytail head;
  Some (h, res).

Definition firstp (xs : list (positive * Z)) : ptr := fst <$> hd_error xs.
Definition lastp (xs : list (positive * Z)) : ptr := fst <$> last xs.

Section loop.
Context (m n : Z).

(** Up to the m-th node the loop only walks. *)
Lemma walk a : forall fuel h d p q,
  size d + size a < m -> seg h p a q ->
  loop (length a + fuel) (round m n) (mk h (firstp d) (lastp d) None None (size d) p) =
  loop fuel (round m n) (mk h (firstp (d ++ a)) (lastp (d ++ a)) None None (size d + size a) q).
Proof.
  induction a as [|[l v] a IH]; intros fuel h d p q Hm Hs.
  - simpl in Hs. subst q. by rewrite app_nil_r, Z.add_0_r.
  - destruct Hs as (-> & k & El & Hs). simpl length in *. simpl plus. rewrite loop_S. simpl. rewrite El. simpl.
    zfalse ((m <=? size d + 1) && (size d + 1 <=? n)). ztrue (size d + 1 <? m). simpl mbind. cbv iota.
    specialize (IH fuel h (d ++ [(l, v)]) k q). rewrite <- (assoc_L (++)) in IH. simpl app in IH.
    rewrite length_app in IH. simpl length in IH.
    replace (size d + Z.of_nat (S (length a))) with (Z.of_nat (length d + 1) + size a) by lia.
    rewrite <- IH by (done || lia). do 2 f_equal; [|by unfold lastp; rewrite last_snoc|lia].
    by destruct d as [|[? ?] ?].
Qed.

(** From the m-th to the n-th each node is pushed on the reversed ones. *)
Lemma turn b : forall fuel h d p c i xh xp yp,
  m <= i + 1 -> i + size b <= n -> chain h p (b ++ c) -> chain h yp d ->
  (forall l, l ∈ d.*1 -> l ∉ (b ++ c).*1) ->
  exists h' yp' q, loop (length b + fuel) (round m n) (mk h xh xp (lastp d) yp i p) =
    loop fuel (round m n) (mk h' xh xp (lastp (reverse b ++ d)) yp' (i + size b) q) /\
    chain h' yp' (reverse b ++ d) /\ chain h' q c /\ agree b.*1 h h'.
Proof.
  induction b as [|[l v] b IH]; intros fuel h d p c i xh xp yp Hm Hn Hc Hd Hdis.
  - exists h, yp, p. rewrite Z.add_0_r. by split_and!.
  - pose proof (chain_NoDup _ _ _ Hc) as [Hl Hnd]%NoDup_cons.
    destruct Hc as (-> & k & El & Hc). simpl length in *. simpl plus. rewrite loop_S. simpl. rewrite El. simpl.
    ztrue ((m <=? i + 1) && (i + 1 <=? n)). rewrite (set_next_ok _ _ _ _ _ El). simpl.
    set (h1 := <[l := mk_ListNode v yp]> h). simpl in Hdis.
    destruct (IH fuel h1 ((l, v) :: d) k c (i + 1) xh xp (Some l)) as (h' & yp' & q & E & Hy & Hq & Ha);
      [lia|lia|by apply seg_insert| | |].
    + split; [done|]. exists yp. split; [apply lookup_insert_eq|]. apply seg_insert; [|done]. set_solver.
    + simpl. set_solver.
    + exists h', yp', q. rewrite reverse_cons, <- (assoc_L (++)). simpl app. split_and!; [|done|done|].
      * replace (i + Z.of_nat (S (length b))) with (i + 1 + size b) by lia. rewrite <- E. do 2 f_equal.
        unfold lastp. rewrite last_cons. by destruct (last d) as [[? ?]|].
      * apply (agree_trans _ _ h1); [by apply agree_insert; left|].
        revert Ha. apply agree_mono. simpl. set_solver.
Qed.
End loop.

(** reverseBetween reverses the m-th to the n-th node and keeps the others. *)
Lemma reverseBetween_turns m n a b c :
  b ≠ [] -> m = size a + 1 -> n = size a + size b ->
  turns (reverseBetween m n) (a ++ b ++ c) (a ++ reverse b ++ c).
Proof.
  intros Hb Hm Hn h p Hc. pose proof (chain_rounds _ _ _ Hc) as Hr. pose proof (chain_NoDup _ _ _ Hc) as Hnd.
  rewrite !fmap_app in Hnd. apply NoDup_app in Hnd as (Hda & Hab & (Hdb & Hbc & _)%NoDup_app).
  rewrite !length_app in Hr. unfold reverseBetween.
  replace (rounds h) with (length a + (length b + (1 + (rounds h - length a - length b - 1))))%nat by lia.
  generalize (rounds h - length a - length b - 1)%nat as fuel. intros fuel.
  apply list_seg_app in Hc as (q & Ha & Hc).
  pose proof (walk m n a (length b + (1 + fuel)) h [] p q ltac:(simpl; lia) Ha) as E1. simpl app in E1.
  change (firstp []) with (@None positive) in E1. change (lastp []) with (@None positive) in E1.
  change (size []) with 0 in E1. rewrite E1. clear E1.
  destruct (turn m n b (1 + fuel) h [] q c (0 + size a) (firstp a) (lastp a) None)
    as (h1 & yp & r & E2 & Hy & Hr1 & Ha1); [lia|lia|done|done|set_solver|].
  change (lastp []) with (@None positive) in E2. rewrite E2. clear E2. rewrite app_nil_r in Hy |- *.
  assert (loop (1 + fuel) (round m n) (mk h1 (firstp a) (lastp a) (lastp (reverse b)) yp (0 + size a + size b) r) =
    Some (mk h1 (firstp a) (lastp a) (lastp (reverse b)) yp
      (0 + size a + size b + if r then 1 else 0) r)) as ->.
  { rewrite loop_S. simpl. destruct c as [|[l v] c]; [simpl in Hr1; subst r; by rewrite Z.add_0_r|].
    destruct Hr1 as (-> & k & El & _). simpl. rewrite El. simpl.
    zfalse ((m <=? 0 + size a + size b + 1) && (0 + size a + size b + 1 <=? n)).
    by zfalse (0 + size a + size b + 1 <? m). }
  simpl mbind. cbv beta iota.
  assert (exists h2 res, (if m =? 1 then Some (h1, yp) else h ← set_next h1 (lastp a) yp; Some (h, firstp a)) = Some (h2, res) /\
    seg h2 res a yp /\ chain h2 yp (reverse b) /\ chain h2 r c /\ agree (a.*1 ++ b.*1) h h2) as (h2 & res & -> & Ha2 & Hy2 & Hr2 & Hag).
  { assert (forall x, x ∈ a.*1 ++ c.*1 -> h1 !! x = h !! x) as Hx by (intros x ?; apply Ha1; set_solver).
    assert (seg h1 p a q) as Hs1 by (apply (list_seg_frame h); [set_solver|done]).
    destruct a as [|[k w] a _] using rev_ind.
    - simpl in Hm. ztrue (m =? 1). by exists h1, yp.
    - rewrite length_app in Hm. simpl in Hm. zfalse (m =? 1). rewrite !fmap_app in Hda, Hab |- *.
      apply NoDup_app in Hda as (_ & Hk & _). simpl in Hk, Hab.
      destruct (tip_link _ _ _ _ _ yp (seg_tip _ _ _ _ _ _ Hs1 ltac:(set_solver))) as (h2 & E2 & Hs2 & Ha2).
      unfold lastp. rewrite last_snoc. simpl. rewrite E2. simpl. exists h2, (firstp (a ++ [(k, w)])). split; [done|].
      split_and!.
      + replace (firstp _) with p; [done|]. destruct a as [|[? ?] ?]; by destruct Hs1 as [-> _].
      + apply (list_seg_frame h1); [|done]. intros x Hin. apply Ha2. rewrite fmap_reverse in Hin. set_solver.
      + apply (list_seg_frame h1); [|done]. intros x Hin. apply Ha2. set_solver.
      + apply (agree_trans _ _ h1); [revert Ha1; apply agree_mono; set_solver|].
        revert Ha2. apply agree_mono. set_solver. }
  simpl mbind. destruct (reverse b) as [|[t u] b' _] eqn:Eb using rev_ind.
  { apply (f_equal reverse) in Eb. by rewrite reverse_involutive in Eb. }
  assert (forall x, x ∈ b'.*1 ++ [t] <-> x ∈ b.*1) as Hbx.
  { intros x. rewrite <- (reverse_involutive b), Eb, fmap_reverse, fmap_app. set_solver. }
  assert (t ∉ b'.*1) as Ht.
  { rewrite <- (reverse_Permutation b), Eb, fmap_app in Hdb. apply NoDup_app in Hdb as (_ & Ht & _).
    intros ?. apply (Ht t); [done|left]. }
  unfold lastp at 1. rewrite last_snoc.
  destruct (tip_link _ _ _ _ _ r (seg_tip _ _ _ _ _ _ Hy2 Ht)) as (h3 & E3 & Hs3 & Ha3).
  simpl. rewrite E3. simpl. exists h3, res. split; [done|]. split.
  - apply list_seg_app. exists yp. split; [|apply list_seg_app; exists r; split; [done|]].
    + apply (list_seg_frame h2); [|done]. intros x Hx. apply Ha3. set_solver.
    + apply (list_seg_frame h2); [|done]. intros x Hx. apply Ha3. set_solver.
  - rewrite !fmap_app. apply (agree_trans _ _ h2); [revert Hag; apply agree_mono; set_solver|].
    revert Ha3. apply agree_mono. set_solver.
Qed.

(** reverseBetween reverses exactly the m-th to the n-th node of a list, in
    place: the nodes before and after them, and all of the rest of the memory,
    stay as they are. *)
Theorem reverseBetween_reverses m n h p xs :
  chain h p xs -> 1 <= m <= n -> n <= size xs ->
  exists h' p', reverseBetween m n h p = Some (h', p') /\
    chain h' p' (take (Z.to_nat (m - 1)) xs ++
      reverse (drop (Z.to_nat (m - 1)) (take (Z.to_nat n) xs)) ++ drop (Z.to_nat n) xs) /\
    agree xs.*1 h h'.
Proof.
  intros Hc Hm Hn. set (a := take (Z.to_nat (m - 1)) xs).
  set (b := drop (Z.to_nat (m - 1)) (take (Z.to_nat n) xs)). set (c := drop (Z.to_nat n) xs).
  assert (xs = a ++ b ++ c) as E.
  { unfold a, b, c. rewrite (assoc_L (++)). rewrite <- (take_drop (Z.to_nat n) xs) at 1. f_equal.
    rewrite <- (take_drop (Z.to_nat (m - 1)) (take (Z.to_nat n) xs)) at 1. f_equal. rewrite take_take. f_equal. lia. }
  assert (length a = Z.to_nat (m - 1)) as Ea by (unfold a; rewrite length_take; lia).
  assert (length b = Z.to_nat n - Z.to_nat (m - 1))%nat as Eb by (unfold b; rewrite length_drop, length_take; lia).
  assert (b ≠ []) as Hb by (intros ->; simpl in Eb; lia).
  revert Hc. rewrite E. intros Hc. apply (reverseBetween_turns m n a b c); [done|lia|lia|done].
Qed.

Lemma reverseBetween_reverses_witness :
  let h := sample in let xs := [(1%positive, 7); (2%positive, 8); (3%positive, 9)] in
  chain h (Some 1%positive) xs /\ 1 <= 1 <= 2 /\ 2 <= size xs /\
  exists h' p', reverseBetween 1 2 h (Some 1%positive) = Some (h', p') /\
    chain h' p' (take (Z.to_nat (1 - 1)) xs ++
      reverse (drop (Z.to_nat (1 - 1)) (take (Z.to_nat 2) xs)) ++ drop (Z.to_nat 2) xs) /\
    agree xs.*1 h h'.
Proof.
  intros h xs. assert (chain h (Some 1%positive) xs) as Hc by apply sample_chain.
  split; [done|]. split; [lia|]. split; [simpl; lia|].
  apply (reverseBetween_reverses 1 2 h (Some 1%positive) xs); [done|lia|simpl; lia].
Defined.

End ReverseBetween.

(** ** remove-duplicates-from-sorted-list-2.cc *)
Module Singles.

(** src/code/leetcode/remove-duplicates-from-sorted-list-2.cc:33-38 [Solution::deleteDuplicates] *)
Definition emit (h : heap) (xhead xprev head : ptr) : option (heap * ptr * ptr) :=
  let xhead := match xhead with None => head | Some _ => xhead end in
  h ← match xprev with None => Some h | Some _ => set_next h xprev head end;
  let xprev := head in
  h ← set_next h xprev None;
  Some (h, xhead, xprev).

(** src/code/leetcode/remove-duplicates-from-sorted-list-2.cc:26-43 [Solution::deleteDuplicates] *)
Definition round '((h, xhead, xprev, dup, head) : heap * ptr * ptr * bool * ptr) :
    option (heap * ptr * ptr * bool * ptr + heap * ptr * ptr * bool * ptr) :=
  nh ← load h head;
  match next nh with
  | None => Some (inr (h, xhead, xprev, dup, head))
  | Some _ =>
      nn ← load h (next nh);
      if val nh =? val nn then Some (inl (h, xhead, xprev, true, next nh))
      else
        '(h, xhead, xprev) ← if negb dup then emit h xhead xprev head else Some (h, xhead, xprev);
        Some (inl (h, xhead, xprev, false, next nh))
  end.

(** src/code/leetcode/remove-duplicates-from-sorted-list-2.cc:20-53 [Solution::deleteDuplicates] *)
Definition deleteDuplicates (h : heap) (head : ptr) : option (heap * ptr) :=
  match head with
  | None => Some (h, None)
  | Some _ =>
      '(h, xhead, xprev, dup, head) ← loop (rounds h) round (h, None, None, false, head);
      '(h, xhead, _) ← if negb dup then emit h xhead xprev head else Some (h, xhead, xprev);
      Some (h, xhead)
  end.

(** The runs of one node; [dup] tells that [x] repeats the node before it. *)
Fixpoint runs (dup : bool) (x : positive * Z) (xs : list (positive * Z)) : list (positive * Z) :=
  match xs with
  | [] => if dup then [] else [x]
  | y :: xs => if x.2 =? y.2 then runs true y xs else (if dup then [] else [x]) ++ runs false y xs
  end.
Definition singles (xs : list (positive * Z)) : list (positive * Z) :=
  match xs with [] => [] | x :: xs => runs false x xs end.

Lemma emit_spec h xhead xprev ys l v n :
  built h xhead xprev ys -> h !! l = Some (mk_ListNode v n) -> l ∉ ys.*1 ->
  exists h' xhead', emit h xhead xprev (Some l) = Some (h', xhead', Some l) /\
    built h' xhead' (Some l) (ys ++ [(l, v)]) /\ chain h' xhead' (ys ++ [(l, v)]) /\
    agree (l :: ys.*1) h h'.
Proof.
  intros Hb Hl Hn. destruct (built_link _ _ _ _ _ _ _ Hb Hl Hn) as (h1 & res & E & Hb1 & Ha1).
  assert (h1 !! l = Some (mk_ListNode v n)) as Hl1 by (by rewrite Ha1).
  destruct (built_finish _ _ _ _ Hb1) as (h2 & E2 & Hc2 & Ha2). simpl in E2.
  exists h2, res. split_and!.
  - unfold emit, link in *. destruct xprev as [k|]; simpl in Hb.
    + destruct (set_next h (Some k) (Some l)) as [h1'|]; [|done]. simpl in E |- *. injection E as -> <-.
      rewrite E2. simpl. destruct Hb as (zs & w & _ & Hs & _).
      by destruct xhead as [?|]; [|destruct zs as [|[? ?] ?]; [|destruct Hs]].
    + injection E as <- <-. destruct Hb as [-> _]. simpl. by rewrite E2.
  - exists ys, v. split; [done|]. apply (seg_tip _ _ _ _ _ None); [done|done].
  - done.
  - apply (agree_trans _ _ h1); [revert Ha1; apply agree_mono; set_solver|].
    revert Ha2. apply agree_mono. rewrite fmap_app. set_solver.
Qed.

Lemma singles_round_spec xs : forall fuel h xhead xprev dup l v head ys,
  (length xs < fuel)%nat -> chain h head ((l, v) :: xs) -> built h xhead xprev ys -> chain h xhead ys ->
  (forall x, x ∈ ys.*1 -> x ∉ l :: xs.*1) ->
  exists h', (
    '(h, xhead, xprev, dup, head) ← loop fuel round (h, xhead, xprev, dup, head);
    '(h, xhead, _) ← if negb dup then emit h xhead xprev head else Some (h, xhead, xprev);
    Some (h, xhead)) = Some h' /\ chain h'.1 h'.2 (ys ++ runs dup (l, v) xs) /\
    agree (ys.*1 ++ l :: xs.*1) h h'.1.
Proof.
  induction xs as [|[m w] xs IH]; intros fuel h xhead xprev dup l v head ys Hf Hc Hb Hy Hd;
    (destruct fuel as [|fuel]; [simpl in Hf; lia|]); rewrite loop_S;
    pose proof (chain_NoDup _ _ _ Hc) as [Hl Hnd]%NoDup_cons; destruct Hc as (-> & k & El & Hc).
  - simpl in Hc. subst k. simpl. rewrite El. simpl. destruct dup; simpl.
    + exists (h, xhead). by rewrite app_nil_r.
    + destruct (emit_spec _ _ _ _ _ _ _ Hb El) as (h' & xh & E & Hb' & Hc' & Ha); [set_solver|].
      rewrite E. exists (h', xh). split; [done|]. split; [done|]. revert Ha. apply agree_mono. set_solver.
  - pose proof Hc as (-> & k' & Em & Hc'). simpl. rewrite El. simpl. rewrite Em. simpl. simpl in Hd, Hl.
    destruct (v =? w).
    { destruct (IH fuel h xhead xprev true m w (Some m) ys) as (h' & E & Hs & Ha);
        [simpl in Hf; lia|done..|set_solver|]. simpl in E.
      exists h'. split; [done|]. split; [done|]. revert Ha. apply agree_mono. set_solver. }
    destruct dup; simpl.
    + destruct (IH fuel h xhead xprev false m w (Some m) ys) as (h' & E & Hs & Ha);
        [simpl in Hf; lia|done..|set_solver|]. simpl in E.
      exists h'. split; [done|]. split; [done|]. revert Ha. apply agree_mono. set_solver.
    + destruct (emit_spec _ _ _ _ _ _ _ Hb El) as (h1 & xh & E1 & Hb1 & Hc1 & Ha1); [set_solver|].
      rewrite E1. simpl.
      destruct (IH fuel h1 xh (Some l) false m w (Some m) (ys ++ [(l, v)])) as (h' & E & Hs & Ha);
        [simpl in Hf; lia| |done|done|rewrite fmap_app; set_solver|].
      { apply (list_seg_frame h); [|done]. intros x Hx. apply Ha1. set_solver. }
      simpl in E. exists h'. split; [done|]. rewrite <- (assoc_L (++)) in Hs. split; [done|].
      apply (agree_trans _ _ h1); [revert Ha1; apply agree_mono; set_solver|].
      revert Ha. apply agree_mono. rewrite fmap_app. set_solver.
Qed.

(** deleteDuplicates of the second exercise keeps the nodes without a double. *)
Lemma singles_turns xs : turns deleteDuplicates xs (singles xs).
Proof.
  intros h p Hc. pose proof (chain_rounds _ _ _ Hc). unfold deleteDuplicates.
  destruct xs as [|[l v] xs]; [simpl in Hc; subst p; by exists h, None|].
  destruct (singles_round_spec xs (rounds h) h None None false l v p []) as ([h' p'] & E & Hs & Ha);
    [simpl in *; lia|done|done|done|set_solver|].
  pose proof Hc as [-> _]. by exists h', p'.
Qed.
Definition occurs (v : Z) (xs : list (positive * Z)) : nat := length (filter (fun x => x.2 = v) xs).

Lemma occurs_cons v x xs : occurs v (x :: xs) = ((if decide (x.2 = v) then 1 else 0) + occurs v xs)%nat.
Proof. unfold occurs. rewrite filter_cons. by case_decide. Qed.

Lemma occurs_below v xs : Forall (fun w => v < w) xs.*2 -> occurs v xs = 0%nat.
Proof.
  induction xs as [|x xs IH]; [done|]. intros [Hx Hs]%Forall_cons. rewrite occurs_cons, IH by done.
  rewrite decide_False by lia. done.
Qed.

Lemma filter_iff {A} (P Q : A -> Prop) `{forall x, Decision (P x), forall x, Decision (Q x)} (xs : list A) :
  (forall x, x ∈ xs -> P x <-> Q x) -> filter P xs = filter Q xs.
Proof.
  intros Hx. induction xs as [|x xs IH]; [done|]. rewrite !filter_cons, IH by (intros; apply Hx; by right).
  specialize (Hx x ltac:(left)). repeat case_decide; tauto.
Qed.

Lemma occurs_in x xs : x ∈ xs -> (1 <= occurs x.2 xs)%nat.
Proof.
  induction 1 as [x xs|x y xs _ IH]; rewrite occurs_cons; [rewrite decide_True by done; lia|lia].
Qed.

Definition extra (dup : bool) (x y : positive * Z) : nat := if dup then if decide (y.2 = x.2) then 1 else 0 else 0.

Lemma runs_once dup x xs :
  StronglySorted Z.le (x.2 :: xs.*2) ->
  runs dup x xs = filter (fun y => (occurs y.2 (x :: xs) + extra dup x y = 1)%nat) (x :: xs).
Proof.
  revert dup x. induction xs as [|y xs IH]; intros dup x Hs.
  - rewrite filter_cons, filter_nil, occurs_cons. unfold extra. rewrite !(decide_True (P := x.2 = x.2)) by done. by destruct dup.
  - apply StronglySorted_inv in Hs as [Hs Hf]. simpl in Hs, Hf. simpl. rewrite (filter_cons _ x).
    destruct (Z.eqb_spec x.2 y.2) as [E|E].
    + rewrite (IH true y Hs). rewrite (occurs_cons _ x), (occurs_cons _ y), (decide_True (P := x.2 = x.2)), (decide_True (P := y.2 = x.2)) by done.
      rewrite decide_False by lia. apply filter_iff. intros z Hz%occurs_in.
      rewrite (occurs_cons _ x). unfold extra. rewrite E. destruct dup; repeat case_decide; lia.
    + rewrite (IH false y Hs). apply Forall_cons in Hf as [Hy Hf].
      assert (Forall (fun w => x.2 < w) (y :: xs).*2) as Hlt.
      { constructor; [lia|]. apply StronglySorted_inv in Hs as [_ Hs]. eapply Forall_impl; [exact Hs|]. intros. simpl in *. lia. }
      rewrite (occurs_cons _ x), (decide_True (P := x.2 = x.2)), (occurs_below _ _ Hlt) by done.
      replace (extra dup x x) with (if dup then 1 else 0)%nat by (unfold extra; by rewrite decide_True).
      assert (filter (fun z => (occurs z.2 (y :: xs) + extra false y z = 1)%nat) (y :: xs) =
        filter (fun z => (occurs z.2 (x :: y :: xs) + extra dup x z = 1)%nat) (y :: xs)) as ->.
      { apply filter_iff. intros z Hz. rewrite (occurs_cons _ x). unfold extra.
        assert (x.2 < z.2) by (rewrite Forall_forall in Hlt; apply Hlt; apply list_elem_of_fmap; by exists z).
        rewrite !decide_False by lia. by destruct dup. }
      by destruct dup.
Qed.

(** Of a sorted list it leaves the nodes whose value no other node has. *)
Lemma singles_sorted h p xs :
  chain h p xs -> sorted xs ->
  exists h' p', deleteDuplicates h p = Some (h', p') /\
    chain h' p' (filter (fun x => occurs x.2 xs = 1%nat) xs).
Proof.
  intros Hc Hs. destruct (singles_turns xs h p Hc) as (h' & p' & E & Hc' & _).
  exists h', p'. split; [done|]. replace (filter _ xs) with (singles xs); [done|].
  destruct xs as [|x xs]; [done|]. unfold singles. rewrite runs_once by done.
  apply filter_iff. intros y _. unfold extra. by rewrite Nat.add_0_r.
Qed.

End Singles.

(** ** add-two-numbers.cc *)
Module AddTwo.

(** src/code/leetcode/add-two-numbers.cc:30-43 [Solution::addTwoNumbers] *)
Definition carry (v : Z) : Z * Z := if 10 <=? v then (1, v - 10) else (0, v).

Record pair_locals := mk2 { mem2 : heap; head2 : ptr; prev2 : ptr; b2 : Z; l1_ : ptr; l2_ : ptr }.
Record rest_locals := mk1 { mem1 : heap; prev1 : ptr; b1 : Z; n_ : ptr }.

(** src/code/leetcode/add-two-numbers.cc:29-46 [Solution::addTwoNumbers] *)
Definition both (s : pair_locals) : option (pair_locals + pair_locals) :=
  let '(mk2 h head prev b l1 l2) := s in
  match l1, l2 with
  | Some _, Some _ =>
      n1 ← load h l1; n2 ← load h l2;
      v ← chk32 (val n1 + val n2); v ← chk32 (v + b);
      let '(b, v) := carry v in
      let '(h, t) := new h v in
      '(h, head) ← link h head prev t;
      n1 ← load h l1; n2 ← load h l2;
      Some (inl (mk2 h head t b (next n1) (next n2)))
  | _, _ => Some (inr s)
  end.

(** src/code/leetcode/add-two-numbers.cc:49-61 [Solution::addTwoNumbers] *)
Definition one (s : rest_locals) : option (rest_locals + rest_locals) :=
  let '(mk1 h prev b n) := s in
  match n with
  | None => Some (inr s)
  | Some _ =>
      nn ← load h n;
      v ← chk32 (val nn + b);
      let '(b, v) := carry v in
      let '(h, t) := new h v in
      h ← set_next h prev t;
      nn ← load h n;
      Some (inl (mk1 h t b (next nn)))
  end.

(** src/code/leetcode/add-two-numbers.cc:20-69 [Solution::addTwoNumbers] *)
Definition addTwoNumbers (h : heap) (l1 l2 : ptr) : option (heap * ptr) :=
  match l1, l2 with
  | None, None => Some (h, None)
  | None, _ => Some (h, l2)
  | _, None => Some (h, l1)
  | _, _ =>
      '(mk2 h head prev b l1 l2) ← loop (rounds h) both (mk2 h None None 0 l1 l2);
      let n := match l1 with None => l2 | Some _ => l1 end in
      '(mk1 h prev b _) ← loop (rounds h) one (mk1 h prev b n);
      if negb (b =? 0) then
        let '(h, t) := new h b in
        h ← set_next h prev t;
        Some (h, head)
      else Some (h, head)
  end.

(** The number the digits stand for, the least one first. *)
Definition num (xs : list (positive * Z)) : Z := foldr (fun x n => x.2 + 10 * n) 0 xs.
Definition digits (xs : list (positive * Z)) : Prop := Forall (fun x => 0 <= x.2 <= 9) xs.

Lemma num_app xs ys : num (xs ++ ys) = num xs + 10 ^ size xs * num ys.
Proof.
  induction xs as [|x xs IH]; [simpl; lia|]. change (num ((x :: xs) ++ ys)) with (x.2 + 10 * num (xs ++ ys)).
  change (num (x :: xs)) with (x.2 + 10 * num xs). rewrite IH. simpl length.
  rewrite Nat2Z.inj_succ, Z.pow_succ_r by lia. ring.
Qed.

Lemma seg_subseteq h h' p xs e : h ⊆ h' -> seg h p xs e -> seg h' p xs e.
Proof.
  intros Hh. revert p. induction xs as [|[l v] xs IH]; intros p; simpl; [done|].
  intros (-> & n & Hl & Hs). split; [done|]. exists n. split; [by apply (lookup_weaken h)|auto].
Qed.

Section from.
Context (h0 : heap).

(** What has been built lies outside of the first heap, which is unchanged. *)
Definition apart (h : heap) (res prev : ptr) (zs : list (positive * Z)) : Prop :=
  h0 ⊆ h /\ built h res prev zs /\ chain h res zs /\ forall l, l ∈ zs.*1 -> h0 !! l = None.

Lemma apart_start : apart h0 None None [].
Proof. split; [done|]. split; [done|]. split; [done|]. by intros l ?%not_elem_of_nil. Qed.

Lemma append_new h res prev zs v :
  apart h res prev zs ->
  exists h1 h' t res', new h v = (h1, Some t) /\ link h1 res prev (Some t) = Some (h', res') /\
    apart h' res' (Some t) (zs ++ [(t, v)]).
Proof.
  intros (Hh & Hb & Hc & Hz). unfold new. set (t := fresh (dom h)).
  assert (h !! t = None) as Ht by (apply not_elem_of_dom, is_fresh).
  assert (t ∉ zs.*1) as Hn.
  { intros Hin. destruct (built_dom _ _ _ _ _ Hb Hin) as [? E]. by rewrite Ht in E. }
  destruct (built_link (<[t := mk_ListNode v None]> h) res prev zs t v None) as (h' & res' & E & Hb' & Ha);
    [|apply lookup_insert_eq|done|].
  { apply (built_frame [t] h); [apply agree_insert; left| |done]. set_solver. }
  eexists _, h', t, res'. split; [done|]. split; [done|].
  split; [|split; [done|split]].
  - apply map_subseteq_spec. intros l n Hl. rewrite Ha; [|intros ?%Hz; by rewrite Hl in H].
    rewrite lookup_insert_ne; [by apply (lookup_weaken h0)|]. intros <-.
    by rewrite (lookup_weaken _ _ _ _ Hl Hh) in Ht.
  - destruct Hb' as (zs' & w & [<- [= <-]]%app_inj_tail & Hs & _). apply list_seg_app. exists (Some t).
    split; [done|]. split; [done|]. exists None. split; [|done]. rewrite Ha by done. apply lookup_insert_eq.
  - intros l. rewrite fmap_app. intros [?|Hl]%elem_of_app; [by apply Hz|].
    apply list_elem_of_singleton in Hl as ->. simpl.
    destruct (h0 !! t) eqn:El; [|done]. by rewrite (lookup_weaken _ _ _ _ El Hh) in Ht.
Qed.

Lemma carry_spec v : 0 <= v <= 19 -> exists b d, carry v = (b, d) /\ 0 <= b <= 1 /\ 0 <= d <= 9 /\ v = d + 10 * b.
Proof. intros Hv. unfold carry. case_bool; eexists _, _; (split; [done|]); zbool; lia. Qed.

Lemma digits_snoc zs (t : positive) d : digits zs -> 0 <= d <= 9 -> digits (zs ++ [(t, d)]).
Proof. intros Hz Hd. apply Forall_app. split; [done|]. by apply Forall_singleton. Qed.

Lemma num_snoc zs (t : positive) d : num (zs ++ [(t, d)]) = num zs + 10 ^ size zs * d.
Proof. rewrite num_app. simpl. ring. Qed.

Lemma pow_snoc {A} (zs : list A) z : 10 ^ size (zs ++ [z]) = 10 * 10 ^ size zs.
Proof. rewrite length_app, Nat2Z.inj_add, Z.pow_add_r by lia. change (10 ^ size [z]) with 10. ring. Qed.

(** Rounds over both numbers: what is built, the carry and what is left add up. *)
Lemma both_spec k : forall xs ys fuel h res prev b l1 l2 zs,
  (length xs <= k)%nat -> (k < fuel)%nat -> apart h res prev zs -> digits zs -> 0 <= b <= 1 ->
  chain h0 l1 xs -> chain h0 l2 ys -> digits xs -> digits ys ->
  exists h' res' prev' b' l1' l2' xs' ys' zs',
    loop fuel both (mk2 h res prev b l1 l2) = Some (mk2 h' res' prev' b' l1' l2') /\
    apart h' res' prev' zs' /\ digits zs' /\ 0 <= b' <= 1 /\
    chain h0 l1' xs' /\ chain h0 l2' ys' /\ digits xs' /\ digits ys' /\ (xs' = [] \/ ys' = []) /\
    num zs' + 10 ^ size zs' * (b' + num xs' + num ys') = num zs + 10 ^ size zs * (b + num xs + num ys) /\
    (length xs' + length ys' <= length xs + length ys)%nat
    /\ (length zs + Nat.min (length xs) (length ys) <= length zs')%nat.
Proof.
  induction k as [|k IH]; intros xs ys fuel h res prev b l1 l2 zs Hk Hf Hp Hz Hb H1 H2 Hx Hy;
    (destruct fuel as [|fuel]; [lia|]); rewrite loop_S.
  all: destruct (decide (xs = [] \/ ys = [])) as [He|He].
  1, 3: exists h, res, prev, b, l1, l2, xs, ys, zs;
    split; [|by repeat (split; [done|]); destruct He as [-> | ->]; simpl; lia];
    destruct He as [-> | ->]; [simpl in H1; subst l1|simpl in H2; subst l2; destruct l1]; done.
  all: destruct xs as [|[m1 v1] xs]; [destruct He; by left|].
  all: destruct ys as [|[m2 v2] ys]; [destruct He; by right|].
  { simpl in Hk. lia. }
  pose proof Hp as (Hh & _). destruct H1 as (-> & n1 & E1 & H1), H2 as (-> & n2 & E2 & H2). simpl.
  rewrite (lookup_weaken _ _ _ _ E1 Hh), (lookup_weaken _ _ _ _ E2 Hh). simpl mbind.
  apply Forall_cons in Hx as [Hv1 Hx], Hy as [Hv2 Hy]. simpl in Hv1, Hv2.
  rewrite chk32_ok by lia. simpl mbind. rewrite chk32_ok by lia. simpl mbind.
  destruct (carry_spec (v1 + v2 + b)) as (b' & d & -> & Hb' & Hd & Hv); [lia|].
  destruct (append_new h res prev zs d Hp) as (h1 & h' & t & res' & E3 & E4 & Hp').
  unfold new in E3. injection E3 as -> ->. cbv beta iota. rewrite E4. simpl mbind.
  pose proof Hp' as (Hh' & _).
  rewrite (lookup_weaken _ _ _ _ E1 Hh'), (lookup_weaken _ _ _ _ E2 Hh'). simpl mbind.
  destruct (IH xs ys fuel h' res' (Some t) b' n1 n2 (zs ++ [(t, d)])) as
    (h2 & res2 & prev2 & b2 & l1' & l2' & xs' & ys' & zs' & E & ? & ? & ? & ? & ? & ? & ? & ? & Hn & Hl & Hne);
    [simpl in *; lia|lia|done|by apply digits_snoc|done..|].
  exists h2, res2, prev2, b2, l1', l2', xs', ys', zs'. repeat (split; [done|]). split_and!.
  - rewrite Hn, num_snoc, pow_snoc.
    change (num ((m1, v1) :: xs)) with (v1 + 10 * num xs). change (num ((m2, v2) :: ys)) with (v2 + 10 * num ys).
    replace v1 with (d + 10 * b' - v2 - b) by lia. ring.
  - simpl. lia.
  - rewrite length_app in Hne. simpl in Hne |- *. lia.
Qed.

(** Rounds over what is left of one of them. *)
Lemma one_spec xs : forall fuel h res k b n zs,
  (length xs < fuel)%nat -> apart h res (Some k) zs -> digits zs -> 0 <= b <= 1 -> chain h0 n xs -> digits xs ->
  exists h' k' b' zs', loop fuel one (mk1 h (Some k) b n) = Some (mk1 h' (Some k') b' None) /\
    apart h' res (Some k') zs' /\ digits zs' /\ 0 <= b' <= 1 /\
    num zs' + 10 ^ size zs' * b' = num zs + 10 ^ size zs * (b + num xs).
Proof.
  induction xs as [|[m v] xs IH]; intros fuel h res k b n zs Hf Hp Hz Hb Hc Hx;
    (destruct fuel as [|fuel]; [simpl in Hf; lia|]); rewrite loop_S.
  - simpl in Hc. subst n. exists h, k, b, zs. rewrite Z.add_0_r. by repeat (split; [done|]).
  - pose proof Hp as (Hh & _). destruct Hc as (-> & n' & El & Hc). apply Forall_cons in Hx as [Hv Hx]. simpl in Hv.
    simpl. rewrite (lookup_weaken _ _ _ _ El Hh). simpl mbind. rewrite chk32_ok by lia. simpl mbind.
    destruct (carry_spec (v + b)) as (b' & d & -> & Hb' & Hd & E); [lia|].
    destruct (append_new h res (Some k) zs d Hp) as (h1 & h' & t & res' & E3 & E4 & Hp').
    unfold new in E3. injection E3 as -> ->. cbv beta iota. unfold link in E4.
    destruct (set_next h1 (Some k) (Some t)) as [h2|]; [|done]. simpl in E4. injection E4 as -> <-. simpl mbind.
    pose proof Hp' as (Hh' & _). rewrite (lookup_weaken _ _ _ _ El Hh'). simpl mbind.
    destruct (IH fuel h' res t b' n' (zs ++ [(t, d)])) as (h2 & k' & b2 & zs' & E2 & ? & ? & ? & Hn);
      [simpl in Hf; lia|done|by apply digits_snoc|done..|].
    exists h2, k', b2, zs'. repeat (split; [done|]). rewrite Hn, num_snoc, pow_snoc.
    change (num ((m, v) :: xs)) with (v + 10 * num xs). replace v with (d + 10 * b' - b) by lia. ring.
Qed.
End from.

(** The sum, for numbers of any length: it is built of new nodes, and both
    numbers stay as they are. *)
Lemma addTwoNumbers_spec h l1 l2 xs ys :
  chain h l1 xs -> chain h l2 ys -> digits xs -> digits ys ->
  exists h' p zs, addTwoNumbers h l1 l2 = Some (h', p) /\ chain h' p zs /\ digits zs /\
    num zs = num xs + num ys /\ h ⊆ h'.
Proof.
  intros H1 H2 Hx Hy. pose proof (chain_rounds _ _ _ H1) as Hr1. pose proof (chain_rounds _ _ _ H2) as Hr2.
  destruct xs as [|x xs]; [simpl in H1; subst l1; destruct l2; by eexists h, _, ys|].
  destruct ys as [|y ys]; [simpl in H2; subst l2; destruct l1; eexists h, _, (x :: xs); rewrite Z.add_0_r; by split_and!|].
  destruct x as [m1 v1], y as [m2 v2]. unfold addTwoNumbers. pose proof H1 as (-> & _). pose proof H2 as (-> & _).
  destruct (both_spec h (length ((m1, v1) :: xs)) ((m1, v1) :: xs) ((m2, v2) :: ys) (rounds h) h None None 0 (Some m1) (Some m2) [])
    as (h1 & res & prev & b & p1 & p2 & xs' & ys' & zs & E & Hp & Hz & Hb & Hc1 & Hc2 & Hx' & Hy' & He & Hn & _ & Hl);
    [|simpl in *; lia|by apply apart_start|by constructor| |exact H1|exact H2|done|done|]; [lia..|].
  rewrite E. simpl mbind. clear E.
  assert (exists rest, chain h (match p1 with Some _ => p1 | None => p2 end) rest /\ digits rest /\
    num rest = num xs' + num ys') as (rest & Hc & Hd & Er).
  { destruct He as [-> | ->]; [simpl in Hc1; subst p1; by exists ys'|].
    exists xs'. simpl in Hc2. subst p2. rewrite Z.add_0_r. by destruct p1. }
  pose proof (chain_rounds _ _ _ (seg_subseteq _ _ _ _ _ (proj1 Hp) Hc)) as Hr.
  destruct prev as [k|]; [|destruct Hp as (_ & [_ ->] & _); simpl in Hl; lia].
  destruct (one_spec h rest (rounds h1) h1 res k b (match p1 with Some _ => p1 | None => p2 end) zs) as (h2 & k' & b' & zs' & E & Hp' & Hz' & Hb' & Hn');
    [lia|done..|].
  rewrite E. simpl mbind. destruct (Z.eqb_spec b' 0) as [->|Hb0]; simpl.
  - destruct Hp' as (? & _ & ? & _). exists h2, res, zs'. split_and!; [done..| |done]. simpl in Hn. nia.
  - assert (b' = 1) as -> by lia. destruct (append_new h h2 res (Some k') zs' 1 Hp') as (h3 & h4 & t & res' & E3 & E4 & Hp4).
    unfold new in E3. injection E3 as -> ->. unfold link in E4.
    destruct (set_next h3 (Some k') (Some t)) as [h5|]; [|done]. simpl in E4 |- *. injection E4 as -> <-.
    destruct Hp4 as (? & _ & ? & _). exists h4, res, (zs' ++ [(t, 1)]).
    split_and!; [done|done|apply digits_snoc; [done|lia]| |done]. rewrite num_snoc. simpl in Hn. nia.
Qed.
End AddTwo.

(** ** merge-k-sorted-lists.cc *)
Module MergeLists.

(** src/code/leetcode/merge-k-sorted-lists.cc:21-29 [Solution::Elem] *)
Record Elem := mk_Elem { v : Z; p : ptr }.

(** [std::priority_queue<Elem>]: which of several least elements [top] and [pop]
    take, the standard leaves open. *)
Class PriorityQueue := take_top : list Elem -> option (Elem * list Elem).
Class PriorityQueueLaws `{PriorityQueue} : Prop := {
  take_top_nil : take_top [] = None;
  take_top_least q : q ≠ [] ->
    exists e q', take_top q = Some (e, q') /\ q ≡ₚ e :: q' /\ forall x, x ∈ q' -> v e <= v x }.

Section merge.
Context `{PriorityQueue}.

(** src/code/leetcode/merge-k-sorted-lists.cc:34-39 [Solution::mergeKLists] *)
Definition enqueue (h : heap) (lists : list ptr) : option (list Elem) :=
  foldl (fun Q x => Q ← Q;
    match x with None => Some Q | Some _ => nx ← load h x; Some (mk_Elem (val nx) x :: Q) end) (Some []) lists.

(** src/code/leetcode/merge-k-sorted-lists.cc:42-57 [Solution::mergeKLists] *)
Definition round '((h, Q, prev, head) : heap * list Elem * ptr * ptr) :
    option (heap * list Elem * ptr * ptr + heap * list Elem * ptr * ptr) :=
  match take_top Q with
  | None => Some (inr (h, Q, prev, head))
  | Some (e, Q) =>
      let n := p e in
      '(h, head) ← link h head prev n;
      let prev := n in
      nn ← load h n;
      match next nn with
      | None => Some (inl (h, Q, prev, head))
      | Some _ => nx ← load h (next nn); Some (inl (h, mk_Elem (val nx) (next nn) :: Q, prev, head))
      end
  end.

(** src/code/leetcode/merge-k-sorted-lists.cc:30-62 [Solution::mergeKLists] *)
Definition mergeKLists (h : heap) (lists : list ptr) : option (heap * ptr) :=
  Q ← enqueue h lists;
  '(h, _, prev, head) ← loop (rounds h) round (h, Q, None, None);
  h ← finish h prev;
  Some (h, head).

(** An element of the queue and the nodes from its own on. *)
Definition cursor (h : heap) (e : Elem) (xs : list (positive * Z)) : Prop :=
  chain h (p e) xs /\ (exists l ys, xs = (l, v e) :: ys) /\ StronglySorted Z.le xs.*2.

Lemma enqueue_spec h lists xss :
  Forall2 (fun q xs => chain h q xs) lists xss -> Forall (fun xs => StronglySorted Z.le xs.*2) xss ->
  exists Q yss, enqueue h lists = Some Q /\ Forall2 (cursor h) Q yss /\ concat yss ≡ₚ concat xss.
Proof.
  intros Hc. unfold enqueue.
  assert (forall Q0 yss0, Forall2 (cursor h) Q0 yss0 -> Forall (fun xs => StronglySorted Z.le xs.*2) xss ->
    exists Q yss, foldl (fun Q x => Q ← Q;
      match x with None => Some Q | Some _ => nx ← load h x; Some (mk_Elem (val nx) x :: Q) end) (Some Q0) lists = Some Q /\
      Forall2 (cursor h) Q yss /\ concat yss ≡ₚ concat yss0 ++ concat xss) as Hg.
  { induction Hc as [|x xs lists xss Hx Hc IH]; intros Q0 yss0 H0 Hs.
    - exists Q0, yss0. simpl. by rewrite app_nil_r.
    - apply Forall_cons in Hs as [Hs Hss]. simpl. destruct xs as [|[l w] xs].
      + simpl in Hx. subst x. by destruct (IH Q0 yss0 H0 Hss) as (Q & yss & -> & ? & ?); exists Q, yss.
      + pose proof Hx as (-> & n & El & Hn). simpl. rewrite El. simpl.
        destruct (IH (mk_Elem w (Some l) :: Q0) (((l, w) :: xs) :: yss0)) as (Q & yss & -> & ? & Hp); [|done|].
        * constructor; [|done]. split; [done|]. split; [by exists l, xs|done].
        * exists Q, yss. split; [done|]. split; [done|]. rewrite Hp. simpl. solve_Permutation. }
  intros Hs. destruct (Hg [] [] ltac:(constructor) Hs) as (Q & yss & ? & ? & ?). by exists Q, yss.
Qed.

Lemma concat_Permutation {A} (xss yss : list (list A)) : xss ≡ₚ yss -> concat xss ≡ₚ concat yss.
Proof.
  induction 1 as [|xs xss yss _ IH|xs ys xss|xss yss zss _ IH1 _ IH2]; simpl;
    [done|by rewrite IH|rewrite !(assoc_L (++)); by rewrite (Permutation_app_comm ys)|by rewrite IH1].
Qed.

Lemma cursor_frame ls h h' e xs :
  agree ls h h' -> (forall l, l ∈ ls -> l ∉ xs.*1) -> cursor h e xs -> cursor h' e xs.
Proof.
  intros Ha Hd (Hc & Hx). split; [|done]. apply (list_seg_frame h); [|done]. intros l Hl. apply Ha.
  intros ?%Hd. done.
Qed.

Lemma cursors_frame ls h h' Q yss :
  agree ls h h' -> (forall l, l ∈ ls -> l ∉ (concat yss).*1) ->
  Forall2 (cursor h) Q yss -> Forall2 (cursor h') Q yss.
Proof.
  intros Ha Hd. induction 1 as [|e xs Q yss Hc _ IH]; [constructor|]. simpl in Hd. constructor.
  - apply (cursor_frame ls h); [done| |done]. intros l Hl. specialize (Hd l Hl). rewrite fmap_app in Hd. set_solver.
  - apply IH. intros l Hl. specialize (Hd l Hl). rewrite fmap_app in Hd. set_solver.
Qed.

Lemma cursors_dom h Q yss l : Forall2 (cursor h) Q yss -> l ∈ (concat yss).*1 -> is_Some (h !! l).
Proof.
  induction 1 as [|e xs Q yss (Hc & _) _ IH]; [by intros ?%not_elem_of_nil|]. simpl.
  rewrite fmap_app. intros [Hl|Hl]%elem_of_app; [by apply (seg_dom h (p e) xs None)|auto].
Qed.

Lemma cursors_least h Q yss x y :
  Forall2 (cursor h) Q yss -> (forall e, e ∈ Q -> x <= v e) -> y ∈ (concat yss).*2 -> x <= y.
Proof.
  intros Hc Hx Hy. induction Hc as [|e xs Q yss (_ & (l & ys & ->) & Hs) _ IH]; [by apply not_elem_of_nil in Hy|].
  simpl in Hy, Hs. apply StronglySorted_inv in Hs as [_ Hs]. rewrite Forall_forall in Hs.
  assert (x <= v e) by (apply Hx; left). rewrite fmap_app in Hy.
  apply elem_of_cons in Hy as [->|[Hy|Hy]%elem_of_app]; [done|specialize (Hs y Hy); lia|].
  apply IH; [|done]. intros. apply Hx. by right.
Qed.

Context `{!PriorityQueueLaws}.

Lemma merge_round_spec k : forall fuel h Q yss prev head zs,
  (length (concat yss) <= k)%nat -> (k < fuel)%nat ->
  Forall2 (cursor h) Q yss -> built h head prev zs -> NoDup (zs ++ concat yss).*1 -> sorted zs ->
  (forall x y, x ∈ zs.*2 -> y ∈ (concat yss).*2 -> x <= y) ->
  exists h' Q' prev' head' zs', loop fuel round (h, Q, prev, head) = Some (h', Q', prev', head') /\
    built h' head' prev' zs' /\ zs' ≡ₚ zs ++ concat yss /\ sorted zs' /\ agree (zs ++ concat yss).*1 h h'.
Proof.
  induction k as [|k IH]; intros fuel h Q yss prev head zs Hk Hf Hc Hb Hd Hs Hle;
    (destruct fuel as [|fuel]; [lia|]); rewrite loop_S; simpl.
  all: destruct (decide (Q = [])) as [->|HQ].
  1, 3: apply Forall2_nil_inv_l in Hc as ->; rewrite take_top_nil; exists h, [], prev, head, zs;
    simpl; by rewrite app_nil_r.
  all: destruct (take_top_least Q HQ) as (e & Q' & -> & HQ' & He).
  all: destruct (Permutation_Forall2 HQ' Hc) as (yss' & Hp & Hc').
  all: inversion Hc' as [|? xs ? yss'' Hcur Hc'' E1 E2]; subst.
  all: apply concat_Permutation in Hp; simpl in Hp; rewrite Hp in Hk, Hd;
    setoid_rewrite Hp; setoid_rewrite Hp in Hle.
  all: destruct Hcur as (Hx & (l & ys & ->) & Hsx).
  { simpl in Hk. lia. }
  destruct Hx as (Ep & n & El & Hn). rewrite Ep. simpl in Hsx. apply StronglySorted_inv in Hsx as [Hsy Hey].
  assert (l ∉ zs.*1 /\ (forall x, x ∈ zs.*1 -> x ∉ ys.*1) /\ (forall x, x ∈ zs.*1 -> x ∉ (concat yss'').*1) /\
    l ∉ ys.*1 /\ l ∉ (concat yss'').*1) as (Hlz & Hzy & Hzc & Hly & Hlc).
  { rewrite fmap_app in Hd. change (((l, v e) :: ys) ++ concat yss'').*1 with (l :: (ys ++ concat yss'').*1) in Hd.
    rewrite fmap_app in Hd. apply NoDup_app in Hd as (_ & Hz & [Hl _]%NoDup_cons). set_solver. }
  destruct (built_link _ _ _ _ _ _ _ Hb El Hlz) as (h' & res' & -> & Hb' & Ha). simpl.
  rewrite Ha, El by done. simpl.
  assert (exists Q2 yss2, (match n with
      | None => Some (inl (h', Q', Some l, res'))
      | Some _ => nx ← load h' n; Some (inl (h', mk_Elem (val nx) n :: Q', Some l, res')) end) =
      Some (inl (h', Q2, Some l, res')) (A := heap * list Elem * ptr * ptr + heap * list Elem * ptr * ptr) /\ Forall2 (cursor h') Q2 yss2 /\ concat yss2 = ys ++ concat yss'')
    as (Q2 & yss2 & -> & Hc2 & Hy2).
  { assert (Forall2 (cursor h') Q' yss'') as Hc2 by by apply (cursors_frame zs.*1 h).
    destruct n as [m|]; [|destruct ys as [|[? ?] ?]; [by exists Q', yss''|by destruct Hn]].
    destruct ys as [|[m' w] ys]; [done|]. pose proof Hn as ([= <-] & n & Em & Hn').
    simpl. rewrite Ha, Em by set_solver. simpl. eexists _, (((m, w) :: ys) :: yss''). split; [done|]. split; [|done].
    constructor; [|done]. split; [|split; [by exists m, ys|done]]. apply (list_seg_frame h); [|done].
    intros x Hx. apply Ha. set_solver. }
  simpl. destruct (IH fuel h' Q2 yss2 (Some l) res' (zs ++ [(l, v e)])) as (h2 & Q3 & prev' & head' & zs' & E & ? & Hp2 & ? & ?).
  - rewrite Hy2. simpl in Hk. lia.
  - lia.
  - done.
  - done.
  - rewrite Hy2, <- (assoc_L (++)). done.
  - unfold sorted. rewrite fmap_app. apply StronglySorted_app_2; [|done|by repeat constructor].
    intros x y Hx ->%list_elem_of_singleton. apply Hle; [done|left].
  - intros x y. rewrite Hy2, !fmap_app, !elem_of_app. intros Hx Hy.
    assert (v e <= y) as Hv.
    { destruct Hy as [Hy|Hy]; [by rewrite Forall_forall in Hey; apply Hey|].
      by apply (cursors_least h Q' yss''). }
    destruct Hx as [Hx| ->%list_elem_of_singleton]; [|done]. assert (x <= v e) by (apply Hle; [done|left]). lia.
  - exists h2, Q3, prev', head', zs'. split; [done|]. split; [done|].
    rewrite Hy2, <- (assoc_L (++)) in Hp2. split; [done|]. split; [done|].
    apply (agree_trans _ _ h'); [revert Ha; apply agree_mono; rewrite fmap_app; set_solver|].
    revert H3. rewrite Hy2, <- (assoc_L (++)). done.
Qed.

(** Of any number of sorted lists with no node in common mergeKLists makes one
    sorted list of all their nodes, in place, whichever of equal elements the
    priority queue takes first. *)
Theorem mergeKLists_sorted h lists xss :
  Forall2 (fun q xs => chain h q xs) lists xss -> Forall sorted xss -> NoDup (concat xss).*1 ->
  exists h' p' ys, mergeKLists h lists = Some (h', p') /\ chain h' p' ys /\ sorted ys /\ ys ≡ₚ concat xss /\
    agree (concat xss).*1 h h'.
Proof.
  intros Hc Hs Hd. destruct (enqueue_spec h lists xss Hc Hs) as (Q & yss & E & HQ & Hp).
  unfold mergeKLists. rewrite E. simpl mbind. rewrite <- Hp in Hd.
  destruct (merge_round_spec (length (concat yss)) (rounds h) h Q yss None None [])
    as (h1 & Q' & prev & head & zs & -> & Hb & Hz & Hs' & Ha); [done| |done|done|done|constructor|set_solver|].
  { assert (length (concat yss).*1 + 2 <= rounds h)%nat as H1; [|rewrite length_fmap in H1; lia].
    apply nodes_rounds; [done|]. intros l. by apply cursors_dom with Q. }
  simpl mbind. destruct (built_finish _ _ _ _ Hb) as (h2 & -> & Hc2 & Ha2). simpl mbind.
  exists h2, head, zs. split_and!; [done|done|done|by rewrite Hz|]. rewrite <- Hp.
  apply (agree_trans _ _ h1); [done|]. revert Ha2. by rewrite Hz.
Qed.
End merge.

(** The queue that takes the first of the least elements. *)
Fixpoint extract (e : Elem) (q : list Elem) : Elem * list Elem :=
  match q with
  | [] => (e, [])
  | x :: q => if v x <? v e then let '(m, q) := extract x q in (m, e :: q) else let '(m, q) := extract e q in (m, x :: q)
  end.
Definition first_least : PriorityQueue := fun q => match q with [] => None | e :: q => Some (extract e q) end.

Lemma extract_spec q : forall e, let '(m, q') := extract e q in
  e :: q ≡ₚ m :: q' /\ v m <= v e /\ forall x, x ∈ q' -> v m <= v x.
Proof.
  induction q as [|x q IH]; intros e; simpl; [split_and!; [done|lia|by intros ? ?%not_elem_of_nil]|].
  case_bool; [specialize (IH x); destruct (extract x q) as [m q']|specialize (IH e); destruct (extract e q) as [m q']];
    destruct IH as (Hp & Hm & Hx); split_and!; zbool; [by rewrite Hp; solve_Permutation| | |rewrite (Permutation_swap x e), Hp; solve_Permutation|lia|].
  - lia.
  - intros y [->|Hy]%elem_of_cons; [lia|by apply Hx].
  - intros y [->|Hy]%elem_of_cons; [lia|by apply Hx].
Qed.

Lemma first_least_laws : @PriorityQueueLaws first_least.
Proof.
  split; [done|]. intros [|e q] Hq; [done|]. pose proof (extract_spec q e) as H.
  unfold take_top, first_least. destruct (extract e q) as [m q']. exists m, q'. by destruct H as (? & _ & ?).
Qed.

Lemma mergeKLists_sorted_witness :
  let h : heap := {[ 1%positive := mk_ListNode 1 (Some 2%positive); 2%positive := mk_ListNode 3 None;
    3%positive := mk_ListNode 2 None ]} in
  let lists := [Some 1%positive; None; Some 3%positive] in
  let xss := [[(1%positive, 1); (2%positive, 3)]; []; [(3%positive, 2)]] in
  Forall2 (fun q xs => chain h q xs) lists xss /\ Forall sorted xss /\ NoDup (concat xss).*1 /\
  exists h' p' ys, @mergeKLists first_least h lists = Some (h', p') /\ chain h' p' ys /\ sorted ys /\ ys ≡ₚ concat xss /\
    agree (concat xss).*1 h h'.
Proof.
  intros h lists xss.
  assert (Forall2 (fun q xs => chain h q xs) lists xss) as H1.
  { repeat constructor; repeat (eexists; split; [by vm_compute|]); try done; repeat (split; [done|eexists; split; [by vm_compute|]]); done. }
  assert (Forall sorted xss) as H2.
  { unfold sorted, xss. repeat (constructor; simpl; try lia). }
  assert (NoDup (concat xss).*1) as H3 by (by apply (bool_decide_unpack _); vm_compute).
  split; [done|]. split; [done|]. split; [done|].
  exact (@mergeKLists_sorted first_least first_least_laws h lists xss H1 H2 H3).
Defined.

End MergeLists.
