(* ===== verification/NodeTrees.v ===== *)
(** * NodeTrees: the exercises of src/code/leetcode on trees in a heap

    A sorted list that is taken apart into a search tree; trees whose nodes are
    relinked in place. *)

From S2P Require Import Prelude Loops Trees Nodes.

(** ** convert-sorted-list-to-binary-search-tree.cc *)
Module SortedList.

(** src/code/leetcode/convert-sorted-list-to-binary-search-tree.cc:56-66 [Solution::R] *)
Definition round (h : heap) '((prev, s1, s2) : ptr * ptr * ptr) :
    option (ptr * ptr * ptr + ptr * ptr * ptr) :=
  let prev := s1 in
  n1 ← load h s1;
  let s1 := next n1 in
  n2 ← load h s2;
  match next n2 with
  | None => Some (inr (prev, s1, s2))
  | Some _ =>
      n2' ← load h (next n2);
      match next n2' with
      | None => Some (inr (prev, s1, s2))
      | Some _ =>
          let s2 := next n2' in
          n3 ← load h s2;
          match next n3 with
          | None => Some (inr (prev, s1, s2))
          | Some _ => Some (inl (prev, s1, s2))
          end
      end
  end.

(** The tree is made of new nodes that nothing else refers to: a value.

    src/code/leetcode/convert-sorted-list-to-binary-search-tree.cc:43-74 [Solution::R] *)
Fixpoint R (fuel : nat) (h : heap) (head : ptr) : option (heap * TreeNode) :=
  match fuel with
  | O => None
  | S fuel =>
      nh ← load h head;
      match next nh with
      | None => Some (h, leaf (Nodes.val nh))
      | Some _ =>
          n2 ← load h (next nh);
          match next n2 with
          | None => Some (h, Node (Nodes.val nh) NULL (leaf (Nodes.val n2)))
          | Some _ =>
              '(prev, s1, _) ← loop (rounds h) (round h) (None, head, head);
              h ← set_next h prev None;
              ns ← load h s1;
              '(h, l) ← R fuel h head;
              ns' ← load h s1;
              '(h, r) ← R fuel h (next ns');
              Some (h, Node (Nodes.val ns) l r)
          end
      end
  end.

(** The two pointers go through the list at the one and at the double speed. *)
Lemma halves_round_spec h p xs m (Hc : chain h p xs) (Hm : (length xs = m + m \/ length xs = m + m + 1)%nat) k : forall i fuel,
  (i + i + 2 + k = length xs)%nat -> (k < fuel)%nat ->
  exists s2, loop fuel (round h) (before xs i, pos xs i, pos xs (i + i)) =
    Some (pos xs (m - 1), pos xs m, s2).
Proof.
  assert (forall j, (j < length xs)%nat -> exists l, pos xs j = Some l) as Hp.
  { intros j [[l v] Hl]%lookup_lt_is_Some. exists l. unfold pos. by rewrite Hl. }
  assert (forall j, (length xs <= j)%nat -> pos xs j = None) as Hn.
  { intros j Hj. unfold pos. by rewrite lookup_ge_None_2. }
  induction k as [k IH] using lt_wf_ind. intros i fuel Hx Hf. destruct fuel as [|fuel]; [lia|].
  rewrite loop_S. simpl.
  destruct (load_pos h p xs i Hc) as (v1 & ->); [lia|]. simpl.
  destruct (load_pos h p xs (i + i) Hc) as (v2 & ->); [lia|]. simpl.
  destruct (load_pos h p xs (S (i + i)) Hc) as (v3 & ->); [lia|]. simpl.
  destruct (Hp (S (i + i))) as (l & El); [lia|]. rewrite El.
  destruct (decide (k = 0%nat)) as [->|Hk].
  { rewrite (Hn (S (S (i + i)))) by lia. simpl. eexists. assert (m = S i) as -> by lia. simpl. by rewrite Nat.sub_0_r. }
  destruct (Hp (S (S (i + i)))) as (l2 & El2); [lia|]. rewrite El2.
  destruct (load_pos h p xs (S (S (i + i))) Hc) as (v4 & E4); [lia|]. rewrite El2 in E4. rewrite E4. simpl.
  destruct (decide (k = 1%nat)) as [->|Hk1].
  { rewrite (Hn (S (S (S (i + i))))) by lia. simpl. eexists. assert (m = S i) as -> by lia. simpl. by rewrite Nat.sub_0_r. }
  destruct (Hp (S (S (S (i + i))))) as (l3 & ->); [lia|].
  destruct (IH (k - 2)%nat ltac:(lia) (S i) fuel) as (s2 & E); [lia|lia|]. exists s2. simpl in E.
  rewrite Nat.add_succ_r, El2 in E. exact E.
Qed.

Lemma split_half {A} (xs : list A) : (3 <= length xs)%nat ->
  exists ls k x rs, xs = (ls ++ [k]) ++ x :: rs /\ rs ≠ [] /\
    (length rs + 1 = length (ls ++ [k]) \/ length rs = length (ls ++ [k]))%nat.
Proof.
  intros Hl. set (m := (length xs / 2)%nat).
  assert (length xs = m + m \/ length xs = m + m + 1)%nat as Hm.
  { unfold m. pose proof (Nat.div_mod_eq (length xs) 2). pose proof (Nat.mod_upper_bound (length xs) 2). lia. }
  destruct (lookup_lt_is_Some_2 xs m) as [x Hx]; [lia|].
  destruct (take m xs) as [|k ls _] eqn:E using rev_ind.
  { apply (f_equal length) in E. rewrite length_take in E. simpl in E. lia. }
  exists ls, k, x, (drop (S m) xs). rewrite <- E, take_drop_middle by done. split; [done|].
  assert (length (drop (S m) xs) = length xs - S m)%nat as Ed by apply length_drop.
  split; [intros E2; rewrite E2 in Ed; simpl in Ed; lia|]. rewrite Ed, length_take. lia.
Qed.

Definition halve (fuel : nat) (h : heap) (head : ptr) : option (heap * TreeNode) :=
  '(prev, s1, _) ← loop (rounds h) (round h) (None, head, head);
  h ← set_next h prev None;
  ns ← load h s1;
  '(h, l) ← R fuel h head;
  ns' ← load h s1;
  '(h, r) ← R fuel h (next ns');
  Some (h, Node (Nodes.val ns) l r).

Lemma R_many fuel h p xs : chain h p xs -> (3 <= length xs)%nat -> R (S fuel) h p = halve fuel h p.
Proof.
  intros Hc Hl. destruct xs as [|[l1 v1] [|[l2 v2] [|[l3 v3] xs]]]; try (simpl in Hl; lia).
  destruct Hc as (-> & n1 & E1 & -> & n2 & E2 & -> & _). simpl. rewrite E1. simpl. rewrite E2. done.
Qed.

(** What [R] promises of the nodes [xs]. *)
Definition promises (fuel : nat) (xs : list (positive * Z)) : Prop :=
  forall h p, chain h p xs ->
  exists h' t, R fuel h p = Some (h', t) /\ inorder t = xs.*2 /\ Balanced.balanced t /\
    Balanced.height t = SortedArray.full_height (size xs) /\ agree xs.*1 h h'.

Lemma halve_spec fuel h p ls k l v rs :
  chain h p ((ls ++ [k]) ++ (l, v) :: rs) ->
  (length rs + 1 = length (ls ++ [k]) \/ length rs = length (ls ++ [k]))%nat ->
  promises fuel (ls ++ [k]) -> promises fuel rs ->
  exists h' t, halve fuel h p = Some (h', t) /\ inorder t = ((ls ++ [k]) ++ (l, v) :: rs).*2 /\ Balanced.balanced t /\
    Balanced.height t = SortedArray.full_height (size ((ls ++ [k]) ++ (l, v) :: rs)) /\
    agree ((ls ++ [k]) ++ (l, v) :: rs).*1 h h'.
Proof.
  intros Hc Hlen Hls Hrs. pose proof (chain_rounds _ _ _ Hc) as Hr. pose proof (chain_NoDup _ _ _ Hc) as Hnd.
  destruct k as [k w]. unfold halve.
  destruct (halves_round_spec h _ _ (length (ls ++ [(k, w)])) Hc) with (k := (length rs + length ls)%nat) (i := 0%nat) (fuel := rounds h)
    as (s2 & E).
  1-3: rewrite !length_app in *; simpl in *; lia.
  simpl before in E. simpl Nat.add in E. rewrite <- (chain_pos _ _ _ Hc) in E. rewrite E. simpl mbind. cbv beta iota.
  replace (pos _ (length (ls ++ [(k, w)]) - 1)) with (Some k).
  2: { unfold pos. rewrite length_app. simpl. rewrite Nat.add_sub, <- (assoc_L (++)). simpl. by rewrite list_lookup_middle. }
  replace (pos _ (length (ls ++ [(k, w)]))) with (Some l).
  2: { unfold pos. by rewrite list_lookup_middle. }
  apply list_seg_app in Hc as (q & Hc1 & -> & n & El & Hc2).
  rewrite fmap_app in Hnd. change ((l, v) :: rs).*1 with (l :: rs.*1) in Hnd.
  apply NoDup_app in Hnd as (Hn1 & Hd & [Hl Hn2]%NoDup_cons). assert ((ls ++ [(k, w)]).*1 = ls.*1 ++ [k]) as Ek by by rewrite fmap_app.
  rewrite Ek in Hn1, Hd.   apply NoDup_app in Hn1 as (_ & Hk & _).
  assert (forall x, x ∈ l :: rs.*1 -> x ∉ [k] /\ x ∉ ls.*1 ++ [k]) as Hd'.
  { intros x Hx. split; intros Hin; apply (Hd x); set_solver. }
  destruct (Hd' l ltac:(left)) as [Hlk Hll].
  destruct (tip_link _ _ _ _ _ None (seg_tip _ _ _ _ _ _ Hc1 (fun Hin => Hk k Hin ltac:(left)))) as (h1 & E1 & Hs1 & Ha1).
  rewrite E1. simpl mbind.
  assert (h1 !! l = Some (mk_ListNode v n)) as El1 by (by rewrite Ha1).
  simpl load. rewrite El1. simpl mbind.
  destruct (Hls h1 p Hs1) as (h2 & tl & -> & Il & Bl & Hhl & Ha2). simpl mbind. rewrite Ek in Ha2.
  assert (h2 !! l = Some (mk_ListNode v n)) as El2 by (by rewrite Ha2).
  rewrite El2. simpl mbind.
  assert (chain h2 n rs) as Hc3.
  { apply (list_seg_frame h); [|done]. intros x Hx. destruct (Hd' x ltac:(by right)). by rewrite Ha2, Ha1. }
  destruct (Hrs h2 n Hc3) as (h3 & tr & -> & Ir & Br & Hhr & Ha3). simpl mbind.
  exists h3, (Node v tl tr). split; [done|]. split; [|split; [|split]].
  - rewrite fmap_app. simpl inorder. by rewrite Il, Ir.
  - constructor; [done|done|]. rewrite Hhl, Hhr.
    pose proof (SortedArray.full_height_succ (size rs) ltac:(lia)).
    destruct Hlen as [Hlen|Hlen]; [replace (size (ls ++ [(k, w)])) with (size rs + 1) by lia; lia|rewrite Hlen; lia].
  - cbn [Balanced.height]. rewrite Hhl, Hhr. rewrite (length_app (ls ++ _)). cbn [length].
    set (a := length (ls ++ [(k, w)])) in *. clearbody a.
    rewrite (SortedArray.full_height_half (Z.of_nat (a + S (length rs)))) by lia.
    pose proof (SortedArray.full_height_succ (size rs) ltac:(lia)).
    assert (Z.of_nat (a + S (length rs)) / 2 = Z.of_nat a) as -> by dlia.
    destruct Hlen as [Hlen|Hlen]; [replace (Z.of_nat a) with (size rs + 1) by lia; lia|rewrite Hlen; lia].
  - rewrite fmap_app, Ek. change ((l, v) :: rs).*1 with (l :: rs.*1).
    apply (agree_trans _ _ h1); [revert Ha1; apply agree_mono; set_solver|].
    apply (agree_trans _ _ h2); [revert Ha2; apply agree_mono; set_solver|].
    revert Ha3. apply agree_mono. set_solver.
Qed.

Lemma list_R_spec n : forall xs fuel h p,
  (length xs <= n)%nat -> (length xs <= fuel)%nat -> xs ≠ [] -> chain h p xs ->
  exists h' t, R fuel h p = Some (h', t) /\ inorder t = xs.*2 /\ Balanced.balanced t /\
    Balanced.height t = SortedArray.full_height (size xs) /\ agree xs.*1 h h'.
Proof.
  induction n as [|n IH]; intros xs fuel h p Hn Hf He Hc; [by destruct xs; [|simpl in *; lia]|].
  destruct fuel as [|fuel]; [destruct xs; simpl in *; [done|lia]|].
  destruct xs as [|[l1 v1] [|[l2 v2] [|x3 xs]]]; [done|..].
  - destruct Hc as (-> & n1 & E1 & Hc). simpl in Hc. subst n1. simpl. rewrite E1. simpl.
    exists h, (leaf v1). split_and!; [done|done|by repeat constructor|done|done].
  - destruct Hc as (-> & n1 & E1 & -> & n2 & E2 & Hc). simpl in Hc. subst n2. simpl. rewrite E1. simpl. rewrite E2. simpl.
    exists h, (Node v1 NULL (leaf v2)). split_and!; [done|done|by repeat constructor|done|done].
  - assert (3 <= length ((l1, v1) :: (l2, v2) :: x3 :: xs))%nat as H3 by (simpl; lia).
    rewrite (R_many _ _ _ _ Hc H3). revert Hn Hf H3 Hc. clear He.
    generalize ((l1, v1) :: (l2, v2) :: x3 :: xs). clear l1 v1 l2 v2 x3 xs. intros xs Hn Hf H3 Hc.
    destruct (split_half xs H3) as (ls & [k w] & [l v] & rs & -> & Hrs & Hlen).
    apply halve_spec; [done|done| |]; intros h' q Hq; apply IH; try done.
    all: try (rewrite !length_app in *; simpl in *; lia). by destruct ls.
Qed.
(** src/code/leetcode/convert-sorted-list-to-binary-search-tree.cc:35-41 [Solution::sortedListToBST] *)
Definition sortedListToBST (h : heap) (head : ptr) : option (heap * TreeNode) :=
  match head with
  | None => Some (h, NULL)
  | Some _ => _ ← R (rounds h) h head; None
  end.

(** The values in order, in a balanced search tree; only the list is taken apart. *)
Theorem R_balanced h p xs :
  chain h p xs -> xs ≠ [] -> StronglySorted Z.lt xs.*2 -> size xs <= 2147483647 ->
  exists h' t, R (length xs) h p = Some (h', t) /\ inorder t = xs.*2 /\
    ValidBST.isValidBST t = Some true /\ Balanced.isBalanced t = Some true /\ agree xs.*1 h h'.
Proof.
  intros Hc He Hs Hn. destruct (list_R_spec (length xs) xs (length xs) h p) as (h' & t & E & Hi & Hb & _ & Ha); [done..|].
  exists h', t. split; [done|]. split; [done|]. split; [|split; [|done]].
  - destruct (ValidBST.isValidBST_spec t) as (b & -> & Hv). f_equal. apply Hv. by rewrite Hi.
  - destruct (Balanced.isBalanced_balanced t) as (b & -> & Hv); [rewrite Hi, length_fmap; lia|].
    f_equal. by apply Hv.
Qed.

(** The caller gets nothing: the one that calls [R] has no return statement. *)
Lemma sortedListToBST_undefined h p xs : chain h p xs -> xs ≠ [] -> sortedListToBST h p = None.
Proof.
  intros Hc He. destruct xs as [|[l v] xs]; [done|]. pose proof Hc as [-> _]. unfold sortedListToBST.
  by destruct (R (rounds h) h (Some l)).
Qed.

End SortedList.

(** ** flatten-binary-tree-to-linked-list.cc *)
Module Flatten.

(** src/code/leetcode/flatten-binary-tree-to-linked-list.cc:14-19 [TreeNode] *)
Record node := mk { val : Z; left_ : ptr; right_ : ptr }.
Notation memory := (gmap positive node) (only parsing).

Definition load (h : memory) (p : ptr) : option node := l ← p; h !! l.
Definition set_left (h : memory) (p v : ptr) : option memory :=
  l ← p; n ← h !! l; Some (<[l := mk (val n) v (right_ n)]> h).
Definition set_right (h : memory) (p v : ptr) : option memory :=
  l ← p; n ← h !! l; Some (<[l := mk (val n) (left_ n) v]> h).

(** Also what [*last] is set to.

    src/code/leetcode/flatten-binary-tree-to-linked-list.cc:33-49 [Solution::R] *)
Fixpoint R (fuel : nat) (h : memory) (root : ptr) : option (memory * ptr * ptr) :=
  match fuel with
  | O => None
  | S fuel =>
      n ← load h root;
      match left_ n, right_ n with
      | None, None => Some (h, root, root)
      | None, Some _ =>
          '(h, x, last) ← R fuel h (right_ n);
          h ← set_right h root x;
          Some (h, root, last)
      | Some _, None =>
          '(h, x, last) ← R fuel h (left_ n);
          h ← set_right h root x;
          h ← set_left h root None;
          Some (h, root, last)
      | Some _, Some _ =>
          let r := right_ n in
          '(h, x, p) ← R fuel h (left_ n);
          h ← set_right h root x;
          h ← set_left h root None;
          '(h, y, last) ← R fuel h r;
          h ← set_right h p y;
          Some (h, root, last)
      end
  end.

(** src/code/leetcode/flatten-binary-tree-to-linked-list.cc:23-31 [Solution::flatten] *)
Definition flatten (h : memory) (root : ptr) : option memory :=
  match root with
  | None => Some h
  | Some _ => '(h, _, _) ← R (S (base.size (dom h))) h root; Some h
  end.

(** A tree with the addresses of its nodes, what it looks like in memory, and
    its nodes from the root, the left ones first. *)
Inductive tree := Nil | Bin (l : positive) (v : Z) (lt rt : tree).
Fixpoint rep (h : memory) (p : ptr) (t : tree) : Prop :=
  match t with
  | Nil => p = None
  | Bin l v lt rt => p = Some l /\ exists pl pr, h !! l = Some (mk v pl pr) /\ rep h pl lt /\ rep h pr rt
  end.
Fixpoint pre (t : tree) : list (positive * Z) :=
  match t with Nil => [] | Bin l v lt rt => (l, v) :: pre lt ++ pre rt end.

(** A tree that has only right children is a list. *)
Fixpoint vine (xs : list (positive * Z)) : tree :=
  match xs with [] => Nil | (l, v) :: xs => Bin l v Nil (vine xs) end.

Lemma rep_frame h h' p t : (forall l, l ∈ (pre t).*1 -> h' !! l = h !! l) -> rep h p t -> rep h' p t.
Proof.
  revert p. induction t as [|l v lt IHl rt IHr]; intros p Hh; [done|]. simpl in Hh |- *.
  intros (-> & pl & pr & El & Hl & Hr). split; [done|]. exists pl, pr. rewrite Hh by left. split; [done|].
  rewrite fmap_app in Hh. split; [apply IHl|apply IHr]; try done; intros; apply Hh; set_solver.
Qed.

Lemma pre_vine xs : pre (vine xs) = xs.
Proof. induction xs as [|[l v] xs IH]; simpl; [done|by rewrite IH]. Qed.

Lemma vine_frame ls h h' p xs :
  agree ls h h' -> (forall l, l ∈ ls -> l ∉ xs.*1) -> rep h p (vine xs) -> rep h' p (vine xs).
Proof. intros Ha Hd. apply rep_frame. intros l. rewrite pre_vine. intros Hl. apply Ha. intros ?%Hd. done. Qed.

(** The last node leads to another vine. *)
Lemma vine_app h p xs l v ys q :
  rep h p (vine (xs ++ [(l, v)])) -> rep h q (vine ys) -> l ∉ xs.*1 -> l ∉ ys.*1 ->
  exists h', set_right h (Some l) q = Some h' /\ rep h' p (vine (xs ++ (l, v) :: ys)) /\ agree [l] h h'.
Proof.
  intros Hx Hy Hlx Hly.
  assert (h !! l = Some (mk v None None)) as El.
  { clear Hlx. revert p Hx. induction xs as [|[m w] xs IH]; intros p; simpl.
    - by intros (_ & pl & pr & -> & -> & ->).
    - intros (_ & pl & pr & _ & _ & H). by apply (IH pr). }
  exists (<[l := mk v None q]> h). simpl. rewrite El. split; [done|].
  assert (agree [l] h (<[l := mk v None q]> h)) as Ha.
  { intros m Hm. apply lookup_insert_ne. set_solver. }
  split; [|done]. revert p Hx. induction xs as [|[m w] xs IH]; intros p; simpl.
  - intros (-> & _). split; [done|]. exists None, q. rewrite lookup_insert_eq. split_and!; [done|done|].
    apply (vine_frame [l] h); [done|set_solver|done].
  - intros (-> & pl & pr & Em & -> & H). simpl in Hlx. split; [done|]. exists None, pr. rewrite Ha by set_solver.
    split_and!; [done|done|]. apply IH; [set_solver|done].
Qed.

Lemma set_both h l v pl pr x :
  h !! l = Some (mk v pl pr) ->
  exists h1 h2, set_right h (Some l) x = Some h1 /\ set_left h1 (Some l) None = Some h2 /\
    h2 !! l = Some (mk v None x) /\ agree [l] h h2.
Proof.
  intros El. eexists _, _. simpl. rewrite El. split; [done|]. simpl. rewrite lookup_insert_eq. split; [done|].
  rewrite lookup_insert_eq. split; [done|]. intros m Hm. by rewrite !lookup_insert_ne by set_solver.
Qed.

Lemma pre_last t : t ≠ Nil -> exists xs l v, pre t = xs ++ [(l, v)].
Proof.
  intros Ht. destruct t as [|l v lt rt]; [done|]. simpl. generalize (pre lt ++ pre rt). intros xs.
  destruct xs as [|[m w] xs _] using rev_ind; [by exists [], l, v|]. by exists ((l, v) :: xs), m, w.
Qed.

Lemma rep_NULL h t : rep h None t -> t = Nil.
Proof. by destruct t as [|l v lt rt]; [|intros [? _]]. Qed.

Lemma rep_Some h l t : rep h (Some l) t -> t ≠ Nil.
Proof. by intros H ->. Qed.

Lemma flatten_R_spec t : forall fuel h p,
  t ≠ Nil -> (length (pre t) <= fuel)%nat -> rep h p t -> NoDup (pre t).*1 ->
  exists h' xs l v, R fuel h p = Some (h', p, Some l) /\ pre t = xs ++ [(l, v)] /\
    rep h' p (vine (pre t)) /\ agree (pre t).*1 h h'.
Proof.
  induction t as [|l v lt IHl rt IHr]; intros fuel h p Ht Hf Hr Hn; [done|].
  destruct fuel as [|fuel]; [simpl in Hf; lia|]. simpl in Hf. rewrite length_app in Hf.
  destruct Hr as (-> & pl & pr & El & Hl & Hr). simpl. rewrite El. simpl.
  change ((l, v) :: pre lt ++ pre rt).*1 with (l :: (pre lt ++ pre rt).*1) in *.
  simpl in Hn. apply NoDup_cons in Hn as [Hll Hn]. rewrite fmap_app in Hll, Hn |- *.
  apply NoDup_app in Hn as (Hnl & Hd & Hnr). apply not_elem_of_app in Hll as [Hll Hlr].
  destruct pl as [al|], pr as [ar|].
  - apply rep_Some in Hl as Htl. apply rep_Some in Hr as Htr.
    destruct (IHl fuel h (Some al)) as (h1 & xs & m & w & -> & Ep & Hv & Ha); [done|lia|done|done|]. simpl.
    destruct (set_both h1 l v (Some al) (Some ar) (Some al)) as (h2 & h3 & E2 & E3 & E4 & Ha3); [by rewrite Ha|].
    simpl in E2, E3. simpl. rewrite E2. simpl. rewrite E3. simpl.
    assert (agree (l :: (pre lt).*1) h h3) as Ha13.
    { apply (agree_trans _ _ h1); [revert Ha; apply agree_mono; set_solver|]. revert Ha3. apply agree_mono. set_solver. }
    assert (rep h3 (Some ar) rt) as Hr3.
    { apply (rep_frame h); [|done]. intros k Hk. apply Ha13. set_solver. }
    destruct (IHr fuel h3 (Some ar)) as (h4 & ys & m2 & w2 & -> & Ep2 & Hv2 & Ha4); [done|lia|done|done|]. simpl.
    assert (rep h4 (Some al) (vine (pre lt))) as Hv4.
    { apply (vine_frame (pre rt).*1 h3); [done|set_solver|]. apply (vine_frame [l] h1); [done|set_solver|done]. }
    rewrite Ep in Hv4, Hd, Hnl. rewrite fmap_app in Hd, Hnl. apply NoDup_app in Hnl as (_ & Hmx & _).
    simpl in Hd, Hmx.
    destruct (vine_app h4 (Some al) xs m w (pre rt) (Some ar)) as (h5 & E5 & Hv5 & Ha5);
      [done|done|set_solver|set_solver|].
    simpl in E5. rewrite E5. simpl. exists h5, ((l, v) :: pre lt ++ ys), m2, w2. split; [done|].
    split; [by rewrite Ep2, (assoc_L (++))|]. split.
    + simpl. split; [done|]. exists None, (Some al). split; [|split; [done|]].
      * rewrite Ha5, Ha4; [done|done|]. rewrite Ep, fmap_app in Hll. simpl in Hll. set_solver.
      * rewrite Ep, <- (assoc_L (++)). done.
    + apply (agree_trans _ _ h3); [revert Ha13; apply agree_mono; set_solver|].
      apply (agree_trans _ _ h4); [revert Ha4; apply agree_mono; set_solver|].
      revert Ha5. apply agree_mono. rewrite Ep, fmap_app. simpl. set_solver.
  - apply rep_NULL in Hr as ->. apply rep_Some in Hl as Htl.
    destruct (IHl fuel h (Some al)) as (h1 & xs & m & w & -> & Ep & Hv & Ha); [done|lia|done|done|]. simpl.
    destruct (set_both h1 l v (Some al) None (Some al)) as (h2 & h3 & E2 & E3 & E4 & Ha3); [by rewrite Ha|].
    simpl in E2, E3. simpl. rewrite E2. simpl. rewrite E3. simpl.
    exists h3, ((l, v) :: xs), m, w. rewrite app_nil_r. split; [done|]. split; [by rewrite Ep|]. split.
    + simpl. split; [done|]. exists None, (Some al). split; [done|]. split; [done|].
      apply (vine_frame [l] h1); [done|set_solver|done].
    + apply (agree_trans _ _ h1); [revert Ha; apply agree_mono; set_solver|].
      revert Ha3. apply agree_mono. set_solver.
  - apply rep_NULL in Hl as ->. apply rep_Some in Hr as Htr.
    destruct (IHr fuel h (Some ar)) as (h1 & xs & m & w & -> & Ep & Hv & Ha); [done|lia|done|done|]. simpl.
    rewrite Ha, El by done. simpl. set (h2 := <[l := mk v None (Some ar)]> h1).
    assert (agree [l] h1 h2) as Ha2 by (intros k Hk; apply lookup_insert_ne; set_solver).
    exists h2, ((l, v) :: xs), m, w. split; [done|]. split; [by rewrite Ep|]. split.
    + simpl. split; [done|]. exists None, (Some ar). unfold h2 at 1. rewrite lookup_insert_eq. split; [done|]. split; [done|].
      apply (vine_frame [l] h1); [done|set_solver|done].
    + apply (agree_trans _ _ h1); [revert Ha; apply agree_mono; set_solver|].
      revert Ha2. apply agree_mono. set_solver.
  - apply rep_NULL in Hl as ->. apply rep_NULL in Hr as ->. exists h, [], l, v.
    split_and!; [done|done|done| |done]. exists None, None. by split_and!.
Qed.

Lemma rep_nodes h p t : rep h p t -> NoDup (pre t).*1 -> (length (pre t) <= base.size (dom h))%nat.
Proof.
  intros Hr Hn. assert (base.size (list_to_set (pre t).*1 : gset positive) <= base.size (dom h))%nat as H.
  { apply subseteq_size. intros l Hl%elem_of_list_to_set. apply elem_of_dom. clear Hn.
    revert p Hr Hl. induction t as [|m v lt IHl rt IHr]; intros p; simpl; [by intros _ ?%not_elem_of_nil|].
    intros (_ & pl & pr & Em & Hl & Hr). rewrite fmap_app, elem_of_cons, elem_of_app. intros [->|[?|?]]; eauto. }
  rewrite size_list_to_set, length_fmap in H by done. lia.
Qed.

(** A tree without sharing becomes, in place, the list of its nodes in preorder. *)
Theorem flatten_preorder h p t :
  rep h p t -> NoDup (pre t).*1 ->
  exists h', flatten h p = Some h' /\ rep h' p (vine (pre t)) /\ agree (pre t).*1 h h'.
Proof.
  intros Hr Hn. pose proof (rep_nodes h p t Hr Hn). unfold flatten. destruct p as [l|].
  - apply rep_Some in Hr as Ht.
    destruct (flatten_R_spec t (S (base.size (dom h))) h (Some l)) as (h' & xs & m & v & -> & _ & Hv & Ha); [done|lia|done|done|].
    by exists h'.
  - apply rep_NULL in Hr as ->. by exists h.
Qed.
End Flatten.
