(* ===== verification/Connect.v ===== *)
(** * Connect: the exercises of src/code/leetcode on trees with next pointers

    Each node of a tree gets a pointer to the next node of its level. The nodes
    of a level form a list by their [next] fields, so the theory of lists of
    Nodes.v applies to a view of the heap that shows only these fields. *)

From S2P Require Import Prelude Loops Nodes.

(** src/code/leetcode/populating-next-right-pointers-in-each-node-2.cc:12-16 [TreeLinkNode] *)
Record TreeLinkNode := mk { val : Z; left_ : ptr; right_ : ptr; next : ptr }.
Notation memory := (gmap positive TreeLinkNode) (only parsing).

Definition load (h : memory) (p : ptr) : option TreeLinkNode := l ← p; h !! l.
Definition set_next (h : memory) (p v : ptr) : option memory :=
  l ← p; n ← h !! l; Some (<[l := mk (val n) (left_ n) (right_ n) v]> h).
#[global] Arguments set_next : simpl never.

(** ** The heap of lists inside the heap of trees *)

Definition view (h : memory) : heap := (fun n => mk_ListNode (val n) (next n)) <$> h.

(** Only [next] fields differ. *)
Definition shape (h h' : memory) : Prop :=
  forall l v pl pr n, h !! l = Some (mk v pl pr n) -> exists n', h' !! l = Some (mk v pl pr n').

Lemma shape_refl h : shape h h.
Proof. intros l v pl pr n ?. by exists n. Qed.

Lemma shape_trans h1 h2 h3 : shape h1 h2 -> shape h2 h3 -> shape h1 h3.
Proof. intros H1 H2 l v pl pr n Hl. destruct (H1 l v pl pr n Hl) as (n' & Hl'). by apply (H2 l v pl pr n'). Qed.

Lemma level_view_lookup h l v pl pr n : h !! l = Some (mk v pl pr n) -> view h !! l = Some (mk_ListNode v n).
Proof. intros Hl. unfold view. by rewrite lookup_fmap, Hl. Qed.

Lemma view_set_next h p v k :
  Nodes.set_next (view h) p v = Some k -> exists h', set_next h p v = Some h' /\ view h' = k /\ shape h h'.
Proof.
  destruct p as [l|]; [|done]. unfold Nodes.set_next, set_next. simpl. unfold view. rewrite lookup_fmap.
  destruct (h !! l) as [[w pl pr n]|] eqn:El; [|done]. simpl. intros [= <-]. eexists. split; [done|]. split.
  - by rewrite fmap_insert.
  - intros m v' pl' pr' n' Hm. destruct (decide (m = l)) as [->|Hn].
    + rewrite El in Hm. injection Hm as <- <- <- <-. exists v. by rewrite lookup_insert_eq.
    + exists n'. by rewrite lookup_insert_ne.
Qed.

(** [if (head != NULL) head->next = c; else saved = c;] *)
Definition attach (h : memory) (saved head c : ptr) : option (memory * ptr) :=
  match head with
  | None => Some (h, c)
  | Some _ => h ← set_next h head c; Some (h, saved)
  end.

#[global] Arguments attach : simpl never.

(** A level under construction: the children found so far, closed with NULL. *)
Definition level (h : memory) (saved head : ptr) (cs : list (positive * Z)) : Prop :=
  built (view h) saved head cs /\ chain (view h) saved cs.

Lemma attach_spec h saved head cs l v n :
  built (view h) saved head cs -> view h !! l = Some (mk_ListNode v n) -> l ∉ cs.*1 ->
  exists h' saved', attach h saved head (Some l) = Some (h', saved') /\
    built (view h') saved' (Some l) (cs ++ [(l, v)]) /\ agree cs.*1 (view h) (view h') /\ shape h h'.
Proof.
  intros Hb Hl Hn. destruct (built_link _ _ _ _ _ _ _ Hb Hl Hn) as (k & s & E & Hb' & Ha).
  unfold attach, link in *. destruct head as [a|].
  - destruct (Nodes.set_next (view h) (Some a) (Some l)) as [k'|] eqn:E'; [|done]. simpl in E.
    injection E as -> <-. destruct (view_set_next _ _ _ _ E') as (h' & -> & <- & Hs). by exists h', saved.
  - injection E as <- <-. exists h, (Some l). split_and!; [done|done|done|apply shape_refl].
Qed.

Lemma close_level h saved head cs :
  built (view h) saved (Some head) cs ->
  exists h', set_next h (Some head) None = Some h' /\ level h' saved (Some head) cs /\
    agree cs.*1 (view h) (view h') /\ shape h h'.
Proof.
  intros Hb. destruct (built_finish _ _ _ _ Hb) as (k & E & Hc & Ha). simpl in E.
  destruct (view_set_next _ _ _ _ E) as (h' & -> & <- & Hs). exists h'.
  split; [done|]. split; [|by split]. split; [|done].
  destruct Hb as (zs & v & -> & _ & _ & Hn). exists zs, v. split; [done|].
  exact (seg_tip _ _ _ _ _ None Hc Hn).
Qed.

(** ** Trees and their levels *)

Inductive tree := Nil | Bin (l : positive) (v : Z) (lt rt : tree).
Fixpoint rep (h : memory) (p : ptr) (t : tree) : Prop :=
  match t with
  | Nil => p = None
  | Bin l v lt rt => p = Some l /\ exists pl pr n, h !! l = Some (mk v pl pr n) /\ rep h pl lt /\ rep h pr rt
  end.

Definition some (t : tree) : list tree := match t with Nil => [] | _ => [t] end.
Definition kids (fs : list tree) : list tree :=
  fs ≫= fun t => match t with Nil => [] | Bin _ _ lt rt => some lt ++ some rt end.
Definition row (fs : list tree) : list (positive * Z) :=
  fs ≫= fun t => match t with Nil => [] | Bin l v _ _ => [(l, v)] end.
Fixpoint all (t : tree) : list (positive * Z) :=
  match t with Nil => [] | Bin l v lt rt => (l, v) :: all lt ++ all rt end.

Lemma rep_shape h h' p t : shape h h' -> rep h p t -> rep h' p t.
Proof.
  intros Hs. revert p. induction t as [|l v lt IHl rt IHr]; intros p; [done|]. simpl.
  intros (-> & pl & pr & n & El & Hl & Hr). split; [done|]. destruct (Hs _ _ _ _ _ El) as (n' & El').
  exists pl, pr, n'. auto.
Qed.

(** ** populating-next-right-pointers-in-each-node-2.cc *)
Module Any.

Record locals := mk_locals { mem : memory; saved_ : ptr; head_ : ptr; root_ : ptr }.

(** src/code/leetcode/populating-next-right-pointers-in-each-node-2.cc:40-68 [Solution::R] *)
Definition hang (h : memory) (saved head l r : ptr) : option (memory * ptr * ptr) :=
  match l, r with
  | None, None => Some (h, saved, head)
  | None, Some _ =>
      '(h, saved) ← attach h saved head r;
      h ← set_next h r None;
      Some (h, saved, r)
  | Some _, None =>
      '(h, saved) ← attach h saved head l;
      h ← set_next h l None;
      Some (h, saved, l)
  | Some _, Some _ =>
      '(h, saved) ← attach h saved head l;
      h ← set_next h l r;
      h ← set_next h r None;
      Some (h, saved, r)
  end.

(** src/code/leetcode/populating-next-right-pointers-in-each-node-2.cc:36-70 [Solution::R] *)
Definition round (s : locals) : option (locals + locals) :=
  let '(mk_locals h saved head root) := s in
  match root with
  | None => Some (inr s)
  | Some _ =>
      n ← load h root;
      '(h, saved, head) ← hang h saved head (left_ n) (right_ n);
      n ← load h root;
      Some (inl (mk_locals h saved head (next n)))
  end.

(** src/code/leetcode/populating-next-right-pointers-in-each-node-2.cc:30-72 [Solution::R] *)
Fixpoint R (fuel : nat) (h : memory) (root : ptr) : option memory :=
  match root with
  | None => Some h
  | Some _ =>
      match fuel with
      | O => None
      | S fuel =>
          '(mk_locals h saved _ _) ← loop (S (S (base.size (dom h)))) round (mk_locals h None None root);
          R fuel h saved
      end
  end.

(** src/code/leetcode/populating-next-right-pointers-in-each-node-2.cc:20-28 [Solution::connect] *)
Definition connect (h : memory) (root : ptr) : option memory :=
  match root with
  | None => Some h
  | Some _ => h ← set_next h root None; R (S (base.size (dom h))) h root
  end.

Lemma NoDup_last cs (l : positive) (v : Z) : NoDup (cs ++ [(l, v)]).*1 -> l ∉ cs.*1.
Proof. rewrite fmap_app. intros (_ & Hd & _)%NoDup_app Hin. apply (Hd l Hin). simpl. by left. Qed.

Lemma hang_one h saved head cs l v pl pr n :
  built (view h) saved head cs -> h !! l = Some (mk v pl pr n) -> NoDup (cs ++ [(l, v)]).*1 ->
  exists h1 saved' h', attach h saved head (Some l) = Some (h1, saved') /\ set_next h1 (Some l) None = Some h' /\
    level h' saved' (Some l) (cs ++ [(l, v)]) /\ agree (cs ++ [(l, v)]).*1 (view h) (view h') /\ shape h h'.
Proof.
  intros Hb El Hn%NoDup_last.
  destruct (attach_spec _ _ _ _ _ _ _ Hb (level_view_lookup _ _ _ _ _ _ El) Hn) as (h1 & s1 & E & Hb1 & Ha1 & Hs1).
  destruct (close_level _ _ _ _ Hb1) as (h2 & E2 & Hl2 & Ha2 & Hs2).
  exists h1, s1, h2. split; [done|]. split; [done|]. split; [done|]. split; [|by apply (shape_trans _ h1)].
  apply (agree_trans _ _ (view h1)); [|done]. revert Ha1. apply agree_mono. rewrite fmap_app. set_solver.
Qed.

Lemma hang_spec h saved head cs l v lt rt pl pr n :
  level h saved head cs -> h !! l = Some (mk v pl pr n) -> rep h pl lt -> rep h pr rt ->
  NoDup (cs ++ row (some lt ++ some rt)).*1 ->
  exists h' saved' head', hang h saved head pl pr = Some (h', saved', head') /\
    level h' saved' head' (cs ++ row (some lt ++ some rt)) /\
    agree (cs ++ row (some lt ++ some rt)).*1 (view h) (view h') /\ shape h h'.
Proof.
  intros [Hb Hc] El Hl Hr Hn.
  destruct lt as [|a1 v1 l1 r1], rt as [|a2 v2 l2 r2]; simpl in Hl, Hr |- *; subst.
  - exists h, saved, head. rewrite app_nil_r. split; [done|]. split; [done|]. split; [done|apply shape_refl].
  - destruct Hr as (-> & pl2 & pr2 & n2 & E2 & _).
    destruct (hang_one _ _ _ _ _ _ _ _ _ Hb E2 Hn) as (h1 & s1 & h2 & E & E3 & ?). unfold hang. rewrite E. simpl. rewrite E3.
    by exists h2, s1, (Some a2).
  - destruct Hl as (-> & pl1 & pr1 & n1 & E1 & _).
    destruct (hang_one _ _ _ _ _ _ _ _ _ Hb E1 Hn) as (h1 & s1 & h2 & E & E3 & ?). unfold hang. rewrite E. simpl. rewrite E3.
    by exists h2, s1, (Some a1).
  - destruct Hl as (-> & pl1 & pr1 & n1 & E1 & _), Hr as (-> & pl2 & pr2 & n2 & E2 & _).
    change (row _) with ([(a1, v1)] ++ [(a2, v2)]) in Hn. change [(a1, v1); (a2, v2)] with ([(a1, v1)] ++ [(a2, v2)]).
    rewrite (assoc_L (++)) in Hn |- *.
    assert (NoDup (cs ++ [(a1, v1)]).*1) as Hn1 by (rewrite fmap_app in Hn; by apply NoDup_app in Hn as (? & _)).
    destruct (attach_spec _ _ _ _ _ _ _ Hb (level_view_lookup _ _ _ _ _ _ E1)) as (h1 & s1 & E & Hb1 & Ha1 & Hs1).
    { by eapply NoDup_last. }
    destruct (Hs1 _ _ _ _ _ E2) as (n2' & E2').
    destruct (hang_one _ _ _ _ _ _ _ _ _ Hb1 E2' Hn) as (h2 & s2 & h3 & E3 & E4 & Hl3 & Ha3 & Hs3).
    unfold hang. rewrite E. unfold attach in E3. destruct (set_next h1 (Some a1) (Some a2)) as [h2'|] eqn:E5; [|done].
    simpl in E3 |- *. rewrite E5. injection E3 as -> <-. simpl. rewrite E4. simpl.
    exists h3, s1, (Some a2). split; [done|]. split; [done|]. split; [|by apply (shape_trans _ h1)].
    apply (agree_trans _ _ (view h1)); [|done]. revert Ha1. apply agree_mono. rewrite !fmap_app. set_solver.
Qed.
Lemma row_app fs gs : row (fs ++ gs) = row fs ++ row gs.
Proof. apply bind_app. Qed.

Lemma kids_cons l v lt rt ts : kids (Bin l v lt rt :: ts) = (some lt ++ some rt) ++ kids ts.
Proof. done. Qed.

Lemma level_spec ts : forall fuel h saved head cs root,
  (length ts < fuel)%nat -> Forall (fun t => t ≠ Nil) ts -> chain (view h) root (row ts) ->
  Forall (fun t => exists p, rep h p t) ts -> level h saved head cs ->
  NoDup (cs ++ row (kids ts)).*1 -> (forall l, l ∈ (row ts).*1 -> l ∉ (cs ++ row (kids ts)).*1) ->
  exists h' saved' head', loop fuel round (mk_locals h saved head root) = Some (mk_locals h' saved' head' None) /\
    level h' saved' head' (cs ++ row (kids ts)) /\ agree (cs ++ row (kids ts)).*1 (view h) (view h') /\ shape h h'.
Proof.
  induction ts as [|t ts IH]; intros fuel h saved head cs root Hf Hne Hc Hr Hl Hn Hd;
    (destruct fuel as [|fuel]; [simpl in Hf; lia|]); rewrite loop_S.
  - simpl in Hc. subst root. exists h, saved, head. simpl. rewrite app_nil_r. split; [done|]. split; [done|].
    split; [done|apply shape_refl].
  - apply Forall_cons in Hne as [Ht Hne], Hr as [[p Hp] Hr]. destruct t as [|l v lt rt]; [done|].
    destruct Hp as (-> & pl & pr & n & El & Hlt & Hrt).
    destruct Hc as (-> & n' & El' & Hc). rewrite (level_view_lookup _ _ _ _ _ _ El) in El'. injection El' as <-.
    rewrite kids_cons, row_app, (assoc_L (++)) in Hn, Hd |- *.
    simpl. rewrite El. simpl.
    destruct (hang_spec h saved head cs l v lt rt pl pr n) as (h1 & s1 & hd1 & -> & Hl1 & Ha1 & Hs1); [done..| |].
    { rewrite fmap_app in Hn. by apply NoDup_app in Hn as (? & _). }
    simpl. destruct (Hs1 _ _ _ _ _ El) as (n' & El1).
    assert (n' = n) as ->.
    { assert (view h1 !! l = view h !! l) as E.
      { apply Ha1. specialize (Hd l ltac:(left)). rewrite fmap_app in Hd. set_solver. }
      rewrite (level_view_lookup _ _ _ _ _ _ El), (level_view_lookup _ _ _ _ _ _ El1) in E. congruence. }
    rewrite El1. simpl.
    destruct (IH fuel h1 s1 hd1 (cs ++ row (some lt ++ some rt)) n) as (h2 & s2 & hd2 & E & Hl2 & Ha2 & Hs2);
      [simpl in Hf; lia|done| | |done|done| |].
    + apply (list_seg_frame (view h)); [|done]. intros k Hk. apply Ha1.
      specialize (Hd k ltac:(by right)). rewrite fmap_app in Hd. set_solver.
    + eapply Forall_impl; [exact Hr|]. intros t (p & Hp). exists p. by apply (rep_shape h).
    + intros k Hk. apply Hd. by right.
    + exists h2, s2, hd2. split; [done|]. split; [done|]. split; [|by apply (shape_trans _ h1)].
      apply (agree_trans _ _ (view h1)); [|done]. revert Ha1. apply agree_mono. rewrite (fmap_app _ _ (row (kids ts))). set_solver.
Qed.

(** The nodes of a forest, and its levels. *)
Definition nodes (fs : list tree) : list (positive * Z) := fs ≫= all.
Definition nth_level (k : nat) (fs : list tree) : list tree := Nat.iter k kids fs.

Lemma kids_not_Nil fs : Forall (fun t => t ≠ Nil) (kids fs).
Proof.
  apply Forall_forall. intros t (u & Ht & _)%list_elem_of_bind. destruct u as [|l v lt rt]; [by apply not_elem_of_nil in Ht|].
  destruct lt, rt; set_solver.
Qed.

Lemma nodes_some t : nodes (some t) = all t.
Proof. destruct t; [done|]. unfold nodes. simpl. by rewrite app_nil_r. Qed.

Lemma nodes_kids fs : nodes fs ≡ₚ row fs ++ nodes (kids fs).
Proof.
  induction fs as [|t fs IH]; [done|]. destruct t as [|l v lt rt]; [done|].
  rewrite kids_cons. unfold nodes in *. rewrite !bind_app. fold (nodes (some lt)) (nodes (some rt)).
  rewrite !nodes_some. simpl. rewrite IH. solve_Permutation.
Qed.

Lemma row_nodes fs l : l ∈ (row fs).*1 -> l ∈ (nodes fs).*1.
Proof. rewrite nodes_kids, fmap_app. set_solver. Qed.

Lemma length_row fs : Forall (fun t => t ≠ Nil) fs -> length (row fs) = length fs.
Proof. induction 1 as [|[|l v lt rt] fs Ht _ IH]; [done|done|]. simpl. by rewrite <- IH. Qed.

Lemma kids_rep h fs : Forall (fun t => exists p, rep h p t) fs -> Forall (fun t => exists p, rep h p t) (kids fs).
Proof.
  induction 1 as [|t fs [p Hp] _ IH]; [constructor|]. destruct t as [|l v lt rt]; [done|].
  destruct Hp as (_ & pl & pr & n & _ & Hl & Hr). rewrite kids_cons. apply Forall_app. split; [|done].
  apply Forall_app. split; [destruct lt|destruct rt]; repeat constructor; eauto.
Qed.

Lemma rep_dom h p t l : rep h p t -> l ∈ (all t).*1 -> is_Some (h !! l).
Proof.
  revert p. induction t as [|m v lt IHl rt IHr]; intros p; simpl; [by intros _ ?%not_elem_of_nil|].
  intros (_ & pl & pr & n & Em & Hl & Hr). rewrite fmap_app, elem_of_cons, elem_of_app. intros [->|[?|?]]; eauto.
Qed.

Lemma nth_level_nil k : Nat.iter k kids [] = [].
Proof. induction k as [|k IH]; [done|]. simpl. by rewrite IH. Qed.

(** Each round of [R] chains the next level, and no node above it is touched. *)
Lemma connect_R_spec m : forall fs fuel h root,
  (length (nodes fs) <= m)%nat -> (m <= fuel)%nat -> Forall (fun t => t ≠ Nil) fs ->
  chain (view h) root (row fs) -> Forall (fun t => exists p, rep h p t) fs -> NoDup (nodes fs).*1 ->
  exists h', R fuel h root = Some h' /\ (forall k, exists p, chain (view h') p (row (nth_level k fs))) /\
    agree (nodes (kids fs)).*1 (view h) (view h') /\ shape h h'.
Proof.
  induction m as [|m IH]; intros fs fuel h root Hm Hf Hne Hc Hr Hn.
  all: destruct (decide (fs = [])) as [->|Hfs].
  1, 3: simpl in Hc; subst root; exists h; (split; [by destruct fuel|]); (split; [|split; [done|apply shape_refl]]);
    intros k; exists None; unfold nth_level; by rewrite nth_level_nil.
  { destruct fs as [|[|l v lt rt] fs]; [done|by apply Forall_cons in Hne as [? _]|simpl in Hm; lia]. }
  pose proof (chain_rounds _ _ _ Hc) as Hrd. unfold rounds in Hrd. unfold view in Hrd at 1. rewrite dom_fmap_L in Hrd.
  pose proof (length_row fs Hne) as Hlr.
  pose proof (nodes_kids fs) as Hp. pose proof (nodes_kids (kids fs)) as Hp2.
  rewrite Hp, fmap_app in Hn. apply NoDup_app in Hn as (_ & Hd & Hn).
  assert (length (nodes fs) = length (row fs) + length (nodes (kids fs)))%nat as Hln.
  { by rewrite Hp, length_app. }
  destruct (level_spec fs (S (S (base.size (dom h)))) h None None [] root) as (h1 & s1 & hd1 & E & [_ Hc1] & Ha1 & Hs1);
    [lia|done|done|done|by split| | |].
  { simpl. rewrite Hp2, fmap_app in Hn. by apply NoDup_app in Hn as (? & _). }
  { simpl. intros l Hl Hin%row_nodes. by apply (Hd l). }
  simpl in Hc1, Ha1.
  destruct (IH (kids fs) (pred fuel) h1 s1) as (h2 & E2 & Hk & Ha2 & Hs2);
    [destruct fs; simpl in *; [done|lia]|lia|apply kids_not_Nil|done| |done|].
  { apply kids_rep. eapply Forall_impl; [exact Hr|]. intros t (p & Ht). exists p. by apply (rep_shape h). }
  exists h2. split; [|split; [|split]].
  - destruct fs as [|[|l v lt rt] fs]; [done|by apply Forall_cons in Hne as [? _]|]. pose proof Hc as [-> _].
    destruct fuel as [|fuel]; [lia|]. simpl in E2 |- *. by rewrite E.
  - intros [|k]; [|destruct (Hk k) as [p Hkp]; exists p; unfold nth_level; by rewrite Nat.iter_succ_r].
    exists root. apply (list_seg_frame (view h)); [|done]. intros l Hl. rewrite Ha2, Ha1; [done| |].
    + intros ?%row_nodes. by apply (Hd l).
    + intros Hin. apply (Hd l Hl). rewrite Hp2, fmap_app. set_solver.
  - apply (agree_trans _ _ (view h1)).
    + revert Ha1. apply agree_mono. intros l. apply row_nodes.
    + revert Ha2. apply agree_mono. intros l. rewrite Hp2, fmap_app. set_solver.
  - by apply (shape_trans _ h1).
Qed.

(** C38: After connect the nodes of every level form a list by their [next]
    pointers; the tree itself is as before. *)
Theorem connect_levels h root t :
  rep h root t -> NoDup (all t).*1 ->
  exists h', connect h root = Some h' /\ rep h' root t /\
    forall k, exists p, chain (view h') p (row (nth_level k [t])).
Proof.
  intros Hr Hn. destruct t as [|l v lt rt].
  { simpl in Hr. subst root. exists h. split; [done|]. split; [done|]. intros k. exists None.
    destruct k as [|k]; [done|]. unfold nth_level. rewrite Nat.iter_succ_r. simpl kids.
    by rewrite nth_level_nil. }
  pose proof Hr as (-> & pl & pr & n & El & _). unfold connect.
  destruct (view_set_next h (Some l) None (<[l := mk_ListNode v None]> (view h))) as (h1 & E1 & Ev & Hs1).
  { apply set_next_ok with n. by apply (level_view_lookup _ _ _ pl pr). }
  rewrite E1. cbn [mbind option_bind].
  assert (rep h1 (Some l) (Bin l v lt rt)) as Hr1 by by apply (rep_shape h).
  destruct (connect_R_spec (length (nodes [Bin l v lt rt])) [Bin l v lt rt] (S (base.size (dom h1))) h1 (Some l))
    as (h2 & E2 & Hk & _ & Hs2); [done| | | | | |].
  - pose proof (nodes_rounds (view h1) (all (Bin l v lt rt)).*1 Hn) as Hrd. rewrite length_fmap in Hrd.
    unfold nodes, rounds, view in *. rewrite dom_fmap_L in Hrd. simpl. rewrite app_nil_r. simpl in Hrd.
    apply le_n_S. apply le_S_n in Hrd; [lia|]. intros m Hm. apply (rep_dom h1 (Some l) (Bin l v lt rt)) in Hm as [x Hx]; [|done].
    by rewrite lookup_fmap, Hx.
  - by repeat constructor.
  - simpl. split; [done|]. exists None. rewrite Ev. by rewrite lookup_insert_eq.
  - repeat constructor. by exists (Some l).
  - unfold nodes. simpl. by rewrite app_nil_r.
  - exists h2. split; [exact E2|]. split; [by apply (rep_shape h1)|done].
Qed.

Lemma connect_levels_witness :
  let h : memory := {[ 1%positive := mk 1 (Some 2%positive) (Some 3%positive) None;
    2%positive := mk 2 None (Some 4%positive) None; 3%positive := mk 3 (Some 5%positive) None (Some 1%positive);
    4%positive := mk 4 None None (Some 4%positive); 5%positive := mk 5 None None None ]} in
  let t := Bin 1 1 (Bin 2 2 Nil (Bin 4 4 Nil Nil)) (Bin 3 3 (Bin 5 5 Nil Nil) Nil) in
  rep h (Some 1%positive) t /\ NoDup (all t).*1 /\ row (nth_level 2 [t]) = [(4%positive, 4); (5%positive, 5)] /\
  exists h', connect h (Some 1%positive) = Some h' /\ rep h' (Some 1%positive) t /\
    forall k, exists p, chain (view h') p (row (nth_level k [t])).
Proof.
  intros h t.
  assert (rep h (Some 1%positive) t) as Hr.
  { repeat first [done | split | eexists]. all: by vm_compute. }
  assert (NoDup (all t).*1) as Hn by (by apply (bool_decide_unpack _); vm_compute).
  split; [done|]. split; [done|]. split; [done|]. exact (connect_levels h (Some 1%positive) t Hr Hn).
Defined.

End Any.

(** ** populating-next-right-pointers-in-each-node.cc *)
Module Perfect.

Record locals := mk_locals { mem : memory; head_ : ptr; root_ : ptr }.

(** src/code/leetcode/populating-next-right-pointers-in-each-node.cc:38-48 [Solution::R (loop)] *)
Definition round (s : locals) : option (locals + locals) :=
  let '(mk_locals h head root) := s in
  match root with
  | None => Some (inr s)
  | Some _ =>
      n ← load h root;
      let l := left_ n in
      let r := right_ n in
      h ← (match head with None => Some h | Some _ => set_next h head l end);
      h ← set_next h l r;
      h ← set_next h r None;
      n ← load h root;
      Some (inl (mk_locals h r (next n)))
  end.

(** src/code/leetcode/populating-next-right-pointers-in-each-node.cc:31-50 [Solution::R] *)
Fixpoint R (fuel : nat) (h : memory) (root : ptr) : option memory :=
  match fuel with
  | O => None
  | S fuel =>
      n ← load h root;
      match left_ n with
      | None => Some h
      | Some _ =>
          '(mk_locals h _ _) ← loop (S (S (base.size (dom h)))) round (mk_locals h None root);
          n ← load h root;
          R fuel h (left_ n)
      end
  end.

(** src/code/leetcode/populating-next-right-pointers-in-each-node.cc:21-29 [Solution::connect] *)
Definition connect (h : memory) (root : ptr) : option memory :=
  match root with
  | None => Some h
  | Some _ => h ← set_next h root None; R (S (base.size (dom h))) h root
  end.

(** All leaves are at the depth [d]. *)
Fixpoint perfect (d : nat) (t : tree) : Prop :=
  match d, t with
  | O, Nil => True
  | S d, Bin _ _ lt rt => perfect d lt /\ perfect d rt
  | _, _ => False
  end.

Lemma load_some h l : load h (Some l) = h !! l.
Proof. done. Qed.

(** Where a node has two children a round does what the round for any tree does. *)
Lemma round_any h saved head l v pl pr n h' saved' head' :
  h !! l = Some (mk v pl pr n) -> pl <> None -> pr <> None ->
  Any.hang h saved head pl pr = Some (h', saved', head') ->
  round (mk_locals h head (Some l)) = n ← load h' (Some l); Some (inl (mk_locals h' head' (next n))).
Proof.
  intros El Hl Hr. unfold Any.hang, round. destruct pl as [a|]; [|done]. destruct pr as [b|]; [|done].
  rewrite load_some, El. cbn [mbind option_bind left_ right_]. unfold attach.
  destruct head as [x|].
  - destruct (set_next h (Some x) (Some a)) as [h1|]; [|done]. cbn [mbind option_bind].
    destruct (set_next h1 (Some a) (Some b)) as [h2|]; [|done]. cbn [mbind option_bind].
    destruct (set_next h2 (Some b) None) as [h3|]; [|done]. cbn [mbind option_bind]. by intros [= -> _ <-].
  - cbn [mbind option_bind]. destruct (set_next h (Some a) (Some b)) as [h2|]; [|done]. cbn [mbind option_bind].
    destruct (set_next h2 (Some b) None) as [h3|]; [|done]. cbn [mbind option_bind]. by intros [= -> _ <-].
Qed.

Definition two (t : tree) : Prop := match t with Bin _ _ (Bin _ _ _ _) (Bin _ _ _ _) => True | _ => False end.

(** So does the loop over a level. *)
Lemma loop_any ts : forall fuel h saved head cs root,
  (length ts < fuel)%nat -> Forall two ts -> chain (view h) root (row ts) ->
  Forall (fun t => exists p, rep h p t) ts -> level h saved head cs ->
  NoDup (cs ++ row (kids ts)).*1 -> (forall l, l ∈ (row ts).*1 -> l ∉ (cs ++ row (kids ts)).*1) ->
  exists h' saved' head', loop fuel round (mk_locals h head root) = Some (mk_locals h' head' None) /\
    level h' saved' head' (cs ++ row (kids ts)) /\ agree (cs ++ row (kids ts)).*1 (view h) (view h') /\ shape h h'.
Proof.
  induction ts as [|t ts IH]; intros fuel h saved head cs root Hf Hne Hc Hr Hl Hn Hd;
    (destruct fuel as [|fuel]; [simpl in Hf; lia|]); rewrite loop_S.
  - simpl in Hc. subst root. exists h, saved, head. simpl. rewrite app_nil_r. split; [done|]. split; [done|].
    split; [done|apply shape_refl].
  - apply Forall_cons in Hne as [Ht Hne], Hr as [[p Hp] Hr]. destruct t as [|l v lt rt]; [done|].
    destruct Hp as (-> & pl & pr & n & El & Hlt & Hrt).
    destruct Hc as (-> & n' & El' & Hc). rewrite (level_view_lookup _ _ _ _ _ _ El) in El'. injection El' as <-.
    rewrite Any.kids_cons, Any.row_app, (assoc_L (++)) in Hn, Hd |- *.
    destruct (Any.hang_spec h saved head cs l v lt rt pl pr n) as (h1 & s1 & hd1 & Eh & Hl1 & Ha1 & Hs1); [done..| |].
    { rewrite fmap_app in Hn. by apply NoDup_app in Hn as (? & _). }
    rewrite (round_any _ _ _ _ _ _ _ _ _ _ _ El) with (3 := Eh).
    2:{ destruct lt; [done|]. by destruct Hlt as [-> _]. }
    2:{ destruct lt, rt; try done. by destruct Hrt as [-> _]. }
    destruct (Hs1 _ _ _ _ _ El) as (n' & El1).
    assert (n' = n) as ->.
    { assert (view h1 !! l = view h !! l) as E.
      { apply Ha1. specialize (Hd l ltac:(left)). rewrite fmap_app in Hd. set_solver. }
      rewrite (level_view_lookup _ _ _ _ _ _ El), (level_view_lookup _ _ _ _ _ _ El1) in E. congruence. }
    rewrite load_some, El1. cbn [mbind option_bind next].
    destruct (IH fuel h1 s1 hd1 (cs ++ row (some lt ++ some rt)) n) as (h2 & s2 & hd2 & E & Hl2 & Ha2 & Hs2);
      [simpl in Hf; lia|done| | |done|done| |].
    + apply (list_seg_frame (view h)); [|done]. intros k Hk. apply Ha1.
      specialize (Hd k ltac:(by right)). rewrite fmap_app in Hd. set_solver.
    + eapply Forall_impl; [exact Hr|]. intros t (p & Hp). exists p. by apply (rep_shape h).
    + intros k Hk. apply Hd. by right.
    + exists h2, s2, hd2. split; [done|]. split; [done|]. split; [|by apply (shape_trans _ h1)].
      apply (agree_trans _ _ (view h1)); [|done]. revert Ha1. apply agree_mono. rewrite (fmap_app _ _ (row (kids ts))). set_solver.
Qed.

Lemma perfect_leaves fs : Forall (perfect 1) fs -> kids fs = [].
Proof. induction 1 as [|[|l v lt rt] fs Hp _ IH]; [done..|]. destruct Hp. rewrite Any.kids_cons, IH. by destruct lt, rt. Qed.

Lemma perfect_kids d fs : Forall (perfect (S (S d))) fs -> Forall (perfect (S d)) (kids fs).
Proof.
  induction 1 as [|[|l v lt rt] fs Hp _ IH]; [constructor|done|]. destruct Hp as [Hl Hr]. rewrite Any.kids_cons.
  apply Forall_app. split; [|done]. destruct lt, rt; try done. by apply Forall_cons; split; [|apply Forall_singleton].
Qed.

Lemma perfect_two d fs : Forall (perfect (S (S d))) fs -> Forall two fs.
Proof. intros H. eapply Forall_impl; [exact H|]. intros [|l v [|] [|]]; cbn; tauto. Qed.

Lemma perfect_not_Nil d fs : Forall (perfect (S d)) fs -> Forall (fun t => t ≠ Nil) fs.
Proof. intros H. eapply Forall_impl; [exact H|]. by intros [|]. Qed.

Lemma connect_perfect_spec d : forall fs fuel h root,
  fs <> [] -> (d < fuel)%nat -> Forall (perfect (S d)) fs ->
  chain (view h) root (row fs) -> Forall (fun t => exists p, rep h p t) fs -> NoDup (Any.nodes fs).*1 ->
  exists h', R fuel h root = Some h' /\ (forall k, exists p, chain (view h') p (row (Any.nth_level k fs))) /\
    agree (Any.nodes (kids fs)).*1 (view h) (view h') /\ shape h h'.
Proof.
  induction d as [|d IH]; intros fs fuel h root Hfs Hf Hp Hc Hr Hn; (destruct fuel as [|fuel]; [lia|]).
  all: destruct fs as [|[|l v lt rt] fs]; [done|by apply Forall_cons in Hp as [? _]|].
  all: pose proof Hr as [[p (-> & pl & pr & n & El & Hlt & Hrt)] Hr']%Forall_cons; pose proof Hc as [-> _].
  all: cbn [R]; rewrite load_some, El; cbn [mbind option_bind left_].
  all: pose proof Hp as [[Hp1 Hp2] _]%Forall_cons.
  - (* leaves *)
    destruct lt; [|done]. cbn in Hlt. subst pl. exists h. split; [done|]. split; [|split; [done|apply shape_refl]].
    intros [|k]; [by exists (Some l)|]. exists None. unfold Any.nth_level. rewrite Nat.iter_succ_r, perfect_leaves by done.
    by rewrite Any.nth_level_nil.
  - destruct lt as [|a va la ra]; [done|]. pose proof Hlt as [-> _].
    remember (Bin l v (Bin a va la ra) rt :: fs) as ts eqn:Ets.
    pose proof (chain_rounds _ _ _ Hc) as Hrd. unfold rounds in Hrd. unfold view in Hrd at 1. rewrite dom_fmap_L in Hrd.
    pose proof (Any.length_row ts (perfect_not_Nil _ _ Hp)) as Hlr.
    pose proof (Any.nodes_kids ts) as Hpe. pose proof (Any.nodes_kids (kids ts)) as Hpe2.
    rewrite Hpe, fmap_app in Hn. apply NoDup_app in Hn as (_ & Hd & Hn).
    destruct (loop_any ts (S (S (base.size (dom h)))) h None None [] (Some l)) as (h1 & s1 & hd1 & -> & [_ Hc1] & Ha1 & Hs1);
      [lia|by eapply perfect_two|done|done|by split| | |].
    { simpl. rewrite Hpe2, fmap_app in Hn. by apply NoDup_app in Hn as (? & _). }
    { simpl. intros k Hk Hin%Any.row_nodes. by apply (Hd k). }
    simpl in Hc1, Ha1. cbn [mbind option_bind]. destruct (Hs1 _ _ _ _ _ El) as (n1 & El1). rewrite load_some, El1. cbn [mbind option_bind left_].
    assert (s1 = Some a) as -> by (rewrite Ets, Any.kids_cons in Hc1; by destruct Hc1 as [-> _]).
    destruct (IH (kids ts) fuel h1 (Some a)) as (h2 & -> & Hk & Ha2 & Hs2); [by rewrite Ets, Any.kids_cons|lia|by apply perfect_kids|done| |done|].
    { apply Any.kids_rep. eapply Forall_impl; [exact Hr|]. intros t (q & Ht). exists q. by apply (rep_shape h). }
    exists h2. split; [done|]. split; [|split].
    + intros [|k]; [|destruct (Hk k) as [q Hkq]; exists q; unfold Any.nth_level; by rewrite Nat.iter_succ_r].
      exists (Some l). apply (list_seg_frame (view h)); [|done]. intros k Hlk. rewrite Ha2, Ha1; [done| |].
      * intros ?%Any.row_nodes. by apply (Hd k).
      * intros Hin. apply (Hd k Hlk). rewrite Hpe2, fmap_app. apply elem_of_app. by right.
    + apply (agree_trans _ _ (view h1)).
      * revert Ha1. apply agree_mono. intros k. apply Any.row_nodes.
      * revert Ha2. apply agree_mono. intros k Hin. rewrite Hpe2, fmap_app. apply elem_of_app. by right.
    + by apply (shape_trans _ h1).
Qed.

Lemma perfect_depth d t : perfect d t -> (d <= length (all t))%nat.
Proof.
  revert t. induction d as [|d IH]; intros t; [lia|]. destruct t as [|l v lt rt]; [done|]. intros [Hl _].
  apply IH in Hl. cbn [all length]. rewrite length_app. lia.
Qed.

(** On a perfect tree the simpler program links every level too. *)
Theorem connect_perfect d h root t :
  rep h root t -> perfect d t -> NoDup (all t).*1 ->
  exists h', connect h root = Some h' /\ rep h' root t /\
    forall k, exists p, chain (view h') p (row (Any.nth_level k [t])).
Proof.
  intros Hr Hp Hn. destruct t as [|l v lt rt].
  { simpl in Hr. subst root. exists h. split; [done|]. split; [done|]. intros k. exists None.
    destruct k as [|k]; [done|]. unfold Any.nth_level. rewrite Nat.iter_succ_r. simpl kids.
    by rewrite Any.nth_level_nil. }
  destruct d as [|d]; [done|].
  pose proof Hr as (-> & pl & pr & n & El & _). unfold connect.
  destruct (view_set_next h (Some l) None (<[l := mk_ListNode v None]> (view h))) as (h1 & E1 & Ev & Hs1).
  { apply set_next_ok with n. by apply (level_view_lookup _ _ _ pl pr). }
  rewrite E1. cbn [mbind option_bind].
  assert (rep h1 (Some l) (Bin l v lt rt)) as Hr1 by by apply (rep_shape h).
  destruct (connect_perfect_spec d [Bin l v lt rt] (S (base.size (dom h1))) h1 (Some l))
    as (h2 & E2 & Hk & _ & Hs2); [done| | | | | |].
  - pose proof (nodes_rounds (view h1) (all (Bin l v lt rt)).*1 Hn) as Hrd. rewrite length_fmap in Hrd.
    pose proof (perfect_depth _ _ Hp). unfold rounds, view in *. rewrite dom_fmap_L in Hrd.
    enough (length (all (Bin l v lt rt)) + 2 <= S (S (base.size (dom h1))))%nat by lia.
    apply Hrd. intros m Hm. apply (Any.rep_dom h1 (Some l) (Bin l v lt rt)) in Hm as [x Hx]; [|done].
    by rewrite lookup_fmap, Hx.
  - by apply Forall_singleton.
  - simpl. split; [done|]. exists None. rewrite Ev. by rewrite lookup_insert_eq.
  - repeat constructor. by exists (Some l).
  - unfold Any.nodes. simpl. by rewrite app_nil_r.
  - exists h2. split; [exact E2|]. split; [by apply (rep_shape h1)|done].
Qed.

Lemma connect_perfect_witness :
  let h : memory := {[ 1%positive := mk 1 (Some 2%positive) (Some 3%positive) (Some 1%positive);
    2%positive := mk 2 None None None; 3%positive := mk 3 None None (Some 2%positive) ]} in
  let t := Bin 1 1 (Bin 2 2 Nil Nil) (Bin 3 3 Nil Nil) in
  rep h (Some 1%positive) t /\ perfect 2 t /\ NoDup (all t).*1 /\
  exists h', connect h (Some 1%positive) = Some h' /\ rep h' (Some 1%positive) t /\
    forall k, exists p, chain (view h') p (row (Any.nth_level k [t])).
Proof.
  intros h t.
  assert (rep h (Some 1%positive) t) as Hr.
  { repeat first [done | split | eexists]. all: by vm_compute. }
  assert (NoDup (all t).*1) as Hn by (by apply (bool_decide_unpack _); vm_compute).
  split; [done|]. split; [done|]. split; [done|]. exact (connect_perfect 2 h (Some 1%positive) t Hr ltac:(done) Hn).
Defined.

(** A node with one child makes it follow a null pointer. *)
Lemma connect_lopsided :
  connect {[ 1%positive := mk 1 (Some 2%positive) None None; 2%positive := mk 2 None None None ]} (Some 1%positive) = None.
Proof. vm_compute. reflexivity. Qed.
End Perfect.
