(* ===== verification/Graphs.v ===== *)
(** * Graphs: the exercises of src/code/leetcode that copy a graph

    The two of them walk a graph depth first and remember the copy of every node
    they have met. What both rely on is proved once over graphs of labels and
    edges: [extends] relates the memory and the copies before and after a call,
    with at most one node of the caller's still under construction. *)

From S2P Require Import Prelude Loops.

Notation ptr := (option positive) (only parsing).
Notation graph := (gmap positive (Z * list ptr)) (only parsing).
Notation copies := (gmap positive positive) (only parsing).

(** The copy of what a pointer leads to. *)
Definition img (f : copies) (p : ptr) : ptr := a ← p; f !! a.

(** Every edge leads to a node, or nowhere. *)
Definition valid (g0 : graph) (p : ptr) : Prop := forall a, p = Some a -> is_Some (g0 !! a).
Definition closed (g0 : graph) : Prop := forall a v es, g0 !! a = Some (v, es) -> Forall (valid g0) es.

Definition closedb (g0 : graph) : bool :=
  bool_decide (map_Forall (fun _ n => Forall (fun p => p = None \/ is_Some (p ≫= (g0 !!.))) n.2) g0).

Lemma closedb_closed g0 : closedb g0 = true -> closed g0.
Proof.
  intros H%bool_decide_eq_true a v es Ha. specialize (H a (v, es) Ha). eapply Forall_impl; [exact H|].
  by intros p [->|Hp] b E; [|rewrite E in Hp].
Qed.

Section copying.
Context (g0 : graph).

(** The originals are untouched; every copy is new, has the label of its
    original, and is the copy of no other. *)
Record inv (g : graph) (f : copies) : Prop := {
  inv_originals : g0 ⊆ g;
  inv_copy a b : f !! a = Some b ->
    g0 !! b = None /\ exists v es es', g0 !! a = Some (v, es) /\ g !! b = Some (v, es');
  inv_inj a a' b : f !! a = Some b -> f !! a' = Some b -> a = a' }.

(** The copy of [a] is finished: its edges lead to the copies. *)
Definition complete (g : graph) (f : copies) (a : positive) : Prop :=
  exists b v es, f !! a = Some b /\ g0 !! a = Some (v, es) /\ g !! b = Some (v, img f <$> es) /\
    Forall (fun p => p = None \/ is_Some (img f p)) es.

Definition extends (pending : ptr) (g : graph) (f : copies) (g' : graph) (f' : copies) : Prop :=
  inv g' f' /\ f ⊆ f' /\
  (forall l, is_Some (g !! l) -> img f pending ≠ Some l -> g' !! l = g !! l) /\
  (forall a, is_Some (f' !! a) -> f !! a = None -> complete g' f' a).

Lemma img_subseteq f f' p b : f ⊆ f' -> img f p = Some b -> img f' p = Some b.
Proof. intros Hf. destruct p as [a|]; [|done]. simpl. intros. by apply (lookup_weaken f). Qed.

Lemma img_subseteq_edges f f' es :
  f ⊆ f' -> Forall (fun p => p = None \/ is_Some (img f p)) es -> img f' <$> es = img f <$> es.
Proof.
  intros Hf. induction 1 as [|p es Hp _ IH]; [done|]. rewrite !fmap_cons, IH. f_equal.
  destruct Hp as [->|[b Hb]]; [done|]. by rewrite Hb, (img_subseteq f f' p b).
Qed.

Lemma extends_refl o g f : inv g f -> extends o g f g f.
Proof. intros Hi. split; [done|]. split; [done|]. split; [done|]. intros a [b Hb] Ha. by rewrite Ha in Hb. Qed.

Lemma complete_extends o g f g' f' a :
  inv g f -> extends o g f g' f' -> (forall b, f !! a = Some b -> img f o ≠ Some b) ->
  complete g f a -> complete g' f' a.
Proof.
  intros Hi (Hi' & Hf & Hg & _) Ho (b & v & es & Ha & Hv & Hb & He).
  exists b, v, es. split; [by apply (lookup_weaken f)|]. split; [done|]. split.
  - rewrite Hg; [|by rewrite Hb|by apply Ho]. by rewrite Hb, (img_subseteq_edges f f').
  - eapply Forall_impl; [exact He|]. intros p [->|[c Hc]]; [by left|right]. exists c. by apply (img_subseteq f).
Qed.

Lemma extends_trans o g1 f1 g2 f2 g3 f3 :
  inv g1 f1 -> (o = None \/ is_Some (img f1 o)) -> extends o g1 f1 g2 f2 -> extends o g2 f2 g3 f3 ->
  extends o g1 f1 g3 f3.
Proof.
  intros Hi Ho H12 H23. pose proof H12 as (Hi2 & Hf2 & Hg2 & Hc2). pose proof H23 as (Hi3 & Hf3 & Hg3 & Hc3).
  assert (img f2 o = img f1 o) as Eo.
  { destruct Ho as [->|[b Hb]]; [done|]. by rewrite Hb, (img_subseteq f1 f2 o b). }
  split; [done|]. split; [by transitivity f2|]. split.
  - intros l Hl Hne. rewrite Hg3; [by apply Hg2| |by rewrite Eo]. by rewrite Hg2.
  - intros a Ha3 Ha1. destruct (f2 !! a) as [b|] eqn:Ha2; [|by apply Hc3].
    apply (complete_extends o g2 f2); [done|done| |by apply Hc2].
    intros c Hc Hoc. rewrite Eo in Hoc. destruct o as [p|]; [|done]. simpl in Hoc.
    assert (a = p) as -> by (apply (inv_inj _ _ Hi2 a p c); [done|by apply (lookup_weaken f1)]).
    by rewrite Hoc in Ha1.
Qed.

(** Any step while no node is pending is one while some node is. *)
Lemma extends_weaken o g f g' f' : extends None g f g' f' -> extends o g f g' f'.
Proof. intros (? & ? & Hg & ?). split; [done|]. split; [done|]. split; [|done]. intros l Hl _. by apply Hg. Qed.

(** A node under construction gets its label, or other edges. *)
Lemma inv_edges g f a b v es es' :
  inv g f -> f !! a = Some b -> g0 !! a = Some (v, es) -> inv (<[b := (v, es')]> g) f.
Proof.
  intros [Ho Hc Hj] Ha Hv. split; [| |done].
  - apply map_subseteq_spec. intros l n Hl. destruct (Hc a b Ha) as (Hb & _).
    rewrite lookup_insert_ne by (intros ->; by rewrite Hl in Hb). by apply (lookup_weaken g0).
  - intros a' b' Ha'. destruct (Hc a' b' Ha') as (Hb' & v' & es1 & es2 & Hv' & Hg'). split; [done|].
    destruct (decide (b = b')) as [->|Hn].
    + assert (a = a') as <- by by apply (Hj a a' b'). rewrite Hv in Hv'. injection Hv' as <- <-.
      exists v, es, es'. by rewrite lookup_insert_eq.
    + exists v', es1, es2. by rewrite lookup_insert_ne.
Qed.

Lemma extends_edges g f a b v es es' :
  inv g f -> f !! a = Some b -> g0 !! a = Some (v, es) -> extends (Some a) g f (<[b := (v, es')]> g) f.
Proof.
  intros Hi Ha Hv. split; [by apply (inv_edges g f a b v es)|]. split; [done|]. split.
  - intros l _ Hn. apply lookup_insert_ne. simpl in Hn. congruence.
  - intros c [d Hd] Hc. by rewrite Hc in Hd.
Qed.

(** A new copy, whose label is that of its original and which no other node is
    the copy of. *)
Lemma inv_new_copy g f a b v es es' :
  inv g f -> f !! a = None -> g0 !! a = Some (v, es) -> g !! b = None -> inv (<[b := (v, es')]> g) (<[a := b]> f).
Proof.
  intros [Ho Hc Hj] Ha Hv Hb. assert (g0 !! b = None) as Hb0.
  { destruct (g0 !! b) eqn:E; [|done]. by rewrite (lookup_weaken _ _ _ _ E Ho) in Hb. }
  assert (forall a' b', f !! a' = Some b' -> b' ≠ b) as Hne.
  { intros a' b' H' ->. destruct (Hc a' b H') as (_ & ? & ? & ? & _ & E). by rewrite E in Hb. }
  split.
  - apply map_subseteq_spec. intros l n Hl. rewrite lookup_insert_ne by (intros ->; by rewrite Hl in Hb0).
    by apply (lookup_weaken g0).
  - intros a' b'. destruct (decide (a' = a)) as [->|Hn].
    + rewrite lookup_insert_eq. intros [= <-]. split; [done|]. exists v, es, es'. by rewrite lookup_insert_eq.
    + rewrite lookup_insert_ne by done. intros H'. destruct (Hc a' b' H') as (? & v' & es1 & es2 & ? & ?).
      split; [done|]. exists v', es1, es2. rewrite lookup_insert_ne; [done|]. intros ->. by apply (Hne a' b').
  - intros a1 a2 b'. destruct (decide (a1 = a)) as [->|H1], (decide (a2 = a)) as [->|H2];
      rewrite ?lookup_insert_eq, ?lookup_insert_ne by done; [done| | |by apply Hj].
    + intros [= <-] H'. by destruct (Hne a2 b).
    + intros H' [= <-]. by destruct (Hne a1 b).
Qed.

(** Once the edges of the pending node lead to the copies it is complete, and
    the whole visit extends what was there before the node was met. *)
Lemma extends_visit g f a b v es g2 f2 es' :
  inv g f -> f !! a = None -> g !! b = None -> g0 !! a = Some (v, es) ->
  extends (Some a) (<[b := (v, es')]> g) (<[a := b]> f) g2 f2 ->
  g2 !! b = Some (v, img f2 <$> es) -> Forall (fun p => p = None \/ is_Some (img f2 p)) es ->
  extends None g f g2 f2 /\ f2 !! a = Some b.
Proof.
  intros Hi Ha Hb Hv (Hi2 & Hf2 & Hg2 & Hc2) Hb2 He.
  assert (f2 !! a = Some b) as Ha2 by (apply (lookup_weaken (<[a := b]> f)); [apply lookup_insert_eq|done]).
  split; [|done]. split; [done|]. split.
  { transitivity (<[a := b]> f); [by apply insert_subseteq|done]. } split.
  - intros l Hl _. assert (l ≠ b) as Hn by (intros ->; rewrite Hb in Hl; by destruct Hl).
    rewrite Hg2.
    + by apply lookup_insert_ne.
    + by rewrite lookup_insert_ne.
    + simpl. rewrite lookup_insert_eq. congruence.
  - intros c Hc Hcf. destruct (decide (c = a)) as [->|Hn]; [by exists b, v, es|].
    apply Hc2; [done|]. by rewrite lookup_insert_ne.
Qed.

(** After a walk from nothing the copies are a graph of their own, isomorphic to
    the part of the original that can be reached. *)
Definition edge (a a' : positive) : Prop := exists v es, g0 !! a = Some (v, es) /\ Some a' ∈ es.

Definition isomorphic (g : graph) (f : copies) (p p' : ptr) : Prop :=
  g0 ⊆ g /\ img f p = p' /\ (forall a, p = Some a -> forall c, rtc edge a c -> is_Some (f !! c)) /\
  (forall a b, f !! a = Some b -> g0 !! b = None /\ forall a', f !! a' = Some b -> a' = a) /\
  (forall a b, f !! a = Some b -> exists v es, g0 !! a = Some (v, es) /\ g !! b = Some (v, img f <$> es)).

Lemma extends_isomorphic g f p p' :
  extends None g0 ∅ g f -> img f p = p' -> (p = None \/ is_Some p') -> isomorphic g f p p'.
Proof.
  intros (Hi & _ & _ & Hc) Hp Hs. split; [by apply inv_originals in Hi|]. split; [done|]. split; [|split].
  - intros a -> c Hr. assert (is_Some (f !! a)) as Ha by (by destruct Hs as [|]; subst).
    clear Hp Hs. induction Hr as [|a b c (v & es & Hv & Hin) _ IH]; [done|]. apply IH.
    destruct (Hc a Ha ltac:(done)) as (b' & v' & es' & _ & Hv' & _ & He). rewrite Hv in Hv'. injection Hv' as <- <-.
    rewrite Forall_forall in He. by destruct (He _ Hin).
  - intros a b Ha. split; [by destruct (inv_copy _ _ Hi a b Ha)|]. intros a' Ha'. by apply (inv_inj _ _ Hi a' a b).
  - intros a b Ha. destruct (Hc a ltac:(by rewrite Ha) ltac:(done)) as (b' & v & es & Ha' & Hv & Hb & _).
    rewrite Ha in Ha'. injection Ha' as <-. by exists v, es.
Qed.

Lemma inv_start : inv g0 ∅.
Proof. split; [done|done|done]. Qed.
End copying.

(** What is left to copy: a call meets one node more than its caller. *)
Definition left_ (g0 : graph) (f : copies) : nat := base.size (dom g0 ∖ dom f).

Lemma left_insert g0 f a b : is_Some (g0 !! a) -> f !! a = None -> (left_ g0 (<[a := b]> f) < left_ g0 f)%nat.
Proof.
  intros Ha Hf. unfold left_. apply subset_size. rewrite dom_insert_L. apply elem_of_dom in Ha.
  apply not_elem_of_dom in Hf. set_solver.
Qed.

Lemma left_subseteq g0 f f' : f ⊆ f' -> (left_ g0 f' <= left_ g0 f)%nat.
Proof. intros Hf%subseteq_dom. unfold left_. apply subseteq_size. set_solver. Qed.

(** ** copy-list-with-random-pointer.cc *)
Module CopyList.

(** src/code/leetcode/copy-list-with-random-pointer.cc:12-16 [RandomListNode] *)
Record RandomListNode := mk { label : Z; next : ptr; random : ptr }.
Notation memory := (gmap positive RandomListNode) (only parsing).

Definition new (h : memory) (x : Z) : memory * positive :=
  let l := fresh (dom h) in (<[l := mk x None None]> h, l).
Definition set_next (h : memory) (l : positive) (v : ptr) : option memory :=
  n ← h !! l; Some (<[l := mk (label n) v (random n)]> h).
Definition set_random (h : memory) (l : positive) (v : ptr) : option memory :=
  n ← h !! l; Some (<[l := mk (label n) (next n) v]> h).

(** [cache[head]] makes an entry with NULL when there is none.

    src/code/leetcode/copy-list-with-random-pointer.cc:20-35 [Solution::copyRandomList] *)
Fixpoint copyRandomList (fuel : nat) (h : memory) (cache : gmap positive ptr) (head : ptr) :
    option (memory * gmap positive ptr * ptr) :=
  match head with
  | None => Some (h, cache, None)
  | Some a =>
      match fuel with
      | O => None
      | S fuel =>
          let x := default None (cache !! a) in
          let cache := <[a := x]> cache in
          match x with
          | Some _ => Some (h, cache, x)
          | None =>
              n ← h !! a;
              let '(h, x) := new h (label n) in
              let cache := <[a := Some x]> cache in
              n ← h !! a;
              '(h, cache, c) ← copyRandomList fuel h cache (next n);
              h ← set_next h x c;
              n ← h !! a;
              '(h, cache, d) ← copyRandomList fuel h cache (random n);
              h ← set_random h x d;
              Some (h, cache, Some x)
          end
      end
  end.

Definition view (h : memory) : graph := (fun n => (label n, [next n; random n])) <$> h.

Lemma list_view_lookup h l n : h !! l = Some n -> view h !! l = Some (label n, [next n; random n]).
Proof. intros Hl. unfold view. by rewrite lookup_fmap, Hl. Qed.

Lemma view_Some h l v es : view h !! l = Some (v, es) -> exists n, h !! l = Some n /\ v = label n /\ es = [next n; random n].
Proof. unfold view. rewrite lookup_fmap. destruct (h !! l) as [n|]; [|done]. intros [= <- <-]. by exists n. Qed.

Lemma list_view_insert h l n : view (<[l := n]> h) = <[l := (label n, [next n; random n])]> (view h).
Proof. unfold view. by rewrite fmap_insert. Qed.

Lemma view_eq h h' l n : view h' !! l = view h !! l -> h !! l = Some n -> h' !! l = Some n.
Proof.
  intros E Hl. rewrite (list_view_lookup _ _ _ Hl) in E. apply view_Some in E as ([lb nx rd] & -> & E1 & E2).
  destruct n. simpl in *. by simplify_eq.
Qed.

Section copying.
Context (h0 : memory) (Hclosed : closed (view h0)).

(** A call either finds the copy or makes it, with all that can be reached. *)
Lemma copy_spec k : forall fuel h f head,
  inv (view h0) (view h) f -> valid (view h0) head -> (left_ (view h0) f <= k)%nat -> (k < fuel)%nat ->
  exists h' f' p, copyRandomList fuel h (Some <$> f) head = Some (h', Some <$> f', p) /\
    extends (view h0) None (view h) f (view h') f' /\ img f' head = p /\ (head = None \/ is_Some p).
Proof.
  induction k as [k IH] using lt_wf_ind. intros fuel h f head Hi Hv Hk Hf.
  destruct head as [a|]; [|exists h, f, None; split; [by destruct fuel|]; split; [by apply extends_refl|by split; [|left]]].
  destruct fuel as [|fuel]; [lia|]. simpl. rewrite lookup_fmap.
  destruct (f !! a) as [b|] eqn:Ea; simpl.
  { exists h, f, (Some b). rewrite insert_id by (by rewrite lookup_fmap, Ea). split; [done|].
    split; [by apply extends_refl|]. split; [done|right; by exists b]. }
  destruct (Hv a eq_refl) as [[v es] Hva]. pose proof Hva as (n0 & En0 & -> & ->)%view_Some.
  pose proof (lookup_weaken _ _ _ _ Hva (inv_originals _ _ _ Hi)) as (n & En & El & Ee)%view_Some.
  injection Ee as Enext Erandom. rewrite En. simpl. set (x := fresh (dom h)).
  assert (h !! x = None) as Hx by (apply not_elem_of_dom, is_fresh).
  assert (a ≠ x) as Hax by (intros ->; by rewrite Hx in En).
  rewrite lookup_insert_ne, En by done. simpl. rewrite insert_insert_eq, <- fmap_insert.
  set (h1 := <[x := mk (label n) None None]> h). set (f1 := <[a := x]> f).
  assert (inv (view h0) (view h1) f1) as Hi1.
  { unfold h1. rewrite list_view_insert. simpl. rewrite <- El. apply (inv_new_copy _ _ _ _ _ _ _ _ Hi Ea Hva).
    unfold view. by rewrite lookup_fmap, Hx. }
  assert (left_ (view h0) f1 < k)%nat as Hk1.
  { pose proof (left_insert (view h0) f a x ltac:(by rewrite Hva) Ea). unfold f1. lia. }
  pose proof (Hclosed a _ _ Hva) as [Hvn [Hvr _]%Forall_cons]%Forall_cons.
  destruct (IH (left_ (view h0) f1) ltac:(lia) fuel h1 f1 (next n)) as (h2 & f2 & c & E2 & Hx2 & Hc & Hcs);
    [done|by rewrite <- Enext|done|lia|].
  rewrite E2. simpl. pose proof Hx2 as (Hi2 & Hf2 & Hg2 & _).
  assert (forall l m, h1 !! l = Some m -> h2 !! l = Some m) as H12.
  { intros l m Hl. apply (view_eq h1); [|done]. apply Hg2; [by rewrite (list_view_lookup _ _ _ Hl)|done]. }
  unfold set_next at 1. rewrite (H12 x (mk (label n) None None)) by apply lookup_insert_eq. simpl.
  set (h3 := <[x := mk (label n) c None]> h2).
  assert (h3 !! a = Some n) as En3.
  { unfold h3. rewrite lookup_insert_ne by done. apply H12. unfold h1. by rewrite lookup_insert_ne. }
  rewrite En3. simpl.
  assert (f2 !! a = Some x) as Ea2 by (apply (lookup_weaken f1); [apply lookup_insert_eq|done]).
  assert (extends (view h0) (Some a) (view h2) f2 (view h3) f2) as Hx3.
  { unfold h3. rewrite list_view_insert. simpl. rewrite <- El. by apply (extends_edges _ _ _ _ _ _ _ _ Hi2 Ea2 Hva). }
  pose proof Hx3 as (Hi3 & _). pose proof (left_subseteq (view h0) _ _ Hf2) as Hk2.
  destruct (IH (left_ (view h0) f2) ltac:(lia) fuel h3 f2 (random n)) as (h4 & f4 & d & E4 & Hx4 & Hd & Hds);
    [done|by rewrite <- Erandom|done|lia|].
  rewrite E4. simpl. pose proof Hx4 as (Hi4 & Hf4 & Hg4 & _).
  assert (h4 !! x = Some (mk (label n) c None)) as Ex4.
  { assert (h3 !! x = Some (mk (label n) c None)) as Ex3 by apply lookup_insert_eq.
    apply (view_eq h3); [|done]. apply Hg4; [by rewrite (list_view_lookup _ _ _ Ex3)|done]. }
  unfold set_random. rewrite Ex4. simpl. set (h5 := <[x := mk (label n) c d]> h4).
  assert (f4 !! a = Some x) as Ea4 by by apply (lookup_weaken f2).
  assert (extends (view h0) (Some a) (view h4) f4 (view h5) f4) as Hx5.
  { unfold h5. rewrite list_view_insert. simpl. rewrite <- El. by apply (extends_edges _ _ _ _ _ _ _ _ Hi4 Ea4 Hva). }
  assert (extends (view h0) (Some a) (view h1) f1 (view h5) f4) as Hx15.
  { assert (is_Some (img f1 (Some a))) as Hs1 by (exists x; apply lookup_insert_eq).
    assert (is_Some (img f2 (Some a))) as Hs2 by by exists x.
    assert (is_Some (img f4 (Some a))) as Hs4 by by exists x.
    apply (extends_trans _ _ _ _ (view h2) f2); [done|by right|by apply extends_weaken|].
    apply (extends_trans _ _ _ _ (view h3) f2); [done|by right|done|].
    apply (extends_trans _ _ _ _ (view h4) f4); [done|by right|by apply extends_weaken|done]. }
  exists h5, f4, (Some x). split; [done|].
  destruct (extends_visit (view h0) (view h) f a x (label n0) [next n0; random n0] (view h5) f4 [None; None])
    as [Hx' Ha']; [done|done|by unfold view; rewrite lookup_fmap, Hx|done| | | |].
  - rewrite El. unfold h1 in Hx15. by rewrite list_view_insert in Hx15.
  - unfold h5. rewrite list_view_insert, lookup_insert_eq. rewrite El. do 2 f_equal.
    rewrite Enext, Erandom. simpl. rewrite Hd. f_equal.
    destruct Hcs as [En0'|[b Hb]]; [rewrite En0' in Hc |- *; by rewrite <- Hc|].
    rewrite Hb in Hc |- *. by rewrite (img_subseteq f2 f4 _ b).
  - rewrite Enext, Erandom. constructor; [|constructor; [|constructor]].
    + destruct Hcs as [->|[b Hb]]; [by left|right]. exists b. apply (img_subseteq f2); [done|]. by rewrite Hc.
    + by rewrite Hd.
  - split; [done|]. split; [done|]. right. by exists x.
Qed.

(** C37: The first call of a Solution object, whose cache is empty, ends for every
    list with random pointers, cycles included; the copy is isomorphic to what can
    be reached from the head and consists of new nodes only. A later call starts
    with the cache the earlier ones left and may return their nodes. *)
Theorem copyRandomList_isomorphic head :
  valid (view h0) head ->
  exists h' f p, copyRandomList (S (base.size (dom h0))) h0 ∅ head = Some (h', Some <$> f, p) /\
    isomorphic (view h0) (view h') f head p.
Proof.
  intros Hv. destruct (copy_spec (base.size (dom h0)) (S (base.size (dom h0))) h0 ∅ head)
    as (h' & f & p & E & Hx & Hp & Hs); [apply inv_start|done| |lia|].
  { unfold left_, view. rewrite dom_fmap_L, dom_empty_L, difference_empty_L. done. }
  exists h', f, p. rewrite fmap_empty in E. split; [done|]. by apply extends_isomorphic.
Qed.
End copying.

Lemma copyRandomList_isomorphic_witness :
  let h0 : memory := {[ 1%positive := mk 7 (Some 2%positive) (Some 2%positive);
    2%positive := mk 8 (Some 1%positive) None; 3%positive := mk 9 None None ]} in
  closed (view h0) /\ valid (view h0) (Some 1%positive) /\
  exists h' f p, copyRandomList (S (base.size (dom h0))) h0 ∅ (Some 1%positive) = Some (h', Some <$> f, p) /\
    isomorphic (view h0) (view h') f (Some 1%positive) p.
Proof.
  intros h0. assert (closed (view h0)) as Hc by (apply closedb_closed; by vm_compute).
  assert (valid (view h0) (Some 1%positive)) as Hv by (intros a [= <-]; eexists; by vm_compute).
  split; [done|]. split; [done|]. exact (copyRandomList_isomorphic h0 Hc (Some 1%positive) Hv).
Defined.

End CopyList.

(** ** clone-graph.cc *)
Module CloneGraph.

(** src/code/leetcode/clone-graph.cc:15-19 [UndirectedGraphNode] *)
Record UndirectedGraphNode := mk { label : Z; neighbors : list ptr }.
Notation memory := (gmap positive UndirectedGraphNode) (only parsing).

Definition load (h : memory) (p : ptr) : option UndirectedGraphNode := l ← p; h !! l.
Definition new (h : memory) (x : Z) : memory * positive :=
  let l := fresh (dom h) in (<[l := mk x []]> h, l).
Definition push_back (h : memory) (l : positive) (p : ptr) : option memory :=
  n ← h !! l; Some (<[l := mk (label n) (neighbors n ++ [p])]> h).

(** [value] is a reference to the entry of the label.

    src/code/leetcode/clone-graph.cc:32-43 [Solution::cloneGraphWithCache] *)
Fixpoint cloneGraphWithCache (fuel : nat) (h : memory) (node : ptr) (cache : gmap Z ptr) :
    option (memory * gmap Z ptr * ptr) :=
  match fuel with
  | O => None
  | S fuel =>
      n ← load h node;
      let value := default None (cache !! label n) in
      let cache := <[label n := value]> cache in
      match value with
      | Some _ => Some (h, cache, value)
      | None =>
          let '(h, copy) := new h (label n) in
          let cache := <[label n := Some copy]> cache in
          n ← load h node;
          '(h, cache) ← for_ (upto 0 (size (neighbors n) - 1)) (fun i '(h, cache) =>
            n ← load h node;
            e ← arr_get (neighbors n) i;
            '(h, cache, c) ← cloneGraphWithCache fuel h e cache;
            h ← push_back h copy c;
            Some (h, cache)) (h, cache);
          Some (h, cache, Some copy)
      end
  end.

(** src/code/leetcode/clone-graph.cc:23-30 [Solution::cloneGraph] *)
Definition cloneGraph (h : memory) (node : ptr) : option (memory * ptr) :=
  match node with
  | None => Some (h, None)
  | Some _ => '(h, _, p) ← cloneGraphWithCache (S (base.size (dom h))) h node ∅; Some (h, p)
  end.

Definition view (h : memory) : graph := (fun n => (label n, neighbors n)) <$> h.

Lemma graph_view_lookup h l : view h !! l = (fun n => (label n, neighbors n)) <$> h !! l.
Proof. apply lookup_fmap. Qed.

Lemma view_mk h l v es : view h !! l = Some (v, es) -> h !! l = Some (mk v es).
Proof. rewrite graph_view_lookup. destruct (h !! l) as [[]|]; [|done]. simpl. intros [= -> ->]. done. Qed.

Lemma graph_view_insert h l n : view (<[l := n]> h) = <[l := (label n, neighbors n)]> (view h).
Proof. unfold view. by rewrite fmap_insert. Qed.

Section copying.
Context (h0 : memory) (Hclosed : closed (view h0)).
Context (Hedges : forall a n, h0 !! a = Some n -> None ∉ neighbors n).
Context (Hlabels : forall a a' n n', h0 !! a = Some n -> h0 !! a' = Some n' -> label n = label n' -> a = a').

(** The cache holds the copies, by label. *)
Definition cached (cache : gmap Z ptr) (f : copies) : Prop :=
  forall a n, h0 !! a = Some n -> cache !! label n = Some <$> f !! a.

Lemma cached_insert cache f a n b :
  cached cache f -> h0 !! a = Some n -> cached (<[label n := Some b]> cache) (<[a := b]> f).
Proof.
  intros Hc Ha a' n' Ha'. destruct (decide (a' = a)) as [->|Hn].
  - rewrite Ha in Ha'. injection Ha' as <-. by rewrite !lookup_insert_eq.
  - rewrite (lookup_insert_ne f) by done. rewrite lookup_insert_ne; [by apply Hc|]. intros E. apply Hn.
    by apply (Hlabels a' a n' n).
Qed.

Definition promise (k : nat) (f : copies) : Prop :=
  forall fuel h cache a, inv (view h0) (view h) f -> is_Some (h0 !! a) -> cached cache f -> (k < fuel)%nat ->
  exists h' cache' f' b, cloneGraphWithCache fuel h (Some a) cache = Some (h', cache', Some b) /\ cached cache' f' /\
    extends (view h0) None (view h) f (view h') f' /\ f' !! a = Some b.

Lemma clone_spec k : forall f, (left_ (view h0) f <= k)%nat -> promise k f.
Proof.
  induction k as [k IH] using lt_wf_ind. intros f Hk fuel h cache a Hi [n Ea] Hc Hf.
  destruct fuel as [|fuel]; [lia|]. simpl.
  assert (view h0 !! a = Some (label n, neighbors n)) as Hva by by rewrite graph_view_lookup, Ea.
  assert (h !! a = Some n) as Eh.
  { rewrite (view_mk h a (label n) (neighbors n)); [by destruct n|].
    by apply (lookup_weaken (view h0)); [|apply (inv_originals _ _ _ Hi)]. }
  rewrite Eh. simpl. rewrite (Hc a n Ea). destruct (f !! a) as [b|] eqn:Efa; simpl.
  { exists h, (<[label n := Some b]> cache), f, b. split; [done|]. split; [|split; [by apply extends_refl|done]].
    rewrite <- (insert_id f a b) by done. by apply cached_insert. }
  set (x := fresh (dom h)). assert (h !! x = None) as Hx by (apply not_elem_of_dom, is_fresh).
  assert (a ≠ x) as Hax by (intros ->; by rewrite Hx in Eh).
  rewrite lookup_insert_ne, Eh by done. simpl. rewrite insert_insert_eq.
  set (h1 := <[x := mk (label n) []]> h). set (f1 := <[a := x]> f).
  assert (inv (view h0) (view h1) f1) as Hi1.
  { unfold h1. rewrite graph_view_insert. apply (inv_new_copy _ _ _ _ _ _ _ _ Hi Efa Hva). by rewrite graph_view_lookup, Hx. }
  assert (left_ (view h0) f1 < k)%nat as Hk1.
  { pose proof (left_insert (view h0) f a x ltac:(by rewrite Hva) Efa). unfold f1. lia. }
  assert (f1 !! a = Some x) as Ea1 by apply lookup_insert_eq.
  destruct (for_upto (fun i '(h', cache') => exists f', cached cache' f' /\
      extends (view h0) (Some a) (view h1) f1 (view h') f' /\
      h' !! x = Some (mk (label n) (img f' <$> take (Z.to_nat i) (neighbors n))) /\
      Forall (fun p => is_Some (img f' p)) (take (Z.to_nat i) (neighbors n)))
    0 (size (neighbors n) - 1) (fun i '(h, cache) =>
            n ← h !! a;
            e ← arr_get (neighbors n) i;
            '(h, cache, c) ← cloneGraphWithCache fuel h e cache;
            h ← push_back h x c;
            Some (h, cache)) (h1, <[label n := Some x]> cache)) as ([h2 cache2] & -> & f2 & Hc2 & Hx2 & E2 & Hs2).
  - lia.
  - exists f1. split; [by apply cached_insert|]. split; [by apply extends_refl|]. split; [apply lookup_insert_eq|constructor].
  - intros i [h' cache'] Hir (f' & Hc' & Hx' & E' & Hs').
    pose proof Hx' as (Hi' & Hf' & Hg' & _).
    assert (h' !! a = Some n) as Ea'.
    { rewrite (view_mk h' a (label n) (neighbors n)); [by destruct n|]. rewrite Hg'.
      - unfold h1. by rewrite graph_view_insert, lookup_insert_ne, graph_view_lookup, Eh.
      - unfold h1. by rewrite graph_view_insert, lookup_insert_ne, graph_view_lookup, Eh.
      - simpl. rewrite Ea1. congruence. }
    rewrite Ea'. simpl. destruct (arr_get_in (neighbors n) i) as [e He]; [lia|]. rewrite He. simpl.
    apply arr_get_Some in He as [_ He]. destruct e as [c|]; [|by destruct (Hedges a n Ea); apply list_elem_of_lookup_2 in He].
    assert (is_Some (h0 !! c)) as Hvc.
    { pose proof (Hclosed a _ _ Hva) as Hcl. rewrite Forall_lookup in Hcl. destruct (Hcl _ _ He c eq_refl) as [m Hm].
      rewrite graph_view_lookup in Hm. destruct (h0 !! c) as [m'|]; [by exists m'|done]. }
    pose proof (left_subseteq (view h0) f1 f' Hf') as Hk2.
    destruct (IH (left_ (view h0) f1) Hk1 f' Hk2 fuel h' cache' c) as (h3 & cache3 & f3 & b3 & -> & Hc3 & Hx3 & Hb3);
      [done|done|done|lia|].
    simpl. pose proof Hx3 as (Hi3 & Hf3 & Hg3 & _).
    assert (h3 !! x = h' !! x) as Ex3.
    { rewrite E'. apply view_mk. rewrite Hg3, graph_view_lookup, E'; [done| |done]. by rewrite graph_view_lookup, E'. }
    unfold push_back. rewrite Ex3, E'. simpl. eexists (_, _). split; [done|]. exists f3. split; [done|].
    assert (f3 !! a = Some x) as Ea3 by (apply (lookup_weaken f'); [by apply (lookup_weaken f1)|done]).
    split; [|split].
    + apply (extends_trans _ _ _ _ (view h') f'); [done|right; by exists x|done|].
      apply (extends_trans _ _ _ _ (view h3) f3); [done|right; exists x; by apply (lookup_weaken f1)|by apply extends_weaken|].
      rewrite graph_view_insert. by apply (extends_edges _ _ _ _ _ _ (neighbors n)).
    + rewrite lookup_insert_eq. do 2 f_equal. replace (Z.to_nat (i + 1)) with (S (Z.to_nat i)) by lia.
      rewrite (take_S_r _ _ _ He), fmap_app. simpl. rewrite Hb3. f_equal.
      symmetry. apply img_subseteq_edges; [done|]. eapply Forall_impl; [exact Hs'|]. by right.
    + replace (Z.to_nat (i + 1)) with (S (Z.to_nat i)) by lia. rewrite (take_S_r _ _ _ He). apply Forall_app. split.
      * eapply Forall_impl; [exact Hs'|]. intros p [q Hq]. exists q. by apply (img_subseteq f').
      * apply Forall_singleton. by exists b3.
  - simpl. rewrite Z.sub_add, take_ge in E2, Hs2 by lia. exists h2, cache2, f2, x. split; [done|]. split; [done|].
    apply (extends_visit (view h0) (view h) f a x (label n) (neighbors n) (view h2) f2 []); try done.
    + by rewrite graph_view_lookup, Hx.
    + unfold h1 in Hx2. by rewrite graph_view_insert in Hx2.
    + by rewrite graph_view_lookup, E2.
    + eapply Forall_impl; [exact Hs2|]. by right.
Qed.

(** The clone of a graph with distinct labels is isomorphic to what can be
    reached from its node, and consists of new nodes only. *)
Theorem cloneGraph_isomorphic node :
  valid (view h0) node ->
  exists h' f p, cloneGraph h0 node = Some (h', p) /\ isomorphic (view h0) (view h') f node p.
Proof.
  intros Hv. destruct node as [a|].
  - assert (is_Some (h0 !! a)) as Ha.
    { destruct (Hv a eq_refl) as [m Hm]. rewrite graph_view_lookup in Hm. destruct (h0 !! a) as [m'|]; [by exists m'|done]. }
    destruct (clone_spec (base.size (dom h0)) ∅) with (fuel := S (base.size (dom h0))) (h := h0) (cache := ∅ : gmap Z ptr) (a := a)
      as (h' & cache & f & b & E & _ & Hx & Hb); [|apply inv_start|done|by intros ? ? _|lia|].
    { unfold left_, view. rewrite dom_fmap_L, dom_empty_L, difference_empty_L. done. }
    exists h', f, (Some b). cbn [cloneGraph]. rewrite E. split; [done|].
    apply extends_isomorphic; [done|done|right; by exists b].
  - exists h0, ∅, None. split; [done|]. apply extends_isomorphic; [apply extends_refl, inv_start|done|by left].
Qed.
End copying.

(** Two nodes that are neighbours of each other, and one of itself. *)
Lemma cloneGraph_isomorphic_witness :
  let h0 : memory := {[ 1%positive := mk 7 [Some 2%positive; Some 1%positive]; 2%positive := mk 8 [Some 1%positive] ]} in
  closed (view h0) /\ valid (view h0) (Some 1%positive) /\
  exists h' f p, cloneGraph h0 (Some 1%positive) = Some (h', p) /\ isomorphic (view h0) (view h') f (Some 1%positive) p.
Proof.
  intros h0. assert (closed (view h0)) as Hc by (apply closedb_closed; by vm_compute).
  assert (valid (view h0) (Some 1%positive)) as Hv by (intros a [= <-]; eexists; by vm_compute).
  split; [done|]. split; [done|]. refine (cloneGraph_isomorphic h0 Hc _ _ (Some 1%positive) Hv).
  - intros a n [[<- <-]|[_ [<- <-]%lookup_singleton_Some]]%lookup_insert_Some; set_solver.
  - intros a a' n n' [[<- <-]|[_ [<- <-]%lookup_singleton_Some]]%lookup_insert_Some
      [[<- <-]|[_ [<- <-]%lookup_singleton_Some]]%lookup_insert_Some; done.
Defined.

End CloneGraph.
